(* ===== verification/_CoqProject ===== *)
-Q . S2P
Prelude.v
RustStr.v
PathConv.v
PatchParser.v
PatchParserFacts.v
PatchPrinter.v
SeekSequence.v
FileUpdate.v
FileUpdateFacts.v
ApplyPatch.v
ApplyPatchFacts.v
Invocation.v
InvocationFacts.v
ExecRule.v
ExecPolicy.v
ExecPolicyFacts.v
ExecPolicyParser.v
ExecPolicyParserFacts.v
ExecAmend.v
NetIp.v
NetPolicy.v
NetPolicyFacts.v
NetConfig.v
NetConfigFacts.v
MitmHook.v
MitmHookFacts.v
NetState.v
NetStateFacts.v
NetStateSafety.v
NetRequests.v
HeadTailBuffer.v
Truncate.v
OutputTruncation.v
Normalize.v
NormalizeFacts.v
InlineHiddenTag.v
InlineHiddenTagFacts.v
TaggedLine.v
TaggedLineFacts.v
Utf8Stream.v
TurnDiff.v
TurnDiffFacts.v
TurnDiffTurn.v
PasteBurst.v
PasteBurstFacts.v
UrlLib.v
PathUri.v
PathUriFacts.v
UrlModel.v
LegacyPath.v
Permissions.v
PermissionsDeny.v
PermissionsRoots.v
PermissionsSafety.v
PermissionsDenyFacts.v
HostModel.v
PathUriSafety.v
PermissionsRootsFacts.v
PermissionsPosix.v
PolicyTransforms.v
PolicyTransformsFacts.v
ShellSyntax.v
PowerShellSyntax.v
ShellSyntaxFacts.v
DangerousCommand.v
PowerShellSyntaxFacts.v
ExecApproval.v
ExecApprovalFacts.v
ExecApprovalSafety.v
ExecManager.v
ExecManagerFacts.v
Approvals.v
ToolSandbox.v
Orchestrator.v
OrchestratorFacts.v
NetApproval.v
NetApprovalFacts.v
WorldState.v
Rollout.v
RolloutFacts.v
