(* ===== verification/Prelude.v ===== *)
(** * Verification of the core logic of Codex

    Codex is a coding agent: a model proposes patches and commands, the program decides
    whether they may run, carries them out, and shows the model and the user what
    happened. The Rust workspace is under [src/codex-rs]. This development models the
    parts of it that decide and transform, and proves what makes them correct; the parts
    that only move data (network, terminal, databases, operating-system sandboxes) are
    not modelled.

    ** The parts and how they interact

    - A patch arrives as text, possibly streamed while the model writes it, in a command
      line. [invocation.rs] recognizes the call and computes the changes it would make,
      which are shown for approval; [parser.rs] and [streaming_parser.rs] parse the patch;
      [seek_sequence.rs], [file_update.rs] and [text_file.rs] compute the new contents of
      a file; [lib.rs] applies the hunks and reports what it changed as a delta
      (crate [apply-patch]). The deltas of all attempts of a turn go to the tracker of
      [core/src/turn_diff_tracker.rs], which shows their net diff.
    - A command is judged by rules loaded from policy files and amended when the user
      approves a prefix for good (crate [execpolicy]). The script of a shell is split into
      the commands it runs, and commands that no rule matches are judged by heuristics
      (crate [shell-command], [core/src/exec_policy.rs]); rules files of all configuration
      layers are loaded and updated by one manager.
    - A call that needs consent is put to hooks, to an automatic reviewer or to the user,
      whose consent can be remembered for the session ([core/src/tools/approvals.rs]); the
      orchestrator then attempts it in a sandbox and after a denial possibly without one
      ([core/src/tools/orchestrator.rs]); patches that stay inside the writable paths are
      approved automatically ([core/src/safety.rs]).
    - What a command may read and write is a file system policy: entries that grant or
      deny access to paths, evaluated for the executor that owns the paths. Policies are
      built from the legacy sandbox modes, from workspace roots and from requests for more
      permissions that the user granted in part ([protocol/src/permissions.rs],
      [protocol/src/models.rs], [sandboxing/src/policy_transforms.rs]); the paths are file
      URIs that are compared and joined without the file system ([utils/path-uri]).
    - The connections a command opens go through a proxy that allows or blocks hosts,
      methods and intercepted requests, by a configuration that managed constraints
      bound and that users and environments change while it runs (crate [network-proxy]).
      A host on no list is put to a reviewer while the connection waits
      ([core/src/tools/network_approval.rs]): requests for the same host share a review, and
      a refusal ends the call that made the request.
    - The output of a command is kept in a capped buffer
      ([core/src/unified_exec/head_tail_buffer.rs]) and truncated before it goes back to
      the model ([utils/string/src/truncate.rs], [utils/output-truncation]).
    - The conversation is normalized before it is sent to the model, so that calls and
      outputs are paired ([core/src/context_manager/normalize.rs]). What the model was told
      about its surroundings is a snapshot of which only changes are sent and persisted
      ([core/src/context/world_state]); a session that is resumed reads it, and the settings
      and the context of its turns, back from the rollout, in which turns may have been
      rolled back ([core/src/session/rollout_reconstruction.rs]).
    - The text of the model is streamed through parsers that hide citations and plan
      blocks ([utils/stream-parser]).
    - The keys of the user go through a detector of pastes that holds characters back for
      a while before they reach the draft ([tui/src/bottom_pane/paste_burst.rs]).

    ** Files and sources

    Shared: [Prelude] (results, the state-and-error monad with its Hoare triples,
    tactics, the hint database [codex]), [RustStr] (strings as lists of code points
    with their UTF-8 lengths, the methods of [str] the sources use, saturating [usize]
    arithmetic, I/O errors, the order of strings and sorting by a string key) and
    [PathConv] (path conventions and platforms, [utils/path-uri]).

    Crate [apply-patch]:
    - [PatchParser]: [parser.rs], [streaming_parser.rs]. The parser is a record with the
      line buffer, the mode, the hunks and the line number; [push_delta] and [finish] run
      in the state-and-error monad. [PatchParserFacts], [PatchPrinter] (a printer of
      patches, and parsing the kept text again).
    - [SeekSequence]: [seek_sequence.rs].
    - [FileUpdate]: [file_update.rs], [text_file.rs]; an operation that can panic returns
      [option]. [FileUpdateFacts].
    - [ApplyPatch]: [lib.rs]. The file system, the path type and the output streams are
      type classes over a world; the delta is accumulated in the state. [ApplyPatchFacts]
      states what is assumed of a file system ([PlainFiles]) and has an in-memory
      instance on which the theorems are run.
    - [Invocation]: [invocation.rs]; [InvocationFacts].

    Turn diffs (crate [core]):
    - [TurnDiff]: [turn_diff_tracker.rs], the attempts of [tools/runtimes/apply_patch.rs]
      and the updates of the tracker in [tools/events.rs]. The tracker is a record of
      three maps, the cache of rendered diffs and the revision counter. The diff library,
      SHA-1 and relative paths are the class [TurnDiffEnv], and so is the order in which
      a hash map is iterated, of which [HashOrder] assumes that it lists the map.
      [TurnDiffFacts], [TurnDiffTurn] (whole turns, on the class [PlainFiles] of
      [ApplyPatchFacts]).

    Crate [execpolicy]:
    - [ExecRule]: [decision.rs], [rule.rs], [error.rs], [executable_name.rs].
    - [ExecPolicy]: [policy.rs]; [ExecPolicyFacts].
    - [ExecPolicyParser]: [parser.rs] and the loading loop of [execpolicycheck.rs]; the
      Starlark interpreter is an interface that delivers calls of the three builtins.
      [ExecPolicyParserFacts].
    - [ExecAmend]: [amend.rs] and the text transformation of [sandbox_migration.rs], with its theorems.

    Commands and tools (crates [shell-command], [core], [sandboxing], [config]):
    - [ShellSyntax]: [shell_detect.rs], [bash.rs]. Syntax trees are an inductive type, and
      the tree-sitter grammar that produces them is the class [BashParser].
      [ShellSyntaxFacts].
    - [PowerShellSyntax]: [powershell_tree_sitter.rs], [powershell.rs], with the class
      [PowerShellParser]; [PowerShellSyntaxFacts].
    - [DangerousCommand]: [is_dangerous_command.rs], [windows_dangerous_commands.rs];
      [shlex], the regular expression and [url] are the class [CommandLibs]. With its theorems.
    - [ExecApproval]: the decision on a command line of [exec_policy.rs] with
      [model_policy.rs] and [executable_identity.rs]; [ExecApprovalFacts] (verdicts),
      [ExecApprovalSafety].
    - [ExecManager]: loading and updating the rules of [exec_policy.rs]; directories and
      files are the class [RulesFiles], and concurrent updates a step relation.
      [ExecManagerFacts].
    - [Approvals]: [approvals.rs], [command_canonicalization.rs] and the cache of
      [sandboxing.rs]; hooks, reviewer and user are the class [Reviewers], the
      serialization of keys the class [KeyJson]. With its theorems.
    - [ToolSandbox]: [safety.rs], [core/src/apply_patch.rs] and the choice of a sandbox in
      [sandboxing.rs] and [sandboxing/src/manager.rs].
    - [Orchestrator]: [orchestrator.rs], with the trace of questions and attempts;
      [OrchestratorFacts].
    - [NetApproval]: [network_approval.rs] with the messages of
      [network_policy_decision.rs]. The service is a record; requests are tasks that take
      steps over it, one per section under a lock, and the answers of reviewers, dropped
      requests, calls that begin and end are steps of the environment. A log has what was
      answered and decided. [NetApprovalFacts].

    Paths (crate [path-uri]):
    - [UrlLib]: the crates [url], [urlencoding] and [base64] as the class [UrlLib], the
      documented laws the theorems use as [UrlLaws], and the text codecs of the standard
      library. [UrlModel] is an executable instance, on which the witnesses run.
    - [PathUri]: [lib.rs], [absolute_path_normalization.rs], [native_path_bytes.rs].
      [PathUriFacts] (equality and hashing, with the equivalence as an instance,
      and POSIX paths as lists of segments), [PathUriSafety] (joining, containment).
    - [LegacyPath]: [api_path_string.rs], [config_path.rs].

    Permissions (crates [protocol], [sandboxing]):
    - [Permissions]: the data of [permissions.rs] and the evaluation of a path;
      [PermissionsSafety], [PermissionsPosix].
    - [PermissionsDeny]: the matchers of read denials, [permissions/target.rs],
      [permissions/deny_read_validator.rs], [permissions/windows_glob.rs]; compiling a glob
      is the class [GlobLib]. [PermissionsDenyFacts].
    - [PermissionsRoots]: workspace roots and legacy policies; the file system of the host,
      its paths and temporary directory are the class [LocalHost], with an instance in
      [HostModel]. [PermissionsRootsFacts].
    - [PolicyTransforms]: [policy_transforms.rs] and the profiles of [models.rs];
      [PolicyTransformsFacts].

    Crate [network-proxy]:
    - [NetIp]: address literals and the address ranges of [policy.rs], with its theorems.
    - [NetPolicy]: the rest of [policy.rs]. The crates [globset] and [url] are the class
      [NetLibs]; [GlobLaws] states what their documentation says of the few shapes of
      globs the proxy builds. [NetPolicyFacts].
    - [NetConfig]: [config.rs], [environment_policy.rs], [socket_path.rs];
      [NetConfigFacts].
    - [MitmHook]: [mitm_hook.rs], [authorization_path.rs]; [MitmHookFacts].
    - [NetState]: [state.rs], [runtime.rs], [network_policy.rs], [connect_policy.rs]. An
      operation runs in the state-and-error monad on the record the lock protects. What
      the reloader answers and what a name resolves to are arguments. An operation that
      takes the lock twice has a part under the read lock and a part under the write
      lock, with an arbitrary change by other tasks in between. [NetStateFacts] (the
      invariant and the interleavings), [NetStateSafety] (what is let
      through), [NetRequests] (requests, connections, updates).

    Conversation history (crates [core], [protocol], [history], [context-fragments]):
    - [Normalize]: the items, their envelopes and annotated contents, of which the types
      the code only carries along are the class [ProtocolTypes]; [normalize.rs] and the operations of [history.rs] that use it. The
      panic of debug builds is [None]. [NormalizeFacts].
    - [WorldState]: [context/world_state/mod.rs] and the persisting of its records in
      [history.rs] and [session/mod.rs], with its theorems.
    - [Rollout]: the markers of injected context ([contextual_user_message.rs],
      [event_mapping.rs]), the backward scan of [rollout_reconstruction.rs], cutting
      rollouts ([thread_rollout_truncation.rs]) and dropping turns ([history.rs]); the
      parsers of embedded XML and JSON and of UUIDs are the class [RolloutLib].
      [RolloutFacts].

    Output, streamed text, input:
    - [HeadTailBuffer]: [head_tail_buffer.rs], with its theorems.
    - [Truncate]: [truncate.rs]; [OutputTruncation]: [utils/output-truncation].
    - [InlineHiddenTag]: [stream_text.rs] (the trait is a type class),
      [inline_hidden_tag.rs], [citation.rs]; [InlineHiddenTagFacts].
    - [TaggedLine]: [tagged_line_parser.rs], [proposed_plan.rs], [assistant_text.rs];
      [TaggedLineFacts].
    - [Utf8Stream]: [utf8_stream.rs], with its theorems.
    - [PasteBurst]: [paste_burst.rs] and the key and paste handling of [chat_composer.rs],
      [paste_input.rs] and [reconnect.rs] around it; time is an argument. The textarea and
      the attachments are the class [Draft]; [ImmediateEditor] relates it to an editor
      without detection, and [Edits] says what events may do to that. [PasteBurstFacts].

    ** What the theorems show

    - Patches: parsing does not depend on how the text was streamed, accepts only
      complete hunks, is inverted by the printer, and is stable when the kept text is
      parsed again; a block of lines is found at the strictest level at which it occurs;
      both appliers splice the replacements; line endings round-trip.
    - Application: an exact delta replays and undoes the run, on success and on failure;
      a successful run refines a specification of the hunks; nothing panics on any file
      system. Verification and application agree: the changes shown are the changes made,
      unless a file is moved onto a path that another hunk is about (shown by an example),
      and a file moved onto itself is lost (shown by a theorem).
    - Turn diffs: through any patches, attempts and environments, as long as the tracker
      is valid, its diff is the net diff of the files before the turn and now, with
      renames paired and every cached rendering current.
    - Policies: a command gets the strictest decision of the matching rules; merging,
      adding a rule, resolving executables and loading files do what they should and keep
      the invariant of the policy; a rule that was loaded is enforced; an appended rule is
      appended once and on its own line; the migration removes exactly the banned rules.
    - Commands: a script is split exactly when everything in it was reviewed, and no part of
      a PowerShell script is dropped; the classifier finds exactly the dangerous commands
      behind wrappers, and what is nested too deep is dangerous. A command line needs what
      the verdicts on its commands say; a dangerous command that no rule covers is never
      skipped; an unfamiliar shell gains no trust from its script; an accepted amendment has
      the effect it was proposed for. The requirements survive loading, and concurrent
      updates are serializable and never stuck. Two lemmas show gaps: only the first
      argument after [-Command] of PowerShell is looked at, also for the keys of the cache.
    - Tools: a cached approval was given before for each of its keys; hooks come before the
      reviewer and the user; no attempt is made before the consent it needs; the sandbox is
      left only for a reason and never when reads are denied; an automatic patch writes only
      where it may. A lemma shows that consent to reach a host under [OnRequest] drops the
      whole sandbox.
    - Network approval: in every run of concurrent requests, one that is let through is for
      a host that a reviewer allowed (or that another session handed over) and that no later
      rule denied; requests share one review and
      its answer; no request waits forever; a refusal cancels the call and is reported.
    - Paths: equality of URIs is an equivalence that agrees with hashing; containment of
      POSIX paths is the prefix order on their components, and joining resolves components
      one by one without leaving the root. For Windows paths with bytes that are not UTF-8
      equality and containment disagree (shown by a theorem).
    - Permissions: a path gets the access of the deepest entry that contains it; below a
      denied directory only an entry inside it gives access; metadata directories need a
      grant of their own; full-disk access means every path; denials survive a change of
      the allow side; materializing workspace entries changes no decision, and legacy
      policies round-trip; an intersection grants only what was requested and granted and
      keeps the denials of both. Three theorems show gaps: the order of entries can lift
      the protection of metadata, a workspace denial that climbs out of the workspace is
      lost when materialized, and an intersection forgets read-only parts of a request.
    - Addresses and patterns: a parsed address fits its width; the non-public addresses
      are a table of ranges; a pattern allows another exactly when it covers its hosts,
      and a compiled list matches the hosts its patterns cover.
    - The proxy: every interleaving of its operations keeps the state consistent with the
      configuration and within the constraints; a host is let through only when the lists
      say so, and the managed lists hold whatever the user's lists say; local addresses
      need an explicit entry, also after name resolution; a decider overrides only the
      absence of an entry; a denial that was added blocks; an environment can only narrow
      the policy; listeners stay local; the first matching hook applies, to paths that
      read the same for every upstream; the retry loops end when nobody disturbs them.
      Two theorems show gaps: an update can lose blocked requests recorded meanwhile, and
      a pattern in a form the check does not parse can cover more hosts than the managed
      allowlist.
    - History: what is sent is paired and free of unsupported media, normalizing again
      changes nothing, and dropping the oldest item keeps the pairing. Merge patches round
      trip; resuming reads exactly the turns that survive all rollbacks, although it goes
      backwards and stops early, and finds the world as the session left it; dropping turns
      removes as many messages as it should. A lemma shows that a turn in which the user
      wrote twice is rolled back only in part.
    - Output: the buffer is a function of the whole output however it arrived and was
      split over buffers; truncation respects its budget and accounts for what it drops.
    - Streamed text: the parsers agree with a reading of the whole text, in any chunks,
      down to bytes that split code points.
    - Input: the draft is that of an editor in which the keys took effect in their order, at
      once or as pasted runs of text, up to the text still held, and nothing is held longer
      than the idle timeout. A paste that the terminal reports drops what is held (shown by
      a theorem).

    ** Bounds and fuel

    [push_loop] of [InlineHiddenTag] gets one unit of fuel more than it has pending
    characters; each iteration that continues consumes a nonempty delimiter, and
    [push_loop_parses] proves that the fuel is enough. [from_utf8_loop] gets as much
    fuel as bytes, and every step consumes a byte. The retry loops of [NetState] run
    over a list of turns, one per iteration, and say when they are still running at its
    end; a theorem of [NetRequests] shows that a turn without interference ends them.
    The ancestors of a path URI get one unit of fuel per segment of its URL and one
    more; [parent] drops a segment, and a lemma of [PathUriFacts] computes all ancestors
    of a POSIX path from it. The walk over a syntax tree gets as much fuel as the tree
    has nodes, and [walk_tree_pushes] of [ShellSyntaxFacts] shows that it ends; the scan
    between PowerShell commands gets the length of the script and the number of ranges,
    the words of a command the length of its text, and each step consumes one of them;
    detecting a shell gets the length of the path, which every stem shortens
    ([detect_shell_fuel]). A request for network access has a weight that every step
    decreases, which bounds the steps of all requests together. The depth of wrappers is bounded in the code itself. All
    other functions are structurally recursive. Lengths and positions are natural
    numbers where the code cannot overflow in memory; counters with saturating
    arithmetic are kept at their width, and addresses are 32-bit and 128-bit numbers.

    ** Not modelled

    The agent loop, the user interfaces apart from the input path named above, the
    servers and clients, the launchers of the platform sandboxes, storage and most of
    the configuration; the servers, the certificates and the credential broker of the
    proxy; the Starlark interpreter, the grammars of tree-sitter, [globset], [url],
    [urlencoding], [base64], the diff library, SHA-1, [shlex], name resolution and the
    file systems, which are interfaces here, as are the prompts, the hooks and the
    automatic reviewer behind an approval; the proxies built for a call and the texts shown
    to reviewers; recording items in a history and replaying one on top of a checkpoint.
    Candidates for extension: the layering of configurations, the token estimates of
    [history.rs], forks of a rollout, the writable roots that [permissions.rs]
    computes with canonical paths of the local host, the unix sockets and the credential
    broker of the proxy, fuzzy matching and templates, and the file handling of the
    policy migration. *)
From stdpp Require Import base list numbers strings gmap pretty.

(** * Results

    Rust's [Result<T, E>], with the success type first as in the source. *)
Inductive Result (A E : Type) : Type :=
| Ok (a : A)
| Err (e : E).
Arguments Ok {A E} a.
Arguments Err {A E} e.

Definition res_bind {A B E} (f : A → Result B E) (r : Result A E) : Result B E :=
  match r with
  | Ok a => f a
  | Err e => Err e
  end.

Definition map_err {A E F} (f : E → F) (r : Result A E) : Result A F :=
  match r with
  | Ok a => Ok a
  | Err e => Err (f e)
  end.

Definition ok_or {A E} (o : option A) (e : E) : Result A E :=
  match o with
  | Some a => Ok a
  | None => Err e
  end.

Definition is_ok {A E} (r : Result A E) : bool :=
  match r with
  | Ok _ => true
  | Err _ => false
  end.

(** [iter.map(f).collect::<Result<Vec<_>, _>>()]: the first error wins. *)
Fixpoint collect_results {A B E} (f : A → Result B E) (l : list A) : Result (list B) E :=
  match l with
  | [] => Ok []
  | x :: l => res_bind (λ y, res_bind (λ ys, Ok (y :: ys)) (collect_results f l)) (f x)
  end.

(** * A state and error monad

    A method that takes [&mut self] and returns [Result<A, E>]: the state it
    leaves behind is part of the outcome on both paths. *)
Definition SE (S A E : Type) : Type := S → S * Result A E.

Definition se_ret {S A E} (a : A) : SE S A E := λ s, (s, Ok a).
Definition se_fail {S A E} (e : E) : SE S A E := λ s, (s, Err e).
Definition se_get {S E} : SE S S E := λ s, (s, Ok s).
Definition se_put {S E} (s : S) : SE S unit E := λ _, (s, Ok tt).
Definition se_modify {S E} (f : S → S) : SE S unit E := λ s, (f s, Ok tt).
Definition se_lift {S A E} (r : Result A E) : SE S A E := λ s, (s, r).
Definition se_bind {S A B E} (m : SE S A E) (k : A → SE S B E) : SE S B E := λ s,
  match m s with
  | (s', Ok a) => k a s'
  | (s', Err e) => (s', Err e)
  end.

Declare Scope codex_scope.
Delimit Scope codex_scope with codex.
Notation "x <-- m ;; k" := (se_bind m (λ x, k))
  (at level 100, m at next level, right associativity) : codex_scope.
Notation "m ;;; k" := (se_bind m (λ _, k))
  (at level 100, right associativity) : codex_scope.
Notation "'let?' x := r 'in' k" := (res_bind (λ x, k) r)
  (at level 100, x name, r at level 100, k at level 200) : codex_scope.
Open Scope codex_scope.

(** ** Hoare triples

    [triple Pre m Post Bad]: run from a state with [Pre], [m] returns a value and
    a state with [Post], or an error and a state with [Bad]. *)
Definition triple {S A E} (Pre : S → Prop) (m : SE S A E) (Post : A → S → Prop)
    (Bad : E → S → Prop) : Prop :=
  ∀ s, Pre s →
    match m s with
    | (s', Ok a) => Post a s'
    | (s', Err e) => Bad e s'
    end.

Section Triples.
Context {S A B E : Type}.
Implicit Types (m : SE S A E) (Pre : S → Prop) (Post : A → S → Prop) (Bad : E → S → Prop).

Lemma triple_ret Pre (a : A) Post Bad : (∀ s, Pre s → Post a s) → triple Pre (se_ret a) Post Bad.
Proof. intros H s Hs. by apply H. Qed.

Lemma triple_fail Pre (e : E) Post Bad :
  (∀ s, Pre s → Bad e s) → triple Pre (se_fail e) Post Bad.
Proof. intros H s Hs. by apply H. Qed.

Lemma triple_bind Pre m (k : A → SE S B E) (Mid : A → S → Prop) (Post : B → S → Prop) Bad :
  triple Pre m Mid Bad → (∀ a, triple (Mid a) (k a) Post Bad) →
  triple Pre (a <-- m ;; k a) Post Bad.
Proof.
  intros Hm Hk s Hs. unfold se_bind. specialize (Hm s Hs).
  destruct (m s) as [s' [a|e]]; [by apply Hk|done].
Qed.

Lemma triple_weaken Pre Pre' m Post Post' Bad Bad' :
  triple Pre' m Post' Bad' → (∀ s, Pre s → Pre' s) → (∀ a s, Post' a s → Post a s) →
  (∀ e s, Bad' e s → Bad e s) → triple Pre m Post Bad.
Proof.
  intros Hm HP HQ HE s Hs. specialize (Hm s (HP s Hs)).
  destruct (m s) as [s' [a|e]]; [by apply HQ|by apply HE].
Qed.

Lemma triple_get Pre (Post : S → S → Prop) Bad :
  (∀ s, Pre s → Post s s) → triple Pre se_get Post Bad.
Proof. intros H s Hs. by apply H. Qed.

Lemma triple_modify Pre (f : S → S) (Post : unit → S → Prop) Bad :
  (∀ s, Pre s → Post tt (f s)) → triple Pre (se_modify f) Post Bad.
Proof. intros H s Hs. by apply H. Qed.

Lemma triple_lift Pre (r : Result A E) Post Bad :
  (∀ s, Pre s → match r with Ok a => Post a s | Err e => Bad e s end) →
  triple Pre (se_lift r) Post Bad.
Proof. intros H s Hs. specialize (H s Hs). by destruct r. Qed.

Lemma triple_pre Pre Pre' m Post Bad :
  triple Pre' m Post Bad → (∀ s, Pre s → Pre' s) → triple Pre m Post Bad.
Proof. intros Hm H. by eapply triple_weaken. Qed.

Lemma triple_ret_bind Pre (b : B) (k : B → SE S A E) Post Bad :
  triple Pre (k b) Post Bad → triple Pre (x <-- se_ret b ;; k x) Post Bad.
Proof. done. Qed.

(** The rest of a method that looks at the current state. *)
Lemma triple_get_bind Pre (k : S → SE S A E) Post Bad :
  (∀ s0, Pre s0 → triple (λ s, s = s0) (k s0) Post Bad) →
  triple Pre (s <-- se_get ;; k s) Post Bad.
Proof. intros H s Hs. by apply (H s Hs). Qed.
End Triples.

(** * Lists *)

(** [Vec::insert]: panics when the index is past the end. *)
Definition vec_insert {A} (i : nat) (x : A) (l : list A) : option (list A) :=
  if i <=? length l then Some (take i l ++ x :: drop i l) else None.

(** [Vec::dedup]. *)
Fixpoint dedup {X} `{EqDecision X} (l : list X) : list X :=
  match l with
  | x :: (y :: _) as l' => if decide (x = y) then dedup l' else x :: dedup l'
  | _ => l
  end.

Lemma dedup_cons_cons {X} `{EqDecision X} (a b : X) l :
  dedup (a :: b :: l) = if decide (a = b) then dedup (b :: l) else a :: dedup (b :: l).
Proof. done. Qed.

Lemma elem_of_dedup {X} `{EqDecision X} (l : list X) x : x ∈ dedup l ↔ x ∈ l.
Proof.
  induction l as [|a [|b l] IH]; [done..|]. rewrite dedup_cons_cons. case_decide as E.
  - subst. rewrite IH. set_solver.
  - rewrite elem_of_cons, IH. by rewrite (elem_of_cons (b :: l)).
Qed.

(** * Automation *)
Create HintDb codex discriminated.

(** Case analysis on the first [match] or [if] of the goal or a hypothesis. *)
Ltac case_goal :=
  match goal with
  | |- context [match ?x with _ => _ end] =>
      lazymatch x with
      | context [match _ with _ => _ end] => fail
      | _ => destruct x eqn:?
      end
  end.

Ltac case_in H :=
  match type of H with
  | context [match ?x with _ => _ end] =>
      lazymatch x with
      | context [match _ with _ => _ end] => fail
      | _ => destruct x eqn:?
      end
  end.

(** Turns boolean tests in the context into the propositions they decide. *)
Ltac bool_props :=
  repeat match goal with
  | H : _ && _ = true |- _ => apply andb_true_iff in H as [? ?]
  | H : _ || _ = false |- _ => apply orb_false_iff in H as [? ?]
  | H : negb _ = true |- _ => apply negb_true_iff in H
  | H : negb _ = false |- _ => apply negb_false_iff in H
  | H : bool_decide _ = true |- _ => apply bool_decide_eq_true in H
  | H : bool_decide _ = false |- _ => apply bool_decide_eq_false in H
  | H : (_ <? _) = true |- _ => apply Nat.ltb_lt in H
  | H : (_ <? _) = false |- _ => apply Nat.ltb_ge in H
  | H : (_ <=? _) = true |- _ => apply Nat.leb_le in H
  | H : (_ <=? _) = false |- _ => apply Nat.leb_gt in H
  | H : (_ =? _) = true |- _ => apply Nat.eqb_eq in H
  | H : (_ =? _) = false |- _ => apply Nat.eqb_neq in H
  end.
