(* ===== verification/RustStr.v ===== *)
(** Rust's [char], [str] and [String], as far as the modelled crates use them.

    A [char] is its Unicode scalar value and a [str] is the list of its
    characters; [str_len] gives the length in UTF-8 bytes that Rust's [len()]
    returns. *)
From stdpp Require Import base list sets numbers strings pretty sorting.
From Stdlib Require Import Ascii.
From S2P Require Import Prelude.

Abbreviation char := N.
Abbreviation str := (list N).

(** An ASCII literal of the source. *)
Definition lit (s : string) : str := N_of_ascii <$> String.list_ascii_of_string s.
Arguments lit _%_string_scope.

Definition LF : char := 10%N.
Definition CR : char := 13%N.

(** [char::is_whitespace]: the Unicode [White_Space] property. *)
Definition is_whitespace (c : char) : bool :=
  ((9 <=? c)%N && (c <=? 13)%N) || (c =? 32)%N || (c =? 133)%N || (c =? 160)%N
  || (c =? 5760)%N || ((8192 <=? c)%N && (c <=? 8202)%N)
  || (c =? 8232)%N || (c =? 8233)%N || (c =? 8239)%N || (c =? 8287)%N || (c =? 12288)%N.

Definition is_ascii_digit (c : char) : bool := (48 <=? c)%N && (c <=? 57)%N.
Definition is_ascii_uppercase (c : char) : bool := (65 <=? c)%N && (c <=? 90)%N.
Definition to_ascii_lowercase_char (c : char) : char :=
  if is_ascii_uppercase c then (c + 32)%N else c.
Definition to_ascii_lowercase (s : str) : str := to_ascii_lowercase_char <$> s.

(** [char::len_utf8] and [str::len]. *)
Definition len_utf8 (c : char) : nat :=
  if (c <? 128)%N then 1 else if (c <? 2048)%N then 2 else if (c <? 65536)%N then 3 else 4.
Definition str_len (s : str) : nat := sum_list_with len_utf8 s.

Definition is_empty {A} (s : list A) : bool :=
  match s with
  | [] => true
  | _ => false
  end.

(** [strip_prefix], [starts_with] and their suffix forms. *)
Fixpoint strip_prefix (s p : str) {struct p} : option str :=
  match p, s with
  | [], _ => Some s
  | c :: p, d :: s => if (c =? d)%N then strip_prefix s p else None
  | _ :: _, [] => None
  end.

Definition starts_with (s p : str) : bool := bool_decide (is_Some (strip_prefix s p)).

Definition strip_suffix (s p : str) : option str :=
  reverse <$> strip_prefix (reverse s) (reverse p).

Definition ends_with (s p : str) : bool := bool_decide (is_Some (strip_suffix s p)).

(** [trim_start_matches], [trim_start], [trim_end] and [trim]. *)
Fixpoint trim_start_matches (f : char → bool) (s : str) : str :=
  match s with
  | [] => []
  | c :: s' => if f c then trim_start_matches f s' else s
  end.

Definition trim_end_matches (f : char → bool) (s : str) : str :=
  reverse (trim_start_matches f (reverse s)).

Definition trim_start (s : str) : str := trim_start_matches is_whitespace s.
Definition trim_end (s : str) : str := trim_end_matches is_whitespace s.
Definition trim (s : str) : str := trim_end (trim_start s).

(** [split(c)]: never empty. *)
Fixpoint split_char (c : char) (s : str) : list str :=
  match s with
  | [] => [[]]
  | d :: s =>
      if (d =? c)%N then [] :: split_char c s
      else match split_char c s with
           | [] => [[d]]
           | w :: ws => (d :: w) :: ws
           end
  end.

(** A line of [str::lines] loses one [\r] in front of its [\n]. *)
Definition strip_cr (l : str) : str :=
  match strip_suffix l [CR] with
  | Some l' => l'
  | None => l
  end.

(** [str::lines]: lines end at [\n]; a final empty segment is no line, and an
    unterminated final line keeps its [\r]. *)
Fixpoint lines_of_segments (segs : list str) : list str :=
  match segs with
  | [] => []
  | [w] => if is_empty w then [] else [w]
  | w :: ws => strip_cr w :: lines_of_segments ws
  end.
Definition lines (s : str) : list str := lines_of_segments (split_char LF s).

(** [Vec<String>::join]. *)
Fixpoint join (sep : str) (ls : list str) : str :=
  match ls with
  | [] => []
  | [l] => l
  | l :: ls => l ++ sep ++ join sep ls
  end.

(** [split_once(c)] and [rsplit_once(c)]. *)
Fixpoint split_once (s : str) (c : char) : option (str * str) :=
  match s with
  | [] => None
  | d :: s' =>
      if (d =? c)%N then Some ([], s')
      else match split_once s' c with
           | Some (a, b) => Some (d :: a, b)
           | None => None
           end
  end.

Definition rsplit_once (s : str) (c : char) : option (str * str) :=
  match split_once (reverse s) c with
  | Some (b, a) => Some (reverse a, reverse b)
  | None => None
  end.

Definition contains_char (s : str) (c : char) : bool := existsb (N.eqb c) s.

(** [str::find(pat)] and [contains(pat)], with the offset in characters. *)
Fixpoint find (s pat : str) : option nat :=
  if starts_with s pat then Some 0
  else match s with
       | [] => None
       | _ :: s' => S <$> find s' pat
       end.

Definition contains_str (s pat : str) : bool := bool_decide (is_Some (find s pat)).

(** [Display] for unsigned integers. *)
Definition display_nat (n : nat) : str := lit (pretty n).

#[global] Arguments lit : simpl never.
#[global] Arguments strip_cr : simpl never.
#[global] Arguments trim : simpl never.
#[global] Arguments trim_start : simpl never.
#[global] Arguments trim_end : simpl never.
#[global] Arguments lines : simpl never.

(** * Machine integers

    [usize] and [u64] of a 64-bit target, with the saturating operations. *)
Definition USIZE_MAX : N := (2 ^ 64 - 1)%N.
Definition saturating_add (a b : N) : N := N.min (a + b) USIZE_MAX.
Definition saturating_mul (a b : N) : N := N.min (a * b) USIZE_MAX.
Definition saturate (n : nat) : N := N.min (N.of_nat n) USIZE_MAX.

(** [str::len] as a [usize]. *)
Definition byte_len (s : str) : N := N.of_nat (str_len s).

(** [s.split_at(n)] at a byte offset; [None] is the panic when [n] is past the end or
    inside a character. *)
Fixpoint split_at_byte (s : str) (n : N) : option (str * str) :=
  if (n =? 0)%N then Some ([], s)
  else match s with
       | [] => None
       | c :: s =>
           if (N.of_nat (len_utf8 c) <=? n)%N then
             match split_at_byte s (n - N.of_nat (len_utf8 c)) with
             | Some (a, b) => Some (c :: a, b)
             | None => None
             end
           else None
       end.

(** * Errors of [std::io] *)

(** [std::io::ErrorKind], as far as the code looks at it. *)
Inductive ErrorKind : Type := NotFound | AlreadyExists | InvalidInput | InvalidData | OtherKind.

#[export] Instance ErrorKind_eq_dec : EqDecision ErrorKind.
Proof. solve_decision. Defined.

(** [std::io::Error]: its kind and its [Display] text. *)
Record io_error : Type := mkIoErr {
  io_kind : ErrorKind;
  io_text : str;
}.

(** * Lemmas *)

Lemma strip_prefix_Some s p r : strip_prefix s p = Some r ↔ s = p ++ r.
Proof.
  revert s; induction p as [|c p IH]; intros s; simpl.
  - split; [by intros [= ->]|by intros ->].
  - destruct s as [|d s]; [done|]. case_match eqn:E.
    + apply N.eqb_eq in E as ->. rewrite IH. split; [by intros ->|by intros [= ->]].
    + apply N.eqb_neq in E. split; [done|intros [= ? _]; congruence].
Qed.

Lemma strip_prefix_app p r : strip_prefix (p ++ r) p = Some r.
Proof. by apply strip_prefix_Some. Qed.

Lemma strip_prefix_None s p : strip_prefix s p = None ↔ ¬ p `prefix_of` s.
Proof.
  rewrite eq_None_not_Some. split; intros H1 [r H2]; apply H1.
  - exists r. by apply strip_prefix_Some.
  - exists r. by apply strip_prefix_Some in H2.
Qed.

Lemma starts_with_true s p : starts_with s p = true ↔ p `prefix_of` s.
Proof.
  unfold starts_with. rewrite bool_decide_eq_true. split; intros [r H].
  - exists r. by apply strip_prefix_Some.
  - exists r. by apply strip_prefix_Some in H.
Qed.

Lemma strip_prefix_starts_with s p r : strip_prefix s p = Some r → starts_with s p = true.
Proof. intros H. unfold starts_with. apply bool_decide_eq_true. by rewrite H. Qed.

Lemma strip_suffix_Some s p r : strip_suffix s p = Some r ↔ s = r ++ p.
Proof.
  unfold strip_suffix. rewrite fmap_Some. split.
  - intros (x & H & ->). apply strip_prefix_Some in H.
    rewrite <- (reverse_involutive s), H, reverse_app, reverse_involutive. done.
  - intros ->. exists (reverse r). rewrite reverse_app, strip_prefix_app, reverse_involutive. done.
Qed.

Lemma strip_suffix_None s p : (∀ r, s ≠ r ++ p) → strip_suffix s p = None.
Proof.
  intros H. destruct (strip_suffix s p) as [r|] eqn:E; [|done].
  by apply strip_suffix_Some, H in E.
Qed.

Lemma trim_start_matches_suffix (f : char → bool) s : ∃ w, s = w ++ trim_start_matches f s ∧ Forall f w.
Proof.
  induction s as [|c s (w & Hw & Hf)]; simpl; [by exists []|].
  destruct (f c) eqn:E.
  - exists (c :: w). rewrite Hw at 1. split; [done|]. constructor; [by rewrite E|done].
  - by exists [].
Qed.

Lemma trim_start_matches_id (f : char → bool) c s : f c = false → trim_start_matches f (c :: s) = c :: s.
Proof. by simpl; intros ->. Qed.

Lemma trim_start_matches_app (f : char → bool) w s :
  Forall f w → trim_start_matches f (w ++ s) = trim_start_matches f s.
Proof. induction 1 as [|c w Hc _ IH]; simpl; [done|]. destruct (f c); [done|by destruct Hc]. Qed.

(** Text that does not end in white space is its own [trim_end]. *)
Definition no_trailing_ws (s : str) : Prop :=
  match last s with
  | Some c => is_whitespace c = false
  | None => True
  end.

#[export] Instance no_trailing_ws_dec s : Decision (no_trailing_ws s).
Proof. unfold no_trailing_ws. destruct (last s); apply _. Defined.

Definition no_leading_ws (s : str) : Prop :=
  match s with
  | c :: _ => is_whitespace c = false
  | [] => True
  end.

#[export] Instance no_leading_ws_dec s : Decision (no_leading_ws s).
Proof. unfold no_leading_ws. destruct s; apply _. Defined.

Lemma trim_start_id s : no_leading_ws s → trim_start s = s.
Proof. destruct s as [|c s]; [done|]. apply trim_start_matches_id. Qed.

Lemma last_reverse_head {A} (s : list A) : last s = head (reverse s).
Proof.
  destruct s as [|x s _] using rev_ind; [done|].
  by rewrite last_snoc, reverse_snoc.
Qed.

Lemma trim_end_id s : no_trailing_ws s → trim_end s = s.
Proof.
  unfold no_trailing_ws, trim_end, trim_end_matches. rewrite last_reverse_head.
  intros H. rewrite <- (reverse_involutive s) at 2. f_equal.
  destruct (reverse s) as [|c r]; [done|]. by apply trim_start_matches_id.
Qed.

Lemma trim_id s : no_leading_ws s → no_trailing_ws s → trim s = s.
Proof. intros. unfold trim. by rewrite trim_start_id, trim_end_id. Qed.

Lemma trim_end_matches_prefix (f : char → bool) s : ∃ w, s = trim_end_matches f s ++ w ∧ Forall f w.
Proof.
  destruct (trim_start_matches_suffix f (reverse s)) as (w & Hw & Hf).
  exists (reverse w). split; [|by apply Forall_reverse].
  unfold trim_end_matches. by rewrite <- reverse_app, <- Hw, reverse_involutive.
Qed.

Lemma trim_start_no_leading_ws s : no_leading_ws (trim_start s).
Proof.
  unfold trim_start. induction s as [|c s IH]; simpl; [done|].
  by destruct (is_whitespace c) eqn:E.
Qed.

Lemma trim_end_no_trailing_ws s : no_trailing_ws (trim_end s).
Proof.
  unfold no_trailing_ws, trim_end, trim_end_matches.
  rewrite last_reverse_head, reverse_involutive.
  pose proof (trim_start_no_leading_ws (reverse s)) as H.
  unfold trim_start, no_leading_ws in H.
  by destruct (trim_start_matches _ _).
Qed.

Lemma no_trailing_ws_app s t : t ≠ [] → no_trailing_ws t → no_trailing_ws (s ++ t).
Proof.
  unfold no_trailing_ws. intros Ht. rewrite last_app.
  destruct (last t) eqn:E; [done|]. by apply last_None in E.
Qed.

Lemma no_trailing_ws_app_inv s t : t ≠ [] → no_trailing_ws (s ++ t) → no_trailing_ws t.
Proof.
  unfold no_trailing_ws. intros Ht. rewrite last_app.
  destruct (last t) eqn:E; [done|]. by apply last_None in E.
Qed.

Lemma trim_end_cons c s : is_whitespace c = false → trim_end (c :: s) = c :: trim_end s.
Proof.
  intros Hc. unfold trim_end, trim_end_matches. rewrite reverse_cons.
  destruct (trim_start_matches_suffix is_whitespace (reverse s)) as (w & Hw & Hf).
  rewrite Hw at 1. rewrite <- app_assoc, trim_start_matches_app by done.
  pose proof (trim_start_no_leading_ws (reverse s)) as Hn. unfold trim_start in Hn.
  destruct (trim_start_matches is_whitespace (reverse s)) as [|d t] eqn:E.
  - change ([] ++ [c]) with [c]. rewrite trim_start_matches_id by done. done.
  - change ((d :: t) ++ [c]) with (d :: (t ++ [c])). simpl in Hn.
    rewrite trim_start_matches_id by done.
    change (d :: (t ++ [c])) with ((d :: t) ++ [c]). by rewrite reverse_snoc.
Qed.

Lemma trim_end_app_ws s w : Forall is_whitespace w → trim_end (s ++ w) = trim_end s.
Proof.
  intros Hw. unfold trim_end, trim_end_matches. rewrite reverse_app, trim_start_matches_app; [done|].
  by apply Forall_reverse.
Qed.

Lemma trim_cons c s : is_whitespace c = false → trim (c :: s) = c :: trim_end s.
Proof. intros Hc. unfold trim. rewrite trim_start_id by done. by apply trim_end_cons. Qed.

(** ** Splitting and joining lines *)

Lemma split_char_nonempty c s : split_char c s ≠ [].
Proof. induction s as [|d s IH]; simpl; [done|]. repeat case_match; congruence. Qed.

Lemma split_char_free c w : c ∉ w → split_char c w = [w].
Proof.
  induction w as [|d w IH]; intros Hc; simpl; [done|].
  rewrite not_elem_of_cons in Hc. destruct Hc as [Hd Hw].
  destruct (N.eqb_spec d c); [congruence|]. by rewrite (IH Hw).
Qed.

Lemma split_char_app c w s : c ∉ w → split_char c (w ++ c :: s) = w :: split_char c s.
Proof.
  induction w as [|d w IH]; intros Hc; simpl.
  - by rewrite N.eqb_refl.
  - rewrite not_elem_of_cons in Hc. destruct Hc as [Hd Hw].
    destruct (N.eqb_spec d c); [congruence|]. by rewrite (IH Hw).
Qed.

Lemma split_char_join c ls :
  ls ≠ [] → Forall (λ l, c ∉ l) ls → split_char c (join [c] ls) = ls.
Proof.
  induction ls as [|l ls IH]; intros Hne Hf; [done|].
  apply Forall_cons in Hf as [Hl Hls].
  destruct ls as [|l' ls]; simpl.
  - by apply split_char_free.
  - rewrite split_char_app by done. f_equal. by apply IH.
Qed.

Lemma join_snoc sep ls l : join sep (ls ++ [l]) = concat ((λ x, x ++ sep) <$> ls) ++ l.
Proof.
  induction ls as [|x ls IH]; [done|]. rewrite <- app_comm_cons, fmap_cons.
  cbn [concat]. rewrite <- (assoc_L (++)), <- (assoc_L (++)), <- IH.
  simpl. by destruct (ls ++ [l]) eqn:E; [destruct ls|].
Qed.

Lemma join_split_char c s : join [c] (split_char c s) = s.
Proof.
  induction s as [|d s IH]; simpl; [done|].
  destruct (N.eqb_spec d c) as [->|Hne].
  - pose proof (split_char_nonempty c s) as Hn.
    destruct (split_char c s) as [|w ws]; [done|]. simpl. by f_equal.
  - pose proof (split_char_nonempty c s) as Hn.
    destruct (split_char c s) as [|w ws]; [done|].
    destruct ws; simpl in *; by rewrite IH.
Qed.

Lemma split_char_Forall c s : Forall (λ l, c ∉ l) (split_char c s).
Proof.
  induction s as [|d s IH]; simpl; [repeat constructor; set_solver|].
  destruct (N.eqb_spec d c) as [->|Hne]; [constructor; [set_solver|done]|].
  destruct (split_char c s) as [|w ws]; [repeat constructor; set_solver|].
  apply Forall_cons in IH as [Hw Hws]. constructor; [set_solver|done].
Qed.

(** A line that [lines] reproduces: no line feed inside, no [\r] at its end. *)
Definition plain_line (l : str) : Prop := (LF ∉ l) ∧ last l ≠ Some CR.

#[export] Instance plain_line_dec l : Decision (plain_line l).
Proof. unfold plain_line. apply _. Defined.

Lemma strip_cr_plain l : last l ≠ Some CR → strip_cr l = l.
Proof.
  intros H. unfold strip_cr. rewrite strip_suffix_None; [done|].
  intros r ->. by rewrite last_snoc in H.
Qed.

Lemma lines_of_segments_plain ls l :
  Forall plain_line ls → l ≠ [] → lines_of_segments (ls ++ [l]) = ls ++ [l].
Proof.
  intros Hls Hl. induction Hls as [|w ls [Hw Hcr] _ IH]; simpl.
  - by destruct l.
  - destruct (ls ++ [l]) as [|x xs] eqn:E; [by apply app_nil in E as [_ ?]|].
    rewrite IH. by rewrite strip_cr_plain.
Qed.

Lemma lines_join ls l :
  Forall plain_line ls → LF ∉ l → l ≠ [] → lines (join [LF] (ls ++ [l])) = ls ++ [l].
Proof.
  intros Hls Hl Hne. unfold lines. rewrite split_char_join.
  - by apply lines_of_segments_plain.
  - by destruct ls.
  - apply Forall_app. split; [|by constructor].
    eapply Forall_impl; [done|]. by intros ? [? _].
Qed.

Lemma split_char_app_gen c s t : split_char c (s ++ c :: t) = split_char c s ++ split_char c t.
Proof.
  induction s as [|d s IH]; simpl; [by rewrite N.eqb_refl|].
  destruct (N.eqb_spec d c); [by rewrite IH|]. rewrite IH.
  pose proof (split_char_nonempty c s). by destruct (split_char c s).
Qed.

Lemma lines_cons w s : LF ∉ w → lines (w ++ LF :: s) = strip_cr w :: lines s.
Proof.
  intros Hw. unfold lines. rewrite split_char_app by done. simpl.
  pose proof (split_char_nonempty LF s). by destruct (split_char LF s).
Qed.

Lemma lines_of_segments_app a b :
  b ≠ [] → lines_of_segments (a ++ b) = (strip_cr <$> a) ++ lines_of_segments b.
Proof.
  intros Hb. induction a as [|w a IH]; [done|]. rewrite <- app_comm_cons, fmap_cons.
  simpl. rewrite IH. by destruct (a ++ b) eqn:E; [apply app_nil in E as [_ ?]|].
Qed.

(** A text that does not end in white space ends in a complete line. *)
Lemma lines_snoc s t :
  s ≠ [] → no_trailing_ws s → lines (s ++ LF :: t) = lines s ++ lines t.
Proof.
  intros Hne Hws. unfold lines. rewrite split_char_app_gen.
  rewrite lines_of_segments_app by apply split_char_nonempty. f_equal.
  pose proof (join_split_char LF s) as Hj. pose proof (split_char_nonempty LF s) as Hn.
  destruct (split_char LF s) as [|l ls _] using rev_ind; [done|].
  rewrite join_snoc in Hj. rewrite lines_of_segments_app, fmap_app by done. simpl.
  assert (l ≠ []) as Hl.
  { intros ->. rewrite app_nil_r in Hj. destruct ls as [|x ls _] using rev_ind; [by subst|].
    rewrite fmap_app, concat_app in Hj. simpl in Hj. subst s. unfold no_trailing_ws in Hws.
    by rewrite app_nil_r, (assoc_L (++)), last_snoc in Hws. }
  subst s. apply no_trailing_ws_app_inv in Hws; [|done]. rewrite strip_cr_plain.
  - by destruct l.
  - unfold no_trailing_ws in Hws. intros Hl'. by rewrite Hl' in Hws.
Qed.

(** ** Byte lengths *)

Lemma len_utf8_pos c : 1 ≤ len_utf8 c.
Proof. unfold len_utf8. repeat case_match; lia. Qed.

Lemma str_len_app s t : str_len (s ++ t) = str_len s + str_len t.
Proof. unfold str_len. induction s; simpl; [done|]. lia. Qed.

Lemma str_len_nil_iff s : str_len s = 0 ↔ s = [].
Proof.
  destruct s as [|c s]; [done|]. pose proof (len_utf8_pos c).
  unfold str_len. simpl. split; [lia|done].
Qed.

Lemma byte_len_app s t : byte_len (s ++ t) = (byte_len s + byte_len t)%N.
Proof. unfold byte_len. rewrite str_len_app. lia. Qed.

Lemma byte_len_cons c s : byte_len (c :: s) = (N.of_nat (len_utf8 c) + byte_len s)%N.
Proof. unfold byte_len, str_len. simpl. lia. Qed.

(** Splitting at the length of a prefix gives the prefix. *)
Lemma split_at_byte_app a b : split_at_byte (a ++ b) (byte_len a) = Some (a, b).
Proof.
  induction a as [|c a IH]; [by destruct b|]. pose proof (len_utf8_pos c). simpl.
  rewrite byte_len_cons. destruct (N.eqb_spec (N.of_nat (len_utf8 c) + byte_len a) 0); [lia|].
  destruct (N.leb_spec (N.of_nat (len_utf8 c)) (N.of_nat (len_utf8 c) + byte_len a)); [|lia].
  replace (N.of_nat (len_utf8 c) + byte_len a - N.of_nat (len_utf8 c))%N with (byte_len a) by lia.
  by rewrite IH.
Qed.

(** ** Searching *)

(** [find] returns the first occurrence. *)
Lemma find_Some s p i :
  find s p = Some i →
  ∃ a b, s = a ++ p ++ b ∧ length a = i ∧ (∀ a' b', s = a' ++ p ++ b' → i ≤ length a').
Proof.
  revert i. induction s as [|c s IH]; intros i; simpl; destruct (starts_with _ p) eqn:E.
  - intros [= <-]. apply starts_with_true in E as [b Hb]. exists [], b. split; [done|]. split; [done|].
    intros; simpl; lia.
  - done.
  - intros [= <-]. apply starts_with_true in E as [b Hb]. exists [], b. split; [done|]. split; [done|].
    intros; simpl; lia.
  - destruct (find s p) as [j|] eqn:Ef; simpl; intros [= <-].
    destruct (IH j eq_refl) as (a & b & Hs & Ha & Hmin).
    exists (c :: a), b. split; [by rewrite Hs|]. split; [simpl; lia|].
    intros [|c' a'] b' H; simpl in H.
    + assert (starts_with (c :: s) p = true) by (apply starts_with_true; exists b'; by rewrite H).
      congruence.
    + injection H as -> H. apply Hmin in H. simpl. lia.
Qed.

Lemma find_None s p : find s p = None → ∀ a b, s ≠ a ++ p ++ b.
Proof.
  induction s as [|c s IH]; simpl; destruct (starts_with _ p) eqn:E; intros H a b Hs; try done.
  - symmetry in Hs. apply app_nil in Hs as [-> Hs].
    assert (starts_with [] p = true) by (apply starts_with_true; by exists b). congruence.
  - destruct (find s p); [done|]. destruct a as [|c' a].
    + assert (starts_with (c :: s) p = true) by (apply starts_with_true; exists b; by rewrite Hs).
      congruence.
    + injection Hs as -> Hs. by eapply IH.
Qed.

(** The first occurrence is found, whatever follows it. *)
Lemma find_first a p b :
  (∀ a' b', a ++ p ++ b = a' ++ p ++ b' → length a ≤ length a') → find (a ++ p ++ b) p = Some (length a).
Proof.
  intros Hmin. destruct (find (a ++ p ++ b) p) as [i|] eqn:E.
  - apply find_Some in E as (a' & b' & Hs & <- & Hmin'). f_equal.
    specialize (Hmin _ _ Hs). specialize (Hmin' a b eq_refl). lia.
  - by destruct (find_None _ _ E a b).
Qed.

(** ** Characters of a string *)

Lemma contains_char_elem s c : contains_char s c = true ↔ c ∈ s.
Proof.
  unfold contains_char. rewrite existsb_exists. split.
  - intros (x & Hx & E). apply N.eqb_eq in E as ->. by apply list_elem_of_In.
  - intros Hc. exists c. split; [by apply list_elem_of_In|apply N.eqb_refl].
Qed.

Lemma contains_char_false s c : contains_char s c = false ↔ c ∉ s.
Proof. rewrite <- contains_char_elem. by destruct (contains_char s c). Qed.

(** Strings in order: the order of [String] and a stable sort by a string key. *)

(** [String] is ordered by its bytes, which is the order of the code points. *)
Fixpoint str_leb (a b : str) : bool :=
  match a, b with
  | [], _ => true
  | _ :: _, [] => false
  | x :: a, y :: b => (x <? y)%N || ((x =? y)%N && str_leb a b)
  end.

(** [sort_by_key], a stable sort. *)
Section SortByKey.
Context {A : Type} (key : A → str).

Fixpoint insert_by_key (x : A) (l : list A) : list A :=
  match l with
  | [] => [x]
  | y :: l => if str_leb (key x) (key y) then x :: y :: l else y :: insert_by_key x l
  end.

Definition sort_by_key (l : list A) : list A := foldr insert_by_key [] l.
End SortByKey.

(** * What sorting does *)
Section Sorting.
Implicit Types a b c : str.

Lemma str_leb_refl a : str_leb a a = true.
Proof. induction a as [|x a IH]; [done|]. simpl. by rewrite N.eqb_refl, IH, orb_true_r. Qed.

Lemma str_leb_total a b : str_leb a b = true ∨ str_leb b a = true.
Proof.
  revert b. induction a as [|x a IH]; intros [|y b]; simpl; [by auto..|].
  destruct (IH b) as [->| ->], (N.lt_trichotomy x y) as [?|[->|?]];
    rewrite ?N.eqb_refl; auto using orb_true_r;
    first [left; apply orb_true_intro; left; by apply N.ltb_lt
          |right; apply orb_true_intro; left; by apply N.ltb_lt
          |left; apply orb_true_r|right; apply orb_true_r].
Qed.

Lemma str_leb_trans a b c : str_leb a b = true → str_leb b c = true → str_leb a c = true.
Proof.
  revert b c. induction a as [|x a IH]; intros [|y b] [|z c]; simpl; try done.
  rewrite !orb_true_iff, !andb_true_iff, !N.ltb_lt, !N.eqb_eq.
  intros [?|[-> ?]] [?|[-> ?]]; eauto with lia.
Qed.

Context {A : Type} (key : A → str).
Definition key_le (x y : A) : Prop := str_leb (key x) (key y) = true.

Lemma insert_by_key_perm x l : insert_by_key key x l ≡ₚ x :: l.
Proof.
  induction l as [|y l IH]; simpl; [done|]. destruct (str_leb _ _); [done|].
  rewrite IH. constructor.
Qed.

Lemma sort_by_key_perm l : sort_by_key key l ≡ₚ l.
Proof. induction l as [|x l IH]; simpl; [done|]. by rewrite insert_by_key_perm, IH. Qed.

Lemma insert_by_key_sorted x l :
  StronglySorted key_le l → StronglySorted key_le (insert_by_key key x l).
Proof.
  induction 1 as [|y l Hl IH Hy]; simpl; [by repeat constructor|].
  destruct (str_leb (key x) (key y)) eqn:E.
  - constructor; [by constructor|]. constructor; [done|].
    eapply Forall_impl; [done|]. intros z. by apply str_leb_trans.
  - constructor; [done|]. rewrite insert_by_key_perm. constructor; [|done].
    destruct (str_leb_total (key x) (key y)); [congruence|done].
Qed.

Lemma sort_by_key_sorted l : StronglySorted key_le (sort_by_key key l).
Proof. induction l; simpl; [constructor|]. by apply insert_by_key_sorted. Qed.

End Sorting.
