(* ===== verification/PathConv.v ===== *)
(** Path conventions and platforms, from [utils/path-uri]. *)
From stdpp Require Import base list numbers strings.
From S2P Require Import Prelude RustStr.

(** [str::eq_ignore_ascii_case]. *)
Definition eq_ignore_ascii_case (a b : str) : bool :=
  bool_decide (to_ascii_lowercase a = to_ascii_lowercase b).

(** [PathConvention] and its [path_segments]. *)
Inductive PathConvention : Type := Posix | Windows.

Definition is_separator (c : PathConvention) (ch : char) : bool :=
  match c with
  | Posix => (ch =? 47)%N
  | Windows => (ch =? 47)%N || (ch =? 92)%N
  end.

Fixpoint split_by (f : char → bool) (s : str) : list str :=
  match s with
  | [] => [[]]
  | c :: s =>
      if f c then [] :: split_by f s
      else match split_by f s with
           | [] => [[c]]
           | l :: ls => (c :: l) :: ls
           end
  end.

Definition path_segments (c : PathConvention) (path : str) : list str := split_by (is_separator c) path.

(** [Platform]; a platform that is not known has no convention. *)
Inductive Platform : Type := PlatformLinux | PlatformMacos | PlatformWindows | PlatformUnknown.

#[export] Instance Platform_eq_dec : EqDecision Platform.
Proof. solve_decision. Defined.

Definition path_convention (p : Platform) : option PathConvention :=
  match p with
  | PlatformLinux | PlatformMacos => Some Posix
  | PlatformWindows => Some Windows
  | PlatformUnknown => None
  end.
