(* ===== verification/PatchParser.v ===== *)
(** The patch parser of [codex-apply-patch]: [parser.rs] and
    [streaming_parser.rs].

    [PathBuf] values are the text they were built from ([PathBuf::from(&str)]
    and [display()] are the identity on it). *)
From stdpp Require Import base list sets numbers strings.
From S2P Require Import Prelude RustStr.

(** * Markers *)
Definition BEGIN_PATCH_MARKER : str := lit "*** Begin Patch".
Definition END_PATCH_MARKER : str := lit "*** End Patch".
Definition ADD_FILE_MARKER : str := lit "*** Add File: ".
Definition DELETE_FILE_MARKER : str := lit "*** Delete File: ".
Definition UPDATE_FILE_MARKER : str := lit "*** Update File: ".
Definition MOVE_TO_MARKER : str := lit "*** Move to: ".
Definition EOF_MARKER : str := lit "*** End of File".
Definition CHANGE_CONTEXT_MARKER : str := lit "@@ ".
Definition EMPTY_CHANGE_CONTEXT_MARKER : str := lit "@@".
Definition ENVIRONMENT_ID_MARKER : str := lit "*** Environment ID:".

(** * Data *)
Inductive ParseError : Type :=
| InvalidPatchError (message : str)
| InvalidHunkError (message : str) (line_number : nat).

Record UpdateFileChunk : Type := mkChunk {
  change_context : option str;
  old_lines : list str;
  new_lines : list str;
  context_line_indices : list (nat * nat);
  is_end_of_file : bool;
}.

Definition default_chunk : UpdateFileChunk := mkChunk None [] [] [] false.

Inductive Hunk : Type :=
| AddFile (path contents : str)
| DeleteFile (path : str)
| UpdateFile (path : str) (move_path : option str) (chunks : list UpdateFileChunk).

(** [Hunk::path]: the move destination for renames. *)
Definition hunk_path (h : Hunk) : str :=
  match h with
  | AddFile path _ => path
  | DeleteFile path => path
  | UpdateFile _ (Some path) _ => path
  | UpdateFile path None _ => path
  end.

(** The path [Hunk::resolve_path] joins to the working directory. *)
Definition hunk_source_path (h : Hunk) : str :=
  match h with
  | UpdateFile path _ _ => path
  | AddFile _ _ | DeleteFile _ => hunk_path h
  end.

Record ApplyPatchArgs : Type := mkArgs {
  args_patch : str;
  args_hunks : list Hunk;
  args_workdir : option str;
  args_environment_id : option str;
}.

Inductive ParseMode : Type := Strict | Lenient.

#[export] Instance ParseError_eq_dec : EqDecision ParseError.
Proof. solve_decision. Defined.
#[export] Instance UpdateFileChunk_eq_dec : EqDecision UpdateFileChunk.
Proof. solve_decision. Defined.
#[export] Instance Hunk_eq_dec : EqDecision Hunk.
Proof. solve_decision. Defined.

(** [UpdateFileChunk::push_context_line]. *)
Definition push_context_line (line : str) (c : UpdateFileChunk) : UpdateFileChunk :=
  mkChunk (change_context c) (old_lines c ++ [line]) (new_lines c ++ [line])
    (context_line_indices c ++ [(length (old_lines c), length (new_lines c))])
    (is_end_of_file c).

Definition push_new_line (line : str) (c : UpdateFileChunk) : UpdateFileChunk :=
  mkChunk (change_context c) (old_lines c) (new_lines c ++ [line])
    (context_line_indices c) (is_end_of_file c).

Definition push_old_line (line : str) (c : UpdateFileChunk) : UpdateFileChunk :=
  mkChunk (change_context c) (old_lines c ++ [line]) (new_lines c)
    (context_line_indices c) (is_end_of_file c).

Definition set_end_of_file (c : UpdateFileChunk) : UpdateFileChunk :=
  mkChunk (change_context c) (old_lines c) (new_lines c) (context_line_indices c) true.

(** [chunk.old_lines.is_empty() && chunk.new_lines.is_empty()]. *)
Definition chunk_is_empty (c : UpdateFileChunk) : bool :=
  is_empty (old_lines c) && is_empty (new_lines c).

(** [v.last().is_some_and(f)]. *)
Definition last_is {A} (f : A → bool) (l : list A) : bool :=
  match last l with
  | Some x => f x
  | None => false
  end.

(** An update through [v.last_mut()]. *)
Fixpoint alter_last {A} (f : A → A) (l : list A) : list A :=
  match l with
  | [] => []
  | [x] => [f x]
  | x :: l => x :: alter_last f l
  end.

(** * The streaming parser *)
Inductive StreamingParserMode : Type :=
| NotStarted
| StartedPatch
| ModeAddFile
| ModeDeleteFile
| ModeUpdateFile (hunk_line_number : nat)
| EndedPatch.

Record StreamingParserState : Type := mkState {
  mode : StreamingParserMode;
  hunks : list Hunk;
  environment_id : option str;
}.

Record StreamingPatchParser : Type := mkParser {
  line_buffer : str;
  state : StreamingParserState;
  line_number : nat;
}.

Definition new_parser : StreamingPatchParser := mkParser [] (mkState NotStarted [] None) 0.

Definition set_line_buffer (b : str) (p : StreamingPatchParser) : StreamingPatchParser :=
  mkParser b (state p) (line_number p).
Definition set_state (s : StreamingParserState) (p : StreamingPatchParser) : StreamingPatchParser :=
  mkParser (line_buffer p) s (line_number p).
Definition set_mode (m : StreamingParserMode) (p : StreamingPatchParser) : StreamingPatchParser :=
  set_state (mkState m (hunks (state p)) (environment_id (state p))) p.
Definition set_hunks (hs : list Hunk) (p : StreamingPatchParser) : StreamingPatchParser :=
  set_state (mkState (mode (state p)) hs (environment_id (state p))) p.
Definition set_environment_id (e : str) (p : StreamingPatchParser) : StreamingPatchParser :=
  set_state (mkState (mode (state p)) (hunks (state p)) (Some e)) p.
Definition bump_line_number (p : StreamingPatchParser) : StreamingPatchParser :=
  mkParser (line_buffer p) (state p) (S (line_number p)).

(** A method on [&mut StreamingPatchParser] returning [Result<A, ParseError>]. *)
Abbreviation ParserM A := (SE StreamingPatchParser A ParseError).

(** ** Error values *)
Definition FIRST_LINE_ERROR : ParseError :=
  InvalidPatchError (lit "The first line of the patch must be '*** Begin Patch'").
Definition LAST_LINE_ERROR : ParseError :=
  InvalidPatchError (lit "The last line of the patch must be '*** End Patch'").
Definition not_a_header (trimmed : str) (n : nat) : ParseError :=
  InvalidHunkError
    (lit "'" ++ trimmed ++
     lit "' is not a valid hunk header. Valid hunk headers: '*** Add File: {path}', '*** Delete File: {path}', '*** Update File: {path}'")
    n.
Definition unexpected_line (line : str) (n : nat) : ParseError :=
  InvalidHunkError
    (lit "Unexpected line found in update hunk: '" ++ line ++
     lit "'. Every line should start with ' ' (context line), '+' (added line), or '-' (removed line)")
    n.
Definition expected_context_marker (line : str) (n : nat) : ParseError :=
  InvalidHunkError
    (lit "Expected update hunk to start with a @@ context marker, got: '" ++ line ++ lit "'") n.
Definition no_lines_error (n : nat) : ParseError :=
  InvalidHunkError (lit "Update hunk does not contain any lines") n.
Definition empty_hunk_error (path : str) (n : nat) : ParseError :=
  InvalidHunkError (lit "Update file hunk for path '" ++ path ++ lit "' is empty") n.

(** [ensure_update_hunk_is_not_empty]. *)
Definition ensure_update_hunk_is_not_empty (line : str) (p : StreamingPatchParser)
    : Result unit ParseError :=
  match last (hunks (state p)) with
  | Some (UpdateFile path _ chunks) =>
      match is_empty chunks, mode (state p) with
      | true, ModeUpdateFile n => Err (empty_hunk_error path n)
      | _, _ =>
          if last_is chunk_is_empty chunks then
            if bool_decide (line = END_PATCH_MARKER)
            then Err (no_lines_error (line_number p))
            else Err (unexpected_line line (line_number p))
          else Ok tt
      end
  | _ => Ok tt
  end.

Definition ensure_nonempty (line : str) : ParserM unit := λ p,
  (p, ensure_update_hunk_is_not_empty line p).

Definition push_hunk (h : Hunk) (m : StreamingParserMode) (p : StreamingPatchParser)
    : StreamingPatchParser :=
  set_mode m (set_hunks (hunks (state p) ++ [h]) p).

(** [handle_hunk_headers_and_end_patch]. *)
Definition handle_hunk_headers_and_end_patch (trimmed : str) : ParserM bool :=
  p <-- se_get ;;
  match mode (state p), strip_prefix trimmed ENVIRONMENT_ID_MARKER with
  | StartedPatch, Some env =>
      if bool_decide (is_Some (environment_id (state p))) then
        se_fail (InvalidPatchError
          (lit "apply_patch environment_id cannot be specified more than once"))
      else if is_empty (trim env) then
        se_fail (InvalidPatchError (lit "apply_patch environment_id cannot be empty"))
      else se_modify (set_environment_id (trim env)) ;;; se_ret true
  | _, _ =>
      if bool_decide (trimmed = END_PATCH_MARKER) then
        ensure_nonempty trimmed ;;;
        se_modify (set_mode EndedPatch) ;;;
        se_ret true
      else
        match strip_prefix trimmed ADD_FILE_MARKER with
        | Some path =>
            ensure_nonempty trimmed ;;;
            se_modify (push_hunk (AddFile path []) ModeAddFile) ;;;
            se_ret true
        | None =>
            match strip_prefix trimmed DELETE_FILE_MARKER with
            | Some path =>
                ensure_nonempty trimmed ;;;
                se_modify (push_hunk (DeleteFile path) ModeDeleteFile) ;;;
                se_ret true
            | None =>
                match strip_prefix trimmed UPDATE_FILE_MARKER with
                | Some path =>
                    ensure_nonempty trimmed ;;;
                    p <-- se_get ;;
                    se_modify
                      (push_hunk (UpdateFile path None []) (ModeUpdateFile (line_number p))) ;;;
                    se_ret true
                | None => se_ret false
                end
            end
        end
  end.

(** What the [UpdateFile] arm of [process_line] does with a line once it is no
    hunk header: the rewritten [(move_path, chunks)] of the last hunk, or the
    error. *)
Definition push_to_last_chunk (f : UpdateFileChunk → UpdateFileChunk)
    (chunks : list UpdateFileChunk) : list UpdateFileChunk :=
  alter_last f (if is_empty chunks then [default_chunk] else chunks).

Definition update_hunk_line (line : str) (n : nat)
    (move_path : option str) (chunks : list UpdateFileChunk)
    : Result (option str * list UpdateFileChunk) ParseError :=
  let update_line := trim_end line in
  let is_marker := bool_decide (update_line = EMPTY_CHANGE_CONTEXT_MARKER)
                   || starts_with update_line CHANGE_CONTEXT_MARKER in
  if last_is is_end_of_file chunks && is_empty update_line then Ok (move_path, chunks)
  else if last_is is_end_of_file chunks && negb is_marker then
    Err (expected_context_marker line n)
  else
    match is_empty chunks, move_path, strip_prefix update_line MOVE_TO_MARKER with
    | true, None, Some to => Ok (Some to, chunks)
    | _, _, _ =>
        if is_marker && last_is chunk_is_empty chunks then Err (unexpected_line line n)
        else if bool_decide (update_line = EMPTY_CHANGE_CONTEXT_MARKER) then
          Ok (move_path, chunks ++ [default_chunk])
        else
          match strip_prefix update_line CHANGE_CONTEXT_MARKER with
          | Some ctx => Ok (move_path, chunks ++ [mkChunk (Some ctx) [] [] [] false])
          | None =>
              if bool_decide (update_line = EOF_MARKER) then
                if last_is chunk_is_empty chunks then Err (no_lines_error n)
                else Ok (move_path, alter_last set_end_of_file chunks)
              else
                match line with
                | [] => Ok (move_path, push_to_last_chunk (push_context_line []) chunks)
                | c :: rest =>
                    if (c =? 32)%N then
                      Ok (move_path, push_to_last_chunk (push_context_line rest) chunks)
                    else if (c =? 43)%N then
                      Ok (move_path, push_to_last_chunk (push_new_line rest) chunks)
                    else if (c =? 45)%N then
                      Ok (move_path, push_to_last_chunk (push_old_line rest) chunks)
                    else if last_is (λ c, negb (chunk_is_empty c)) chunks then
                      Err (expected_context_marker line n)
                    else Err (unexpected_line line n)
                end
          end
    end.

Definition process_update_line (line : str) : ParserM unit :=
  handled <-- handle_hunk_headers_and_end_patch (trim_end line) ;;
  if handled : bool then se_ret tt
  else
    p <-- se_get ;;
    match last (hunks (state p)) with
    | Some (UpdateFile path move_path chunks) =>
        match update_hunk_line line (line_number p) move_path chunks with
        | Ok (move_path, chunks) =>
            se_modify (set_hunks
              (alter_last (λ _, UpdateFile path move_path chunks) (hunks (state p))))
        | Err e => se_fail e
        end
    | _ => se_fail (unexpected_line line (line_number p))
    end.

(** [process_line]. *)
Definition process_line (line : str) : ParserM unit :=
  let trimmed := trim line in
  p <-- se_get ;;
  match mode (state p) with
  | NotStarted =>
      if bool_decide (trimmed = BEGIN_PATCH_MARKER)
      then se_modify (set_mode StartedPatch)
      else se_fail FIRST_LINE_ERROR
  | StartedPatch | ModeDeleteFile =>
      handled <-- handle_hunk_headers_and_end_patch trimmed ;;
      if handled : bool then se_ret tt
      else p <-- se_get ;; se_fail (not_a_header trimmed (line_number p))
  | ModeAddFile =>
      handled <-- handle_hunk_headers_and_end_patch trimmed ;;
      if handled : bool then se_ret tt
      else
        p <-- se_get ;;
        match strip_prefix line [43%N], last (hunks (state p)) with
        | Some line_to_add, Some (AddFile path contents) =>
            se_modify (set_hunks
              (alter_last (λ _, AddFile path (contents ++ line_to_add ++ [LF])) (hunks (state p))))
        | _, _ => se_fail (not_a_header trimmed (line_number p))
        end
  | ModeUpdateFile _ => process_update_line line
  | EndedPatch => if is_empty trimmed then se_ret tt else se_fail LAST_LINE_ERROR
  end.

(** The body of the [for ch in delta.chars()] loop. *)
Definition push_char (ch : char) : ParserM unit :=
  if (ch =? LF)%N then
    p <-- se_get ;;
    se_put (set_line_buffer [] p) ;;;
    se_modify bump_line_number ;;;
    process_line (strip_cr (line_buffer p))
  else se_modify (λ p, set_line_buffer (line_buffer p ++ [ch]) p).

Fixpoint push_chars (delta : str) : ParserM unit :=
  match delta with
  | [] => se_ret tt
  | ch :: delta => push_char ch ;;; push_chars delta
  end.

(** [push_delta]: the hunks parsed so far are returned after each delta. *)
Definition push_delta (delta : str) : ParserM (list Hunk) :=
  push_chars delta ;;;
  p <-- se_get ;;
  se_ret (hunks (state p)).

(** [finish]. *)
Definition finish : ParserM (list Hunk) :=
  p <-- se_get ;;
  (if is_empty (line_buffer p) then se_ret tt
   else
     let line := line_buffer p in
     se_put (set_line_buffer [] p) ;;;
     se_modify bump_line_number ;;;
     if bool_decide (trim line = END_PATCH_MARKER) then
       ensure_nonempty (trim line) ;;;
       se_modify (set_mode EndedPatch)
     else process_line line) ;;;
  p <-- se_get ;;
  match mode (state p) with
  | EndedPatch => se_ret (hunks (state p))
  | _ => se_fail LAST_LINE_ERROR
  end.

(** * The batch parser: [parser.rs] *)

(** [check_start_and_end_lines_strict]. *)
Definition check_start_and_end_lines_strict (first_line last_line : option str)
    : Result unit ParseError :=
  match trim <$> first_line, trim <$> last_line with
  | Some first, Some last =>
      if bool_decide (first = BEGIN_PATCH_MARKER) && bool_decide (last = END_PATCH_MARKER)
      then Ok tt
      else if negb (bool_decide (first = BEGIN_PATCH_MARKER)) then Err FIRST_LINE_ERROR
      else Err LAST_LINE_ERROR
  | Some first, None =>
      if negb (bool_decide (first = BEGIN_PATCH_MARKER)) then Err FIRST_LINE_ERROR
      else Err LAST_LINE_ERROR
  | None, _ => Err LAST_LINE_ERROR
  end.

(** [check_patch_boundaries_strict]. *)
Definition check_patch_boundaries_strict (ls : list str) : Result (list str) ParseError :=
  let? _ := check_start_and_end_lines_strict (head ls) (last ls) in
  Ok ls.

Definition QUOTE : char := 34%N.

(** [check_patch_boundaries_lenient]. *)
Definition check_patch_boundaries_lenient (original : list str)
    : Result (list str) ParseError :=
  match check_patch_boundaries_strict original with
  | Ok ls => Ok ls
  | Err e =>
      match head original, last original with
      | Some first, Some last =>
          if (bool_decide (first = lit "<<EOF") || bool_decide (first = lit "<<'EOF'")
              || bool_decide (first = lit "<<" ++ [QUOTE] ++ lit "EOF" ++ [QUOTE]))
             && ends_with last (lit "EOF") && (4 <=? length original)
          then check_patch_boundaries_strict (take (length original - 2) (drop 1 original))
          else Err e
      | _, _ => Err e
      end
  end.

(** [parse_patch_text]. *)
Definition parse_patch_text (patch : str) (m : ParseMode) : Result ApplyPatchArgs ParseError :=
  let ls := lines (trim patch) in
  let? patch_lines :=
    match m with
    | Strict => check_patch_boundaries_strict ls
    | Lenient => check_patch_boundaries_lenient ls
    end in
  let patch := join [LF] patch_lines in
  match (push_delta patch ;;; finish) new_parser with
  | (p, Ok hs) => Ok (mkArgs patch hs None (environment_id (state p)))
  | (_, Err e) => Err e
  end.

Definition PARSE_IN_STRICT_MODE : bool := false.

(** [parse_patch]. *)
Definition parse_patch (patch : str) : Result ApplyPatchArgs ParseError :=
  parse_patch_text patch (if PARSE_IN_STRICT_MODE then Strict else Lenient).
