(* ===== verification/PatchParserFacts.v ===== *)
(** Theory of the patch parser: chunk independence of the streaming interface,
    the parser's state invariant, and the well-formedness of every patch it
    accepts. *)
From stdpp Require Import base list sets numbers strings.
From S2P Require Import Prelude RustStr PatchParser.

(** * Helper lemmas *)

Lemma last_is_Some {A} (f : A → bool) l : last_is f l = true ↔ ∃ l' x, l = l' ++ [x] ∧ f x = true.
Proof.
  unfold last_is. destruct l as [|x l _] using rev_ind.
  - split; [done|]. intros (l' & x & H & _). by destruct l'.
  - rewrite last_snoc. split; [eauto|]. by intros (l' & y & [_ [= ->]]%app_inj_tail & H).
Qed.

Lemma last_is_snoc {A} (f : A → bool) l x : last_is f (l ++ [x]) = f x.
Proof. unfold last_is. by rewrite last_snoc. Qed.

Lemma alter_last_snoc {A} (f : A → A) l x : alter_last f (l ++ [x]) = l ++ [f x].
Proof.
  induction l as [|y l IH]; [done|]. rewrite <- app_comm_cons. simpl.
  destruct (l ++ [x]) eqn:E; [by destruct l|]. by rewrite IH.
Qed.

Lemma is_empty_true {A} (l : list A) : is_empty l = true ↔ l = [].
Proof. by destruct l. Qed.

Lemma is_empty_snoc {A} (l : list A) x : is_empty (l ++ [x]) = false.
Proof. by destruct l. Qed.

Lemma chunk_is_empty_false c : chunk_is_empty c = false ↔ old_lines c ≠ [] ∨ new_lines c ≠ [].
Proof.
  unfold chunk_is_empty. destruct (old_lines c), (new_lines c); simpl; naive_solver.
Qed.

(** * Chunk independence *)

Lemma push_chars_app a b p : push_chars (a ++ b) p = (push_chars a ;;; push_chars b) p.
Proof.
  revert p; induction a as [|c a IH]; intros p; simpl; [done|].
  unfold se_bind at 1 2 3. destruct (push_char c p) as [p' [u|e]]; [|done].
  by rewrite IH.
Qed.

(** Feeding a list of deltas one by one, stopping at the first error as the
    callers of [push_delta] do. *)
Fixpoint push_deltas (ds : list str) : ParserM (list Hunk) :=
  match ds with
  | [] => p <-- se_get ;; se_ret (hunks (state p))
  | d :: ds => push_delta d ;;; push_deltas ds
  end.

Lemma push_delta_app a b p : push_delta (a ++ b) p = (push_delta a ;;; push_delta b) p.
Proof.
  unfold push_delta, se_bind. rewrite push_chars_app. unfold se_bind.
  by destruct (push_chars a p) as [p' [u|e]].
Qed.

Lemma push_deltas_concat ds p : push_deltas ds p = push_delta (concat ds) p.
Proof.
  revert p. induction ds as [|d ds IH]; intros p; [done|].
  simpl. rewrite push_delta_app. unfold se_bind.
  destruct (push_delta d p) as [p' [hs|e]]; [apply IH|done].
Qed.

(** * The parser invariant *)

(** The recorded context indices point, in increasing order, at equal lines of
    both sides of the chunk. *)
Fixpoint context_indices_ok (old new : list str) (o n : nat) (idx : list (nat * nat)) : Prop :=
  match idx with
  | [] => True
  | (i, j) :: idx =>
      o ≤ i ∧ n ≤ j ∧ (∃ l, old !! i = Some l ∧ new !! j = Some l)
      ∧ context_indices_ok old new (S i) (S j) idx
  end.

Definition chunk_ok (c : UpdateFileChunk) : Prop :=
  context_indices_ok (old_lines c) (new_lines c) 0 0 (context_line_indices c).

Definition chunk_complete (c : UpdateFileChunk) : Prop :=
  chunk_ok c ∧ chunk_is_empty c = false.

(** A hunk no later line can change. *)
Definition hunk_complete (h : Hunk) : Prop :=
  match h with
  | AddFile _ contents => ∃ ls, contents = concat ((λ l, l ++ [LF]) <$> ls)
  | DeleteFile _ => True
  | UpdateFile _ _ chunks => chunks ≠ [] ∧ Forall chunk_complete chunks
  end.

(** The chunks of the update hunk being parsed: only the last one may still be
    without lines, and then it is not marked as the end of the file. *)
Definition chunks_open (chunks : list UpdateFileChunk) : Prop :=
  chunks = [] ∨ ∃ cs c, chunks = cs ++ [c] ∧ Forall chunk_complete cs ∧ chunk_ok c
    ∧ (is_end_of_file c = true → chunk_is_empty c = false).

Definition parser_inv (p : StreamingPatchParser) : Prop :=
  match mode (state p) with
  | NotStarted | StartedPatch => hunks (state p) = []
  | ModeAddFile =>
      ∃ hs path contents, hunks (state p) = hs ++ [AddFile path contents]
        ∧ Forall hunk_complete (hs ++ [AddFile path contents])
  | ModeDeleteFile =>
      ∃ hs path, hunks (state p) = hs ++ [DeleteFile path] ∧ Forall hunk_complete hs
  | ModeUpdateFile n =>
      n ≤ line_number p ∧
      ∃ hs path mv chunks, hunks (state p) = hs ++ [UpdateFile path mv chunks]
        ∧ Forall hunk_complete hs ∧ chunks_open chunks
  | EndedPatch => Forall hunk_complete (hunks (state p))
  end.

Lemma parser_inv_new : parser_inv new_parser.
Proof. done. Qed.

(** ** Context indices under line pushes *)

Lemma context_indices_ok_mono old new old' new' o n idx :
  old `prefix_of` old' → new `prefix_of` new' →
  context_indices_ok old new o n idx → context_indices_ok old' new' o n idx.
Proof.
  intros Ho Hn. revert o n. induction idx as [|[i j] idx IH]; intros o n; simpl; [done|].
  intros (? & ? & (l & ? & ?) & ?). repeat split; [done|done| |by apply IH].
  exists l. split; by eapply prefix_lookup_Some.
Qed.

Lemma context_indices_ok_snoc old new o n idx l :
  o ≤ length old → n ≤ length new → context_indices_ok old new o n idx →
  context_indices_ok (old ++ [l]) (new ++ [l]) o n (idx ++ [(length old, length new)]).
Proof.
  intros Ho Hn H. revert o n Ho Hn H. induction idx as [|[i j] idx IH]; intros o n Ho Hn; simpl.
  - intros _. repeat split; [done|done|]. exists l.
    by rewrite !list_lookup_middle.
  - intros (? & ? & (l' & Hi & Hj) & H).
    pose proof (lookup_lt_Some _ _ _ Hi). pose proof (lookup_lt_Some _ _ _ Hj).
    repeat split; [done|done| |by apply IH; try lia].
    exists l'. split; by apply lookup_app_l_Some.
Qed.

Lemma chunk_ok_push_context l c : chunk_ok c → chunk_ok (push_context_line l c).
Proof. apply context_indices_ok_snoc; lia. Qed.

Lemma chunk_ok_push_new l c : chunk_ok c → chunk_ok (push_new_line l c).
Proof. apply context_indices_ok_mono; [done|by apply prefix_app_r]. Qed.

Lemma chunk_ok_push_old l c : chunk_ok c → chunk_ok (push_old_line l c).
Proof. apply context_indices_ok_mono; [by apply prefix_app_r|done]. Qed.

Lemma chunk_is_empty_push_context l c : chunk_is_empty (push_context_line l c) = false.
Proof. apply chunk_is_empty_false. left. simpl. by destruct (old_lines c). Qed.

Lemma chunk_is_empty_push_new l c : chunk_is_empty (push_new_line l c) = false.
Proof. apply chunk_is_empty_false. right. simpl. by destruct (new_lines c). Qed.

Lemma chunk_is_empty_push_old l c : chunk_is_empty (push_old_line l c) = false.
Proof. apply chunk_is_empty_false. left. simpl. by destruct (old_lines c). Qed.

#[export] Hint Resolve chunk_ok_push_context chunk_ok_push_new chunk_ok_push_old
  chunk_is_empty_push_context chunk_is_empty_push_new chunk_is_empty_push_old : codex.

Lemma push_to_last_chunk_open f chunks :
  chunks_open chunks →
  (∀ c, chunk_ok c → chunk_ok (f c)) → (∀ c, chunk_is_empty (f c) = false) →
  chunks_open (push_to_last_chunk f chunks).
Proof.
  intros Ho Hok Hne. right. unfold push_to_last_chunk.
  destruct Ho as [->|(cs & c & -> & Hcs & Hc & He)].
  - exists [], (f default_chunk). simpl. repeat split; try done. by apply Hok.
  - exists cs, (f c). rewrite is_empty_snoc.
    rewrite alter_last_snoc. repeat split; auto.
Qed.

Lemma chunks_open_snoc chunks c :
  chunks_open chunks → last_is chunk_is_empty chunks = false →
  chunk_ok c → is_end_of_file c = false → chunks_open (chunks ++ [c]).
Proof.
  intros [->|(cs & d & -> & Hcs & Hd & _)] Hl Hc He; right; eexists _, c; (split; [done|]).
  - split; [done|]. split; [done|]. by rewrite He.
  - rewrite last_is_snoc in Hl. split; [|split; [done|by rewrite He]].
    apply Forall_app. split; [done|]. by repeat constructor.
Qed.

Lemma chunks_open_set_eof chunks :
  chunks_open chunks → last_is chunk_is_empty chunks = false →
  chunks_open (alter_last set_end_of_file chunks).
Proof.
  intros [->|(cs & d & -> & Hcs & Hd & _)] Hl; [by left|]. right.
  rewrite last_is_snoc in Hl. exists cs, (set_end_of_file d). by rewrite alter_last_snoc.
Qed.

Lemma update_hunk_line_open line n mv chunks mv' chunks' :
  chunks_open chunks → update_hunk_line line n mv chunks = Ok (mv', chunks') →
  chunks_open chunks'.
Proof.
  intros Ho H. unfold update_hunk_line in H.
  repeat case_in H; simplify_eq; bool_props;
    eauto using push_to_last_chunk_open with codex;
    try (by apply chunks_open_set_eof);
    match goal with
    | H : strip_prefix _ CHANGE_CONTEXT_MARKER = Some _ |- _ =>
        apply strip_prefix_starts_with in H; rewrite H in *
    | _ => idtac
    end;
    apply chunks_open_snoc; try done; by destruct (last_is chunk_is_empty chunks).
Qed.

(** ** Header lines *)

(** What [handle_hunk_headers_and_end_patch] does to the state: nothing unless
    it consumed the line. *)
Lemma handle_cases t p p' r :
  handle_hunk_headers_and_end_patch t p = (p', r) →
  match r with
  | Err _ | Ok false => p' = p
  | Ok true =>
      (mode (state p) = StartedPatch ∧ ∃ e, p' = set_environment_id e p) ∨
      ensure_update_hunk_is_not_empty t p = Ok tt ∧
      (p' = set_mode EndedPatch p ∨
       (∃ path, p' = push_hunk (AddFile path []) ModeAddFile p) ∨
       (∃ path, p' = push_hunk (DeleteFile path) ModeDeleteFile p) ∨
       (∃ path, p' = push_hunk (UpdateFile path None []) (ModeUpdateFile (line_number p)) p))
  end.
Proof.
  unfold handle_hunk_headers_and_end_patch, ensure_nonempty, se_bind, se_get, se_fail,
    se_modify, se_ret. intros H.
  repeat case_in H; simplify_eq; try done;
    repeat match goal with
    | H : (_, _) = (_, _) |- _ => injection H as ??; subst
    | u : unit |- _ => destruct u
    end; eauto 10.
Qed.

Lemma ensure_complete t p :
  parser_inv p → ensure_update_hunk_is_not_empty t p = Ok tt →
  Forall hunk_complete (hunks (state p)).
Proof.
  unfold parser_inv, ensure_update_hunk_is_not_empty.
  destruct (mode (state p)) eqn:Em; [by intros ->|by intros ->| | | |done].
  - by intros (hs & path & c & -> & H).
  - intros (hs & path & -> & H) _. apply Forall_app. split; [done|]. by repeat constructor.
  - intros (_ & hs & path & mv & chunks & -> & Hhs & Ho). rewrite last_snoc. intros He.
    apply Forall_app. split; [done|]. constructor; [|done].
    destruct Ho as [->|(cs & c & -> & Hcs & Hc & _)]; [done|].
    rewrite is_empty_snoc, last_is_snoc in He. split; [by destruct cs|].
    apply Forall_app. split; [done|]. repeat constructor; [done|].
    destruct (chunk_is_empty c); [|done]. by case_decide || by destruct (bool_decide _).
Qed.

Lemma hunk_complete_AddFile_nil path : hunk_complete (AddFile path []).
Proof. by exists []. Qed.

Lemma handle_inv t p p' r :
  parser_inv p → handle_hunk_headers_and_end_patch t p = (p', r) → parser_inv p'.
Proof.
  intros Hp H. apply handle_cases in H.
  destruct r as [[]|e]; [|by subst|by subst].
  destruct H as [(Hm & e & ->)|[He H]].
  - unfold parser_inv in *. simpl. by rewrite Hm in *.
  - pose proof (ensure_complete _ _ Hp He) as Hc.
    destruct H as [->|[(path & ->)|[(path & ->)|(path & ->)]]]; unfold parser_inv; simpl.
    + done.
    + eexists _, _, _. split; [done|]. apply Forall_app.
      split; [done|]. constructor; [apply hunk_complete_AddFile_nil|done].
    + by eexists _, _.
    + split; [done|]. eexists _, _, _, _. by repeat split; [..|left].
Qed.

(** ** Preservation by the operations *)

Lemma process_update_line_inv n line p p' r :
  mode (state p) = ModeUpdateFile n → parser_inv p →
  process_update_line line p = (p', r) → parser_inv p'.
Proof.
  intros Hm Hp. unfold process_update_line, se_bind, se_get, se_ret.
  destruct (handle_hunk_headers_and_end_patch _ p) as [p1 r1] eqn:Eh.
  pose proof (handle_inv _ _ _ _ Hp Eh) as Hp1. apply handle_cases in Eh.
  destruct r1 as [[]|e]; [by intros [= <- _]| |by intros [= <- _]].
  subst p1. unfold parser_inv in Hp. rewrite Hm in Hp.
  destruct Hp as (Hn & hs & path & mv & chunks & Hh & Hhs & Ho). rewrite Hh, last_snoc.
  destruct (update_hunk_line _ _ _ _) as [[mv' chunks']|e] eqn:E; intros [= <- _]; [|done].
  unfold parser_inv. simpl. rewrite Hm. split; [done|].
  eexists _, _, _, _. rewrite alter_last_snoc. split; [done|].
  eauto using update_hunk_line_open.
Qed.

Lemma process_line_inv line p p' r :
  parser_inv p → process_line line p = (p', r) → parser_inv p'.
Proof.
  intros Hp. unfold process_line. unfold se_bind at 1, se_get at 1.
  destruct (mode (state p)) eqn:Em.
  - case_match; intros [= <- _]; [|done]. unfold parser_inv in *. by rewrite Em in Hp.
  - unfold se_bind. destruct (handle_hunk_headers_and_end_patch _ p) as [p1 r1] eqn:Eh.
    apply handle_inv in Eh; [|done]. by destruct r1 as [[]|e]; intros [= <- _].
  - unfold se_bind. destruct (handle_hunk_headers_and_end_patch _ p) as [p1 r1] eqn:Eh.
    pose proof (handle_inv _ _ _ _ Hp Eh) as Hp1. apply handle_cases in Eh.
    destruct r1 as [[]|e]; [by intros [= <- _]| |by intros [= <- _]]. subst p1.
    unfold parser_inv in Hp. rewrite Em in Hp.
    destruct Hp as (hs & path & c & Hh & Hc). unfold se_get. rewrite Hh, last_snoc.
    destruct (strip_prefix _ _); intros [= <- _]; [|done].
    unfold parser_inv. simpl. rewrite Em, alter_last_snoc. eexists _, _, _. split; [done|].
    apply Forall_app in Hc as [Hhs [[ls ->] _]%Forall_cons].
    apply Forall_app. split; [done|]. constructor; [|done].
    eexists (ls ++ [_]). rewrite fmap_app, concat_app. simpl. by rewrite app_nil_r.
  - unfold se_bind. destruct (handle_hunk_headers_and_end_patch _ p) as [p1 r1] eqn:Eh.
    apply handle_inv in Eh; [|done]. by destruct r1 as [[]|e]; intros [= <- _].
  - by apply process_update_line_inv with hunk_line_number.
  - case_match; by intros [= <- _].
Qed.

Lemma parser_inv_frame p b n :
  line_number p ≤ n → parser_inv p → parser_inv (mkParser b (state p) n).
Proof.
  unfold parser_inv. simpl. intros Hn. destruct (mode (state p)); try done.
  intros [? H]. split; [lia|done].
Qed.

Lemma push_char_inv ch p p' r : parser_inv p → push_char ch p = (p', r) → parser_inv p'.
Proof.
  intros Hp. unfold push_char. case_match.
  - unfold se_bind, se_get, se_put, se_modify, bump_line_number. simpl. apply process_line_inv.
    apply parser_inv_frame; [lia|done].
  - intros [= <- _]. by apply parser_inv_frame.
Qed.

Lemma push_chars_inv delta p p' r : parser_inv p → push_chars delta p = (p', r) → parser_inv p'.
Proof.
  revert p. induction delta as [|ch delta IH]; intros p Hp; simpl; [by intros [= <- _]|].
  unfold se_bind. destruct (push_char ch p) as [p1 r1] eqn:E.
  apply push_char_inv in E; [|done]. destruct r1; [by apply IH|by intros [= <- _]].
Qed.

Lemma push_delta_inv delta p p' r : parser_inv p → push_delta delta p = (p', r) → parser_inv p'.
Proof.
  intros Hp. unfold push_delta, se_bind. destruct (push_chars delta p) as [p1 r1] eqn:E.
  apply push_chars_inv in E; [|done]. by destruct r1; intros [= <- _].
Qed.

Lemma finish_inv p p' r : parser_inv p → finish p = (p', r) →
  parser_inv p' ∧ ∀ hs, r = Ok hs → hs = hunks (state p') ∧ mode (state p') = EndedPatch.
Proof.
  intros Hp. unfold finish. unfold se_bind at 1, se_get at 1. unfold se_bind at 1.
  set (m := if is_empty (line_buffer p) then _ else _).
  destruct (m p) as [p1 r1] eqn:Em.
  assert (parser_inv p1) as Hp1.
  { subst m. destruct (is_empty (line_buffer p)); [by injection Em as <- _|].
    unfold se_bind, se_put, se_modify, bump_line_number in Em. simpl in Em.
    case_match; [|by eapply process_line_inv, Em; apply parser_inv_frame; [lia|]].
    unfold ensure_nonempty in Em.
    destruct (ensure_update_hunk_is_not_empty _ _) as [[]|e] eqn:E;
      injection Em as <- _; [|by apply parser_inv_frame; [lia|]].
    apply ensure_complete in E; [done|]. by apply parser_inv_frame; [lia|]. }
  destruct r1 as [[]|e]; [|by intros [= <- <-]].
  unfold se_bind, se_get. destruct (mode (state p1)) eqn:E; intros [= <- <-];
    (split; [done|]); intros hs Heq; try done. by injection Heq as <-.
Qed.

(** Every patch that parses consists of complete hunks. *)
Lemma parse_patch_text_complete t m a :
  parse_patch_text t m = Ok a → Forall hunk_complete (args_hunks a).
Proof.
  unfold parse_patch_text. set (ls := match m with Strict => _ | Lenient => _ end).
  destruct ls as [patch_lines|e]; simpl; [|done].
  unfold se_bind. destruct (push_delta _ new_parser) as [p1 [hs1|e1]] eqn:E1; [|done].
  destruct (finish p1) as [p2 [hs2|e2]] eqn:E2; intros [= <-]. simpl.
  apply push_delta_inv in E1; [|apply parser_inv_new].
  apply finish_inv in E2 as [Hinv He]; [|done].
  destruct (He _ eq_refl) as [-> Hm]. unfold parser_inv in Hinv. by rewrite Hm in Hinv.
Qed.

(** * Here-documents *)

Lemma strict_boundaries_length ls : is_ok (check_patch_boundaries_strict ls) = true → 2 ≤ length ls.
Proof.
  destruct ls as [|a [|b ls]]; [done| |simpl; lia].
  unfold check_patch_boundaries_strict, check_start_and_end_lines_strict. simpl.
  destruct (bool_decide (trim a = BEGIN_PATCH_MARKER)) eqn:E1; [|done].
  destruct (bool_decide (trim a = END_PATCH_MARKER)) eqn:E2; [|done].
  bool_props. by assert (BEGIN_PATCH_MARKER = END_PATCH_MARKER) by congruence.
Qed.

Lemma strict_boundaries_ok ls :
  is_ok (check_patch_boundaries_strict ls) = true → check_patch_boundaries_strict ls = Ok ls.
Proof.
  unfold check_patch_boundaries_strict. by destruct (check_start_and_end_lines_strict _ _).
Qed.

Definition heredoc_openers : list str :=
  [lit "<<EOF"; lit "<<'EOF'"; lit "<<" ++ [QUOTE] ++ lit "EOF" ++ [QUOTE]].

Lemma lenient_heredoc_lines op ls :
  op ∈ heredoc_openers → is_ok (check_patch_boundaries_strict ls) = true →
  check_patch_boundaries_lenient (op :: ls ++ [lit "EOF"]) = Ok ls.
Proof.
  intros Hop Hls. pose proof (strict_boundaries_length _ Hls) as Hlen.
  unfold check_patch_boundaries_lenient.
  assert (check_patch_boundaries_strict (op :: ls ++ [lit "EOF"]) = Err FIRST_LINE_ERROR) as ->.
  { unfold check_patch_boundaries_strict. rewrite app_comm_cons, last_snoc. simpl.
    unfold heredoc_openers in Hop. set_unfold. by destruct Hop as [->|[->|[->|[]]]]. }
  assert (last (op :: ls ++ [lit "EOF"]) = Some (lit "EOF")) as ->
    by (by rewrite app_comm_cons, last_snoc).
  assert (length (op :: ls ++ [lit "EOF"]) = S (S (length ls))) as ->
    by (simpl; rewrite length_app; simpl; lia).
  replace (4 <=? S (S (length ls))) with true by (symmetry; apply Nat.leb_le; lia).
  cbn [head].
  assert ((bool_decide (op = lit "<<EOF") || bool_decide (op = lit "<<'EOF'")
    || bool_decide (op = lit "<<" ++ [QUOTE] ++ lit "EOF" ++ [QUOTE])) = true) as ->.
  { unfold heredoc_openers in Hop. set_unfold. by destruct Hop as [->|[->|[->|[]]]]. }
  change (ends_with (lit "EOF") (lit "EOF")) with true.
  cbn [andb drop Nat.sub]. rewrite Nat.sub_0_r.
  rewrite drop_0, take_app_length. by apply strict_boundaries_ok.
Qed.

(** * The claims *)

(** The streaming parser does not depend on how its input is cut into
    deltas: for every state, feeding the deltas one by one (stopping at the
    first error) leaves the same state and returns the same hunks or the same
    error as feeding their concatenation in one call. *)
Theorem push_delta_chunk_independent (ds : list str) (p : StreamingPatchParser) :
  push_deltas ds p = push_delta (concat ds) p.
Proof. apply push_deltas_concat. Qed.

(** [parser_inv] holds of every state the parser reaches, errors included:
    the mode agrees with the kind of the last hunk, all earlier hunks are
    complete, only the last chunk of an open update hunk may lack lines, and the
    recorded context indices point at equal lines of both sides in increasing
    order. *)
Theorem streaming_parser_invariant (ds : list str) (p : StreamingPatchParser)
    (r : Result (list Hunk) ParseError) :
  push_deltas ds new_parser = (p, r) →
  parser_inv p ∧ (∀ p' r', finish p = (p', r') → parser_inv p').
Proof.
  rewrite push_deltas_concat. intros H.
  apply push_delta_inv in H; [|apply parser_inv_new].
  split; [done|]. intros p' r' H'. by apply finish_inv in H' as [? _].
Qed.

Lemma streaming_parser_invariant_witness :
  parser_inv (push_deltas [lit "*** Begin "; lit "Patch" ++ [LF] ++ lit "*** Add File: a" ++ [LF]]
    new_parser).1.
Proof.
  apply (streaming_parser_invariant
    [lit "*** Begin "; lit "Patch" ++ [LF] ++ lit "*** Add File: a" ++ [LF]]
    _ (Ok [AddFile (lit "a") []])).
  vm_compute. reflexivity.
Defined.

(** A patch that [parse_patch] accepts has no empty update hunk and no empty
    chunk, its chunks' context indices are valid, and the contents of an added
    file are newline-terminated lines. *)
Theorem parse_patch_hunks_complete (patch : str) (a : ApplyPatchArgs) :
  parse_patch patch = Ok a → Forall hunk_complete (args_hunks a).
Proof. apply parse_patch_text_complete. Qed.

Lemma parse_patch_hunks_complete_witness :
  Forall hunk_complete [UpdateFile (lit "f") None [mkChunk None [lit "x"] [lit "x"; lit "y"] [(0, 0)] false]].
Proof.
  apply (parse_patch_hunks_complete
    (join [LF] [lit "*** Begin Patch"; lit "*** Update File: f"; lit " x"; lit "+y"; lit "*** End Patch"])
    (mkArgs (join [LF] [lit "*** Begin Patch"; lit "*** Update File: f"; lit " x"; lit "+y"; lit "*** End Patch"])
       [UpdateFile (lit "f") None [mkChunk None [lit "x"] [lit "x"; lit "y"] [(0, 0)] false]] None None)).
  vm_compute. reflexivity.
Defined.

(** Lenient mode accepts a here-document: for each of the three openers,
    wrapping a trimmed patch whose boundary lines are right in [<<EOF ... EOF]
    parses exactly like the patch itself, in hunks, text and error alike. *)
Theorem parse_patch_heredoc (op body : str) :
  op ∈ heredoc_openers → trim body = body →
  is_ok (check_patch_boundaries_strict (lines body)) = true →
  parse_patch (op ++ LF :: body ++ LF :: lit "EOF") = parse_patch body.
Proof.
  intros Hop Htrim Hok. unfold parse_patch, parse_patch_text. cbn [PARSE_IN_STRICT_MODE].
  assert (no_trailing_ws body) as Hws by (rewrite <- Htrim; apply trim_end_no_trailing_ws).
  assert (body ≠ []) as Hne by (by intros ->).
  assert ((LF ∉ op) ∧ no_leading_ws op ∧ op ≠ [] ∧ strip_cr op = op) as (Hlf & Hlead & Hopne & Hcr).
  { unfold heredoc_openers in Hop. set_unfold.
    destruct Hop as [->|[->|[->|[]]]]; (split; [by apply (bool_decide_unpack _)|done]). }
  rewrite (trim_id (op ++ _)).
  - rewrite lines_cons, Hcr, lines_snoc by done.
    change (lines (lit "EOF")) with [lit "EOF"]. rewrite lenient_heredoc_lines by done.
    rewrite Htrim. unfold check_patch_boundaries_lenient.
    by rewrite strict_boundaries_ok.
  - destruct op; [done|]. done.
  - change (op ++ LF :: body ++ LF :: lit "EOF") with (op ++ [LF] ++ body ++ [LF] ++ lit "EOF").
    rewrite !(assoc_L (++)). by apply no_trailing_ws_app.
Qed.

Lemma parse_patch_heredoc_witness :
  parse_patch (lit "<<'EOF'" ++ LF :: (lit "*** Begin Patch" ++ LF :: lit "*** End Patch")
    ++ LF :: lit "EOF")
  = parse_patch (lit "*** Begin Patch" ++ LF :: lit "*** End Patch").
Proof.
  apply parse_patch_heredoc; [by apply (bool_decide_unpack _)| |]; vm_compute; reflexivity.
Defined.
