(* ===== verification/PatchPrinter.v ===== *)
(** A printer for the patch grammar documented at the top of [parser.rs], and
    the proof that [parse_patch] inverts it. The printer is the specification of
    the textual format: one canonical rendering per list of hunks. *)
From stdpp Require Import base list sets numbers strings.
From S2P Require Import Prelude RustStr PatchParser PatchParserFacts.

(** * Printing *)
Definition context_line (l : str) : str := 32%N :: l.
Definition added_line (l : str) : str := 43%N :: l.
Definition removed_line (l : str) : str := 45%N :: l.

(** Removed and added lines between two context lines, in source order. *)
Fixpoint print_body (old new : list str) (o n : nat) (idx : list (nat * nat)) : list str :=
  match idx with
  | [] => (removed_line <$> drop o old) ++ (added_line <$> drop n new)
  | (i, j) :: idx =>
      (removed_line <$> take (i - o) (drop o old)) ++
      (added_line <$> take (j - n) (drop n new)) ++
      (context_line <$> option_list (old !! i)) ++
      print_body old new (S i) (S j) idx
  end.

Definition print_context (ctx : option str) : str :=
  match ctx with
  | None => EMPTY_CHANGE_CONTEXT_MARKER
  | Some c => CHANGE_CONTEXT_MARKER ++ c
  end.

Definition print_chunk (c : UpdateFileChunk) : list str :=
  print_context (change_context c) ::
  print_body (old_lines c) (new_lines c) 0 0 (context_line_indices c) ++
  (if is_end_of_file c then [EOF_MARKER] else []).

Definition print_move (mv : option str) : list str :=
  match mv with
  | None => []
  | Some p => [MOVE_TO_MARKER ++ p]
  end.

Definition print_hunk (h : Hunk) : list str :=
  match h with
  | AddFile path contents => (ADD_FILE_MARKER ++ path) :: (added_line <$> lines contents)
  | DeleteFile path => [DELETE_FILE_MARKER ++ path]
  | UpdateFile path mv chunks =>
      (UPDATE_FILE_MARKER ++ path) :: print_move mv ++ concat (print_chunk <$> chunks)
  end.

Definition print_environment (env : option str) : list str :=
  match env with
  | None => []
  | Some e => [ENVIRONMENT_ID_MARKER ++ 32%N :: e]
  end.

Definition print_patch (env : option str) (hs : list Hunk) : str :=
  join [LF] (BEGIN_PATCH_MARKER :: print_environment env ++ concat (print_hunk <$> hs)
             ++ [END_PATCH_MARKER]).

(** * What can be printed *)

(** Text that survives on the rest of a marker line. *)
Definition printable_text (t : str) : Prop := t ≠ [] ∧ (LF ∉ t) ∧ no_trailing_ws t.

#[export] Instance printable_text_dec t : Decision (printable_text t).
Proof. unfold printable_text. apply _. Defined.

Definition printable_chunk (c : UpdateFileChunk) : Prop :=
  chunk_complete c ∧ Forall plain_line (old_lines c) ∧ Forall plain_line (new_lines c)
  ∧ (∀ ctx, change_context c = Some ctx → printable_text ctx).

Definition printable_hunk (h : Hunk) : Prop :=
  match h with
  | AddFile path contents =>
      printable_text path ∧
      ∃ ls, contents = concat ((λ l, l ++ [LF]) <$> ls) ∧ Forall plain_line ls
  | DeleteFile path => printable_text path
  | UpdateFile path mv chunks =>
      printable_text path ∧ (∀ p, mv = Some p → printable_text p)
      ∧ chunks ≠ [] ∧ Forall printable_chunk chunks
  end.

Definition printable_environment (env : option str) : Prop :=
  ∀ e, env = Some e → printable_text e ∧ no_leading_ws e.

(** * Text lemmas *)

Lemma lines_terminated ls :
  Forall plain_line ls → lines (concat ((λ l, l ++ [LF]) <$> ls)) = ls.
Proof.
  unfold lines. induction 1 as [|l ls [Hl Hcr] _ IH]; [done|]. simpl.
  rewrite <- (assoc_L (++)). change ([LF] ++ ?x) with (LF :: x).
  rewrite split_char_app by done. simpl.
  pose proof (split_char_nonempty LF (concat ((λ l, l ++ [LF]) <$> ls))) as Hne.
  destruct (split_char LF _) as [|w ws]; [done|]. by rewrite IH, strip_cr_plain.
Qed.

Lemma plain_line_cons c l : c ≠ LF → c ≠ CR → plain_line l → plain_line (c :: l).
Proof.
  intros ?? [Hl Hcr]. split; [set_solver|]. destruct l; [by intros [= ->]|done].
Qed.

Lemma plain_line_marker m t : plain_line m → printable_text t → plain_line (m ++ t).
Proof.
  intros [Hm _] (Hne & Hlf & Hws). split; [set_solver|].
  rewrite last_app. unfold no_trailing_ws in Hws.
  destruct (last t) eqn:E; [|by apply last_None in E]. by intros [= ->].
Qed.

Lemma trim_end_marker m t : printable_text t → trim_end (m ++ t) = m ++ t.
Proof. intros (Hne & _ & Hws). by apply trim_end_id, no_trailing_ws_app. Qed.

Lemma trim_marker c m t :
  is_whitespace c = false → printable_text t → trim ((c :: m) ++ t) = (c :: m) ++ t.
Proof.
  intros Hc Ht. simpl. rewrite trim_cons by done. f_equal. by apply trim_end_marker.
Qed.

Lemma trim_end_space l :
  trim_end (context_line l) = [] ∨ ∃ r, trim_end (context_line l) = 32%N :: r.
Proof.
  destruct (trim_end_matches_prefix is_whitespace (context_line l)) as (w & Hw & _).
  unfold trim_end. destruct (trim_end_matches _ _) as [|c r]; [by left|].
  right. exists r. unfold context_line in Hw. simpl in Hw. by injection Hw as <- _.
Qed.

(** * Running the parser line by line *)

Fixpoint process_lines (ls : list str) : ParserM unit :=
  match ls with
  | [] => se_ret tt
  | l :: ls => se_modify bump_line_number ;;; process_line l ;;; process_lines ls
  end.

Lemma process_lines_app l1 l2 p :
  process_lines (l1 ++ l2) p = (process_lines l1 ;;; process_lines l2) p.
Proof.
  revert p. induction l1 as [|l l1 IH]; intros p; [done|]. simpl.
  unfold se_bind, se_modify. destruct (process_line l _) as [p' [u|e]]; [|done]. apply IH.
Qed.

(** [process_line] does not touch the line buffer. *)
Lemma process_line_frame l p p' r :
  process_line l p = (p', r) → line_buffer p' = line_buffer p ∧ line_number p' = line_number p.
Proof.
  unfold process_line, process_update_line, se_bind, se_get, se_ret, se_fail, se_modify.
  intros H. repeat case_in H; simplify_eq; try done;
    repeat match goal with
    | H : handle_hunk_headers_and_end_patch _ _ = _ |- _ =>
        apply handle_cases in H; simpl in H; destruct_or?; destruct_and?; destruct_or?
    | H : ∃ _, _ |- _ => destruct H as [??]
    end; by subst.
Qed.

Lemma push_chars_word w p :
  LF ∉ w → push_chars w p = (set_line_buffer (line_buffer p ++ w) p, Ok tt).
Proof.
  revert p. induction w as [|c w IH]; intros p Hw; simpl.
  - rewrite app_nil_r. by destruct p.
  - rewrite not_elem_of_cons in Hw. destruct Hw as [Hc Hw].
    unfold se_bind, push_char. destruct (N.eqb_spec c LF); [congruence|].
    unfold se_modify. rewrite IH by done. simpl. by rewrite <- (assoc_L (++)).
Qed.

Lemma push_chars_line w s p :
  line_buffer p = [] → plain_line w →
  push_chars (w ++ LF :: s) p = (process_lines [w] ;;; push_chars s) p.
Proof.
  intros Hb [Hw Hcr]. rewrite push_chars_app. unfold se_bind at 1.
  rewrite push_chars_word by done. rewrite Hb. simpl.
  unfold push_char, se_bind, se_get, se_put, se_modify, se_ret. simpl.
  rewrite strip_cr_plain by done. unfold bump_line_number, set_line_buffer. simpl. rewrite Hb.
  by destruct (process_line w _) as [p' [u|e]].
Qed.

Lemma push_chars_lines ls w p :
  line_buffer p = [] → Forall plain_line ls →
  push_chars (join [LF] (ls ++ [w])) p = (process_lines ls ;;; push_chars w) p.
Proof.
  intros Hb Hls. revert p Hb. induction Hls as [|l ls Hl Hls IH]; intros p Hb; [done|].
  destruct (ls ++ [w]) as [|x xs] eqn:E; [by destruct ls|].
  rewrite <- app_comm_cons, E. simpl. change ([LF] ++ ?x) with (LF :: x) in *.
  rewrite push_chars_line by done. simpl. unfold se_bind, se_modify, se_ret.
  destruct (process_line l _) as [p' [u|e]] eqn:Ep; [|done].
  apply process_line_frame in Ep as [Hb' _]. simpl in Hb'. rewrite IH by congruence. done.
Qed.

(** * Printed lines, one by one *)

(** The parser accepts a header: it is inside the patch and the hunk parsed so
    far is complete. *)
Definition ready (p : StreamingPatchParser) : Prop :=
  mode (state p) ≠ NotStarted ∧ mode (state p) ≠ EndedPatch
  ∧ ∀ t, ensure_update_hunk_is_not_empty t p = Ok tt.

Definition same_frame (p p' : StreamingPatchParser) : Prop :=
  environment_id (state p') = environment_id (state p) ∧ line_buffer p' = line_buffer p.

Lemma process_line_header t p q :
  ready p → trim t = t → trim_end t = t →
  handle_hunk_headers_and_end_patch t p = (q, Ok true) → process_line t p = (q, Ok tt).
Proof.
  intros (Hn & He & _) Ht Hte Hh. unfold process_line, process_update_line. rewrite Ht, Hte.
  unfold se_bind at 1, se_get at 1.
  destruct (mode (state p)); try done; unfold se_bind; by rewrite Hh.
Qed.

(** Evaluates [handle_hunk_headers_and_end_patch] on a marker line. *)
Ltac run_header Hr :=
  destruct Hr as (_ & _ & Hr);
  unfold handle_hunk_headers_and_end_patch; unfold se_bind at 1, se_get at 1;
  rewrite bool_decide_eq_false_2 by done; rewrite strip_prefix_app;
  repeat match goal with
  | |- context [strip_prefix ?a ?b] => change (strip_prefix a b) with (@None str)
  end;
  destruct (mode (state _)); cbn -[ensure_update_hunk_is_not_empty push_hunk];
  unfold se_bind, ensure_nonempty, se_get; by rewrite Hr.

Lemma header_add path p :
  ready p → printable_text path →
  process_line (ADD_FILE_MARKER ++ path) p = (push_hunk (AddFile path []) ModeAddFile p, Ok tt).
Proof.
  intros Hr Hp. apply process_line_header; [done|by apply trim_marker|by apply trim_end_marker|].
  run_header Hr.
Qed.

Lemma header_delete path p :
  ready p → printable_text path →
  process_line (DELETE_FILE_MARKER ++ path) p =
    (push_hunk (DeleteFile path) ModeDeleteFile p, Ok tt).
Proof.
  intros Hr Hp. apply process_line_header; [done|by apply trim_marker|by apply trim_end_marker|].
  run_header Hr.
Qed.

Lemma header_update path p :
  ready p → printable_text path →
  process_line (UPDATE_FILE_MARKER ++ path) p =
    (push_hunk (UpdateFile path None []) (ModeUpdateFile (line_number p)) p, Ok tt).
Proof.
  intros Hr Hp. apply process_line_header; [done|by apply trim_marker|by apply trim_end_marker|].
  run_header Hr.
Qed.

(** Lines that are no header pass through [handle_hunk_headers_and_end_patch]. *)
Lemma handle_no_star t p :
  mode (state p) ≠ StartedPatch → head t ≠ Some 42%N →
  handle_hunk_headers_and_end_patch t p = (p, Ok false).
Proof.
  intros Hm Ht. unfold handle_hunk_headers_and_end_patch, se_bind, se_get, se_ret.
  assert (∀ m, head m = Some 42%N → strip_prefix t m = None) as Hnone.
  { intros [|c m] Hc; [done|]. injection Hc as ->. destruct t as [|d t]; [done|].
    cbn [strip_prefix]. destruct (N.eqb_spec 42 d); [by subst|done]. }
  rewrite !Hnone by done.
  rewrite bool_decide_eq_false_2 by (intros ->; by apply Ht).
  by destruct (mode (state p)).
Qed.

Lemma add_line l p hs path c :
  mode (state p) = ModeAddFile → hunks (state p) = hs ++ [AddFile path c] →
  process_line (added_line l) p =
    (set_hunks (hs ++ [AddFile path (c ++ l ++ [LF])]) p, Ok tt).
Proof.
  intros Hm Hh. unfold process_line. unfold se_bind at 1, se_get at 1. rewrite Hm.
  unfold se_bind. unfold added_line at 1. rewrite trim_cons by done.
  rewrite handle_no_star by (by rewrite ?Hm). unfold se_get. rewrite Hh, last_snoc.
  simpl. unfold se_modify. by rewrite alter_last_snoc.
Qed.

Lemma update_line line n p hs path mv chunks mv' chunks' :
  mode (state p) = ModeUpdateFile n → hunks (state p) = hs ++ [UpdateFile path mv chunks] →
  handle_hunk_headers_and_end_patch (trim_end line) p = (p, Ok false) →
  update_hunk_line line (line_number p) mv chunks = Ok (mv', chunks') →
  process_line line p = (set_hunks (hs ++ [UpdateFile path mv' chunks']) p, Ok tt).
Proof.
  intros Hm Hh Hn Hu. unfold process_line. unfold se_bind at 1, se_get at 1. rewrite Hm.
  unfold process_update_line, se_bind. rewrite Hn. unfold se_get.
  rewrite Hh, last_snoc, Hu. unfold se_modify. by rewrite alter_last_snoc.
Qed.

(** The effect of one body line on the chunk being parsed. *)
Definition body_effect (line : str) (c : UpdateFileChunk) : UpdateFileChunk :=
  match line with
  | 32%N :: l => push_context_line l c
  | 43%N :: l => push_new_line l c
  | 45%N :: l => push_old_line l c
  | _ => c
  end.

Definition is_body_line (line : str) : Prop :=
  ∃ l, line = context_line l ∨ line = added_line l ∨ line = removed_line l.

Lemma body_line_head line :
  is_body_line line →
  trim_end line = [] ∨ ∃ c r, trim_end line = c :: r ∧ (c = 32%N ∨ c = 43%N ∨ c = 45%N).
Proof.
  intros (l & [->|[->| ->]]).
  - destruct (trim_end_space l) as [H|[r H]]; [by left|right]. eauto 6.
  - right. unfold added_line. rewrite trim_end_cons by done. eauto 8.
  - right. unfold removed_line. rewrite trim_end_cons by done. eauto 8.
Qed.

Lemma update_body_line line n mv cs c :
  is_body_line line → is_end_of_file c = false →
  update_hunk_line line n mv (cs ++ [c]) = Ok (mv, cs ++ [body_effect line c]).
Proof.
  intros Hl He. unfold update_hunk_line, push_to_last_chunk.
  rewrite !last_is_snoc, He, is_empty_snoc. cbn [andb].
  assert (∀ m, head m = Some 42%N ∨ head m = Some 64%N →
    strip_prefix (trim_end line) m = None ∧ trim_end line ≠ m) as Hno.
  { intros [|x m] Hm; [by destruct Hm|].
    assert (x = 42%N ∨ x = 64%N) as Hx by (destruct Hm as [[= ->]|[= ->]]; auto).
    destruct (body_line_head _ Hl) as [->|(d & r & -> & Hd)]; [done|]. split.
    - cbn [strip_prefix]. destruct (N.eqb_spec x d); [|done]. naive_solver.
    - naive_solver. }
  unfold starts_with.
  rewrite (proj1 (Hno CHANGE_CONTEXT_MARKER (or_intror eq_refl))).
  rewrite (bool_decide_eq_false_2 (trim_end line = EMPTY_CHANGE_CONTEXT_MARKER))
    by (by apply Hno; right).
  rewrite (bool_decide_eq_false_2 (trim_end line = EOF_MARKER)) by (by apply Hno; left).
  destruct Hl as (l & [->|[->| ->]]); unfold context_line, added_line, removed_line; simpl;
    by rewrite alter_last_snoc.
Qed.

Lemma body_line ls n p hs path mv cs c :
  mode (state p) = ModeUpdateFile n →
  hunks (state p) = hs ++ [UpdateFile path mv (cs ++ [c])] →
  Forall is_body_line ls → is_end_of_file c = false →
  ∃ p', process_lines ls p = (p', Ok tt) ∧ mode (state p') = ModeUpdateFile n
    ∧ same_frame p p'
    ∧ hunks (state p') = hs ++ [UpdateFile path mv (cs ++ [foldl (λ c l, body_effect l c) c ls])].
Proof.
  intros Hm Hh Hls. revert p c Hm Hh. induction Hls as [|l ls Hl Hls IH]; intros p c Hm Hh He.
  { by exists p. }
  assert (is_end_of_file (body_effect l c) = false) as He'
    by (by destruct Hl as (x & [->|[->| ->]])).
  set (p1 := bump_line_number p).
  destruct (IH (set_hunks (hs ++ [UpdateFile path mv (cs ++ [body_effect l c])]) p1)
    (body_effect l c)) as (p' & Hp' & Hm' & Hf & Hh'); [done|done|done|].
  exists p'. split; [|done]. simpl. unfold se_bind, se_modify. fold p1.
  rewrite (update_line l n p1 hs path mv (cs ++ [c]) mv (cs ++ [body_effect l c]));
    [done|done|done| |by apply update_body_line].
  apply handle_no_star; [by simpl; rewrite Hm|].
  destruct (body_line_head _ Hl) as [->|(d & r & -> & [->|[->| ->]])]; done.
Qed.

(** * Printed chunks *)

Lemma foldl_removed ls ctx a b idx :
  foldl (λ c l, body_effect l c) (mkChunk ctx a b idx false) (removed_line <$> ls)
  = mkChunk ctx (a ++ ls) b idx false.
Proof.
  revert a. induction ls as [|l ls IH]; intros a; simpl; [by rewrite app_nil_r|].
  unfold push_old_line. simpl. by rewrite IH, <- (assoc_L (++)).
Qed.

Lemma foldl_added ls ctx a b idx :
  foldl (λ c l, body_effect l c) (mkChunk ctx a b idx false) (added_line <$> ls)
  = mkChunk ctx a (b ++ ls) idx false.
Proof.
  revert b. induction ls as [|l ls IH]; intros b; simpl; [by rewrite app_nil_r|].
  unfold push_new_line. simpl. by rewrite IH, <- (assoc_L (++)).
Qed.

Lemma take_app_drop {A} (l : list A) o i : o ≤ i → take o l ++ take (i - o) (drop o l) = take i l.
Proof. intros H. rewrite take_drop_commute. replace (o + (i - o)) with i by lia.
  rewrite <- (take_drop o (take i l)) at 2. by rewrite take_take, Nat.min_l.
Qed.

Lemma print_body_effect old new o n idx idx0 ctx :
  o ≤ length old → n ≤ length new → context_indices_ok old new o n idx →
  foldl (λ c l, body_effect l c) (mkChunk ctx (take o old) (take n new) idx0 false)
    (print_body old new o n idx)
  = mkChunk ctx old new (idx0 ++ idx) false.
Proof.
  revert o n idx0. induction idx as [|[i j] idx IH]; intros o n idx0 Ho Hn H; simpl.
  - rewrite foldl_app, foldl_removed, foldl_added, !take_drop, app_nil_r. done.
  - destruct H as (Hoi & Hnj & (l & Hi & Hj) & H).
    pose proof (lookup_lt_Some _ _ _ Hi). pose proof (lookup_lt_Some _ _ _ Hj).
    rewrite !foldl_app, foldl_removed, foldl_added, !take_app_drop by done.
    rewrite Hi. simpl. unfold push_context_line. simpl.
    rewrite <- (take_S_r _ _ _ Hi), <- (take_S_r _ _ _ Hj), !length_take_le by lia.
    rewrite IH by (done || lia). by rewrite <- (assoc_L (++)).
Qed.

Lemma print_body_lines old new o n idx : Forall is_body_line (print_body old new o n idx).
Proof.
  revert o n. induction idx as [|[i j] idx IH]; intros o n; simpl;
    repeat apply Forall_app_2; try apply IH;
    apply Forall_fmap, Forall_true; unfold is_body_line; eauto.
Qed.

Definition in_update (n : nat) (hs : list Hunk) (path : str) (mv : option str)
    (cs : list UpdateFileChunk) (p : StreamingPatchParser) : Prop :=
  mode (state p) = ModeUpdateFile n ∧ hunks (state p) = hs ++ [UpdateFile path mv cs].

Lemma update_line_in line n p hs path mv cs mv' cs' :
  in_update n hs path mv cs p →
  handle_hunk_headers_and_end_patch (trim_end line) (bump_line_number p)
    = (bump_line_number p, Ok false) →
  update_hunk_line line (S (line_number p)) mv cs = Ok (mv', cs') →
  ∃ p', process_lines [line] p = (p', Ok tt) ∧ same_frame p p'
    ∧ in_update n hs path mv' cs' p'.
Proof.
  intros [Hm Hh] Hn Hu.
  exists (set_hunks (hs ++ [UpdateFile path mv' cs']) (bump_line_number p)).
  split; [|done]. simpl. unfold se_bind, se_modify, se_ret.
  by rewrite (update_line line n _ hs path mv cs mv' cs').
Qed.

Lemma process_lines_bind l1 l2 p p1 :
  process_lines l1 p = (p1, Ok tt) → process_lines (l1 ++ l2) p = process_lines l2 p1.
Proof. intros H. rewrite process_lines_app. unfold se_bind. by rewrite H. Qed.

Lemma same_frame_trans p q r : same_frame p q → same_frame q r → same_frame p r.
Proof. unfold same_frame. intros [-> ->] [-> ->]. done. Qed.

Lemma printed_context_line n p hs path mv cs ctx :
  in_update n hs path mv cs p → last_is chunk_is_empty cs = false →
  (∀ c, ctx = Some c → printable_text c) →
  ∃ p', process_lines [print_context ctx] p = (p', Ok tt) ∧ same_frame p p'
    ∧ in_update n hs path mv (cs ++ [mkChunk ctx [] [] [] false]) p'.
Proof.
  intros Hin Hl Hctx. apply (update_line_in _ n p hs path mv cs mv); [done| |].
  - destruct Hin as [Hm _]. destruct ctx as [c|]; cbn [print_context].
    + rewrite trim_end_marker by auto. apply handle_no_star; [by simpl; rewrite Hm|done].
    + apply handle_no_star; [by simpl; rewrite Hm|done].
  - unfold update_hunk_line. rewrite Hl. destruct ctx as [c|]; cbn [print_context].
    + rewrite trim_end_marker by auto. unfold starts_with. rewrite strip_prefix_app.
      rewrite (bool_decide_eq_false_2 (_ = EMPTY_CHANGE_CONTEXT_MARKER))
        by (destruct (Hctx c eq_refl) as [Hne _]; by destruct c).
      rewrite orb_true_r, !andb_false_r. by destruct (is_empty cs), mv.
    + change (trim_end EMPTY_CHANGE_CONTEXT_MARKER) with EMPTY_CHANGE_CONTEXT_MARKER.
      rewrite bool_decide_eq_true_2 by done. rewrite !andb_false_r.
      by destruct (is_empty cs), mv.
Qed.

Lemma printed_eof_line n p hs path mv cs c :
  in_update n hs path mv (cs ++ [c]) p → chunk_is_empty c = false → is_end_of_file c = false →
  ∃ p', process_lines [EOF_MARKER] p = (p', Ok tt) ∧ same_frame p p'
    ∧ in_update n hs path mv (cs ++ [set_end_of_file c]) p'.
Proof.
  intros Hin Hne He. apply (update_line_in _ n p hs path mv (cs ++ [c]) mv); [done| |].
  - destruct Hin as [Hm _]. unfold handle_hunk_headers_and_end_patch, se_bind, se_get.
    simpl. by rewrite Hm.
  - unfold update_hunk_line. rewrite !last_is_snoc, He, Hne, is_empty_snoc.
    cbn [andb]. rewrite !andb_false_r. simpl. by rewrite alter_last_snoc.
Qed.

Lemma printed_move_line n p hs path to :
  in_update n hs path None [] p → printable_text to →
  ∃ p', process_lines [MOVE_TO_MARKER ++ to] p = (p', Ok tt) ∧ same_frame p p'
    ∧ in_update n hs path (Some to) [] p'.
Proof.
  intros Hin Hto. apply (update_line_in _ n p hs path None [] _); [done| |].
  - destruct Hin as [Hm _]. rewrite trim_end_marker by done.
    unfold handle_hunk_headers_and_end_patch, se_bind, se_get. cbn [state bump_line_number].
    by rewrite Hm.
  - unfold update_hunk_line. rewrite trim_end_marker by done. simpl last_is. cbn [andb is_empty].
    by rewrite strip_prefix_app.
Qed.

Lemma printed_chunk n p hs path mv cs c :
  in_update n hs path mv cs p → last_is chunk_is_empty cs = false → printable_chunk c →
  ∃ p', process_lines (print_chunk c) p = (p', Ok tt) ∧ same_frame p p'
    ∧ in_update n hs path mv (cs ++ [c]) p'.
Proof.
  intros Hin Hl ([Hok Hne] & _ & _ & Hctx).
  destruct (printed_context_line n p hs path mv cs (change_context c)) as (p1 & H1 & F1 & [M1 I1]);
    [done|done|done|].
  set (body := print_body (old_lines c) (new_lines c) 0 0 (context_line_indices c)).
  destruct (body_line body n p1 hs path mv cs (mkChunk (change_context c) [] [] [] false))
    as (p2 & H2 & M2 & F2 & I2); [done|done|apply print_body_lines|done|].
  pose proof (print_body_effect (old_lines c) (new_lines c) 0 0 (context_line_indices c) []
    (change_context c) (Nat.le_0_l _) (Nat.le_0_l _) Hok) as Hfold.
  rewrite !take_0 in Hfold. unfold body in I2. rewrite Hfold in I2.
  unfold print_chunk. fold body.
  change (print_context (change_context c) :: ?x) with ([print_context (change_context c)] ++ x).
  rewrite (process_lines_bind _ _ _ _ H1), (process_lines_bind _ _ _ _ H2).
  destruct c as [ctx old new idx eof]; simpl in *. destruct eof.
  - destruct (printed_eof_line n p2 hs path mv cs (mkChunk ctx old new idx false))
      as (p3 & H3 & F3 & I3); [done|done|done|].
    exists p3. eauto using same_frame_trans.
  - exists p2. split; [done|]. split; [by eapply same_frame_trans|done].
Qed.

Lemma printed_chunks n p hs path mv cs ds :
  in_update n hs path mv cs p → last_is chunk_is_empty cs = false → Forall printable_chunk ds →
  ∃ p', process_lines (concat (print_chunk <$> ds)) p = (p', Ok tt) ∧ same_frame p p'
    ∧ in_update n hs path mv (cs ++ ds) p' ∧ last_is chunk_is_empty (cs ++ ds) = false.
Proof.
  intros Hin Hl Hds. revert p cs Hin Hl.
  induction Hds as [|d ds Hd Hds IH]; intros p cs Hin Hl.
  - exists p. by rewrite app_nil_r.
  - rewrite fmap_cons. cbn [concat]. destruct (printed_chunk n p hs path mv cs d) as (p1 & H1 & F1 & I1); [done..|].
    destruct (IH p1 (cs ++ [d])) as (p2 & H2 & F2 & I2 & L2); [done| |].
    { rewrite last_is_snoc. by destruct Hd as [[_ ?] _]. }
    exists p2. rewrite (process_lines_bind _ _ _ _ H1).
    rewrite <- (assoc_L (++)) in I2, L2. eauto using same_frame_trans.
Qed.

(** * Printed hunks *)

Definition after_hunk (hs : list Hunk) (p : StreamingPatchParser) : Prop :=
  ready p ∧ hunks (state p) = hs.

Lemma ready_last p h :
  mode (state p) ≠ NotStarted → mode (state p) ≠ EndedPatch → last (hunks (state p)) = Some h →
  (∀ path mv cs, h = UpdateFile path mv cs → cs ≠ [] ∧ last_is chunk_is_empty cs = false) →
  ready p.
Proof.
  intros H1 H2 Hl Hu. split; [done|]. split; [done|]. intros t.
  unfold ensure_update_hunk_is_not_empty. rewrite Hl. destruct h as [| |path mv cs]; try done.
  destruct (Hu path mv cs eq_refl) as [Hne ->]. by destruct cs, (mode (state p)).
Qed.

Lemma ready_frame p b n : ready p → ready (mkParser b (state p) n).
Proof.
  intros (H1 & H2 & H3). split; [done|]. split; [done|]. intros t. specialize (H3 t).
  unfold ensure_update_hunk_is_not_empty in *. cbn [state].
  repeat case_match; simplify_eq; done.
Qed.

Lemma ready_bump p : ready p → ready (bump_line_number p).
Proof. apply ready_frame. Qed.

Lemma printed_added_lines ls p hs path c :
  mode (state p) = ModeAddFile → hunks (state p) = hs ++ [AddFile path c] →
  ∃ p', process_lines (added_line <$> ls) p = (p', Ok tt) ∧ same_frame p p'
    ∧ mode (state p') = ModeAddFile
    ∧ hunks (state p') = hs ++ [AddFile path (c ++ concat ((λ l, l ++ [LF]) <$> ls))].
Proof.
  revert p c. induction ls as [|l ls IH]; intros p c Hm Hh; simpl.
  - exists p. by rewrite app_nil_r.
  - unfold se_bind, se_modify. rewrite (add_line l (bump_line_number p) hs path c) by done.
    destruct (IH (set_hunks (hs ++ [AddFile path (c ++ l ++ [LF])]) (bump_line_number p))
      (c ++ l ++ [LF])) as (p' & Hp' & F & M & Hh'); [done|done|].
    exists p'. rewrite <- !(assoc_L (++)) in Hh'. by rewrite <- (assoc_L (++)).
Qed.

Lemma printed_header line rest p q :
  process_line line (bump_line_number p) = (q, Ok tt) →
  process_lines (line :: rest) p = process_lines rest q.
Proof. intros H. simpl. unfold se_bind, se_modify. by rewrite H. Qed.

Lemma printed_hunk h p hs :
  after_hunk hs p → printable_hunk h →
  ∃ p', process_lines (print_hunk h) p = (p', Ok tt) ∧ same_frame p p' ∧ after_hunk (hs ++ [h]) p'.
Proof.
  intros [Hr Hh] Hp. pose proof (ready_bump _ Hr) as Hrb.
  destruct h as [path c|path|path mv chunks]; cbn [print_hunk printable_hunk] in *.
  - destruct Hp as (Hpath & ls & -> & Hls). rewrite lines_terminated by done.
    rewrite (printed_header _ _ _ _ (header_add path _ Hrb Hpath)).
    destruct (printed_added_lines ls
      (push_hunk (AddFile path []) ModeAddFile (bump_line_number p)) hs path [])
      as (p' & Hp' & F & M & Hh'); [done|by simpl; rewrite Hh|].
    exists p'. split; [done|]. split; [done|]. split; [|done].
    eapply ready_last; [by rewrite M|by rewrite M|by rewrite Hh', last_snoc|done].
  - rewrite (printed_header _ _ _ _ (header_delete path _ Hrb Hp)).
    eexists. split; [done|]. split; [done|]. split; [|by simpl; rewrite Hh].
    eapply ready_last; [done|done|by simpl; rewrite last_snoc|done].
  - destruct Hp as (Hpath & Hmv & Hne & Hcs).
    rewrite (printed_header _ _ _ _ (header_update path _ Hrb Hpath)).
    set (p1 := push_hunk _ _ _).
    assert (∃ p2, process_lines (print_move mv) p1 = (p2, Ok tt) ∧ same_frame p1 p2
      ∧ in_update (S (line_number p)) hs path mv [] p2) as (p2 & H2 & F2 & I2).
    { destruct mv as [to|].
      - apply printed_move_line; [|by apply Hmv]. split; [done|]. by simpl; rewrite Hh.
      - exists p1. split; [done|]. split; [done|]. split; [done|]. by simpl; rewrite Hh. }
    rewrite (process_lines_bind _ _ _ _ H2).
    destruct (printed_chunks _ _ _ _ _ _ chunks I2) as (p3 & H3 & F3 & [M3 I3] & L3); [done|done|].
    exists p3. split; [done|]. split; [eapply same_frame_trans; [exact F2|done]|].
    split; [|done]. eapply ready_last; [by rewrite M3|by rewrite M3|by rewrite I3, last_snoc|].
    by intros ? ? ? [= _ _ <-].
Qed.

Lemma printed_hunks ds p hs :
  after_hunk hs p → Forall printable_hunk ds →
  ∃ p', process_lines (concat (print_hunk <$> ds)) p = (p', Ok tt) ∧ same_frame p p'
    ∧ after_hunk (hs ++ ds) p'.
Proof.
  intros Hin Hds. revert p hs Hin. induction Hds as [|d ds Hd Hds IH]; intros p hs Hin.
  - exists p. by rewrite app_nil_r.
  - rewrite fmap_cons. cbn [concat]. destruct (printed_hunk d p hs) as (p1 & H1 & F1 & I1); [done..|].
    destruct (IH p1 (hs ++ [d])) as (p2 & H2 & F2 & I2); [done|].
    exists p2. rewrite (process_lines_bind _ _ _ _ H1).
    rewrite <- (assoc_L (++)) in I2. eauto using same_frame_trans.
Qed.

Lemma trim_space e : no_leading_ws e → no_trailing_ws e → trim (32%N :: e) = e.
Proof.
  intros Hl Ht. unfold trim. change (trim_start (32%N :: e)) with (trim_start e).
  by rewrite trim_start_id, trim_end_id.
Qed.

Lemma printed_environment env :
  printable_environment env →
  ∃ p, process_lines (BEGIN_PATCH_MARKER :: print_environment env) new_parser = (p, Ok tt)
    ∧ environment_id (state p) = env ∧ line_buffer p = [] ∧ after_hunk [] p.
Proof.
  intros Henv. destruct env as [e|]; [|by eexists].
  destruct (Henv e eq_refl) as [He Hle]. cbn [print_environment].
  rewrite (printed_header _ _ new_parser (mkParser [] (mkState StartedPatch [] None) 1)) by done.
  exists (mkParser [] (mkState StartedPatch [] (Some e)) 2). split; [|done].
  erewrite printed_header; [done|].
  unfold process_line.
  assert (trim (ENVIRONMENT_ID_MARKER ++ 32%N :: e) = ENVIRONMENT_ID_MARKER ++ 32%N :: e) as ->
    by exact (trim_marker 42%N (tail (ENVIRONMENT_ID_MARKER ++ [32%N])) e eq_refl He).
  unfold se_bind at 1, se_get at 1. cbn [mode state bump_line_number].
  unfold handle_hunk_headers_and_end_patch, se_bind, se_get. rewrite strip_prefix_app. simpl.
  destruct He as (Hne & _ & Hws). rewrite trim_space by done. by destruct e.
Qed.

Lemma finish_end_patch p :
  ready p → line_buffer p = END_PATCH_MARKER →
  ∃ p', finish p = (p', Ok (hunks (state p)))
    ∧ environment_id (state p') = environment_id (state p).
Proof.
  intros Hr Hb. destruct (ready_frame _ [] (S (line_number p)) Hr) as (_ & _ & He).
  unfold finish. unfold se_bind at 1, se_get at 1. rewrite Hb. cbn [is_empty].
  change (trim END_PATCH_MARKER) with END_PATCH_MARKER. rewrite bool_decide_eq_true_2 by done.
  unfold se_bind, se_put, se_modify, ensure_nonempty, bump_line_number, set_line_buffer.
  cbn [state line_number line_buffer]. rewrite He.
  eexists. split; [reflexivity|done].
Qed.

(** ** Printed lines are plain *)

Lemma print_body_plain old new o n idx :
  Forall plain_line old → Forall plain_line new → Forall plain_line (print_body old new o n idx).
Proof.
  intros Ho Hn. revert o n. induction idx as [|[i j] idx IH]; intros o n; simpl;
    repeat apply Forall_app_2; try apply IH; apply Forall_fmap;
    (eapply Forall_impl; [|intros l Hl; by apply plain_line_cons]);
    auto using Forall_take, Forall_drop.
  destruct (old !! i) eqn:E; [|done]. repeat constructor; by eapply (Forall_lookup_1 _ _ _ _ Ho E).
Qed.

Lemma print_chunk_plain c : printable_chunk c → Forall plain_line (print_chunk c).
Proof.
  intros (_ & Ho & Hn & Hctx). constructor.
  - destruct (change_context c) as [ctx|]; [|by apply (bool_decide_unpack _)].
    apply plain_line_marker; [by apply (bool_decide_unpack _)|auto].
  - apply Forall_app_2; [by apply print_body_plain|]. destruct (is_end_of_file c); [|done].
    repeat constructor; by apply (bool_decide_unpack _).
Qed.

Lemma print_hunk_plain h : printable_hunk h → Forall plain_line (print_hunk h).
Proof.
  destruct h as [path c|path|path mv chunks]; cbn [print_hunk printable_hunk].
  - intros (Hp & ls & -> & Hls). rewrite lines_terminated by done. constructor.
    + apply plain_line_marker; [by apply (bool_decide_unpack _)|done].
    + apply Forall_fmap. eapply Forall_impl; [done|]. intros l Hl. by apply plain_line_cons.
  - intros Hp. repeat constructor; apply plain_line_marker; done || by apply (bool_decide_unpack _).
  - intros (Hp & Hmv & _ & Hcs). constructor; [|apply Forall_app_2].
    + apply plain_line_marker; [by apply (bool_decide_unpack _)|done].
    + destruct mv as [to|]; [|done]. constructor; [|done].
      apply plain_line_marker; [by apply (bool_decide_unpack _)|auto].
    + apply Forall_concat, Forall_fmap. eapply Forall_impl; [done|]. apply print_chunk_plain.
Qed.

Lemma print_environment_plain env :
  printable_environment env → Forall plain_line (print_environment env).
Proof.
  intros Henv. destruct env as [e|]; [|done]. destruct (Henv e eq_refl) as [He _].
  constructor; [|done].
  apply (plain_line_marker (ENVIRONMENT_ID_MARKER ++ [32%N]) e); [|done].
  by apply (bool_decide_unpack _).
Qed.

(** * The parser inverts the printer *)

Definition print_lines (env : option str) (hs : list Hunk) : list str :=
  BEGIN_PATCH_MARKER :: print_environment env ++ concat (print_hunk <$> hs).

Lemma print_patch_lines env hs :
  print_patch env hs = join [LF] (print_lines env hs ++ [END_PATCH_MARKER]).
Proof. unfold print_patch, print_lines. by rewrite <- app_comm_cons, <- (assoc_L (++)). Qed.

Lemma print_lines_plain env hs :
  printable_environment env → Forall printable_hunk hs → Forall plain_line (print_lines env hs).
Proof.
  intros He Hhs. constructor; [by apply (bool_decide_unpack _)|].
  apply Forall_app_2; [by apply print_environment_plain|].
  apply Forall_concat, Forall_fmap. eapply Forall_impl; [done|]. apply print_hunk_plain.
Qed.

Lemma trim_print_patch env hs : trim (print_patch env hs) = print_patch env hs.
Proof.
  rewrite print_patch_lines. apply trim_id.
  - rewrite join_snoc. done.
  - rewrite join_snoc. by apply no_trailing_ws_app.
Qed.

Lemma parse_printed_lines env hs :
  printable_environment env → Forall printable_hunk hs →
  ∃ p', (push_delta (print_patch env hs) ;;; finish) new_parser = (p', Ok hs)
    ∧ environment_id (state p') = env.
Proof.
  intros He Hhs. destruct (printed_environment env He) as (p1 & H1 & E1 & B1 & A1).
  destruct (printed_hunks hs p1 [] A1 Hhs) as (p2 & H2 & [E2 B2] & [R2 Hh2]).
  assert (process_lines (print_lines env hs) new_parser = (p2, Ok tt)) as Hrun.
  { unfold print_lines. rewrite app_comm_cons. by rewrite (process_lines_bind _ _ _ _ H1). }
  destruct (finish_end_patch (set_line_buffer (line_buffer p2 ++ END_PATCH_MARKER) p2))
    as (p3 & H3 & E3); [by apply ready_frame|simpl; by rewrite B2, B1|].
  exists p3. split; [|rewrite E3; simpl; congruence].
  unfold se_bind, push_delta. unfold se_bind, se_get, se_ret.
  rewrite print_patch_lines, push_chars_lines by (done || by apply print_lines_plain).
  unfold se_bind. rewrite Hrun, push_chars_word by (by apply (bool_decide_unpack _)).
  rewrite H3. cbn [state set_line_buffer set_state]. by rewrite Hh2.
Qed.

(** C36: [parse_patch] inverts the documented patch format: printing any list of
    well-formed hunks (with an optional environment id) and parsing the text
    gives back exactly these hunks, the environment id and the text itself. *)
Theorem parse_print_roundtrip (env : option str) (hs : list Hunk) :
  printable_environment env → Forall printable_hunk hs →
  parse_patch (print_patch env hs) = Ok (mkArgs (print_patch env hs) hs None env).
Proof.
  intros He Hhs. unfold parse_patch, parse_patch_text. simpl.
  rewrite trim_print_patch. rewrite print_patch_lines at 1.
  rewrite lines_join by (done || (by apply print_lines_plain) || by apply (bool_decide_unpack _)).
  assert (check_patch_boundaries_lenient (print_lines env hs ++ [END_PATCH_MARKER])
    = Ok (print_lines env hs ++ [END_PATCH_MARKER])) as ->.
  { unfold check_patch_boundaries_lenient, check_patch_boundaries_strict. by rewrite last_snoc. }
  cbn [res_bind]. rewrite <- print_patch_lines.
  destruct (parse_printed_lines env hs He Hhs) as (p' & -> & ->). done.
Qed.

Definition sample_hunks : list Hunk :=
  [AddFile (lit "a.txt") (lit "one" ++ [LF] ++ lit "two" ++ [LF]);
   UpdateFile (lit "src/b.rs") (Some (lit "src/c.rs"))
     [mkChunk (Some (lit "fn main()")) [lit "x"; lit "old"] [lit "x"; lit "new"] [(0, 0)] false;
      mkChunk None [lit "gone"] [] [] true];
   DeleteFile (lit "d.txt")].

Lemma parse_print_roundtrip_witness :
  parse_patch (print_patch (Some (lit "remote")) sample_hunks)
  = Ok (mkArgs (print_patch (Some (lit "remote")) sample_hunks) sample_hunks None
          (Some (lit "remote"))).
Proof.
  apply parse_print_roundtrip.
  - intros e [= <-]. split; [by apply (bool_decide_unpack _)|done].
  - repeat apply Forall_cons_2; [| | |done].
    + split; [by apply (bool_decide_unpack _)|]. exists [lit "one"; lit "two"].
      split; [done|]. by apply (bool_decide_unpack _).
    + split; [by apply (bool_decide_unpack _)|]. split; [|split; [done|]].
      * intros p [= <-]. by apply (bool_decide_unpack _).
      * repeat apply Forall_cons_2; [| |done]; (split; [split; [|done]|]).
        -- repeat split; try lia. by exists (lit "x").
        -- split; [by apply (bool_decide_unpack _)|]. split; [by apply (bool_decide_unpack _)|].
           intros c [= <-]. by apply (bool_decide_unpack _).
        -- done.
        -- split; [by apply (bool_decide_unpack _)|]. by split; [apply (bool_decide_unpack _)|].
    + by apply (bool_decide_unpack _).
Defined.

(** Parsing a patch again: the patch text that [parse_patch] returns, which is what is
    applied later, parses to the same hunks. *)

(** * White space around a line *)
Lemma trim_split s :
  ∃ w0 w1, s = w0 ++ trim s ++ w1 ∧ Forall is_whitespace w0 ∧ Forall is_whitespace w1.
Proof.
  destruct (trim_start_matches_suffix is_whitespace s) as (w0 & H0 & Hw0).
  destruct (trim_end_matches_prefix is_whitespace (trim_start s)) as (w1 & H1 & Hw1).
  exists w0, w1. split; [|done]. rewrite H0 at 1. f_equal. exact H1.
Qed.

Lemma trim_around w0 k w1 :
  Forall is_whitespace w0 → Forall is_whitespace w1 → no_leading_ws k → no_trailing_ws k → k ≠ [] →
  trim (w0 ++ k ++ w1) = k.
Proof.
  intros H0 H1 Hl Ht Hne. unfold trim, trim_start. rewrite trim_start_matches_app by done.
  destruct k as [|c k]; [done|]. cbn [app]. rewrite trim_start_matches_id by done.
  change (c :: k ++ w1) with ((c :: k) ++ w1). by rewrite trim_end_app_ws, trim_end_id.
Qed.

Lemma trim_bounds s : no_leading_ws (trim s) ∧ no_trailing_ws (trim s).
Proof.
  split; [|apply trim_end_no_trailing_ws]. unfold trim.
  pose proof (trim_start_no_leading_ws s) as Hl. destruct (trim_start s) as [|c x]; [done|].
  simpl in Hl. by rewrite trim_end_cons.
Qed.

(** * Running the parser on lines *)

(** The parser on the lines [init] and the last line [l]. *)
Definition run_lines (init : list str) (l : str) : StreamingPatchParser * Result (list Hunk) ParseError :=
  (process_lines init ;;; push_chars l ;;; finish) new_parser.

Lemma run_join init l :
  Forall plain_line init → (push_delta (join [LF] (init ++ [l])) ;;; finish) new_parser = run_lines init l.
Proof.
  intros Hp. unfold run_lines, push_delta, se_bind, se_get, se_ret.
  rewrite (push_chars_lines init l new_parser eq_refl Hp). unfold se_bind.
  destruct (process_lines init new_parser) as [p [[]|e]]; [|done].
  by destruct (push_chars l p) as [p' [[]|e]].
Qed.

Lemma process_lines_buffer ls p p' r : process_lines ls p = (p', r) → line_buffer p' = line_buffer p.
Proof.
  revert p. induction ls as [|l ls IH]; intros p; simpl; [by intros [= <- _]|].
  unfold se_bind, se_modify. destruct (process_line l _) as [p1 [u|e]] eqn:E.
  - apply process_line_frame in E as [Hb _]. intros H%IH. by rewrite H, Hb.
  - apply process_line_frame in E as [Hb _]. by intros [= <- _].
Qed.

(** Only the trimmed first line matters. *)
Lemma process_lines_first f f' ls :
  trim f = trim f' → process_lines (f :: ls) new_parser = process_lines (f' :: ls) new_parser.
Proof. intros Ht. simpl. unfold se_bind, se_modify, process_line, se_bind, se_get. simpl. by rewrite Ht. Qed.

(** Only the trimmed last line matters, when it ends the patch. *)
Lemma finish_last l l' p :
  line_buffer p = [] → (LF ∉ l) → (LF ∉ l') → trim l = END_PATCH_MARKER → trim l' = END_PATCH_MARKER →
  (push_chars l ;;; finish) p = (push_chars l' ;;; finish) p.
Proof.
  intros Hb Hl Hl' Ht Ht'. unfold se_bind. rewrite !push_chars_word by done. rewrite Hb. cbn [app].
  assert (l ≠ []) as Hne by (by intros ->). assert (l' ≠ []) as Hne' by (by intros ->).
  unfold finish, se_bind, se_get, se_put, se_modify. simpl.
  destruct l as [|c l]; [done|]. destruct l' as [|c' l']; [done|]. cbn [is_empty].
  rewrite Ht, Ht'. by rewrite bool_decide_eq_true_2.
Qed.

Lemma run_lines_trim f f' mid l l' :
  trim f = trim f' → (LF ∉ l) → (LF ∉ l') → trim l = END_PATCH_MARKER → trim l' = END_PATCH_MARKER →
  run_lines (f :: mid) l = run_lines (f' :: mid) l'.
Proof.
  intros Hf Hl Hl' Ht Ht'. unfold run_lines. unfold se_bind at 1. symmetry. unfold se_bind at 1. symmetry.
  rewrite (process_lines_first f f') by done.
  destruct (process_lines (f' :: mid) new_parser) as [p [[]|e]] eqn:E; [|done].
  apply finish_last; try done. by apply process_lines_buffer in E.
Qed.

(** * Boundaries *)
Lemma strict_boundaries_shape ls :
  is_ok (check_patch_boundaries_strict ls) = true ↔
  ∃ f mid l, ls = f :: mid ++ [l] ∧ trim f = BEGIN_PATCH_MARKER ∧ trim l = END_PATCH_MARKER.
Proof.
  unfold check_patch_boundaries_strict, check_start_and_end_lines_strict. split.
  - intros H. assert (Hlen : 2 ≤ length ls) by by apply strict_boundaries_length.
    destruct ls as [|f ls]; [done|]. destruct ls as [|l mid _] using rev_ind; [simpl in Hlen; lia|].
    exists f, mid, l. split; [done|]. simpl in H.
    rewrite app_comm_cons, last_snoc in H. simpl in H.
    repeat case_bool_decide; simpl in H; done.
  - intros (f & mid & l & -> & Hf & Hl). simpl. rewrite app_comm_cons, last_snoc. simpl.
    rewrite Hf, Hl. by rewrite !bool_decide_eq_true_2.
Qed.

(** The lines used are lines of the text, with right boundaries. *)
Lemma boundaries_lines m ls pl :
  match m with
  | Strict => check_patch_boundaries_strict ls
  | Lenient => check_patch_boundaries_lenient ls
  end = Ok pl →
  is_ok (check_patch_boundaries_strict pl) = true ∧ (∀ x, x ∈ pl → x ∈ ls).
Proof.
  assert (Hs : ∀ ls pl, check_patch_boundaries_strict ls = Ok pl →
    pl = ls ∧ is_ok (check_patch_boundaries_strict pl) = true).
  { clear. intros ls pl H. assert (is_ok (check_patch_boundaries_strict ls) = true) as Hok by by rewrite H.
    rewrite strict_boundaries_ok in H by done. by simplify_eq. }
  destruct m.
  - intros [-> H]%Hs. done.
  - unfold check_patch_boundaries_lenient. destruct (check_patch_boundaries_strict ls) eqn:E.
    + intros [= <-]. by apply Hs in E as [-> ?].
    + destruct (head ls), (last ls); try done. case_goal; [|done].
      intros [-> H]%Hs. split; [done|]. intros x Hx.
      apply elem_of_take in Hx as (i & Hi & _). rewrite lookup_drop in Hi.
      by eapply list_elem_of_lookup_2.
Qed.

Lemma join_bounds f mid l :
  join [LF] (f :: mid ++ [l]) = f ++ LF :: concat ((λ x, x ++ [LF]) <$> mid) ++ l.
Proof.
  rewrite app_comm_cons, join_snoc, fmap_cons. cbn [concat]. by rewrite <- !(assoc_L (++)).
Qed.

Lemma plain_line_suffix w l : l ≠ [] → plain_line (w ++ l) → plain_line l.
Proof.
  intros Hne [Hlf Hcr]. split; [set_solver|]. rewrite last_app in Hcr.
  destruct (last l) eqn:E; [done|]. by apply last_None in E.
Qed.

(** Trimming a text with right boundaries trims its first and its last line. *)
Lemma trim_join f mid l :
  trim f = BEGIN_PATCH_MARKER → trim l = END_PATCH_MARKER → plain_line f → (LF ∉ l) →
  ∃ f' l', trim (join [LF] (f :: mid ++ [l])) = join [LF] (f' :: mid ++ [l'])
    ∧ trim f' = BEGIN_PATCH_MARKER ∧ trim l' = END_PATCH_MARKER ∧ plain_line f' ∧ (LF ∉ l').
Proof.
  intros Hf Hl Hpf Hll.
  destruct (trim_split f) as (a0 & a1 & Ha & Ha0 & Ha1). rewrite Hf in Ha.
  destruct (trim_split l) as (b0 & b1 & Hb & Hb0 & Hb1). rewrite Hl in Hb.
  exists (BEGIN_PATCH_MARKER ++ a1), (b0 ++ END_PATCH_MARKER). split; [|split_and!].
  - rewrite !join_bounds, Ha, Hb.
    set (M := concat _).
    replace ((a0 ++ BEGIN_PATCH_MARKER ++ a1) ++ LF :: M ++ b0 ++ END_PATCH_MARKER ++ b1)
      with (a0 ++ ((BEGIN_PATCH_MARKER ++ a1) ++ LF :: M ++ b0 ++ END_PATCH_MARKER) ++ b1).
    + apply trim_around; try done. change (LF :: M ++ b0 ++ END_PATCH_MARKER) with
        ([LF] ++ M ++ b0 ++ END_PATCH_MARKER). rewrite !(assoc_L (++)). by apply no_trailing_ws_app.
    + rewrite <- !(assoc_L (++)). simpl. by rewrite <- !(assoc_L (++)).
  - apply (trim_around [] BEGIN_PATCH_MARKER a1); done.
  - pose proof (trim_around b0 END_PATCH_MARKER [] Hb0) as Ht. rewrite app_nil_r in Ht. by apply Ht.
  - rewrite Ha in Hpf. by apply plain_line_suffix in Hpf.
  - rewrite Hb in Hll. set_solver.
Qed.

Lemma lines_free s l : l ∈ lines s → LF ∉ l.
Proof.
  unfold lines. pose proof (split_char_Forall LF s) as Hf. revert l.
  assert (Hg : Forall (λ l, LF ∉ l) (lines_of_segments (split_char LF s))).
  { revert Hf. generalize (split_char LF s). intros segs. induction segs as [|x segs IH]; [done|].
    intros [Hx Hs]%Forall_cons. simpl. destruct segs as [|y segs].
    - destruct x; [done|]. by constructor.
    - constructor; [|by apply IH]. intros Hin. apply Hx. unfold strip_cr in Hin.
      destruct (strip_suffix x [CR]) as [r|] eqn:E; [|done]. apply strip_suffix_Some in E as ->.
      apply elem_of_app. by left. }
  rewrite Forall_forall in Hg. exact Hg.
Qed.

(** The text kept by the parser parses to the same hunks, in either mode, when no line
    of it ends in a carriage return. *)
Lemma parse_patch_text_again patch m m' a :
  parse_patch_text patch m = Ok a → Forall plain_line (split_char LF (args_patch a)) →
  ∃ a', parse_patch_text (args_patch a) m' = Ok a' ∧ args_hunks a' = args_hunks a.
Proof.
  unfold parse_patch_text at 1. intros Hp Hplain.
  destruct (match m with Strict => _ | Lenient => _ end) as [pl|] eqn:Eb; [|done]. cbn [res_bind] in Hp.
  apply boundaries_lines in Eb as [Hok Hsub].
  apply strict_boundaries_shape in Hok as (f & mid & l & -> & Hf & Hl).
  assert (Hpl : Forall plain_line (f :: mid ++ [l])).
  { assert (args_patch a = join [LF] (f :: mid ++ [l])) as Ha.
    { destruct ((push_delta _ ;;; finish) new_parser) as [q [hs|e]]; [|done]. by inversion Hp. }
    rewrite Ha, split_char_join in Hplain; [done|done|].
    apply Forall_forall. intros x Hx. by eapply lines_free, Hsub. }
  rewrite app_comm_cons in Hpl. apply Forall_app in Hpl as [Hfm Hll].
  apply Forall_cons in Hfm as [Hpf Hmid]. apply Forall_cons in Hll as [[Hlf _] _].
  destruct (trim_join f mid l Hf Hl Hpf Hlf) as (f' & l' & Ht & Hf' & Hl' & Hpf' & Hlf').
  rewrite app_comm_cons in Hp. rewrite run_join in Hp by (by constructor).
  destruct (run_lines (f :: mid) l) as [q [hs|e]] eqn:Er; [|done]. assert (a = mkArgs (join [LF] (f :: mid ++ [l])) hs None (environment_id (state q))) as -> by by inversion Hp.
  cbn [args_patch args_hunks]. clear Hp.
  unfold parse_patch_text. rewrite Ht, app_comm_cons.
  rewrite lines_join; [|by constructor|done|by intros ->].
  assert (Hok' : check_patch_boundaries_strict ((f' :: mid) ++ [l']) = Ok ((f' :: mid) ++ [l'])).
  { apply strict_boundaries_ok, strict_boundaries_shape. by exists f', mid, l'. }
  assert ((match m' with
    | Strict => check_patch_boundaries_strict ((f' :: mid) ++ [l'])
    | Lenient => check_patch_boundaries_lenient ((f' :: mid) ++ [l']) end) = Ok ((f' :: mid) ++ [l'])) as ->.
  { destruct m'; [done|]. unfold check_patch_boundaries_lenient. by rewrite Hok'. }
  cbn [res_bind]. rewrite run_join by (by constructor).
  rewrite <- (run_lines_trim f f' mid l l'), Er by (done || congruence). by eexists.
Qed.
