(* ===== verification/SeekSequence.v ===== *)
(** [seek_sequence.rs]: locating a block of lines in a file with decreasing
    strictness. *)
From stdpp Require Import base list sets numbers strings sorting.
From S2P Require Import Prelude RustStr.

(** [ApplyPatchFileUpdateMode] of [lib.rs]. *)
Inductive ApplyPatchFileUpdateMode : Type := NormalizeToLf | PreserveLineEndings.

#[export] Instance ApplyPatchFileUpdateMode_eq_dec : EqDecision ApplyPatchFileUpdateMode.
Proof. solve_decision. Defined.

(** [normalise]: typographic punctuation and spaces become ASCII. *)
Definition normalise_char (c : char) : char :=
  if (((8208 <=? c)%N && (c <=? 8213)%N) || (c =? 8722)%N) then 45%N
  else if ((8216 <=? c)%N && (c <=? 8219)%N) then 39%N
  else if ((8220 <=? c)%N && (c <=? 8223)%N) then 34%N
  else if ((c =? 160)%N || ((8194 <=? c)%N && (c <=? 8202)%N) || (c =? 8239)%N || (c =? 8287)%N
           || (c =? 12288)%N) then 32%N
  else c.

Definition normalise (s : str) : str := normalise_char <$> trim s.

(** The comparison loop of one pass at position [i]: [lines[i + p_idx]] against
    each pattern line; an index out of range would panic and is [false] here
    (never reached, see [pass_at_slice]). *)
Fixpoint pass_at (f : str → str) (ls pattern : list str) (i : nat) : bool :=
  match pattern with
  | [] => true
  | p :: pattern =>
      match ls !! i with
      | Some l => if bool_decide (f l = f p) then pass_at f ls pattern (S i) else false
      | None => false
      end
  end.

(** The first pass compares slices. *)
Definition exact_at (ls pattern : list str) (i : nat) : bool :=
  bool_decide (take (length pattern) (drop i ls) = pattern).

(** [for i in lo..=hi { if test(i) { return Some(i) } }]. *)
Definition find_in_range (test : nat → bool) (lo hi : nat) : option nat :=
  List.find test (seq lo (S hi - lo)).

Definition search_start (ls pattern : list str) (start : nat) (eof : bool)
    (m : ApplyPatchFileUpdateMode) : nat :=
  if eof && (length pattern <=? length ls) then
    let eof_start := length ls - length pattern in
    match m with
    | NormalizeToLf => eof_start
    | PreserveLineEndings => eof_start `max` start
    end
  else start.

(** [a.or_else(b)]. *)
Definition or_else {A} (a b : option A) : option A :=
  match a with
  | Some x => Some x
  | None => b
  end.

Definition seek_sequence (ls pattern : list str) (start : nat) (eof : bool)
    (m : ApplyPatchFileUpdateMode) : option nat :=
  if is_empty pattern then Some start
  else if length ls <? length pattern then None
  else
    let lo := search_start ls pattern start eof m in
    let hi := length ls - length pattern in
    or_else (find_in_range (exact_at ls pattern) lo hi)
    (or_else (find_in_range (pass_at trim_end ls pattern) lo hi)
    (or_else (find_in_range (pass_at trim ls pattern) lo hi)
             (find_in_range (pass_at normalise ls pattern) lo hi))).

(** * Specification *)

(** The four levels of strictness. *)
Definition seek_level (k : nat) : str → str :=
  match k with
  | 0 => id
  | 1 => trim_end
  | 2 => trim
  | _ => normalise
  end.

(** The block of [length pattern] lines at [i] equals the pattern at level [k]. *)
Definition matches_at (k : nat) (ls pattern : list str) (i : nat) : Prop :=
  i + length pattern ≤ length ls ∧
  seek_level k <$> take (length pattern) (drop i ls) = seek_level k <$> pattern.

(** The best match at or after [lo]: the strictest level that has one, and the
    first position at that level. *)
Definition best_match (ls pattern : list str) (lo : nat) (r : option nat) : Prop :=
  match r with
  | Some i =>
      ∃ k, k < 4 ∧ lo ≤ i ∧ matches_at k ls pattern i
        ∧ (∀ j, lo ≤ j → matches_at k ls pattern j → i ≤ j)
        ∧ (∀ k' j, k' < k → lo ≤ j → ¬ matches_at k' ls pattern j)
  | None => ∀ k j, lo ≤ j → ¬ matches_at k ls pattern j
  end.

(** * Lemmas *)

Lemma pass_at_slice f ls pattern i :
  i + length pattern ≤ length ls →
  pass_at f ls pattern i = true ↔ f <$> take (length pattern) (drop i ls) = f <$> pattern.
Proof.
  revert i. induction pattern as [|p pattern IH]; intros i Hlen; simpl; [done|].
  simpl in Hlen. destruct (lookup_lt_is_Some_2 ls i) as [l Hl]; [lia|].
  rewrite Hl, (drop_S _ _ _ Hl). simpl. case_bool_decide as Hf.
  - rewrite IH by lia. rewrite Hf. split; [intros H; f_equal; exact H|by intros [= ?]].
  - split; [done|]. by intros [= ? ?].
Qed.

Lemma exact_at_slice ls pattern i :
  i + length pattern ≤ length ls →
  exact_at ls pattern i = true ↔ id <$> take (length pattern) (drop i ls) = id <$> pattern.
Proof. intros _. unfold exact_at. rewrite bool_decide_eq_true, !list_fmap_id. done. Qed.

Lemma find_in_range_spec test lo hi :
  match find_in_range test lo hi with
  | Some i => lo ≤ i ≤ hi ∧ test i = true ∧ ∀ j, lo ≤ j < i → test j = false
  | None => ∀ j, lo ≤ j ≤ hi → test j = false
  end.
Proof.
  unfold find_in_range. remember (S hi - lo) as n eqn:Hn. revert lo Hn.
  induction n as [|n IH]; intros lo Hn; simpl; [intros j; lia|].
  destruct (test lo) eqn:E; [split; [lia|split; [done|intros j; lia]]|].
  specialize (IH (S lo)). destruct (List.find test (seq (S lo) n)) as [i|].
  - destruct IH as (Hi & Ht & Hj); [lia|]. split; [lia|]. split; [done|]. intros j ?.
    destruct (decide (j = lo)) as [->|]; [done|]. apply Hj. lia.
  - intros j ?. destruct (decide (j = lo)) as [->|]; [done|]. apply IH; lia.
Qed.

(** One pass of the search, as a statement about [matches_at]. *)
Lemma find_level_spec test k ls pattern lo :
  (∀ i, i + length pattern ≤ length ls →
    test i = true ↔ seek_level k <$> take (length pattern) (drop i ls) = seek_level k <$> pattern) →
  length pattern ≤ length ls →
  match find_in_range test lo (length ls - length pattern) with
  | Some i => lo ≤ i ∧ matches_at k ls pattern i
      ∧ ∀ j, lo ≤ j → matches_at k ls pattern j → i ≤ j
  | None => ∀ j, lo ≤ j → ¬ matches_at k ls pattern j
  end.
Proof.
  intros Ht Hlen. pose proof (find_in_range_spec test lo (length ls - length pattern)) as H.
  destruct (find_in_range _ _ _) as [i|].
  - destruct H as (Hi & Hti & Hj). split; [lia|]. split.
    + split; [lia|]. apply Ht; [lia|done].
    + intros j Hlo [Hjl Hm]. destruct (decide (i ≤ j)); [done|].
      apply Ht in Hm; [|done]. rewrite Hj in Hm; [done|lia].
  - intros j Hlo [Hjl Hm]. apply Ht in Hm; [|done]. rewrite H in Hm; [done|lia].
Qed.

Lemma seek_sequence_best ls pattern start eof m :
  pattern ≠ [] →
  best_match ls pattern (search_start ls pattern start eof m)
    (seek_sequence ls pattern start eof m).
Proof.
  intros Hne. unfold seek_sequence. destruct (is_empty pattern) eqn:He; [by destruct pattern|].
  destruct (length ls <? length pattern) eqn:Hlen; bool_props.
  { intros k j _ [Hj _]. lia. }
  set (lo := search_start _ _ _ _ _).
  pose proof (find_level_spec _ 0 ls pattern lo (exact_at_slice ls pattern) Hlen) as H0.
  pose proof (find_level_spec _ 1 ls pattern lo (pass_at_slice trim_end ls pattern) Hlen) as H1.
  pose proof (find_level_spec _ 2 ls pattern lo (pass_at_slice trim ls pattern) Hlen) as H2.
  pose proof (find_level_spec _ 3 ls pattern lo (pass_at_slice normalise ls pattern) Hlen) as H3.
  destruct (find_in_range (exact_at ls pattern) _ _) as [i|]; simpl.
  { exists 0. destruct H0 as (? & ? & ?). split; [lia|]. do 3 (split; [done|]). intros; lia. }
  destruct (find_in_range (pass_at trim_end _ _) _ _) as [i|]; simpl.
  { exists 1. destruct H1 as (? & ? & ?). split; [lia|]. do 3 (split; [done|]).
    intros [|k'] j ?; [apply H0|lia]. }
  destruct (find_in_range (pass_at trim _ _) _ _) as [i|]; simpl.
  { exists 2. destruct H2 as (? & ? & ?). split; [lia|]. do 3 (split; [done|]).
    intros [|[|k']] j ?; [apply H0|apply H1|lia]. }
  destruct (find_in_range (pass_at normalise _ _) _ _) as [i|]; simpl.
  { exists 3. destruct H3 as (? & ? & ?). split; [lia|]. do 3 (split; [done|]).
    intros [|[|[|k']]] j ?; [apply H0|apply H1|apply H2|lia]. }
  intros [|[|[|k]]]; [apply H0|apply H1|apply H2|apply H3].
Qed.

(** A match lies inside the file, and after [start] whenever the search does
    not jump to the end of the file. *)
Lemma seek_sequence_bounds ls pattern start eof m i :
  start ≤ length ls → seek_sequence ls pattern start eof m = Some i →
  i + length pattern ≤ length ls ∧ (eof = false ∨ m = PreserveLineEndings → start ≤ i).
Proof.
  intros Hs H. destruct (decide (pattern = [])) as [->|Hne].
  { unfold seek_sequence in H. simpl in *. injection H as <-. split; [lia|done]. }
  pose proof (seek_sequence_best ls pattern start eof m Hne) as Hb.
  rewrite H in Hb. destruct Hb as (k & _ & Hlo & [Hlen _] & _).
  split; [done|]. unfold search_start in Hlo. destruct eof; simpl in Hlo; [|lia].
  intros [?| ->]; [done|]. destruct (_ <=? _) in Hlo; lia.
Qed.

(** Each level is weaker than the one before. *)
Lemma trim_end_app_nonempty w t : trim_end t ≠ [] → trim_end (w ++ t) = w ++ trim_end t.
Proof.
  intros Ht. unfold trim_end, trim_end_matches in *. rewrite reverse_app.
  destruct (trim_start_matches_suffix is_whitespace (reverse t)) as (v & Hv & Hf).
  rewrite Hv at 1. rewrite <- (assoc_L (++)), trim_start_matches_app by done.
  pose proof (trim_start_no_leading_ws (reverse t)) as Hn. unfold trim_start in Hn.
  destruct (trim_start_matches is_whitespace (reverse t)) as [|c r] eqn:E; [done|].
  simpl. simpl in Hn. rewrite Hn.
  change (c :: r ++ reverse w) with ((c :: r) ++ reverse w).
  by rewrite reverse_app, reverse_involutive.
Qed.

Lemma trim_end_all_ws w : Forall is_whitespace w → trim_end w = [].
Proof.
  intros Hw. unfold trim_end, trim_end_matches.
  rewrite <- (app_nil_r (reverse w)), trim_start_matches_app by (by apply Forall_reverse). done.
Qed.

Lemma trim_alt s : trim s = trim_start (trim_end s).
Proof.
  unfold trim. destruct (trim_start_matches_suffix is_whitespace s) as (w & Hw & Hf).
  fold (trim_start s) in Hw. pose proof (trim_start_no_leading_ws s) as Hn.
  destruct (trim_start s) as [|c t] eqn:E.
  - rewrite app_nil_r in Hw. subst w. by rewrite (trim_end_all_ws s).
  - simpl in Hn. rewrite Hw, (trim_end_app_nonempty w) by (by rewrite trim_end_cons).
    rewrite trim_end_cons by done. unfold trim_start. rewrite trim_start_matches_app by done.
    by rewrite trim_start_matches_id.
Qed.

Lemma seek_level_weaker k s t :
  seek_level k s = seek_level k t → seek_level (S k) s = seek_level (S k) t.
Proof.
  destruct k as [|[|[|k]]]; simpl; unfold id.
  - by intros ->.
  - intros H. by rewrite !trim_alt, H.
  - unfold normalise. by intros ->.
  - done.
Qed.

Lemma matches_at_weaker k ls pattern i :
  matches_at k ls pattern i → matches_at (S k) ls pattern i.
Proof.
  intros [Hlen H]. split; [done|]. revert H.
  generalize (take (length pattern) (drop i ls)). clear Hlen.
  induction pattern as [|p pattern IH]; intros [|l l'] H; try done.
  rewrite !fmap_cons in *. injection H as H1 H2.
  f_equal; [by apply seek_level_weaker|by apply IH].
Qed.

Lemma matches_at_level k n ls pattern i :
  k ≤ n → matches_at k ls pattern i → matches_at n ls pattern i.
Proof. induction 1; auto using matches_at_weaker. Qed.

(** * The claims *)

(** [seek_sequence] finds the best match: for a non-empty pattern it
    returns, among the positions from the search start on whose block equals the
    pattern, the first one at the strictest level (exact, then trailing white
    space ignored, then surrounding white space ignored, then Unicode
    punctuation folded) that has any; it fails exactly when no position matches
    at the most permissive level. *)
Theorem seek_sequence_best_match (ls pattern : list str) (start : nat) (eof : bool)
    (m : ApplyPatchFileUpdateMode) :
  pattern ≠ [] →
  best_match ls pattern (search_start ls pattern start eof m)
    (seek_sequence ls pattern start eof m) ∧
  (seek_sequence ls pattern start eof m = None ↔
    ∀ j, search_start ls pattern start eof m ≤ j → ¬ matches_at 3 ls pattern j).
Proof.
  intros Hne. pose proof (seek_sequence_best ls pattern start eof m Hne) as Hb.
  split; [done|]. destruct (seek_sequence _ _ _ _ _) as [i|]; [|split; [intros _; apply Hb|done]].
  destruct Hb as (k & Hk & Hlo & Hm & _). split; [done|]. intros Hno. exfalso.
  apply (Hno i Hlo), (matches_at_level k); [lia|done].
Qed.

Lemma seek_sequence_best_match_witness :
  best_match [lit "a"; lit "b  "; lit "b"] [lit "b"] 0 (Some 2).
Proof.
  apply (seek_sequence_best_match [lit "a"; lit "b  "; lit "b"] [lit "b"] 0 false NormalizeToLf).
  done.
Defined.
