(* ===== verification/FileUpdate.v ===== *)
(** [file_update.rs] and [text_file.rs]: computing the new contents of an
    updated file from the chunks of a patch. An operation that can panic (an
    unsigned subtraction, a slice or an index out of range) returns [option],
    with [None] for the panic. *)
From stdpp Require Import base list sets numbers strings sorting.
From S2P Require Import Prelude RustStr PatchParser SeekSequence.

(** [(start_index, old_len, new_lines)]. *)
Abbreviation Replacement := (nat * nat * list str)%type.

Definition rep_start (r : Replacement) : nat := r.1.1.
Definition rep_old_len (r : Replacement) : nat := r.1.2.
Definition rep_new (r : Replacement) : list str := r.2.
Definition rep_end (r : Replacement) : nat := rep_start r + rep_old_len r.

(** * [compute_replacements] *)

(** [slice[lo..hi]]: panics unless [lo <= hi <= len]. *)
Definition slice {A} (l : list A) (lo hi : nat) : option (list A) :=
  if (lo <=? hi) && (hi <=? length l) then Some (take (hi - lo) (drop lo l)) else None.

(** [a - b] on [usize]. *)
Definition usize_sub (a b : nat) : option nat := if b <=? a then Some (a - b) else None.

(** The context-line loop of the [PreserveLineEndings] arm: the replacements of
    the changed runs between context lines. *)
Fixpoint context_replacements (pattern new_slice : list str) (start_idx old_start new_start : nat)
    (idx : list (nat * nat)) : option (list Replacement) :=
  let rest :=
    if negb (old_start =? length pattern) || negb (new_start =? length new_slice) then
      old_len ← usize_sub (length pattern) old_start;
      new ← slice new_slice new_start (length new_slice);
      Some [(start_idx + old_start, old_len, new)]
    else Some [] in
  match idx with
  | [] => rest
  | (old_context, new_context) :: idx =>
      if (length pattern <=? old_context) || (length new_slice <=? new_context) then rest
      else
        here ←
          (if negb (old_start =? old_context) || negb (new_start =? new_context) then
             old_len ← usize_sub old_context old_start;
             new ← slice new_slice new_start new_context;
             Some [(start_idx + old_start, old_len, new)]
           else Some []);
        more ← context_replacements pattern new_slice start_idx
                 (S old_context) (S new_context) idx;
        Some (here ++ more)
  end.

Definition insertion_index (ls : list str) (m : ApplyPatchFileUpdateMode) : nat :=
  match m with
  | NormalizeToLf => if last_is is_empty ls then length ls - 1 else length ls
  | PreserveLineEndings => length ls
  end.

(** [Vec::pop] through a slice: the elements but the last. *)
Definition init {A} (l : list A) : list A := take (length l - 1) l.

(** Where a chunk's old lines are: the position, the pattern that matched and
    the new lines that go with it. A trailing empty line that stands for the
    final newline is dropped when the first search fails. *)
Definition locate_chunk (ls : list str) (line_index : nat) (chunk : UpdateFileChunk)
    (m : ApplyPatchFileUpdateMode) : option (nat * list str * list str) :=
  let pattern := old_lines chunk in
  let new_slice := new_lines chunk in
  match seek_sequence ls pattern line_index (is_end_of_file chunk) m with
  | Some i => Some (i, pattern, new_slice)
  | None =>
      if last_is is_empty pattern then
        let pattern := init pattern in
        let new_slice := if last_is is_empty new_slice then init new_slice else new_slice in
        match seek_sequence ls pattern line_index (is_end_of_file chunk) m with
        | Some i => Some (i, pattern, new_slice)
        | None => None
        end
      else None
  end.

(** The two messages of [ApplyPatchError::ComputeReplacements]. *)
Definition context_not_found (ctx path : str) : str :=
  lit "Failed to find context '" ++ ctx ++ lit "' in " ++ path.
Definition lines_not_found (path : str) (old : list str) : str :=
  lit "Failed to find expected lines in " ++ path ++ lit ":" ++ [LF] ++ join [LF] old.

(** The new [line_index] after seeking the chunk's [change_context]. *)
Definition seek_context (ls : list str) (path : str) (line_index : nat) (chunk : UpdateFileChunk)
    (m : ApplyPatchFileUpdateMode) : Result nat str :=
  match change_context chunk with
  | Some ctx =>
      match seek_sequence ls [ctx] line_index false m with
      | Some idx => Ok (S idx)
      | None => Err (context_not_found ctx path)
      end
  | None => Ok line_index
  end.

(** One iteration of [for chunk in chunks]: the replacements it pushes and the
    next [line_index]. *)
Definition chunk_replacements (ls : list str) (path : str) (line_index : nat)
    (chunk : UpdateFileChunk) (m : ApplyPatchFileUpdateMode)
    : option (Result (list Replacement * nat) str) :=
  match seek_context ls path line_index chunk m with
  | Err e => Some (Err e)
  | Ok line_index =>
      if is_empty (old_lines chunk) then
        Some (Ok ([(insertion_index ls m, 0, new_lines chunk)], line_index))
      else
        match locate_chunk ls line_index chunk m with
        | None => Some (Err (lines_not_found path (old_lines chunk)))
        | Some (start_idx, pattern, new_slice) =>
            reps ←
              match m with
              | NormalizeToLf => Some [(start_idx, length pattern, new_slice)]
              | PreserveLineEndings =>
                  context_replacements pattern new_slice start_idx 0 0
                    (context_line_indices chunk)
              end;
            Some (Ok (reps, start_idx + length pattern))
        end
  end.

Fixpoint collect_replacements (ls : list str) (path : str) (line_index : nat)
    (chunks : list UpdateFileChunk) (m : ApplyPatchFileUpdateMode)
    : option (Result (list Replacement) str) :=
  match chunks with
  | [] => Some (Ok [])
  | chunk :: chunks =>
      r ← chunk_replacements ls path line_index chunk m;
      match r with
      | Err e => Some (Err e)
      | Ok (reps, line_index) =>
          r ← collect_replacements ls path line_index chunks m;
          Some (let? more := r in Ok (reps ++ more))
      end
  end.

(** [sort_by_key(|(index, _, _)| *index)], a stable sort. *)
Fixpoint insert_by_start (r : Replacement) (l : list Replacement) : list Replacement :=
  match l with
  | [] => [r]
  | x :: l => if rep_start r <=? rep_start x then r :: x :: l else x :: insert_by_start r l
  end.
Definition sort_by_start (l : list Replacement) : list Replacement := foldr insert_by_start [] l.

Definition compute_replacements (ls : list str) (path : str) (chunks : list UpdateFileChunk)
    (m : ApplyPatchFileUpdateMode) : option (Result (list Replacement) str) :=
  r ← collect_replacements ls path 0 chunks m;
  Some (let? reps := r in Ok (sort_by_start reps)).

(** * [apply_replacements] on lines *)

(** [for _ in 0..n { if i < lines.len() { lines.remove(i); } }]. *)
Fixpoint remove_n {A} (n i : nat) (l : list A) : list A :=
  match n with
  | 0 => l
  | S n => remove_n n i (if i <? length l then take i l ++ drop (S i) l else l)
  end.

Fixpoint insert_all {A} (i : nat) (xs l : list A) : option (list A) :=
  match xs with
  | [] => Some l
  | x :: xs => l ← vec_insert i x l; insert_all (S i) xs l
  end.

Fixpoint apply_in_order (ls : list str) (reps : list Replacement) : option (list str) :=
  match reps with
  | [] => Some ls
  | r :: reps =>
      ls ← insert_all (rep_start r) (rep_new r) (remove_n (rep_old_len r) (rep_start r) ls);
      apply_in_order ls reps
  end.

Definition apply_replacements (ls : list str) (reps : list Replacement) : option (list str) :=
  apply_in_order ls (reverse reps).

(** * [SourceFile]: [text_file.rs] *)
Inductive LineEnding : Type := Lf | CrLf | Cr.

Definition ending_str (e : LineEnding) : str :=
  match e with
  | Lf => [LF]
  | CrLf => [CR; LF]
  | Cr => [CR]
  end.

Record SourceLine : Type := mkLine {
  text : str;
  ending : option LineEnding;
}.

Record SourceFile : Type := mkSourceFile {
  source_lines : list SourceLine;
  preferred_ending : LineEnding;
}.

(** The scanning loop of [SourceFile::parse]; [acc] is the text between
    [line_start] and [cursor]. *)
Fixpoint parse_source_lines (acc s : str) : list SourceLine :=
  match s with
  | [] => if is_empty acc then [] else [mkLine acc None]
  | c :: s =>
      if (c =? CR)%N then
        match s with
        | d :: s' =>
            if (d =? LF)%N then mkLine acc (Some CrLf) :: parse_source_lines [] s'
            else mkLine acc (Some Cr) :: parse_source_lines [] s
        | [] => mkLine acc (Some Cr) :: parse_source_lines [] s
        end
      else if (c =? LF)%N then mkLine acc (Some Lf) :: parse_source_lines [] s
      else parse_source_lines (acc ++ [c]) s
  end.

Definition parse_source_file (contents : str) : SourceFile :=
  let ls := parse_source_lines [] contents in
  mkSourceFile ls (default Lf (head (omap ending ls))).

Definition line_texts (f : SourceFile) : list str := text <$> source_lines f.

(** The loop over the replacements; [rest] is what the [source_lines] iterator
    still holds. A replacement that starts before [source_index] underflows. *)
Fixpoint replace_source_lines (e : LineEnding) (rest : list SourceLine) (source_index : nat)
    (reps : list Replacement) : option (list SourceLine) :=
  match reps with
  | [] => Some rest
  | r :: reps =>
      n ← usize_sub (rep_start r) source_index;
      tail ← replace_source_lines e (drop (rep_old_len r) (drop n rest)) (rep_end r) reps;
      Some (take n rest ++ ((λ t, mkLine t (Some e)) <$> rep_new r) ++ tail)
  end.

Definition fill_ending (e : LineEnding) (l : SourceLine) : SourceLine :=
  mkLine (text l) (Some (default e (ending l))).

Definition source_apply_replacements (f : SourceFile) (reps : list Replacement)
    : option SourceFile :=
  ls ← replace_source_lines (preferred_ending f) (source_lines f) 0 reps;
  Some (mkSourceFile (fill_ending (preferred_ending f) <$> ls) (preferred_ending f)).

Definition line_contents (l : SourceLine) : str :=
  text l ++ match ending l with Some e => ending_str e | None => [] end.

Definition into_contents (f : SourceFile) : str := concat (line_contents <$> source_lines f).

(** * [derive_new_contents_from_chunks], once the file has been read *)
Definition original_lines_lf (contents : str) : list str :=
  let ls := split_char LF contents in
  if last_is is_empty ls then init ls else ls.

Definition contents_of_lines_lf (ls : list str) : str :=
  join [LF] (if last_is is_empty ls then ls else ls ++ [[]]).

Definition derive_new_contents (path contents : str) (chunks : list UpdateFileChunk)
    (m : ApplyPatchFileUpdateMode) : option (Result str str) :=
  match m with
  | NormalizeToLf =>
      let ls := original_lines_lf contents in
      r ← compute_replacements ls path chunks m;
      match r with
      | Err e => Some (Err e)
      | Ok reps => ls ← apply_replacements ls reps; Some (Ok (contents_of_lines_lf ls))
      end
  | PreserveLineEndings =>
      let f := parse_source_file contents in
      r ← compute_replacements (line_texts f) path chunks m;
      match r with
      | Err e => Some (Err e)
      | Ok reps => f ← source_apply_replacements f reps; Some (Ok (into_contents f))
      end
  end.
