(* ===== verification/FileUpdateFacts.v ===== *)
(** Theory of the file updater: replacements computed from a parsed patch are
    ordered and in range, so neither mode panics; both application routines
    implement the same reference splice; parsing a source file loses nothing. *)
From stdpp Require Import base list sets numbers strings sorting.
From S2P Require Import Prelude RustStr PatchParser PatchParserFacts SeekSequence FileUpdate.

(** * Ordered replacements and the reference splice *)

(** Replacements in source order, without overlap, inside [lo..hi]. *)
Fixpoint reps_ordered (lo hi : nat) (reps : list Replacement) : Prop :=
  match reps with
  | [] => lo ≤ hi
  | r :: reps => lo ≤ rep_start r ∧ reps_ordered (rep_end r) hi reps
  end.

(** What applying ordered replacements means: [l] is the input from position
    [i] on. *)
Fixpoint splice {A} (f : str → A) (i : nat) (l : list A) (reps : list Replacement) : list A :=
  match reps with
  | [] => l
  | r :: reps =>
      take (rep_start r - i) l ++ (f <$> rep_new r)
      ++ splice f (rep_end r) (drop (rep_end r - i) l) reps
  end.

Lemma reps_ordered_le lo hi reps : reps_ordered lo hi reps → lo ≤ hi.
Proof.
  revert lo. induction reps as [|r reps IH]; intros lo; simpl; [done|].
  intros [Hlo H]. apply IH in H. unfold rep_end in H. lia.
Qed.

Lemma reps_ordered_weaken lo lo' hi hi' reps :
  lo' ≤ lo → hi ≤ hi' → reps_ordered lo hi reps → reps_ordered lo' hi' reps.
Proof.
  revert lo lo'. induction reps as [|r reps IH]; intros lo lo' Hl Hh; simpl; [lia|].
  intros [? H]. split; [lia|]. by apply (IH (rep_end r)).
Qed.

Lemma reps_ordered_app lo mid hi a b :
  reps_ordered lo mid a → reps_ordered mid hi b → reps_ordered lo hi (a ++ b).
Proof.
  revert lo. induction a as [|r a IH]; intros lo; simpl.
  - intros. by eapply reps_ordered_weaken.
  - intros [? Ha] Hb. split; [done|]. by apply IH.
Qed.

Lemma reps_ordered_Forall lo hi reps :
  reps_ordered lo hi reps → Forall (λ r, lo ≤ rep_start r ∧ rep_end r ≤ hi) reps.
Proof.
  revert lo. induction reps as [|r reps IH]; intros lo; simpl; [done|]. intros [Hlo H].
  pose proof (reps_ordered_le _ _ _ H). constructor; [done|].
  apply IH in H. eapply Forall_impl; [done|]. unfold rep_end. simpl. intros x. lia.
Qed.

(** * Context replacements *)

Fixpoint indices_increasing (o n : nat) (idx : list (nat * nat)) : Prop :=
  match idx with
  | [] => True
  | (i, j) :: idx => o ≤ i ∧ n ≤ j ∧ indices_increasing (S i) (S j) idx
  end.

Lemma context_indices_increasing old new o n idx :
  context_indices_ok old new o n idx → indices_increasing o n idx.
Proof.
  revert o n. induction idx as [|[i j] idx IH]; intros o n; simpl; [done|].
  intros (? & ? & _ & ?). eauto.
Qed.

Lemma usize_sub_Some a b : b ≤ a → usize_sub a b = Some (a - b).
Proof. intros H. unfold usize_sub. by rewrite (proj2 (Nat.leb_le _ _) H). Qed.

Lemma slice_Some {A} (l : list A) lo hi :
  lo ≤ hi → hi ≤ length l → slice l lo hi = Some (take (hi - lo) (drop lo l)).
Proof.
  intros H1 H2. unfold slice.
  by rewrite (proj2 (Nat.leb_le _ _) H1), (proj2 (Nat.leb_le _ _) H2).
Qed.

Lemma context_replacements_ordered pattern new_slice s o n idx :
  o ≤ length pattern → n ≤ length new_slice → indices_increasing o n idx →
  ∃ reps, context_replacements pattern new_slice s o n idx = Some reps
    ∧ reps_ordered (s + o) (s + length pattern) reps.
Proof.
  revert o n. induction idx as [|[i j] idx IH]; intros o n Ho Hn Hi; simpl.
  - rewrite usize_sub_Some, slice_Some by lia.
    destruct (_ || _); eexists; (split; [done|]); simpl; unfold rep_end, rep_start, rep_old_len; simpl; lia.
  - destruct ((length pattern <=? i) || (length new_slice <=? j)) eqn:Hout.
    + rewrite usize_sub_Some, slice_Some by lia.
      case_match; eexists; (split; [reflexivity|]); simpl; unfold rep_end, rep_start, rep_old_len; simpl; lia.
    + bool_props. destruct Hi as (Hoi & Hnj & Hi).
      destruct (IH (S i) (S j)) as (more & Hmore & Hord); [lia|lia|done|].
      rewrite Hmore, usize_sub_Some, slice_Some by lia.
      destruct (negb (o =? i) || negb (n =? j)); simpl; eexists; (split; [reflexivity|]);
        [split; unfold rep_end, rep_start, rep_old_len; simpl; [lia|]|];
        (eapply reps_ordered_weaken, Hord); lia.
Qed.

(** * Sorting *)

(** How two replacements, the first pushed before the second, must lie for the
    stable sort to put them in order. *)
Definition reps_compatible (a b : Replacement) : Prop :=
  (rep_start a ≤ rep_start b → rep_end a ≤ rep_start b) ∧
  (rep_start b < rep_start a → rep_end b ≤ rep_start a).

Definition rep_before (a b : Replacement) : Prop := rep_end a ≤ rep_start b.

Lemma insert_by_start_Forall P r l :
  P r → Forall P l → Forall P (insert_by_start r l).
Proof.
  induction l as [|x l IH]; intros Hr Hl; simpl; [by constructor|].
  apply Forall_cons in Hl as [Hx Hl]. case_match; repeat constructor; auto.
Qed.

Lemma insert_by_start_before r l :
  StronglySorted rep_before l → Forall (reps_compatible r) l →
  StronglySorted rep_before (insert_by_start r l).
Proof.
  induction 1 as [|x l Hs IH Hx]; intros Hr; simpl; [by repeat constructor|].
  apply Forall_cons in Hr as [[Hrx1 Hrx2] Hr].
  destruct (rep_start r <=? rep_start x) eqn:E; bool_props.
  - constructor; [by constructor|]. constructor; [by apply Hrx1|].
    eapply Forall_impl; [exact Hx|]. unfold rep_before, rep_end in *. intros y.
    specialize (Hrx1 E). lia.
  - constructor; [by apply IH|]. apply insert_by_start_Forall; [by apply Hrx2|done].
Qed.

Lemma sort_by_start_Forall P l : Forall P l → Forall P (sort_by_start l).
Proof. induction 1; simpl; [done|]. by apply insert_by_start_Forall. Qed.

Lemma sort_by_start_before l :
  StronglySorted reps_compatible l → StronglySorted rep_before (sort_by_start l).
Proof.
  induction 1 as [|r l _ IH Hr]; simpl; [constructor|].
  apply insert_by_start_before; [done|]. by apply sort_by_start_Forall.
Qed.

Lemma before_reps_ordered lo hi l :
  lo ≤ hi → StronglySorted rep_before l →
  Forall (λ r, lo ≤ rep_start r ∧ rep_end r ≤ hi) l → reps_ordered lo hi l.
Proof.
  intros Hlo H. revert lo Hlo. induction H as [|r l _ IH Hr]; intros lo Hlo Hf; simpl; [done|].
  apply Forall_cons in Hf as [[? ?] Hf]. split; [done|]. apply IH; [done|].
  apply Forall_and in Hf as [_ Hf]. apply Forall_and. split; [|done]. done.
Qed.

(** * The replacements of a patch are ordered *)

(** Replacements pushed up to [line_index]: a matched region ends there, an
    insertion sits at the end of the file. *)
Definition pushed_ok (len line_index : nat) (r : Replacement) : Prop :=
  rep_end r ≤ line_index ∨ (rep_start r = len ∧ rep_old_len r = 0).

Definition pending_ok (len line_index : nat) (r : Replacement) : Prop :=
  (line_index ≤ rep_start r ∨ (rep_start r = len ∧ rep_old_len r = 0)) ∧ rep_end r ≤ len.

Lemma pushed_pending_compatible len li a b :
  li ≤ len → pushed_ok len li a → pending_ok len li b → reps_compatible a b.
Proof.
  unfold pushed_ok, pending_ok, reps_compatible, rep_end. intros Hli Ha [Hb1 Hb2]. lia.
Qed.

Lemma reps_ordered_compatible lo hi reps :
  reps_ordered lo hi reps → StronglySorted reps_compatible reps.
Proof.
  revert lo. induction reps as [|r reps IH]; intros lo; simpl; [constructor|]. intros [Hlo H].
  constructor; [by eapply IH|]. apply reps_ordered_Forall in H.
  eapply Forall_impl; [done|]. unfold reps_compatible, rep_end. intros x. simpl. lia.
Qed.

Lemma locate_chunk_bounds ls li chunk m i pattern new_slice :
  li ≤ length ls → locate_chunk ls li chunk m = Some (i, pattern, new_slice) →
  i + length pattern ≤ length ls ∧ (m = PreserveLineEndings → li ≤ i)
  ∧ length pattern ≤ length (old_lines chunk) ∧ length new_slice ≤ length (new_lines chunk).
Proof.
  intros Hli H. unfold locate_chunk in H. repeat case_in H; simplify_eq;
    match goal with
    | H : seek_sequence _ ?p _ _ _ = Some _ |- _ =>
        apply seek_sequence_bounds in H as [? Hs]; [|done]
    end; unfold init in *; rewrite ?length_take in *; (split; [lia|]); (split; [auto|]); lia.
Qed.

Lemma seek_context_bounds ls path li chunk m li' :
  li ≤ length ls → seek_context ls path li chunk m = Ok li' → li ≤ li' ≤ length ls.
Proof.
  intros Hli H. unfold seek_context in H. repeat case_in H; simplify_eq; [|lia].
  match goal with
  | H : seek_sequence _ _ _ _ _ = Some _ |- _ =>
      apply seek_sequence_bounds in H as [? Hs]; [|done]
  end. simpl in *. specialize (Hs (or_introl eq_refl)). lia.
Qed.

Lemma chunk_replacements_preserve ls path li chunk :
  li ≤ length ls → chunk_ok chunk →
  ∃ r, chunk_replacements ls path li chunk PreserveLineEndings = Some r ∧
    ∀ reps li', r = Ok (reps, li') →
      li ≤ li' ≤ length ls ∧ StronglySorted reps_compatible reps
      ∧ Forall (λ r, pushed_ok (length ls) li' r ∧ pending_ok (length ls) li r) reps.
Proof.
  intros Hli Hok. unfold chunk_replacements.
  destruct (seek_context _ _ _ _ _) as [li1|e] eqn:Hctx; [|by eexists].
  pose proof (seek_context_bounds _ _ _ _ _ _ Hli Hctx) as [? ?].
  destruct (is_empty (old_lines chunk)).
  { eexists. split; [done|]. intros reps li' [= <- <-]. split; [done|].
    split; [repeat constructor|]. apply Forall_singleton. split; [by right|]. split; [by right|].
    unfold rep_end, rep_start, rep_old_len. simpl. lia. }
  destruct (locate_chunk _ _ _ _) as [[[i pattern] new_slice]|] eqn:Hloc; [|by eexists].
  apply locate_chunk_bounds in Hloc as (Hi & Hge & Hp & Hn); [|done]. specialize (Hge eq_refl).
  destruct (context_replacements_ordered pattern new_slice i 0 0 (context_line_indices chunk))
    as (reps & Hreps & Hord); [lia|lia|by eapply context_indices_increasing|].
  rewrite Hreps. simpl. eexists. split; [done|]. intros ? ? [= <- <-]. split; [lia|].
  split; [by eapply reps_ordered_compatible|]. apply reps_ordered_Forall in Hord.
  eapply Forall_impl; [done|]. unfold pushed_ok, pending_ok. intros r. simpl. lia.
Qed.

Lemma pending_ok_weaken len li li' r : li ≤ li' → pending_ok len li' r → pending_ok len li r.
Proof. unfold pending_ok. lia. Qed.

Lemma collect_replacements_preserve ls path li chunks :
  li ≤ length ls → Forall chunk_ok chunks →
  ∃ r, collect_replacements ls path li chunks PreserveLineEndings = Some r ∧
    ∀ reps, r = Ok reps →
      StronglySorted reps_compatible reps ∧ Forall (pending_ok (length ls) li) reps.
Proof.
  intros Hli Hok. revert li Hli. induction Hok as [|c chunks Hc Hok IH]; intros li Hli; simpl.
  { eexists. split; [done|]. intros ? [= <-]. split; constructor. }
  destruct (chunk_replacements_preserve ls path li c Hli Hc) as (r & -> & Hr). simpl.
  destruct r as [[reps li']|e]; [|by eexists].
  destruct (Hr _ _ eq_refl) as (Hli' & Hs & Hf).
  destruct (IH li') as (r2 & -> & Hr2); [lia|]. simpl. eexists. split; [done|].
  intros all. destruct r2 as [more|e]; intros [= <-]. destruct (Hr2 _ eq_refl) as [Hs2 Hf2].
  apply Forall_and in Hf as [Hpush Hpend]. split.
  - apply StronglySorted_app_2; [|done|done]. intros a b Ha Hb.
    rewrite Forall_forall in Hpush, Hf2.
    eapply pushed_pending_compatible; [|by apply Hpush|by apply Hf2]. lia.
  - apply Forall_app. split; [done|]. eapply Forall_impl; [done|]. intros x.
    apply pending_ok_weaken. lia.
Qed.

Lemma compute_replacements_preserve ls path chunks :
  Forall chunk_ok chunks →
  ∃ r, compute_replacements ls path chunks PreserveLineEndings = Some r ∧
    ∀ reps, r = Ok reps → reps_ordered 0 (length ls) reps.
Proof.
  intros Hok. unfold compute_replacements.
  destruct (collect_replacements_preserve ls path 0 chunks) as (r & -> & Hr); [lia|done|]. simpl.
  eexists. split; [done|]. intros reps. destruct r as [l|e]; intros [= <-].
  destruct (Hr _ eq_refl) as [Hs Hf].
  apply before_reps_ordered; [lia|by apply sort_by_start_before|]. apply sort_by_start_Forall.
  eapply Forall_impl; [done|]. intros x [_ ?]. split; [lia|done].
Qed.

(** * Applying replacements *)

Lemma remove_n_spec {A} n i (l : list A) :
  i + n ≤ length l → remove_n n i l = take i l ++ drop (i + n) l.
Proof.
  revert l. induction n as [|n IH]; intros l Hl; simpl.
  - by rewrite Nat.add_0_r, take_drop.
  - rewrite (proj2 (Nat.ltb_lt _ _)) by lia.
    assert (length (take i l) = i) as Hi by (rewrite length_take; lia).
    rewrite IH by (rewrite length_app, Hi, length_drop; lia).
    rewrite take_app_le, take_take, Nat.min_id by lia.
    rewrite drop_app_ge, Hi, drop_drop by lia. do 2 f_equal. lia.
Qed.

Lemma insert_all_spec {A} i (xs l : list A) :
  i ≤ length l → insert_all i xs l = Some (take i l ++ xs ++ drop i l).
Proof.
  revert i l. induction xs as [|x xs IH]; intros i l Hi; simpl; [by rewrite take_drop|].
  unfold vec_insert. rewrite (proj2 (Nat.leb_le _ _) Hi). simpl.
  assert (length (take i l) = i) as Hl by (rewrite length_take; lia).
  rewrite IH by (rewrite length_app, Hl; simpl; lia). f_equal.
  rewrite take_app_ge, drop_app_ge, Hl by lia. replace (S i - i) with 1 by lia. simpl.
  rewrite take_0, drop_0, <- (assoc_L (++)). done.
Qed.

Lemma apply_in_order_app ls a b :
  apply_in_order ls (a ++ b) = apply_in_order ls a ≫= λ ls, apply_in_order ls b.
Proof.
  revert ls. induction a as [|r a IH]; intros ls; simpl; [done|].
  destruct (insert_all _ _ _); simpl; auto.
Qed.

Lemma apply_replacements_splice_from ls lo reps :
  lo ≤ length ls → reps_ordered lo (length ls) reps →
  apply_in_order ls (reverse reps) = Some (take lo ls ++ splice id lo (drop lo ls) reps).
Proof.
  revert lo. induction reps as [|r reps IH]; intros lo Hlo Hord.
  { simpl. by rewrite take_drop. }
  destruct Hord as [Hs Hord]. pose proof (reps_ordered_le _ _ _ Hord) as He.
  rewrite reverse_cons, apply_in_order_app, (IH (rep_end r)) by done. simpl.
  set (rest := splice id _ _ reps).
  assert (length (take (rep_end r) ls) = rep_end r) as Hl by (rewrite length_take; lia).
  assert (rep_start r ≤ rep_end r) by (unfold rep_end; lia).
  rewrite remove_n_spec by (rewrite length_app, Hl; unfold rep_end; lia).
  fold (rep_end r). rewrite drop_app_length' by done.
  rewrite take_app_le, take_take, Nat.min_l by lia.
  assert (length (take (rep_start r) ls) = rep_start r) as Hl2 by (rewrite length_take; lia).
  rewrite insert_all_spec by (rewrite length_app, Hl2; lia).
  rewrite take_app_length', drop_app_length' by done. simpl. f_equal.
  rewrite list_fmap_id, drop_drop. replace (lo + (rep_end r - lo)) with (rep_end r) by lia.
  rewrite (assoc_L (++) (take lo ls)). f_equal.
  rewrite take_drop_commute, <- (take_drop lo (take (rep_start r) ls)), take_take.
  by rewrite Nat.min_l, Nat.add_comm, Nat.sub_add by lia.
Qed.

Lemma apply_replacements_splice ls reps :
  reps_ordered 0 (length ls) reps →
  apply_replacements ls reps = Some (splice id 0 ls reps).
Proof.
  intros H. unfold apply_replacements.
  rewrite (apply_replacements_splice_from ls 0) by (done || lia).
  by rewrite take_0, drop_0.
Qed.

Lemma replace_source_lines_splice e rest i reps :
  reps_ordered i (i + length rest) reps →
  replace_source_lines e rest i reps = Some (splice (λ t, mkLine t (Some e)) i rest reps).
Proof.
  revert rest i. induction reps as [|r reps IH]; intros rest i Hord; [done|].
  destruct Hord as [Hs Hord]. pose proof (reps_ordered_le _ _ _ Hord) as He. simpl.
  rewrite usize_sub_Some by done. simpl. rewrite drop_drop, IH.
  - simpl. do 5 f_equal. unfold rep_end. lia.
  - eapply reps_ordered_weaken, Hord; [done|]. rewrite length_drop. unfold rep_end in *. lia.
Qed.

Lemma splice_text e i ls reps :
  text <$> splice (λ t, mkLine t (Some e)) i ls reps = splice id i (text <$> ls) reps.
Proof.
  revert i ls. induction reps as [|r reps IH]; intros i ls; simpl; [done|].
  rewrite !fmap_app, IH, fmap_take, fmap_drop. do 2 f_equal.
  rewrite <- list_fmap_compose. done.
Qed.

Lemma fill_ending_text e (ls : list SourceLine) : text <$> (fill_ending e <$> ls) = text <$> ls.
Proof. rewrite <- list_fmap_compose. done. Qed.

(** * Source files *)

Lemma contents_cons l ls :
  concat (line_contents <$> l :: ls) = line_contents l ++ concat (line_contents <$> ls).
Proof. done. Qed.

Lemma parse_source_lines_contents acc s :
  concat (line_contents <$> parse_source_lines acc s) = acc ++ s.
Proof.
  remember (length s) as n eqn:Hn. revert acc s Hn.
  induction n as [n IH] using lt_wf_ind. intros acc s Hn.
  destruct s as [|c s]; simpl in *.
  { destruct acc; simpl; [done|]. by rewrite !app_nil_r. }
  destruct (N.eqb_spec c CR) as [->|Hcr].
  - destruct s as [|d s']; [by apply app_nil_r|].
    destruct (N.eqb_spec d LF) as [->|Hlf]; rewrite contents_cons.
    + rewrite (IH (length s')) by (simpl in *; lia || done). unfold line_contents.
      cbn [text ending]. by rewrite <- (assoc_L (++)).
    + rewrite (IH (length (d :: s'))) by (simpl in *; lia || done). unfold line_contents.
      cbn [text ending]. by rewrite <- (assoc_L (++)).
  - destruct (N.eqb_spec c LF) as [->|Hlf].
    + rewrite contents_cons, (IH (length s)) by (lia || done). unfold line_contents.
      cbn [text ending]. by rewrite <- (assoc_L (++)).
    + rewrite (IH (length s)) by (lia || done). by rewrite <- (assoc_L (++)).
Qed.

Lemma source_apply_replacements_splice f reps :
  reps_ordered 0 (length (source_lines f)) reps →
  source_apply_replacements f reps =
    Some (mkSourceFile
      (fill_ending (preferred_ending f) <$>
        splice (λ t, mkLine t (Some (preferred_ending f))) 0 (source_lines f) reps)
      (preferred_ending f)).
Proof. intros H. unfold source_apply_replacements. by rewrite replace_source_lines_splice. Qed.

(** * The legacy mode never panics *)

Definition starts_le (a b : Replacement) : Prop := rep_start a ≤ rep_start b.

Lemma insert_by_start_sorted r l :
  StronglySorted starts_le l → StronglySorted starts_le (insert_by_start r l).
Proof.
  induction 1 as [|x l Hs IH Hx]; simpl; [by repeat constructor|].
  destruct (rep_start r <=? rep_start x) eqn:E; bool_props.
  - constructor; [by constructor|]. constructor; [done|]. eapply Forall_impl; [exact Hx|].
    unfold starts_le. intros y. lia.
  - constructor; [done|]. apply insert_by_start_Forall; [unfold starts_le; lia|done].
Qed.

Lemma sort_by_start_sorted l : StronglySorted starts_le (sort_by_start l).
Proof. induction l; simpl; [constructor|]. by apply insert_by_start_sorted. Qed.

Lemma remove_n_length {A} n i (l : list A) : i ≤ length l → i ≤ length (remove_n n i l).
Proof.
  revert l. induction n as [|n IH]; intros l Hi; simpl; [done|]. apply IH.
  destruct (i <? length l) eqn:E; [|done]. rewrite length_app, length_take. lia.
Qed.

Lemma apply_in_order_total ls reps :
  StronglySorted (flip starts_le) reps → Forall (λ r, rep_start r ≤ length ls) reps →
  is_Some (apply_in_order ls reps).
Proof.
  intros Hs. revert ls. induction Hs as [|r reps Hs IH Hr]; intros ls Hf; simpl; [eauto|].
  apply Forall_cons in Hf as [Hlen _]. pose proof (remove_n_length (rep_old_len r) _ _ Hlen) as Hl.
  rewrite insert_all_spec by done. simpl. apply IH.
  eapply Forall_impl; [exact Hr|]. unfold starts_le. simpl. intros x Hx.
  rewrite length_app, length_take. lia.
Qed.

Lemma StronglySorted_reverse {A} (R : relation A) l :
  StronglySorted R l → StronglySorted (flip R) (reverse l).
Proof.
  induction 1 as [|x l _ IH Hx]; [constructor|]. rewrite reverse_cons.
  apply StronglySorted_app_2; [|done|by repeat constructor].
  intros a b Ha Hb. apply list_elem_of_singleton in Hb as ->. unfold flip.
  rewrite Forall_forall in Hx. apply Hx. by rewrite <- elem_of_reverse.
Qed.

Lemma chunk_replacements_lf ls path li chunk :
  li ≤ length ls →
  ∃ r, chunk_replacements ls path li chunk NormalizeToLf = Some r ∧
    ∀ reps li', r = Ok (reps, li') →
      li' ≤ length ls ∧ Forall (λ r, rep_start r ≤ length ls) reps.
Proof.
  intros Hli. unfold chunk_replacements.
  destruct (seek_context _ _ _ _ _) as [li1|e] eqn:Hctx; [|by eexists].
  pose proof (seek_context_bounds _ _ _ _ _ _ Hli Hctx) as [? ?].
  destruct (is_empty (old_lines chunk)).
  { eexists. split; [done|]. intros reps li' [= <- <-]. split; [done|].
    apply Forall_singleton. unfold rep_start. simpl. case_match; lia. }
  destruct (locate_chunk _ _ _ _) as [[[i pattern] new_slice]|] eqn:Hloc; [|by eexists].
  apply locate_chunk_bounds in Hloc as (Hi & _); [|done]. simpl.
  eexists. split; [done|]. intros ? ? [= <- <-]. split; [lia|].
  apply Forall_singleton. unfold rep_start. simpl. lia.
Qed.

Lemma collect_replacements_lf ls path li chunks :
  li ≤ length ls →
  ∃ r, collect_replacements ls path li chunks NormalizeToLf = Some r ∧
    ∀ reps, r = Ok reps → Forall (λ r, rep_start r ≤ length ls) reps.
Proof.
  revert li. induction chunks as [|c chunks IH]; intros li Hli; simpl.
  { eexists. split; [done|]. by intros ? [= <-]. }
  destruct (chunk_replacements_lf ls path li c Hli) as (r & -> & Hr). simpl.
  destruct r as [[reps li']|e]; [|by eexists]. destruct (Hr _ _ eq_refl) as (Hli' & Hf).
  destruct (IH li' Hli') as (r2 & -> & Hr2). simpl. eexists. split; [done|].
  intros all. destruct r2 as [more|e]; intros [= <-]. apply Forall_app. auto.
Qed.

Lemma derive_lf_total path contents chunks :
  is_Some (derive_new_contents path contents chunks NormalizeToLf).
Proof.
  unfold derive_new_contents, compute_replacements. set (ls := original_lines_lf contents).
  destruct (collect_replacements_lf ls path 0 chunks) as (r & -> & Hr); [lia|]. simpl.
  destruct r as [reps|e]; simpl; [|eauto].
  destruct (apply_in_order_total ls (reverse (sort_by_start reps))) as [ls' Hls'].
  - apply StronglySorted_reverse, sort_by_start_sorted.
  - apply Forall_reverse, sort_by_start_Forall. by apply Hr.
  - unfold apply_replacements. rewrite Hls'. simpl. eauto.
Qed.

(** * Updating an exact match *)

Lemma matches_exact pre old post : matches_at 0 (pre ++ old ++ post) old (length pre).
Proof.
  split; [rewrite !length_app; lia|]. by rewrite drop_app_length, take_app_length.
Qed.

Lemma seek_exact pre old post m :
  old ≠ [] → (∀ j, j < length pre → ¬ matches_at 0 (pre ++ old ++ post) old j) →
  seek_sequence (pre ++ old ++ post) old 0 false m = Some (length pre).
Proof.
  intros Hne Hfirst. pose proof (seek_sequence_best (pre ++ old ++ post) old 0 false m Hne) as Hb.
  pose proof (matches_exact pre old post) as Hm. unfold search_start in Hb. simpl in Hb.
  destruct (seek_sequence _ _ _ _ _) as [i|].
  - destruct Hb as (k & _ & _ & Hk & Hmin & Hstrict).
    destruct k as [|k]; [|by destruct (Hstrict 0 (length pre)); [lia|lia|]].
    f_equal. pose proof (Hmin (length pre) ltac:(lia) Hm).
    destruct (decide (i < length pre)); [by destruct (Hfirst i)|lia].
  - by destruct (Hb 0 (length pre)); [lia|].
Qed.

Lemma context_splice old new s o n idx reps p mid post :
  o ≤ length old → n ≤ length new → context_indices_ok old new o n idx →
  context_replacements old new s o n idx = Some reps →
  p + length mid = s + o →
  splice id p (mid ++ drop o old ++ post) reps = mid ++ drop n new ++ post.
Proof.
  revert o n reps p mid. induction idx as [|[i j] idx IH]; intros o n reps p mid Ho Hn Hidx Hreps Hp.
  - simpl in Hreps. rewrite usize_sub_Some, slice_Some in Hreps by lia.
    destruct (negb (o =? length old) || negb (n =? length new)) eqn:E; injection Hreps as <-.
    + simpl. unfold rep_end, rep_start, rep_old_len, rep_new. simpl.
      rewrite list_fmap_id, take_app_length' by lia. f_equal.
      rewrite take_ge by (rewrite length_drop; lia). f_equal.
      rewrite (assoc_L (++)), drop_app_length' by (rewrite length_app, length_drop; lia). done.
    + bool_props. subst. simpl. by rewrite !drop_all.
  - destruct Hidx as (Hoi & Hnj & (c & Hi & Hj) & Hidx).
    pose proof (lookup_lt_Some _ _ _ Hi). pose proof (lookup_lt_Some _ _ _ Hj).
    cbn [context_replacements] in Hreps.
    rewrite (proj2 (orb_false_iff _ _)) in Hreps by (split; apply Nat.leb_gt; lia).
    rewrite (usize_sub_Some i o), (slice_Some new n j) in Hreps by lia.
    destruct (context_replacements old new s (S i) (S j) idx) as [more|] eqn:Hmore;
      [|by destruct (negb (o =? i) || negb (n =? j))].
    destruct (negb (o =? i) || negb (n =? j)) eqn:E; injection Hreps as <-.
    + cbn [splice app]. unfold rep_end, rep_start, rep_old_len, rep_new. simpl.
      rewrite list_fmap_id, take_app_length' by lia. f_equal.
      assert (drop (s + o + (i - o) - p) (mid ++ drop o old ++ post)
        = [c] ++ drop (S i) old ++ post) as ->.
      { rewrite drop_app_ge by lia. replace (_ - p - length mid) with (i - o) by lia.
        rewrite drop_app_le by (rewrite length_drop; lia). rewrite drop_drop.
        replace (o + (i - o)) with i by lia. by rewrite (drop_S _ _ _ Hi). }
      rewrite (IH (S i) (S j) more) by (simpl; lia || done).
      rewrite <- (take_drop (j - n) (drop n new)) at 2. rewrite drop_drop.
      replace (n + (j - n)) with j by lia. rewrite (drop_S _ _ _ Hj). by rewrite <- (assoc_L (++)).
    + bool_props. subst i j. simpl app. rewrite (drop_S _ _ _ Hi), (drop_S _ _ _ Hj).
      change ((c :: ?x) ++ ?y) with ([c] ++ x ++ y).
      rewrite !(assoc_L (++) mid [c]). apply (IH (S o) (S n)); try lia; try done.
      rewrite length_app. simpl. lia.
Qed.

Lemma sort_by_start_id lo hi reps : reps_ordered lo hi reps → sort_by_start reps = reps.
Proof.
  revert lo. induction reps as [|r reps IH]; intros lo; simpl; [done|]. intros [Hlo H].
  rewrite (IH _ H). destruct reps as [|x reps]; [done|]. simpl in *.
  destruct H as [H _]. unfold rep_end in H. by rewrite (proj2 (Nat.leb_le _ _)) by lia.
Qed.

Lemma compute_exact_chunk pre post chunk path m :
  old_lines chunk ≠ [] → change_context chunk = None → is_end_of_file chunk = false →
  chunk_ok chunk →
  (∀ j, j < length pre → ¬ matches_at 0 (pre ++ old_lines chunk ++ post) (old_lines chunk) j) →
  ∃ reps, compute_replacements (pre ++ old_lines chunk ++ post) path [chunk] m = Some (Ok reps)
    ∧ reps_ordered 0 (length (pre ++ old_lines chunk ++ post)) reps
    ∧ splice id 0 (pre ++ old_lines chunk ++ post) reps = pre ++ new_lines chunk ++ post.
Proof.
  intros Hne Hctx Heof Hok Hfirst. set (ls := pre ++ old_lines chunk ++ post).
  unfold compute_replacements. cbn [collect_replacements].
  unfold chunk_replacements, seek_context, locate_chunk. rewrite Hctx, Heof.
  assert (seek_sequence ls (old_lines chunk) 0 false m = Some (length pre)) as ->
    by (by apply seek_exact).
  destruct (is_empty (old_lines chunk)) eqn:E; [by destruct (old_lines chunk)|].
  assert (length pre + length (old_lines chunk) ≤ length ls) as Hlen
    by (unfold ls; rewrite !length_app; lia).
  destruct m.
  - simpl. eexists. split; [done|]. split.
    + simpl. unfold rep_end, rep_start, rep_old_len. simpl. lia.
    + simpl. unfold rep_end, rep_start, rep_old_len, rep_new. simpl.
      rewrite list_fmap_id, !Nat.sub_0_r. unfold ls.
      rewrite take_app_length, (assoc_L (++) pre (old_lines chunk) post).
      by rewrite drop_app_length' by (by rewrite length_app).
  - destruct (context_replacements_ordered (old_lines chunk) (new_lines chunk) (length pre) 0 0
      (context_line_indices chunk)) as (reps & Hreps & Hord);
      [lia|lia|by eapply context_indices_increasing|].
    rewrite Hreps. simpl. rewrite app_nil_r, (sort_by_start_id _ _ _ Hord).
    eexists. split; [done|]. split; [eapply reps_ordered_weaken, Hord; lia|].
    pose proof (context_splice (old_lines chunk) (new_lines chunk) (length pre) 0 0
      (context_line_indices chunk) reps 0 pre post) as Hs.
    rewrite !drop_0 in Hs. apply Hs; [lia|lia|done|done|lia].
Qed.

(** * The claims *)

(** Both ways of applying replacements implement the same reference: on
    replacements that are in order, disjoint and in range, the in-place routine
    of the legacy mode computes [splice] without panicking, and the one that
    keeps line endings yields a file whose line texts are that same [splice]. *)
Theorem apply_replacements_refine_splice (ls : list str) (reps : list Replacement)
    (f : SourceFile) :
  reps_ordered 0 (length ls) reps → line_texts f = ls →
  apply_replacements ls reps = Some (splice id 0 ls reps) ∧
  ∃ f', source_apply_replacements f reps = Some f' ∧ line_texts f' = splice id 0 ls reps.
Proof.
  intros Hord <-. split; [by apply apply_replacements_splice|].
  rewrite source_apply_replacements_splice by (by unfold line_texts in Hord; rewrite length_fmap in Hord).
  eexists. split; [done|]. unfold line_texts. cbn [source_lines].
  by rewrite fill_ending_text, splice_text.
Qed.

Lemma apply_replacements_refine_splice_witness :
  apply_replacements [lit "a"; lit "b"; lit "c"] [(0, 1, [lit "x"; lit "y"]); (2, 1, [])]
  = Some [lit "x"; lit "y"; lit "b"].
Proof.
  apply (apply_replacements_refine_splice [lit "a"; lit "b"; lit "c"]
    [(0, 1, [lit "x"; lit "y"]); (2, 1, [])]
    (parse_source_file (lit "a" ++ [LF] ++ lit "b" ++ [CR; LF] ++ lit "c"))); [|reflexivity].
  repeat split; vm_compute; lia.
Defined.

(** Updating a file never panics: no index, slice or unsigned subtraction goes out
    of range, whatever the file holds and whichever mode is selected. *)
Lemma derive_new_contents_total (name contents : str) (chunks : list UpdateFileChunk)
    (m : ApplyPatchFileUpdateMode) :
  Forall chunk_complete chunks → is_Some (derive_new_contents name contents chunks m).
Proof.
  intros Hchunks. destruct m; [apply derive_lf_total|].
  assert (Forall chunk_ok chunks) as Hok by (eapply Forall_impl; [done|]; by intros ? [? _]).
  unfold derive_new_contents. set (f := parse_source_file contents).
  destruct (compute_replacements_preserve (line_texts f) name chunks Hok) as (r & -> & Hr). simpl.
  destruct r as [reps|e]; [|eauto]. specialize (Hr _ eq_refl).
  rewrite source_apply_replacements_splice; [simpl; eauto|].
  unfold line_texts in Hr. by rewrite length_fmap in Hr.
Qed.

(** Reading a file into [SourceFile] and writing it back is the identity on
    every text, whatever mix of line endings it has. *)
Theorem source_file_roundtrip (contents : str) :
  into_contents (parse_source_file contents) = contents.
Proof. apply (parse_source_lines_contents [] contents). Qed.

(** A chunk whose old lines occur verbatim is applied at their first
    occurrence and nowhere else: the lines of the file become the lines before,
    the chunk's new lines, and the lines after. The legacy mode joins them with
    line feeds; the mode that keeps line endings produces a file with exactly
    these line texts. *)
Theorem exact_chunk_update (pre post : list str) (chunk : UpdateFileChunk) (path contents : str) :
  old_lines chunk ≠ [] → change_context chunk = None → is_end_of_file chunk = false →
  chunk_ok chunk →
  (∀ j, j < length pre → ¬ matches_at 0 (pre ++ old_lines chunk ++ post) (old_lines chunk) j) →
  (original_lines_lf contents = pre ++ old_lines chunk ++ post →
    derive_new_contents path contents [chunk] NormalizeToLf
    = Some (Ok (contents_of_lines_lf (pre ++ new_lines chunk ++ post)))) ∧
  (line_texts (parse_source_file contents) = pre ++ old_lines chunk ++ post →
    ∃ f, derive_new_contents path contents [chunk] PreserveLineEndings
           = Some (Ok (into_contents f))
         ∧ line_texts f = pre ++ new_lines chunk ++ post).
Proof.
  intros Hne Hctx Heof Hok Hfirst.
  split; intros Hls; unfold derive_new_contents; rewrite Hls.
  - destruct (compute_exact_chunk pre post chunk path NormalizeToLf) as (reps & -> & Hord & Hs);
      [done..|]. simpl. by rewrite apply_replacements_splice, Hs by done.
  - destruct (compute_exact_chunk pre post chunk path PreserveLineEndings) as (reps & -> & Hord & Hs);
      [done..|]. simpl. rewrite <- Hls in Hord, Hs. unfold line_texts in Hord.
    rewrite length_fmap in Hord. rewrite source_apply_replacements_splice by done. simpl.
    eexists. split; [done|]. unfold line_texts. cbn [source_lines].
    by rewrite fill_ending_text, splice_text.
Qed.

Lemma exact_chunk_update_witness :
  derive_new_contents (lit "f") (lit "a" ++ [LF] ++ lit "b" ++ [LF])
    [mkChunk None [lit "b"] [lit "c"] [] false] NormalizeToLf
  = Some (Ok (lit "a" ++ [LF] ++ lit "c" ++ [LF])).
Proof.
  apply (exact_chunk_update [lit "a"] [] (mkChunk None [lit "b"] [lit "c"] [] false));
    try done. simpl. intros j Hj [_ H]. destruct j; [done|lia].
Defined.
