(* ===== verification/ApplyPatch.v ===== *)
(** [lib.rs] of [codex-apply-patch]: applying parsed hunks to a file system and
    reporting the committed changes as a delta.

    The file system ([ExecutorFileSystem], implemented outside this crate), the
    path type ([PathUri]) and the two output streams are interfaces: classes over
    the state [W] of the world. *)
From stdpp Require Import base list sets numbers strings.
From S2P Require Import Prelude RustStr PatchParser SeekSequence FileUpdate.

(** * Interfaces *)

Record FileMetadata : Type := mkMetadata {
  md_is_directory : bool;
  md_is_file : bool;
  md_is_symlink : bool;
}.

(** [ExecutorFileSystem]: reads leave the world alone. The [bool] argument is
    [follow_symlinks]. *)
Class ExecutorFileSystem (W P : Type) := {
  read_file_text : P → bool → W → Result str io_error;
  get_metadata : P → bool → W → Result FileMetadata io_error;
  write_file : P → str → bool → W → W * Result unit io_error;
  create_directory : P → bool → W → W * Result unit io_error;
  remove : P → bool → W → W * Result unit io_error;
}.

(** [PathUri]: [join], [parent] and [inferred_native_path_string]. *)
Class PathUri (P : Type) := {
  PathUriParseError : Type;
  path_error_text : PathUriParseError → str;
  path_join : P → str → Result P PathUriParseError;
  path_parent : P → option P;
  native_path_string : P → str;
}.
Arguments PathUriParseError P {_}.

(** The [stdout] and [stderr] writers. *)
Class Console (W : Type) := {
  write_stdout : str → W → W * Result unit io_error;
  write_stderr : str → W → W * Result unit io_error;
}.

(** * Errors and deltas *)
Record IoError : Type := mkIoError {
  io_context : str;
  io_source : io_error;
}.

Inductive ApplyPatchError (PE : Type) : Type :=
| ApParseError (e : ParseError)
| ApIoError (e : IoError)
| ComputeReplacements (message : str)
| ApPathUri (e : PE)
| ImplicitInvocation.
Arguments ApParseError {PE} e.
Arguments ApIoError {PE} e.
Arguments ComputeReplacements {PE} message.
Arguments ApPathUri {PE} e.
Arguments ImplicitInvocation {PE}.

Record ApplyPatchOptions : Type := mkOptions {
  update_file_mode : ApplyPatchFileUpdateMode;
  follow_symlinks : bool;
}.

Definition default_options : ApplyPatchOptions := mkOptions NormalizeToLf true.

(** [apply_patch_file_update_mode_from_env], given the value of the variable. *)
Definition apply_patch_file_update_mode_from_env (var : option str) : ApplyPatchFileUpdateMode :=
  match var with
  | Some v => if bool_decide (v = lit "1") then PreserveLineEndings else NormalizeToLf
  | None => NormalizeToLf
  end.

Inductive AppliedPatchFileChange (P : Type) : Type :=
| ChangeAdd (content : str) (overwritten_content : option str)
| ChangeDelete (content : str)
| ChangeUpdate (move_path : option P) (old_content : str)
    (overwritten_move_content : option str) (new_content : str).
Arguments ChangeAdd {P} content overwritten_content.
Arguments ChangeDelete {P} content.
Arguments ChangeUpdate {P} move_path old_content overwritten_move_content new_content.

Record AppliedPatchChange (P : Type) : Type := mkChange {
  change_path : P;
  change : AppliedPatchFileChange P;
}.
Arguments mkChange {P} change_path change.
Arguments change_path {P} _.
Arguments change {P} _.

Record AppliedPatchDelta (P : Type) : Type := mkDelta {
  delta_changes : list (AppliedPatchChange P);
  delta_exact : bool;
}.
Arguments mkDelta {P} delta_changes delta_exact.
Arguments delta_changes {P} _.
Arguments delta_exact {P} _.

Definition empty_delta {P} : AppliedPatchDelta P := mkDelta [] true.

(** [AppliedPatchDelta::append]. *)
Definition delta_append {P} (d other : AppliedPatchDelta P) : AppliedPatchDelta P :=
  mkDelta (delta_changes d ++ delta_changes other) (delta_exact d && delta_exact other).

Record AffectedPaths : Type := mkAffected {
  added : list str;
  modified : list str;
  deleted : list str;
}.

(** [anyhow::Error]: the values the code turns into it, an [io::Error] with the
    context attached by [with_context] if any. *)
Inductive AnyError (PE : Type) : Type :=
| AnyIo (context : option str) (e : io_error)
| AnyPath (e : PE)
| AnyApply (e : ApplyPatchError PE)
| AnyMessage (message : str).
Arguments AnyIo {PE} context e.
Arguments AnyPath {PE} e.
Arguments AnyApply {PE} e.
Arguments AnyMessage {PE} message.

(** An operation ends early with an error, or with a panic of the updater. *)
Inductive Abort (PE : Type) : Type :=
| Raise (e : AnyError PE)
| Panic.
Arguments Raise {PE} e.
Arguments Panic {PE}.

(** The world together with the delta being accumulated. *)
Record ApplyState (W P : Type) : Type := mkApply {
  world : W;
  delta : AppliedPatchDelta P;
}.
Arguments mkApply {W P} world delta.
Arguments world {W P} _.
Arguments delta {W P} _.

Section Apply.
Context {W P : Type} `{FS : ExecutorFileSystem W P} `{PU : PathUri P} `{CO : Console W}.

Abbreviation PE := (PathUriParseError P).
Abbreviation AppM A := (SE (ApplyState W P) A (Abort PE)).

Definition raise {A} (e : AnyError PE) : AppM A := se_fail (Raise e).

Definition set_inexact (s : ApplyState W P) : ApplyState W P :=
  mkApply (world s) (mkDelta (delta_changes (delta s)) false).

Definition push_change (c : AppliedPatchChange P) (s : ApplyState W P) : ApplyState W P :=
  mkApply (world s) (mkDelta (delta_changes (delta s) ++ [c]) (delta_exact (delta s))).

(** [delta.changes[i] = c]. *)
Definition set_change (i : nat) (c : AppliedPatchChange P) (s : ApplyState W P) : ApplyState W P :=
  mkApply (world s) (mkDelta (<[i := c]> (delta_changes (delta s))) (delta_exact (delta s))).

(** Runs a file-system operation on the world. *)
Definition fs_op (op : W → W * Result unit io_error) : SE (ApplyState W P) (Result unit io_error) (Abort PE) := λ s,
  let (w, r) := op (world s) in (mkApply w (delta s), Ok r).

(** [note_existing_path_delta_support]. *)
Definition note_existing_path_delta_support (path : P) (follow : bool) : AppM unit :=
  s <-- se_get ;;
  match get_metadata path follow (world s) with
  | Ok md => if md_is_file md && negb (md_is_symlink md) then se_ret tt else se_modify set_inexact
  | Err e => if bool_decide (io_kind e = NotFound) then se_ret tt else se_modify set_inexact
  end.

(** [read_optional_file_text_for_delta]. *)
Definition read_optional_file_text_for_delta (path : P) (follow : bool) : AppM (option str) :=
  note_existing_path_delta_support path follow ;;;
  s <-- se_get ;;
  match read_file_text path follow (world s) with
  | Ok content => se_ret (Some content)
  | Err e =>
      if bool_decide (io_kind e = NotFound) then se_ret None
      else se_modify set_inexact ;;; se_ret None
  end.

(** [ensure_not_directory]. *)
Definition ensure_not_directory (path : P) (follow : bool) (w : W) : Result unit io_error :=
  match get_metadata path follow w with
  | Err e => Err e
  | Ok md =>
      if md_is_directory md then Err (mkIoErr InvalidInput (lit "path is a directory")) else Ok tt
  end.

(** [remove_failure_was_side_effect_free]. *)
Definition remove_failure_was_side_effect_free (path : P) (expected : option str) (follow : bool)
    (w : W) : bool :=
  match expected with
  | Some expected =>
      match read_file_text path follow w with
      | Ok content => bool_decide (content = expected)
      | Err _ => false
      end
  | None => false
  end.

Definition failed_to (what : str) (path : P) : str := what ++ native_path_string path.

(** [write_file_with_missing_parent_retry]. *)
Definition write_file_with_missing_parent_retry (path : P) (contents : str) (follow : bool)
    : AppM (Result unit (AnyError PE)) :=
  let write_context := failed_to (lit "Failed to write file ") path in
  r <-- fs_op (write_file path contents follow) ;;
  match r with
  | Ok _ => se_ret (Ok tt)
  | Err e =>
      if bool_decide (io_kind e = NotFound) then
        r <-- (match path_parent path with
               | Some parent => fs_op (create_directory parent follow)
               | None => se_ret (Ok tt)
               end) ;;
        match r with
        | Err e =>
            se_ret (Err (AnyIo
              (Some (failed_to (lit "Failed to create parent directories for ") path)) e))
        | Ok _ =>
            r <-- fs_op (write_file path contents follow) ;;
            match r with
            | Ok _ => se_ret (Ok tt)
            | Err e => se_ret (Err (AnyIo (Some write_context) e))
            end
        end
      else se_ret (Err (AnyIo (Some write_context) e))
  end.

(** The [try_write!] macro. *)
Definition try_write (m : AppM (Result unit (AnyError PE))) : AppM unit :=
  r <-- m ;;
  match r with
  | Ok _ => se_ret tt
  | Err e => se_modify set_inexact ;;; raise e
  end.

(** [ensure_not_directory(..).await.with_context(..)?]. *)
Definition require_not_directory (path : P) (follow : bool) (context : str) : AppM unit :=
  s <-- se_get ;;
  match ensure_not_directory path follow (world s) with
  | Ok _ => se_ret tt
  | Err e => raise (AnyIo (Some context) e)
  end.

(** [fs.remove(..)], and on failure the exactness check before the return. *)
Definition remove_or_fail (path : P) (follow : bool) (expected : option str) (context : str)
    : AppM unit :=
  r <-- fs_op (remove path follow) ;;
  match r with
  | Ok _ => se_ret tt
  | Err e =>
      s <-- se_get ;;
      (if remove_failure_was_side_effect_free path expected follow (world s)
       then se_ret tt else se_modify set_inexact) ;;;
      raise (AnyIo (Some context) e)
  end.

(** [derive_new_contents_from_chunks]: the original and the new contents. *)
Definition derive_new_contents_from_chunks (path : P) (chunks : list UpdateFileChunk)
    (m : ApplyPatchFileUpdateMode) (follow : bool) (w : W)
    : option (Result (str * str) (ApplyPatchError PE)) :=
  match read_file_text path follow w with
  | Err e =>
      Some (Err (ApIoError (mkIoError
        (failed_to (lit "Failed to read file to update ") path) e)))
  | Ok original =>
      r ← derive_new_contents (native_path_string path) original chunks m;
      Some (match r with
            | Ok new => Ok (original, new)
            | Err message => Err (ComputeReplacements message)
            end)
  end.

Definition lift_path {A} (r : Result A PE) : AppM A := se_lift (map_err (λ e, Raise (AnyPath e)) r).

(** [Hunk::resolve_path]. *)
Definition resolve_path (h : Hunk) (cwd : P) : Result P PE := path_join cwd (hunk_source_path h).

(** ** The three arms of the [match hunk] *)

Definition apply_add (path : P) (contents : str) (opts : ApplyPatchOptions) : AppM unit :=
  let follow := follow_symlinks opts in
  overwritten <-- read_optional_file_text_for_delta path follow ;;
  try_write (write_file_with_missing_parent_retry path contents follow) ;;;
  se_modify (push_change (mkChange path (ChangeAdd contents overwritten))).

Definition apply_delete (path : P) (opts : ApplyPatchOptions) : AppM unit :=
  let follow := follow_symlinks opts in
  let context := failed_to (lit "Failed to delete file ") path in
  note_existing_path_delta_support path follow ;;;
  s <-- se_get ;;
  let deleted_content :=
    match read_file_text path follow (world s) with
    | Ok c => Some c
    | Err _ => None
    end in
  (match deleted_content with
   | Some _ => se_ret tt
   | None => se_modify set_inexact
   end) ;;;
  require_not_directory path follow context ;;;
  remove_or_fail path follow deleted_content context ;;;
  match deleted_content with
  | Some content => se_modify (push_change (mkChange path (ChangeDelete content)))
  | None => se_ret tt
  end.

Definition apply_update (path : P) (move_path : option str) (chunks : list UpdateFileChunk)
    (opts : ApplyPatchOptions) (cwd : P) : AppM unit :=
  let follow := follow_symlinks opts in
  note_existing_path_delta_support path follow ;;;
  s <-- se_get ;;
  match derive_new_contents_from_chunks path chunks (update_file_mode opts) follow (world s) with
  | None => se_fail Panic
  | Some (Err e) => raise (AnyApply e)
  | Some (Ok (original, new)) =>
      match move_path with
      | Some dest =>
          let context := failed_to (lit "Failed to remove original ") path in
          dest_uri <-- lift_path (path_join cwd dest) ;;
          overwritten <-- read_optional_file_text_for_delta dest_uri follow ;;
          try_write (write_file_with_missing_parent_retry dest_uri new follow) ;;;
          s <-- se_get ;;
          let index := length (delta_changes (delta s)) in
          se_modify (push_change (mkChange dest_uri (ChangeAdd new overwritten))) ;;;
          require_not_directory path follow context ;;;
          remove_or_fail path follow (Some original) context ;;;
          se_modify (set_change index
            (mkChange path (ChangeUpdate (Some dest_uri) original overwritten new)))
      | None =>
          try_write
            (r <-- fs_op (write_file path new follow) ;;
             se_ret (map_err (AnyIo (Some (failed_to (lit "Failed to write file ") path))) r)) ;;;
          se_modify (push_change (mkChange path (ChangeUpdate None original None new)))
      end
  end.

(** One iteration of [for hunk in hunks]. *)
Definition apply_hunk (h : Hunk) (opts : ApplyPatchOptions) (cwd : P) (acc : AffectedPaths)
    : AppM AffectedPaths :=
  let affected := hunk_path h in
  path <-- lift_path (resolve_path h cwd) ;;
  match h with
  | AddFile _ contents =>
      apply_add path contents opts ;;;
      se_ret (mkAffected (added acc ++ [affected]) (modified acc) (deleted acc))
  | DeleteFile _ =>
      apply_delete path opts ;;;
      se_ret (mkAffected (added acc) (modified acc) (deleted acc ++ [affected]))
  | UpdateFile _ move_path chunks =>
      apply_update path move_path chunks opts cwd ;;;
      se_ret (mkAffected (added acc) (modified acc ++ [affected]) (deleted acc))
  end.

Fixpoint apply_hunk_loop (hs : list Hunk) (opts : ApplyPatchOptions) (cwd : P)
    (acc : AffectedPaths) : AppM AffectedPaths :=
  match hs with
  | [] => se_ret acc
  | h :: hs =>
      acc <-- apply_hunk h opts cwd acc ;;
      apply_hunk_loop hs opts cwd acc
  end.

(** [apply_hunks_to_files]. *)
Definition apply_hunks_to_files (hs : list Hunk) (opts : ApplyPatchOptions) (cwd : P)
    : AppM AffectedPaths :=
  if is_empty hs then raise (AnyMessage (lit "No files were modified."))
  else apply_hunk_loop hs opts cwd (mkAffected [] [] []).

(** ** Reporting *)

(** The lines [print_summary] writes. *)
Definition summary_lines (a : AffectedPaths) : list str :=
  lit "Success. Updated the following files:" ::
  ((λ p, lit "A " ++ p) <$> added a) ++ ((λ p, lit "M " ++ p) <$> modified a)
  ++ ((λ p, lit "D " ++ p) <$> deleted a).

(** [writeln!(out, ..)?] for each line. *)
Fixpoint write_lines (ls : list str) (w : W) : W * Result unit io_error :=
  match ls with
  | [] => (w, Ok tt)
  | l :: ls =>
      match write_stdout (l ++ [LF]) w with
      | (w, Ok _) => write_lines ls w
      | (w, Err e) => (w, Err e)
      end
  end.

Definition print_summary (a : AffectedPaths) (w : W) : W * Result unit io_error :=
  write_lines (summary_lines a) w.

(** [From<std::io::Error>] and [From<&std::io::Error>]. *)
Definition from_io (e : io_error) : ApplyPatchError PE :=
  ApIoError (mkIoError (lit "I/O error") e).

Definition io_error_text (e : IoError) : str := io_context e ++ lit ": " ++ io_text (io_source e).

Definition parse_error_text (e : ParseError) : str :=
  match e with
  | InvalidPatchError m => lit "invalid patch: " ++ m
  | InvalidHunkError m n => lit "invalid hunk at line " ++ display_nat n ++ lit ", " ++ m
  end.

Definition apply_error_text (e : ApplyPatchError PE) : str :=
  match e with
  | ApParseError e => parse_error_text e
  | ApIoError e => io_error_text e
  | ComputeReplacements m => m
  | ApPathUri e => path_error_text e
  | ImplicitInvocation =>
      lit "patch detected without explicit call to apply_patch. Rerun as [" ++ [QUOTE]
      ++ lit "apply_patch" ++ [QUOTE] ++ lit ", " ++ [QUOTE] ++ lit "<patch>" ++ [QUOTE] ++ lit "]"
  end.

(** [anyhow::Error::to_string]: the outermost context. *)
Definition any_error_text (e : AnyError PE) : str :=
  match e with
  | AnyIo (Some c) _ => c
  | AnyIo None e => io_text e
  | AnyPath e => path_error_text e
  | AnyApply e => apply_error_text e
  | AnyMessage m => m
  end.

(** The error [apply_hunks_with_options] reports. *)
Definition reported_error (e : AnyError PE) : ApplyPatchError PE :=
  match e with
  | AnyIo _ io => from_io io
  | _ => ApIoError (mkIoError (any_error_text e) (mkIoErr OtherKind (any_error_text e)))
  end.

(** [Result<AppliedPatchDelta, ApplyPatchFailure>], or a panic. *)
Inductive ApplyOutcome : Type :=
| Applied (d : AppliedPatchDelta P)
| Failed (e : ApplyPatchError PE) (d : AppliedPatchDelta P)
| Panicked.

(** [apply_hunks_with_options]. *)
Definition apply_hunks_with_options (hs : list Hunk) (opts : ApplyPatchOptions) (cwd : P) (w : W)
    : W * ApplyOutcome :=
  let (s, r) := apply_hunks_to_files hs opts cwd (mkApply w empty_delta) in
  match r with
  | Ok affected =>
      match print_summary affected (world s) with
      | (w, Ok _) => (w, Applied (delta s))
      | (w, Err e) => (w, Failed (from_io e) (delta s))
      end
  | Err (Raise e) =>
      match write_stderr (any_error_text e ++ [LF]) (world s) with
      | (w, Ok _) => (w, Failed (reported_error e) (delta s))
      | (w, Err e) => (w, Failed (from_io e) (delta s))
      end
  | Err Panic => (world s, Panicked)
  end.

(** [apply_patch_with_options]. *)
Definition apply_patch_with_options (patch : str) (opts : ApplyPatchOptions) (cwd : P) (w : W)
    : W * ApplyOutcome :=
  match parse_patch patch with
  | Ok args => apply_hunks_with_options (args_hunks args) opts cwd w
  | Err e =>
      let message :=
        match e with
        | InvalidPatchError m => lit "Invalid patch: " ++ m
        | InvalidHunkError m n =>
            lit "Invalid patch hunk on line " ++ display_nat n ++ lit ": " ++ m
        end in
      match write_stderr (message ++ [LF]) w with
      | (w, Ok _) => (w, Failed (ApParseError e) empty_delta)
      | (w, Err e) => (w, Failed (from_io e) empty_delta)
      end
  end.

(** [apply_patch]. *)
Definition apply_patch (patch : str) (cwd : P) (w : W) : W * ApplyOutcome :=
  apply_patch_with_options patch default_options cwd w.
End Apply.
