(* ===== verification/ApplyPatchFacts.v ===== *)
(** What applying a patch does to the files: the delta it reports, the effect of
    each hunk, and the absence of panics. *)
From stdpp Require Import base list sets numbers strings gmap.
From S2P Require Import Prelude RustStr PatchParser PatchParserFacts SeekSequence FileUpdate FileUpdateFacts ApplyPatch.

(** * What the code relies on

    A file system without aliases between paths: [file_at w p] is the text of the
    regular file at [p]. A write that reports [NotFound] did not create or change
    a file, any other failed write may have changed its target, and a failed
    removal may have removed its target. *)
Class PlainFiles (W P : Type) `{ExecutorFileSystem W P} `{Console W} `{EqDecision P} := {
  file_at : W → P → option str;
  read_ok w p fl c : read_file_text p fl w = Ok c → file_at w p = Some c;
  read_not_found w p fl e :
    read_file_text p fl w = Err e → io_kind e = NotFound → file_at w p = None;
  write_ok w p fl c w' u q :
    write_file p c fl w = (w', Ok u) →
    file_at w' q = if decide (q = p) then Some c else file_at w q;
  write_not_found w p fl c w' e q :
    write_file p c fl w = (w', Err e) → io_kind e = NotFound → file_at w' q = file_at w q;
  mkdir_files w p fl q : file_at (create_directory p fl w).1 q = file_at w q;
  remove_ok w p fl w' u q :
    remove p fl w = (w', Ok u) → file_at w' q = if decide (q = p) then None else file_at w q;
  remove_err w p fl w' e q :
    remove p fl w = (w', Err e) →
    file_at w' q = file_at w q ∨ (q = p ∧ file_at w' q = None);
  stdout_files s w q : file_at (write_stdout s w).1 q = file_at w q;
  stderr_files s w q : file_at (write_stderr s w).1 q = file_at w q;
}.

(** * Replaying and undoing a delta *)
Section Delta.
Context {P : Type} `{EqDecision P}.
Implicit Types f g : P → option str.

Definition upd (p : P) (v : option str) f : P → option str :=
  λ q, if decide (q = p) then v else f q.

(** The state after a change, and the state before it. *)
Definition redo (c : AppliedPatchChange P) f : P → option str :=
  let p := change_path c in
  match change c with
  | ChangeAdd content _ => upd p (Some content) f
  | ChangeDelete _ => upd p None f
  | ChangeUpdate None _ _ new => upd p (Some new) f
  | ChangeUpdate (Some dest) _ _ new => upd p None (upd dest (Some new) f)
  end.

Definition undo (c : AppliedPatchChange P) f : P → option str :=
  let p := change_path c in
  match change c with
  | ChangeAdd _ overwritten => upd p overwritten f
  | ChangeDelete content => upd p (Some content) f
  | ChangeUpdate None old _ _ => upd p (Some old) f
  | ChangeUpdate (Some dest) old overwritten _ => upd p (Some old) (upd dest overwritten f)
  end.

Definition redo_all (cs : list (AppliedPatchChange P)) f : P → option str :=
  foldl (λ f c, redo c f) f cs.

Definition undo_all (cs : list (AppliedPatchChange P)) f : P → option str := foldr undo f cs.

(** Every change records what it replaced: undoing it right after it was made
    changes nothing. *)
Fixpoint coherent (cs : list (AppliedPatchChange P)) f : Prop :=
  match cs with
  | [] => True
  | c :: cs => (∀ q, undo c (redo c f) q = f q) ∧ coherent cs (redo c f)
  end.

(** [before] becomes [after] by the changes, [after] becomes [before] by undoing them
    from the last to the first, and each of them records what it replaced. *)
Definition describes (cs : list (AppliedPatchChange P)) (before after : P → option str) : Prop :=
  (∀ q, redo_all cs before q = after q) ∧ (∀ q, undo_all cs after q = before q)
  ∧ coherent cs before.

Lemma upd_ext p v f g : (∀ q, f q = g q) → ∀ q, upd p v f q = upd p v g q.
Proof. intros H q. unfold upd. by case_decide. Qed.

Lemma redo_ext c f g : (∀ q, f q = g q) → ∀ q, redo c f q = redo c g q.
Proof. intros H. unfold redo. destruct (change c) as [| |[]]; by repeat apply upd_ext. Qed.

Lemma undo_ext c f g : (∀ q, f q = g q) → ∀ q, undo c f q = undo c g q.
Proof. intros H. unfold undo. destruct (change c) as [| |[]]; by repeat apply upd_ext. Qed.

Lemma undo_all_ext cs f g : (∀ q, f q = g q) → ∀ q, undo_all cs f q = undo_all cs g q.
Proof. intros H. induction cs as [|c cs IH]; simpl; [done|]. by apply undo_ext. Qed.

Lemma redo_all_ext cs f g : (∀ q, f q = g q) → ∀ q, redo_all cs f q = redo_all cs g q.
Proof.
  revert f g. induction cs as [|c cs IH]; intros f g H; simpl; [done|]. by apply IH, redo_ext.
Qed.

Lemma redo_all_app cs cs' f : redo_all (cs ++ cs') f = redo_all cs' (redo_all cs f).
Proof. apply foldl_app. Qed.

Lemma coherent_ext cs f g : (∀ q, f q = g q) → coherent cs f → coherent cs g.
Proof.
  revert f g. induction cs as [|c cs IH]; intros f g H; simpl; [done|]. intros [Hc Hcs]. split.
  - intros q. rewrite <- H, <- Hc. apply undo_ext. intros q'. by apply redo_ext.
  - eapply IH; [|done]. by apply redo_ext.
Qed.

Lemma coherent_app cs cs' f :
  coherent (cs ++ cs') f ↔ coherent cs f ∧ coherent cs' (redo_all cs f).
Proof.
  revert f. induction cs as [|c cs IH]; intros f; simpl; [tauto|]. rewrite IH. tauto.
Qed.

Lemma describes_nil f g : (∀ q, g q = f q) → describes [] f g.
Proof. by split. Qed.

Lemma describes_app cs cs' f g h :
  describes cs f g → describes cs' g h → describes (cs ++ cs') f h.
Proof.
  intros (Hr & Hu & Hc) (Hr' & Hu' & Hc'). split; [|split].
  - intros q. rewrite redo_all_app, <- Hr'. by apply redo_all_ext.
  - intros q. unfold undo_all. rewrite foldr_app, <- Hu. by apply undo_all_ext.
  - apply coherent_app. split; [done|]. eapply coherent_ext; [|exact Hc']. intros q. by rewrite Hr.
Qed.

(** One more change. *)
Lemma describes_snoc cs c f g h :
  describes cs f g → (∀ q, h q = redo c g q) → (∀ q, undo c h q = g q) → describes (cs ++ [c]) f h.
Proof.
  intros Hd Hh Hc. eapply describes_app; [done|]. split; [by intros q; rewrite Hh|].
  split; [done|]. split; [|done]. intros q. rewrite <- Hc. apply undo_ext. intros q'. by rewrite Hh.
Qed.

Lemma describes_ext cs f g h : describes cs f g → (∀ q, h q = g q) → describes cs f h.
Proof.
  intros (Hr & Hu & Hc) H. split; [|split; [|done]]; intros q; [by rewrite Hr|].
  rewrite <- Hu. by apply undo_all_ext.
Qed.
End Delta.

(** * The delta of an application *)
Section Tracking.
Context {W P : Type} `{FS : ExecutorFileSystem W P} `{PU : PathUri P} `{CO : Console W}
  `{EqDecision P} {PF : PlainFiles W P}.
Abbreviation St := (ApplyState W P).
Abbreviation Files := (P → option str).
Abbreviation Changes := (list (AppliedPatchChange P)).
Implicit Types (f : Files) (D : Changes → Files → Prop) (K : Files → Prop) (h : Files → Files) (s : St).

(** While the delta is exact, its changes lead to some files [g], as [D] says, with
    [K g], and [h g] is on disk. *)
Definition tracks D K h s : Prop :=
  delta_exact (delta s) = true →
  ∃ g, D (delta_changes (delta s)) g ∧ K g ∧ ∀ q, file_at (world s) q = h g q.

(** The delta is exact for the files on disk. *)
Abbreviation from f := (λ cs g, describes cs f g).
Abbreviation tracked f := (tracks (from f) (λ _, True) id).

Lemma tracks_inexact D K h s : delta_exact (delta s) = false → tracks D K h s.
Proof. intros E E'. congruence. Qed.

Lemma tracks_set_inexact D K h s : tracks D K h (set_inexact s).
Proof. by apply tracks_inexact. Qed.

Lemma tracks_mono D K K' h s : (∀ g, K g → K' g) → tracks D K h s → tracks D K' h s.
Proof. intros HK H E. destruct (H E) as (g & Hd & Hk & Hw). eauto. Qed.

#[local] Hint Resolve tracks_set_inexact tracks_inexact : codex.

Lemma note_tracks D K h p fl :
  triple (tracks D K h) (note_existing_path_delta_support p fl)
    (λ _, tracks D K h) (λ _ _, False).
Proof.
  intros s Hs. unfold note_existing_path_delta_support, se_bind, se_get; simpl.
  destruct (get_metadata p fl (world s)); case_goal; simpl; auto with codex.
Qed.

Lemma read_optional_tracks D K p fl :
  triple (tracks D K id) (read_optional_file_text_for_delta p fl)
    (λ o, tracks D (λ g, K g ∧ g p = o) id) (λ _ _, False).
Proof.
  unfold read_optional_file_text_for_delta. eapply triple_bind; [apply note_tracks|].
  intros _ s Hs. unfold se_bind, se_get; simpl.
  destruct (read_file_text p fl (world s)) as [c|e] eqn:Er; [|case_goal].
  - intros E. destruct (Hs E) as (g & Hd & Hk & Hw). exists g. split; [done|]. split; [|done]. split; [done|].
    rewrite <- (read_ok _ _ _ _ Er). by rewrite Hw.
  - bool_props. intros E. destruct (Hs E) as (g & Hd & Hk & Hw). exists g. split; [done|]. split; [|done]. split; [done|].
    rewrite <- (read_not_found _ _ _ _ Er) by done. by rewrite Hw.
  - simpl. auto with codex.
Qed.

(** A write that succeeds puts the contents at its path. *)
Definition wrote D K p c (r : Result unit (AnyError (PathUriParseError P))) s : Prop :=
  match r with
  | Ok _ => tracks D K (upd p (Some c)) s
  | Err _ => True
  end.

Lemma write_tracks D K p c fl s w' u :
  tracks D K id s → write_file p c fl (world s) = (w', Ok u) →
  tracks D K (upd p (Some c)) (mkApply w' (delta s)).
Proof.
  intros Hs Hw E. destruct (Hs E) as (g & Hd & Hk & Hg). exists g. split; [done|]. split; [done|].
  simpl. intros q. rewrite (write_ok _ _ _ _ _ _ q Hw), Hg. done.
Qed.

Lemma tracks_same_files D K h s w' :
  tracks D K h s → (∀ q, file_at w' q = file_at (world s) q) →
  tracks D K h (mkApply w' (delta s)).
Proof.
  intros Hs Hw E. destruct (Hs E) as (g & Hd & Hk & Hg). exists g. split; [done|]. split; [done|].
  simpl. intros q. by rewrite Hw, Hg.
Qed.

Lemma write_retry_tracks D K p c fl :
  triple (tracks D K id) (write_file_with_missing_parent_retry p c fl)
    (wrote D K p c) (λ _ _, False).
Proof.
  intros s Hs. unfold write_file_with_missing_parent_retry, se_bind, fs_op.
  destruct (write_file p c fl (world s)) as [w1 [u|e]] eqn:E1; [by eapply write_tracks|].
  case_bool_decide; [|done].
  assert (H1 : tracks D K id (mkApply w1 (delta s)))
    by (eapply tracks_same_files; [done|intros q; by eapply write_not_found]).
  assert (H2 : ∀ w2, (∀ q, file_at w2 q = file_at w1 q) →
    match write_file p c fl w2 with
    | (w3, Ok _) => tracks D K (upd p (Some c)) (mkApply w3 (delta s))
    | _ => True
    end).
  { intros w2 Hw2. destruct (write_file p c fl w2) as [w3 [u|]] eqn:E3; [|done].
    eapply (write_tracks _ _ _ _ _ (mkApply w2 (delta s))); [|exact E3].
    by apply (tracks_same_files _ _ _ (mkApply w1 (delta s))). }
  destruct (path_parent p) as [d|]; simpl.
  - specialize (H2 (create_directory d fl w1).1 (mkdir_files w1 d fl)).
    destruct (create_directory d fl w1) as [w2 [u|e2]]; simpl in *; [|done].
    by destruct (write_file p c fl w2) as [w3 [u3|e3]].
  - specialize (H2 w1 (λ _, eq_refl)). by destruct (write_file p c fl w1) as [w3 [u3|e3]].
Qed.

Lemma try_write_tracks D f0 K p c Pre m :
  triple Pre m (wrote D K p c) (λ _ _, False) →
  triple Pre (try_write m) (λ _, tracks D K (upd p (Some c))) (λ _, tracked f0).
Proof.
  intros Hm. unfold try_write. eapply triple_bind; [eapply triple_weaken; [apply Hm|done..]|].
  intros [u|e] s Hs; [done|]. simpl. auto with codex.
Qed.

(** Recording the change that was made. *)
Lemma push_change_tracks f0 K h c :
  (∀ g, K g → (∀ q, h g q = redo c g q) ∧ (∀ q, undo c (h g) q = g q)) →
  triple (tracks (from f0) K h) (se_modify (push_change c) : SE _ _ (Abort (PathUriParseError P)))
    (λ _, tracked f0) (λ _, tracked f0).
Proof.
  intros Hc s Hs E. destruct (Hs E) as (g & Hd & Hk & Hg). destruct (Hc g Hk) as [H1 H2].
  exists (h g). split; [|done]. by eapply describes_snoc.
Qed.

Lemma upd_same p v (g : Files) : upd p v g p = v.
Proof. unfold upd. by rewrite decide_True. Qed.

Lemma upd_undo p v o (g : Files) : g p = o → ∀ q, upd p o (upd p v g) q = g q.
Proof. intros Ho q. unfold upd. repeat case_decide; congruence. Qed.

Lemma apply_add_tracks f0 p c opts :
  triple (tracked f0) (apply_add p c opts) (λ _, tracked f0) (λ _, tracked f0).
Proof.
  unfold apply_add. eapply triple_bind.
  { eapply triple_weaken; [apply read_optional_tracks|done..]. }
  intros o. eapply triple_bind; [eapply try_write_tracks, write_retry_tracks|].
  intros ?. apply push_change_tracks. intros g [_ Ho]. split; [done|].
  simpl. by apply upd_undo.
Qed.

Lemma require_not_directory_tracks (I : St → Prop) p fl ctx :
  triple I (require_not_directory p fl ctx) (λ _, I) (λ _, I).
Proof.
  intros s Hs. unfold require_not_directory, se_bind, se_get; simpl.
  by destruct (ensure_not_directory p fl (world s)).
Qed.

(** Removing [p]: afterwards it is gone, or the error leaves the files as they
    were or the delta inexact. *)
Lemma remove_tracks D K h p fl expected ctx :
  triple (tracks D K h) (remove_or_fail p fl expected ctx)
    (λ _, tracks D K (λ g, upd p None (h g))) (λ _, tracks D K h).
Proof.
  intros s Hs. unfold remove_or_fail, se_bind, fs_op, se_get.
  destruct (remove p fl (world s)) as [w' [u|e]] eqn:Er; simpl.
  - intros E. destruct (Hs E) as (g & Hd & Hk & Hg). exists g. split; [done|]. split; [done|].
    intros q. simpl. by rewrite (remove_ok _ _ _ _ _ q Er), Hg.
  - destruct (remove_failure_was_side_effect_free p expected fl w') eqn:Ef; simpl; [|auto with codex].
    apply tracks_same_files; [done|]. intros q.
    destruct (remove_err _ _ _ _ _ q Er) as [?|[-> Hn]]; [done|].
    unfold remove_failure_was_side_effect_free in Ef. destruct expected as [x|]; [|done].
    destruct (read_file_text p fl w') as [x'|] eqn:Ex; [|done].
    apply read_ok in Ex. congruence.
Qed.

(** What a successful read says about the files. *)
Lemma read_tracks D K p fl c s :
  tracks D K id s → read_file_text p fl (world s) = Ok c →
  tracks D (λ g, K g ∧ g p = Some c) id s.
Proof.
  intros Hs Er E. destruct (Hs E) as (g & Hd & Hk & Hg). exists g. split; [done|].
  split; [|done]. split; [done|]. rewrite <- (read_ok _ _ _ _ Er). by rewrite Hg.
Qed.

Lemma apply_delete_tracks f0 p opts :
  triple (tracked f0) (apply_delete p opts) (λ _, tracked f0) (λ _, tracked f0).
Proof.
  unfold apply_delete. eapply triple_bind; [eapply triple_weaken; [apply note_tracks|done..]|].
  intros ?. apply triple_get_bind. intros s Hs.
  destruct (read_file_text p (follow_symlinks opts) (world s)) as [c|e] eqn:Er.
  - apply (triple_pre _ (tracks (from f0) (λ g, True ∧ g p = Some c) id));
      [|intros ? ->; by eapply read_tracks].
    apply triple_ret_bind.
    eapply triple_bind.
    { eapply triple_weaken; [apply require_not_directory_tracks|done..|].
      intros ? ?. by apply tracks_mono. }
    intros ?. eapply triple_bind.
    { eapply triple_weaken; [apply remove_tracks|done..|]. intros ? ?. by apply tracks_mono. }
    intros ?. apply push_change_tracks. intros g [_ Hg]. split; [done|]. by apply upd_undo.
  - eapply (triple_bind _ _ _ (λ _, tracks (from f0) (λ _, False) id));
      [apply triple_modify; auto with codex|]. intros ?.
    eapply triple_bind.
    { eapply triple_weaken; [apply require_not_directory_tracks|done..|].
      intros ? ?. by apply tracks_mono. }
    intros ?. eapply triple_bind.
    { eapply triple_weaken; [apply remove_tracks|done..|]. intros ? ?. by apply tracks_mono. }
    intros ?. apply triple_ret. intros s' H' E'. by destruct (H' E') as (? & _ & ? & _).
Qed.

(** The rest of a move once the destination [d] is written: the change pushed for
    the destination is replaced when the source [p] is removed. *)
Definition commit_move (p d : P) (fl : bool) (original new : str) (o : option str) (ctx : str)
    : SE St unit (Abort (PathUriParseError P)) :=
  s <-- se_get ;;
  let index := length (delta_changes (delta s)) in
  se_modify (push_change (mkChange d (ChangeAdd new o))) ;;;
  require_not_directory p fl ctx ;;;
  remove_or_fail p fl (Some original) ctx ;;;
  se_modify (set_change index (mkChange p (ChangeUpdate (Some d) original o new))).

(** The changes end with the one pushed for the destination. *)
Definition pending f0 (i : nat) (c : AppliedPatchChange P) (cs : Changes) (g : Files) : Prop :=
  ∃ cs0, cs = cs0 ++ [c] ∧ length cs0 = i ∧ describes cs0 f0 g.

Lemma pending_abandon f0 i d new o s :
  tracks (pending f0 i (mkChange d (ChangeAdd new o))) (λ g, g d = o) (upd d (Some new)) s →
  tracked f0 s.
Proof.
  intros Hs E. destruct (Hs E) as (g & (cs & -> & _ & Hd) & Ho & Hg).
  exists (upd d (Some new) g). split; [|done]. eapply describes_snoc; [done|done|].
  by apply upd_undo.
Qed.

Lemma commit_move_tracks f0 p d fl original new o ctx :
  triple (tracks (from f0) (λ g, g p = Some original ∧ g d = o) (upd d (Some new)))
    (commit_move p d fl original new o ctx) (λ _, tracked f0) (λ _, tracked f0).
Proof.
  set (K := λ g : Files, g p = Some original ∧ g d = o).
  apply triple_get_bind. intros s0 Hs0. set (i := length (delta_changes (delta s0))).
  set (D := pending f0 i (mkChange d (ChangeAdd new o))).
  assert (Hbad : ∀ s, tracks D K (upd d (Some new)) s → tracked f0 s).
  { intros s Hs. eapply pending_abandon, tracks_mono; [|done]. by intros g [_ ?]. }
  eapply (triple_bind _ _ _ (λ _, tracks D K (upd d (Some new)))).
  { apply triple_modify. intros ? -> E. destruct (Hs0 E) as (g & Hd & Hk & Hg).
    exists g. split; [by eexists|done]. }
  intros ?. eapply triple_bind.
  { eapply triple_weaken;
      [apply (require_not_directory_tracks (tracks D K (upd d (Some new))))|done..|].
    intros ?. apply Hbad. }
  intros ?. eapply triple_bind.
  { eapply triple_weaken; [apply (remove_tracks D K (upd d (Some new)))|done..|].
    intros ?. apply Hbad. }
  intros ?. apply triple_modify. intros s Hs E.
  destruct (Hs E) as (g & (cs & Hcs & Hi & Hd) & [Hp Ho] & Hg).
  exists (upd p None (upd d (Some new) g)). split; [|done]. simpl. rewrite Hcs, <- Hi.
  rewrite insert_app_r_alt, Nat.sub_diag by lia. simpl.
  eapply describes_snoc; [done|done|]. intros q. unfold undo, upd. simpl.
  repeat case_decide; congruence.
Qed.

Lemma apply_update_tracks f0 p mv chunks opts cwd :
  triple (tracked f0) (apply_update p mv chunks opts cwd) (λ _, tracked f0) (λ _, tracked f0).
Proof.
  unfold apply_update. eapply triple_bind; [eapply triple_weaken; [apply note_tracks|done..]|].
  intros ?. apply triple_get_bind. intros s Hs.
  destruct (derive_new_contents_from_chunks _ _ _ _ _) as [[[original new]|e]|] eqn:Ed;
    [|apply triple_fail; by intros ? ->..].
  assert (Hr : read_file_text p (follow_symlinks opts) (world s) = Ok original).
  { unfold derive_new_contents_from_chunks in Ed.
    destruct (read_file_text _ _ _) as [x|]; [|done].
    destruct (derive_new_contents _ x _ _) as [[]|]; simpl in Ed; congruence. }
  apply (triple_pre _ (tracks (from f0) (λ g, True ∧ g p = Some original) id));
    [|intros ? ->; by eapply read_tracks].
  destruct mv as [dest|].
  - eapply (triple_bind _ _ _ (λ _, tracks (from f0) (λ g, True ∧ g p = Some original) id)).
    { apply triple_lift. intros s' Hs'. destruct (path_join cwd dest); simpl; [done|].
      by eapply tracks_mono. }
    intros d. eapply triple_bind; [eapply triple_weaken; [apply read_optional_tracks|done..]|].
    intros o. eapply triple_bind; [eapply try_write_tracks, write_retry_tracks|].
    intros ?. eapply triple_pre; [apply commit_move_tracks|].
    intros s'. apply tracks_mono. tauto.
  - eapply triple_bind.
    { eapply try_write_tracks. intros s' Hs'. unfold se_bind, fs_op.
      destruct (write_file _ _ _ _) as [w' [u|e]] eqn:Ew; simpl; [by eapply write_tracks|done]. }
    intros ?. apply push_change_tracks. intros g [_ Hg]. split; [done|]. by apply upd_undo.
Qed.

Lemma apply_hunk_tracks f0 hunk opts cwd acc :
  triple (tracked f0) (apply_hunk hunk opts cwd acc) (λ _, tracked f0) (λ _, tracked f0).
Proof.
  unfold apply_hunk. eapply (triple_bind _ _ _ (λ _, tracked f0)).
  { apply triple_lift. intros s Hs. by destruct (resolve_path hunk cwd). }
  intros path. destruct hunk; (eapply triple_bind;
    [first [apply apply_add_tracks|apply apply_delete_tracks|apply apply_update_tracks]
    |intros ?; by apply triple_ret]).
Qed.

Lemma apply_hunk_loop_tracks f0 hs opts cwd acc :
  triple (tracked f0) (apply_hunk_loop hs opts cwd acc) (λ _, tracked f0) (λ _, tracked f0).
Proof.
  revert acc. induction hs as [|hunk hs IH]; intros acc; simpl; [by apply triple_ret|].
  eapply triple_bind; [apply apply_hunk_tracks|]. intros acc'. apply IH.
Qed.

Lemma write_lines_files ls w q : file_at (write_lines ls w).1 q = file_at w q.
Proof.
  revert w. induction ls as [|l ls IH]; intros w; simpl; [done|].
  pose proof (stdout_files (l ++ [LF]) w q) as Hl.
  destruct (write_stdout (l ++ [LF]) w) as [w' [u|e]]; simpl in *; [|done]. by rewrite IH.
Qed.

(** The delta a run reports. *)
Definition outcome_delta (r : @ApplyOutcome P _) : option (AppliedPatchDelta P) :=
  match r with
  | Applied d => Some d
  | Failed _ d => Some d
  | Panicked => None
  end.

Lemma apply_hunks_delta hs opts cwd w w' r d :
  apply_hunks_with_options hs opts cwd w = (w', r) → outcome_delta r = Some d →
  delta_exact d = true → describes (delta_changes d) (file_at w) (file_at w').
Proof.
  unfold apply_hunks_with_options, apply_hunks_to_files.
  assert (H0 : tracked (file_at w) (mkApply w empty_delta)).
  { intros _. exists (file_at w). split; [by apply describes_nil|done]. }
  assert (Hd : ∀ s w1, tracked (file_at w) s → (∀ q, file_at w1 q = file_at (world s) q) →
    delta_exact (delta s) = true → describes (delta_changes (delta s)) (file_at w) (file_at w1)).
  { intros s w1 Hs Hw E. destruct (Hs E) as (g & Hd & _ & Hg). eapply describes_ext; [done|].
    intros q. by rewrite Hw, Hg. }
  destruct (is_empty hs).
  - unfold raise, se_fail. simpl.
    match goal with |- context [write_stderr ?x w] =>
      pose proof (stderr_files x w) as Hx; destruct (write_stderr x w) as [w1 [u|e]] end;
      intros [= <- <-] [= <-]; by eapply (Hd (mkApply w empty_delta)).
  - pose proof (apply_hunk_loop_tracks (file_at w) hs opts cwd (mkAffected [] [] []) _ H0) as Hl.
    destruct (apply_hunk_loop hs opts cwd _ _) as [s [a|[e|]]]; [| |by intros [= <- <-]].
    + unfold print_summary. pose proof (write_lines_files (summary_lines a) (world s)) as Hx.
      destruct (write_lines _ _) as [w1 [u|e]]; intros [= <- <-] [= <-]; by apply (Hd s).
    + match goal with |- context [write_stderr ?x _] =>
        pose proof (stderr_files x (world s)) as Hx;
        destruct (write_stderr x (world s)) as [w1 [u|e']] end;
        intros [= <- <-] [= <-]; by apply (Hd s).
Qed.

Lemma apply_patch_describes patch opts cwd w w' r d :
  apply_patch_with_options patch opts cwd w = (w', r) → outcome_delta r = Some d →
  delta_exact d = true → describes (delta_changes d) (file_at w) (file_at w').
Proof.
  unfold apply_patch_with_options. destruct (parse_patch patch) as [a|e]; [apply apply_hunks_delta|].
  match goal with |- context [write_stderr ?x w] =>
    pose proof (stderr_files x w) as Hx; destruct (write_stderr x w) as [w1 [u|e']] end;
    intros [= <- <-] [= <-] _; by apply describes_nil.
Qed.

(** C3: If a run of [apply_patch_with_options] reports an exact delta, then, whether
    it succeeded or failed, replaying the delta's changes on the files before the
    run gives the files after it, and undoing them in reverse order restores the
    files before the run. *)
Theorem exact_delta_describes_run patch opts cwd w w' r d :
  apply_patch_with_options patch opts cwd w = (w', r) → outcome_delta r = Some d →
  delta_exact d = true →
  (∀ q, redo_all (delta_changes d) (file_at w) q = file_at w' q) ∧
  (∀ q, undo_all (delta_changes d) (file_at w') q = file_at w q).
Proof.
  intros Hr Hd He. destruct (apply_patch_describes _ _ _ _ _ _ _ Hr Hd He) as (H1 & H2 & _).
  by split.
Qed.
End Tracking.

(** * The effect of a successful application *)
Section Effect.
Context {W P : Type} `{FS : ExecutorFileSystem W P} `{PU : PathUri P} `{CO : Console W}
  `{EqDecision P} {PF : PlainFiles W P}.
Abbreviation St := (ApplyState W P).
Abbreviation Files := (P → option str).
Implicit Types (f : Files) (s : St).

(** The specification: what a hunk means for the files. An update needs a file and
    replaces its text by the derived text, at the destination of a move; the source
    of a move goes away. *)
Definition hunk_effect (m : ApplyPatchFileUpdateMode) (cwd : P) (h : Hunk) f : option Files :=
  match path_join cwd (hunk_source_path h) with
  | Err _ => None
  | Ok u =>
      match h with
      | AddFile _ contents => Some (upd u (Some contents) f)
      | DeleteFile _ => Some (upd u None f)
      | UpdateFile _ mv chunks =>
          original ← f u;
          match derive_new_contents (native_path_string u) original chunks m with
          | Some (Ok new) =>
              match mv with
              | None => Some (upd u (Some new) f)
              | Some dest =>
                  match path_join cwd dest with
                  | Ok d => Some (upd u None (upd d (Some new) f))
                  | Err _ => None
                  end
              end
          | _ => None
          end
      end
  end.

Fixpoint patch_effect (m : ApplyPatchFileUpdateMode) (cwd : P) (hs : list Hunk) f : option Files :=
  match hs with
  | [] => Some f
  | h :: hs => f' ← hunk_effect m cwd h f; patch_effect m cwd hs f'
  end.

Definition hunk_kind (h : Hunk) : nat :=
  match h with
  | AddFile _ _ => 0
  | UpdateFile _ _ _ => 1
  | DeleteFile _ => 2
  end.

(** The paths of the hunks of a kind, in the order of the patch. *)
Definition paths_of_kind (k : nat) (hs : list Hunk) : list str :=
  hunk_path <$> filter (λ h, hunk_kind h = k) hs.

Definition affected_by (hs : list Hunk) : AffectedPaths :=
  mkAffected (paths_of_kind 0 hs) (paths_of_kind 1 hs) (paths_of_kind 2 hs).

Definition on_disk f s : Prop := ∀ q, file_at (world s) q = f q.

Lemma note_on_disk f p fl :
  triple (on_disk f) (note_existing_path_delta_support p fl) (λ _, on_disk f) (λ _ _, True).
Proof.
  intros s Hs. unfold note_existing_path_delta_support, se_bind, se_get; simpl.
  by destruct (get_metadata p fl (world s)); case_goal.
Qed.

Lemma read_optional_on_disk f p fl :
  triple (on_disk f) (read_optional_file_text_for_delta p fl) (λ _, on_disk f) (λ _ _, True).
Proof.
  unfold read_optional_file_text_for_delta. eapply triple_bind; [apply note_on_disk|].
  intros ? s Hs. unfold se_bind, se_get; simpl.
  destruct (read_file_text p fl (world s)); [done|]. by case_goal.
Qed.

Lemma write_on_disk f p c fl s w' u :
  on_disk f s → write_file p c fl (world s) = (w', Ok u) →
  on_disk (upd p (Some c) f) (mkApply w' (delta s)).
Proof. intros Hs Hw q. simpl. by rewrite (write_ok _ _ _ _ _ _ q Hw), Hs. Qed.

Lemma write_retry_on_disk f p c fl :
  triple (on_disk f) (write_file_with_missing_parent_retry p c fl)
    (λ r s, is_ok r = true → on_disk (upd p (Some c) f) s) (λ _ _, True).
Proof.
  intros s Hs. unfold write_file_with_missing_parent_retry, se_bind, fs_op.
  destruct (write_file p c fl (world s)) as [w1 [u|e]] eqn:E1;
    [simpl; intros _; by eapply write_on_disk|].
  case_bool_decide; [|done].
  assert (H1 : ∀ q, file_at w1 q = f q)
    by (intros q; rewrite <- Hs; by eapply write_not_found).
  assert (H2 : ∀ w2 w3 u, (∀ q, file_at w2 q = file_at w1 q) → write_file p c fl w2 = (w3, Ok u) →
    on_disk (upd p (Some c) f) (mkApply w3 (delta s))).
  { intros w2 w3 u Hw2. apply (write_on_disk f p c fl (mkApply w2 (delta s))).
    intros q. simpl. by rewrite Hw2. }
  destruct (path_parent p) as [d|]; simpl.
  - pose proof (mkdir_files w1 d fl) as Hm.
    destruct (create_directory d fl w1) as [w2 [u|e2]]; simpl in *; [|done].
    destruct (write_file p c fl w2) as [w3 [u3|e3]] eqn:E3; [|done]. intros _. by eapply H2.
  - destruct (write_file p c fl w1) as [w3 [u3|e3]] eqn:E3; [|done]. intros _. by eapply H2.
Qed.

Lemma try_write_on_disk f m Pre :
  triple Pre m (λ r s, is_ok r = true → on_disk f s) (λ _ _, True) →
  triple Pre (try_write m) (λ _, on_disk f) (λ _ _, True).
Proof.
  intros Hm. unfold try_write. eapply triple_bind; [done|]. intros [u|e] s Hs; [by apply Hs|done].
Qed.

Lemma require_not_directory_on_disk f p fl ctx :
  triple (on_disk f) (require_not_directory p fl ctx) (λ _, on_disk f) (λ _ _, True).
Proof. eapply triple_weaken; [apply require_not_directory_tracks|done..]. Qed.

Lemma remove_on_disk f p fl expected ctx :
  triple (on_disk f) (remove_or_fail p fl expected ctx) (λ _, on_disk (upd p None f)) (λ _ _, True).
Proof.
  intros s Hs. unfold remove_or_fail, se_bind, fs_op, se_get.
  destruct (remove p fl (world s)) as [w' [u|e]] eqn:Er; simpl.
  - intros q. simpl. by rewrite (remove_ok _ _ _ _ _ q Er), Hs.
  - by destruct (remove_failure_was_side_effect_free p expected fl w').
Qed.

#[local] Hint Resolve note_on_disk read_optional_on_disk write_retry_on_disk
  require_not_directory_on_disk remove_on_disk : codex.

Lemma apply_add_on_disk f p c opts :
  triple (on_disk f) (apply_add p c opts) (λ _, on_disk (upd p (Some c) f)) (λ _ _, True).
Proof.
  unfold apply_add. eapply triple_bind; [auto with codex|]. intros ?.
  eapply triple_bind; [apply try_write_on_disk; auto with codex|]. intros ?.
  by apply triple_modify.
Qed.

Lemma apply_delete_on_disk f p opts :
  triple (on_disk f) (apply_delete p opts) (λ _, on_disk (upd p None f)) (λ _ _, True).
Proof.
  unfold apply_delete. eapply triple_bind; [auto with codex|]. intros ?.
  apply triple_get_bind. intros s Hs. apply (triple_pre _ (on_disk f)); [|by intros ? ->].
  eapply (triple_bind _ _ _ (λ _, on_disk f)).
  { case_goal; [by apply triple_ret|by apply triple_modify]. }
  intros ?. eapply triple_bind; [auto with codex|]. intros ?.
  eapply triple_bind; [auto with codex|]. intros ?.
  case_goal; [by apply triple_modify|by apply triple_ret].
Qed.

Lemma apply_update_on_disk f path p mv chunks opts cwd :
  path_join cwd path = Ok p →
  triple (on_disk f) (apply_update p mv chunks opts cwd)
    (λ _ s, ∃ f', hunk_effect (update_file_mode opts) cwd (UpdateFile path mv chunks) f = Some f'
      ∧ on_disk f' s) (λ _ _, True).
Proof.
  intros Hp. unfold apply_update, hunk_effect. simpl. rewrite Hp.
  eapply triple_bind; [auto with codex|]. intros ?.
  apply triple_get_bind. intros s Hs.
  destruct (derive_new_contents_from_chunks _ _ _ _ _) as [[[original new]|e]|] eqn:Ed;
    [|by apply triple_fail..].
  unfold derive_new_contents_from_chunks in Ed.
  destruct (read_file_text p _ _) as [x|] eqn:Er; [|done]. apply read_ok in Er.
  rewrite Hs in Er. rewrite Er. simpl.
  destruct (derive_new_contents _ x _ _) as [[new'|]|]; simplify_eq/=.
  apply (triple_pre _ (on_disk f)); [|by intros ? ->]. destruct mv as [dest|].
  - eapply (triple_bind _ _ _ (λ d s, path_join cwd dest = Ok d ∧ on_disk f s)).
    { apply triple_lift. intros s' Hs'. by destruct (path_join cwd dest). }
    intros d. eapply (triple_pre _ (λ s, path_join cwd dest = Ok d ∧ on_disk f s)); [|done].
    intros s0 [Hd Hs0]. rewrite Hd. revert s0 Hs0.
    match goal with |- ∀ s0, _ → match ?m s0 with _ => _ end =>
      change (triple (on_disk f) m (λ _ s, ∃ f', Some (upd p None (upd d (Some new) f)) = Some f'
        ∧ on_disk f' s) (λ _ _, True)) end.
    eapply triple_bind; [auto with codex|]. intros ?.
    eapply triple_bind; [apply try_write_on_disk; auto with codex|]. intros ?.
    apply triple_get_bind. intros s1 Hs1.
    apply (triple_pre _ (on_disk (upd d (Some new) f))); [|by intros ? ->].
    eapply (triple_bind _ _ _ (λ _, on_disk (upd d (Some new) f))); [by apply triple_modify|].
    intros ?. eapply triple_bind; [auto with codex|]. intros ?.
    eapply triple_bind; [auto with codex|]. intros ?. apply triple_modify. eauto.
  - eapply triple_bind.
    { eapply (try_write_on_disk (upd p (Some new) f)). intros s' Hs'. unfold se_bind, fs_op.
      destruct (write_file _ _ _ _) as [w' [u|e]] eqn:Ew; simpl; [|done].
      intros _. by eapply write_on_disk. }
    intros ?. apply triple_modify. eauto.
Qed.

Lemma apply_hunk_on_disk f h opts cwd acc :
  triple (on_disk f) (apply_hunk h opts cwd acc)
    (λ acc' s, ∃ f', hunk_effect (update_file_mode opts) cwd h f = Some f' ∧ on_disk f' s
      ∧ added acc' = added acc ++ paths_of_kind 0 [h]
      ∧ modified acc' = modified acc ++ paths_of_kind 1 [h]
      ∧ deleted acc' = deleted acc ++ paths_of_kind 2 [h]) (λ _ _, True).
Proof.
  unfold apply_hunk, lift_path, resolve_path.
  destruct (path_join cwd (hunk_source_path h)) as [p|e] eqn:Hp; [|by intros s Hs].
  intros s Hs. unfold se_bind at 1, se_lift. simpl. revert s Hs.
  destruct h as [path contents|path|path mv chunks]; simpl in Hp.
  - eapply triple_bind; [apply apply_add_on_disk|]. intros ?. apply triple_ret. intros s Hs.
    exists (upd p (Some contents) f). unfold hunk_effect. simpl. rewrite Hp.
    by rewrite !app_nil_r.
  - eapply triple_bind; [apply apply_delete_on_disk|]. intros ?. apply triple_ret. intros s Hs.
    exists (upd p None f). unfold hunk_effect. simpl. rewrite Hp. by rewrite !app_nil_r.
  - eapply triple_bind; [by apply apply_update_on_disk|]. intros ?. apply triple_ret.
    intros s (f' & Hf' & Hs). exists f'. simpl. by rewrite !app_nil_r.
Qed.

Lemma paths_of_kind_cons k h hs : paths_of_kind k (h :: hs) = paths_of_kind k [h] ++ paths_of_kind k hs.
Proof.
  unfold paths_of_kind. by rewrite <- fmap_app, <- filter_app.
Qed.

Lemma apply_hunk_loop_on_disk hs f opts cwd acc :
  triple (on_disk f) (apply_hunk_loop hs opts cwd acc)
    (λ acc' s, ∃ f', patch_effect (update_file_mode opts) cwd hs f = Some f' ∧ on_disk f' s
      ∧ acc' = mkAffected (added acc ++ paths_of_kind 0 hs) (modified acc ++ paths_of_kind 1 hs)
          (deleted acc ++ paths_of_kind 2 hs)) (λ _ _, True).
Proof.
  revert f acc. induction hs as [|h hs IH]; intros f acc; simpl.
  - apply triple_ret. intros s Hs. exists f. unfold paths_of_kind. simpl.
    rewrite !app_nil_r. by destruct acc.
  - eapply triple_bind; [apply apply_hunk_on_disk|].
    intros acc1 s (f1 & Hf1 & Hs & Ha & Hm & Hd). rewrite Hf1.
    specialize (IH f1 acc1 s Hs). destruct (apply_hunk_loop hs opts cwd acc1 s) as [s2 [a|e]]; [|done].
    destruct IH as (f2 & Hf2 & Hs2 & ->). exists f2. split; [done|]. split; [done|].
    rewrite Ha, Hm, Hd, <- !app_assoc, <- !paths_of_kind_cons. done.
Qed.

Lemma apply_hunks_success hs opts cwd w w' d :
  apply_hunks_with_options hs opts cwd w = (w', Applied d) →
  ∃ f' w1, hs ≠ [] ∧ patch_effect (update_file_mode opts) cwd hs (file_at w) = Some f'
    ∧ (∀ q, file_at w' q = f' q) ∧ print_summary (affected_by hs) w1 = (w', Ok tt).
Proof.
  unfold apply_hunks_with_options, apply_hunks_to_files. destruct (is_empty hs) eqn:Ee.
  { unfold raise, se_fail. simpl. by repeat case_goal. }
  pose proof (apply_hunk_loop_on_disk hs (file_at w) opts cwd (mkAffected [] [] [])
    (mkApply w empty_delta) (λ _, eq_refl)) as Hl.
  destruct (apply_hunk_loop _ _ _ _ _) as [s [acc|[e|]]]; [|by repeat case_goal|done].
  destruct Hl as (f' & Hf & Hs & ->). simpl.
  match goal with |- context [print_summary ?x _] => change x with (affected_by hs) end.
  pose proof (write_lines_files (summary_lines (affected_by hs)) (world s)) as Hw.
  destruct (print_summary _ (world s)) as [w1 [[]|e]] eqn:Ep; intros [= <- <-].
  exists f', (world s). split; [by destruct hs|]. split; [done|].
  split; [|done]. intros q. rewrite <- Hs. unfold print_summary in Ep. by rewrite Ep in Hw.
Qed.

(** C35: A successful application refines the specification: the patch parsed to a
    nonempty list of hunks, the files afterwards are the ones [patch_effect]
    computes from the files before, and the last thing the run did was to print the
    summary that lists the added, modified and deleted paths in patch order. *)
Theorem successful_apply_refines_effect patch opts cwd w w' d :
  apply_patch_with_options patch opts cwd w = (w', Applied d) →
  ∃ a f' w1, parse_patch patch = Ok a ∧ args_hunks a ≠ []
    ∧ patch_effect (update_file_mode opts) cwd (args_hunks a) (file_at w) = Some f'
    ∧ (∀ q, file_at w' q = f' q)
    ∧ print_summary (affected_by (args_hunks a)) w1 = (w', Ok tt).
Proof.
  unfold apply_patch_with_options. destruct (parse_patch patch) as [a|e]; [|by repeat case_goal].
  intros H. apply apply_hunks_success in H as (f' & w1 & H). by exists a, f', w1.
Qed.

(** Moving a file onto its own path loses it: when the destination of a move
    names the file being updated, a successful application writes the new text and
    then removes it, and no file is left at that path. *)
Theorem self_move_removes_file patch path dest chunks opts cwd u w w' d a :
  parse_patch patch = Ok a → args_hunks a = [UpdateFile path (Some dest) chunks] →
  path_join cwd path = Ok u → path_join cwd dest = Ok u →
  apply_patch_with_options patch opts cwd w = (w', Applied d) → file_at w' u = None.
Proof.
  intros Hp Ha Hu Hd H. unfold apply_patch_with_options in H. rewrite Hp, Ha in H.
  apply apply_hunks_success in H as (f' & w1 & _ & Hf & Hw & _). rewrite Hw.
  simpl in Hf. unfold hunk_effect in Hf. simpl in Hf.
  rewrite Hu, Hd in Hf. destruct (file_at w u); [|done]. simpl in Hf.
  destruct (derive_new_contents _ _ _ _) as [[]|]; simplify_eq/=. apply upd_same.
Qed.
End Effect.

(** * No panics *)
Section NoPanic.
Context {W P : Type} `{FS : ExecutorFileSystem W P} `{PU : PathUri P} `{CO : Console W}.
Abbreviation AppT A := (SE (ApplyState W P) A (Abort (PathUriParseError P))).

(** Whatever the state, [m] does not panic. *)
Definition calm {A} (m : AppT A) : Prop := triple (λ _, True) m (λ _ _, True) (λ e _, e ≠ Panic).

Lemma calm_bind {A B} (m : AppT A) (k : A → AppT B) : calm m → (∀ a, calm (k a)) → calm (a <-- m ;; k a).
Proof. intros Hm Hk. by eapply triple_bind. Qed.

Lemma calm_ret {A} (a : A) : calm (se_ret a).
Proof. by intros s. Qed.

Lemma calm_get : calm se_get.
Proof. by intros s. Qed.

Lemma calm_modify f : calm (se_modify f).
Proof. by intros s. Qed.

Lemma calm_raise {A} e : calm (raise (A := A) e).
Proof. by intros s. Qed.

Lemma calm_fs_op op : calm (fs_op op).
Proof. intros s _. unfold fs_op. by destruct (op (world s)). Qed.

Lemma calm_lift_path {A} (r : Result A (PathUriParseError P)) : calm (lift_path r).
Proof. intros s _. by destruct r. Qed.

#[local] Hint Resolve calm_ret calm_get calm_modify calm_raise calm_fs_op calm_lift_path : codex.

Ltac calm_steps :=
  repeat first [progress auto with codex | apply calm_bind; [|intros ?] | case_goal].

Lemma calm_note p fl : calm (note_existing_path_delta_support p fl).
Proof. unfold note_existing_path_delta_support. calm_steps. Qed.

Lemma calm_read_optional p fl : calm (read_optional_file_text_for_delta p fl).
Proof. unfold read_optional_file_text_for_delta. pose proof calm_note. calm_steps. Qed.

Lemma calm_write p c fl : calm (try_write (write_file_with_missing_parent_retry p c fl)).
Proof. unfold try_write, write_file_with_missing_parent_retry. calm_steps. Qed.

Lemma calm_require p fl ctx : calm (require_not_directory p fl ctx).
Proof. unfold require_not_directory. calm_steps. Qed.

Lemma calm_remove p fl x ctx : calm (remove_or_fail p fl x ctx).
Proof. unfold remove_or_fail. calm_steps. Qed.

#[local] Hint Resolve calm_note calm_read_optional calm_write calm_require calm_remove : codex.

Lemma calm_apply_hunk h opts cwd acc : hunk_complete h → calm (apply_hunk h opts cwd acc).
Proof.
  intros Hh. unfold apply_hunk, apply_add, apply_delete, apply_update.
  apply calm_bind; [auto with codex|]. intros p. destruct h as [path c|path|path mv chunks].
  - calm_steps.
  - calm_steps.
  - destruct Hh as [_ Hh]. apply calm_bind; [|auto with codex].
    apply calm_bind; [auto with codex|]. intros ?. apply calm_bind; [auto with codex|]. intros s.
    destruct (derive_new_contents_from_chunks _ _ _ _ _) as [[[original new]|e]|] eqn:Ed.
    + destruct mv; [calm_steps|]. unfold try_write. calm_steps.
    + auto with codex.
    + exfalso. unfold derive_new_contents_from_chunks in Ed.
      destruct (read_file_text _ _ _) as [x|]; [|done].
      destruct (derive_new_contents_total (native_path_string p) x chunks (update_file_mode opts) Hh)
        as [r Hr]. rewrite Hr in Ed. by destruct r.
Qed.

Lemma calm_apply_hunk_loop hs opts cwd acc :
  Forall hunk_complete hs → calm (apply_hunk_loop hs opts cwd acc).
Proof.
  intros Hhs. revert acc. induction Hhs as [|h hs Hh Hhs IH]; intros acc; simpl; [auto with codex|].
  apply calm_bind; [by apply calm_apply_hunk|]. intros ?. apply IH.
Qed.

(** Applying a patch never panics: on every file system, path type and pair of
    output streams, whatever they answer, for every patch text and either update
    mode, [apply_patch_with_options] returns [Ok] or [Err]. *)
Theorem apply_patch_never_panics patch opts cwd (w : W) :
  (apply_patch_with_options patch opts cwd w).2 ≠ Panicked.
Proof.
  unfold apply_patch_with_options. destruct (parse_patch patch) as [a|e] eqn:Hp;
    [|by repeat case_goal].
  apply parse_patch_text_complete in Hp.
  unfold apply_hunks_with_options, apply_hunks_to_files. destruct (is_empty (args_hunks a)).
  { unfold raise, se_fail. simpl. by repeat case_goal. }
  pose proof (calm_apply_hunk_loop _ opts cwd (mkAffected [] [] []) Hp (mkApply w empty_delta) I) as Hl.
  destruct (apply_hunk_loop _ _ _ _ _) as [s [acc|[e|]]]; [by repeat case_goal..|done].
Qed.
End NoPanic.

(** * An in-memory file system

    Files by path, directories that need not exist, and the text written to the two
    streams: an instance of the interfaces on which the theorems can be run. *)
Record MemWorld : Type := mkMem {
  mem_files : gmap str str;
  mem_out : str;
  mem_err : str;
}.

Definition mem_missing : io_error := mkIoErr NotFound (lit "No such file or directory (os error 2)").

#[export] Instance MemFs : ExecutorFileSystem MemWorld str := {|
  read_file_text p _ w := ok_or (mem_files w !! p) mem_missing;
  get_metadata p _ w :=
    match mem_files w !! p with
    | Some _ => Ok (mkMetadata false true false)
    | None => Err mem_missing
    end;
  write_file p c _ w := (mkMem (<[p := c]> (mem_files w)) (mem_out w) (mem_err w), Ok tt);
  create_directory _ _ w := (w, Ok tt);
  remove p _ w :=
    match mem_files w !! p with
    | Some _ => (mkMem (delete p (mem_files w)) (mem_out w) (mem_err w), Ok tt)
    | None => (w, Err mem_missing)
    end;
|}.

#[export] Instance MemPath : PathUri str := {|
  PathUriParseError := Empty_set;
  path_error_text e := match e with end;
  path_join base rel :=
    if starts_with rel (lit "/") then Ok rel else Ok (base ++ lit "/" ++ rel);
  path_parent p := fst <$> rsplit_once p 47%N;
  native_path_string p := p;
|}.

#[export] Instance MemConsole : Console MemWorld := {|
  write_stdout s w := (mkMem (mem_files w) (mem_out w ++ s) (mem_err w), Ok tt);
  write_stderr s w := (mkMem (mem_files w) (mem_out w) (mem_err w ++ s), Ok tt);
|}.

#[export] Program Instance MemPlain : PlainFiles MemWorld str := {|
  file_at w p := mem_files w !! p;
|}.
Next Obligation. intros w p fl c. simpl. by destruct (mem_files w !! p); intros [= ->]. Qed.
Next Obligation. intros w p fl e. simpl. by destruct (mem_files w !! p). Qed.
Next Obligation.
  intros w p fl c w' u q [= <- _]. simpl. case_decide as Hq; [subst; by rewrite lookup_insert_eq|].
  by rewrite lookup_insert_ne.
Qed.
Next Obligation. done. Qed.
Next Obligation. done. Qed.
Next Obligation.
  intros w p fl w' u q. simpl. destruct (mem_files w !! p); [|done]. intros [= <- _]. simpl.
  case_decide as Hq; [subst; by rewrite lookup_delete_eq|]. by rewrite lookup_delete_ne.
Qed.
Next Obligation.
  intros w p fl w' e q. simpl. destruct (mem_files w !! p); [done|]. intros [= <- _]. by left.
Qed.
Next Obligation. done. Qed.
Next Obligation. done. Qed.

(** A patch that adds, updates, moves and deletes. *)
Definition sample_patch : str := join [LF]
  [lit "*** Begin Patch"; lit "*** Add File: new"; lit "+n"; lit "*** Update File: old";
   lit "*** Move to: moved"; lit "-a"; lit "+b"; lit "*** Delete File: gone"; lit "*** End Patch"].

Definition sample_world : MemWorld :=
  mkMem (<[lit "/w/old" := lit "a" ++ [LF]]> (<[lit "/w/gone" := lit "g"]> ∅)) [] [].

Definition sample_delta : AppliedPatchDelta str := mkDelta
  [mkChange (lit "/w/new") (ChangeAdd (lit "n" ++ [LF]) None);
   mkChange (lit "/w/old")
     (ChangeUpdate (Some (lit "/w/moved")) (lit "a" ++ [LF]) None (lit "b" ++ [LF]));
   mkChange (lit "/w/gone") (ChangeDelete (lit "g"))] true.

Definition sample_after : MemWorld :=
  mkMem (delete (lit "/w/gone") (delete (lit "/w/old") (<[lit "/w/moved" := lit "b" ++ [LF]]>
    (<[lit "/w/new" := lit "n" ++ [LF]]> (mem_files sample_world)))))
    (concat ((λ l, l ++ [LF]) <$> [lit "Success. Updated the following files:";
      lit "A new"; lit "M moved"; lit "D gone"])) [].

Lemma exact_delta_describes_run_witness :
  (∀ q, redo_all (delta_changes sample_delta) (file_at sample_world) q = file_at sample_after q) ∧
  (∀ q, undo_all (delta_changes sample_delta) (file_at sample_after) q = file_at sample_world q).
Proof.
  apply (exact_delta_describes_run sample_patch default_options (lit "/w")
    sample_world sample_after (Applied sample_delta) sample_delta); vm_compute; reflexivity.
Defined.

Lemma successful_apply_refines_effect_witness :
  ∃ a f' w1, parse_patch sample_patch = Ok a ∧ args_hunks a ≠ []
    ∧ patch_effect NormalizeToLf (lit "/w") (args_hunks a) (file_at sample_world) = Some f'
    ∧ (∀ q, file_at sample_after q = f' q)
    ∧ print_summary (affected_by (args_hunks a)) w1 = (sample_after, Ok tt).
Proof.
  apply (successful_apply_refines_effect sample_patch default_options (lit "/w")
    sample_world sample_after sample_delta). vm_compute. reflexivity.
Defined.

Definition self_move_patch : str := join [LF]
  [lit "*** Begin Patch"; lit "*** Update File: old"; lit "*** Move to: old"; lit "-a"; lit "+b";
   lit "*** End Patch"].

Lemma self_move_removes_file_witness :
  ∃ w', (apply_patch self_move_patch (lit "/w") sample_world).1 = w' ∧ file_at w' (lit "/w/old") = None.
Proof.
  eexists. split; [vm_compute; reflexivity|].
  eapply (self_move_removes_file self_move_patch (lit "old") (lit "old")
    [mkChunk None [lit "a"] [lit "b"] [] false] default_options (lit "/w") (lit "/w/old")
    sample_world); vm_compute; reflexivity.
Defined.
