(* ===== verification/Invocation.v ===== *)
(** [invocation.rs] of [codex-apply-patch]: recognizing an [apply_patch] call in a
    command line and computing, before anything is applied, the changes it would make.

    The Bash grammar of tree-sitter, the text of a unified diff and the path convention
    of a URI are interfaces. A panic of the updater is [None]. *)
From stdpp Require Import base list sets numbers strings gmap.
From S2P Require Import Prelude RustStr PathConv PatchParser SeekSequence FileUpdate ApplyPatch.

Definition APPLY_PATCH_COMMANDS : list str := [lit "apply_patch"; lit "applypatch"].

(** [PathUri::infer_path_convention]. *)
Class PathConventions (P : Type) := infer_path_convention : P → option PathConvention.

(** [TextDiff::from_lines(old, new).unified_diff().context_radius(n)]. *)
Class UnifiedDiff := unified_diff_text : str → str → nat → str.

Inductive ApplyPatchShell : Type := Unix | PowerShell | Cmd.

Inductive ExtractHeredocError (LE UE : Type) : Type :=
| CommandDidNotStartWithApplyPatch
| FailedToLoadBashGrammar (e : LE)
| HeredocNotUtf8 (e : UE)
| FailedToParsePatchIntoAst
| FailedToFindHeredocBody.
Arguments CommandDidNotStartWithApplyPatch {LE UE}.
Arguments FailedToLoadBashGrammar {LE UE} e.
Arguments HeredocNotUtf8 {LE UE} e.
Arguments FailedToParsePatchIntoAst {LE UE}.
Arguments FailedToFindHeredocBody {LE UE}.

(** A captured node: the name of the capture and [utf8_text] of the node. *)
Record QueryCapture (UE : Type) : Type := mkCapture {
  capture_name : str;
  capture_text : Result str UE;
}.
Arguments mkCapture {UE} capture_name capture_text.
Arguments capture_name {UE} _.
Arguments capture_text {UE} _.

(** Parsing a script with the Bash grammar and running [APPLY_PATCH_QUERY] on the tree:
    the captures of each match, or the error of loading the grammar or parsing. *)
Class BashQuery (LE UE : Type) :=
  query_matches : str → Result (list (list (QueryCapture UE))) (ExtractHeredocError LE UE).

(** * Shells *)
Definition classify_shell_name (shell : str) (c : PathConvention) : option str :=
  basename ← last (path_segments c shell);
  let stem :=
    match rsplit_once basename 46%N with
    | Some (stem, _) => if is_empty stem then basename else stem
    | None => basename
    end in
  Some (to_ascii_lowercase stem).

Definition one_of (names : list str) (s : str) : bool := existsb (λ n, bool_decide (s = n)) names.

Definition classify_shell (shell flag : str) (c : PathConvention) : option ApplyPatchShell :=
  name ← classify_shell_name shell c;
  if one_of [lit "bash"; lit "zsh"; lit "sh"] name && one_of [lit "-lc"; lit "-c"] flag
  then Some Unix
  else if one_of [lit "pwsh"; lit "powershell"] name && eq_ignore_ascii_case flag (lit "-command")
  then Some PowerShell
  else if one_of [lit "cmd"] name && eq_ignore_ascii_case flag (lit "/c") then Some Cmd
  else None.

Definition can_skip_flag (shell flag : str) (c : PathConvention) : bool :=
  match classify_shell_name shell c with
  | Some name =>
      one_of [lit "pwsh"; lit "powershell"] name && eq_ignore_ascii_case flag (lit "-noprofile")
  | None => false
  end.

(** * Heredocs *)
Section Heredoc.
Context {LE UE : Type} `{BQ : BashQuery LE UE}.

(** The loop over the captures of a match, on [heredoc_text] and [cd_path]. *)
Fixpoint read_captures (caps : list (QueryCapture UE)) (heredoc cd : option str)
    : Result (option str * option str) (ExtractHeredocError LE UE) :=
  match caps with
  | [] => Ok (heredoc, cd)
  | c :: caps =>
      let text := map_err HeredocNotUtf8 (capture_text c) in
      if bool_decide (capture_name c = lit "heredoc") then
        let? t := text in read_captures caps (Some (trim_end_matches (N.eqb LF) t)) cd
      else if bool_decide (capture_name c = lit "cd_path") then
        let? t := text in read_captures caps heredoc (Some t)
      else if bool_decide (capture_name c = lit "cd_raw_string") then
        let? raw := text in
        let trimmed := s ← strip_prefix raw (lit "'"); strip_suffix s (lit "'") in
        read_captures caps heredoc (Some (default raw trimmed))
      else read_captures caps heredoc cd
  end.

Fixpoint first_heredoc (ms : list (list (QueryCapture UE)))
    : Result (str * option str) (ExtractHeredocError LE UE) :=
  match ms with
  | [] => Err CommandDidNotStartWithApplyPatch
  | m :: ms =>
      let? r := read_captures m None None in
      match r with
      | (Some heredoc, cd) => Ok (heredoc, cd)
      | (None, _) => first_heredoc ms
      end
  end.

Definition extract_apply_patch_from_bash (src : str)
    : Result (str * option str) (ExtractHeredocError LE UE) :=
  let? ms := query_matches src in first_heredoc ms.

Definition extract_apply_patch_from_shell (shell : ApplyPatchShell) (script : str)
    : Result (str * option str) (ExtractHeredocError LE UE) :=
  match shell with
  | Unix | PowerShell | Cmd => extract_apply_patch_from_bash script
  end.
End Heredoc.

(** * Recognizing a call *)
Inductive MaybeApplyPatch (LE UE : Type) : Type :=
| MaybeBody (args : ApplyPatchArgs)
| MaybeShellParseError (e : ExtractHeredocError LE UE)
| MaybePatchParseError (e : ParseError)
| MaybeNotApplyPatch.
Arguments MaybeBody {LE UE} args.
Arguments MaybeShellParseError {LE UE} e.
Arguments MaybePatchParseError {LE UE} e.
Arguments MaybeNotApplyPatch {LE UE}.

Inductive ApplyPatchFileChange (P : Type) : Type :=
| FileAdd (content : str)
| FileDelete (content : str)
| FileUpdate (unified_diff : str) (move_path : option P) (new_content : str).
Arguments FileAdd {P} content.
Arguments FileDelete {P} content.
Arguments FileUpdate {P} unified_diff move_path new_content.

Record ApplyPatchAction (P : Type) `{Countable P} : Type := mkAction {
  action_changes : gmap P (ApplyPatchFileChange P);
  action_mode : ApplyPatchFileUpdateMode;
  action_patch : str;
  action_cwd : P;
}.
Arguments mkAction {P _ _} action_changes action_mode action_patch action_cwd.
Arguments action_changes {P _ _} _.
Arguments action_mode {P _ _} _.
Arguments action_patch {P _ _} _.
Arguments action_cwd {P _ _} _.

Section Invocation.
Context {LE UE : Type} `{BQ : BashQuery LE UE}.
Context {W P : Type} `{FS : ExecutorFileSystem W P} `{PU : PathUri P} `{PC : PathConventions P}
  `{Countable P} `{UD : UnifiedDiff}.
Abbreviation PE := (PathUriParseError P).

Inductive MaybeApplyPatchVerified : Type :=
| VerifiedBody (action : ApplyPatchAction P)
| VerifiedShellParseError (e : ExtractHeredocError LE UE)
| VerifiedCorrectnessError (e : ApplyPatchError PE)
| VerifiedNotApplyPatch.

Definition parse_shell_script (argv : list str) (cwd : P) : option (ApplyPatchShell * str) :=
  c ← infer_path_convention cwd;
  match argv with
  | [shell; flag; script] => sh ← classify_shell shell flag c; Some (sh, script)
  | [shell; skip_flag; flag; script] =>
      if can_skip_flag shell skip_flag c
      then sh ← classify_shell shell flag c; Some (sh, script) else None
  | _ => None
  end.

(** The second arm of [maybe_parse_apply_patch]. *)
Definition maybe_parse_shell (argv : list str) (cwd : P) : MaybeApplyPatch LE UE :=
  match parse_shell_script argv cwd with
  | Some (shell, script) =>
      match extract_apply_patch_from_shell shell script with
      | Ok (body, workdir) =>
          match parse_patch body with
          | Ok source =>
              MaybeBody (mkArgs (args_patch source) (args_hunks source) workdir
                (args_environment_id source))
          | Err e => MaybePatchParseError e
          end
      | Err CommandDidNotStartWithApplyPatch => MaybeNotApplyPatch
      | Err e => MaybeShellParseError e
      end
  | None => MaybeNotApplyPatch
  end.

Definition maybe_parse_apply_patch (argv : list str) (cwd : P) : MaybeApplyPatch LE UE :=
  match argv with
  | [cmd; body] =>
      if one_of APPLY_PATCH_COMMANDS cmd then
        match parse_patch body with
        | Ok source => MaybeBody source
        | Err e => MaybePatchParseError e
        end
      else maybe_parse_shell argv cwd
  | _ => maybe_parse_shell argv cwd
  end.

(** * Verification *)

(** [unified_diff_from_chunks_with_mode]: the diff and the new contents. *)
Definition unified_diff_from_chunks_with_mode (path : P) (chunks : list UpdateFileChunk)
    (m : ApplyPatchFileUpdateMode) (w : W) : option (Result (str * str) (ApplyPatchError PE)) :=
  r ← derive_new_contents_from_chunks path chunks m true w;
  Some (let? contents := r in
        Ok (unified_diff_text contents.1 contents.2 1, contents.2)).

(** The change of one hunk at its resolved [path]. *)
Definition verify_hunk (h : Hunk) (path cwd : P) (m : ApplyPatchFileUpdateMode) (w : W)
    : option (Result (ApplyPatchFileChange P) (ApplyPatchError PE)) :=
  match h with
  | AddFile _ contents => Some (Ok (FileAdd contents))
  | DeleteFile _ =>
      Some (match read_file_text path true w with
            | Ok content => Ok (FileDelete content)
            | Err e => Err (ApIoError (mkIoError (failed_to (lit "Failed to read ") path) e))
            end)
  | UpdateFile _ move_path chunks =>
      r ← unified_diff_from_chunks_with_mode path chunks m w;
      Some (let? d := r in
            let? dest :=
              match move_path with
              | Some dest => let? u := map_err ApPathUri (path_join cwd dest) in Ok (Some u)
              | None => Ok None
              end in
            Ok (FileUpdate d.1 dest d.2))
  end.

Fixpoint verify_hunks (hs : list Hunk) (cwd : P) (m : ApplyPatchFileUpdateMode) (w : W)
    (changes : gmap P (ApplyPatchFileChange P))
    : option (Result (gmap P (ApplyPatchFileChange P)) (ApplyPatchError PE)) :=
  match hs with
  | [] => Some (Ok changes)
  | h :: hs =>
      match resolve_path h cwd with
      | Err e => Some (Err (ApPathUri e))
      | Ok path =>
          if decide (is_Some (changes !! path)) then
            Some (Err (ApParseError (InvalidPatchError
              (lit "multiple operations target " ++ native_path_string path))))
          else
            r ← verify_hunk h path cwd m w;
            match r with
            | Err e => Some (Err e)
            | Ok c => verify_hunks hs cwd m w (<[path := c]> changes)
            end
      end
  end.

Definition try_verify_apply_patch_args (args : ApplyPatchArgs) (cwd : P)
    (m : ApplyPatchFileUpdateMode) (w : W)
    : option (Result (ApplyPatchAction P) (ApplyPatchError PE)) :=
  let effective_cwd :=
    match args_workdir args with
    | Some dir => map_err ApPathUri (path_join cwd dir)
    | None => Ok cwd
    end in
  match effective_cwd with
  | Err e => Some (Err e)
  | Ok cwd =>
      r ← verify_hunks (args_hunks args) cwd m w ∅;
      Some (let? changes := r in Ok (mkAction changes m (args_patch args) cwd))
  end.

Definition verify_apply_patch_args_with_mode (args : ApplyPatchArgs) (cwd : P)
    (m : ApplyPatchFileUpdateMode) (w : W) : option MaybeApplyPatchVerified :=
  r ← try_verify_apply_patch_args args cwd m w;
  Some (match r with
        | Ok action => VerifiedBody action
        | Err e => VerifiedCorrectnessError e
        end).

(** A patch body given as the whole command or as the whole script. *)
Definition is_implicit (argv : list str) (cwd : P) : bool :=
  match argv with
  | [body] => is_ok (parse_patch body)
  | _ => false
  end
  || match parse_shell_script argv cwd with
     | Some (_, script) => is_ok (parse_patch script)
     | None => false
     end.

Definition maybe_parse_apply_patch_verified_with_mode (argv : list str) (cwd : P)
    (m : ApplyPatchFileUpdateMode) (w : W) : option MaybeApplyPatchVerified :=
  if is_implicit argv cwd then Some (VerifiedCorrectnessError ImplicitInvocation)
  else
    match maybe_parse_apply_patch argv cwd with
    | MaybeBody args => verify_apply_patch_args_with_mode args cwd m w
    | MaybeShellParseError e => Some (VerifiedShellParseError e)
    | MaybePatchParseError e => Some (VerifiedCorrectnessError (ApParseError e))
    | MaybeNotApplyPatch => Some VerifiedNotApplyPatch
    end.
End Invocation.
