(* ===== verification/InvocationFacts.v ===== *)
(** What the verification of an [apply_patch] call promises about its application. *)
From stdpp Require Import base list sets numbers strings gmap.
From S2P Require Import Prelude RustStr PathConv PatchParser PatchParserFacts PatchPrinter SeekSequence FileUpdate ApplyPatch ApplyPatchFacts Invocation.

(** * Changes and files *)
Section Changes.
Context {P : Type} `{Countable P}.
Abbreviation Changes := (gmap P (ApplyPatchFileChange P)).
Implicit Types (f : P → option str) (c : ApplyPatchFileChange P) (changes : Changes).

(** The change of [p] is what the files show. *)
Definition change_done f (p : P) c : Prop :=
  match c with
  | FileAdd content => f p = Some content
  | FileDelete _ => f p = None
  | FileUpdate _ None new => f p = Some new
  | FileUpdate _ (Some d) new => f p = None ∧ f d = Some new
  end.

(** The paths a change is about. *)
Definition footprint (p : P) c : list P :=
  match c with
  | FileUpdate _ (Some d) _ => [p; d]
  | _ => [p]
  end.

Definition touched changes (q : P) : Prop := ∃ p c, changes !! p = Some c ∧ q ∈ footprint p c.

(** The files [f] are the files [f0] with the changes made. *)
Definition realized changes f0 f : Prop :=
  (∀ p c, changes !! p = Some c → change_done f p c) ∧ (∀ q, ¬ touched changes q → f q = f0 q).

(** No file is moved onto a path that another change is about. *)
Definition separate_moves changes : Prop :=
  ∀ p u d new, changes !! p = Some (FileUpdate u (Some d) new) →
    changes !! d = None ∧
    ∀ p' u' new', changes !! p' = Some (FileUpdate u' (Some d) new') → p' = p.

Lemma change_done_ext f g p c :
  change_done f p c → (∀ q, q ∈ footprint p c → g q = f q) → change_done g p c.
Proof.
  intros Hd Hq. destruct c as [x|x|u [d|] x]; simpl in *;
    rewrite ?(Hq p), ?(Hq d) by set_solver; done.
Qed.

(** The changes of different paths are about different files. *)
Lemma separate_footprints changes p c p' c' q :
  separate_moves changes → changes !! p = Some c → changes !! p' = Some c' → p ≠ p' →
  q ∈ footprint p c → q ∉ footprint p' c'.
Proof.
  intros Hs Hp Hp' Hne Hq Hq'.
  assert (Hc : q = p ∨ ∃ u new, c = FileUpdate u (Some q) new)
    by (destruct c as [x|x|u [d|] x]; set_unfold in Hq; naive_solver).
  assert (Hc' : q = p' ∨ ∃ u new, c' = FileUpdate u (Some q) new)
    by (destruct c' as [x|x|u [d|] x]; set_unfold in Hq'; naive_solver).
  destruct Hc as [->|(u & x & ->)], Hc' as [->|(u' & x' & ->)]; [done| | |].
  - apply Hs in Hp' as [Hn _]. congruence.
  - apply Hs in Hp as [Hn _]. congruence.
  - apply Hs in Hp as [_ Hu]. by apply Hu in Hp'.
Qed.

Lemma realized_empty f : realized ∅ f f.
Proof. by split. Qed.

(** Making one more change. *)
Lemma realized_insert changes final f0 f g p c :
  separate_moves final → <[p := c]> changes ⊆ final → changes !! p = None →
  realized changes f0 f → change_done g p c → (∀ q, q ∉ footprint p c → g q = f q) →
  realized (<[p := c]> changes) f0 g.
Proof.
  intros Hs Hsub Hnone [Hd Hu] Hc Hg. split.
  - intros p' c' Hl. destruct (decide (p' = p)) as [->|Hne].
    { rewrite lookup_insert_eq in Hl. by simplify_eq. }
    assert (Hf : final !! p' = Some c') by (by eapply lookup_weaken).
    assert (Hfp : final !! p = Some c) by (eapply lookup_weaken; [|done]; by rewrite lookup_insert_eq).
    rewrite lookup_insert_ne in Hl by done. apply (change_done_ext f); [by apply Hd|].
    intros q Hq. apply Hg. by apply (separate_footprints final p' c' p c q).
  - intros q Hq. rewrite Hg.
    + apply Hu. intros (p' & c' & Hl & Hin). apply Hq. exists p', c'. split; [|done].
      rewrite lookup_insert_ne; [done|]. intros ->. congruence.
    + intros Hin. apply Hq. exists p, c. by rewrite lookup_insert_eq.
Qed.
End Changes.

(** * Verification and application *)
Section Verified.
Context {LE UE : Type} `{BQ : BashQuery LE UE}.
Context {W P : Type} `{FS : ExecutorFileSystem W P} `{PU : PathUri P} `{PC : PathConventions P}
  `{CO : Console W} `{Countable P} `{UD : UnifiedDiff} {PF : PlainFiles W P}.
Abbreviation Changes := (gmap P (ApplyPatchFileChange P)).

Lemma verify_hunks_grow hs cwd m w (changes final : Changes) :
  verify_hunks hs cwd m w changes = Some (Ok final) → changes ⊆ final.
Proof.
  revert changes. induction hs as [|h hs IH]; intros changes; simpl; [by intros [= ->]|].
  destruct (resolve_path h cwd) as [p|e]; [|done]. case_decide as Hd; [done|].
  destruct (verify_hunk h p cwd m w) as [[c|e]|]; simpl; try done. intros Hv%IH.
  etrans; [|exact Hv]. apply insert_subseteq. by apply eq_None_not_Some.
Qed.

(** The contents computed before the application are the contents it writes, as long as
    the file is still the one that was read. *)
Lemma verify_hunk_effect h p cwd m w c f f' :
  resolve_path h cwd = Ok p → verify_hunk h p cwd m w = Some (Ok c) → f p = file_at w p →
  hunk_effect m cwd h f = Some f' →
  (∀ d u new, c = FileUpdate u (Some d) new → d ≠ p) →
  change_done f' p c ∧ (∀ q, q ∉ footprint p c → f' q = f q).
Proof.
  unfold resolve_path, hunk_effect. intros Hp Hv Hf He Hne. rewrite Hp in He.
  destruct h as [x contents|x|x mv chunks]; simpl in Hv, He.
  - simplify_eq. simpl. split; [apply upd_same|]. intros q Hq. unfold upd. rewrite decide_False; set_solver.
  - destruct (read_file_text p true w); simplify_eq. simpl. split; [apply upd_same|].
    intros q Hq. unfold upd. rewrite decide_False; set_solver.
  - unfold unified_diff_from_chunks_with_mode, derive_new_contents_from_chunks in Hv.
    destruct (read_file_text p true w) as [original|e] eqn:Er; [|done]. simpl in Hv.
    apply read_ok in Er. rewrite Hf, Er in He. simpl in He.
    destruct (derive_new_contents (native_path_string p) original chunks m) as [[new|e]|]; try done.
    destruct mv as [dest|]; simpl in Hv, He.
    + destruct (path_join cwd dest) as [d|e]; simplify_eq/=. specialize (Hne d _ _ eq_refl).
      split.
      * split; [apply upd_same|]. unfold upd. by rewrite decide_False, decide_True.
      * intros q Hq. unfold upd. rewrite !decide_False; set_solver.
    + simplify_eq/=. split; [apply upd_same|]. intros q Hq. unfold upd. rewrite decide_False; set_solver.
Qed.

Lemma verify_hunks_realized hs cwd m w (changes final : Changes) f f' :
  verify_hunks hs cwd m w changes = Some (Ok final) → separate_moves final →
  realized changes (file_at w) f → patch_effect m cwd hs f = Some f' →
  realized final (file_at w) f'.
Proof.
  revert changes f. induction hs as [|h hs IH]; intros changes f; cbn [verify_hunks patch_effect].
  { by intros [= ->] _ ? [= <-]. }
  destruct (resolve_path h cwd) as [p|e] eqn:Hp; [|done]. case_decide as Hd; [done|].
  destruct (verify_hunk h p cwd m w) as [[c|e]|] eqn:Hv; simpl; try done. intros Hvs Hs Hr He.
  apply bind_Some in He as (f1 & Hf1 & He).
  pose proof (verify_hunks_grow _ _ _ _ _ _ Hvs) as Hgrow. apply eq_None_not_Some in Hd.
  assert (Hfp : final !! p = Some c) by (eapply lookup_weaken; [|done]; by rewrite lookup_insert_eq).
  assert (Hfresh : f p = file_at w p).
  { apply Hr. intros (p' & c' & Hl & Hin). assert (p' ≠ p) as Hne by congruence.
    assert (Hf' : final !! p' = Some c').
    { eapply lookup_weaken; [|done]. by rewrite lookup_insert_ne. }
    eapply (separate_footprints final p' c' p c p); try done. destruct c as [| |? []]; set_solver. }
  destruct (verify_hunk_effect h p cwd m w c f f1 Hp Hv Hfresh Hf1) as [Hdone Hsame].
  { intros d u new -> ->. apply Hs in Hfp as Hs'. destruct Hs' as [Hn _]. congruence. }
  eapply IH; [done|done| |done]. by eapply realized_insert.
Qed.

Lemma verified_body argv cwd m w action :
  maybe_parse_apply_patch_verified_with_mode argv cwd m w = Some (VerifiedBody action) →
  ∃ body src, parse_patch body = Ok src ∧ action_patch action = args_patch src ∧ action_mode action = m
    ∧ verify_hunks (args_hunks src) (action_cwd action) m w ∅ = Some (Ok (action_changes action)).
Proof.
  unfold maybe_parse_apply_patch_verified_with_mode. destruct (is_implicit argv cwd); [done|].
  destruct (maybe_parse_apply_patch argv cwd) as [args|e|e|] eqn:Em; try done. intros Hv.
  assert (∃ body src, parse_patch body = Ok src ∧ args_patch args = args_patch src
    ∧ args_hunks args = args_hunks src) as (body & src & Hb & Hap & Hah).
  { assert (Hsh : maybe_parse_shell argv cwd = MaybeBody args → ∃ body src, parse_patch body = Ok src
      ∧ args_patch args = args_patch src ∧ args_hunks args = args_hunks src).
    { unfold maybe_parse_shell. destruct (parse_shell_script argv cwd) as [[sh script]|]; [|done].
      destruct (extract_apply_patch_from_shell sh script) as [[body wd]|[]]; try done.
      destruct (parse_patch body) as [src|] eqn:Eb; [|done]. intros [= <-]. by exists body, src. }
    unfold maybe_parse_apply_patch in Em. destruct argv as [|cmd [|body [|]]]; try by apply Hsh.
    destruct (one_of APPLY_PATCH_COMMANDS cmd); [|by apply Hsh].
    destruct (parse_patch body) as [src|] eqn:Eb; [|done]. injection Em as <-. by exists body, src. }
  exists body, src. split; [done|]. unfold verify_apply_patch_args_with_mode, try_verify_apply_patch_args in Hv.
  destruct (match args_workdir args with Some _ => _ | None => _ end) as [cwd'|e]; [|done].
  rewrite Hah, Hap in Hv. destruct (verify_hunks _ cwd' m w ∅) as [[changes|e]|] eqn:Ev; simplify_eq/=. done.
Qed.

(** C13: What the user is shown is what happens. When an [apply_patch] call has been
    verified and no file is moved onto a path that another change is about, and the
    patch of the action is then applied successfully in the directory of the action, with
    its update mode and on the files that were verified, then the files afterwards show
    every change of the action (the contents of added and updated files, at the
    destination for moves, and the absence of deleted and moved ones), and no other file
    has changed. The patch text is assumed to have no carriage return at the end of a
    line. *)
Theorem verified_changes_are_applied argv cwd m (w w' : W) action opts d :
  maybe_parse_apply_patch_verified_with_mode argv cwd m w = Some (VerifiedBody action) →
  Forall plain_line (split_char LF (action_patch action)) →
  separate_moves (action_changes action) →
  update_file_mode opts = action_mode action →
  apply_patch_with_options (action_patch action) opts (action_cwd action) w = (w', Applied d) →
  realized (action_changes action) (file_at w) (file_at w').
Proof.
  intros (body & src & Hb & Hp & Hm & Hv)%verified_body Hplain Hs Hmode Ha. rewrite Hp in Hplain, Ha.
  unfold parse_patch in Hb.
  destruct (parse_patch_text_again body _ Lenient src Hb Hplain) as (a' & Ha' & Hh).
  unfold apply_patch_with_options in Ha.
  assert (parse_patch (args_patch src) = Ok a') as Hpp by exact Ha'. rewrite Hpp in Ha.
  apply apply_hunks_success in Ha as (f' & w1 & _ & He & Hf & _). rewrite Hh, Hmode, Hm in He.
  destruct (verify_hunks_realized _ _ _ _ _ _ _ _ Hv Hs (realized_empty _) He) as [H1 H2]. split.
  - intros p c Hc. eapply change_done_ext; [by apply H1|]. intros q _. apply Hf.
  - intros q Hq. rewrite Hf. by apply H2.
Qed.
End Verified.

(** * Examples *)

(** Scripts in memory: no grammar, paths of the host convention, a diff without text. *)
#[local] Instance mem_query : BashQuery Empty_set Empty_set := λ _, Ok [].
#[local] Instance mem_convention : PathConventions str := λ _, Some Posix.
#[local] Instance mem_diff : UnifiedDiff := λ old new _, new.

Definition sample_action : ApplyPatchAction str := mkAction
  (<[lit "/w/gone" := FileDelete (lit "g")]>
    (<[lit "/w/old" := FileUpdate (lit "b" ++ [LF]) (Some (lit "/w/moved")) (lit "b" ++ [LF])]>
      (<[lit "/w/new" := FileAdd (lit "n" ++ [LF])]> ∅)))
  NormalizeToLf sample_patch (lit "/w").

Lemma sample_separate : separate_moves (action_changes sample_action).
Proof.
  intros p u d new Hp. simpl in Hp.
  assert (p = lit "/w/old" ∧ d = lit "/w/moved") as [-> ->].
  { rewrite !lookup_insert_Some in Hp. naive_solver. }
  split; [vm_compute; reflexivity|]. intros p' u' new' Hp'. simpl in Hp'.
  rewrite !lookup_insert_Some in Hp'. naive_solver.
Qed.

Lemma verified_changes_are_applied_witness :
  realized (action_changes sample_action) (file_at sample_world) (file_at sample_after).
Proof.
  apply (verified_changes_are_applied [lit "apply_patch"; sample_patch] (lit "/w") NormalizeToLf
    sample_world sample_after sample_action default_options sample_delta).
  - vm_compute. reflexivity.
  - apply (bool_decide_unpack _). vm_compute. exact I.
  - exact sample_separate.
  - reflexivity.
  - vm_compute. reflexivity.
Defined.

(** A patch that moves [a] onto [b] and then updates [b]. *)
Definition collision_patch : str := join [LF]
  [lit "*** Begin Patch"; lit "*** Update File: a"; lit "*** Move to: b"; lit " k"; lit "-x"; lit "+y";
   lit "*** Update File: b"; lit "-k"; lit "+m"; lit "*** End Patch"].

Definition collision_world : MemWorld :=
  mkMem (<[lit "/w/a" := lit "k" ++ [LF] ++ lit "x" ++ [LF]]>
    (<[lit "/w/b" := lit "k" ++ [LF] ++ lit "z" ++ [LF]]> ∅)) [] [].

(** The check for several operations on a path does not look at the destinations
    of moves: a patch that moves [a] onto [b] and then updates [b] is verified with
    changes computed from the contents [b] had before, and its successful application
    leaves other contents there than the ones shown. *)
Theorem move_collision_is_not_noticed :
  ∃ (action : ApplyPatchAction str) (w' : MemWorld) d shown,
    maybe_parse_apply_patch_verified_with_mode [lit "apply_patch"; collision_patch] (lit "/w")
      NormalizeToLf collision_world = Some (VerifiedBody action)
    ∧ apply_patch_with_options (action_patch action) default_options (action_cwd action)
        collision_world = (w', Applied d)
    ∧ (∃ u, action_changes action !! lit "/w/b" = Some (FileUpdate u None shown))
    ∧ file_at w' (lit "/w/b") ≠ Some shown.
Proof.
  eexists _, _, _, (lit "m" ++ [LF] ++ lit "z" ++ [LF]).
  split; [vm_compute; reflexivity|]. split; [vm_compute; reflexivity|].
  split; [eexists; vm_compute; reflexivity|]. vm_compute. congruence.
Qed.
