(* ===== verification/ExecRule.v ===== *)
(** [decision.rs], [error.rs], [executable_name.rs] and [rule.rs] of
    [codex-execpolicy]: decisions, prefix patterns, network rules and the
    normalization of their hosts.

    [std::path] and [AbsolutePathBuf] depend on the platform: they are an interface. *)
From stdpp Require Import base list sets numbers strings gmap.
From S2P Require Import Prelude RustStr.

(** * Decisions *)
Inductive Decision : Type := Allow | Prompt | Forbidden.

#[export] Instance Decision_eq_dec : EqDecision Decision.
Proof. solve_decision. Defined.

(** The derived [Ord]: the order of the variants. *)
Definition decision_rank (d : Decision) : nat :=
  match d with
  | Allow => 0
  | Prompt => 1
  | Forbidden => 2
  end.

Definition decision_le (a b : Decision) : Prop := decision_rank a ≤ decision_rank b.

Definition decision_max (a b : Decision) : Decision :=
  if decision_rank a <=? decision_rank b then b else a.

(** [Iterator::max]. *)
Fixpoint decisions_max (ds : list Decision) : option Decision :=
  match ds with
  | [] => None
  | d :: ds =>
      match decisions_max ds with
      | Some m => Some (decision_max d m)
      | None => Some d
      end
  end.

(** * Errors *)
Record TextPosition : Type := mkPosition { pos_line : nat; pos_column : nat }.
Record TextRange : Type := mkRange { range_start : TextPosition; range_end : TextPosition }.
Record ErrorLocation : Type := mkLocation { loc_path : str; loc_range : TextRange }.

Inductive Error (StarlarkError : Type) : Type :=
| InvalidDecision (s : str)
| InvalidPattern (s : str)
| InvalidExample (s : str)
| InvalidRule (s : str)
| ExampleDidNotMatch (rules examples : list str) (location : option ErrorLocation)
| ExampleDidMatch (rule example : str) (location : option ErrorLocation)
| Starlark (e : StarlarkError).
Arguments InvalidDecision {StarlarkError} s.
Arguments InvalidPattern {StarlarkError} s.
Arguments InvalidExample {StarlarkError} s.
Arguments InvalidRule {StarlarkError} s.
Arguments ExampleDidNotMatch {StarlarkError} rules examples location.
Arguments ExampleDidMatch {StarlarkError} rule example location.
Arguments Starlark {StarlarkError} e.

(** [Error::with_location]: only example errors without one take it. *)
Definition with_location {SE} (e : Error SE) (l : ErrorLocation) : Error SE :=
  match e with
  | ExampleDidNotMatch rules examples None => ExampleDidNotMatch rules examples (Some l)
  | ExampleDidMatch rule example None => ExampleDidMatch rule example (Some l)
  | other => other
  end.

(** [Decision::parse]. *)
Definition decision_parse {SE} (raw : str) : Result Decision (Error SE) :=
  if bool_decide (raw = lit "allow") then Ok Allow
  else if bool_decide (raw = lit "prompt") then Ok Prompt
  else if bool_decide (raw = lit "forbidden") then Ok Forbidden
  else Err (InvalidDecision raw).

(** * Paths and executable names *)

(** What the crate uses of [std::path::Path] on literal paths and of
    [AbsolutePathBuf]; [is_windows] is [cfg(windows)]. *)
Class AbsolutePathBuf (A : Type) := {
  abs_eq_dec :: EqDecision A;
  abs_try_from : str → Result A str;
  abs_file_name : A → option str;
  path_is_absolute : str → bool;
  path_component_count : str → nat;
  path_file_name : str → option str;
  is_windows : bool;
}.
Arguments is_windows A {_}.

Definition WINDOWS_EXECUTABLE_SUFFIXES : list str :=
  [lit ".exe"; lit ".cmd"; lit ".bat"; lit ".com"].

(** The first suffix of the list that [raw] ends with is dropped. *)
Fixpoint strip_executable_suffix (raw : str) (suffixes : list str) : str :=
  match suffixes with
  | [] => raw
  | s :: suffixes =>
      match strip_suffix raw s with
      | Some stripped => stripped
      | None => strip_executable_suffix raw suffixes
      end
  end.

Definition executable_lookup_key (windows : bool) (raw : str) : str :=
  if windows then strip_executable_suffix (to_ascii_lowercase raw) WINDOWS_EXECUTABLE_SUFFIXES
  else raw.

Definition executable_path_lookup_key {A} `{AbsolutePathBuf A} (path : A) : option str :=
  executable_lookup_key (is_windows A) <$> abs_file_name path.

(** * Prefix rules *)
Inductive PatternToken : Type :=
| Single (expected : str)
| Alts (alternatives : list str).

Definition token_matches (t : PatternToken) (token : str) : bool :=
  match t with
  | Single expected => bool_decide (expected = token)
  | Alts alternatives => existsb (λ alt, bool_decide (alt = token)) alternatives
  end.

Definition alternatives (t : PatternToken) : list str :=
  match t with
  | Single expected => [expected]
  | Alts alts => alts
  end.

Record PrefixPattern : Type := mkPattern {
  first : str;
  rest : list PatternToken;
}.

(** The loop over [rest.iter().zip(&cmd[1..pattern_length])]. *)
Fixpoint tokens_match (ts : list PatternToken) (cmd : list str) : bool :=
  match ts, cmd with
  | t :: ts, c :: cmd => token_matches t c && tokens_match ts cmd
  | _, _ => true
  end.

Definition matches_prefix (p : PrefixPattern) (cmd : list str) : option (list str) :=
  let pattern_length := length (rest p) + 1 in
  if (length cmd <? pattern_length) || negb (bool_decide (head cmd = Some (first p))) then None
  else if tokens_match (rest p) (take (pattern_length - 1) (drop 1 cmd))
  then Some (take pattern_length cmd)
  else None.

Record PrefixRule : Type := mkPrefixRule {
  pattern : PrefixPattern;
  rule_decision : Decision;
  rule_justification : option str;
}.

Inductive RuleMatch (A : Type) : Type :=
| PrefixRuleMatch (matched_prefix : list str) (decision : Decision)
    (resolved_program : option A) (justification : option str)
| HeuristicsRuleMatch (command : list str) (decision : Decision).
Arguments PrefixRuleMatch {A} matched_prefix decision resolved_program justification.
Arguments HeuristicsRuleMatch {A} command decision.

Definition match_decision {A} (m : RuleMatch A) : Decision :=
  match m with
  | PrefixRuleMatch _ d _ _ => d
  | HeuristicsRuleMatch _ d => d
  end.

Definition with_resolved_program {A} (m : RuleMatch A) (program : A) : RuleMatch A :=
  match m with
  | PrefixRuleMatch matched d _ j => PrefixRuleMatch matched d (Some program) j
  | other => other
  end.

(** [impl Rule for PrefixRule], the only implementation of the trait. *)
Definition rule_program (r : PrefixRule) : str := first (pattern r).

Definition rule_matches {A} (r : PrefixRule) (cmd : list str) : option (RuleMatch A) :=
  (λ matched, PrefixRuleMatch matched (rule_decision r) None (rule_justification r))
    <$> matches_prefix (pattern r) cmd.

(** * Network rules *)
Inductive NetworkRuleProtocol : Type := Http | Https | Socks5Tcp | Socks5Udp.

Definition protocol_parse {SE} (raw : str) : Result NetworkRuleProtocol (Error SE) :=
  if bool_decide (raw = lit "http") then Ok Http
  else if bool_decide (raw = lit "https") || bool_decide (raw = lit "https_connect")
          || bool_decide (raw = lit "http-connect") then Ok Https
  else if bool_decide (raw = lit "socks5_tcp") then Ok Socks5Tcp
  else if bool_decide (raw = lit "socks5_udp") then Ok Socks5Udp
  else Err (InvalidRule
    (lit "network_rule protocol must be one of http, https, socks5_tcp, socks5_udp (got "
     ++ raw ++ lit ")")).

Definition as_policy_string (p : NetworkRuleProtocol) : str :=
  match p with
  | Http => lit "http"
  | Https => lit "https"
  | Socks5Tcp => lit "socks5_tcp"
  | Socks5Udp => lit "socks5_udp"
  end.

Record NetworkRule : Type := mkNetworkRule {
  nr_host : str;
  nr_protocol : NetworkRuleProtocol;
  nr_decision : Decision;
  nr_justification : option str;
}.

(** A nonempty string of ASCII digits. *)
Definition is_port (s : str) : bool := negb (is_empty s) && forallb is_ascii_digit s.

Definition COLON : char := 58%N.

(** The host without brackets or port. *)
Definition strip_port {SE} (raw host : str) : Result str (Error SE) :=
  match strip_prefix host (lit "[") with
  | Some stripped =>
      match split_once stripped 93%N with
      | None => Err (InvalidRule (lit "network_rule host has an invalid bracketed IPv6 literal"))
      | Some (inside, suffix) =>
          let port_ok :=
            match strip_prefix suffix [COLON] with
            | Some port => is_port port
            | None => false
            end in
          if negb (is_empty suffix) && negb port_ok then
            Err (InvalidRule (lit "network_rule host contains an unsupported suffix: " ++ raw))
          else Ok inside
      end
  | None =>
      if length (filter (λ c, c = COLON) host) =? 1 then
        match rsplit_once host COLON with
        | Some (candidate, port) =>
            if negb (is_empty candidate) && is_port port then Ok candidate else Ok host
        | None => Ok host
        end
      else Ok host
  end.

Definition normalize_network_rule_host {SE} (raw : str) : Result str (Error SE) :=
  let host := trim raw in
  if is_empty host then Err (InvalidRule (lit "network_rule host cannot be empty"))
  else if contains_str host (lit "://") || contains_char host 47%N || contains_char host 63%N
          || contains_char host 35%N then
    Err (InvalidRule
      (lit "network_rule host must be a hostname or IP literal (without scheme or path)"))
  else
    let? host := strip_port raw host in
    let normalized := to_ascii_lowercase (trim (trim_end_matches (N.eqb 46) host)) in
    if is_empty normalized then Err (InvalidRule (lit "network_rule host cannot be empty"))
    else if contains_char normalized 42%N then
      Err (InvalidRule (lit "network_rule host must be a specific host; wildcards are not allowed"))
    else if existsb is_whitespace normalized then
      Err (InvalidRule (lit "network_rule host cannot contain whitespace"))
    else Ok normalized.

(** * Facts *)

Lemma decision_max_lub a b : decision_le a (decision_max a b) ∧ decision_le b (decision_max a b).
Proof. by destruct a, b; unfold decision_le; simpl; lia. Qed.

Lemma decision_max_choice a b : decision_max a b = a ∨ decision_max a b = b.
Proof. unfold decision_max. case_goal; auto. Qed.

Lemma decision_le_antisym a b : decision_le a b → decision_le b a → a = b.
Proof. destruct a, b; unfold decision_le; simpl; intros; done || lia. Qed.

Lemma decision_le_refl a : decision_le a a.
Proof. unfold decision_le. lia. Qed.

Lemma decision_le_trans a b c : decision_le a b → decision_le b c → decision_le a c.
Proof. unfold decision_le. lia. Qed.

(** [decisions_max] is the maximum of its list. *)
Lemma decisions_max_spec ds m :
  decisions_max ds = Some m ↔ m ∈ ds ∧ (∀ d, d ∈ ds → decision_le d m).
Proof.
  revert m. induction ds as [|d ds IH]; intros m; simpl.
  - split; [done|]. intros [H _]. by apply not_elem_of_nil in H.
  - destruct (decisions_max ds) as [m'|] eqn:E.
    + destruct (proj1 (IH m') eq_refl) as [Hin Hub].
      destruct (decision_max_lub d m') as [H1 H2]. split.
      * intros [= <-]. split.
        { destruct (decision_max_choice d m') as [-> | ->]; [by left|by right]. }
        intros x [->|Hx]%elem_of_cons; [done|]. eapply decision_le_trans; [by apply Hub|done].
      * intros [Hm Hall]. f_equal. apply decision_le_antisym.
        { destruct (decision_max_choice d m') as [-> | ->]; apply Hall; [by left|by right]. }
        apply elem_of_cons in Hm as [->|Hm]; [done|].
        eapply decision_le_trans; [by apply Hub|done].
    + assert (ds = []) as -> by (destruct ds as [|x ds]; [done|];
        simpl in E; by destruct (decisions_max ds)).
      split.
      * intros [= <-]. split; [by left|]. intros x Hx.
        apply elem_of_cons in Hx as [->|Hx]; [apply decision_le_refl|by apply not_elem_of_nil in Hx].
      * intros [Hm _]. apply elem_of_cons in Hm as [->|Hm]; [done|by apply not_elem_of_nil in Hm].
Qed.

Lemma decisions_max_None ds : decisions_max ds = None ↔ ds = [].
Proof. destruct ds as [|d ds]; [done|]. simpl. by destruct (decisions_max ds). Qed.
