(* ===== verification/ExecPolicy.v ===== *)
(** [policy.rs] of [codex-execpolicy]: the policy, its amendments and overlays, and
    the evaluation of commands. *)
From stdpp Require Import base list sets numbers strings gmap sorting.
From S2P Require Import Prelude RustStr ExecRule.

Record MatchOptions : Type := mkMatchOptions { resolve_host_executables : bool }.

Definition default_match_options : MatchOptions := mkMatchOptions false.

(** [MultiMap<String, RuleRef>]: the rules of a program in insertion order. *)
Abbreviation RuleMap := (gmap str (list PrefixRule)).

Definition get_vec (m : RuleMap) (program : str) : list PrefixRule := default [] (m !! program).

Definition mm_insert (program : str) (r : PrefixRule) (m : RuleMap) : RuleMap :=
  <[program := get_vec m program ++ [r]]> m.

Definition mm_insert_all (program : str) (rs : list PrefixRule) (m : RuleMap) : RuleMap :=
  foldl (λ m r, mm_insert program r m) m rs.

Record Policy (A : Type) : Type := mkPolicy {
  rules_by_program : RuleMap;
  network_rules : list NetworkRule;
  host_executables_by_name : gmap str (list A);
}.
Arguments mkPolicy {A} rules_by_program network_rules host_executables_by_name.
Arguments rules_by_program {A} _.
Arguments network_rules {A} _.
Arguments host_executables_by_name {A} _.

Definition empty_policy {A} : Policy A := mkPolicy ∅ [] ∅.

Record Evaluation (A : Type) : Type := mkEvaluation {
  eval_decision : Decision;
  matched_rules : list (RuleMatch A);
}.
Arguments mkEvaluation {A} eval_decision matched_rules.
Arguments eval_decision {A} _.
Arguments matched_rules {A} _.

(** * Orders of [String] and [Vec<String>] *)

(** The derived lexicographic order; on strings, the order of UTF-8 bytes is the
    order of the characters. *)
Fixpoint list_cmp {X} (cmp : X → X → comparison) (a b : list X) : comparison :=
  match a, b with
  | [], [] => Eq
  | [], _ :: _ => Lt
  | _ :: _, [] => Gt
  | x :: a, y :: b =>
      match cmp x y with
      | Eq => list_cmp cmp a b
      | c => c
      end
  end.

Definition str_cmp : str → str → comparison := list_cmp N.compare.
Definition strs_cmp : list str → list str → comparison := list_cmp str_cmp.
Definition strs_le (a b : list str) : Prop := strs_cmp a b ≠ Gt.

#[export] Instance strs_le_dec : RelDecision strs_le.
Proof. intros a b. unfold strs_le. apply _. Defined.

(** * Amendments *)

Definition render_pattern_token (t : PatternToken) : str :=
  match t with
  | Single value => value
  | Alts alts => lit "[" ++ join (lit "|") alts ++ lit "]"
  end.

(** The prefixes of the allow rules among the entries of [iter_all], in the order in
    which the map enumerates them. *)
Definition allowed_prefixes_of (entries : list (str * list PrefixRule)) : list (list str) :=
  r ← entries ≫= snd;
  match rule_decision r with
  | Allow => [first (pattern r) :: (render_pattern_token <$> rest (pattern r))]
  | _ => []
  end.

Definition sort_dedup (prefixes : list (list str)) : list (list str) :=
  dedup (merge_sort strs_le prefixes).

Definition get_allowed_prefixes {A} (p : Policy A) : list (list str) :=
  sort_dedup (allowed_prefixes_of (map_to_list (rules_by_program p))).

Section Policy.
Context {A : Type} `{AbsolutePathBuf A} {SE : Type}.
Implicit Types (p overlay : Policy A) (cmd : list str).

Definition add_prefix_rule (prefix : list str) (d : Decision) p : Result (Policy A) (Error SE) :=
  match prefix with
  | [] => Err (InvalidPattern (lit "prefix cannot be empty"))
  | first_token :: rest =>
      let rule := mkPrefixRule (mkPattern first_token (Single <$> rest)) d None in
      Ok (mkPolicy (mm_insert first_token rule (rules_by_program p)) (network_rules p)
            (host_executables_by_name p))
  end.

Definition add_network_rule (host : str) (protocol : NetworkRuleProtocol) (d : Decision)
    (justification : option str) p : Result (Policy A) (Error SE) :=
  let? host := normalize_network_rule_host host in
  if match justification with Some raw => is_empty (trim raw) | None => false end then
    Err (InvalidRule (lit "justification cannot be empty"))
  else
    Ok (mkPolicy (rules_by_program p)
          (network_rules p ++ [mkNetworkRule host protocol d justification])
          (host_executables_by_name p)).

Definition set_host_executable_paths (name : str) (paths : list A) p : Policy A :=
  mkPolicy (rules_by_program p) (network_rules p) (<[name := paths]> (host_executables_by_name p)).

Definition merge_overlay p overlay : Policy A :=
  mkPolicy
    (foldl (λ m e, mm_insert_all e.1 e.2 m) (rules_by_program p)
       (map_to_list (rules_by_program overlay)))
    (network_rules p ++ network_rules overlay)
    (host_executables_by_name overlay ∪ host_executables_by_name p).

Definition retain_other (host : str) (entries : list str) : list str :=
  filter (λ e, e ≠ host) entries.

Definition upsert_domain (entries : list str) (host : str) : list str :=
  retain_other host entries ++ [host].

(** One iteration of the loop over the network rules. *)
Definition compile_network_rule (acc : list str * list str) (r : NetworkRule)
    : list str * list str :=
  let (allowed, denied) := acc in
  match nr_decision r with
  | Allow => (upsert_domain allowed (nr_host r), retain_other (nr_host r) denied)
  | Forbidden => (retain_other (nr_host r) allowed, upsert_domain denied (nr_host r))
  | Prompt => (allowed, denied)
  end.

Definition compiled_network_domains p : list str * list str :=
  foldl compile_network_rule ([], []) (network_rules p).

(** * Evaluation *)

Definition match_exact_rules p cmd : option (list (RuleMatch A)) :=
  first ← head cmd;
  Some (omap (λ r, rule_matches r cmd) (get_vec (rules_by_program p) first)).

Definition match_host_executable_rules p cmd : list (RuleMatch A) :=
  match head cmd with
  | None => []
  | Some first =>
      match abs_try_from first with
      | Err _ => []
      | Ok program =>
          match executable_path_lookup_key program with
          | None => []
          | Some basename =>
              match rules_by_program p !! basename with
              | None => []
              | Some rules =>
                  if match host_executables_by_name p !! basename with
                     | Some paths => negb (existsb (λ path, bool_decide (path = program)) paths)
                     | None => false
                     end
                  then []
                  else
                    let basename_command := basename :: drop 1 cmd in
                    (λ m, with_resolved_program m program)
                      <$> omap (λ r, rule_matches r basename_command) rules
              end
          end
      end
  end.

(** [Option::filter(|v| !v.is_empty())]. *)
Definition nonempty {X} (o : option (list X)) : option (list X) :=
  match o with
  | Some l => if is_empty l then None else Some l
  | None => None
  end.

Definition rule_derived_matches p cmd (options : MatchOptions) : list (RuleMatch A) :=
  default []
    (match nonempty (match_exact_rules p cmd) with
     | Some ms => Some ms
     | None =>
         if resolve_host_executables options
         then nonempty (Some (match_host_executable_rules p cmd)) else None
     end).

Definition matches_for_command_with_options p cmd (fallback : option (list str → Decision))
    (options : MatchOptions) : list (RuleMatch A) :=
  let matched := rule_derived_matches p cmd options in
  match fallback with
  | Some f => if is_empty matched then [HeuristicsRuleMatch cmd (f cmd)] else matched
  | None => matched
  end.

Definition matches_for_command p cmd fallback : list (RuleMatch A) :=
  matches_for_command_with_options p cmd fallback default_match_options.

(** [Evaluation::from_matches]; [None] is the panic of its [expect]. *)
Definition from_matches (ms : list (RuleMatch A)) : option (Evaluation A) :=
  d ← decisions_max (match_decision <$> ms);
  Some (mkEvaluation d ms).

Definition check_with_options p cmd (fallback : list str → Decision) (options : MatchOptions)
    : option (Evaluation A) :=
  from_matches (matches_for_command_with_options p cmd (Some fallback) options).

Definition check p cmd fallback : option (Evaluation A) :=
  check_with_options p cmd fallback default_match_options.

Definition check_multiple_with_options p (commands : list (list str))
    (fallback : list str → Decision) (options : MatchOptions) : option (Evaluation A) :=
  from_matches (cmd ← commands; matches_for_command_with_options p cmd (Some fallback) options).

Definition check_multiple p commands fallback : option (Evaluation A) :=
  check_multiple_with_options p commands fallback default_match_options.

Definition is_match (e : Evaluation A) : bool :=
  existsb (λ m, match m with HeuristicsRuleMatch _ _ => false | _ => true end) (matched_rules e).
End Policy.
