(* ===== verification/ExecPolicyFacts.v ===== *)
(** What a policy decides: matching against every rule of the policy, the maximum of
    the matching decisions, overlays, network domains and allowed prefixes. *)
From stdpp Require Import base list sets numbers strings gmap sorting.
From S2P Require Import Prelude RustStr ExecRule ExecPolicy.

(** * Prefix patterns *)

(** The specification: the command starts with the first token followed by one
    alternative of each further token. *)
Definition pattern_covers (p : PrefixPattern) (prefix : list str) : Prop :=
  ∃ ts, prefix = first p :: ts ∧ Forall2 (λ t c, c ∈ alternatives t) (rest p) ts.

Lemma token_matches_alternatives t c : token_matches t c = true ↔ c ∈ alternatives t.
Proof.
  destruct t as [x|xs]; simpl.
  - rewrite bool_decide_eq_true, list_elem_of_singleton. naive_solver.
  - rewrite existsb_exists. setoid_rewrite bool_decide_eq_true. setoid_rewrite list_elem_of_In.
    naive_solver.
Qed.

Lemma tokens_match_Forall2 ts cs :
  length ts = length cs → tokens_match ts cs = true ↔ Forall2 (λ t c, c ∈ alternatives t) ts cs.
Proof.
  revert cs. induction ts as [|t ts IH]; intros [|c cs] Hl; simpl in *; try lia; [by split; [constructor|]|].
  rewrite andb_true_iff, token_matches_alternatives, IH by lia. split.
  - intros [? ?]. by constructor.
  - by inversion 1.
Qed.

Lemma matches_prefix_covers p cmd prefix :
  matches_prefix p cmd = Some prefix ↔ prefix `prefix_of` cmd ∧ pattern_covers p prefix.
Proof.
  unfold matches_prefix. rewrite Nat.add_sub. split.
  - intros E. repeat case_in E; simplify_eq. apply orb_false_iff in Heqb as [Hl Hh]. bool_props.
    destruct cmd as [|c cmd]; simplify_eq/=. rewrite drop_0 in Heqb0.
    rewrite Nat.add_1_r in *. simpl.
    split; [exists (drop (length (rest p)) cmd); simpl; by rewrite take_drop|].
    exists (take (length (rest p)) cmd). split; [done|]. apply tokens_match_Forall2; [|done].
    rewrite length_take. lia.
  - intros [[tail ->] (ts & -> & Hts)]. pose proof (Forall2_length _ _ _ Hts) as Hl. simpl.
    rewrite length_app, drop_0, <- Hl, bool_decide_true, orb_false_r by done.
    rewrite (proj2 (Nat.ltb_ge _ _)) by lia. rewrite take_app_length' by done.
    rewrite (proj2 (tokens_match_Forall2 _ _ Hl) Hts), Nat.add_1_r. simpl.
    by rewrite take_app_length'.
Qed.

(** The rule matches the command. *)
Definition rule_applies (r : PrefixRule) (cmd : list str) : Prop :=
  ∃ prefix, prefix `prefix_of` cmd ∧ pattern_covers (pattern r) prefix.

Lemma rule_matches_applies {A} r cmd (mt : RuleMatch A) :
  rule_matches r cmd = Some mt → rule_applies r cmd ∧ match_decision mt = rule_decision r.
Proof.
  unfold rule_matches. intros (prefix & Hm & ->)%fmap_Some. apply matches_prefix_covers in Hm.
  split; [by exists prefix|done].
Qed.

Lemma rule_applies_matches {A} r cmd :
  rule_applies r cmd → ∃ mt : RuleMatch A, rule_matches r cmd = Some mt.
Proof.
  intros (prefix & Hm). apply matches_prefix_covers in Hm. unfold rule_matches. rewrite Hm. eauto.
Qed.

Lemma rule_applies_head r cmd : rule_applies r cmd → head cmd = Some (rule_program r).
Proof. by intros (prefix & [tail ->] & ts & -> & _). Qed.

(** * The order of prefixes *)

(** A three-way comparison that is a total order. *)
Class Comparison {X} (cmp : X → X → comparison) : Prop := {
  cmp_eq x y : cmp x y = Eq ↔ x = y;
  cmp_opp x y : cmp y x = CompOpp (cmp x y);
  cmp_lt_trans x y z : cmp x y = Lt → cmp y z = Lt → cmp x z = Lt;
}.

#[export] Instance N_comparison : Comparison N.compare.
Proof.
  split; [apply N.compare_eq_iff|intros; apply N.compare_antisym|].
  intros x y z. rewrite !N.compare_lt_iff. lia.
Qed.

#[export] Instance list_comparison {X} (cmp : X → X → comparison) :
  Comparison cmp → Comparison (list_cmp cmp).
Proof.
  intros C. split.
  - intros a. induction a as [|x a IH]; intros [|y b]; simpl; try done.
    destruct (cmp x y) eqn:E; rewrite ?IH.
    + apply cmp_eq in E as ->. naive_solver.
    + split; [done|]. intros [= -> _]. by rewrite (proj2 (cmp_eq y y) eq_refl) in E.
    + split; [done|]. intros [= -> _]. by rewrite (proj2 (cmp_eq y y) eq_refl) in E.
  - intros a. induction a as [|x a IH]; intros [|y b]; simpl; try done.
    rewrite (cmp_opp x y). destruct (cmp x y); simpl; auto.
  - intros a. induction a as [|x a IH]; intros [|y b] [|z c]; simpl; try done.
    destruct (cmp x y) eqn:E1, (cmp y z) eqn:E2; try done; intros H1 H2;
      try (apply cmp_eq in E1 as ->); try (apply cmp_eq in E2 as ->).
    + rewrite (proj2 (cmp_eq z z) eq_refl). by eapply IH.
    + by rewrite E2.
    + by rewrite E1.
    + by rewrite (cmp_lt_trans _ _ _ E1 E2).
Qed.

#[export] Instance strs_comparison : Comparison strs_cmp.
Proof. unfold strs_cmp, str_cmp. apply _. Qed.

#[export] Instance strs_le_trans : Transitive strs_le.
Proof.
  intros a b c. unfold strs_le. intros H1 H2.
  destruct (strs_cmp a b) eqn:E1; [|clear H1|done].
  { by apply cmp_eq in E1 as ->. }
  destruct (strs_cmp b c) eqn:E2; [|clear H2|done].
  { apply cmp_eq in E2 as ->. by rewrite E1. }
  by rewrite (cmp_lt_trans _ _ _ E1 E2).
Qed.

#[export] Instance strs_le_total : Total strs_le.
Proof.
  intros a b. unfold strs_le. rewrite (cmp_opp (cmp := strs_cmp) a b). destruct (strs_cmp a b); auto.
Qed.

#[export] Instance strs_le_antisym : AntiSymm (=) strs_le.
Proof.
  intros a b. unfold strs_le. rewrite (cmp_opp (cmp := strs_cmp) a b).
  destruct (strs_cmp a b) eqn:E; simpl; [|done|done]. intros _ _. by apply cmp_eq in E.
Qed.

(** Deduplicating a sorted list leaves no duplicates. *)
Lemma dedup_sorted (l : list (list str)) :
  StronglySorted strs_le l → StronglySorted strs_le (dedup l) ∧ NoDup (dedup l).
Proof.
  induction l as [|a [|b l] IH]; intros Hs.
  - by repeat constructor.
  - split; [by repeat constructor|]. apply NoDup_singleton.
  - apply StronglySorted_cons in Hs as [Hall Hs']. destruct (IH Hs') as [H1 H2].
    rewrite dedup_cons_cons. case_decide as E; [subst; by split|].
    assert (Hd : Forall (strs_le a) (dedup (b :: l))).
    { apply Forall_forall. intros x Hx. rewrite elem_of_dedup in Hx. rewrite Forall_forall in Hall. by apply Hall. }
    split; [by constructor|]. constructor; [|done]. intros Hin. rewrite elem_of_dedup in Hin.
    apply E, (anti_symm strs_le).
    + rewrite Forall_forall in Hall. apply Hall. by left.
    + apply elem_of_cons in Hin as [->|Hin]; [by destruct (total strs_le b b)|].
      apply StronglySorted_cons in Hs' as [Hb _]. rewrite Forall_forall in Hb. by apply Hb.
Qed.

(** * Policies *)
Section Facts.
Context {A : Type} `{HA : AbsolutePathBuf A} {SE : Type}.
Implicit Types (p overlay : Policy A) (cmd : list str) (r : PrefixRule).

(** A rule is one of the policy's rules. *)
Definition has_rule p r : Prop := ∃ k, r ∈ get_vec (rules_by_program p) k.

(** Every rule is stored under its program. *)
Definition keyed (m : RuleMap) : Prop := ∀ k, Forall (λ r, rule_program r = k) (get_vec m k).

Lemma get_vec_insert k r m k' :
  get_vec (mm_insert k r m) k' = get_vec m k' ++ (if decide (k' = k) then [r] else []).
Proof.
  unfold mm_insert, get_vec. destruct (decide (k' = k)) as [->|Hk].
  - by rewrite lookup_insert_eq.
  - by rewrite lookup_insert_ne, app_nil_r.
Qed.

Lemma get_vec_insert_all k rs m k' :
  get_vec (mm_insert_all k rs m) k' = get_vec m k' ++ (if decide (k' = k) then rs else []).
Proof.
  revert m. induction rs as [|r rs IH]; intros m.
  - simpl. case_decide; by rewrite app_nil_r.
  - unfold mm_insert_all in *. simpl. rewrite IH, get_vec_insert, <- app_assoc. by case_decide.
Qed.

Lemma get_vec_entries es m k :
  NoDup es.*1 →
  get_vec (foldl (λ m e, mm_insert_all e.1 e.2 m) m es) k
  = get_vec m k ++ default [] (list_to_map (M := RuleMap) es !! k).
Proof.
  revert m. induction es as [|[k0 rs] es IH]; intros m Hnd; simpl in *.
  - by rewrite lookup_empty, app_nil_r.
  - apply NoDup_cons in Hnd as [Hk0 Hnd]. rewrite IH by done. rewrite get_vec_insert_all.
    simpl. destruct (decide (k = k0)) as [->|Hk].
    + rewrite lookup_insert_eq, (not_elem_of_list_to_map_1 _ _ Hk0). simpl. by rewrite app_nil_r.
    + by rewrite lookup_insert_ne, app_nil_r.
Qed.

(** The rules of an overlaid policy: the base's rules, then the overlay's. *)
Lemma get_vec_overlay p overlay k :
  get_vec (rules_by_program (merge_overlay p overlay)) k
  = get_vec (rules_by_program p) k ++ get_vec (rules_by_program overlay) k.
Proof.
  unfold merge_overlay. simpl. rewrite get_vec_entries by apply NoDup_fst_map_to_list.
  by rewrite list_to_map_to_list.
Qed.

Lemma keyed_insert r m : keyed m → keyed (mm_insert (rule_program r) r m).
Proof.
  intros Hm k. rewrite get_vec_insert. apply Forall_app. split; [done|].
  case_decide; [subst; by repeat constructor|constructor].
Qed.

(** The rules of a policy stay filed under their program: the empty policy has
    none, and adding a prefix rule, a network rule or host executables and
    overlaying two policies keep every rule under the key that evaluation looks up. *)
Theorem policy_operations_keyed p overlay :
  keyed (rules_by_program p) → keyed (rules_by_program overlay) →
  keyed (rules_by_program (@empty_policy A))
  ∧ keyed (rules_by_program (merge_overlay p overlay))
  ∧ (∀ prefix d p', add_prefix_rule (SE := SE) prefix d p = Ok p' → keyed (rules_by_program p'))
  ∧ (∀ host proto d j p', add_network_rule (SE := SE) host proto d j p = Ok p' →
       keyed (rules_by_program p'))
  ∧ (∀ name paths, keyed (rules_by_program (set_host_executable_paths name paths p))).
Proof.
  intros Hp Ho. split; [intros k; constructor|]. split; [|split; [|split]].
  - intros k. rewrite get_vec_overlay. by apply Forall_app.
  - intros [|t prefix] d p'; [done|]. intros [= <-]. simpl.
    apply (keyed_insert (mkPrefixRule (mkPattern t (Single <$> prefix)) d None)), Hp.
  - intros host proto d j p'. unfold add_network_rule.
    destruct (normalize_network_rule_host host); simpl; [|done].
    by destruct (match j with Some _ => _ | None => _ end); intros [= <-].
  - done.
Qed.

Lemma nonempty_default {X} (l : list X) : default [] (nonempty (Some l)) = l.
Proof. by destruct l. Qed.

(** The matches of a command without host executables. *)
Lemma exact_matches p cmd :
  rule_derived_matches p cmd default_match_options
  = match head cmd with
    | Some k => omap (λ r, rule_matches r cmd) (get_vec (rules_by_program p) k)
    | None => []
    end.
Proof.
  unfold rule_derived_matches, match_exact_rules. simpl. destruct (head cmd) as [k|]; simpl; [|done].
  by destruct (omap _ _).
Qed.

Lemma rule_derived_matches_rule p cmd mt :
  mt ∈ rule_derived_matches p cmd default_match_options →
  ∃ r, has_rule p r ∧ rule_applies r cmd ∧ match_decision mt = rule_decision r.
Proof.
  rewrite exact_matches. destruct (head cmd) as [k|]; [|by intros ?%not_elem_of_nil].
  intros (r & Hr & Hm)%list_elem_of_omap. apply rule_matches_applies in Hm as [? ?].
  exists r. repeat split; [by exists k|done|done].
Qed.

Lemma rule_derived_matches_complete p cmd r :
  keyed (rules_by_program p) → has_rule p r → rule_applies r cmd →
  ∃ mt, mt ∈ rule_derived_matches p cmd default_match_options ∧ match_decision mt = rule_decision r.
Proof.
  intros Hk [k Hr] Hc. rewrite exact_matches, (rule_applies_head _ _ Hc).
  assert (rule_program r = k) as -> by (specialize (Hk k); rewrite Forall_forall in Hk; by apply Hk).
  destruct (rule_applies_matches (A := A) _ _ Hc) as [mt Hm]. exists mt. split.
  - apply list_elem_of_omap. by exists r.
  - by apply rule_matches_applies in Hm as [_ ?].
Qed.

Lemma from_matches_max (ms : list (RuleMatch A)) ev :
  from_matches ms = Some ev ↔
  matched_rules ev = ms ∧ decisions_max (match_decision <$> ms) = Some (eval_decision ev).
Proof.
  unfold from_matches. destruct ev as [d ms']. simpl.
  destruct (decisions_max _) as [m|]; simpl; naive_solver.
Qed.

(** C21: A command is judged by the strictest rule of the whole policy that matches
    it, and by the heuristics when none does: [check] never panics; if some rule of
    the policy matches, the decision is the decision of a matching rule and at least
    as strict as every matching rule's; otherwise it is the fallback's, and the
    evaluation reports no match. *)
Theorem check_strictest_rule p cmd fallback :
  keyed (rules_by_program p) →
  ∃ ev, check p cmd fallback = Some ev ∧
    ((∃ r, has_rule p r ∧ rule_applies r cmd) →
      is_match ev = true
      ∧ (∃ r, has_rule p r ∧ rule_applies r cmd ∧ rule_decision r = eval_decision ev)
      ∧ (∀ r, has_rule p r → rule_applies r cmd → decision_le (rule_decision r) (eval_decision ev)))
    ∧ ((¬ ∃ r, has_rule p r ∧ rule_applies r cmd) →
      eval_decision ev = fallback cmd ∧ is_match ev = false).
Proof.
  intros Hk. unfold check, check_with_options, matches_for_command_with_options.
  destruct (is_empty (rule_derived_matches p cmd default_match_options)) eqn:E.
  - exists (mkEvaluation (fallback cmd) [HeuristicsRuleMatch cmd (fallback cmd)]).
    split; [done|]. split; [|done]. intros (r & Hr & Hc). exfalso.
    destruct (rule_derived_matches_complete p cmd r Hk Hr Hc) as (mt & Hin & _).
    destruct (rule_derived_matches _ _ _); [by apply not_elem_of_nil in Hin|done].
  - set (ms := rule_derived_matches p cmd default_match_options) in *.
    destruct (decisions_max (match_decision <$> ms)) as [d|] eqn:Ed.
    2:{ apply decisions_max_None, fmap_nil_inv in Ed. by rewrite Ed in E. }
    exists (mkEvaluation d ms). split; [by apply from_matches_max|].
    apply decisions_max_spec in Ed as [Hin Hub].
    apply list_elem_of_fmap in Hin as (mt & -> & Hmt).
    pose proof (rule_derived_matches_rule _ _ _ Hmt) as (r & Hr & Hc & Hd). split.
    + intros _. split; [|split].
      * unfold is_match. simpl. apply existsb_exists. exists mt.
        split; [by apply list_elem_of_In|]. destruct mt; [done|].
        unfold ms in Hmt. rewrite exact_matches in Hmt. destruct (head cmd); [|by apply not_elem_of_nil in Hmt].
        apply list_elem_of_omap in Hmt as (r' & _ & Hr'). unfold rule_matches in Hr'.
        by destruct (matches_prefix _ _).
      * exists r. by repeat split.
      * intros r' Hr' Hc'. destruct (rule_derived_matches_complete p cmd r' Hk Hr' Hc') as (mt' & Hin & Hd').
        simpl. rewrite <- Hd'. by apply Hub, list_elem_of_fmap_2.
    + intros Hn. exfalso. apply Hn. by exists r.
Qed.

(** The evaluation of a command in terms of its rule matches. *)
Definition evaluation_of (ms : list (RuleMatch A)) cmd (fallback : list str → Decision)
    : Evaluation A :=
  match decisions_max (match_decision <$> ms) with
  | Some d => mkEvaluation d ms
  | None => mkEvaluation (fallback cmd) [HeuristicsRuleMatch cmd (fallback cmd)]
  end.

Lemma check_evaluation p cmd fallback o :
  check_with_options p cmd fallback o = Some (evaluation_of (rule_derived_matches p cmd o) cmd fallback).
Proof.
  unfold check_with_options, matches_for_command_with_options, evaluation_of.
  destruct (rule_derived_matches p cmd o) as [|m ms]; [done|]. simpl. unfold from_matches. simpl.
  by destruct (decisions_max _).
Qed.

Lemma rule_matches_prefix_rule r cmd (mt : RuleMatch A) :
  rule_matches r cmd = Some mt → ∃ pre d prog j, mt = PrefixRuleMatch pre d prog j.
Proof. unfold rule_matches. intros (? & _ & ->)%fmap_Some. eauto. Qed.

Lemma derived_is_prefix_match p cmd o mt :
  mt ∈ rule_derived_matches p cmd o → ∃ pre d prog j, mt = PrefixRuleMatch pre d prog j.
Proof.
  unfold rule_derived_matches.
  assert (He : ∀ l, match_exact_rules p cmd = Some l → mt ∈ l →
    ∃ pre d prog j, mt = PrefixRuleMatch pre d prog j).
  { intros l. unfold match_exact_rules. destruct (head cmd); [|done]. intros [= <-].
    intros (r & _ & Hr)%list_elem_of_omap. by eapply rule_matches_prefix_rule. }
  assert (Hh : mt ∈ match_host_executable_rules p cmd →
    ∃ pre d prog j, mt = PrefixRuleMatch pre d prog j).
  { unfold match_host_executable_rules.
    repeat (case_goal; try by intros ?%not_elem_of_nil).
    all: intros (m0 & -> & (r & _ & Hr)%list_elem_of_omap)%list_elem_of_fmap.
    all: apply rule_matches_prefix_rule in Hr as (? & ? & ? & ? & ->); simpl; eauto. }
  destruct (match_exact_rules p cmd) as [[|x l]|]; simpl;
    [|by intros ?; eapply He|]; destruct (resolve_host_executables o); simpl;
    try (by intros ?%not_elem_of_nil).
  all: by destruct (match_host_executable_rules p cmd); [intros ?%not_elem_of_nil|].
Qed.

Lemma is_match_evaluation p cmd o fallback :
  is_match (evaluation_of (rule_derived_matches p cmd o) cmd fallback)
  = negb (is_empty (rule_derived_matches p cmd o)).
Proof.
  pose proof (derived_is_prefix_match p cmd o) as Hp. unfold evaluation_of, is_match.
  destruct (rule_derived_matches p cmd o) as [|m ms]; [done|]. simpl.
  destruct (Hp m) as (? & ? & ? & ? & ->); [by left|].
  by destruct (decisions_max _).
Qed.

Lemma decisions_max_app a b :
  decisions_max (a ++ b) =
  match decisions_max a, decisions_max b with
  | Some x, Some y => Some (decision_max x y)
  | Some x, None => Some x
  | None, y => y
  end.
Proof.
  induction a as [|d a IH]; simpl; [done|]. rewrite IH.
  destruct (decisions_max a) as [x|], (decisions_max b) as [y|]; try done.
  f_equal. by destruct d, x, y.
Qed.

Lemma derived_overlay p overlay cmd :
  rule_derived_matches (merge_overlay p overlay) cmd default_match_options
  = rule_derived_matches p cmd default_match_options
    ++ rule_derived_matches overlay cmd default_match_options.
Proof.
  rewrite !exact_matches. destruct (head cmd); [|done]. by rewrite get_vec_overlay, omap_app.
Qed.

(** Overlaying a policy never relaxes a rule: the decision of the merged policy
    is the stricter of the two decisions when rules of both match, the decision of the
    one whose rules match when only one does, and the fallback's otherwise. *)
Theorem merge_overlay_decision p overlay cmd fallback :
  ∃ ev evp evo, check (merge_overlay p overlay) cmd fallback = Some ev
    ∧ check p cmd fallback = Some evp ∧ check overlay cmd fallback = Some evo
    ∧ is_match ev = is_match evp || is_match evo
    ∧ eval_decision ev =
        match is_match evp, is_match evo with
        | true, true => decision_max (eval_decision evp) (eval_decision evo)
        | true, false => eval_decision evp
        | false, true => eval_decision evo
        | false, false => fallback cmd
        end.
Proof.
  unfold check. rewrite !check_evaluation.
  eexists _, _, _. repeat split. all: rewrite !is_match_evaluation.
  - rewrite derived_overlay. by destruct (rule_derived_matches p cmd _), (rule_derived_matches overlay cmd _).
  - rewrite derived_overlay. unfold evaluation_of. rewrite fmap_app, decisions_max_app.
    set (a := rule_derived_matches p cmd _). set (b := rule_derived_matches overlay cmd _).
    destruct (decisions_max (match_decision <$> a)) as [x|] eqn:Ea,
      (decisions_max (match_decision <$> b)) as [y|] eqn:Eb; simpl;
      repeat match goal with
      | H : decisions_max _ = None |- _ => apply decisions_max_None, fmap_nil_inv in H; rewrite H
      end; simpl; destruct a, b; simplify_eq/=; done.
Qed.

(** Checking several commands gives the strictest of their decisions and all
    their matches in order; it panics only on an empty list of commands. *)
Theorem check_multiple_strictest p cmds fallback o :
  ∃ evs, Forall2 (λ cmd ev, check_with_options p cmd fallback o = Some ev) cmds evs
    ∧ (check_multiple_with_options p cmds fallback o = None ↔ cmds = [])
    ∧ check_multiple_with_options p cmds fallback o
      = (d ← decisions_max (eval_decision <$> evs); Some (mkEvaluation d (evs ≫= matched_rules))).
Proof.
  exists ((λ cmd, evaluation_of (rule_derived_matches p cmd o) cmd fallback) <$> cmds).
  assert (Heq : check_multiple_with_options p cmds fallback o
    = (d ← decisions_max (eval_decision <$>
         ((λ cmd, evaluation_of (rule_derived_matches p cmd o) cmd fallback) <$> cmds));
       Some (mkEvaluation d
         (((λ cmd, evaluation_of (rule_derived_matches p cmd o) cmd fallback) <$> cmds)
            ≫= matched_rules)))).
  { unfold check_multiple_with_options, from_matches.
    assert (Hm : ∀ cmd, matches_for_command_with_options p cmd (Some fallback) o
      = matched_rules (evaluation_of (rule_derived_matches p cmd o) cmd fallback)).
    { intros cmd. pose proof (check_evaluation p cmd fallback o) as He.
      unfold check_with_options in He. by apply from_matches_max in He as [<- _]. }
    assert (Hd : ∀ cmd, decisions_max (match_decision <$> matches_for_command_with_options p cmd (Some fallback) o)
      = Some (eval_decision (evaluation_of (rule_derived_matches p cmd o) cmd fallback))).
    { intros cmd. pose proof (check_evaluation p cmd fallback o) as He.
      unfold check_with_options in He. by apply from_matches_max in He as [_ ->]. }
    assert (Hl : cmds ≫= (λ cmd, matches_for_command_with_options p cmd (Some fallback) o)
      = ((λ cmd, evaluation_of (rule_derived_matches p cmd o) cmd fallback) <$> cmds) ≫= matched_rules).
    { clear Hd. induction cmds as [|c cmds IH]; [done|]. by rewrite fmap_cons, !bind_cons, Hm, IH. }
    rewrite <- Hl. f_equal. clear Hl Hm.
    induction cmds as [|c cmds IH]; [done|].
    rewrite bind_cons, fmap_app, decisions_max_app, Hd, IH, !fmap_cons. simpl.
    by destruct (decisions_max _). }
  split; [|split; [|done]].
  - apply Forall2_fmap_r, Forall_Forall2_diag, Forall_true. intros cmd. apply check_evaluation.
  - rewrite Heq. destruct cmds as [|c cmds]; [done|]. split; [|done].
    rewrite !fmap_cons. simpl decisions_max. by case_goal.
Qed.

(** Host executables gate basename rules: when the policy lists the paths of an
    executable name, a command that names the program by another absolute path is
    not matched by the rules for that name, with or without host resolution, and is
    left to the fallback unless a rule for the path itself matches. *)
Theorem unlisted_host_executable_not_matched p cmd path program name paths fallback o :
  head cmd = Some path → abs_try_from path = Ok program →
  executable_path_lookup_key program = Some name →
  host_executables_by_name p !! name = Some paths → program ∉ paths →
  (∀ r, r ∈ get_vec (rules_by_program p) path → ¬ rule_applies r cmd) →
  check_with_options p cmd fallback o
  = Some (mkEvaluation (fallback cmd) [HeuristicsRuleMatch cmd (fallback cmd)]).
Proof.
  intros Hh Ht Hk Hl Hn Hr. rewrite check_evaluation.
  assert (E : rule_derived_matches p cmd o = []); [|by rewrite E].
  unfold rule_derived_matches, match_exact_rules, match_host_executable_rules.
  rewrite Hh. simpl. rewrite Ht, Hk, Hl.
  assert (omap (λ r, rule_matches r cmd) (get_vec (rules_by_program p) path)
    = ([] : list (RuleMatch A))) as ->.
  { apply elem_of_nil_inv. intros mt (r & Hin & Hm)%list_elem_of_omap.
    apply rule_matches_applies in Hm as [Hm _]. by eapply Hr. }
  simpl. assert (existsb (λ q, bool_decide (q = program)) paths = false) as ->.
  { apply not_true_iff_false. rewrite existsb_exists. setoid_rewrite bool_decide_eq_true.
    intros (q & Hq & ->). by apply Hn, list_elem_of_In. }
  destruct (resolve_host_executables o); [|done].
  by destruct (rules_by_program p !! name).
Qed.

(** A rule made from a plain prefix matches the commands that start with it. *)
Lemma literal_rule_matches t rest d cmd :
  rule_matches (A := A) (mkPrefixRule (mkPattern t (Single <$> rest)) d None) cmd =
  if decide ((t :: rest) `prefix_of` cmd) then Some (PrefixRuleMatch (t :: rest) d None None) else None.
Proof.
  set (r := mkPrefixRule (mkPattern t (Single <$> rest)) d None).
  assert (Hcov : ∀ pre, pattern_covers (pattern r) pre ↔ pre = t :: rest).
  { intros pre. unfold pattern_covers. simpl. split.
    - intros (ts & -> & Hts). f_equal. apply Forall2_fmap_l in Hts.
      induction Hts as [|x y xs ys Hxy _ IH]; [done|]. apply list_elem_of_singleton in Hxy as ->.
      by f_equal.
    - intros ->. exists rest. split; [done|]. apply Forall2_fmap_l, Forall_Forall2_diag, Forall_true.
      intros x. by apply list_elem_of_singleton. }
  case_decide as Hp.
  - unfold rule_matches. rewrite (proj2 (matches_prefix_covers (pattern r) cmd (t :: rest))); [done|].
    split; [done|]. by apply Hcov.
  - destruct (rule_matches r cmd) eqn:E; [|done]. exfalso.
    apply rule_matches_applies in E as [(pre & Hpre & ->%Hcov) _]. done.
Qed.

(** [add_prefix_rule] does what its caller asked and nothing else: a command
    that starts with the prefix is matched afterwards and judged by the stricter of
    the new decision and the rules that matched before, and a command that does not
    start with the prefix is judged exactly as before. *)
Theorem add_prefix_rule_effect prefix d p p' cmd fallback ev ev' :
  add_prefix_rule (SE := SE) prefix d p = Ok p' →
  check p cmd fallback = Some ev → check p' cmd fallback = Some ev' →
  (prefix `prefix_of` cmd → is_match ev' = true ∧
    eval_decision ev' = if is_match ev then decision_max (eval_decision ev) d else d)
  ∧ (¬ prefix `prefix_of` cmd → ev' = ev).
Proof.
  intros Ha. unfold check. rewrite !check_evaluation. intros [= <-] [= <-].
  destruct prefix as [|t rest]; [done|]. injection Ha as <-.
  set (r := mkPrefixRule (mkPattern t (Single <$> rest)) d None).
  assert (Hm : rule_derived_matches
      (mkPolicy (mm_insert t r (rules_by_program p)) (network_rules p) (host_executables_by_name p))
      cmd default_match_options
    = rule_derived_matches p cmd default_match_options
      ++ (if decide (head cmd = Some t) then omap (λ r, rule_matches r cmd) [r] else [])).
  { rewrite !exact_matches. destruct (head cmd) as [k|]; [|by rewrite decide_False].
    simpl. rewrite get_vec_insert, omap_app. f_equal.
    destruct (decide (k = t)) as [->|Hk]; [by rewrite decide_True|].
    rewrite decide_False by congruence. done. }
  rewrite !is_match_evaluation. rewrite Hm. split.
  - intros Hp. destruct (Hp) as [tail Htail].
    assert (Hr : rule_matches (A := A) r cmd = Some (PrefixRuleMatch (t :: rest) d None None)).
    { unfold r. rewrite literal_rule_matches. by rewrite decide_True. }
    rewrite decide_True by by rewrite Htail. simpl. rewrite Hr.
    split; [by destruct (rule_derived_matches p cmd _)|].
    unfold evaluation_of. rewrite fmap_app, decisions_max_app. simpl.
    destruct (decisions_max (match_decision <$> _)) as [x|] eqn:Ex; simpl.
    + by destruct (rule_derived_matches p cmd _).
    + apply decisions_max_None, fmap_nil_inv in Ex. by rewrite Ex.
  - intros Hp. assert (Hr : rule_matches (A := A) r cmd = None).
    { unfold r. rewrite literal_rule_matches. by rewrite decide_False. }
    simpl. rewrite Hr. by destruct (decide _); rewrite app_nil_r.
Qed.

Lemma elem_of_allowed entries x :
  x ∈ allowed_prefixes_of entries ↔
  ∃ k rs r, (k, rs) ∈ entries ∧ r ∈ rs ∧ rule_decision r = Allow
    ∧ x = first (pattern r) :: (render_pattern_token <$> rest (pattern r)).
Proof.
  unfold allowed_prefixes_of. rewrite list_elem_of_bind. split.
  - intros (r & Hx & ([k rs] & Hr & Hin)%list_elem_of_bind). exists k, rs, r.
    destruct (rule_decision r) eqn:E; try (by apply not_elem_of_nil in Hx).
    apply list_elem_of_singleton in Hx. done.
  - intros (k & rs & r & Hin & Hr & Hd & ->). exists r. rewrite Hd.
    split; [by apply list_elem_of_singleton|]. apply list_elem_of_bind. by exists (k, rs).
Qed.

(** [get_allowed_prefixes] lists each rendered prefix of an allow rule of the
    policy exactly once, in ascending order, whatever order the hash map enumerates
    its entries in. *)
Theorem allowed_prefixes_exact p :
  StronglySorted strs_le (get_allowed_prefixes p) ∧ NoDup (get_allowed_prefixes p)
  ∧ (∀ x, x ∈ get_allowed_prefixes p ↔
      ∃ r, has_rule p r ∧ rule_decision r = Allow
        ∧ x = first (pattern r) :: (render_pattern_token <$> rest (pattern r)))
  ∧ (∀ entries, Permutation entries (map_to_list (rules_by_program p)) →
      sort_dedup (allowed_prefixes_of entries) = get_allowed_prefixes p).
Proof.
  unfold get_allowed_prefixes, sort_dedup.
  set (l := allowed_prefixes_of _).
  destruct (dedup_sorted (merge_sort strs_le l)) as [H1 H2]; [apply StronglySorted_merge_sort; apply _|].
  split; [done|]. split; [done|]. split.
  - intros x. rewrite elem_of_dedup, merge_sort_Permutation. unfold l. rewrite elem_of_allowed.
    split.
    + intros (k & rs & r & Hin & Hr & Hx). exists r. split; [|done]. exists k.
      apply elem_of_map_to_list in Hin. unfold get_vec. by rewrite Hin.
    + intros (r & [k Hr] & Hx). unfold get_vec in Hr.
      destruct (rules_by_program p !! k) as [rs|] eqn:E; [|by apply not_elem_of_nil in Hr].
      exists k, rs, r. split; [by apply elem_of_map_to_list|done].
  - intros entries He. f_equal. apply (StronglySorted_unique strs_le);
      [apply StronglySorted_merge_sort; apply _..|]. rewrite !merge_sort_Permutation.
    unfold l, allowed_prefixes_of. by rewrite He.
Qed.
End Facts.

(** * Examples on a Unix-like path type *)

Definition unix_file_name (p : str) : option str :=
  n ← last (split_char 47%N p);
  if is_empty n || bool_decide (n = lit ".") || bool_decide (n = lit "..") then None else Some n.

#[export] Instance UnixPath : AbsolutePathBuf str := {|
  abs_try_from s := if starts_with s (lit "/") then Ok s else Err (lit "path is not absolute");
  abs_file_name := unix_file_name;
  path_is_absolute s := starts_with s (lit "/");
  path_component_count s :=
    length (filter (λ c, c ≠ [] ∧ c ≠ lit ".") (split_char 47%N s))
    + (if starts_with s (lit "/") then 1 else 0);
  path_file_name := unix_file_name;
  is_windows := false;
|}.

(** [git] is prompted for, [git push] and [git pull] are forbidden, and [git] is the
    program at one path. *)
Definition git_rule : PrefixRule := mkPrefixRule (mkPattern (lit "git") []) Prompt None.
Definition git_push_rule : PrefixRule :=
  mkPrefixRule (mkPattern (lit "git") [Alts [lit "push"; lit "pull"]]) Forbidden None.

Definition sample_rules : RuleMap :=
  mm_insert (rule_program git_push_rule) git_push_rule (mm_insert (rule_program git_rule) git_rule ∅).

Definition sample_policy : Policy str :=
  mkPolicy sample_rules [] {[ lit "git" := [lit "/usr/bin/git"] ]}.

Lemma sample_policy_keyed : keyed (rules_by_program sample_policy).
Proof. refine (keyed_insert _ _ (keyed_insert _ _ _)). intros k. constructor. Defined.

Lemma policy_operations_keyed_witness :
  keyed (rules_by_program (merge_overlay sample_policy sample_policy)).
Proof.
  destruct (policy_operations_keyed (SE := unit) sample_policy sample_policy
    sample_policy_keyed sample_policy_keyed) as (_ & H & _). exact H.
Defined.

Lemma check_strictest_rule_witness :
  ∃ ev, check sample_policy [lit "git"; lit "push"; lit "-f"] (λ _, Allow) = Some ev
    ∧ eval_decision ev = Forbidden.
Proof.
  destruct (check_strictest_rule sample_policy [lit "git"; lit "push"; lit "-f"] (λ _, Allow)
    sample_policy_keyed) as (ev & Hev & _).
  exists ev. split; [exact Hev|]. vm_compute in Hev. by injection Hev as <-.
Defined.

Lemma unlisted_host_executable_not_matched_witness :
  check_with_options sample_policy [lit "/tmp/git"; lit "push"] (λ _, Prompt) (mkMatchOptions true)
  = Some (mkEvaluation Prompt [HeuristicsRuleMatch [lit "/tmp/git"; lit "push"] Prompt]).
Proof.
  apply (unlisted_host_executable_not_matched sample_policy [lit "/tmp/git"; lit "push"]
    (lit "/tmp/git") (lit "/tmp/git") (lit "git") [lit "/usr/bin/git"]).
  - reflexivity.
  - vm_compute. reflexivity.
  - vm_compute. reflexivity.
  - vm_compute. reflexivity.
  - intros H. apply list_elem_of_singleton in H. vm_compute in H. discriminate.
  - intros r H. vm_compute in H. inversion H.
Defined.

Definition ls_rule : PrefixRule := mkPrefixRule (mkPattern (lit "ls") []) Allow None.

Definition ls_policy : Policy str :=
  mkPolicy (mm_insert (lit "ls") ls_rule (rules_by_program sample_policy)) []
    (host_executables_by_name sample_policy).

Lemma add_prefix_rule_effect_witness :
  is_match (mkEvaluation Allow [PrefixRuleMatch (A := str) [lit "ls"] Allow None None]) = true.
Proof.
  refine (proj1 (proj1 (add_prefix_rule_effect (SE := unit) [lit "ls"] Allow
    sample_policy ls_policy [lit "ls"; lit "-l"] (λ _, Forbidden)
    (mkEvaluation Forbidden [HeuristicsRuleMatch [lit "ls"; lit "-l"] Forbidden])
    (mkEvaluation Allow [PrefixRuleMatch [lit "ls"] Allow None None]) _ _ _)
    (ex_intro _ [lit "-l"] eq_refl))); vm_compute; reflexivity.
Defined.

(** Network rules: the hosts they store and the domain lists compiled from them. *)

(** * Compiled domains *)

(** What the rules say about a host: the last allow or forbid rule for it wins. *)
Definition rules_verdict (rules : list NetworkRule) (h : str) : option Decision :=
  foldl (λ acc r,
    if decide (nr_host r = h) then
      match nr_decision r with
      | Prompt => acc
      | d => Some d
      end
    else acc) None rules.

(** The lists are duplicate-free, disjoint, and hold the hosts by verdict. *)
Definition domains_match (rules : list NetworkRule) (acc : list str * list str) : Prop :=
  NoDup acc.1 ∧ NoDup acc.2
  ∧ (∀ h, h ∈ acc.1 ↔ rules_verdict rules h = Some Allow)
  ∧ (∀ h, h ∈ acc.2 ↔ rules_verdict rules h = Some Forbidden).

Lemma elem_of_retain h x l : h ∈ retain_other x l ↔ h ≠ x ∧ h ∈ l.
Proof. unfold retain_other. by rewrite list_elem_of_filter. Qed.

Lemma elem_of_upsert h x l : h ∈ upsert_domain l x ↔ h = x ∨ h ∈ l.
Proof.
  unfold upsert_domain. rewrite elem_of_app, list_elem_of_singleton, elem_of_retain.
  destruct (decide (h = x)); naive_solver.
Qed.

Lemma NoDup_retain x l : NoDup l → NoDup (retain_other x l).
Proof. apply NoDup_filter. Qed.

Lemma NoDup_upsert x l : NoDup l → NoDup (upsert_domain l x).
Proof.
  intros Hl. apply NoDup_app. split; [by apply NoDup_retain|]. split; [|apply NoDup_singleton].
  intros y Hy ->%list_elem_of_singleton. by apply elem_of_retain in Hy as [? _].
Qed.

Lemma compile_step rules acc r :
  domains_match rules acc → domains_match (rules ++ [r]) (compile_network_rule acc r).
Proof.
  destruct acc as [allowed denied]. intros (H1 & H2 & H3 & H4). unfold domains_match.
  unfold rules_verdict. setoid_rewrite foldl_app. simpl. fold (rules_verdict rules).
  unfold compile_network_rule. simpl in *.
  destruct (nr_decision r); simpl; (split; [auto using NoDup_retain, NoDup_upsert|]);
    (split; [auto using NoDup_retain, NoDup_upsert|]); split; intros h;
    rewrite ?elem_of_retain, ?elem_of_upsert, ?H3, ?H4; unfold rules_verdict;
    case_decide; naive_solver.
Qed.

(** The compiled domain lists never contradict each other: they have no
    duplicates, a host is allowed exactly when its last allow-or-forbid rule allows it,
    denied exactly when that rule forbids it, and so never both; rules that prompt
    change nothing. *)
Theorem compiled_domains_last_rule_wins {A} (p : Policy A) (allowed denied : list str) :
  compiled_network_domains p = (allowed, denied) →
  NoDup allowed ∧ NoDup denied
  ∧ (∀ h, h ∈ allowed ↔ rules_verdict (network_rules p) h = Some Allow)
  ∧ (∀ h, h ∈ denied ↔ rules_verdict (network_rules p) h = Some Forbidden)
  ∧ (∀ h, h ∈ allowed → h ∉ denied).
Proof.
  intros E. assert (H : domains_match (network_rules p) (allowed, denied)).
  { rewrite <- E. unfold compiled_network_domains. generalize (network_rules p). intros rules.
    induction rules as [|r rules IH] using rev_ind; [|rewrite foldl_app; by apply compile_step].
    repeat split; try constructor; try done; by intros ?%not_elem_of_nil. }
  destruct H as (H1 & H2 & H3 & H4). simpl in *. repeat split; try apply H3; try apply H4; try done.
  intros h Ha Hd. apply H3 in Ha. apply H4 in Hd. congruence.
Qed.

Lemma compiled_domains_last_rule_wins_witness :
  NoDup [lit "b"; lit "a"] ∧ lit "a" ∉ ([] : list str).
Proof.
  destruct (compiled_domains_last_rule_wins (A := nat)
    (mkPolicy ∅ [mkNetworkRule (lit "a") Https Forbidden None; mkNetworkRule (lit "b") Http Allow None;
       mkNetworkRule (lit "b") Http Prompt None; mkNetworkRule (lit "a") Https Allow None] ∅)
    [lit "b"; lit "a"] []) as (H1 & _ & H3 & _ & H5); [vm_compute; reflexivity|].
  split; [exact H1|]. apply H5, H3. vm_compute. reflexivity.
Defined.

(** * Normalized hosts *)

(** A host that evaluation can compare: nonempty, with no ASCII uppercase letter, no
    whitespace and no wildcard, and without the characters of a URL path. *)
Definition host_normal (h : str) : Prop :=
  h ≠ [] ∧ Forall (λ c, is_whitespace c = false ∧ is_ascii_uppercase c = false
    ∧ c ≠ 42%N ∧ c ≠ 47%N ∧ c ≠ 63%N ∧ c ≠ 35%N) h.

Lemma trim_start_matches_In f s c : c ∈ trim_start_matches f s → c ∈ s.
Proof.
  induction s as [|d s IH]; simpl; [done|]. case_goal; [|done]. intros ?. right. auto.
Qed.

Lemma trim_end_matches_In f s c : c ∈ trim_end_matches f s → c ∈ s.
Proof.
  unfold trim_end_matches. rewrite elem_of_reverse. intros H%trim_start_matches_In.
  by rewrite elem_of_reverse in H.
Qed.

Lemma trim_In s c : c ∈ trim s → c ∈ s.
Proof. intros H%trim_end_matches_In. by apply trim_start_matches_In in H. Qed.

Lemma split_once_In s d a b c : split_once s d = Some (a, b) → c ∈ a → c ∈ s.
Proof.
  revert a. induction s as [|x s IH]; intros a; simpl; [done|]. case_goal.
  - intros [= <- <-] H. by apply not_elem_of_nil in H.
  - destruct (split_once s d) as [[a' b']|]; intros [= <- <-] [->|H]%elem_of_cons; [by left|].
    right. by eapply IH.
Qed.

Lemma split_once_In_snd s d a b c : split_once s d = Some (a, b) → c ∈ b → c ∈ s.
Proof.
  revert a. induction s as [|x s IH]; intros a; simpl; [done|]. case_goal.
  - intros [= <- <-] H. by right.
  - destruct (split_once s d) as [[a' b']|] eqn:E; intros [= <- <-] H. right. by eapply IH.
Qed.

Lemma rsplit_once_In s d a b c : rsplit_once s d = Some (a, b) → c ∈ a → c ∈ s.
Proof.
  unfold rsplit_once. destruct (split_once (reverse s) d) as [[x y]|] eqn:E; intros [= <- <-].
  rewrite elem_of_reverse. intros H. eapply split_once_In_snd in H; [|done].
  by rewrite elem_of_reverse in H.
Qed.

(** Dropping brackets and port only drops characters. *)
Lemma strip_port_In {SE} raw host h c :
  strip_port (SE := SE) raw host = Ok h → c ∈ h → c ∈ host.
Proof.
  unfold strip_port. destruct (strip_prefix host (lit "[")) as [s|] eqn:Ep.
  - apply strip_prefix_Some in Ep as ->. destruct (split_once s 93) as [[a b]|] eqn:Es; [|done].
    destruct (negb (is_empty b) && _); [done|]. intros [= <-] H. apply elem_of_app. right. by eapply split_once_In.
  - case_goal; [|by intros [= <-]]. destruct (rsplit_once host COLON) as [[a b]|] eqn:Es;
      [|by intros [= <-]].
    case_goal; intros [= <-]; [|done]. intros H. by eapply rsplit_once_In.
Qed.

Lemma lower_not_upper c : is_ascii_uppercase (to_ascii_lowercase_char c) = false.
Proof.
  unfold to_ascii_lowercase_char. destruct (is_ascii_uppercase c) eqn:E; [|done].
  unfold is_ascii_uppercase in *. bool_props.
  apply N.leb_le in H, H0. apply andb_false_iff. right. apply N.leb_gt. lia.
Qed.

Lemma lower_eq c d : (d < 97)%N → to_ascii_lowercase_char c = d → c = d.
Proof.
  unfold to_ascii_lowercase_char. destruct (is_ascii_uppercase c) eqn:E; [|done].
  unfold is_ascii_uppercase in E. bool_props. apply N.leb_le in H, H0. lia.
Qed.

(** A host that [normalize_network_rule_host] accepts is normal, whatever the raw text. *)
Lemma normalized_host_normal {SE} (raw h : str) :
  normalize_network_rule_host (SE := SE) raw = Ok h → host_normal h.
Proof.
  unfold normalize_network_rule_host. case_goal; [done|]. case_goal; [done|].
  apply orb_false_iff in Heqb0 as [Hc H35]. apply orb_false_iff in Hc as [Hc H63].
  apply orb_false_iff in Hc as [_ H47]. apply contains_char_false in H35, H63, H47.
  destruct (strip_port raw (trim raw)) as [host|] eqn:Es; simpl; [|done].
  set (n := to_ascii_lowercase _). destruct (is_empty n) eqn:En; [done|].
  destruct (contains_char n 42) eqn:E42; [done|]. destruct (existsb is_whitespace n) eqn:Ew; [done|].
  intros [= <-]. apply contains_char_false in E42. split; [by destruct n|].
  apply Forall_forall. intros c Hc.
  assert (Hn : ∀ d, (d < 97)%N → d ∉ trim raw → c ≠ d).
  { intros d Hd Hr ->. apply Hr. unfold n, to_ascii_lowercase in Hc.
    apply list_elem_of_fmap in Hc as (c0 & Hc0 & Hin). symmetry in Hc0. apply lower_eq in Hc0 as ->; [|done].
    apply trim_In, trim_end_matches_In in Hin. by eapply strip_port_In. }
  repeat split; try (apply Hn; [lia|done]).
  - destruct (is_whitespace c) eqn:E; [|done]. rewrite <- Ew. symmetry. apply existsb_exists.
    exists c. split; [by apply list_elem_of_In|done].
  - unfold n, to_ascii_lowercase in Hc. apply list_elem_of_fmap in Hc as (c0 & -> & _).
    apply lower_not_upper.
  - intros ->. done.
Qed.
