(* ===== verification/ExecPolicyParser.v ===== *)
(** [parser.rs] of [codex-execpolicy] and the example validation of [rule.rs]: the
    Starlark builtins that build a policy, and the check of the examples given with
    the rules.

    The Starlark interpreter, [shlex] and the [Debug] renderings are parameters. The
    builtins return [None], so the builtin calls a script makes do not depend on the
    builder: a script is the sequence of its calls. *)
From stdpp Require Import base list sets numbers strings gmap.
From S2P Require Import Prelude RustStr ExecRule ExecPolicy.

(** A Starlark value, as far as the builtins look into it. *)
Inductive Value : Type :=
| VStr (s : str)
| VList (vs : list Value)
| VOther (type_name : str).

Definition unpack_str (v : Value) : option str :=
  match v with
  | VStr s => Some s
  | _ => None
  end.

Definition get_type (v : Value) : str :=
  match v with
  | VStr _ => lit "string"
  | VList _ => lit "list"
  | VOther t => t
  end.

(** A call of a builtin with its arguments, and for [prefix_rule] the location of the
    call. *)
Inductive BuiltinCall : Type :=
| CallPrefixRule (pattern : list Value) (decision : option str) (matches not_match : option (list Value))
    (justification : option str) (location : option ErrorLocation)
| CallNetworkRule (host protocol decision : str) (justification : option str)
| CallHostExecutable (name : str) (paths : list Value).

(** The interpreter ([starlark]), [shlex] and [Debug]. [starlark_parse] parses a file;
    its result is the calls of the script while every builtin succeeds, and the error
    it then stops with, if any. [builtin_error] is a builtin's error as a Starlark
    error. *)
Class PolicyRuntime (A : Type) := {
  StarlarkError : Type;
  starlark_parse : str → str → Result (list BuiltinCall * option StarlarkError) StarlarkError;
  builtin_error : Error StarlarkError → StarlarkError;
  shlex_split : str → option (list str);
  shlex_try_join : list str → option str;
  debug_rule : PrefixRule → str;
  debug_match : RuleMatch A → str;
}.
Arguments StarlarkError A {_}.

Record PendingExampleValidation : Type := mkPending {
  pv_rules : list PrefixRule;
  pv_matches : list (list str);
  pv_not_matches : list (list str);
  pv_location : option ErrorLocation;
}.

Record PolicyBuilder (A : Type) : Type := mkBuilder {
  b_rules : RuleMap;
  b_network_rules : list NetworkRule;
  b_host_executables : gmap str (list A);
  b_pending : list PendingExampleValidation;
}.
Arguments mkBuilder {A} b_rules b_network_rules b_host_executables b_pending.
Arguments b_rules {A} _.
Arguments b_network_rules {A} _.
Arguments b_host_executables {A} _.
Arguments b_pending {A} _.

Definition new_builder {A} : PolicyBuilder A := mkBuilder ∅ [] ∅ [].

Definition builder_add_rule {A} (r : PrefixRule) (b : PolicyBuilder A) : PolicyBuilder A :=
  mkBuilder (mm_insert (rule_program r) r (b_rules b)) (b_network_rules b) (b_host_executables b)
    (b_pending b).

Definition builder_add_network_rule {A} (r : NetworkRule) (b : PolicyBuilder A) : PolicyBuilder A :=
  mkBuilder (b_rules b) (b_network_rules b ++ [r]) (b_host_executables b) (b_pending b).

Definition add_host_executable {A} (name : str) (paths : list A) (b : PolicyBuilder A)
    : PolicyBuilder A :=
  mkBuilder (b_rules b) (b_network_rules b) (<[name := paths]> (b_host_executables b)) (b_pending b).

Definition add_pending_example_validation {A} (v : PendingExampleValidation) (b : PolicyBuilder A)
    : PolicyBuilder A :=
  mkBuilder (b_rules b) (b_network_rules b) (b_host_executables b) (b_pending b ++ [v]).

Definition build {A} (b : PolicyBuilder A) : Policy A :=
  mkPolicy (b_rules b) (b_network_rules b) (b_host_executables b).

Section Parser.
Context {A : Type} `{AbsolutePathBuf A} `{RT : PolicyRuntime A}.
Abbreviation PError := (Error (StarlarkError A)).
Abbreviation BuilderM := (SE (PolicyBuilder A) unit PError).

(** * Arguments *)

(** [value.unpack_str().ok_or_else(..)] for each element. *)
Definition unpack_strings (err : str → PError) (vs : list Value) : Result (list str) PError :=
  collect_results (λ v, ok_or (unpack_str v) (err (get_type v))) vs.

Definition parse_pattern_token (v : Value) : Result PatternToken PError :=
  match v with
  | VStr s => Ok (Single s)
  | VList vs =>
      let? tokens := unpack_strings
        (λ t, InvalidPattern (lit "pattern alternative must be a string (got " ++ t ++ lit ")")) vs in
      match tokens with
      | [] => Err (InvalidPattern (lit "pattern alternatives cannot be empty"))
      | [single] => Ok (Single single)
      | _ => Ok (Alts tokens)
      end
  | VOther t =>
      Err (InvalidPattern (lit "pattern element must be a string or list of strings (got " ++ t ++ lit ")"))
  end.

Definition parse_pattern (vs : list Value) : Result (list PatternToken) PError :=
  let? tokens := collect_results parse_pattern_token vs in
  if is_empty tokens then Err (InvalidPattern (lit "pattern cannot be empty")) else Ok tokens.

Definition parse_string_example (raw : str) : Result (list str) PError :=
  let? tokens := ok_or (shlex_split raw)
    (InvalidExample (lit "example string has invalid shell syntax")) in
  if is_empty tokens then Err (InvalidExample (lit "example cannot be an empty string")) else Ok tokens.

Definition parse_list_example (vs : list Value) : Result (list str) PError :=
  let? tokens := unpack_strings
    (λ t, InvalidExample (lit "example tokens must be strings (got " ++ t ++ lit ")")) vs in
  if is_empty tokens then Err (InvalidExample (lit "example cannot be an empty list")) else Ok tokens.

Definition parse_example (v : Value) : Result (list str) PError :=
  match v with
  | VStr raw => parse_string_example raw
  | VList vs => parse_list_example vs
  | VOther t =>
      Err (InvalidExample (lit "example must be a string or list of strings (got " ++ t ++ lit ")"))
  end.

Definition parse_examples (vs : list Value) : Result (list (list str)) PError :=
  collect_results parse_example vs.

(** [.map(parse_examples).transpose()?.unwrap_or_default()]. *)
Definition parse_optional_examples (vs : option (list Value)) : Result (list (list str)) PError :=
  match vs with
  | Some vs => parse_examples vs
  | None => Ok []
  end.

Definition parse_literal_absolute_path (raw : str) : Result A PError :=
  if negb (path_is_absolute raw) then
    Err (InvalidRule (lit "host_executable paths must be absolute (got " ++ raw ++ lit ")"))
  else
    map_err (λ e, InvalidRule (lit "invalid absolute path `" ++ raw ++ lit "`: " ++ e))
      (abs_try_from raw).

Definition validate_host_executable_name (name : str) : Result unit PError :=
  if is_empty name then Err (InvalidRule (lit "host_executable name cannot be empty"))
  else if negb (path_component_count name =? 1)
          || negb (bool_decide (path_file_name name = Some name)) then
    Err (InvalidRule (lit "host_executable name must be a bare executable name (got " ++ name ++ lit ")"))
  else Ok tt.

Definition parse_network_rule_decision (raw : str) : Result Decision PError :=
  if bool_decide (raw = lit "deny") then Ok Forbidden else decision_parse raw.

(** The optional justification must not be blank. *)
Definition parse_justification (j : option str) : Result (option str) PError :=
  match j with
  | Some raw =>
      if is_empty (trim raw) then Err (InvalidRule (lit "justification cannot be empty"))
      else Ok (Some raw)
  | None => Ok None
  end.

(** * Builtins *)

Definition prefix_rule (pattern : list Value) (decision : option str)
    (matches not_match : option (list Value)) (justification : option str)
    (location : option ErrorLocation) : BuilderM :=
  decision <-- se_lift (match decision with Some raw => decision_parse raw | None => Ok Allow end) ;;
  justification <-- se_lift (parse_justification justification) ;;
  pattern_tokens <-- se_lift (parse_pattern pattern) ;;
  matches <-- se_lift (parse_optional_examples matches) ;;
  not_matches <-- se_lift (parse_optional_examples not_match) ;;
  match pattern_tokens with
  | [] => se_fail (InvalidPattern (lit "pattern cannot be empty"))
  | first_token :: remaining_tokens =>
      let rules := (λ head, mkPrefixRule (mkPattern head remaining_tokens) decision justification)
        <$> alternatives first_token in
      se_modify (add_pending_example_validation (mkPending rules matches not_matches location)) ;;;
      se_modify (λ b, foldl (λ b r, builder_add_rule r b) b rules)
  end.

Definition network_rule (host protocol decision : str) (justification : option str) : BuilderM :=
  protocol <-- se_lift (protocol_parse protocol) ;;
  decision <-- se_lift (parse_network_rule_decision decision) ;;
  justification <-- se_lift (parse_justification justification) ;;
  host <-- se_lift (normalize_network_rule_host host) ;;
  se_modify (builder_add_network_rule (mkNetworkRule host protocol decision justification)).

Definition basename_error (raw name : str) : PError :=
  InvalidRule (lit "host_executable path `" ++ raw ++ lit "` must have basename `" ++ name ++ lit "`").

(** The loop over [paths.items], with the paths parsed so far. *)
Fixpoint parse_host_paths (name : str) (vs : list Value) (parsed : list A) : Result (list A) PError :=
  match vs with
  | [] => Ok parsed
  | v :: vs =>
      let? raw := ok_or (unpack_str v)
        (InvalidRule (lit "host_executable paths must be strings (got " ++ get_type v ++ lit ")")) in
      let? path := parse_literal_absolute_path raw in
      match executable_path_lookup_key path with
      | None => Err (basename_error raw name)
      | Some path_name =>
          if negb (bool_decide (path_name = executable_lookup_key (is_windows A) name)) then
            Err (basename_error raw name)
          else
            parse_host_paths name vs
              (if existsb (λ existing, bool_decide (existing = path)) parsed then parsed
               else parsed ++ [path])
      end
  end.

Definition host_executable (name : str) (paths : list Value) : BuilderM :=
  se_lift (validate_host_executable_name name) ;;;
  parsed_paths <-- se_lift (parse_host_paths name paths []) ;;
  se_modify (add_host_executable (executable_lookup_key (is_windows A) name) parsed_paths).

Definition call_builtin (c : BuiltinCall) : BuilderM :=
  match c with
  | CallPrefixRule p d m n j l => prefix_rule p d m n j l
  | CallNetworkRule h p d j => network_rule h p d j
  | CallHostExecutable n ps => host_executable n ps
  end.

(** * Validation of the examples *)

Definition example_options : MatchOptions := mkMatchOptions true.

Definition render_example (example : list str) : str :=
  default (lit "unable to render example") (shlex_try_join example).

Definition validate_match_examples (p : Policy A) (rules : list PrefixRule)
    (matches : list (list str)) : Result unit PError :=
  let unmatched := filter
    (λ e, is_empty (matches_for_command_with_options p e None example_options) = true) matches in
  if is_empty unmatched then Ok tt
  else Err (ExampleDidNotMatch (debug_rule <$> rules) (render_example <$> unmatched) None).

Fixpoint validate_not_match_examples (p : Policy A) (not_matches : list (list str))
    : Result unit PError :=
  match not_matches with
  | [] => Ok tt
  | e :: not_matches =>
      match head (matches_for_command_with_options p e None example_options) with
      | Some m => Err (ExampleDidMatch (debug_match m) (render_example e) None)
      | None => validate_not_match_examples p not_matches
      end
  end.

Definition attach_validation_location (e : PError) (l : option ErrorLocation) : PError :=
  match l with
  | Some l => with_location e l
  | None => e
  end.

(** The policy of one call's rules with the host executables known at the end of the
    file. *)
Definition validation_policy (b : PolicyBuilder A) (v : PendingExampleValidation) : Policy A :=
  mkPolicy (foldl (λ m r, mm_insert (rule_program r) r m) ∅ (pv_rules v)) [] (b_host_executables b).

Definition validate_pending (b : PolicyBuilder A) (v : PendingExampleValidation) : Result unit PError :=
  let p := validation_policy b v in
  let? _ := map_err (λ e, attach_validation_location e (pv_location v))
    (validate_not_match_examples p (pv_not_matches v)) in
  map_err (λ e, attach_validation_location e (pv_location v))
    (validate_match_examples p (pv_rules v) (pv_matches v)).

Fixpoint validate_all (b : PolicyBuilder A) (vs : list PendingExampleValidation) : Result unit PError :=
  match vs with
  | [] => Ok tt
  | v :: vs => let? _ := validate_pending b v in validate_all b vs
  end.

Definition validate_pending_examples_from (start : nat) (b : PolicyBuilder A) : Result unit PError :=
  validate_all b (drop start (b_pending b)).

(** * Files *)

(** The evaluation of a script: its builtin calls in order, the first error wins. *)
Fixpoint eval_calls (cs : list BuiltinCall) : BuilderM :=
  match cs with
  | [] => se_ret tt
  | c :: cs => call_builtin c ;;; eval_calls cs
  end.

Definition eval_module (script : list BuiltinCall * option (StarlarkError A)) : BuilderM := λ b,
  match eval_calls script.1 b with
  | (b, Ok _) =>
      match script.2 with
      | Some e => (b, Err (Starlark e))
      | None => (b, Ok tt)
      end
  | (b, Err e) => (b, Err (Starlark (builtin_error e)))
  end.

(** [PolicyParser::parse]. *)
Definition parse_policy (policy_identifier policy_file_contents : str) : BuilderM :=
  b <-- se_get ;;
  let pending_validation_count := length (b_pending b) in
  script <-- se_lift (map_err Starlark (starlark_parse policy_identifier policy_file_contents)) ;;
  eval_module script ;;;
  b <-- se_get ;;
  se_lift (validate_pending_examples_from pending_validation_count b).

(** [load_policies], after reading the files: identifiers with contents. *)
Fixpoint parse_policies (files : list (str * str)) : BuilderM :=
  match files with
  | [] => se_ret tt
  | (policy_identifier, contents) :: files =>
      parse_policy policy_identifier contents ;;; parse_policies files
  end.
End Parser.
