(* ===== verification/ExecPolicyParserFacts.v ===== *)
(** Loading policy files: what every built policy satisfies, and what the examples
    given with the rules guarantee. *)
From stdpp Require Import base list sets numbers strings gmap.
From S2P Require Import Prelude RustStr ExecRule ExecPolicy ExecPolicyFacts ExecPolicyParser.

Section Facts.
Context {A : Type} `{HA : AbsolutePathBuf A} `{RT : PolicyRuntime A}.
Abbreviation Builder := (PolicyBuilder A).
Abbreviation BM X := (SE Builder X (Error (StarlarkError A))).
Implicit Types (b : Builder) (v : PendingExampleValidation) (r : PrefixRule).

(** The rules of a recorded validation are rules of the builder. *)
Definition registered (m : RuleMap) v : Prop :=
  Forall (λ r, r ∈ get_vec m (rule_program r)) (pv_rules v).

(** The paths of an executable name: no duplicates, and the name is their basename. *)
Definition host_paths_ok (name : str) (paths : list A) : Prop :=
  NoDup paths ∧ Forall (λ q, executable_path_lookup_key q = Some name) paths.

Definition builder_ok b : Prop :=
  keyed (b_rules b)
  ∧ Forall (λ nr, host_normal (nr_host nr)) (b_network_rules b)
  ∧ map_Forall host_paths_ok (b_host_executables b)
  ∧ Forall (registered (b_rules b)) (b_pending b).

Lemma builder_ok_intro rs ns hs ps :
  keyed rs → Forall (λ nr, host_normal (nr_host nr)) ns → map_Forall host_paths_ok hs →
  Forall (registered rs) ps → builder_ok (mkBuilder rs ns hs ps).
Proof. by intros; split_and!. Qed.

Lemma builder_ok_new : builder_ok new_builder.
Proof.
  apply builder_ok_intro; [intros k; apply Forall_nil_2|constructor|apply map_Forall_empty|constructor].
Qed.

(** [m] keeps the builder well formed, whether it succeeds or fails. *)
Definition keeps {X} (m : BM X) : Prop :=
  triple builder_ok m (λ _, builder_ok) (λ _, builder_ok).

Lemma keeps_bind {X Y} (m : BM X) (k : X → BM Y) :
  keeps m → (∀ x, keeps (k x)) → keeps (x <-- m ;; k x).
Proof. intros Hm Hk. by eapply triple_bind. Qed.

Lemma keeps_ret {X} (x : X) : keeps (se_ret x).
Proof. by apply triple_ret. Qed.

Lemma keeps_fail {X} e : keeps (se_fail (A := X) e).
Proof. by apply triple_fail. Qed.

Lemma keeps_get : keeps se_get.
Proof. by apply triple_get. Qed.

(** A fallible computation that leaves the builder alone, with what its success says. *)
Lemma keeps_lift {X Y} (r : Result X (Error (StarlarkError A))) (k : X → BM Y) :
  (∀ x, r = Ok x → keeps (k x)) → keeps (x <-- se_lift r ;; k x).
Proof.
  intros Hk b Hb. unfold se_bind, se_lift. destruct r as [x|e]; [|done]. by apply Hk.
Qed.

Lemma keeps_lift_end {X} (r : Result X (Error (StarlarkError A))) : keeps (se_lift r).
Proof. apply triple_lift. intros b Hb. by destruct r. Qed.

Lemma keeps_modify f : (∀ b, builder_ok b → builder_ok (f b)) → keeps (se_modify f).
Proof. intros Hf. by apply triple_modify. Qed.

Lemma registered_mono m m' v :
  (∀ k x, x ∈ get_vec m k → x ∈ get_vec m' k) → registered m v → registered m' v.
Proof. intros Hm Hv. eapply Forall_impl; [exact Hv|]. intros x. apply Hm. Qed.

Lemma get_vec_insert_mono k r m k' x : x ∈ get_vec m k' → x ∈ get_vec (mm_insert k r m) k'.
Proof. intros H. rewrite get_vec_insert. apply elem_of_app. by left. Qed.

Lemma fold_rules rs m k :
  get_vec (foldl (λ m r, mm_insert (rule_program r) r m) m rs) k
  = get_vec m k ++ filter (λ r, rule_program r = k) rs.
Proof.
  revert m. induction rs as [|r rs IH]; intros m; simpl; [by rewrite app_nil_r|].
  rewrite IH, get_vec_insert, <- app_assoc. f_equal. rewrite filter_cons.
  destruct (decide (k = rule_program r)), (decide (rule_program r = k)); by subst.
Qed.

Lemma fold_builder_rules rs b :
  foldl (λ b r, builder_add_rule r b) b rs
  = mkBuilder (foldl (λ m r, mm_insert (rule_program r) r m) (b_rules b) rs) (b_network_rules b)
      (b_host_executables b) (b_pending b).
Proof. revert b. induction rs as [|r rs IH]; intros []; simpl; [done|]. by rewrite IH. Qed.

Lemma prefix_rule_keeps p d ms ns j l : keeps (prefix_rule p d ms ns j l).
Proof.
  unfold prefix_rule. do 5 (apply keeps_lift; intros ? _).
  case_goal; [apply keeps_fail|]. set (rules := _ <$> _).
  intros b (H1 & H2 & H3 & H4). unfold se_bind, se_modify, add_pending_example_validation.
  rewrite fold_builder_rules. apply builder_ok_intro; simpl; try done.
  - intros k. rewrite fold_rules. apply Forall_app. split; [done|].
    apply Forall_forall. by intros r [? _]%list_elem_of_filter.
  - apply Forall_app. split.
    + eapply Forall_impl; [done|]. intros v. apply registered_mono. intros k y Hy.
      rewrite fold_rules. apply elem_of_app. by left.
    + constructor; [|done]. apply Forall_forall. intros r Hr. rewrite fold_rules.
      apply elem_of_app. right. by apply list_elem_of_filter.
Qed.

Lemma network_rule_keeps h p d j : keeps (network_rule h p d j).
Proof.
  unfold network_rule. do 3 (apply keeps_lift; intros ? _). apply keeps_lift. intros host Hh.
  apply keeps_modify. intros b (H1 & H2 & H3 & H4). apply builder_ok_intro; simpl; try done.
  apply Forall_app. split; [done|]. constructor; [|done]. simpl.
  by eapply normalized_host_normal.
Qed.

Lemma parse_host_paths_ok name vs parsed paths :
  host_paths_ok (executable_lookup_key (is_windows A) name) parsed →
  parse_host_paths name vs parsed = Ok paths →
  host_paths_ok (executable_lookup_key (is_windows A) name) paths.
Proof.
  revert parsed. induction vs as [|v vs IH]; intros parsed Hp; simpl; [by intros [= <-]|].
  destruct (ok_or (unpack_str v) _) as [raw|]; simpl; [|done].
  destruct (parse_literal_absolute_path raw) as [q|]; simpl; [|done].
  destruct (executable_path_lookup_key q) as [n|] eqn:Eq; [|done].
  case_bool_decide as En; simpl; [|done]. apply IH.
  destruct (existsb _ parsed) eqn:Ee; [done|]. destruct Hp as [Hnd Hall]. split.
  - apply NoDup_app. split; [done|]. split; [|apply NoDup_singleton].
    intros x Hx ->%list_elem_of_singleton. apply not_true_iff_false in Ee. apply Ee.
    apply existsb_exists. exists q. rewrite bool_decide_eq_true. by rewrite <- list_elem_of_In.
  - apply Forall_app. split; [done|]. constructor; [|done]. by rewrite Eq, En.
Qed.

Lemma host_executable_keeps n ps : keeps (host_executable n ps).
Proof.
  unfold host_executable. apply keeps_lift. intros ? _. apply keeps_lift. intros paths Hp.
  apply keeps_modify. intros b (H1 & H2 & H3 & H4). apply builder_ok_intro; simpl; try done.
  apply map_Forall_insert_2; [|done]. eapply parse_host_paths_ok; [|done].
  split; [apply NoDup_nil_2|constructor].
Qed.

Lemma eval_calls_keeps cs : keeps (eval_calls cs).
Proof.
  induction cs as [|c cs IH]; simpl; [apply keeps_ret|]. apply keeps_bind; [|done].
  destruct c; [apply prefix_rule_keeps|apply network_rule_keeps|apply host_executable_keeps].
Qed.

Lemma eval_module_keeps script : keeps (eval_module script).
Proof.
  intros b Hb. unfold eval_module. pose proof (eval_calls_keeps script.1 b Hb) as Hc.
  destruct (eval_calls script.1 b) as [b' [u|e]]; [|done]. by destruct script.2.
Qed.

Lemma parse_policy_keeps i c : keeps (parse_policy i c).
Proof.
  unfold parse_policy. apply keeps_bind; [apply keeps_get|]. intros b0. apply keeps_lift.
  intros script _. apply keeps_bind; [apply eval_module_keeps|]. intros _.
  apply keeps_bind; [apply keeps_get|]. intros b1. apply keeps_lift_end.
Qed.

(** The command starts with one alternative of each token. *)
Definition tokens_cover (tokens : list PatternToken) (cmd : list str) : Prop :=
  ∃ ts, ts `prefix_of` cmd ∧ Forall2 (λ t c, c ∈ alternatives t) tokens ts.

(** What a successful [prefix_rule] call records. *)
Definition records_call p d ms ns v : Prop :=
  ∃ tokens decision, parse_pattern p = Ok tokens
    ∧ match d with Some raw => decision_parse raw | None => Ok Allow end
      = Ok (E := Error (StarlarkError A)) decision
    ∧ parse_optional_examples ms = Ok (pv_matches v)
    ∧ parse_optional_examples ns = Ok (pv_not_matches v)
    ∧ Forall (λ r, rule_decision r = decision) (pv_rules v)
    ∧ (∀ cmd, (∃ r, r ∈ pv_rules v ∧ rule_applies r cmd) ↔ tokens_cover tokens cmd).

Lemma expansion_covers tok tokens d j cmd :
  (∃ r, r ∈ (λ h, mkPrefixRule (mkPattern h tokens) d j) <$> alternatives tok ∧ rule_applies r cmd)
  ↔ tokens_cover (tok :: tokens) cmd.
Proof.
  split.
  - intros (r & (h & -> & Hh)%list_elem_of_fmap & pre & Hp & ts & -> & Hts). simpl in *.
    exists (h :: ts). split; [done|]. by constructor.
  - intros (ts & Hp & Hts). apply Forall2_cons_inv_l in Hts as (h & ts' & Hh & Hts & ->).
    exists (mkPrefixRule (mkPattern h tokens) d j). split; [by apply list_elem_of_fmap; exists h|].
    exists (h :: ts'). split; [done|]. by exists ts'.
Qed.

Lemma lift_ok {X Y} (r : Result X (Error (StarlarkError A))) (k : X → BM Y) b b' y :
  (x <-- se_lift r ;; k x) b = (b', Ok y) → ∃ x, r = Ok x ∧ k x b = (b', Ok y).
Proof. unfold se_bind, se_lift. destruct r as [x|]; [by exists x|done]. Qed.

Lemma prefix_rule_records p d ms ns j l b b' u :
  prefix_rule p d ms ns j l b = (b', Ok u) →
  ∃ v, b_pending b' = b_pending b ++ [v] ∧ records_call p d ms ns v.
Proof.
  unfold prefix_rule. intros (dd & Hd & E)%lift_ok. apply lift_ok in E as (jj & Hj & E).
  apply lift_ok in E as (toks & Ht & E). apply lift_ok in E as (mm & Hm & E).
  apply lift_ok in E as (nn & Hn & E). destruct toks as [|tok toks]; [done|].
  unfold se_bind, se_modify in E. rewrite fold_builder_rules in E. injection E as <- _. simpl.
  eexists. split; [done|]. exists (tok :: toks), dd. simpl. repeat split; try done.
  - apply Forall_fmap, Forall_true. done.
  - apply expansion_covers.
  - apply expansion_covers.
Qed.

Lemma call_pending c b b' u :
  call_builtin c b = (b', Ok u) →
  ∃ vs, b_pending b' = b_pending b ++ vs ∧
    ∀ p d ms ns j l, c = CallPrefixRule p d ms ns j l → ∃ v, v ∈ vs ∧ records_call p d ms ns v.
Proof.
  destruct c as [p d ms ns j l|h p d j|n ps]; simpl.
  - intros (v & Hv & Hr)%prefix_rule_records. exists [v]. split; [done|].
    intros ? ? ? ? ? ? [= <- <- <- <- <- <-]. exists v. split; [by left|done].
  - intros E. do 4 (apply lift_ok in E as (? & _ & E)). injection E as <- _.
    exists []. simpl. by rewrite app_nil_r.
  - intros E. do 2 (apply lift_ok in E as (? & _ & E)). injection E as <- _.
    exists []. simpl. by rewrite app_nil_r.
Qed.

Lemma eval_calls_pending cs b b' u :
  eval_calls cs b = (b', Ok u) →
  ∃ vs, b_pending b' = b_pending b ++ vs ∧
    ∀ p d ms ns j l, CallPrefixRule p d ms ns j l ∈ cs → ∃ v, v ∈ vs ∧ records_call p d ms ns v.
Proof.
  revert b. induction cs as [|c cs IH]; intros b; simpl.
  - intros [= <- _]. exists []. split; [by rewrite app_nil_r|].
    by intros ? ? ? ? ? ? ?%not_elem_of_nil.
  - unfold se_bind. destruct (call_builtin c b) as [b1 [u1|e]] eqn:Ec; [|done].
    apply call_pending in Ec as (vs1 & Hp1 & Hv1). intros (vs2 & Hp2 & Hv2)%IH.
    exists (vs1 ++ vs2). split; [by rewrite Hp2, Hp1, app_assoc|].
    intros p d ms ns j l [<-|Hin]%elem_of_cons; setoid_rewrite elem_of_app.
    + destruct (Hv1 _ _ _ _ _ _ eq_refl) as (v & ? & ?). eauto.
    + destruct (Hv2 _ _ _ _ _ _ Hin) as (v & ? & ?). eauto.
Qed.

(** A successful [parse_policy]: its script ran to the end and its examples were
    validated. *)
Lemma parse_policy_ok i c b b' u :
  parse_policy i c b = (b', Ok u) →
  ∃ calls, starlark_parse i c = Ok (calls, None) ∧ eval_calls calls b = (b', Ok tt)
    ∧ validate_pending_examples_from (length (b_pending b)) b' = Ok tt.
Proof.
  unfold parse_policy, se_bind at 1, se_get. intros ([calls e] & Hs & E)%lift_ok.
  destruct (starlark_parse i c) as [[calls' e']|]; simpl in Hs; [|done]. injection Hs as -> ->.
  unfold se_bind, eval_module in E. simpl in E.
  destruct (eval_calls calls b) as [b1 [[]|]] eqn:Ec; [|done]. destruct e; [done|].
  unfold se_lift in E. injection E as -> Hv. destruct u. by exists calls.
Qed.

(** ** Examples *)

Lemma validate_all_ok b vs : validate_all b vs = Ok tt → Forall (λ v, validate_pending b v = Ok tt) vs.
Proof.
  induction vs as [|v vs IH]; simpl; [by constructor|].
  destruct (validate_pending b v) as [[]|] eqn:E; simpl; [|done]. intros H. constructor; auto.
Qed.

Lemma validate_not_match_ok (p : Policy A) es :
  validate_not_match_examples p es = Ok tt →
  Forall (λ e, rule_derived_matches p e example_options = []) es.
Proof.
  induction es as [|e es IH]; simpl; [by constructor|].
  destruct (rule_derived_matches p e example_options) eqn:E; simpl; [|done]. intros H.
  constructor; auto.
Qed.

Lemma validate_pending_ok b v :
  validate_pending b v = Ok tt →
  Forall (λ e, rule_derived_matches (validation_policy b v) e example_options ≠ []) (pv_matches v)
  ∧ Forall (λ e, rule_derived_matches (validation_policy b v) e example_options = []) (pv_not_matches v).
Proof.
  unfold validate_pending.
  destruct (validate_not_match_examples _ _) as [[]|] eqn:En; simpl; [|done].
  unfold validate_match_examples. destruct (is_empty (filter _ _)) eqn:Em; simpl; [|done].
  intros _. split; [|by apply validate_not_match_ok].
  apply Forall_forall. intros e He Hempty.
  assert (Hin : e ∈ filter (λ e, is_empty (matches_for_command_with_options
    (validation_policy b v) e None example_options) = true) (pv_matches v)).
  { apply list_elem_of_filter. split; [|done]. simpl. by rewrite Hempty. }
  destruct (filter _ _); [by apply not_elem_of_nil in Hin|done].
Qed.

(** More rules keep a command matched. *)
Lemma derived_mono (p q : Policy A) cmd o :
  (∀ k r, r ∈ get_vec (rules_by_program p) k → r ∈ get_vec (rules_by_program q) k) →
  host_executables_by_name p = host_executables_by_name q →
  rule_derived_matches p cmd o ≠ [] → rule_derived_matches q cmd o ≠ [].
Proof.
  intros Hr Hh.
  assert (Hm : ∀ k c, omap (λ r, rule_matches (A := A) r c) (get_vec (rules_by_program p) k) ≠ [] →
    omap (λ r, rule_matches (A := A) r c) (get_vec (rules_by_program q) k) ≠ []).
  { intros k c Hne He. destruct (omap _ (get_vec (rules_by_program p) k)) as [|m ms] eqn:E; [done|].
    assert (Hin : m ∈ omap (λ r, rule_matches (A := A) r c) (get_vec (rules_by_program p) k))
      by (rewrite E; by left).
    apply list_elem_of_omap in Hin as (r & Hin & Hrm).
    assert (m ∈ ([] : list (RuleMatch A))); [|by eapply not_elem_of_nil].
    rewrite <- He. apply list_elem_of_omap. exists r. auto. }
  unfold rule_derived_matches, match_exact_rules, match_host_executable_rules.
  destruct (head cmd) as [k|]; simpl; [|by destruct (resolve_host_executables o)].
  specialize (Hm k cmd) as Hk.
  destruct (omap _ (get_vec (rules_by_program q) k)) as [|y ys]; [|done].
  destruct (omap _ (get_vec (rules_by_program p) k)) as [|x xs]; [|by destruct (Hk ltac:(done))].
  simpl. destruct (resolve_host_executables o); [|done].
  destruct (abs_try_from k) as [prog|]; [|done].
  destruct (executable_path_lookup_key prog) as [n|]; [|done]. rewrite Hh.
  specialize (Hm n (n :: drop 1 cmd)). unfold get_vec in Hm.
  destruct (rules_by_program p !! n) as [rp|]; [|done].
  destruct (match host_executables_by_name q !! n with Some _ => _ | None => _ end);
    [by destruct (rules_by_program q !! n)|].
  destruct (rules_by_program q !! n) as [rq|]; simpl in *.
  - destruct (omap _ rp); [done|]. destruct (omap _ rq); [by destruct (Hm ltac:(done))|done].
  - destruct (omap _ rp); [done|]. by destruct (Hm ltac:(done)).
Qed.

Lemma validation_policy_rules b v k r :
  registered (b_rules b) v →
  r ∈ get_vec (rules_by_program (validation_policy b v)) k → r ∈ get_vec (b_rules b) k.
Proof.
  intros Hv. simpl. rewrite fold_rules. unfold get_vec at 1. rewrite lookup_empty. simpl.
  intros [<- Hr]%list_elem_of_filter. unfold registered in Hv. rewrite Forall_forall in Hv. by apply Hv.
Qed.

(** A command that a rule of the call matches is matched by the call's own policy. *)
Lemma validation_policy_applies b v r cmd :
  r ∈ pv_rules v → rule_applies r cmd →
  rule_derived_matches (validation_policy b v) cmd example_options ≠ [].
Proof.
  intros Hr Hc. unfold rule_derived_matches, match_exact_rules.
  rewrite (rule_applies_head _ _ Hc). simpl.
  destruct (rule_applies_matches (A := A) _ _ Hc) as [m Hm].
  assert (Hin : m ∈ omap (λ r, rule_matches (A := A) r cmd)
    (get_vec (foldl (λ m r, mm_insert (rule_program r) r m) ∅ (pv_rules v)) (rule_program r))).
  { apply list_elem_of_omap. exists r. split; [|done]. rewrite fold_rules. apply elem_of_app. right.
    by apply list_elem_of_filter. }
  destruct (omap _ _); [by apply not_elem_of_nil in Hin|done].
Qed.

(** Loading policy files gives a well-formed policy, also when loading stops at
    an error: whatever the files contain, every rule is filed under its program, every
    network rule's host is normalized, and the paths of a host executable are distinct
    and have its name as basename. *)
Theorem loaded_policy_wellformed files b res :
  parse_policies files new_builder = (b, res) →
  keyed (rules_by_program (build b))
  ∧ Forall (λ nr, host_normal (nr_host nr)) (network_rules (build b))
  ∧ map_Forall host_paths_ok (host_executables_by_name (build b)).
Proof.
  intros E. assert (Hk : keeps (parse_policies files)).
  { clear E. induction files as [|[i c] files IH]; simpl; [apply keeps_ret|].
    apply keeps_bind; [apply parse_policy_keeps|done]. }
  specialize (Hk new_builder). rewrite E in Hk.
  assert (Hok : builder_ok b).
  { destruct res; apply Hk, builder_ok_new. }
  destruct Hok as (H1 & H2 & H3 & _). done.
Qed.

(** The examples given with a rule hold in the policy that is built: if a file
    loads, then every [match] example of each of its [prefix_rule] calls is matched by
    the resulting policy, and no [not_match] example starts with one alternative of
    each token of the call's pattern. *)
Theorem prefix_rule_examples_hold i c b0 b calls p d ms ns j l :
  builder_ok b0 → starlark_parse i c = Ok (calls, None) → parse_policy i c b0 = (b, Ok tt) →
  CallPrefixRule p d ms ns j l ∈ calls →
  ∃ tokens examples counterexamples,
    parse_pattern p = Ok tokens ∧ parse_optional_examples ms = Ok examples
    ∧ parse_optional_examples ns = Ok counterexamples
    ∧ (∀ e, e ∈ examples →
        matches_for_command_with_options (build b) e None example_options ≠ [])
    ∧ (∀ e, e ∈ counterexamples → ¬ tokens_cover tokens e).
Proof.
  intros Hb0 Hs Hp Hin. pose proof (parse_policy_keeps i c b0 Hb0) as Hok. rewrite Hp in Hok.
  apply parse_policy_ok in Hp as (calls' & Hs' & Hc & Hv). rewrite Hs in Hs'. injection Hs' as <-.
  apply eval_calls_pending in Hc as (vs & Hvs & Hrec).
  destruct (Hrec _ _ _ _ _ _ Hin) as (v & Hvin & tokens & dd & Ht & _ & Hm & Hn & _ & Hcov).
  unfold validate_pending_examples_from in Hv. rewrite Hvs, drop_app_length in Hv.
  apply validate_all_ok in Hv. rewrite Forall_forall in Hv.
  destruct (validate_pending_ok _ _ (Hv _ Hvin)) as [Hyes Hno].
  destruct Hok as (_ & _ & _ & Hreg). rewrite Hvs, Forall_app in Hreg. destruct Hreg as [_ Hreg].
  rewrite Forall_forall in Hreg. rewrite Forall_forall in Hyes. rewrite Forall_forall in Hno.
  exists tokens, (pv_matches v), (pv_not_matches v). repeat split; try done.
  - intros e He. simpl. apply (derived_mono (validation_policy b v)); [|done|by apply Hyes].
    intros k r Hr. eapply validation_policy_rules; [by apply Hreg|exact Hr].
  - intros e He Hcmd. apply Hcov in Hcmd as (r & Hr & Happ).
    eapply validation_policy_applies in Happ; [|done]. apply Happ. by apply Hno.
Qed.

(** A loaded rule is enforced: if a file loads, then every command that starts
    with one alternative of each token of one of its [prefix_rule] calls is matched,
    and judged at least as strictly as that call's decision ([allow] by default). *)
Theorem prefix_rule_enforced i c b0 b calls p d ms ns j l tokens decision cmd fallback :
  builder_ok b0 → starlark_parse i c = Ok (calls, None) → parse_policy i c b0 = (b, Ok tt) →
  CallPrefixRule p d ms ns j l ∈ calls → parse_pattern p = Ok tokens →
  match d with Some raw => decision_parse raw | None => Ok Allow end
    = Ok (E := Error (StarlarkError A)) decision →
  tokens_cover tokens cmd →
  ∃ ev, check (build b) cmd fallback = Some ev ∧ is_match ev = true
    ∧ decision_le decision (eval_decision ev).
Proof.
  intros Hb0 Hs Hp Hin Htok Hdec Hcmd. pose proof (parse_policy_keeps i c b0 Hb0) as Hok.
  rewrite Hp in Hok. destruct Hok as (Hkeyed & _ & _ & Hreg).
  apply parse_policy_ok in Hp as (calls' & Hs' & Hc & _). rewrite Hs in Hs'. injection Hs' as <-.
  apply eval_calls_pending in Hc as (vs & Hvs & Hrec).
  destruct (Hrec _ _ _ _ _ _ Hin) as (v & Hvin & tokens' & dd & Ht & Hd & _ & _ & Hdd & Hcov).
  assert (tokens' = tokens) as -> by congruence. assert (dd = decision) as -> by congruence.
  apply Hcov in Hcmd as (r & Hr & Happ). rewrite Hvs, Forall_app in Hreg. destruct Hreg as [_ Hreg].
  rewrite Forall_forall in Hreg. rewrite Forall_forall in Hdd. apply Hreg in Hvin. unfold registered in Hvin.
  rewrite Forall_forall in Hvin.
  assert (Hhas : has_rule (build b) r) by (exists (rule_program r); by apply Hvin).
  destruct (rule_derived_matches_complete (build b) cmd r Hkeyed Hhas Happ) as (mt & Hmt & Hmd).
  eexists. split; [apply check_evaluation|]. rewrite is_match_evaluation.
  unfold evaluation_of. destruct (decisions_max (match_decision <$> _)) as [m|] eqn:Em.
  - split; [by destruct (rule_derived_matches (build b) cmd _); [apply not_elem_of_nil in Hmt|]|].
    simpl. apply decisions_max_spec in Em as [_ Hub]. rewrite <- (Hdd r Hr), <- Hmd.
    by apply Hub, list_elem_of_fmap_2.
  - apply decisions_max_None, fmap_nil_inv in Em. rewrite Em in Hmt. by apply not_elem_of_nil in Hmt.
Qed.
End Facts.

(** * Examples: a runtime that knows one file *)

Definition sample_calls : list BuiltinCall :=
  [CallHostExecutable (lit "git") [VStr (lit "/usr/bin/git")];
   CallPrefixRule [VList [VStr (lit "git"); VStr (lit "hub")]; VStr (lit "push")] (Some (lit "forbidden"))
     (Some [VStr (lit "git push origin"); VList [VStr (lit "/usr/bin/git"); VStr (lit "push")]])
     (Some [VStr (lit "git pull")]) None None;
   CallNetworkRule (lit "Example.COM.") (lit "https") (lit "deny") None].

#[export] Instance SampleRuntime : PolicyRuntime str := {|
  StarlarkError := unit;
  starlark_parse _ c := if bool_decide (c = lit "sample") then Ok (sample_calls, None) else Err tt;
  builtin_error _ := tt;
  shlex_split s := Some (filter (λ w, w ≠ []) (split_char 32%N s));
  shlex_try_join ws := Some (join (lit " ") ws);
  debug_rule _ := [];
  debug_match _ := [];
|}.

Definition sample_builder : PolicyBuilder str :=
  (parse_policy (lit "sample.rules") (lit "sample") new_builder).1.

Lemma loaded_policy_wellformed_witness : keyed (rules_by_program (build sample_builder)).
Proof.
  apply (loaded_policy_wellformed [(lit "sample.rules", lit "sample")] sample_builder (Ok tt)).
  vm_compute. reflexivity.
Defined.

Lemma prefix_rule_examples_hold_witness :
  ∃ tokens, parse_pattern [VList [VStr (lit "git"); VStr (lit "hub")]; VStr (lit "push")] = Ok tokens
    ∧ ¬ tokens_cover tokens [lit "git"; lit "pull"].
Proof.
  destruct (prefix_rule_examples_hold (lit "sample.rules") (lit "sample") new_builder sample_builder
    sample_calls [VList [VStr (lit "git"); VStr (lit "hub")]; VStr (lit "push")] (Some (lit "forbidden"))
    (Some [VStr (lit "git push origin"); VList [VStr (lit "/usr/bin/git"); VStr (lit "push")]])
    (Some [VStr (lit "git pull")]) None None)
    as (tokens & exs & cexs & Ht & _ & Hc & _ & Hn).
  - apply builder_ok_new.
  - vm_compute. reflexivity.
  - vm_compute. reflexivity.
  - right. left.
  - exists tokens. split; [exact Ht|]. apply Hn. vm_compute in Hc. injection Hc as <-. left.
Defined.

Lemma prefix_rule_enforced_witness :
  ∃ ev, check (build sample_builder) [lit "hub"; lit "push"; lit "-f"] (λ _, Allow) = Some ev
    ∧ is_match ev = true ∧ decision_le Forbidden (eval_decision ev).
Proof.
  apply (prefix_rule_enforced (lit "sample.rules") (lit "sample") new_builder sample_builder
    sample_calls [VList [VStr (lit "git"); VStr (lit "hub")]; VStr (lit "push")] (Some (lit "forbidden"))
    (Some [VStr (lit "git push origin"); VList [VStr (lit "/usr/bin/git"); VStr (lit "push")]])
    (Some [VStr (lit "git pull")]) None None
    [Alts [lit "git"; lit "hub"]; Single (lit "push")]).
  - apply builder_ok_new.
  - vm_compute. reflexivity.
  - vm_compute. reflexivity.
  - right. left.
  - vm_compute. reflexivity.
  - vm_compute. reflexivity.
  - exists [lit "hub"; lit "push"]. split; [by exists [lit "-f"]|].
    constructor; [right; left|]. constructor; [left|constructor].
Defined.
