(* ===== verification/ExecAmend.v ===== *)
(** [amend.rs] and [sandbox_migration.rs] of [codex-execpolicy]: appending a rule to
    the policy file, and the one-shot removal of banned allow rules.

    The file operations of [std::fs] and the JSON encoder are parameters. *)
From stdpp Require Import base list sets numbers strings gmap.
From S2P Require Import Prelude RustStr ExecRule.

(** * Interfaces *)

(** The operations on one policy path. [pf_open] opens for reading and appending and
    creates the file; [pf_write_all] appends to it. *)
Class PolicyFiles (W P : Type) := {
  pf_parent : P → option P;
  pf_create_dir : P → W → W * Result unit io_error;
  pf_open : P → W → W * Result unit io_error;
  pf_lock : P → W → Result unit io_error;
  pf_seek_start : P → W → Result unit io_error;
  pf_read_to_string : P → W → Result str io_error;
  pf_write_all : P → str → W → W * Result unit io_error;
}.

(** [serde_json::to_string] on a string, and [from_str::<Vec<String>>]. *)
Class Json := {
  JsonError : Type;
  json_string : str → Result str JsonError;
  json_parse_strings : str → Result (list str) JsonError;
}.

Inductive AmendError (P JE : Type) : Type :=
| EmptyPrefix
| InvalidNetworkRule (s : str)
| MissingParent (path : P)
| CreatePolicyDir (dir : P) (source : io_error)
| SerializePrefix (source : JE)
| SerializeNetworkRule (source : JE)
| OpenPolicyFile (path : P) (source : io_error)
| WritePolicyFile (path : P) (source : io_error)
| LockPolicyFile (path : P) (source : io_error)
| SeekPolicyFile (path : P) (source : io_error)
| ReadPolicyFile (path : P) (source : io_error).
Arguments EmptyPrefix {P JE}.
Arguments InvalidNetworkRule {P JE} s.
Arguments MissingParent {P JE} path.
Arguments CreatePolicyDir {P JE} dir source.
Arguments SerializePrefix {P JE} source.
Arguments SerializeNetworkRule {P JE} source.
Arguments OpenPolicyFile {P JE} path source.
Arguments WritePolicyFile {P JE} path source.
Arguments LockPolicyFile {P JE} path source.
Arguments SeekPolicyFile {P JE} path source.
Arguments ReadPolicyFile {P JE} path source.

(** [Display] of [Error], given those of the Starlark errors and [Debug] of a list of
    strings. *)
Definition rule_error_text {SE} (starlark_text : SE → str) (debug_strs : list str → str)
    (e : Error SE) : str :=
  match e with
  | InvalidDecision s => lit "invalid decision: " ++ s
  | InvalidPattern s => lit "invalid pattern element: " ++ s
  | InvalidExample s => lit "invalid example: " ++ s
  | InvalidRule s => lit "invalid rule: " ++ s
  | ExampleDidNotMatch rules examples _ =>
      lit "expected every example to match at least one rule. rules: " ++ debug_strs rules
      ++ lit "; unmatched examples: " ++ debug_strs examples
  | ExampleDidMatch rule example _ =>
      lit "expected example to not match rule `" ++ rule ++ lit "`: " ++ example
  | Starlark e => lit "starlark error: " ++ starlark_text e
  end.

(** * Appending a rule *)
Section Amend.
Context {W P : Type} `{PFS : PolicyFiles W P} `{JS : Json} {SE : Type} (error_text : Error SE → str).
Abbreviation AE := (AmendError P JsonError).
Abbreviation AmendM := (Prelude.SE W unit AE).

(** A file operation whose error is wrapped. *)
Definition file_op (wrap : io_error → AE) (op : W → W * Result unit io_error) : AmendM := λ w,
  let (w', r) := op w in (w', map_err wrap r).

Definition append_locked_line (path : P) (line : str) : AmendM :=
  file_op (OpenPolicyFile path) (pf_open path) ;;;
  file_op (LockPolicyFile path) (λ w, (w, pf_lock path w)) ;;;
  file_op (SeekPolicyFile path) (λ w, (w, pf_seek_start path w)) ;;;
  w <-- se_get ;;
  contents <-- se_lift (map_err (ReadPolicyFile path) (pf_read_to_string path w)) ;;
  if existsb (λ existing, bool_decide (existing = line)) (lines contents) then se_ret tt
  else
    (if negb (is_empty contents) && negb (ends_with contents [LF])
     then file_op (WritePolicyFile path) (pf_write_all path [LF]) else se_ret tt) ;;;
    file_op (WritePolicyFile path) (pf_write_all path (line ++ [LF])).

Definition append_rule_line (path : P) (rule : str) : AmendM :=
  match pf_parent path with
  | None => se_fail (MissingParent path)
  | Some dir => λ w,
      match pf_create_dir dir w with
      | (w, Err e) =>
          if bool_decide (io_kind e = AlreadyExists) then append_locked_line path rule w
          else (w, Err (CreatePolicyDir dir e))
      | (w, Ok _) => append_locked_line path rule w
      end
  end.

(** [format!("[{}]", tokens.join(", "))]. *)
Definition json_pattern (tokens : list str) : str := lit "[" ++ join (lit ", ") tokens ++ lit "]".

Definition QUOTED_ALLOW : str := [34%N] ++ lit "allow" ++ [34%N].

Definition allow_prefix_line (pattern : str) : str :=
  lit "prefix_rule(pattern=" ++ pattern ++ lit ", decision=" ++ QUOTED_ALLOW ++ lit ")".

Definition blocking_append_allow_prefix_rule (path : P) (prefix : list str) : AmendM :=
  if is_empty prefix then se_fail EmptyPrefix
  else
    tokens <-- se_lift (map_err SerializePrefix (collect_results json_string prefix)) ;;
    append_rule_line path (allow_prefix_line (json_pattern tokens)).

Definition decision_word (d : Decision) : str :=
  match d with
  | Allow => lit "allow"
  | Prompt => lit "prompt"
  | Forbidden => lit "deny"
  end.

Definition blocking_append_network_rule (path : P) (host : str) (protocol : NetworkRuleProtocol)
    (d : Decision) (justification : option str) : AmendM :=
  let ser s := se_lift (map_err SerializeNetworkRule (json_string s)) in
  host <-- se_lift (map_err (λ e, InvalidNetworkRule (error_text e))
                      (normalize_network_rule_host host)) ;;
  if match justification with Some raw => is_empty (trim raw) | None => false end then
    se_fail (InvalidNetworkRule (lit "justification cannot be empty"))
  else
    host <-- ser host ;;
    protocol <-- ser (as_policy_string protocol) ;;
    d <-- ser (decision_word d) ;;
    let args := [lit "host=" ++ host; lit "protocol=" ++ protocol; lit "decision=" ++ d] in
    args <-- match justification with
             | Some j => j <-- ser j ;; se_ret (args ++ [lit "justification=" ++ j])
             | None => se_ret args
             end ;;
    append_rule_line path (lit "network_rule(" ++ join (lit ", ") args ++ lit ")").
End Amend.

(** * Removing banned rules *)

(** [str::split_inclusive('\n')]. *)
Fixpoint inclusive_segments (segs : list str) : list str :=
  match segs with
  | [] => []
  | [w] => if is_empty w then [] else [w]
  | w :: ws => (w ++ [LF]) :: inclusive_segments ws
  end.
Definition split_inclusive (s : str) : list str := inclusive_segments (split_char LF s).

(** [strip_suffix(c).unwrap_or(line)]. *)
Definition drop_suffix (s : str) (c : char) : str := default s (strip_suffix s [c]).

Section Migration.
Context `{JS : Json}.

Definition should_remove_rule (line : str) (banned : list (list str)) : bool :=
  let line := drop_suffix (drop_suffix line LF) CR in
  match strip_prefix line (lit "prefix_rule(pattern=") ≫= λ l,
          strip_suffix l (lit ", decision=" ++ QUOTED_ALLOW ++ lit ")") with
  | None => false
  | Some pattern =>
      match json_parse_strings pattern with
      | Err _ => false
      | Ok prefix => existsb (λ b, bool_decide (b = (to_ascii_lowercase <$> prefix))) banned
      end
  end.

Definition strip_banned_allow_rules (contents : str) (banned_prefixes : list (list str)) : str :=
  let banned := (λ prefix : list str, to_ascii_lowercase <$> prefix) <$> banned_prefixes in
  concat (filter (λ line, should_remove_rule line banned = false) (split_inclusive contents)).
End Migration.

(** Appending rules keeps the other lines of the policy file, and the migration removes
    exactly the banned allow rules that an earlier append wrote. *)

(** * What the code relies on

    [file_contents w p] is the text of the file at [p]: opening creates an empty file
    when there is none, reads return the text, and writes append to it. *)
Class PolicyFileLaws (W P : Type) `{PolicyFiles W P} := {
  file_contents : W → P → option str;
  open_contents w p w' u :
    pf_open p w = (w', Ok u) → file_contents w' p = Some (default [] (file_contents w p));
  read_contents w p s : pf_read_to_string p w = Ok s → file_contents w p = Some s;
  append_contents w p s w' u :
    pf_write_all p s w = (w', Ok u) →
    file_contents w' p = Some (default [] (file_contents w p) ++ s);
  create_dir_contents d w p : file_contents (pf_create_dir d w).1 p = file_contents w p;
}.

(** * Lines of an extended text *)

Lemma lines_app_lf s t : lines (s ++ LF :: t) = lines (s ++ [LF]) ++ lines t.
Proof.
  unfold lines. rewrite !split_char_app_gen.
  rewrite !lines_of_segments_app by apply split_char_nonempty. simpl. by rewrite app_nil_r.
Qed.

Lemma lines_terminate s :
  s ≠ [] → last s ≠ Some LF → last s ≠ Some CR → lines (s ++ [LF]) = lines s.
Proof.
  intros Hne Hlf Hcr. unfold lines. rewrite split_char_app_gen.
  rewrite lines_of_segments_app by apply split_char_nonempty. simpl. rewrite app_nil_r.
  pose proof (join_split_char LF s) as Hj. pose proof (split_char_nonempty LF s) as Hn.
  destruct (split_char LF s) as [|l ls _] using rev_ind; [done|].
  rewrite join_snoc in Hj. rewrite lines_of_segments_app, fmap_app by done. simpl.
  assert (l ≠ []) as Hl.
  { intros ->. rewrite app_nil_r in Hj. destruct ls as [|x ls _] using rev_ind; [by subst|].
    rewrite fmap_app, concat_app in Hj. simpl in Hj. subst s.
    by rewrite app_nil_r, (assoc_L (++)), last_snoc in Hlf. }
  rewrite strip_cr_plain; [by destruct l|]. subst s. destruct l as [|c l _] using rev_ind; [done|].
  rewrite (assoc_L (++)), last_snoc in Hcr. by rewrite last_snoc.
Qed.

Lemma lines_single line : LF ∉ line → last line ≠ Some CR → lines (line ++ [LF]) = [line].
Proof. intros H1 H2. rewrite lines_cons by done. by rewrite strip_cr_plain. Qed.

Lemma ends_with_lf s : ends_with s [LF] = true ↔ last s = Some LF.
Proof.
  unfold ends_with. rewrite bool_decide_eq_true. split.
  - intros [r Hr]. apply strip_suffix_Some in Hr as ->. apply last_snoc.
  - intros H. apply last_Some in H as [r ->]. exists r. by apply strip_suffix_Some.
Qed.

(** The text after an append, and its lines. *)
Lemma lines_appended c line :
  LF ∉ line → last line ≠ Some CR → last c ≠ Some CR →
  lines (c ++ (if negb (is_empty c) && negb (ends_with c [LF]) then [LF] else []) ++ line ++ [LF])
  = lines c ++ [line].
Proof.
  intros H1 H2 H3. destruct (is_empty c) eqn:Ec.
  - destruct c; [|done]. simpl. by apply lines_single.
  - assert (c ≠ []) by by destruct c. simpl. destruct (ends_with c [LF]) eqn:Ee; simpl.
    + apply ends_with_lf, last_Some in Ee as [r ->]. rewrite <- (assoc_L (++)). simpl.
      rewrite (lines_app_lf r (line ++ [LF])). by rewrite (lines_single line).
    + rewrite (lines_app_lf c (line ++ [LF])), (lines_single line) by done. f_equal. apply lines_terminate; [done| |done].
      intros Hl. apply ends_with_lf in Hl. congruence.
Qed.

Section Append.
Context {W P : Type} `{PFS : PolicyFiles W P} {PL : PolicyFileLaws W P} `{JS : Json}.
Abbreviation AE := (AmendError P JsonError).

Lemma file_op_ok (wrap : io_error → AE) (op : W → W * Result unit io_error) w w' u :
  file_op wrap op w = (w', Ok u) → op w = (w', Ok u).
Proof. unfold file_op. destruct (op w) as [w1 [[]|e]]; simpl; [|done]. by intros [= -> <-]. Qed.

Lemma bind_ok {X Y} (m : SE W X AE) (k : X → SE W Y AE) w w' y :
  (x <-- m ;; k x) w = (w', Ok y) → ∃ w1 x, m w = (w1, Ok x) ∧ k x w1 = (w', Ok y).
Proof. unfold se_bind. destruct (m w) as [w1 [x|e]]; [by eexists _, _|done]. Qed.

(** The contents after a successful append. *)
Lemma append_locked_line_contents path line w w' u :
  append_locked_line path line w = (w', Ok u) →
  let c := default [] (file_contents w path) in
  file_contents w' path = Some
    (if decide (line ∈ lines c) then c
     else c ++ (if negb (is_empty c) && negb (ends_with c [LF]) then [LF] else []) ++ line ++ [LF]).
Proof.
  intros E c. unfold append_locked_line in E.
  apply bind_ok in E as (w1 & [] & E1%file_op_ok & E). apply open_contents in E1. fold c in E1.
  apply bind_ok in E as (? & [] & [= <- _]%file_op_ok & E).
  apply bind_ok in E as (? & [] & [= <- _]%file_op_ok & E).
  apply bind_ok in E as (? & ? & [= <- <-] & E). apply bind_ok in E as (? & s & Er & E).
  unfold se_lift in Er. injection Er as <- Er.
  destruct (pf_read_to_string path w1) as [s'|] eqn:Es; [|done]. injection Er as ->.
  apply read_contents in Es. rewrite E1 in Es. injection Es as <-.
  assert (Hin : existsb (λ existing, bool_decide (existing = line)) (lines c)
    = bool_decide (line ∈ lines c)).
  { apply eq_bool_prop_intro. rewrite bool_decide_spec, Is_true_true, existsb_exists.
    setoid_rewrite bool_decide_eq_true. setoid_rewrite list_elem_of_In. naive_solver. }
  rewrite Hin in E. case_decide as Hd.
  - rewrite bool_decide_true in E by done. by injection E as <- _.
  - rewrite bool_decide_false in E by done. apply bind_ok in E as (w2 & [] & E2 & E%file_op_ok).
    apply append_contents in E. rewrite E. f_equal.
    destruct (negb (is_empty c) && negb (ends_with c [LF])).
    + apply file_op_ok, append_contents in E2. rewrite E2, E1. simpl. by rewrite <- (assoc_L (++)).
    + injection E2 as <-. by rewrite E1.
Qed.

Lemma append_rule_line_locked path rule w w' u :
  append_rule_line path rule w = (w', Ok u) →
  ∃ w1, (∀ q, file_contents w1 q = file_contents w q) ∧ append_locked_line path rule w1 = (w', Ok u).
Proof.
  unfold append_rule_line. destruct (pf_parent path) as [d|]; [|done].
  pose proof (create_dir_contents d w) as Hd. destruct (pf_create_dir d w) as [w1 [[]|e]]; simpl in Hd.
  - by exists w1.
  - case_bool_decide; [by exists w1|done].
Qed.

(** Appending a rule adds one line and keeps the rest: after a successful append
    the lines of the policy file are the lines it had, followed by the rule if it was not
    among them; a rule already present leaves the file as it is, so appending twice is the
    same as appending once. *)
Theorem append_rule_line_lines path rule w w1 w2 u1 u2 :
  LF ∉ rule → last rule ≠ Some CR → last (default [] (file_contents w path)) ≠ Some CR →
  append_rule_line path rule w = (w1, Ok u1) → append_rule_line path rule w1 = (w2, Ok u2) →
  ∃ c1, file_contents w1 path = Some c1
    ∧ lines c1 = (if decide (rule ∈ lines (default [] (file_contents w path)))
                  then lines (default [] (file_contents w path))
                  else lines (default [] (file_contents w path)) ++ [rule])
    ∧ file_contents w2 path = Some c1.
Proof.
  intros H1 H2 H3 (wa & Ha & E1)%append_rule_line_locked (wb & Hb & E2)%append_rule_line_locked.
  apply append_locked_line_contents in E1. rewrite Ha in E1. simpl in E1.
  set (c := default [] (file_contents w path)) in *.
  set (c1 := if decide (rule ∈ lines c) then c else _) in E1.
  assert (Hl : lines c1 = if decide (rule ∈ lines c) then lines c else lines c ++ [rule]).
  { unfold c1. case_decide; [done|]. by apply lines_appended. }
  exists c1. split; [done|]. split; [done|].
  apply append_locked_line_contents in E2. rewrite Hb, E1 in E2. simpl in E2. rewrite E2.
  rewrite decide_True; [done|]. rewrite Hl. case_decide; [done|]. apply elem_of_app. right. by left.
Qed.
End Append.

(** * Migration *)

(** A piece of [split_inclusive]: a newline only at its end. *)
Lemma split_inclusive_app w s :
  LF ∉ w → split_inclusive (w ++ LF :: s) = (w ++ [LF]) :: split_inclusive s.
Proof.
  intros Hw. unfold split_inclusive. rewrite split_char_app by done. simpl.
  pose proof (split_char_nonempty LF s). by destruct (split_char LF s).
Qed.

Lemma split_inclusive_free w : LF ∉ w → split_inclusive w = if is_empty w then [] else [w].
Proof. intros Hw. unfold split_inclusive. rewrite split_char_free by done. done. Qed.

(** Filtering pieces and joining them again gives exactly the kept pieces. *)
Lemma split_inclusive_filter (keep : str → Prop) `{∀ x, base.Decision (keep x)} s :
  split_inclusive (concat (filter keep (split_inclusive s))) = filter keep (split_inclusive s).
Proof.
  rewrite <- (join_split_char LF s) at 1 2.
  pose proof (split_char_Forall LF s) as Hf. pose proof (split_char_nonempty LF s) as Hn.
  revert Hf Hn. generalize (split_char LF s) as segs. intros segs Hf Hn.
  induction Hf as [|w ws Hw Hws IH]; [done|]. destruct ws as [|w' ws].
  - simpl join. rewrite (split_inclusive_free w) by done. destruct (is_empty w) eqn:Ew; [done|].
    rewrite filter_cons. case_decide; [|done]. simpl. rewrite app_nil_r, split_inclusive_free by done.
    by rewrite Ew.
  - change (join [LF] (w :: w' :: ws)) with (w ++ LF :: join [LF] (w' :: ws)).
    set (t := join [LF] (w' :: ws)) in *.
    rewrite (split_inclusive_app w t) by done. rewrite filter_cons.
    case_decide; [|by apply IH]. simpl concat. rewrite <- (assoc_L (++)). simpl app.
    rewrite split_inclusive_app by done. by rewrite IH.
Qed.

(** [Json] reads back what it wrote: the array of encoded strings decodes to them. *)
Class JsonLaws `{Json} : Prop := {
  json_roundtrip prefix tokens :
    collect_results json_string prefix = Ok tokens →
    json_parse_strings (json_pattern tokens) = Ok prefix;
}.

Section Migration.
Context `{JS : Json}.

Abbreviation lowered prefixes := ((λ p : list str, to_ascii_lowercase <$> p) <$> prefixes).

Lemma drop_suffix_snoc s c : drop_suffix (s ++ [c]) c = s.
Proof. unfold drop_suffix. by rewrite (proj2 (strip_suffix_Some (s ++ [c]) [c] s)). Qed.

Lemma drop_suffix_none s c : last s ≠ Some c → drop_suffix s c = s.
Proof.
  intros Hs. unfold drop_suffix. rewrite strip_suffix_None; [done|]. intros r ->.
  by rewrite last_snoc in Hs.
Qed.

(** A line written by [blocking_append_allow_prefix_rule] is recognized by its prefix. *)
Lemma should_remove_allow_line {JL : JsonLaws} prefix tokens banned :
  collect_results json_string prefix = Ok tokens →
  should_remove_rule (allow_prefix_line (json_pattern tokens) ++ [LF]) banned
  = bool_decide ((to_ascii_lowercase <$> prefix) ∈ banned).
Proof.
  intros Ht. unfold should_remove_rule. rewrite drop_suffix_snoc.
  assert (Hl : last (allow_prefix_line (json_pattern tokens)) = Some 41%N).
  { unfold allow_prefix_line. rewrite !(assoc_L (++)). apply last_snoc. }
  rewrite drop_suffix_none by by rewrite Hl.
  unfold allow_prefix_line. rewrite strip_prefix_app.
  cbn [mbind option_bind]. rewrite (proj2 (strip_suffix_Some (json_pattern tokens ++ lit ", decision=" ++ QUOTED_ALLOW ++ lit ")")
    (lit ", decision=" ++ QUOTED_ALLOW ++ lit ")") (json_pattern tokens))) by done.
  rewrite (json_roundtrip prefix tokens Ht). apply eq_bool_prop_intro.
  rewrite bool_decide_spec, Is_true_true, existsb_exists.
  setoid_rewrite bool_decide_eq_true. setoid_rewrite list_elem_of_In. naive_solver.
Qed.

(** The migration removes the banned allow rules and nothing else: the remaining
    text consists of exactly the lines that [should_remove_rule] does not select, in
    their order and with their line endings, so running it again changes nothing; and a
    line that [blocking_append_allow_prefix_rule] wrote for a prefix is removed exactly
    when the prefix is banned, ignoring ASCII case. *)
Theorem migration_removes_banned_rules {JL : JsonLaws} contents banned :
  let kept := strip_banned_allow_rules contents banned in
  split_inclusive kept
    = filter (λ l, should_remove_rule l (lowered banned) = false) (split_inclusive contents)
  ∧ strip_banned_allow_rules kept banned = kept
  ∧ (∀ prefix tokens, collect_results json_string prefix = Ok tokens →
      allow_prefix_line (json_pattern tokens) ++ [LF] ∈ split_inclusive contents →
      (allow_prefix_line (json_pattern tokens) ++ [LF] ∈ split_inclusive kept
       ↔ (to_ascii_lowercase <$> prefix) ∉ lowered banned)).
Proof.
  intros kept.
  assert (Hk : split_inclusive kept
    = filter (λ l, should_remove_rule l (lowered banned) = false) (split_inclusive contents))
    by apply split_inclusive_filter.
  split; [done|]. split.
  - unfold strip_banned_allow_rules at 1. rewrite Hk, list_filter_filter_l by done. done.
  - intros prefix tokens Ht Hin. rewrite Hk, list_elem_of_filter.
    rewrite (should_remove_allow_line prefix tokens _ Ht), bool_decide_eq_false. naive_solver.
Qed.
End Migration.

(** * Examples: files in memory and plain JSON strings *)

#[export] Instance MemPolicyFiles : PolicyFiles (gmap str str) str := {|
  pf_parent p := fst <$> rsplit_once p 47%N;
  pf_create_dir _ w := (w, Err (mkIoErr AlreadyExists (lit "File exists")));
  pf_open p w := (<[p := default [] (w !! p)]> w, Ok tt);
  pf_lock _ _ := Ok tt;
  pf_seek_start _ _ := Ok tt;
  pf_read_to_string p w := ok_or (w !! p) (mkIoErr NotFound (lit "No such file"));
  pf_write_all p s w := (<[p := default [] (w !! p) ++ s]> w, Ok tt);
|}.

#[export] Program Instance MemPolicyLaws : PolicyFileLaws (gmap str str) str := {|
  file_contents w p := w !! p;
|}.
Next Obligation. intros w p w' u [= <- _]. by rewrite lookup_insert_eq. Qed.
Next Obligation. intros w p s. simpl. by destruct (w !! p); intros [= ->]. Qed.
Next Obligation. intros w p s w' u [= <- _]. by rewrite lookup_insert_eq. Qed.
Next Obligation. done. Qed.

(** Strings without quotes, written between quotes. *)
Definition plain_json_string (s : str) : Result str unit :=
  if contains_char s 34%N then Err tt else Ok (34%N :: s ++ [34%N]).

Fixpoint odds (l : list str) : list str :=
  match l with
  | _ :: x :: l => x :: odds l
  | _ => []
  end.

Lemma odds_cons_cons a b l : odds (a :: b :: l) = b :: odds l.
Proof. done. Qed.

Definition plain_json_parse (s : str) : Result (list str) unit :=
  match strip_prefix s (lit "[") ≫= λ s, strip_suffix s (lit "]") with
  | Some inner => Ok (odds (split_char 34%N inner))
  | None => Err tt
  end.

#[export] Instance PlainJson : Json := {|
  JsonError := unit;
  json_string := plain_json_string;
  json_parse_strings := plain_json_parse;
|}.

Lemma plain_json_items w prefix tokens :
  34%N ∉ w → collect_results plain_json_string prefix = Ok tokens →
  odds (split_char 34 (w ++ join (lit ", ") tokens)) = prefix.
Proof.
  revert w tokens. induction prefix as [|s prefix IH]; intros w tokens Hw; simpl.
  - intros [= <-]. simpl. by rewrite app_nil_r, split_char_free.
  - change (plain_json_string s)
      with (if contains_char s 34 then Err tt else Ok (E := unit) (34%N :: s ++ [34%N])).
    destruct (contains_char s 34) eqn:Es; simpl; [done|].
    destruct (collect_results plain_json_string prefix) as [ts|] eqn:Ets; simpl; [|done].
    intros [= <-].
    assert (Hs : 34%N ∉ s).
    { intros Hin. apply not_true_iff_false in Es. apply Es, existsb_exists. exists 34%N.
      split; [by apply list_elem_of_In|done]. }
    destruct ts as [|t ts].
    + simpl. rewrite split_char_app, split_char_app by done. simpl.
      destruct prefix as [|s' prefix]; [done|]. simpl in Ets.
      destruct (plain_json_string s'); simpl in Ets; [|done].
      by destruct (collect_results plain_json_string prefix).
    + change (join (lit ", ") ((34%N :: s ++ [34%N]) :: t :: ts))
        with ((34%N :: s ++ [34%N]) ++ lit ", " ++ join (lit ", ") (t :: ts)).
      rewrite <- app_comm_cons, <- (assoc_L (++)), split_char_app by done.
      change ([34%N] ++ ?x) with (34%N :: x). rewrite split_char_app, odds_cons_cons by done.
      f_equal. apply (IH (lit ", ")); [|done].
      apply (bool_decide_unpack _). vm_compute. exact I.
Qed.

#[export] Instance PlainJsonLaws : JsonLaws.
Proof.
  split. intros prefix tokens Ht. unfold json_parse_strings, PlainJson, plain_json_parse, json_pattern.
  rewrite strip_prefix_app. cbn [mbind option_bind].
  rewrite (proj2 (strip_suffix_Some (join (lit ", ") tokens ++ lit "]") (lit "]") (join (lit ", ") tokens)))
    by done.
  f_equal. apply (plain_json_items []); [apply not_elem_of_nil|done].
Qed.

Definition sample_rule_line : str := allow_prefix_line (json_pattern [[34; 108; 115; 34]%N]).

Lemma append_rule_line_lines_witness :
  ∃ c1, lines c1 = [lit "a"; sample_rule_line].
Proof.
  destruct (append_rule_line_lines (lit "/h/r") sample_rule_line
    (<[lit "/h/r" := lit "a"]> ∅)
    (<[lit "/h/r" := lit "a" ++ [LF] ++ sample_rule_line ++ [LF]]> ∅)
    (<[lit "/h/r" := lit "a" ++ [LF] ++ sample_rule_line ++ [LF]]> ∅) tt tt) as (c1 & _ & Hl & _).
  - apply (bool_decide_unpack _). vm_compute. exact I.
  - vm_compute. discriminate.
  - vm_compute. discriminate.
  - vm_compute. reflexivity.
  - vm_compute. reflexivity.
  - exists c1. rewrite Hl. vm_compute. reflexivity.
Defined.

Lemma migration_removes_banned_rules_witness :
  let kept := strip_banned_allow_rules (lit "x" ++ [LF] ++ sample_rule_line ++ [LF]) [[lit "LS"]] in
  strip_banned_allow_rules kept [[lit "LS"]] = kept ∧ kept = lit "x" ++ [LF].
Proof.
  intros kept. split; [|vm_compute; reflexivity].
  destruct (migration_removes_banned_rules (lit "x" ++ [LF] ++ sample_rule_line ++ [LF]) [[lit "LS"]])
    as (_ & H & _). exact H.
Defined.
