(* ===== verification/NetIp.v ===== *)
(** IP addresses as the proxy uses them: parsing a literal ([str::parse::<IpAddr>]), the
    classifications of [std::net], and the classification of [network-proxy/src/policy.rs]
    into public and non-public addresses.

    An IPv4 address is a 32-bit number, an IPv6 address a 128-bit number. *)
From stdpp Require Import base list numbers strings.
From S2P Require Import Prelude RustStr.

Inductive IpAddr : Type :=
| V4 (ip : N)
| V6 (ip : N).

#[export] Instance IpAddr_eq_dec : EqDecision IpAddr.
Proof. solve_decision. Defined.

(** * Parsing: the parser of [std::net]

    A parser takes the input and returns a value and the rest; [None] leaves the input
    where it was. *)
Abbreviation Reader A := (str → option (A * str)).

(** [char::to_digit], for radix 10 and 16. *)
Definition to_digit (radix : N) (c : char) : option N :=
  let d :=
    if is_ascii_digit c then Some (c - 48)%N
    else if ((97 <=? c) && (c <=? 122))%N then Some (c - 97 + 10)%N
    else if ((65 <=? c) && (c <=? 90))%N then Some (c - 65 + 10)%N
    else None in
  match d with
  | Some d => if (d <? radix)%N then Some d else None
  | None => None
  end.

Fixpoint read_digits (radix : N) (s : str) : list N * str :=
  match s with
  | [] => ([], [])
  | c :: s' =>
      match to_digit radix c with
      | Some d => let (ds, rest) := read_digits radix s' in (d :: ds, rest)
      | None => ([], s)
      end
  end.

(** [read_number], with the largest value of the target type. *)
Definition read_number (radix : N) (max_digits : nat) (allow_zero_prefix : bool) (max : N) : Reader N := λ s,
  let (ds, rest) := read_digits radix s in
  let has_leading_zero := bool_decide (head s = Some 48%N) in
  if max_digits <? length ds then None
  else if length ds =? 0 then None
  else if negb allow_zero_prefix && has_leading_zero && (1 <? length ds) then None
  else
    let n := foldl (λ acc d, acc * radix + d)%N 0%N ds in
    if (n <=? max)%N then Some (n, rest) else None.

Definition read_given_char (c : char) (s : str) : option str := strip_prefix s [c].

Definition read_separator {A} (sep : char) (index : nat) (inner : Reader A) : Reader A := λ s,
  match index with
  | 0 => inner s
  | S _ => s ← read_given_char sep s; inner s
  end.

(** [read_ipv4_addr]: four decimal octets. *)
Fixpoint read_octets (n i : nat) (acc : N) : Reader N := λ s,
  match n with
  | 0 => Some (acc, s)
  | S n =>
      x ← read_separator 46 i (read_number 10 3 false 255) s;
      read_octets n (S i) (acc * 256 + x.1)%N x.2
  end.
Definition read_ipv4_addr : Reader N := read_octets 4 0 0.

(** [read_groups]: up to [limit] groups of 16 bits, the last two possibly as an IPv4
    address; the groups, whether they end with an IPv4 address, and the rest. *)
Fixpoint read_groups (limit i : nat) (s : str) : list N * bool * str :=
  match limit with
  | 0 => ([], false, s)
  | S limit' =>
      let v4 := if 0 <? limit' then read_separator 58 i read_ipv4_addr s else None in
      match v4 with
      | Some (ip, rest) => ([(ip / 65536)%N; (ip mod 65536)%N], true, rest)
      | None =>
          match read_separator 58 i (read_number 16 4 true 65535) s with
          | Some (g, rest) =>
              let '(gs, is_v4, rest) := read_groups limit' (S i) rest in (g :: gs, is_v4, rest)
          | None => ([], false, s)
          end
      end
  end.

Definition of_groups (gs : list N) : N := foldl (λ acc g, acc * 65536 + g)%N 0%N gs.

Definition read_ipv6_addr : Reader N := λ s,
  let '(head, head_ipv4, rest) := read_groups 8 0 s in
  if length head =? 8 then Some (of_groups head, rest)
  else if head_ipv4 then None
  else
    rest ← read_given_char 58 rest;
    rest ← read_given_char 58 rest;
    let '(tail, _, rest) := read_groups (8 - (length head + 1)) 0 rest in
    Some (of_groups (head ++ replicate (8 - length head - length tail) 0%N ++ tail), rest).

(** The whole input must be read. *)
Definition parse_ip (s : str) : option IpAddr :=
  let r :=
    match read_ipv4_addr s with
    | Some (ip, rest) => Some (V4 ip, rest)
    | None =>
        match read_ipv6_addr s with
        | Some (ip, rest) => Some (V6 ip, rest)
        | None => None
        end
    end in
  match r with
  | Some (ip, []) => Some ip
  | _ => None
  end.

(** * The classifications of [std::net] *)
Module Ipv4.
Definition octet (k : N) (ip : N) : N := (N.shiftr ip (8 * (3 - k)) mod 256)%N.

Definition LOCALHOST : N := 2130706433.
Definition is_loopback (ip : N) : bool := (octet 0 ip =? 127)%N.
Definition is_private (ip : N) : bool :=
  ((octet 0 ip =? 10)
   || ((octet 0 ip =? 172) && (16 <=? octet 1 ip) && (octet 1 ip <=? 31))
   || ((octet 0 ip =? 192) && (octet 1 ip =? 168)))%N.
Definition is_link_local (ip : N) : bool := ((octet 0 ip =? 169) && (octet 1 ip =? 254))%N.
Definition is_unspecified (ip : N) : bool := (ip =? 0)%N.
Definition is_multicast (ip : N) : bool := ((224 <=? octet 0 ip) && (octet 0 ip <=? 239))%N.
Definition is_broadcast (ip : N) : bool := (ip =? 4294967295)%N.
End Ipv4.

Module Ipv6.
Definition segment (k : N) (ip : N) : N := (N.shiftr ip (16 * (7 - k)) mod 65536)%N.

Definition LOCALHOST : N := 1.
Definition is_loopback (ip : N) : bool := (ip =? 1)%N.
Definition is_unspecified (ip : N) : bool := (ip =? 0)%N.
Definition is_multicast (ip : N) : bool := (N.land (segment 0 ip) 65280 =? 65280)%N.
Definition is_unique_local (ip : N) : bool := (N.land (segment 0 ip) 65024 =? 64512)%N.
Definition is_unicast_link_local (ip : N) : bool := (N.land (segment 0 ip) 65472 =? 65152)%N.

(** [to_ipv4]: [::a.b.c.d] and [::ffff:a.b.c.d]. *)
Definition to_ipv4 (ip : N) : option N :=
  let high := N.shiftr ip 32 in
  if ((high =? 0) || (high =? 65535))%N then Some (ip mod 4294967296)%N else None.
End Ipv6.

Definition is_loopback (ip : IpAddr) : bool :=
  match ip with
  | V4 ip => Ipv4.is_loopback ip
  | V6 ip => Ipv6.is_loopback ip
  end.

(** * Non-public addresses: [policy.rs] *)

Definition U32_MAX : N := 4294967295.
Definition from_octets (a b c d : N) : N := (((a * 256 + b) * 256 + c) * 256 + d)%N.

(** [u32::MAX << n], at 32 bits. *)
Definition shl32 (x n : N) : N := (N.shiftl x n mod 2 ^ 32)%N.

Definition ipv4_in_cidr (ip base : N) (prefix : N) : bool :=
  let mask := if (prefix =? 0)%N then 0%N else shl32 U32_MAX (32 - prefix) in
  (N.land ip mask =? N.land base mask)%N.

Definition is_non_public_ipv4 (ip : N) : bool :=
  Ipv4.is_loopback ip
  || Ipv4.is_private ip
  || Ipv4.is_link_local ip
  || Ipv4.is_unspecified ip
  || Ipv4.is_multicast ip
  || Ipv4.is_broadcast ip
  || ipv4_in_cidr ip (from_octets 0 0 0 0) 8
  || ipv4_in_cidr ip (from_octets 100 64 0 0) 10
  || ipv4_in_cidr ip (from_octets 192 0 0 0) 24
  || ipv4_in_cidr ip (from_octets 192 0 2 0) 24
  || ipv4_in_cidr ip (from_octets 198 18 0 0) 15
  || ipv4_in_cidr ip (from_octets 198 51 100 0) 24
  || ipv4_in_cidr ip (from_octets 203 0 113 0) 24
  || ipv4_in_cidr ip (from_octets 240 0 0 0) 4.

Definition is_non_public_ipv6 (ip : N) : bool :=
  match Ipv6.to_ipv4 ip with
  | Some v4 => is_non_public_ipv4 v4 || Ipv6.is_loopback ip
  | None =>
      Ipv6.is_loopback ip
      || Ipv6.is_unspecified ip
      || Ipv6.is_multicast ip
      || Ipv6.is_unique_local ip
      || Ipv6.is_unicast_link_local ip
  end.

Definition is_non_public_ip (ip : IpAddr) : bool :=
  match ip with
  | V4 ip => is_non_public_ipv4 ip
  | V6 ip => is_non_public_ipv6 ip
  end.

(** Which addresses are non-public: the classification of [policy.rs] as a table of
    address ranges. *)

Ltac Zify.zify_post_hook ::= Z.to_euclidean_division_equations.

(** Powers of two as numerals. *)
Ltac eval_pow :=
  repeat match goal with
  | |- context [(2 ^ ?n)%N] =>
      let v := eval vm_compute in (2 ^ n)%N in
      change (2 ^ n)%N with v
  | H : context [(2 ^ ?n)%N] |- _ =>
      let v := eval vm_compute in (2 ^ n)%N in
      change (2 ^ n)%N with v in H
  end.

(** A disjunction that one of the hypotheses decides. *)
Ltac find_disjunct :=
  match goal with
  | H : ?P |- ?P => exact H
  | _ => first [left; find_disjunct|right; find_disjunct]
  end.

(** * Masks *)

(** A mask of [p] leading ones in a word of [w] bits keeps the block of the address. *)
Lemma land_block_mask (w p x : N) :
  (p ≤ w)%N → (x < 2 ^ w)%N →
  N.land x (N.shiftl (N.ones p) (w - p)) = N.shiftl (N.shiftr x (w - p)) (w - p).
Proof.
  intros Hp Hx. apply N.bits_inj. intros i. rewrite N.land_spec.
  destruct (N.lt_ge_cases i (w - p)) as [Hi|Hi].
  - rewrite !N.shiftl_spec_low by done. apply andb_false_r.
  - rewrite !N.shiftl_spec_high', N.shiftr_spec' by done.
    replace (i - (w - p) + (w - p))%N with i by lia.
    destruct (N.lt_ge_cases (i - (w - p)) p) as [Hj|Hj].
    + rewrite N.ones_spec_low by done. apply andb_true_r.
    + rewrite N.ones_spec_high by done. rewrite andb_false_r. symmetry.
      destruct (N.eq_dec x 0%N) as [->|Hx0]; [apply N.bits_0|].
      apply N.bits_above_log2. assert (N.log2 x < w)%N by (apply N.log2_lt_pow2; lia). lia.
Qed.

Lemma land_block_eq (w p x y : N) :
  (p ≤ w)%N → (x < 2 ^ w)%N → (y < 2 ^ w)%N →
  N.land x (N.shiftl (N.ones p) (w - p)) = N.land y (N.shiftl (N.ones p) (w - p))
  ↔ (x / 2 ^ (w - p) = y / 2 ^ (w - p))%N.
Proof.
  intros. rewrite !land_block_mask, <- !N.shiftr_div_pow2 by done. split; [|congruence].
  rewrite !N.shiftl_mul_pow2. intros E. apply N.mul_cancel_r in E; [done|]. by apply N.pow_nonzero.
Qed.

Lemma shl32_ones p : (0 < p)%N → (p ≤ 32)%N → shl32 U32_MAX (32 - p) = N.shiftl (N.ones p) (32 - p).
Proof.
  intros Hp0 Hp. unfold shl32, U32_MAX. change 4294967295%N with (N.ones 32).
  apply N.bits_inj. intros i.
  destruct (N.lt_ge_cases i 32) as [Hi|Hi].
  - rewrite N.mod_pow2_bits_low by done.
    destruct (N.lt_ge_cases i (32 - p)) as [Hj|Hj]; [by rewrite !N.shiftl_spec_low|].
    rewrite !N.shiftl_spec_high', !N.ones_spec_low by lia. done.
  - rewrite N.mod_pow2_bits_high, N.shiftl_spec_high', N.ones_spec_high by lia. done.
Qed.

(** The CIDR test compares the leading [prefix] bits. *)
Lemma ipv4_in_cidr_spec ip base prefix :
  (ip < 2 ^ 32)%N → (base < 2 ^ 32)%N → (prefix ≤ 32)%N →
  ipv4_in_cidr ip base prefix = true ↔ (ip / 2 ^ (32 - prefix) = base / 2 ^ (32 - prefix))%N.
Proof.
  intros Hip Hbase Hp. unfold ipv4_in_cidr. rewrite N.eqb_eq. case_eq (prefix =? 0)%N; intros E.
  - apply N.eqb_eq in E as ->. rewrite !N.land_0_r. change (2 ^ (32 - 0))%N with (2 ^ 32)%N.
    by rewrite !N.div_small by done.
  - apply N.eqb_neq in E. rewrite shl32_ones by lia. apply land_block_eq; done.
Qed.

(** * The table *)
Definition in_range (ip : N) (r : N * N) : bool := ((r.1 <=? ip) && (ip <=? r.2))%N.

(** The special-purpose ranges of the IPv4 registry that the policy blocks, by first and last
    address. *)
Definition NON_PUBLIC_V4 : list (N * N) :=
  [ (from_octets 0 0 0 0, from_octets 0 255 255 255)
  ; (from_octets 10 0 0 0, from_octets 10 255 255 255)
  ; (from_octets 100 64 0 0, from_octets 100 127 255 255)
  ; (from_octets 127 0 0 0, from_octets 127 255 255 255)
  ; (from_octets 169 254 0 0, from_octets 169 254 255 255)
  ; (from_octets 172 16 0 0, from_octets 172 31 255 255)
  ; (from_octets 192 0 0 0, from_octets 192 0 0 255)
  ; (from_octets 192 0 2 0, from_octets 192 0 2 255)
  ; (from_octets 192 168 0 0, from_octets 192 168 255 255)
  ; (from_octets 198 18 0 0, from_octets 198 19 255 255)
  ; (from_octets 198 51 100 0, from_octets 198 51 100 255)
  ; (from_octets 203 0 113 0, from_octets 203 0 113 255)
  ; (from_octets 224 0 0 0, from_octets 255 255 255 255) ].

(** [fc00::/7], [fe80::/10] and [ff00::/8]. *)
Definition NON_PUBLIC_V6 : list (N * N) :=
  [ (64512 * 2 ^ 112, 65024 * 2 ^ 112 - 1)
  ; (65152 * 2 ^ 112, 65216 * 2 ^ 112 - 1)
  ; (65280 * 2 ^ 112, 2 ^ 128 - 1) ]%N.

Definition non_public_table (ip : IpAddr) : bool :=
  match ip with
  | V4 ip => existsb (in_range ip) NON_PUBLIC_V4
  | V6 ip =>
      if (ip <? 2 ^ 32)%N then existsb (in_range ip) NON_PUBLIC_V4
      else if in_range ip (65535 * 2 ^ 32, 65536 * 2 ^ 32 - 1)%N then existsb (in_range (ip mod 2 ^ 32)) NON_PUBLIC_V4
      else existsb (in_range ip) NON_PUBLIC_V6
  end.

Definition valid_ip (ip : IpAddr) : Prop :=
  match ip with
  | V4 ip => (ip < 2 ^ 32)%N
  | V6 ip => (ip < 2 ^ 128)%N
  end.

(** * IPv4 *)
Lemma in_range_true ip lo hi : in_range ip (lo, hi) = true ↔ (lo ≤ ip ≤ hi)%N.
Proof. unfold in_range. by rewrite andb_true_iff, !N.leb_le. Qed.

Lemma cidr_range ip base prefix :
  (ip < 2 ^ 32)%N → (prefix ≤ 32)%N → (base < 2 ^ 32)%N → (base mod 2 ^ (32 - prefix) = 0)%N →
  ipv4_in_cidr ip base prefix = true ↔ in_range ip (base, base + 2 ^ (32 - prefix) - 1)%N = true.
Proof.
  intros Hip Hp Hb Hm. rewrite ipv4_in_cidr_spec, in_range_true by done.
  pose proof (N.pow_nonzero 2 (32 - prefix) ltac:(done)) as Hnz.
  set (m := (2 ^ (32 - prefix))%N) in *.
  pose proof (N.div_mod ip m Hnz). pose proof (N.div_mod base m Hnz).
  pose proof (N.mod_lt ip m Hnz). clearbody m. nia.
Qed.

(** The standard classifications as ranges. *)
Lemma std_ranges ip :
  (ip < 2 ^ 32)%N →
  (Ipv4.is_loopback ip = true ↔ in_range ip (from_octets 127 0 0 0, from_octets 127 255 255 255) = true)
  ∧ (Ipv4.is_private ip = true ↔
     in_range ip (from_octets 10 0 0 0, from_octets 10 255 255 255) = true
     ∨ in_range ip (from_octets 172 16 0 0, from_octets 172 31 255 255) = true
     ∨ in_range ip (from_octets 192 168 0 0, from_octets 192 168 255 255) = true)
  ∧ (Ipv4.is_link_local ip = true ↔ in_range ip (from_octets 169 254 0 0, from_octets 169 254 255 255) = true)
  ∧ (Ipv4.is_multicast ip = true ↔ in_range ip (from_octets 224 0 0 0, from_octets 239 255 255 255) = true).
Proof.
  intros Hip. unfold Ipv4.is_loopback, Ipv4.is_private, Ipv4.is_link_local, Ipv4.is_multicast, Ipv4.octet.
  rewrite !orb_true_iff, !andb_true_iff, !N.eqb_eq, !N.leb_le, !in_range_true, !N.shiftr_div_pow2.
  change (8 * (3 - 0))%N with 24%N. change (8 * (3 - 1))%N with 16%N.
  eval_pow. unfold from_octets. repeat split; lia.
Qed.

Lemma reserved_ranges ip :
  (ip < 2 ^ 32)%N →
  in_range ip (from_octets 224 0 0 0, from_octets 255 255 255 255) = true ↔
  in_range ip (from_octets 224 0 0 0, from_octets 239 255 255 255) = true
  ∨ in_range ip (from_octets 240 0 0 0, from_octets 255 255 255 255) = true.
Proof. intros Hip. rewrite !in_range_true. unfold from_octets. lia. Qed.

Lemma extreme_addresses ip :
  (Ipv4.is_unspecified ip = true → in_range ip (from_octets 0 0 0 0, from_octets 0 255 255 255) = true)
  ∧ (Ipv4.is_broadcast ip = true → in_range ip (from_octets 240 0 0 0, from_octets 255 255 255 255) = true).
Proof.
  unfold Ipv4.is_unspecified, Ipv4.is_broadcast. rewrite !N.eqb_eq, !in_range_true. unfold from_octets. lia.
Qed.

Lemma is_non_public_ipv4_table ip :
  (ip < 2 ^ 32)%N → is_non_public_ipv4 ip = existsb (in_range ip) NON_PUBLIC_V4.
Proof.
  intros Hip. apply eq_true_iff_eq. unfold is_non_public_ipv4.
  destruct (std_ranges ip Hip) as (Hlo & Hpr & Hll & Hmu). pose proof (reserved_ranges ip Hip) as Hre.
  destruct (extreme_addresses ip) as [Hun Hbr].
  cbn [existsb NON_PUBLIC_V4].
  rewrite !orb_true_iff, Hlo, Hpr, Hll, Hmu, Hre, !cidr_range by (done || reflexivity).
  repeat match goal with
  | |- context [(from_octets ?a ?b ?c ?d + 2 ^ (32 - ?p) - 1)%N] =>
      let n := eval vm_compute in (from_octets a b c d + 2 ^ (32 - p) - 1)%N in
      change (from_octets a b c d + 2 ^ (32 - p) - 1)%N with n
  end.
  clear Hlo Hpr Hll Hmu Hre. cbv [from_octets] in *. simpl N.add in *. simpl N.mul in *.
  generalize dependent (in_range ip). intros rng Hun Hbr.
  split; intros HH; repeat lazymatch type of HH with _ ∨ _ => destruct HH as [HH|HH] end;
    first [find_disjunct|apply Hun in HH; find_disjunct|apply Hbr in HH; find_disjunct|discriminate].
Qed.

(** * IPv6 *)

(** The leading [p] bits of the first segment. *)
Lemma segment_block ip (p mask base : N) :
  (ip < 2 ^ 128)%N → (p ≤ 16)%N → mask = N.shiftl (N.ones p) (16 - p) → (base < 2 ^ 16)%N → N.land base mask = base →
  (N.land (Ipv6.segment 0 ip) mask =? base)%N = true ↔ ((ip / 2 ^ 112) / 2 ^ (16 - p) = base / 2 ^ (16 - p))%N.
Proof.
  intros Hip Hp -> Hb Hland. rewrite N.eqb_eq. rewrite <- Hland at 1.
  assert (Ipv6.segment 0 ip = (ip / 2 ^ 112)%N) as ->.
  { unfold Ipv6.segment. rewrite N.shiftr_div_pow2. change (16 * (7 - 0))%N with 112%N.
    apply N.mod_small. apply N.Div0.div_lt_upper_bound; exact Hip. }
  apply land_block_eq; [done| |done]. apply N.Div0.div_lt_upper_bound; exact Hip.
Qed.

Lemma v6_ranges ip :
  (ip < 2 ^ 128)%N →
  (Ipv6.is_multicast ip = true ↔ in_range ip (65280 * 2 ^ 112, 2 ^ 128 - 1)%N = true)
  ∧ (Ipv6.is_unique_local ip = true ↔ in_range ip (64512 * 2 ^ 112, 65024 * 2 ^ 112 - 1)%N = true)
  ∧ (Ipv6.is_unicast_link_local ip = true ↔ in_range ip (65152 * 2 ^ 112, 65216 * 2 ^ 112 - 1)%N = true).
Proof.
  intros Hip. unfold Ipv6.is_multicast, Ipv6.is_unique_local, Ipv6.is_unicast_link_local.
  rewrite (segment_block ip 8), (segment_block ip 7), (segment_block ip 10), !in_range_true by done.
  rewrite !N.Div0.div_div. eval_pow. repeat split; lia.
Qed.

Lemma to_ipv4_spec ip :
  Ipv6.to_ipv4 ip =
  if (ip <? 2 ^ 32)%N then Some ip
  else if in_range ip (65535 * 2 ^ 32, 65536 * 2 ^ 32 - 1)%N then Some (ip mod 2 ^ 32)%N
  else None.
Proof.
  unfold Ipv6.to_ipv4. rewrite N.shiftr_div_pow2. change (2 ^ 32)%N with 4294967296%N.
  destruct (N.ltb_spec ip 4294967296) as [Hlt|Hge].
  - rewrite N.div_small, N.mod_small by done. done.
  - assert ((ip / 4294967296 =? 0)%N = false) as -> by (apply N.eqb_neq; lia). simpl orb.
    assert ((ip / 4294967296 =? 65535)%N = in_range ip (65535 * 4294967296, 65536 * 4294967296 - 1)%N) as ->; [|done].
    apply eq_true_iff_eq. rewrite N.eqb_eq, in_range_true. lia.
Qed.

Lemma is_non_public_ipv6_table ip : (ip < 2 ^ 128)%N → is_non_public_ipv6 ip = non_public_table (V6 ip).
Proof.
  intros Hip. unfold is_non_public_ipv6, non_public_table. rewrite to_ipv4_spec.
  destruct (N.ltb_spec ip (2 ^ 32)) as [Hlt|Hge]; [|destruct (in_range _ _) eqn:Hr].
  - rewrite is_non_public_ipv4_table by done. unfold Ipv6.is_loopback.
    destruct (N.eqb_spec ip 1) as [->|]; [reflexivity|apply orb_false_r].
  - rewrite is_non_public_ipv4_table by (apply N.mod_lt; done). unfold Ipv6.is_loopback.
    destruct (N.eqb_spec ip 1) as [->|]; [done|apply orb_false_r].
  - destruct (v6_ranges ip Hip) as (Hmu & Hul & Hll). apply eq_true_iff_eq.
    unfold Ipv6.is_loopback, Ipv6.is_unspecified. cbn [existsb NON_PUBLIC_V6].
    rewrite !orb_true_iff, Hmu, Hul, Hll, !N.eqb_eq.
    assert (ip ≠ 0%N) by (intros ->; done). assert (ip ≠ 1%N) by (intros ->; done). clear Hmu Hul Hll Hip Hr Hge. intuition discriminate.
Qed.

(** * Parsed literals *)
Lemma read_number_bound radix digits z max s n rest : read_number radix digits z max s = Some (n, rest) → (n ≤ max)%N.
Proof.
  unfold read_number. destruct (read_digits radix s) as [ds r]. repeat case_match; try done.
  intros [= <- _]. by apply N.leb_le.
Qed.

Lemma read_separator_inv {A} sep i (inner : Reader A) s x : read_separator sep i inner s = Some x → ∃ s', inner s' = Some x.
Proof. destruct i; simpl; [eauto|]. intros (s' & _ & E)%bind_Some. eauto. Qed.

Lemma read_octets_bound n i acc s ip rest :
  read_octets n i acc s = Some (ip, rest) → (ip < (acc + 1) * 256 ^ N.of_nat n)%N.
Proof.
  revert i acc s. induction n as [|n IH]; intros i acc s; cbn [read_octets].
  - intros [= <- _]. simpl. lia.
  - intros ([x s'] & Hx & Hr)%bind_Some. apply IH in Hr. cbn [fst] in Hr.
    apply read_separator_inv in Hx as (s0 & Hx%read_number_bound).
    rewrite Nat2N.inj_succ, N.pow_succ_r'. eapply N.lt_le_trans; [exact Hr|].
    rewrite N.mul_assoc. apply N.mul_le_mono_r. lia.
Qed.

Lemma read_ipv4_addr_bound s ip rest : read_ipv4_addr s = Some (ip, rest) → (ip < 2 ^ 32)%N.
Proof. intros H. by apply read_octets_bound in H. Qed.

Lemma read_groups_bound limit i s gs v4 rest :
  read_groups limit i s = (gs, v4, rest) → length gs ≤ limit ∧ Forall (λ g, (g < 65536)%N) gs.
Proof.
  revert i s gs v4 rest. induction limit as [|limit IH]; intros i s gs v4 rest; cbn [read_groups];
    [intros [= <- _ _]; by split|].
  destruct (if 0 <? limit then _ else _) as [[ip r]|] eqn:E4.
  - destruct (0 <? limit) eqn:El; [|done]. apply Nat.ltb_lt in El.
    apply read_separator_inv in E4 as (s0 & H%read_ipv4_addr_bound). intros [= <- _ _].
    split; [simpl; lia|]. change (2 ^ 32)%N with 4294967296%N in H. repeat constructor; lia.
  - destruct (read_separator 58 i (read_number 16 4 true 65535) s) as [[g r]|] eqn:Eg.
    2:{ intros [= <- _ _]. split; [simpl; lia|constructor]. }
    destruct (read_groups limit (S i) r) as [[gs' v4'] r'] eqn:Er. intros [= <- _ _].
    destruct (IH _ _ _ _ _ Er) as [Hl Hf]. apply read_separator_inv in Eg as (s0 & Hg%read_number_bound).
    split; [simpl; lia|]. constructor; [lia|done].
Qed.

Lemma of_groups_bound gs : Forall (λ g, (g < 65536)%N) gs → (of_groups gs < 65536 ^ N.of_nat (length gs))%N.
Proof.
  induction gs as [|g gs IH] using rev_ind; [done|]. intros [Hgs Hg]%Forall_app. inversion_clear Hg as [|? ? Hg' _].
  unfold of_groups in *. rewrite foldl_app, length_app. cbn [foldl length].
  replace (N.of_nat (length gs + 1)) with (N.succ (N.of_nat (length gs))) by lia. rewrite N.pow_succ_r'.
  specialize (IH Hgs). generalize dependent (65536 ^ N.of_nat (length gs))%N. intros m IH. lia.
Qed.

Lemma read_ipv6_addr_bound s ip rest : read_ipv6_addr s = Some (ip, rest) → (ip < 2 ^ 128)%N.
Proof.
  unfold read_ipv6_addr. destruct (read_groups 8 0 s) as [[hd h4] r] eqn:Eh.
  destruct (read_groups_bound _ _ _ _ _ _ Eh) as [Hl Hf].
  destruct (length hd =? 8) eqn:E8.
  - apply Nat.eqb_eq in E8. intros [= <- _]. pose proof (of_groups_bound _ Hf) as H. by rewrite E8 in H.
  - apply Nat.eqb_neq in E8. destruct h4; [done|]. intros (r1 & _ & Ht)%bind_Some.
    apply bind_Some in Ht as (r2 & _ & Ht).
    destruct (read_groups (8 - (length hd + 1)) 0 r2) as [[tl t4] r3] eqn:Et.
    destruct (read_groups_bound _ _ _ _ _ _ Et) as [Hlt Hft]. injection Ht as <- _.
    set (gs := hd ++ replicate _ 0%N ++ tl).
    assert (length gs = 8) as Hgs by (unfold gs; rewrite !length_app, length_replicate; lia).
    assert (Forall (λ g, (g < 65536)%N) gs) as Hfg.
    { unfold gs. rewrite !Forall_app. split_and!; [done| |done]. by apply Forall_replicate. }
    pose proof (of_groups_bound _ Hfg) as H. by rewrite Hgs in H.
Qed.

Lemma parse_ip_valid s ip : parse_ip s = Some ip → valid_ip ip.
Proof.
  unfold parse_ip. destruct (read_ipv4_addr s) as [[ip4 r4]|] eqn:E4.
  - destruct r4; [|done]. intros [= <-]. by eapply read_ipv4_addr_bound.
  - destruct (read_ipv6_addr s) as [[ip6 r6]|] eqn:E6; [|done]. destruct r6; [|done]. intros [= <-].
    by eapply read_ipv6_addr_bound.
Qed.

Lemma is_non_public_ip_table ip : valid_ip ip → is_non_public_ip ip = non_public_table ip.
Proof.
  destruct ip as [ip|ip]; cbn [valid_ip is_non_public_ip]; intros Hip;
    [by apply is_non_public_ipv4_table|by apply is_non_public_ipv6_table].
Qed.

(** an address is classified as non-public exactly when it lies in one of the listed
    special-purpose ranges: "this network", private, shared, loopback, link-local, protocol
    assignments, the three documentation blocks, benchmarking, multicast and reserved for IPv4;
    the same ranges under the IPv4-compatible and IPv4-mapped prefixes, and unique-local,
    link-local and multicast, for IPv6. *)
Theorem non_public_ip_exact (ip : IpAddr) : valid_ip ip → is_non_public_ip ip = non_public_table ip.
Proof. apply is_non_public_ip_table. Qed.

Lemma non_public_ip_exact_witness :
  is_non_public_ip (V4 (from_octets 100 100 1 2)) = true ∧ is_non_public_ip (V6 (65535 * 2 ^ 32 + 134744072)) = false.
Proof. split; [rewrite (non_public_ip_exact (V4 _)) by done; reflexivity|reflexivity]. Defined.


