(* ===== verification/NetPolicy.v ===== *)
(** Host policy of the network proxy ([network-proxy/src/policy.rs]): normalization of hosts
    and of domain patterns, compilation of pattern lists, and the order on patterns that
    managed configuration is checked with. *)
From stdpp Require Import base list numbers strings.
From S2P Require Import Prelude RustStr NetIp.

(** The options of [globset::GlobBuilder] the program sets; [None] is the crate's default. *)
Record GlobOptions : Type := mk_glob_options {
  case_insensitive : bool;
  backslash_escape : option bool;
  literal_separator : bool;
}.

(** The crates the policy is built on: [globset] (whether a pattern compiles, whether a set of
    patterns compiles, and what a pattern matches) and [url::Host::parse]. *)
Class NetLibs : Type := {
  glob_valid : GlobOptions → str → bool;
  globset_builds : list str → bool;
  glob_match : GlobOptions → str → str → bool;
  UrlHost_parse : str → option str;
}.

Definition HOST_GLOB : GlobOptions := mk_glob_options true None false.

Definition STAR : char := 42%N.
Definition QUESTION : char := 63%N.
Definition PERCENT : char := 37%N.
Definition DOT : char := 46%N.
Definition COLON : char := 58%N.

(** * Hosts *)

(** [str::split_once] with a string for separator. *)
Definition split_once_str (s pat : str) : option (str * str) :=
  i ← find s pat;
  Some (take i s, drop (i + length pat) s).

Definition is_ip (s : str) : bool := bool_decide (is_Some (parse_ip s)).

Definition normalize_ip_literal (host : str) : option str :=
  if is_ip host then Some host
  else
    let scoped delimiter :=
      match split_once_str host delimiter with
      | Some (ip, scope) => if is_ip ip then Some (ip ++ [PERCENT] ++ scope) else None
      | None => None
      end in
    match scoped (lit "%25") with
    | Some h => Some h
    | None => scoped (lit "%")
    end.

Definition unscoped_ip_literal (host : str) : option str :=
  '(ip, _) ← split_once host PERCENT;
  _ ← parse_ip ip;
  Some ip.

Definition trim_end_dots (s : str) : str := trim_end_matches (N.eqb DOT) s.

Definition normalize_dns_host_or_ip_literal (host : str) : str :=
  let host := trim_end_dots (to_ascii_lowercase host) in
  match normalize_ip_literal host with
  | Some ip => ip
  | None => host
  end.

Definition count_char (c : char) (s : str) : nat := length (filter (λ x, x = c) s).

(** [host.split(':').next()]. *)
Definition before_colon (s : str) : str :=
  match split_char COLON s with
  | part :: _ => part
  | [] => []
  end.

Definition normalize_host (host : str) : str :=
  let host := trim host in
  let unbracketed := if starts_with host (lit "[") then find host (lit "]") else None in
  match unbracketed with
  | Some end_ => normalize_dns_host_or_ip_literal (drop 1 (take end_ host))
  | None =>
      if count_char COLON host =? 1 then normalize_dns_host_or_ip_literal (before_colon host)
      else normalize_dns_host_or_ip_literal host
  end.

(** [Host::parse]: [None] is the error "host is empty". *)
Definition Host_parse (input : str) : option str :=
  let normalized := normalize_host input in
  if is_empty normalized then None else Some normalized.

Definition is_loopback_host (host : str) : bool :=
  let host := default host (unscoped_ip_literal host) in
  if bool_decide (host = lit "localhost") then true
  else
    match parse_ip host with
    | Some ip => is_loopback ip
    | None => false
    end.

Definition is_default_proxy_bypass_host (host : str) : bool :=
  let host := normalize_host host in
  match parse_ip host with
  | Some (V4 ip) => (ip =? Ipv4.LOCALHOST)%N || Ipv4.is_private ip
  | Some (V6 ip) => (ip =? Ipv6.LOCALHOST)%N
  | None => bool_decide (host = lit "localhost") || ends_with host (lit ".localhost")
  end.

(** * Patterns *)
Inductive DomainPattern : Type :=
| ApexAndSubdomains (domain : str)
| SubdomainsOnly (domain : str)
| Exact (domain : str).

Definition DomainPattern_parse_domain (domain : str) (build : str → DomainPattern) : DomainPattern :=
  let domain := trim domain in
  if is_empty domain then Exact [] else build domain.

Definition DomainPattern_parse (input : str) : DomainPattern :=
  let input := trim input in
  if is_empty input then Exact []
  else
    match strip_prefix input (lit "**.") with
    | Some domain => DomainPattern_parse_domain domain ApexAndSubdomains
    | None =>
        match strip_prefix input (lit "*.") with
        | Some domain => DomainPattern_parse_domain domain SubdomainsOnly
        | None => Exact input
        end
    end.

Definition expand_domain_pattern (pattern : str) : list str :=
  match DomainPattern_parse pattern with
  | Exact domain => [domain]
  | SubdomainsOnly domain => [lit "?*." ++ domain]
  | ApexAndSubdomains domain => [domain; lit "?*." ++ domain]
  end.

Definition normalize_pattern (pattern : str) : str :=
  let pattern := trim pattern in
  if bool_decide (pattern = lit "*") then lit "*"
  else
    let '(prefix, remainder) :=
      match strip_prefix pattern (lit "**.") with
      | Some domain => (lit "**.", domain)
      | None =>
          match strip_prefix pattern (lit "*.") with
          | Some domain => (lit "*.", domain)
          | None => ([], pattern)
          end
      end in
    let remainder := normalize_host remainder in
    if is_empty prefix then remainder else prefix ++ remainder.

Definition is_global_wildcard_domain_pattern (pattern : str) : bool :=
  existsb (λ candidate, bool_decide (candidate = lit "*")) (expand_domain_pattern (normalize_pattern pattern)).

(** * Pattern lists *)
Inductive GlobalWildcard : Type := WildcardAllow | WildcardReject.

Inductive PolicyError : Type :=
| UnsupportedGlobalWildcard
| InvalidGlobPattern (candidate : str)
| GlobSetBuildFailed.

(** A [GlobSet] is the list of the patterns it was built from. *)
Definition GlobSet : Type := list str.

Section Globs.
Context `{NetLibs}.

Definition globset_is_match (set : GlobSet) (host : str) : bool :=
  existsb (λ p, glob_match HOST_GLOB p host) set.

(** The inner loop: the patterns in [seen] are the patterns already in the builder. *)
Fixpoint add_candidates (candidates : list str) (builder : list str) : Result (list str) PolicyError :=
  match candidates with
  | [] => Ok builder
  | candidate :: rest =>
      if bool_decide (candidate ∈ builder) then add_candidates rest builder
      else if glob_valid HOST_GLOB candidate then add_candidates rest (builder ++ [candidate])
      else Err (InvalidGlobPattern candidate)
  end.

Fixpoint add_patterns (patterns : list str) (global_wildcard : GlobalWildcard) (builder : list str)
    : Result (list str) PolicyError :=
  match patterns with
  | [] => Ok builder
  | pattern :: rest =>
      let reject := match global_wildcard with WildcardReject => is_global_wildcard_domain_pattern pattern | WildcardAllow => false end in
      if reject then Err UnsupportedGlobalWildcard
      else
        let? builder := add_candidates (expand_domain_pattern (normalize_pattern pattern)) builder in
        add_patterns rest global_wildcard builder
  end.

Definition compile_globset_with_policy (patterns : list str) (global_wildcard : GlobalWildcard)
    : Result GlobSet PolicyError :=
  let? builder := add_patterns patterns global_wildcard [] in
  if globset_builds builder then Ok builder else Err GlobSetBuildFailed.

Definition compile_allowlist_globset (patterns : list str) : Result GlobSet PolicyError :=
  compile_globset_with_policy patterns WildcardAllow.

Definition compile_denylist_globset (patterns : list str) : Result GlobSet PolicyError :=
  compile_globset_with_policy patterns WildcardReject.

(** [runtime.rs]. *)
Definition globset_matches_host_or_unscoped (set : GlobSet) (host : str) : bool :=
  globset_is_match set host
  || match unscoped_ip_literal host with
     | Some ip => globset_is_match set ip
     | None => false
     end.

(** * The order on patterns *)
Definition parse_domain_for_constraints (domain : str) : str :=
  let domain := trim_end_dots (trim domain) in
  if is_empty domain then []
  else
    let host :=
      if starts_with domain (lit "[") && ends_with domain (lit "]")
      then drop 1 (take (length domain - 1) domain)
      else domain in
    if contains_char host STAR || contains_char host QUESTION || contains_char host PERCENT then domain
    else default [] (UrlHost_parse host).

Definition parse_for_constraints (input : str) : DomainPattern :=
  let input := trim input in
  if is_empty input then Exact []
  else
    match strip_prefix input (lit "**.") with
    | Some domain => ApexAndSubdomains (parse_domain_for_constraints domain)
    | None =>
        match strip_prefix input (lit "*.") with
        | Some domain => SubdomainsOnly (parse_domain_for_constraints domain)
        | None => Exact (parse_domain_for_constraints input)
        end
    end.

End Globs.

Definition normalize_domain (domain : str) : str := to_ascii_lowercase (trim_end_dots domain).

Definition domain_eq (left right : str) : bool :=
  bool_decide (normalize_domain left = normalize_domain right).

Definition is_subdomain_or_equal (child parent : str) : bool :=
  let child := normalize_domain child in
  let parent := normalize_domain parent in
  if bool_decide (child = parent) then true else ends_with child ([DOT] ++ parent).

Definition is_strict_subdomain (child parent : str) : bool :=
  let child := normalize_domain child in
  let parent := normalize_domain parent in
  negb (bool_decide (child = parent)) && ends_with child ([DOT] ++ parent).

Definition allows (self candidate : DomainPattern) : bool :=
  match self with
  | Exact domain =>
      match candidate with
      | Exact candidate => domain_eq candidate domain
      | _ => false
      end
  | SubdomainsOnly domain =>
      match candidate with
      | Exact candidate => is_strict_subdomain candidate domain
      | SubdomainsOnly candidate => is_subdomain_or_equal candidate domain
      | ApexAndSubdomains candidate => is_strict_subdomain candidate domain
      end
  | ApexAndSubdomains domain =>
      match candidate with
      | Exact candidate => is_subdomain_or_equal candidate domain
      | SubdomainsOnly candidate => is_subdomain_or_equal candidate domain
      | ApexAndSubdomains candidate => is_subdomain_or_equal candidate domain
      end
  end.
