(* ===== verification/NetPolicyFacts.v ===== *)
(** What domain patterns mean: the order on patterns is inclusion of the hosts they cover, and
    a compiled list matches the hosts its patterns cover. *)
From stdpp Require Import base list sets numbers strings.
From S2P Require Import Prelude RustStr NetIp NetPolicy.

(** * Hosts as labels *)
Definition labels (host : str) : list str := split_char DOT host.

(** The hosts a pattern stands for: a domain, the hosts with at least one more label, or
    both. *)
Definition covers (p : DomainPattern) (host : str) : Prop :=
  match p with
  | Exact d => host = normalize_domain d
  | SubdomainsOnly d => ∃ pre, pre ≠ [] ∧ labels host = pre ++ labels (normalize_domain d)
  | ApexAndSubdomains d => ∃ pre, labels host = pre ++ labels (normalize_domain d)
  end.

Lemma labels_inj a b : labels a = labels b → a = b.
Proof. unfold labels. intros E. by rewrite <- (join_split_char DOT a), E, join_split_char. Qed.

Lemma labels_nonempty a : labels a ≠ [].
Proof. apply split_char_nonempty. Qed.

Lemma labels_app a b : labels (a ++ [DOT] ++ b) = labels a ++ labels b.
Proof. apply split_char_app_gen. Qed.

Lemma labels_prefix a (pre : list str) b :
  pre ≠ [] → labels a = pre ++ labels b → ∃ x, a = x ++ [DOT] ++ b ∧ labels x = pre.
Proof.
  intros Hpre E.
  assert (Forall (λ l, DOT ∉ l) pre) as Hfree.
  { pose proof (split_char_Forall DOT a) as H. change (split_char DOT a) with (labels a) in H.
    rewrite E in H. by apply Forall_app in H as [? _]. }
  assert (labels (join [DOT] pre) = pre) as Hx.
  { unfold labels. by apply split_char_join. }
  exists (join [DOT] pre). split; [|done].
  apply labels_inj. by rewrite labels_app, Hx.
Qed.

Lemma ends_with_true s p : ends_with s p = true ↔ ∃ x, s = x ++ p.
Proof.
  unfold ends_with. rewrite bool_decide_eq_true. split.
  - intros [x E]. exists x. by apply strip_suffix_Some.
  - intros [x E]. exists x. by apply strip_suffix_Some.
Qed.

Lemma dot_suffix_labels c p :
  ends_with c ([DOT] ++ p) = true ↔ ∃ pre, pre ≠ [] ∧ labels c = pre ++ labels p.
Proof.
  rewrite ends_with_true. split.
  - intros [x ->]. exists (labels x). split; [apply labels_nonempty|apply labels_app].
  - intros (pre & Hpre & E). destruct (labels_prefix _ _ _ Hpre E) as (x & -> & _). by exists x.
Qed.

Lemma longer_labels (pre : list str) a b : pre ≠ [] → labels a = pre ++ labels b → a ≠ b.
Proof.
  intros Hpre E ->. apply (f_equal length) in E. rewrite length_app in E. destruct pre; [done|]. simpl in E. lia.
Qed.

Lemma is_subdomain_or_equal_labels c p :
  is_subdomain_or_equal c p = true ↔ ∃ pre, labels (normalize_domain c) = pre ++ labels (normalize_domain p).
Proof.
  unfold is_subdomain_or_equal. case_bool_decide as E.
  - split; [|done]. intros _. exists []. by rewrite E.
  - rewrite dot_suffix_labels. split; [naive_solver|]. intros (pre & Hpre). exists pre. split; [|done].
    intros ->. by apply E, labels_inj.
Qed.

Lemma is_strict_subdomain_labels c p :
  is_strict_subdomain c p = true ↔
  ∃ pre, pre ≠ [] ∧ labels (normalize_domain c) = pre ++ labels (normalize_domain p).
Proof.
  unfold is_strict_subdomain. rewrite andb_true_iff, dot_suffix_labels, negb_true_iff, bool_decide_eq_false.
  split; [tauto|]. intros (pre & Hpre & E). split; [by eapply longer_labels|by exists pre].
Qed.

(** * The order is inclusion *)
Lemma allows_sound p q host : allows p q = true → covers q host → covers p host.
Proof.
  destruct p as [d|d|d], q as [c|c|c]; cbn [allows covers];
    rewrite ?is_subdomain_or_equal_labels, ?is_strict_subdomain_labels; try done.
  - intros [pre E] [pre' ->]. exists (pre' ++ pre). by rewrite E, app_assoc.
  - intros [pre E] (pre' & ? & ->). exists (pre' ++ pre). by rewrite E, app_assoc.
  - intros [pre E] ->. by exists pre.
  - intros (pre & ? & E) [pre' ->]. exists (pre' ++ pre). rewrite E, app_assoc. split; [|done]. by destruct pre'.
  - intros [pre E] (pre' & ? & ->). exists (pre' ++ pre). rewrite E, app_assoc. split; [|done]. by destruct pre'.
  - intros (pre & ? & E) ->. by exists pre.
  - unfold domain_eq. rewrite bool_decide_eq_true. congruence.
Qed.

(** Two hosts below a domain that differ in their first label. *)
Definition below (x : char) (d : str) : str := [x] ++ [DOT] ++ normalize_domain d.

Lemma labels_below x d : x ≠ DOT → labels (below x d) = [[x]] ++ labels (normalize_domain d).
Proof.
  intros Hx. unfold below. rewrite labels_app. f_equal. unfold labels. apply split_char_free. set_solver.
Qed.

Lemma covers_below x d : x ≠ DOT → covers (SubdomainsOnly d) (below x d) ∧ covers (ApexAndSubdomains d) (below x d).
Proof. intros Hx. simpl. rewrite labels_below by done. split; by exists [[x]]. Qed.

Lemma below_ne d : below 97 d ≠ below 98 d.
Proof. unfold below. intros E. simplify_list_eq. Qed.

Lemma below_suffix d c (pre pre' : list str) :
  labels (below 97 c) = pre ++ labels (normalize_domain d) →
  labels (below 98 c) = pre' ++ labels (normalize_domain d) →
  ∃ pre, labels (normalize_domain c) = pre ++ labels (normalize_domain d).
Proof.
  rewrite !labels_below by done. destruct pre as [|l pre]; simpl; intros E1.
  - destruct pre' as [|l' pre']; simpl; intros E2; [congruence|]. injection E2 as _ E2. eauto.
  - injection E1 as _ E1. eauto.
Qed.

Lemma allows_complete p q : (∀ host, covers q host → covers p host) → allows p q = true.
Proof.
  destruct p as [d|d|d], q as [c|c|c]; cbn [allows];
    rewrite ?is_subdomain_or_equal_labels, ?is_strict_subdomain_labels; intros Hcov.
  - destruct (Hcov (normalize_domain c)) as [pre E]; [by exists []|eauto].
  - destruct (Hcov (below 97 c)) as [pre E1]; [by apply covers_below|].
    destruct (Hcov (below 98 c)) as [pre' E2]; [by apply covers_below|]. by eapply below_suffix.
  - by apply Hcov.
  - apply (Hcov (normalize_domain c)). by exists [].
  - destruct (Hcov (below 97 c)) as (pre & ? & E1); [by apply covers_below|].
    destruct (Hcov (below 98 c)) as (pre' & ? & E2); [by apply covers_below|]. by eapply below_suffix.
  - by apply Hcov.
  - exfalso. apply (below_ne c). transitivity (normalize_domain d); [|symmetry]; apply Hcov; by apply covers_below.
  - exfalso. apply (below_ne c). transitivity (normalize_domain d); [|symmetry]; apply Hcov; by apply covers_below.
  - unfold domain_eq. apply bool_decide_eq_true. by apply Hcov.
Qed.

(** the order that managed configuration is checked with is inclusion: a pattern allows
    another exactly when every host the other covers, it covers too, where an exact pattern
    covers its domain, [*.domain] the hosts with at least one more label and [**.domain] both. *)
Theorem allows_iff_covers p q : allows p q = true ↔ ∀ host, covers q host → covers p host.
Proof. split; [intros ? ?; by apply allows_sound|apply allows_complete]. Qed.

(** Compiled pattern lists: a list matches exactly the hosts its patterns cover, for patterns in
    canonical form and under the documented behaviour of the glob crate. *)

(** * Plain domains

    Lower-case letters, digits, hyphens, underscores and dots, not ending in a dot: text that
    normalization leaves alone and that no glob reads as an operator. *)
Definition plain_char (c : char) : bool :=
  ((97 <=? c) && (c <=? 122) || (48 <=? c) && (c <=? 57) || (c =? 45) || (c =? 95) || (c =? 46))%N.

Definition plain_domain (d : str) : bool :=
  negb (is_empty d) && forallb plain_char d && negb (bool_decide (last d = Some DOT)).

Lemma plain_domain_true d :
  plain_domain d = true ↔ d ≠ [] ∧ Forall (λ c, plain_char c = true) d ∧ last d ≠ Some DOT.
Proof.
  unfold plain_domain. rewrite !andb_true_iff, !negb_true_iff, forallb_forall, bool_decide_eq_false, Forall_forall.
  setoid_rewrite list_elem_of_In. destruct d; simpl; naive_solver.
Qed.

Lemma plain_char_facts c :
  plain_char c = true →
  is_whitespace c = false ∧ to_ascii_lowercase_char c = c ∧ c ≠ STAR ∧ c ≠ QUESTION ∧ c ≠ PERCENT ∧ c ≠ COLON ∧ c ≠ 91%N.
Proof.
  intros H. assert (45 ≤ c ≤ 122 ∧ ¬ (58 ≤ c ≤ 94))%N as Hc.
  { unfold plain_char in H. rewrite !orb_true_iff, !andb_true_iff, !N.leb_le, !N.eqb_eq in H. lia. }
  unfold STAR, QUESTION, PERCENT, COLON. split; [|split; [|lia]].
  - apply not_true_is_false. unfold is_whitespace.
    rewrite !orb_true_iff, !andb_true_iff, !N.leb_le, !N.eqb_eq. lia.
  - unfold to_ascii_lowercase_char, is_ascii_uppercase.
    destruct ((65 <=? c)%N && (c <=? 90)%N) eqn:E; [|done]. rewrite andb_true_iff, !N.leb_le in E. lia.
Qed.

Lemma plain_not_in c d : plain_domain d = true → plain_char c = false → c ∉ d.
Proof. rewrite plain_domain_true, Forall_forall. intros (_ & H & _) Hc Hin. apply H in Hin. congruence. Qed.

(** * Strings without a character *)
Lemma find_absent c p s : c ∉ s → find s (c :: p) = None.
Proof.
  induction s as [|x s IH]; simpl; [done|]. intros Hc.
  assert (x ≠ c) by set_solver. rewrite IH by set_solver.
  assert (starts_with (x :: s) (c :: p) = false) as ->; [|done].
  apply not_true_is_false. rewrite starts_with_true. intros [k E]. simplify_list_eq.
Qed.

Lemma starts_with_absent c p s : c ∉ s → starts_with s (c :: p) = false.
Proof.
  intros Hc. apply not_true_is_false. rewrite starts_with_true. intros [k ->]. apply Hc. set_solver.
Qed.

Lemma count_char_absent c s : c ∉ s → count_char c s = 0.
Proof.
  intros Hc. unfold count_char. rewrite (proj2 (length_zero_iff_nil _)); [done|].
  induction s as [|x s IH]; [done|]. rewrite filter_cons_False by set_solver. apply IH. set_solver.
Qed.

Lemma contains_char_absent c s : c ∉ s → contains_char s c = false.
Proof.
  intros Hc. unfold contains_char. apply not_true_is_false. rewrite existsb_exists.
  intros (x & Hx & E). apply N.eqb_eq in E as ->. by apply list_elem_of_In in Hx.
Qed.

Lemma strip_prefix_absent c p s : c ∉ s → strip_prefix s (c :: p) = None.
Proof. intros Hc. apply strip_prefix_None. intros [k ->]. apply Hc. set_solver. Qed.

Lemma trim_no_ws s : Forall (λ c, is_whitespace c = false) s → trim s = s.
Proof.
  intros H. apply trim_id.
  - destruct H; done.
  - unfold no_trailing_ws. destruct (last s) as [c|] eqn:E; [|done].
    apply last_Some in E as [l ->]. apply Forall_app in H as [_ H]. by inversion H.
Qed.

Lemma trim_end_dots_id s : last s ≠ Some DOT → trim_end_dots s = s.
Proof.
  unfold trim_end_dots, trim_end_matches. rewrite last_reverse_head. intros H.
  rewrite <- (reverse_involutive s) at 2. f_equal. destruct (reverse s) as [|c r]; [done|].
  apply trim_start_matches_id. apply N.eqb_neq. intros <-. done.
Qed.

Lemma to_ascii_lowercase_id s : Forall (λ c, to_ascii_lowercase_char c = c) s → to_ascii_lowercase s = s.
Proof. induction 1 as [|c s Hc _ IH]; [done|]. unfold to_ascii_lowercase in *. rewrite fmap_cons. by f_equal. Qed.

(** * Normalization leaves plain domains alone *)
Section Plain.
Context (d : str) (Hd : plain_domain d = true).

Lemma plain_forall (P : char → Prop) : (∀ c, plain_char c = true → P c) → Forall P d.
Proof. intros HP. apply plain_domain_true in Hd as (_ & H & _). by eapply Forall_impl. Qed.

Lemma plain_last : last d ≠ Some DOT.
Proof. by apply plain_domain_true in Hd as (_ & _ & H). Qed.

Lemma plain_nonempty : is_empty d = false.
Proof. apply plain_domain_true in Hd as (? & _). by destruct d. Qed.

Lemma plain_trim : trim d = d.
Proof. apply trim_no_ws, plain_forall. intros c Hc. apply (plain_char_facts c Hc). Qed.

Lemma plain_lower : to_ascii_lowercase d = d.
Proof. apply to_ascii_lowercase_id, plain_forall. intros c Hc. apply (plain_char_facts c Hc). Qed.

Lemma normalize_domain_plain : normalize_domain d = d.
Proof. unfold normalize_domain. rewrite trim_end_dots_id by apply plain_last. apply plain_lower. Qed.

Lemma normalize_dns_plain : normalize_dns_host_or_ip_literal d = d.
Proof.
  unfold normalize_dns_host_or_ip_literal. rewrite plain_lower, trim_end_dots_id by apply plain_last.
  unfold normalize_ip_literal. destruct (is_ip d); [done|].
  unfold split_once_str. change (lit "%25") with [PERCENT; 50%N; 53%N]. change (lit "%") with [PERCENT].
  rewrite !find_absent by by apply plain_not_in. done.
Qed.

Lemma normalize_host_plain : normalize_host d = d.
Proof.
  unfold normalize_host. rewrite plain_trim. change (lit "[") with [91%N].
  rewrite starts_with_absent by by apply plain_not_in.
  rewrite count_char_absent by by apply plain_not_in. apply normalize_dns_plain.
Qed.

Lemma strip_star_plain p : strip_prefix d (STAR :: p) = None.
Proof. apply strip_prefix_absent. by apply plain_not_in. Qed.

Lemma parse_domain_for_constraints_plain `{NetLibs} :
  UrlHost_parse d = Some d → parse_domain_for_constraints d = d.
Proof.
  intros Hurl. unfold parse_domain_for_constraints.
  rewrite plain_trim, trim_end_dots_id, plain_nonempty by apply plain_last.
  change (lit "[") with [91%N]. rewrite starts_with_absent by by apply plain_not_in. simpl andb.
  rewrite !contains_char_absent by by apply plain_not_in. simpl. by rewrite Hurl.
Qed.
End Plain.

(** * The glob crate

    What its documentation says of the two shapes of pattern the program builds from a plain
    domain, compiled without case sensitivity: a literal matches itself, and [?*.domain] matches
    at least one character, a dot and the domain. *)
Class GlobLaws `{NetLibs} : Prop := {
  glob_literal d h : plain_domain d = true → glob_match HOST_GLOB d h = true ↔ to_ascii_lowercase h = d;
  glob_subdomains d h :
    plain_domain d = true →
    glob_match HOST_GLOB (lit "?*." ++ d) h = true ↔ ∃ x, x ≠ [] ∧ to_ascii_lowercase h = x ++ [DOT] ++ d;
}.

(** An entry in canonical form: a plain domain that the URL parser leaves alone, with or
    without one of the two wildcard prefixes. *)
Definition canonical `{NetLibs} (entry : str) (p : DomainPattern) : Prop :=
  ∃ d, plain_domain d = true ∧ UrlHost_parse d = Some d ∧
    ((entry = d ∧ p = Exact d) ∨ (entry = lit "*." ++ d ∧ p = SubdomainsOnly d)
     ∨ (entry = lit "**." ++ d ∧ p = ApexAndSubdomains d)).

Section Canonical.
Context `{NL : NetLibs}.

Lemma trim_wildcard d w :
  plain_domain d = true → Forall (λ c, is_whitespace c = false) w → trim (w ++ d) = w ++ d.
Proof.
  intros Hd Hw. apply trim_no_ws, Forall_app. split; [done|].
  apply plain_forall; [done|]. intros c Hc. apply (plain_char_facts c Hc).
Qed.

Lemma strip_two_stars d : strip_prefix (lit "*." ++ d) (lit "**.") = None.
Proof. done. Qed.

Lemma app_nonempty {A} (w d : list A) : is_empty d = false → is_empty (w ++ d) = false.
Proof. destruct w; [done|]. by destruct d. Qed.

Ltac norm_entry Hd :=
  rewrite ?trim_wildcard, ?(plain_trim _ Hd) by (first [done|repeat constructor]);
  rewrite ?app_nonempty, ?(plain_nonempty _ Hd) by (by apply plain_nonempty);
  rewrite ?strip_two_stars, ?strip_prefix_app, ?(strip_star_plain _ Hd).

Lemma canonical_constraint entry p : canonical entry p → parse_for_constraints entry = p.
Proof.
  intros (d & Hd & Hurl & [[-> ->]|[[-> ->]|[-> ->]]]); unfold parse_for_constraints.
  - norm_entry Hd. change (lit "**.") with (STAR :: lit "*."). change (lit "*.") with (STAR :: lit ".").
    rewrite !(strip_star_plain _ Hd). by rewrite parse_domain_for_constraints_plain.
  - norm_entry Hd. by rewrite parse_domain_for_constraints_plain.
  - norm_entry Hd. by rewrite parse_domain_for_constraints_plain.
Qed.

Definition candidates (p : DomainPattern) : list str :=
  match p with
  | Exact d => [d]
  | SubdomainsOnly d => [lit "?*." ++ d]
  | ApexAndSubdomains d => [d; lit "?*." ++ d]
  end.

Lemma normalize_pattern_canonical entry p : canonical entry p → normalize_pattern entry = entry.
Proof.
  intros (d & Hd & _ & Hcase). unfold normalize_pattern.
  assert (trim entry = entry) as ->.
  { destruct Hcase as [[-> _]|[[-> _]|[-> _]]]; norm_entry Hd; done. }
  rewrite bool_decide_eq_false_2.
  2:{ intros E. destruct Hcase as [[-> _]|[[-> _]|[-> _]]]; [by subst d|..]; by destruct d. }
  destruct Hcase as [[-> _]|[[-> _]|[-> _]]].
  - change (lit "**.") with (STAR :: lit "*."). change (lit "*.") with (STAR :: lit ".").
    rewrite !(strip_star_plain _ Hd). simpl. by apply normalize_host_plain.
  - rewrite strip_two_stars, strip_prefix_app. simpl. by rewrite normalize_host_plain.
  - rewrite strip_prefix_app. simpl. by rewrite normalize_host_plain.
Qed.

Lemma expand_canonical entry p : canonical entry p → expand_domain_pattern entry = candidates p.
Proof.
  intros (d & Hd & _ & Hcase). unfold expand_domain_pattern, DomainPattern_parse.
  destruct Hcase as [[-> ->]|[[-> ->]|[-> ->]]]; norm_entry Hd.
  - change (lit "**.") with (STAR :: lit "*."). change (lit "*.") with (STAR :: lit ".").
    by rewrite !(strip_star_plain _ Hd).
  - unfold DomainPattern_parse_domain. by rewrite plain_trim, plain_nonempty.
  - unfold DomainPattern_parse_domain. by rewrite plain_trim, plain_nonempty.
Qed.

Lemma subdomain_glob_labels `{!GlobLaws} d h :
  plain_domain d = true → glob_match HOST_GLOB (lit "?*." ++ d) h = true →
  ∃ pre, pre ≠ [] ∧ labels (to_ascii_lowercase h) = pre ++ labels d.
Proof.
  intros Hd. rewrite glob_subdomains by done. intros (x & _ & ->). apply dot_suffix_labels, ends_with_true. by exists x.
Qed.

Lemma match_covers `{!GlobLaws} entry p q h :
  canonical entry p → q ∈ candidates p → glob_match HOST_GLOB q h = true → covers p (to_ascii_lowercase h).
Proof.
  intros (d & Hd & _ & Hcase). destruct Hcase as [[_ ->]|[[_ ->]|[_ ->]]]; cbn [candidates covers];
    rewrite normalize_domain_plain by done; intros Hq; repeat setoid_rewrite elem_of_cons in Hq.
  - destruct Hq as [->|Hq]; [|by apply not_elem_of_nil in Hq]. by rewrite glob_literal.
  - destruct Hq as [->|Hq]; [|by apply not_elem_of_nil in Hq]. by apply subdomain_glob_labels.
  - destruct Hq as [->|[->|Hq]]; [| |by apply not_elem_of_nil in Hq].
    + rewrite glob_literal by done. intros ->. by exists [].
    + intros Hm. apply subdomain_glob_labels in Hm as (pre & _ & E); [|done]. eauto.
Qed.

(** The other way for a host that does not start with a dot. *)
Lemma covers_match `{!GlobLaws} entry p h :
  canonical entry p → head h ≠ Some DOT → covers p (to_ascii_lowercase h) →
  ∃ q, q ∈ candidates p ∧ glob_match HOST_GLOB q h = true.
Proof.
  intros (d & Hd & _ & Hcase) Hh.
  assert (∀ pre, pre ≠ [] → labels (to_ascii_lowercase h) = pre ++ labels d →
            glob_match HOST_GLOB (lit "?*." ++ d) h = true) as Hsub.
  { intros pre Hpre E. apply glob_subdomains; [done|].
    destruct (labels_prefix _ _ _ Hpre E) as (x & E' & _). exists x. split; [|done]. intros ->.
    destruct h as [|c h]; [done|]. injection E' as E' _. apply Hh. simpl. f_equal.
    unfold to_ascii_lowercase_char in E'. destruct (is_ascii_uppercase c) eqn:Eu; [|done].
    unfold is_ascii_uppercase in Eu. rewrite andb_true_iff, !N.leb_le in Eu. unfold DOT in E'. lia. }
  destruct Hcase as [[_ ->]|[[_ ->]|[_ ->]]]; cbn [candidates covers]; rewrite normalize_domain_plain by done.
  - intros E. exists d. split; [set_solver|]. by apply glob_literal.
  - intros (pre & Hpre & E). exists (lit "?*." ++ d). split; [set_solver|]. by apply (Hsub pre).
  - intros ([|l pre] & E).
    + exists d. split; [set_solver|]. apply glob_literal; [done|]. by apply labels_inj.
    + exists (lit "?*." ++ d). split; [set_solver|]. by apply (Hsub (l :: pre)).
Qed.
End Canonical.

(** * Compiled lists *)
Section Compile.
Context `{NL : NetLibs}.

Lemma add_candidates_elem cs builder set q :
  add_candidates cs builder = Ok set → q ∈ set ↔ q ∈ builder ∨ q ∈ cs.
Proof.
  revert builder. induction cs as [|c cs IH]; intros builder; simpl; [intros [= ->]; set_solver|].
  case_bool_decide as Hc; [intros Hok%IH; rewrite Hok; set_solver|].
  destruct (glob_valid HOST_GLOB c); [|done]. intros Hok%IH. rewrite Hok. set_solver.
Qed.

Lemma add_patterns_elem ps g builder set q :
  add_patterns ps g builder = Ok set →
  q ∈ set ↔ q ∈ builder ∨ ∃ p, p ∈ ps ∧ q ∈ expand_domain_pattern (normalize_pattern p).
Proof.
  revert builder. induction ps as [|p ps IH]; intros builder; simpl; [intros [= ->]; set_solver|].
  destruct (match g with WildcardAllow => _ | WildcardReject => _ end); [done|].
  destruct (add_candidates _ builder) as [b|] eqn:E; simpl; [|done].
  intros Hok%IH. rewrite Hok, (add_candidates_elem _ _ _ _ E).
  setoid_rewrite elem_of_cons. naive_solver.
Qed.

Lemma compile_match ps g set h :
  compile_globset_with_policy ps g = Ok set →
  globset_is_match set h = true ↔
  ∃ p q, p ∈ ps ∧ q ∈ expand_domain_pattern (normalize_pattern p) ∧ glob_match HOST_GLOB q h = true.
Proof.
  unfold compile_globset_with_policy. destruct (add_patterns ps g []) as [b|] eqn:E; simpl; [|done].
  destruct (globset_builds b); [|done]. intros [= ->]. unfold globset_is_match. rewrite existsb_exists.
  setoid_rewrite <- list_elem_of_In. setoid_rewrite (add_patterns_elem _ _ _ _ _ E).
  split; [|naive_solver]. intros (q & [Hq|(p & ? & ?)] & Hm); [by apply not_elem_of_nil in Hq|eauto 10].
Qed.

(** A list of canonical entries only matches hosts that one of them covers, and matches every
    such host that does not start with a dot. *)
Lemma compiled_match_covered `{!GlobLaws} ps g set h :
  compile_globset_with_policy ps g = Ok set → (∀ e, e ∈ ps → ∃ p, canonical e p) →
  globset_is_match set h = true → ∃ e, e ∈ ps ∧ covers (parse_for_constraints e) (to_ascii_lowercase h).
Proof.
  intros Hc Hcan. rewrite (compile_match _ _ _ _ Hc). intros (e & q & He & Hq & Hm).
  destruct (Hcan e He) as [p Hp]. exists e. split; [done|].
  rewrite (canonical_constraint _ _ Hp). rewrite (normalize_pattern_canonical _ _ Hp), (expand_canonical _ _ Hp) in Hq.
  by eapply match_covers.
Qed.

Lemma compiled_covered_match `{!GlobLaws} ps g set h e p :
  compile_globset_with_policy ps g = Ok set → e ∈ ps → canonical e p → head h ≠ Some DOT →
  covers p (to_ascii_lowercase h) → globset_is_match set h = true.
Proof.
  intros Hc He Hp Hh Hcov. rewrite (compile_match _ _ _ _ Hc).
  destruct (covers_match _ _ _ Hp Hh Hcov) as (q & Hq & Hm). exists e, q. split_and!; [done| |done].
  by rewrite (normalize_pattern_canonical _ _ Hp), (expand_canonical _ _ Hp).
Qed.
End Compile.
