(* ===== verification/NetConfig.v ===== *)
(** The configuration of the network proxy: [network-proxy/src/config.rs], with the hook
    settings of [mitm_hook.rs], the socket paths of [socket_path.rs] and the attachment policy
    of [environment_policy.rs].

    A [BTreeMap] that the program changes or looks up is a [gmap], listed in key order where
    it is iterated; the maps of a hook setting are only iterated and are lists in key order. *)
From stdpp Require Import base list numbers strings gmap pretty.
From S2P Require Import Prelude RustStr PathConv NetIp NetPolicy.

(** * Data *)
Inductive NetworkDomainPermission : Type := PermNone | PermAllow | PermDeny.

#[export] Instance NetworkDomainPermission_eq_dec : EqDecision NetworkDomainPermission.
Proof. solve_decision. Defined.

(** The derived order: the order of the variants. *)
Definition permission_rank (p : NetworkDomainPermission) : nat :=
  match p with
  | PermNone => 0
  | PermAllow => 1
  | PermDeny => 2
  end.

Record NetworkDomainPermissionEntry : Type := mk_entry {
  pattern : str;
  permission : NetworkDomainPermission;
}.

#[export] Instance NetworkDomainPermissionEntry_eq_dec : EqDecision NetworkDomainPermissionEntry.
Proof. solve_decision. Defined.

(** [NetworkDomainPermissions]: its [entries]. *)
Abbreviation NetworkDomainPermissions := (list NetworkDomainPermissionEntry).

Inductive NetworkUnixSocketPermission : Type := SocketAllow | SocketDeny.

#[export] Instance NetworkUnixSocketPermission_eq_dec : EqDecision NetworkUnixSocketPermission.
Proof. solve_decision. Defined.

(** [NetworkUnixSocketPermissions]: its [entries]. *)
Abbreviation NetworkUnixSocketPermissions := (gmap str NetworkUnixSocketPermission).

Inductive NetworkMode : Type := Limited | Full.

#[export] Instance NetworkMode_eq_dec : EqDecision NetworkMode.
Proof. solve_decision. Defined.

Definition allows_method (self : NetworkMode) (method : str) : bool :=
  match self with
  | Full => true
  | Limited => bool_decide (method = lit "GET") || bool_decide (method = lit "HEAD") || bool_decide (method = lit "OPTIONS")
  end.

Record InjectedHeaderConfig : Type := mk_injected_header_config {
  ih_name : str;
  ih_secret_env_var : option str;
  ih_secret_file : option str;
  ih_prefix : option str;
}.

(** [body] is the JSON value as text: it is reserved and only its presence counts. *)
Record MitmHookMatchConfig : Type := mk_hook_match_config {
  hm_methods : list str;
  hm_path_prefixes : list str;
  hm_query : list (str * list str);
  hm_headers : list (str * list str);
  hm_body : option str;
}.

Record MitmHookActionsConfig : Type := mk_hook_actions_config {
  ha_strip_request_headers : list str;
  ha_inject_request_headers : list InjectedHeaderConfig;
}.

Record MitmHookConfig : Type := mk_hook_config {
  hc_host : str;
  hc_matcher : MitmHookMatchConfig;
  hc_actions : MitmHookActionsConfig;
}.

Inductive CredentialAuthMethod : Type := Bearer | Token | Basic | Header.

Record CredentialProviderConfig : Type := mk_credential_provider {
  cp_env : list str;
  cp_patterns : list str;
  cp_url_prefixes : list str;
  cp_url_prefix_from_env : option str;
  cp_auth : list CredentialAuthMethod;
  cp_header : option str;
  cp_prefix : option str;
}.

Record NetworkProxyConfig : Type := mk_config {
  cfg_enabled : bool;
  cfg_proxy_url : str;
  cfg_enable_socks5 : bool;
  cfg_socks_url : str;
  cfg_enable_socks5_udp : bool;
  cfg_allow_upstream_proxy : bool;
  cfg_dangerously_allow_non_loopback_proxy : bool;
  cfg_dangerously_allow_all_unix_sockets : option bool;
  cfg_mode : NetworkMode;
  cfg_domains : option NetworkDomainPermissions;
  cfg_unix_sockets : option NetworkUnixSocketPermissions;
  cfg_allow_local_binding : option bool;
  cfg_mitm : bool;
  cfg_credential_broker : bool;
  cfg_credential_broker_enabled_mitm : bool;
  cfg_credential_providers : gmap str CredentialProviderConfig;
  cfg_credential_broker_openai_host : option str;
  cfg_credential_broker_context : gmap str str;
  cfg_dangerously_allow_plaintext_credential_injection : bool;
  cfg_mitm_hooks : list MitmHookConfig;
}.

#[export] Instance InjectedHeaderConfig_eq_dec : EqDecision InjectedHeaderConfig.
Proof. solve_decision. Defined.
#[export] Instance MitmHookMatchConfig_eq_dec : EqDecision MitmHookMatchConfig.
Proof. solve_decision. Defined.
#[export] Instance MitmHookActionsConfig_eq_dec : EqDecision MitmHookActionsConfig.
Proof. solve_decision. Defined.
#[export] Instance MitmHookConfig_eq_dec : EqDecision MitmHookConfig.
Proof. solve_decision. Defined.
#[export] Instance CredentialAuthMethod_eq_dec : EqDecision CredentialAuthMethod.
Proof. solve_decision. Defined.
#[export] Instance CredentialProviderConfig_eq_dec : EqDecision CredentialProviderConfig.
Proof. solve_decision. Defined.
#[export] Instance NetworkProxyConfig_eq_dec : EqDecision NetworkProxyConfig.
Proof. solve_decision. Defined.

Definition default_proxy_url : str := lit "http://127.0.0.1:3128".
Definition default_socks_url : str := lit "http://127.0.0.1:8081".

Definition default_config : NetworkProxyConfig :=
  mk_config false default_proxy_url true default_socks_url true true false None Full None None None
    false false false ∅ None ∅ false [].

Definition set_enabled (x : bool) (c : NetworkProxyConfig) : NetworkProxyConfig :=
  mk_config x (cfg_proxy_url c) (cfg_enable_socks5 c) (cfg_socks_url c) (cfg_enable_socks5_udp c)
    (cfg_allow_upstream_proxy c) (cfg_dangerously_allow_non_loopback_proxy c)
    (cfg_dangerously_allow_all_unix_sockets c) (cfg_mode c) (cfg_domains c) (cfg_unix_sockets c)
    (cfg_allow_local_binding c) (cfg_mitm c) (cfg_credential_broker c)
    (cfg_credential_broker_enabled_mitm c) (cfg_credential_providers c)
    (cfg_credential_broker_openai_host c) (cfg_credential_broker_context c)
    (cfg_dangerously_allow_plaintext_credential_injection c) (cfg_mitm_hooks c).

Definition set_allow_upstream_proxy (x : bool) (c : NetworkProxyConfig) : NetworkProxyConfig :=
  mk_config (cfg_enabled c) (cfg_proxy_url c) (cfg_enable_socks5 c) (cfg_socks_url c)
    (cfg_enable_socks5_udp c) x (cfg_dangerously_allow_non_loopback_proxy c)
    (cfg_dangerously_allow_all_unix_sockets c) (cfg_mode c) (cfg_domains c) (cfg_unix_sockets c)
    (cfg_allow_local_binding c) (cfg_mitm c) (cfg_credential_broker c)
    (cfg_credential_broker_enabled_mitm c) (cfg_credential_providers c)
    (cfg_credential_broker_openai_host c) (cfg_credential_broker_context c)
    (cfg_dangerously_allow_plaintext_credential_injection c) (cfg_mitm_hooks c).

Definition set_dangerously_allow_all_unix_sockets (x : option bool) (c : NetworkProxyConfig) : NetworkProxyConfig :=
  mk_config (cfg_enabled c) (cfg_proxy_url c) (cfg_enable_socks5 c) (cfg_socks_url c)
    (cfg_enable_socks5_udp c) (cfg_allow_upstream_proxy c)
    (cfg_dangerously_allow_non_loopback_proxy c) x (cfg_mode c) (cfg_domains c)
    (cfg_unix_sockets c) (cfg_allow_local_binding c) (cfg_mitm c) (cfg_credential_broker c)
    (cfg_credential_broker_enabled_mitm c) (cfg_credential_providers c)
    (cfg_credential_broker_openai_host c) (cfg_credential_broker_context c)
    (cfg_dangerously_allow_plaintext_credential_injection c) (cfg_mitm_hooks c).

Definition set_cfg_mode (x : NetworkMode) (c : NetworkProxyConfig) : NetworkProxyConfig :=
  mk_config (cfg_enabled c) (cfg_proxy_url c) (cfg_enable_socks5 c) (cfg_socks_url c)
    (cfg_enable_socks5_udp c) (cfg_allow_upstream_proxy c)
    (cfg_dangerously_allow_non_loopback_proxy c) (cfg_dangerously_allow_all_unix_sockets c) x
    (cfg_domains c) (cfg_unix_sockets c) (cfg_allow_local_binding c) (cfg_mitm c)
    (cfg_credential_broker c) (cfg_credential_broker_enabled_mitm c) (cfg_credential_providers c)
    (cfg_credential_broker_openai_host c) (cfg_credential_broker_context c)
    (cfg_dangerously_allow_plaintext_credential_injection c) (cfg_mitm_hooks c).

Definition set_domains (x : option NetworkDomainPermissions) (c : NetworkProxyConfig) : NetworkProxyConfig :=
  mk_config (cfg_enabled c) (cfg_proxy_url c) (cfg_enable_socks5 c) (cfg_socks_url c)
    (cfg_enable_socks5_udp c) (cfg_allow_upstream_proxy c)
    (cfg_dangerously_allow_non_loopback_proxy c) (cfg_dangerously_allow_all_unix_sockets c)
    (cfg_mode c) x (cfg_unix_sockets c) (cfg_allow_local_binding c) (cfg_mitm c)
    (cfg_credential_broker c) (cfg_credential_broker_enabled_mitm c) (cfg_credential_providers c)
    (cfg_credential_broker_openai_host c) (cfg_credential_broker_context c)
    (cfg_dangerously_allow_plaintext_credential_injection c) (cfg_mitm_hooks c).

Definition set_unix_sockets (x : option NetworkUnixSocketPermissions) (c : NetworkProxyConfig) : NetworkProxyConfig :=
  mk_config (cfg_enabled c) (cfg_proxy_url c) (cfg_enable_socks5 c) (cfg_socks_url c)
    (cfg_enable_socks5_udp c) (cfg_allow_upstream_proxy c)
    (cfg_dangerously_allow_non_loopback_proxy c) (cfg_dangerously_allow_all_unix_sockets c)
    (cfg_mode c) (cfg_domains c) x (cfg_allow_local_binding c) (cfg_mitm c)
    (cfg_credential_broker c) (cfg_credential_broker_enabled_mitm c) (cfg_credential_providers c)
    (cfg_credential_broker_openai_host c) (cfg_credential_broker_context c)
    (cfg_dangerously_allow_plaintext_credential_injection c) (cfg_mitm_hooks c).

Definition set_allow_local_binding (x : option bool) (c : NetworkProxyConfig) : NetworkProxyConfig :=
  mk_config (cfg_enabled c) (cfg_proxy_url c) (cfg_enable_socks5 c) (cfg_socks_url c)
    (cfg_enable_socks5_udp c) (cfg_allow_upstream_proxy c)
    (cfg_dangerously_allow_non_loopback_proxy c) (cfg_dangerously_allow_all_unix_sockets c)
    (cfg_mode c) (cfg_domains c) (cfg_unix_sockets c) x (cfg_mitm c) (cfg_credential_broker c)
    (cfg_credential_broker_enabled_mitm c) (cfg_credential_providers c)
    (cfg_credential_broker_openai_host c) (cfg_credential_broker_context c)
    (cfg_dangerously_allow_plaintext_credential_injection c) (cfg_mitm_hooks c).

Definition set_mitm (x : bool) (c : NetworkProxyConfig) : NetworkProxyConfig :=
  mk_config (cfg_enabled c) (cfg_proxy_url c) (cfg_enable_socks5 c) (cfg_socks_url c)
    (cfg_enable_socks5_udp c) (cfg_allow_upstream_proxy c)
    (cfg_dangerously_allow_non_loopback_proxy c) (cfg_dangerously_allow_all_unix_sockets c)
    (cfg_mode c) (cfg_domains c) (cfg_unix_sockets c) (cfg_allow_local_binding c) x
    (cfg_credential_broker c) (cfg_credential_broker_enabled_mitm c) (cfg_credential_providers c)
    (cfg_credential_broker_openai_host c) (cfg_credential_broker_context c)
    (cfg_dangerously_allow_plaintext_credential_injection c) (cfg_mitm_hooks c).

Definition set_credential_broker (x : bool) (c : NetworkProxyConfig) : NetworkProxyConfig :=
  mk_config (cfg_enabled c) (cfg_proxy_url c) (cfg_enable_socks5 c) (cfg_socks_url c)
    (cfg_enable_socks5_udp c) (cfg_allow_upstream_proxy c)
    (cfg_dangerously_allow_non_loopback_proxy c) (cfg_dangerously_allow_all_unix_sockets c)
    (cfg_mode c) (cfg_domains c) (cfg_unix_sockets c) (cfg_allow_local_binding c) (cfg_mitm c) x
    (cfg_credential_broker_enabled_mitm c) (cfg_credential_providers c)
    (cfg_credential_broker_openai_host c) (cfg_credential_broker_context c)
    (cfg_dangerously_allow_plaintext_credential_injection c) (cfg_mitm_hooks c).

Definition set_credential_broker_enabled_mitm (x : bool) (c : NetworkProxyConfig) : NetworkProxyConfig :=
  mk_config (cfg_enabled c) (cfg_proxy_url c) (cfg_enable_socks5 c) (cfg_socks_url c)
    (cfg_enable_socks5_udp c) (cfg_allow_upstream_proxy c)
    (cfg_dangerously_allow_non_loopback_proxy c) (cfg_dangerously_allow_all_unix_sockets c)
    (cfg_mode c) (cfg_domains c) (cfg_unix_sockets c) (cfg_allow_local_binding c) (cfg_mitm c)
    (cfg_credential_broker c) x (cfg_credential_providers c) (cfg_credential_broker_openai_host c)
    (cfg_credential_broker_context c) (cfg_dangerously_allow_plaintext_credential_injection c)
    (cfg_mitm_hooks c).

Definition set_credential_broker_openai_host (x : option str) (c : NetworkProxyConfig) : NetworkProxyConfig :=
  mk_config (cfg_enabled c) (cfg_proxy_url c) (cfg_enable_socks5 c) (cfg_socks_url c)
    (cfg_enable_socks5_udp c) (cfg_allow_upstream_proxy c)
    (cfg_dangerously_allow_non_loopback_proxy c) (cfg_dangerously_allow_all_unix_sockets c)
    (cfg_mode c) (cfg_domains c) (cfg_unix_sockets c) (cfg_allow_local_binding c) (cfg_mitm c)
    (cfg_credential_broker c) (cfg_credential_broker_enabled_mitm c) (cfg_credential_providers c) x
    (cfg_credential_broker_context c) (cfg_dangerously_allow_plaintext_credential_injection c)
    (cfg_mitm_hooks c).

(** * Domain permissions *)

(** [effective_entries]: the patterns in the order they first appear, each with the highest of
    its permissions. *)
Definition merge_entry (acc : list str * gmap str NetworkDomainPermission) (e : NetworkDomainPermissionEntry)
    : list str * gmap str NetworkDomainPermission :=
  let '(order, effective) := acc in
  match effective !! pattern e with
  | None => (order ++ [pattern e], <[pattern e := permission e]> effective)
  | Some p =>
      if permission_rank p <? permission_rank (permission e)
      then (order, <[pattern e := permission e]> effective)
      else (order, effective)
  end.

Fixpoint take_entries (order : list str) (effective : gmap str NetworkDomainPermission) : NetworkDomainPermissions :=
  match order with
  | [] => []
  | p :: order =>
      match effective !! p with
      | Some perm => mk_entry p perm :: take_entries order (delete p effective)
      | None => take_entries order effective
      end
  end.

Definition effective_entries (entries : NetworkDomainPermissions) : NetworkDomainPermissions :=
  let '(order, effective) := foldl merge_entry ([], ∅) entries in
  take_entries order effective.

Definition domain_entries (c : NetworkProxyConfig) (perm : NetworkDomainPermission) : option (list str) :=
  match cfg_domains c with
  | None => None
  | Some ds =>
      let entries := pattern <$> filter (λ e, permission e = perm) (effective_entries ds) in
      if is_empty entries then None else Some entries
  end.

Definition allowed_domains (c : NetworkProxyConfig) : option (list str) := domain_entries c PermAllow.
Definition denied_domains (c : NetworkProxyConfig) : option (list str) := domain_entries c PermDeny.

Definition some_if_nonempty (ds : NetworkDomainPermissions) : option NetworkDomainPermissions :=
  if is_empty ds then None else Some ds.

Definition upsert_domain_permission (host : str) (perm : NetworkDomainPermission) (normalize : str → str)
    (c : NetworkProxyConfig) : NetworkProxyConfig :=
  let ds := default [] (cfg_domains c) in
  let normalized_host := normalize host in
  let ds := filter (λ e, normalize (pattern e) ≠ normalized_host) ds in
  set_domains (some_if_nonempty (ds ++ [mk_entry host perm])) c.

Definition push_domain_entry (perm : NetworkDomainPermission) (ds : NetworkDomainPermissions) (entry : str)
    : NetworkDomainPermissions :=
  if bool_decide (mk_entry entry perm ∈ ds) then ds else ds ++ [mk_entry entry perm].

Definition set_domain_entries (entries : list str) (perm : NetworkDomainPermission) (c : NetworkProxyConfig)
    : NetworkProxyConfig :=
  let ds := filter (λ e, permission e ≠ perm) (default [] (cfg_domains c)) in
  set_domains (some_if_nonempty (foldl (push_domain_entry perm) ds entries)) c.

Definition set_allowed_domains (entries : list str) (c : NetworkProxyConfig) : NetworkProxyConfig :=
  set_domain_entries entries PermAllow c.
Definition set_denied_domains (entries : list str) (c : NetworkProxyConfig) : NetworkProxyConfig :=
  set_domain_entries entries PermDeny c.

(** * Unix sockets *)
Definition allow_unix_sockets (c : NetworkProxyConfig) : list str :=
  match cfg_unix_sockets c with
  | None => []
  | Some m => sort_by_key id (map_to_list (filter (λ kv, kv.2 = SocketAllow) m)).*1
  end.

Definition set_unix_socket_entries (entries : list str) (perm : NetworkUnixSocketPermission)
    (c : NetworkProxyConfig) : NetworkProxyConfig :=
  let m := filter (λ kv, kv.2 ≠ perm) (default ∅ (cfg_unix_sockets c)) in
  set_unix_sockets (Some (foldl (λ m e, <[e := perm]> m) m entries)) c.

Definition set_allow_unix_sockets (entries : list str) (c : NetworkProxyConfig) : NetworkProxyConfig :=
  set_unix_socket_entries entries SocketAllow c.

(** [socket_path.rs]. *)
Definition is_ascii_alphabetic (c : char) : bool :=
  ((97 <=? c) && (c <=? 122) || (65 <=? c) && (c <=? 90))%N.
Definition is_slash (c : char) : bool := ((c =? 92) || (c =? 47))%N.

Definition windows_path_is_absolute (path : str) : bool :=
  let drive :=
    match path with
    | d :: colon :: sep :: _ => is_ascii_alphabetic d && (colon =? COLON)%N && is_slash sep
    | _ => false
    end in
  if drive then true
  else
    match path with
    | a :: b :: rest =>
        if is_slash a && is_slash b then
          let device := match rest with dot :: sep :: _ => (dot =? DOT)%N && is_slash sep | _ => false end in
          if starts_with path [92%N; 92%N; QUESTION; 92%N] || device then true
          else
            match split_by is_slash rest with
            | server :: share :: _ => negb (is_empty server) && negb (is_empty share)
            | _ => false
            end
        else false
    | _ => false
    end.

Definition socket_path_is_absolute (platform : Platform) (path : str) : bool :=
  starts_with path (lit "/")
  || match path_convention platform with
     | Some Posix => false
     | Some Windows | None => windows_path_is_absolute path
     end.

Definition validate_unix_socket_allowlist_paths (c : NetworkProxyConfig) (executor_os : Platform) : bool :=
  forallb (λ p, socket_path_is_absolute executor_os p && negb (contains_char p 0%N)) (allow_unix_sockets c).

(** * Other settings *)
Definition config_allow_local_binding (c : NetworkProxyConfig) : bool := default false (cfg_allow_local_binding c).

Definition set_credential_broker_enabled (on : bool) (c : NetworkProxyConfig) : NetworkProxyConfig :=
  let c := set_credential_broker on c in
  if on then
    set_mitm true (set_credential_broker_enabled_mitm (cfg_credential_broker_enabled_mitm c || negb (cfg_mitm c)) c)
  else if cfg_credential_broker_enabled_mitm c then
    set_credential_broker_enabled_mitm false (set_mitm (negb (is_empty (cfg_mitm_hooks c))) c)
  else c.

(** * Addresses *)

(** What the program reads of a parsed URL; the parser is the crate [url]. *)
Record Url : Type := mk_url {
  url_scheme : str;
  url_username : str;
  url_password : option str;
  url_host_str : option str;
  url_port : option N;
}.

Class UrlLib : Type := { Url_parse : str → option Url }.

Record SocketAddr : Type := mk_addr {
  addr_ip : IpAddr;
  addr_port : N;
}.

Record SocketAddressParts : Type := mk_parts {
  part_host : str;
  part_port : N;
}.

(** [str::parse::<u16>]: an optional [+], then decimal digits, at most 65535. *)
Definition parse_u16 (s : str) : option N :=
  let digits := default s (strip_prefix s (lit "+")) in
  let n := foldl (λ acc c, acc * 10 + (c - 48))%N 0%N digits in
  if negb (is_empty digits) && forallb is_ascii_digit digits && (n <=? 65535)%N then Some n else None.

Definition trim_brackets (s : str) : str :=
  let bracket c := (c =? 91)%N || (c =? 93)%N in
  trim_end_matches bracket (trim_start_matches bracket s).

(** [None] is the error "missing host in network proxy address". *)
Definition parse_host_port_fallback (input : str) (default_port : N) : option SocketAddressParts :=
  let without_scheme := default input (snd <$> split_once_str input (lit "://")) in
  let host_port := default without_scheme (head (split_char 47 without_scheme)) in
  let host_port := default host_port (snd <$> rsplit_once host_port 64) in
  let bracketed := if starts_with host_port (lit "[") then find host_port (lit "]") else None in
  match bracketed with
  | Some end_ =>
      let host := drop 1 (take end_ host_port) in
      let port :=
        default default_port (strip_prefix (drop (end_ + 1) host_port) (lit ":") ≫= parse_u16) in
      if is_empty host then None else Some (mk_parts host port)
  | None =>
      let single := if count_char COLON host_port =? 1 then rsplit_once host_port COLON else None in
      match single with
      | Some (host, port) =>
          if is_empty host then None else Some (mk_parts host (default default_port (parse_u16 port)))
      | None => if is_empty host_port then None else Some (mk_parts host_port default_port)
      end
  end.

Definition is_v6 (ip : option IpAddr) : bool :=
  match ip with
  | Some (V6 _) => true
  | _ => false
  end.

Definition LOOPBACK : IpAddr := V4 (from_octets 127 0 0 1).

Section Listeners.
Context `{UrlLib}.

Definition trusted_credential_broker_host (base_url : str) : option str :=
  url ← Url_parse base_url;
  if bool_decide (url_scheme url = lit "https") && is_empty (url_username url) && bool_decide (url_password url = None)
  then normalize_host <$> url_host_str url
  else None.

Definition set_credential_broker_openai_base_url (base_url : option str) (c : NetworkProxyConfig) : NetworkProxyConfig :=
  set_credential_broker_openai_host (base_url ≫= trusted_credential_broker_host) c.

Definition parse_host_port (url : str) (default_port : N) : option SocketAddressParts :=
  let trimmed := trim url in
  if is_empty trimmed then None
  else if is_v6 (parse_ip trimmed) && negb (starts_with trimmed (lit "[")) then
    Some (mk_parts trimmed default_port)
  else
    let candidate := if contains_str trimmed (lit "://") then trimmed else lit "http://" ++ trimmed in
    let parsed := url ← Url_parse candidate; host ← url_host_str url; Some (host, url_port url) in
    match parsed with
    | Some (host, port) =>
        let host := trim_brackets host in
        if is_empty host then None else Some (mk_parts host (default default_port port))
    | None => parse_host_port_fallback trimmed default_port
    end.

Definition resolve_addr (url : str) (default_port : N) : option SocketAddr :=
  parts ← parse_host_port url default_port;
  let host :=
    if eq_ignore_ascii_case (part_host parts) (lit "localhost") then lit "127.0.0.1" else part_host parts in
  Some
    match parse_ip host with
    | Some ip => mk_addr ip (part_port parts)
    | None => mk_addr LOOPBACK (part_port parts)
    end.

Definition clamp_non_loopback (addr : SocketAddr) (allow_non_loopback : bool) : SocketAddr :=
  if is_loopback (addr_ip addr) then addr
  else if allow_non_loopback then addr
  else mk_addr LOOPBACK (addr_port addr).

Definition clamp_bind_addrs (http_addr socks_addr : SocketAddr) (c : NetworkProxyConfig) : SocketAddr * SocketAddr :=
  let http_addr := clamp_non_loopback http_addr (cfg_dangerously_allow_non_loopback_proxy c) in
  let socks_addr := clamp_non_loopback socks_addr (cfg_dangerously_allow_non_loopback_proxy c) in
  if is_empty (allow_unix_sockets c) && negb (default false (cfg_dangerously_allow_all_unix_sockets c))
  then (http_addr, socks_addr)
  else (mk_addr LOOPBACK (addr_port http_addr), mk_addr LOOPBACK (addr_port socks_addr)).

Inductive RuntimeError : Type :=
| InvalidSocketPaths
| InvalidProxyUrl
| InvalidSocksUrl
| ProxyPortNotFixed
| SocksPortNotFixed.

Definition resolve_runtime (c : NetworkProxyConfig) (executor_os : Platform)
    : Result (SocketAddr * SocketAddr) RuntimeError :=
  if negb (validate_unix_socket_allowlist_paths c executor_os) then Err InvalidSocketPaths
  else
    let? http_addr := ok_or (resolve_addr (cfg_proxy_url c) 3128) InvalidProxyUrl in
    let? socks_addr := ok_or (resolve_addr (cfg_socks_url c) 8081) InvalidSocksUrl in
    Ok (clamp_bind_addrs http_addr socks_addr c).

(** [ports] holds one or two ports: [sort_unstable] and [dedup] written out. *)
Definition managed_proxy_ports (native : Platform) (c : NetworkProxyConfig) : Result (list N) RuntimeError :=
  let? runtime := resolve_runtime c native in
  let http_port := addr_port runtime.1 in
  let socks_port := addr_port runtime.2 in
  if (http_port =? 0)%N then Err ProxyPortNotFixed
  else if negb (cfg_enable_socks5 c) then Ok [http_port]
  else if (socks_port =? 0)%N then Err SocksPortNotFixed
  else if (http_port =? socks_port)%N then Ok [http_port]
  else Ok [N.min http_port socks_port; N.max http_port socks_port].

Definition format_host_and_port (host : str) (port : N) : str :=
  if contains_char host COLON then lit "[" ++ host ++ lit "]:" ++ lit (pretty port)
  else host ++ lit ":" ++ lit (pretty port).

Definition host_and_port_from_network_addr (value : str) (default_port : N) : str :=
  let trimmed := trim value in
  if is_empty trimmed then lit "<missing>"
  else
    match parse_host_port trimmed default_port with
    | Some parts => format_host_and_port (part_host parts) (part_port parts)
    | None => format_host_and_port trimmed default_port
    end.
End Listeners.

(** * The policy of an execution environment: [environment_policy.rs] *)
Record EnvironmentNetworkPolicy : Type := mk_environment_policy {
  ep_domains : option NetworkDomainPermissions;
  ep_unix_sockets : option NetworkUnixSocketPermissions;
  ep_allow_upstream_proxy : bool;
  ep_dangerously_allow_all_unix_sockets : bool;
  ep_allow_local_binding : bool;
  ep_managed_allowed_domains_only : bool;
}.

Definition from_config (c : NetworkProxyConfig) (managed_allowed_domains_only : bool) : EnvironmentNetworkPolicy :=
  mk_environment_policy (cfg_domains c) (cfg_unix_sockets c) (cfg_allow_upstream_proxy c)
    (default false (cfg_dangerously_allow_all_unix_sockets c)) (config_allow_local_binding c)
    managed_allowed_domains_only.

Definition denies_some (m : NetworkUnixSocketPermissions) : bool :=
  existsb (λ kv, bool_decide (kv.2 = SocketDeny)) (map_to_list m).

Definition inherit_denials (denials : list str) (c : NetworkProxyConfig) : NetworkProxyConfig :=
  foldl (λ c domain, upsert_domain_permission domain PermDeny normalize_host c) c denials.

Definition merge_sockets (inherited owner : NetworkUnixSocketPermissions) (inherited_permits_all owner_permits_all : bool)
    : NetworkUnixSocketPermissions :=
  let kept :=
    filter (λ kv, kv.2 = SocketDeny ∨ inherited_permits_all = true ∨ inherited !! kv.1 = Some SocketAllow) owner in
  let imposed := filter (λ kv, owner_permits_all = true ∨ kv.2 = SocketDeny) inherited in
  imposed ∪ kept.

Definition apply_to (self : EnvironmentNetworkPolicy) (c : NetworkProxyConfig) : NetworkProxyConfig :=
  let inherited_denials := default [] (denied_domains c) in
  let c := inherit_denials inherited_denials (set_domains (ep_domains self) c) in
  let inherited_allow_all :=
    default (bool_decide (cfg_unix_sockets c = None)) (cfg_dangerously_allow_all_unix_sockets c) in
  let inherited_sockets := default ∅ (cfg_unix_sockets c) in
  let owner_sockets := default ∅ (ep_unix_sockets self) in
  let inherited_permits_all := inherited_allow_all && negb (denies_some inherited_sockets) in
  let owner_permits_all := ep_dangerously_allow_all_unix_sockets self && negb (denies_some owner_sockets) in
  let effective_sockets := merge_sockets inherited_sockets owner_sockets inherited_permits_all owner_permits_all in
  let c := set_unix_sockets (if bool_decide (effective_sockets = ∅) then None else Some effective_sockets) c in
  let c := set_dangerously_allow_all_unix_sockets (Some (inherited_permits_all && owner_permits_all)) c in
  let c := set_allow_upstream_proxy (cfg_allow_upstream_proxy c && ep_allow_upstream_proxy self) c in
  set_allow_local_binding (Some (config_allow_local_binding c && ep_allow_local_binding self)) c.
