(* ===== verification/NetConfigFacts.v ===== *)
(** The configuration: which permission a pattern ends up with, where the proxy listens, and
    what an environment's policy can change. *)
From stdpp Require Import base list sets numbers strings gmap pretty sorting.
From S2P Require Import Prelude RustStr PathConv NetIp NetPolicy NetConfig.

(** * Effective permissions *)
Definition stronger (acc : option NetworkDomainPermission) (p : NetworkDomainPermission) : option NetworkDomainPermission :=
  match acc with
  | None => Some p
  | Some q => Some (if permission_rank q <? permission_rank p then p else q)
  end.

(** The strongest permission given to a pattern. *)
Definition best_permission (p : str) (ds : NetworkDomainPermissions) : option NetworkDomainPermission :=
  foldl (λ acc e, if decide (pattern e = p) then stronger acc (permission e) else acc) None ds.

Lemma best_permission_snoc p ds e :
  best_permission p (ds ++ [e]) =
  if decide (pattern e = p) then stronger (best_permission p ds) (permission e) else best_permission p ds.
Proof. unfold best_permission. by rewrite foldl_app. Qed.

(** The loop of [effective_entries] keeps the strongest permission seen so far. *)
Lemma merge_entries_spec ds order eff :
  foldl merge_entry ([], ∅) ds = (order, eff) →
  (∀ p, eff !! p = best_permission p ds) ∧ NoDup order ∧ (∀ p, p ∈ order ↔ is_Some (eff !! p)).
Proof.
  revert order eff. induction ds as [|e ds IH] using rev_ind; intros order eff.
  - intros [= <- <-]. split_and!; [done|constructor|]. intros p. rewrite lookup_empty. split; [set_solver|by intros [? ?]].
  - rewrite foldl_app. cbn [foldl]. destruct (foldl merge_entry ([], ∅) ds) as [o m] eqn:E.
    destruct (IH _ _ eq_refl) as (Hm & Hnd & Hdom). unfold merge_entry.
    destruct (m !! pattern e) as [q|] eqn:Eq; [destruct (_ <? _) eqn:Er|]; intros [= <- <-].
    + split_and!; [| done |].
      * intros p. rewrite best_permission_snoc, <- Hm. case_decide as Hp; [subst p|]; [by rewrite lookup_insert_eq, Eq; simpl; rewrite Er|].
        by rewrite lookup_insert_ne.
      * intros p. rewrite Hdom. destruct (decide (pattern e = p)) as [<-|?];
          [rewrite lookup_insert_eq, Eq|rewrite lookup_insert_ne by done]; naive_solver.
    + split_and!; [|done|done]. intros p. rewrite best_permission_snoc, <- Hm. case_decide as Hp; [subst p|done]. rewrite Eq. simpl. by rewrite Er.
    + split_and!.
      * intros p. rewrite best_permission_snoc, <- Hm. case_decide as Hp; [subst p|]; [by rewrite lookup_insert_eq, Eq|]. by rewrite lookup_insert_ne.
      * apply NoDup_app. split_and!; [done| |apply NoDup_singleton]. intros p Hp%Hdom Hp'.
        apply list_elem_of_singleton in Hp' as ->. rewrite Eq in Hp. by destruct Hp.
      * intros p. rewrite elem_of_app, Hdom, list_elem_of_singleton.
        destruct (decide (pattern e = p)) as [<-|?];
          [rewrite lookup_insert_eq|rewrite lookup_insert_ne by done]; naive_solver.
Qed.

Lemma take_entries_spec order eff :
  NoDup order → (∀ p, p ∈ order → is_Some (eff !! p)) →
  (∀ e, e ∈ take_entries order eff ↔ pattern e ∈ order ∧ eff !! pattern e = Some (permission e))
  ∧ pattern <$> take_entries order eff = order.
Proof.
  intros Hnd. revert eff. induction Hnd as [|p order Hp Hnd IH]; intros eff Hdom; simpl.
  - split; [set_solver|done].
  - destruct (Hdom p) as [q Eq]; [set_solver|]. rewrite Eq.
    destruct (IH (delete p eff)) as [Hin Hord].
    { intros p' Hp'. rewrite lookup_delete_ne by set_solver. apply Hdom. set_solver. }
    split; [|by rewrite fmap_cons, Hord].
    intros [p' q']. rewrite elem_of_cons, Hin. simpl. rewrite elem_of_cons. split.
    + intros [[= -> ->]|[Hp' E]]; [by auto|]. rewrite lookup_delete_ne in E by set_solver. auto.
    + intros [[->|Hp'] E]; [left; congruence|]. right. split; [done|]. by rewrite lookup_delete_ne by set_solver.
Qed.

(** The effective entries: each pattern once, with its strongest permission. *)
Lemma effective_entries_spec ds :
  (∀ e, e ∈ effective_entries ds ↔ best_permission (pattern e) ds = Some (permission e))
  ∧ NoDup (pattern <$> effective_entries ds).
Proof.
  unfold effective_entries. destruct (foldl merge_entry ([], ∅) ds) as [order eff] eqn:E.
  destruct (merge_entries_spec _ _ _ E) as (Hm & Hnd & Hdom).
  destruct (take_entries_spec order eff) as [Hin Hord]; [done|naive_solver|].
  split; [|by rewrite Hord]. intros e. rewrite Hin, Hdom, <- Hm. naive_solver.
Qed.

Lemma best_permission_deny p ds : best_permission p ds = Some PermDeny ↔ mk_entry p PermDeny ∈ ds.
Proof.
  induction ds as [|e ds IH] using rev_ind; [split; [done|set_solver]|].
  rewrite best_permission_snoc, elem_of_app, list_elem_of_singleton, <- IH. destruct e as [p' q]. simpl.
  case_decide as Hp; [subst p'|].
  - destruct (best_permission p ds) as [[]|], q; simpl; naive_solver.
  - split; [by auto|]. intros [?|[= <- _]]; done.
Qed.

Lemma best_permission_allow p ds :
  best_permission p ds = Some PermAllow ↔ mk_entry p PermAllow ∈ ds ∧ mk_entry p PermDeny ∉ ds.
Proof.
  rewrite <- best_permission_deny.
  induction ds as [|e ds IH] using rev_ind; [split; [done|set_solver]|].
  rewrite best_permission_snoc, elem_of_app, list_elem_of_singleton. destruct e as [p' q]. simpl.
  case_decide as Hp; [subst p'|].
  - destruct (best_permission p ds) as [[]|], q; simpl; naive_solver.
  - rewrite IH. split; [naive_solver|]. intros [[?|[= <- _]] ?]; done.
Qed.

(** The lists of the configuration, from its entries. *)
Lemma elem_of_domain_entries c perm d :
  d ∈ default [] (domain_entries c perm) ↔
  ∃ ds, cfg_domains c = Some ds ∧ best_permission d ds = Some perm.
Proof.
  unfold domain_entries. destruct (cfg_domains c) as [ds|]; [|simpl; set_solver].
  destruct (effective_entries_spec ds) as [Hin _].
  assert (d ∈ pattern <$> filter (λ e, permission e = perm) (effective_entries ds)
          ↔ best_permission d ds = Some perm) as Hd.
  { rewrite list_elem_of_fmap. setoid_rewrite list_elem_of_filter. setoid_rewrite Hin. split.
    - intros ([p q] & -> & <- & H). done.
    - intros H. by exists (mk_entry d perm). }
  destruct (is_empty _) eqn:E.
  - destruct (pattern <$> _) eqn:E'; [|done]. simpl. split; [set_solver|].
    intros (ds' & [= <-] & H). by apply Hd in H.
  - simpl. rewrite Hd. naive_solver.
Qed.

Lemma elem_of_denied_domains c d :
  d ∈ default [] (denied_domains c) ↔ mk_entry d PermDeny ∈ default [] (cfg_domains c).
Proof.
  unfold denied_domains. rewrite elem_of_domain_entries. setoid_rewrite best_permission_deny.
  destruct (cfg_domains c); simpl; [naive_solver|]. set_solver.
Qed.

Lemma elem_of_allowed_domains c d :
  d ∈ default [] (allowed_domains c) ↔
  mk_entry d PermAllow ∈ default [] (cfg_domains c) ∧ mk_entry d PermDeny ∉ default [] (cfg_domains c).
Proof.
  unfold allowed_domains. rewrite elem_of_domain_entries. setoid_rewrite best_permission_allow.
  destruct (cfg_domains c); simpl; [naive_solver|]. set_solver.
Qed.

(** * Updating domain permissions *)
Lemma upsert_entries host perm normalize c e :
  e ∈ default [] (cfg_domains (upsert_domain_permission host perm normalize c)) ↔
  e = mk_entry host perm ∨ (e ∈ default [] (cfg_domains c) ∧ normalize (pattern e) ≠ normalize host).
Proof.
  unfold upsert_domain_permission, some_if_nonempty.
  replace (is_empty _) with false by (by destruct (filter _ _)).
  simpl. rewrite elem_of_app, list_elem_of_singleton, list_elem_of_filter. tauto.
Qed.

Lemma inherit_denials_keep denials c d :
  d ∈ denials →
  ∃ d', normalize_host d' = normalize_host d ∧ mk_entry d' PermDeny ∈ default [] (cfg_domains (inherit_denials denials c)).
Proof.
  induction denials as [|x denials IH] using rev_ind; [by intros ?%not_elem_of_nil|].
  unfold inherit_denials. rewrite foldl_app. cbn [foldl]. fold (inherit_denials denials c).
  rewrite elem_of_app, list_elem_of_singleton. setoid_rewrite upsert_entries. simpl.
  destruct (decide (normalize_host d = normalize_host x)) as [E|E]; [by exists x; auto|].
  intros [Hd| ->]; [|done]. destruct (IH Hd) as (d' & E' & Hd'). exists d'. split; [done|]. right. split; [done|].
  simpl. congruence.
Qed.

Lemma inherit_denials_entries denials c d :
  mk_entry d PermAllow ∈ default [] (cfg_domains (inherit_denials denials c)) →
  mk_entry d PermAllow ∈ default [] (cfg_domains c).
Proof.
  induction denials as [|x denials IH] using rev_ind; [done|].
  unfold inherit_denials. rewrite foldl_app. cbn [foldl]. fold (inherit_denials denials c).
  rewrite upsert_entries. intros [?|[? _]]; [done|auto].
Qed.

(** The other settings are not touched. *)
Lemma inherit_denials_other {A} (f : NetworkProxyConfig → A) denials c :
  (∀ ds c, f (set_domains ds c) = f c) → f (inherit_denials denials c) = f c.
Proof.
  intros Hf. induction denials as [|x denials IH] using rev_ind; [done|].
  unfold inherit_denials. rewrite foldl_app. cbn [foldl]. fold (inherit_denials denials c).
  unfold upsert_domain_permission. by rewrite Hf.
Qed.

(** * An environment's policy *)
Lemma denies_some_false m path : denies_some m = false → m !! path ≠ Some SocketDeny.
Proof.
  unfold denies_some. intros H E. apply not_true_iff_false in H. apply H, existsb_exists.
  exists (path, SocketDeny). split; [|done]. by apply list_elem_of_In, elem_of_map_to_list.
Qed.

Lemma merge_sockets_lookup inh own ia oa path :
  merge_sockets inh own ia oa !! path =
  match inh !! path with
  | Some SocketDeny => Some SocketDeny
  | Some SocketAllow => if oa then Some SocketAllow else own !! path
  | None => match own !! path with Some SocketAllow => if ia then Some SocketAllow else None | o => o end
  end.
Proof.
  unfold merge_sockets. rewrite lookup_union, !map_lookup_filter.
  destruct (inh !! path) as [[]|] eqn:Ei, (own !! path) as [[]|] eqn:Eo, ia, oa; simpl;
    repeat case_guard; simplify_eq/=; naive_solver.
Qed.

(** What each side grants: every socket, when it allows all and denies none, or a socket it
    lists. *)
Definition permits_all (allow_all : bool) (m : NetworkUnixSocketPermissions) : bool := allow_all && negb (denies_some m).
Definition grants (allow_all : bool) (m : NetworkUnixSocketPermissions) (path : str) : Prop :=
  m !! path = Some SocketAllow ∨ permits_all allow_all m = true.

Lemma merge_sockets_allow inh own ia oa path :
  merge_sockets inh own (permits_all ia inh) (permits_all oa own) !! path = Some SocketAllow →
  grants ia inh path ∧ grants oa own path.
Proof.
  rewrite merge_sockets_lookup. unfold grants.
  destruct (inh !! path) as [[]|], (own !! path) as [[]|], (permits_all ia inh), (permits_all oa own);
    naive_solver.
Qed.

Lemma merge_sockets_deny inh own ia oa path :
  inh !! path = Some SocketDeny ∨ own !! path = Some SocketDeny →
  merge_sockets inh own (permits_all ia inh) (permits_all oa own) !! path = Some SocketDeny.
Proof.
  rewrite merge_sockets_lookup. intros [->| Ho]; [done|]. rewrite Ho.
  destruct (inh !! path) as [[]|]; [|done..].
  destruct (permits_all oa own) eqn:E; [|done]. exfalso. unfold permits_all in E.
  apply andb_true_iff in E as [_ E]. apply negb_true_iff in E. by apply (denies_some_false _ path) in E.
Qed.

(** The settings of a configuration that an environment's policy is combined with. *)
Definition inherited_allow_all (c : NetworkProxyConfig) : bool :=
  default (bool_decide (cfg_unix_sockets c = None)) (cfg_dangerously_allow_all_unix_sockets c).
Definition sockets (c : NetworkProxyConfig) : NetworkUnixSocketPermissions := default ∅ (cfg_unix_sockets c).
Definition owner_sockets (p : EnvironmentNetworkPolicy) : NetworkUnixSocketPermissions := default ∅ (ep_unix_sockets p).

Record MeetsBoth (p : EnvironmentNetworkPolicy) (c c' : NetworkProxyConfig) : Prop := {
  mb_denials d :
    d ∈ default [] (denied_domains c) → ∃ d', normalize_host d' = normalize_host d ∧ d' ∈ default [] (denied_domains c');
  mb_allowed d : d ∈ default [] (allowed_domains c') → mk_entry d PermAllow ∈ default [] (ep_domains p);
  mb_socket path :
    sockets c' !! path = Some SocketAllow →
    grants (inherited_allow_all c) (sockets c) path
    ∧ grants (ep_dangerously_allow_all_unix_sockets p) (owner_sockets p) path;
  mb_socket_denied path :
    sockets c !! path = Some SocketDeny ∨ owner_sockets p !! path = Some SocketDeny →
    sockets c' !! path = Some SocketDeny;
  mb_allow_all :
    cfg_dangerously_allow_all_unix_sockets c' = Some true →
    permits_all (inherited_allow_all c) (sockets c) = true
    ∧ permits_all (ep_dangerously_allow_all_unix_sockets p) (owner_sockets p) = true;
  mb_upstream : cfg_allow_upstream_proxy c' = cfg_allow_upstream_proxy c && ep_allow_upstream_proxy p;
  mb_local : config_allow_local_binding c' = config_allow_local_binding c && ep_allow_local_binding p;
  mb_setup :
    cfg_enabled c' = cfg_enabled c ∧ cfg_mode c' = cfg_mode c ∧ cfg_mitm c' = cfg_mitm c
    ∧ cfg_mitm_hooks c' = cfg_mitm_hooks c ∧ cfg_credential_broker c' = cfg_credential_broker c;
}.

Lemma option_if_empty (m : NetworkUnixSocketPermissions) :
  default ∅ (if bool_decide (m = ∅) then None else Some m) = m.
Proof. by case_bool_decide as E. Qed.

(** applying an environment's policy to the controller's configuration only narrows it:
    every domain the controller denies stays denied, the allowed domains are the owner's, a
    socket is reachable only when both sides grant it and is denied when either denies it,
    "all sockets", the upstream proxy and local binding need both, and the proxy's own setup is
    untouched. *)
Theorem apply_to_meets_both p c : MeetsBoth p c (apply_to p c).
Proof.
  assert (∀ A (f : NetworkProxyConfig → A), (∀ ds c, f (set_domains ds c) = f c) →
    f (inherit_denials (default [] (denied_domains c)) (set_domains (ep_domains p) c)) = f c) as Hother.
  { intros A f Hf. by rewrite inherit_denials_other, Hf. }
  constructor; unfold apply_to, sockets, inherited_allow_all, owner_sockets, config_allow_local_binding.
  - intros d Hd. destruct (inherit_denials_keep _ (set_domains (ep_domains p) c) d Hd) as (d' & E & Hd').
    exists d'. split; [done|]. by apply elem_of_denied_domains.
  - intros d Hd. apply elem_of_allowed_domains in Hd as [Hd _]. simpl in Hd.
    by apply inherit_denials_entries in Hd.
  - intros path. simpl. rewrite option_if_empty, !Hother by done. apply merge_sockets_allow.
  - intros path H. simpl. rewrite option_if_empty, !Hother by done. by apply merge_sockets_deny.
  - simpl. rewrite !Hother by done. intros [= H]. by apply andb_true_iff in H.
  - simpl. by rewrite !Hother by done.
  - simpl. by rewrite !Hother by done.
  - simpl. by rewrite !Hother by done.
Qed.

(** * Listeners *)
Lemma clamp_non_loopback_spec addr allow :
  addr_port (clamp_non_loopback addr allow) = addr_port addr
  ∧ (is_loopback (addr_ip (clamp_non_loopback addr allow)) = false → allow = true ∧ clamp_non_loopback addr allow = addr).
Proof.
  unfold clamp_non_loopback. destruct (is_loopback (addr_ip addr)) eqn:E; [by rewrite E|].
  by destruct allow.
Qed.

(** Whether the proxy forwards to any unix socket. *)
Definition forwards_sockets (c : NetworkProxyConfig) : Prop :=
  allow_unix_sockets c ≠ [] ∨ cfg_dangerously_allow_all_unix_sockets c = Some true.

Lemma clamp_bind_addrs_spec h s c :
  let '(h', s') := clamp_bind_addrs h s c in
  (addr_port h' = addr_port h ∧ addr_port s' = addr_port s)
  ∧ (∀ a, a = h' ∨ a = s' → is_loopback (addr_ip a) = false →
       cfg_dangerously_allow_non_loopback_proxy c = true ∧ ¬ forwards_sockets c ∧ (a = h ∨ a = s)).
Proof.
  unfold clamp_bind_addrs, forwards_sockets.
  destruct (clamp_non_loopback_spec h (cfg_dangerously_allow_non_loopback_proxy c)) as [Hh Hh'].
  destruct (clamp_non_loopback_spec s (cfg_dangerously_allow_non_loopback_proxy c)) as [Hs Hs'].
  destruct (is_empty (allow_unix_sockets c) && _) eqn:E; simpl; (split; [done|]).
  - apply andb_true_iff in E as [E1 E2].
    assert (¬ (allow_unix_sockets c ≠ [] ∨ cfg_dangerously_allow_all_unix_sockets c = Some true)).
    { intros [H|H]; [by destruct (allow_unix_sockets c)|by rewrite H in E2]. }
    intros a [->| ->] Ha; [destruct (Hh' Ha) as [? ->]|destruct (Hs' Ha) as [? ->]]; auto.
  - by intros a [->| ->].
Qed.

(** the addresses the proxy listens on keep the configured ports, and one that is not a
    loopback address is the configured one, was explicitly allowed, and means that the proxy
    forwards to no unix socket. *)
Theorem listeners_stay_local `{UrlLib} c os http socks :
  resolve_runtime c os = Ok (http, socks) →
  ∃ h s, resolve_addr (cfg_proxy_url c) 3128 = Some h ∧ resolve_addr (cfg_socks_url c) 8081 = Some s
  ∧ addr_port http = addr_port h ∧ addr_port socks = addr_port s
  ∧ ∀ a, a = http ∨ a = socks → is_loopback (addr_ip a) = false →
      cfg_dangerously_allow_non_loopback_proxy c = true ∧ ¬ forwards_sockets c ∧ (a = h ∨ a = s).
Proof.
  unfold resolve_runtime. destruct (validate_unix_socket_allowlist_paths c os); [|done]. simpl.
  destruct (resolve_addr (cfg_proxy_url c) 3128) as [h|]; [|done]. simpl.
  destruct (resolve_addr (cfg_socks_url c) 8081) as [s|]; [|done]. simpl. intros [= E].
  pose proof (clamp_bind_addrs_spec h s c) as Hc. rewrite E in Hc. destruct Hc as [[? ?] Ha].
  exists h, s. split_and!; done.
Qed.

(** No URL is parsed: addresses are read by the fallback. *)
Definition no_urls : UrlLib := {| Url_parse := λ _, None |}.

Definition exposed_config : NetworkProxyConfig :=
  mk_config true (lit "0.0.0.0:3128") true default_socks_url true true true None Full None None None
    false false false ∅ None ∅ false [].

Lemma listeners_stay_local_witness :
  ∃ http socks, @resolve_runtime no_urls exposed_config PlatformLinux = Ok (http, socks)
    ∧ (is_loopback (addr_ip http) = false → ¬ forwards_sockets exposed_config).
Proof.
  eexists _, _. split; [vm_compute; reflexivity|].
  destruct (@listeners_stay_local no_urls exposed_config PlatformLinux (mk_addr (V4 0) 3128) (mk_addr LOOPBACK 8081))
    as (h & s & _ & _ & _ & _ & Ha); [vm_compute; reflexivity|].
  intros Hl. apply (Ha (mk_addr (V4 0) 3128)); [by left|done].
Defined.
