(* ===== verification/MitmHook.v ===== *)
(** Hooks on intercepted requests: [network-proxy/src/mitm_hook.rs], with the paths that can be
    authorized ([authorization_path.rs]). *)
From stdpp Require Import base list numbers strings gmap.
From S2P Require Import Prelude RustStr PathConv NetIp NetPolicy NetConfig.

(** * Paths that can be authorized *)
Definition BACKSLASH : char := 92%N.
Definition SLASH : char := 47%N.

Definition decode_hex_digit (byte : char) : option N :=
  if ((48 <=? byte) && (byte <=? 57))%N then Some (byte - 48)%N
  else if ((97 <=? byte) && (byte <=? 102))%N then Some (byte - 97 + 10)%N
  else if ((65 <=? byte) && (byte <=? 70))%N then Some (byte - 65 + 10)%N
  else None.

(** The loop over the bytes of a segment, with its two accumulators. A path is ASCII outside
    of escapes, or its other bytes are neither dot, backslash nor percent: characters stand
    for bytes. *)
Fixpoint scan_segment (bytes : str) (decoded_dots : nat) (has_non_dot : bool) : bool :=
  match bytes with
  | [] => has_non_dot || negb ((decoded_dots =? 1) || (decoded_dots =? 2))
  | b :: rest =>
      if (b =? DOT)%N then scan_segment rest (S decoded_dots) has_non_dot
      else if (b =? BACKSLASH)%N then false
      else if (b =? PERCENT)%N then
        match rest with
        | h :: l :: rest' =>
            match decode_hex_digit h, decode_hex_digit l with
            | Some high, Some low =>
                let decoded := N.lor (N.shiftl high 4) low in
                if ((decoded =? PERCENT) || (decoded =? SLASH) || (decoded =? BACKSLASH))%N then false
                else if (decoded =? DOT)%N then scan_segment rest' (S decoded_dots) has_non_dot
                else scan_segment rest' decoded_dots true
            | _, _ => false
            end
        | _ => false
        end
      else scan_segment rest decoded_dots true
  end.

Definition is_safe_segment_for_authorization (segment : str) : bool := scan_segment segment 0 false.

Definition is_safe_for_authorization (path : str) : bool :=
  forallb is_safe_segment_for_authorization (split_char SLASH path).

(** * Data *)
Inductive SecretSource : Type :=
| EnvVar (name : str)
| File (path : str).

(** A glob with the options it was compiled with. *)
Record CompiledGlobMatcher : Type := mk_glob_matcher {
  gm_pattern : str;
  gm_options : GlobOptions;
}.

Inductive PathMatcher : Type :=
| PathPrefix (prefix : str)
| PathGlob (glob : CompiledGlobMatcher).

Inductive ValueMatcher : Type :=
| ValueExact (value : str)
| ValueGlob (glob : CompiledGlobMatcher).

Inductive MatcherPattern : Type :=
| Literal (literal : str)
| Glob (glob : str).

Record Constraint : Type := mk_constraint {
  constraint_name : str;
  allowed_values : list ValueMatcher;
}.

(** [body] is always absent: a configured body is refused. *)
Record MitmHookMatcher : Type := mk_hook_matcher {
  methods : list str;
  path_prefixes : list PathMatcher;
  query : list Constraint;
  headers : list Constraint;
}.

Record ResolvedInjectedHeader : Type := mk_injected_header {
  injected_name : str;
  injected_value : str;
  injected_source : SecretSource;
}.

Record MitmHookActions : Type := mk_hook_actions {
  strip_request_headers : list str;
  inject_request_headers : list ResolvedInjectedHeader;
}.

Record MitmHook : Type := mk_hook {
  hook_host : str;
  matcher : MitmHookMatcher;
  actions : MitmHookActions;
}.

Abbreviation MitmHooksByHost := (gmap str (list MitmHook)).

Inductive HookEvaluation : Type :=
| NoHooksForHost
| Matched (a : MitmHookActions)
| HookedHostNoMatch.

(** What a hook reads of a request. A header value is [None] when it is not visible ASCII
    ([HeaderValue::to_str]). *)
Record Request : Type := mk_request {
  req_method : str;
  req_path : str;
  req_query : option str;
  req_headers : list (str * option str);
}.

Inductive HookError : Type :=
| HooksRequireMitm
| HostEmpty
| HostHasWildcard
| EmptyMethod
| NoMethods
| EmptyPathPrefix
| NoPathPrefixes
| BodyReserved
| EmptyGlob
| InvalidGlob (pattern : str)
| EmptyQueryKey
| NoQueryValues (name : str)
| InvalidHeaderName (name : str)
| EmptySecretEnvVar
| EmptySecretFile
| RelativeSecretFile (path : str)
| NotExactlyOneSecret
| MissingEnvVar (name : str)
| UnreadableSecretFile (path : str)
| InvalidHeaderValue (name : str).

(** The HTTP and URL crates and the platform: header names and values, the pairs of a query
    string, absolute paths, the process environment and files. *)
Class HookLibs : Type := {
  HeaderName_from_bytes : str → option str;
  HeaderValue_from_str : str → option str;
  form_urlencoded_parse : str → list (str * str);
  Path_is_absolute : str → bool;
  AbsolutePathBuf_from_absolute_path : str → option str;
  env_var : str → option str;
  read_to_string : str → option str;
}.

Definition to_ascii_uppercase (s : str) : str :=
  (λ c, if ((97 <=? c) && (c <=? 122))%N then (c - 32)%N else c) <$> s.

Section Hooks.
Context `{NL : NetLibs, HL : HookLibs}.

(** * Compilation *)
Definition glob_options (literal_sep : bool) : GlobOptions := mk_glob_options false (Some true) literal_sep.

Definition compile_glob_matcher (p : str) (literal_sep : bool) : Result CompiledGlobMatcher HookError :=
  if glob_valid (glob_options literal_sep) p then Ok (mk_glob_matcher p (glob_options literal_sep))
  else Err (InvalidGlob p).

Definition parse_matcher_pattern (p : str) : Result MatcherPattern HookError :=
  match strip_prefix p (lit "literal:") with
  | Some literal => Ok (Literal literal)
  | None =>
      match strip_prefix p (lit "pattern:") with
      | None => Ok (Literal p)
      | Some glob => if is_empty glob then Err EmptyGlob else Ok (Glob glob)
      end
  end.

Definition compile_path_matcher (prefix : str) : Result PathMatcher HookError :=
  let? p := parse_matcher_pattern prefix in
  match p with
  | Literal prefix => if is_empty prefix then Err EmptyPathPrefix else Ok (PathPrefix prefix)
  | Glob g => let? g := compile_glob_matcher g true in Ok (PathGlob g)
  end.
Definition compile_path_matchers (l : list str) : Result (list PathMatcher) HookError :=
  collect_results compile_path_matcher l.

Definition compile_value_matcher (value : str) : Result ValueMatcher HookError :=
  let? p := parse_matcher_pattern value in
  match p with
  | Literal value => Ok (ValueExact value)
  | Glob g => let? g := compile_glob_matcher g false in Ok (ValueGlob g)
  end.
Definition compile_value_matchers (l : list str) : Result (list ValueMatcher) HookError :=
  collect_results compile_value_matcher l.

Definition normalize_hook_host (host : str) : Result str HookError :=
  let normalized := normalize_host host in
  if is_empty normalized then Err HostEmpty
  else if contains_char normalized STAR then Err HostHasWildcard
  else Ok normalized.

Definition normalize_method (m : str) : Result str HookError :=
  let normalized := to_ascii_uppercase (trim m) in
  if is_empty normalized then Err EmptyMethod else Ok normalized.
Definition normalize_methods (l : list str) : Result (list str) HookError :=
  collect_results normalize_method l.

Definition normalize_query_name (name : str) : Result str HookError :=
  if is_empty name then Err EmptyQueryKey else Ok name.

Definition parse_header_name (name : str) : Result str HookError :=
  ok_or (HeaderName_from_bytes name) (InvalidHeaderName name).

Definition parse_secret_file (path : str) : Result str HookError :=
  if is_empty (trim path) then Err EmptySecretFile
  else if negb (Path_is_absolute path) then Err (RelativeSecretFile path)
  else ok_or (AbsolutePathBuf_from_absolute_path path) (RelativeSecretFile path).

(** A validation loop: the first error. *)
Fixpoint validate_each {A} (f : A → Result unit HookError) (l : list A) : Result unit HookError :=
  match l with
  | [] => Ok tt
  | x :: l => let? _ := f x in validate_each f l
  end.

Definition validate_query_constraint (kv : str * list str) : Result unit HookError :=
  let? normalized := normalize_query_name kv.1 in
  if is_empty normalized then Err EmptyQueryKey
  else if is_empty kv.2 then Err (NoQueryValues kv.1)
  else let? _ := compile_value_matchers kv.2 in Ok tt.
Definition validate_query_constraints := validate_each validate_query_constraint.

Definition validate_header_constraint (kv : str * list str) : Result unit HookError :=
  let? _ := parse_header_name kv.1 in
  let? _ := compile_value_matchers kv.2 in
  Ok tt.
Definition validate_header_constraints := validate_each validate_header_constraint.

Definition validate_strip_request_headers (names : list str) : Result unit HookError :=
  validate_each (λ name, let? _ := parse_header_name name in Ok tt) names.

Definition validate_injected_header (h : InjectedHeaderConfig) : Result unit HookError :=
  let? _ := parse_header_name (ih_name h) in
  match ih_secret_env_var h, ih_secret_file h with
  | Some secret_env_var, None => if is_empty (trim secret_env_var) then Err EmptySecretEnvVar else Ok tt
  | None, Some secret_file => let? _ := parse_secret_file secret_file in Ok tt
  | _, _ => Err NotExactlyOneSecret
  end.
Definition validate_injected_headers := validate_each validate_injected_header.

Definition validate_hook (hook : MitmHookConfig) : Result unit HookError :=
  let? host := normalize_hook_host (hc_host hook) in
  let? ms := normalize_methods (hm_methods (hc_matcher hook)) in
  if is_empty ms then Err NoMethods
  else
    let? prefixes := compile_path_matchers (hm_path_prefixes (hc_matcher hook)) in
    if is_empty prefixes then Err NoPathPrefixes
    else if bool_decide (is_Some (hm_body (hc_matcher hook))) then Err BodyReserved
    else
      let? _ := validate_query_constraints (hm_query (hc_matcher hook)) in
      let? _ := validate_header_constraints (hm_headers (hc_matcher hook)) in
      let? _ := validate_strip_request_headers (ha_strip_request_headers (hc_actions hook)) in
      let? _ := validate_injected_headers (ha_inject_request_headers (hc_actions hook)) in
      if is_empty host then Err HostEmpty else Ok tt.

Definition validate_mitm_hook_config (c : NetworkProxyConfig) : Result unit HookError :=
  if is_empty (cfg_mitm_hooks c) then Ok tt
  else if negb (cfg_mitm c) then Err HooksRequireMitm
  else validate_each validate_hook (cfg_mitm_hooks c).

Definition compile_injected_header (resolve_env_var : str → option str) (read_secret_file : str → Result str HookError)
    (h : InjectedHeaderConfig) : Result ResolvedInjectedHeader HookError :=
  let? name := parse_header_name (ih_name h) in
  let? secret_source :=
    match ih_secret_env_var h, ih_secret_file h with
    | Some env, None => let? value := ok_or (resolve_env_var env) (MissingEnvVar env) in Ok (value, EnvVar env)
    | None, Some file =>
        let? path := parse_secret_file file in
        let? value := read_secret_file path in
        Ok (value, File path)
    | _, _ => Err NotExactlyOneSecret
    end in
  let? value :=
    ok_or (HeaderValue_from_str (default [] (ih_prefix h) ++ secret_source.1)) (InvalidHeaderValue (ih_name h)) in
  Ok (mk_injected_header name value secret_source.2).

Definition compile_query_constraint (kv : str * list str) : Result Constraint HookError :=
  let? name := normalize_query_name kv.1 in
  let? values := compile_value_matchers kv.2 in
  Ok (mk_constraint name values).

Definition compile_header_constraint (kv : str * list str) : Result Constraint HookError :=
  let? name := parse_header_name kv.1 in
  let? values := compile_value_matchers kv.2 in
  Ok (mk_constraint name values).

Definition compile_hook (resolve_env_var : str → option str) (read_secret_file : str → Result str HookError)
    (hook : MitmHookConfig) : Result MitmHook HookError :=
  let? host := normalize_hook_host (hc_host hook) in
  let? ms := normalize_methods (hm_methods (hc_matcher hook)) in
  let? prefixes := compile_path_matchers (hm_path_prefixes (hc_matcher hook)) in
  let? q := collect_results compile_query_constraint (hm_query (hc_matcher hook)) in
  let? hs := collect_results compile_header_constraint (hm_headers (hc_matcher hook)) in
  let? strip := collect_results parse_header_name (ha_strip_request_headers (hc_actions hook)) in
  let? inject :=
    collect_results (compile_injected_header resolve_env_var read_secret_file) (ha_inject_request_headers (hc_actions hook)) in
  Ok (mk_hook host (mk_hook_matcher ms prefixes q hs) (mk_hook_actions strip inject)).

(** [hooks_by_host.entry(host).or_default().push(hook)]. *)
Definition push_hook (hook : MitmHook) (m : MitmHooksByHost) : MitmHooksByHost :=
  <[hook_host hook := default [] (m !! hook_host hook) ++ [hook]]> m.

Fixpoint compile_hooks (resolve_env_var : str → option str) (read_secret_file : str → Result str HookError)
    (hooks : list MitmHookConfig) (m : MitmHooksByHost) : Result MitmHooksByHost HookError :=
  match hooks with
  | [] => Ok m
  | hook :: rest =>
      let? hook := compile_hook resolve_env_var read_secret_file hook in
      compile_hooks resolve_env_var read_secret_file rest (push_hook hook m)
  end.

Definition compile_mitm_hooks_with_resolvers (c : NetworkProxyConfig) (resolve_env_var : str → option str)
    (read_secret_file : str → Result str HookError) : Result MitmHooksByHost HookError :=
  let? _ := validate_mitm_hook_config c in
  compile_hooks resolve_env_var read_secret_file (cfg_mitm_hooks c) ∅.

Definition compile_mitm_hooks (c : NetworkProxyConfig) : Result MitmHooksByHost HookError :=
  compile_mitm_hooks_with_resolvers c env_var
    (λ path, let? value := ok_or (read_to_string path) (UnreadableSecretFile path) in Ok (trim value)).

(** * Matching *)
Definition glob_is_match (g : CompiledGlobMatcher) (candidate : str) : bool :=
  glob_match (gm_options g) (gm_pattern g) candidate.

Definition path_matcher_matches (m : PathMatcher) (candidate : str) : bool :=
  match m with
  | PathPrefix prefix => starts_with candidate prefix
  | PathGlob g => glob_is_match g candidate
  end.

Definition value_matches (m : ValueMatcher) (candidate : str) : bool :=
  match m with
  | ValueExact value => bool_decide (value = candidate)
  | ValueGlob g => glob_is_match g candidate
  end.

Definition path_matches (l : list PathMatcher) (path : str) : bool :=
  existsb (λ m, path_matcher_matches m path) l.

Definition any_value_matches (allowed : list ValueMatcher) (candidate : str) : bool :=
  existsb (λ m, value_matches m candidate) allowed.

(** The values of a query key, in order. *)
Definition query_values (pairs : list (str * str)) (name : str) : list str :=
  (filter (λ p, p.1 = name) pairs).*2.

Definition query_matches (constraints : list Constraint) (req : Request) : bool :=
  if is_empty constraints then true
  else
    let pairs := form_urlencoded_parse (default [] (req_query req)) in
    forallb (λ k, existsb (any_value_matches (allowed_values k)) (query_values pairs (constraint_name k))) constraints.

Definition get_all (req : Request) (name : str) : list (option str) :=
  (filter (λ p, p.1 = name) (req_headers req)).*2.

Definition header_matches (req : Request) (k : Constraint) : bool :=
  let actual := get_all req (constraint_name k) in
  if is_empty actual then false
  else if is_empty (allowed_values k) then true
  else
    existsb (λ v, match v with Some candidate => any_value_matches (allowed_values k) candidate | None => false end)
      actual.

Definition headers_match (constraints : list Constraint) (req : Request) : bool :=
  forallb (header_matches req) constraints.

Definition hook_matches (hook : MitmHook) (req : Request) : bool :=
  let m := matcher hook in
  let method := to_ascii_uppercase (req_method req) in
  if negb (existsb (λ allowed, bool_decide (allowed = method)) (methods m)) then false
  else
    let path := req_path req in
    if negb (is_safe_for_authorization path) || negb (path_matches (path_prefixes m) path) then false
    else if negb (query_matches (query m) req) then false
    else headers_match (headers m) req.

Fixpoint first_match (hooks : list MitmHook) (req : Request) : HookEvaluation :=
  match hooks with
  | [] => HookedHostNoMatch
  | hook :: rest => if hook_matches hook req then Matched (actions hook) else first_match rest req
  end.

Definition evaluate_mitm_hooks (hooks_by_host : MitmHooksByHost) (host : str) (req : Request) : HookEvaluation :=
  match hooks_by_host !! normalize_host host with
  | None => NoHooksForHost
  | Some hooks => first_match hooks req
  end.

End Hooks.
