(* ===== verification/MitmHookFacts.v ===== *)
(** Hooks: a path that is authorized reads the same for every upstream, and the hook that
    applies to a request is the first configured one that matches it. *)
From stdpp Require Import base list sets numbers strings gmap.
From S2P Require Import Prelude RustStr PathConv NetIp NetPolicy NetConfig MitmHook.

(** * Paths

    Percent-decoding, as an upstream does it: [None] for a malformed escape. *)
Fixpoint pct_decode (s : str) : option str :=
  match s with
  | [] => Some []
  | c :: rest =>
      if (c =? PERCENT)%N then
        match rest with
        | h :: l :: rest' =>
            match decode_hex_digit h, decode_hex_digit l with
            | Some high, Some low => cons (N.lor (N.shiftl high 4) low) <$> pct_decode rest'
            | _, _ => None
            end
        | _ => None
        end
      else cons c <$> pct_decode rest
  end.

(** A segment that decodes, to text that is one segment, needs no further decoding and is not a
    relative reference. *)
Definition unambiguous (segment : str) : Prop :=
  ∃ dec, pct_decode segment = Some dec ∧ (SLASH ∉ dec) ∧ (BACKSLASH ∉ dec) ∧ (PERCENT ∉ dec)
    ∧ dec ≠ [DOT] ∧ dec ≠ [DOT; DOT].

(** The rest of a segment after [dots] decoded dots, [other] telling whether something else
    was decoded. *)
Definition good_rest (dots : nat) (other : bool) (dec : str) : Prop :=
  (SLASH ∉ dec) ∧ (BACKSLASH ∉ dec) ∧ (PERCENT ∉ dec)
  ∧ (other = true ∨ (replicate dots DOT ++ dec ≠ [DOT] ∧ replicate dots DOT ++ dec ≠ [DOT; DOT])).

Lemma good_rest_dot dots other dec : good_rest dots other (DOT :: dec) ↔ good_rest (S dots) other dec.
Proof.
  unfold good_rest. rewrite replicate_S_end, <- app_assoc. simpl. unfold SLASH, BACKSLASH, PERCENT, DOT in *.
  rewrite !not_elem_of_cons. naive_solver.
Qed.

Lemma good_rest_other dots other c dec :
  c ≠ DOT → good_rest dots other (c :: dec) ↔ (c ≠ SLASH ∧ c ≠ BACKSLASH ∧ c ≠ PERCENT) ∧ good_rest dots true dec.
Proof.
  intros Hc. unfold good_rest. rewrite !not_elem_of_cons.
  assert (replicate dots DOT ++ c :: dec ≠ [DOT] ∧ replicate dots DOT ++ c :: dec ≠ [DOT; DOT]).
  { destruct dots as [|[|[|dots]]]; simpl; split; intros E; simplify_eq/=. }
  naive_solver.
Qed.

Lemma good_rest_nil dots other :
  good_rest dots other [] ↔ other || negb ((dots =? 1) || (dots =? 2)) = true.
Proof.
  unfold good_rest. rewrite app_nil_r.
  assert (replicate dots DOT ≠ [DOT] ∧ replicate dots DOT ≠ [DOT; DOT] ↔ dots ≠ 1 ∧ dots ≠ 2) as ->.
  { destruct dots as [|[|[|dots]]]; simpl; split; intros [? ?]; split; congruence || lia. }
  destruct other; simpl; [set_solver|]. destruct dots as [|[|[|dots]]]; simpl; set_solver by lia.
Qed.

Lemma scan_segment_spec s dots other :
  SLASH ∉ s → scan_segment s dots other = true ↔ ∃ dec, pct_decode s = Some dec ∧ good_rest dots other dec.
Proof.
  remember (length s) as n eqn:Hn. revert s Hn dots other.
  induction (lt_wf n) as [n _ IH]. intros [|c s] Hn dots other Hs; simpl.
  - rewrite <- good_rest_nil. naive_solver.
  - assert (SLASH ∉ s) as Hs' by set_solver. assert (length s < n) as Hlt by (simpl in Hn; lia).
    assert (∀ s d o, length s < n → SLASH ∉ s →
      scan_segment s d o = true ↔ ∃ dec, pct_decode s = Some dec ∧ good_rest d o dec) as IH'.
    { intros s' d o Hl Hin. by apply (IH (length s')). }
    destruct (N.eqb_spec c DOT) as [->|Hdot]; [|destruct (N.eqb_spec c BACKSLASH) as [->|Hbs]];
      [..|destruct (N.eqb_spec c PERCENT) as [->|Hpc]].
    + rewrite IH' by done. simpl. setoid_rewrite fmap_Some. setoid_rewrite <- good_rest_dot. naive_solver.
    + split; [done|]. simpl. intros (dec & (dec' & _ & ->)%fmap_Some & (_ & H & _)). set_solver.
    + destruct s as [|h [|l s]]; [naive_solver..|].
      destruct (decode_hex_digit h) as [hi|], (decode_hex_digit l) as [lo|]; [|naive_solver..].
      set (d := N.lor _ _). setoid_rewrite fmap_Some.
      destruct ((d =? PERCENT) || (d =? SLASH) || (d =? BACKSLASH))%N eqn:E.
      { split; [done|]. intros (? & (dec & _ & ->) & (H1 & H2 & H3 & _)).
        rewrite !orb_true_iff, !N.eqb_eq in E. set_solver. }
      rewrite !orb_false_iff, !N.eqb_neq in E.
      assert (length s < n) by (simpl in Hlt; lia). assert (SLASH ∉ s) by set_solver.
      destruct (N.eqb_spec d DOT) as [->|Hd]; rewrite IH' by done.
      * setoid_rewrite <- good_rest_dot. naive_solver.
      * split; [intros (dec & ? & ?)|intros (? & (dec & ? & ->) & Hg)]; [exists (d :: dec)|exists dec].
        -- split; [eauto|]. apply good_rest_other; naive_solver.
        -- apply good_rest_other in Hg; naive_solver.
    + rewrite IH' by done. setoid_rewrite fmap_Some.
      assert (c ≠ SLASH) by set_solver.
      split; [intros (dec & ? & ?)|intros (? & (dec & ? & ->) & Hg)]; [exists (c :: dec)|exists dec].
      * split; [eauto|]. apply good_rest_other; naive_solver.
      * apply good_rest_other in Hg; naive_solver.
Qed.

Lemma safe_segment_spec s : SLASH ∉ s → is_safe_segment_for_authorization s = true ↔ unambiguous s.
Proof.
  intros Hs. unfold is_safe_segment_for_authorization, unambiguous. rewrite scan_segment_spec by done.
  unfold good_rest. simpl. naive_solver.
Qed.

(** C37: a path is accepted for authorization exactly when each of its segments decodes to
    text without a slash, backslash or percent sign that is neither [.] nor [..]: decoding it,
    once or again, and resolving relative segments cannot turn it into another path. *)
Theorem safe_path_exact path :
  is_safe_for_authorization path = true ↔ Forall unambiguous (split_char SLASH path).
Proof.
  unfold is_safe_for_authorization. rewrite forallb_forall, Forall_forall. setoid_rewrite <- list_elem_of_In.
  pose proof (split_char_Forall SLASH path) as Hf. rewrite Forall_forall in Hf.
  split; intros H s Hs; specialize (H s Hs); specialize (Hf s Hs); by apply safe_segment_spec.
Qed.

(** * Hooks *)

(** The reference: scan all hooks in the order of the configuration. *)
Definition evaluate_in_order `{NetLibs, HookLibs} (hooks : list MitmHook) (host : str) (req : Request) : HookEvaluation :=
  let for_host := filter (λ h, hook_host h = normalize_host host) hooks in
  match filter (λ h, hook_matches h req = true) for_host with
  | h :: _ => Matched (actions h)
  | [] => if is_empty for_host then NoHooksForHost else HookedHostNoMatch
  end.

Section Hooks.
Context `{NL : NetLibs, HL : HookLibs}.

Lemma first_match_filter hooks req :
  first_match hooks req =
  match filter (λ h, hook_matches h req = true) hooks with
  | h :: _ => Matched (actions h)
  | [] => HookedHostNoMatch
  end.
Proof.
  induction hooks as [|h hooks IH]; [done|]. simpl. rewrite filter_cons.
  destruct (hook_matches h req) eqn:E; case_decide; congruence.
Qed.

(** The hooks of a host, in the map that compilation builds. *)
Definition for_host (host : str) (hooks : list MitmHook) : list MitmHook := filter (λ h, hook_host h = host) hooks.

Lemma compile_hooks_lookup env file cs m m' :
  compile_hooks env file cs m = Ok m' →
  ∃ hooks, collect_results (compile_hook env file) cs = Ok hooks ∧
    ∀ host, default [] (m' !! host) = default [] (m !! host) ++ for_host host hooks
      ∧ (is_Some (m' !! host) ↔ is_Some (m !! host) ∨ for_host host hooks ≠ []).
Proof.
  revert m. induction cs as [|c cs IH]; intros m; simpl.
  - intros [= ->]. exists []. split; [done|]. intros host. unfold for_host. simpl. rewrite app_nil_r. naive_solver.
  - destruct (compile_hook env file c) as [h|]; simpl; [|done]. intros Hc.
    destruct (IH _ Hc) as (hooks & -> & Hl). exists (h :: hooks). split; [done|].
    intros host. destruct (Hl host) as [-> Hs]. rewrite Hs. unfold push_hook, for_host.
    rewrite filter_cons. case_decide as Hh; [subst host|].
    + rewrite lookup_insert_eq. simpl. rewrite <- app_assoc. split; [done|]. naive_solver.
    + by rewrite lookup_insert_ne.
Qed.

Lemma hook_matches_safe_path h req : hook_matches h req = true → is_safe_for_authorization (req_path req) = true.
Proof. unfold hook_matches. destruct (negb _); [done|]. by destruct (is_safe_for_authorization _). Qed.

(** with hooks compiled from a configuration, the evaluation of a request is that of the
    first configured hook for its normalized host that matches it; a host with hooks and no
    match is reported as such, and so is a host without hooks. A match implies that the path
    is unambiguous. *)
Theorem hooks_first_match c m host req :
  compile_mitm_hooks c = Ok m →
  ∃ hooks,
    collect_results
      (compile_hook env_var
         (λ path, let? value := ok_or (read_to_string path) (UnreadableSecretFile path) in Ok (trim value)))
      (cfg_mitm_hooks c) = Ok hooks
    ∧ evaluate_mitm_hooks m host req = evaluate_in_order hooks host req
    ∧ (∀ a, evaluate_mitm_hooks m host req = Matched a → is_safe_for_authorization (req_path req) = true).
Proof.
  unfold compile_mitm_hooks, compile_mitm_hooks_with_resolvers.
  destruct (validate_mitm_hook_config c); simpl; [|done]. intros Hc.
  destruct (compile_hooks_lookup _ _ _ _ _ Hc) as (hooks & Hok & Hl). exists hooks. split; [done|].
  destruct (Hl (normalize_host host)) as [Hd Hs]. rewrite lookup_empty in Hd, Hs. simpl in Hd.
  assert (evaluate_mitm_hooks m host req = evaluate_in_order hooks host req) as Heq.
  { unfold evaluate_mitm_hooks, evaluate_in_order. fold (for_host (normalize_host host) hooks).
    destruct (m !! normalize_host host) as [hs|]; simpl in Hd.
    - rewrite first_match_filter, Hd. destruct (filter _ _); [|done].
      destruct (for_host _ hooks) eqn:E; [|done].
      destruct Hs as [[[? ?]|?] _]; [by eexists|done|done].
    - rewrite <- Hd. done. }
  split; [done|]. rewrite Heq. unfold evaluate_in_order. intros acts.
  destruct (filter (λ h, hook_matches h req = true) _) as [|h l] eqn:E; [by destruct (is_empty _)|].
  intros _. assert (h ∈ h :: l) as Hin by set_solver. rewrite <- E in Hin.
  apply list_elem_of_filter in Hin as [Hm _]. by eapply hook_matches_safe_path.
Qed.
End Hooks.

(** Crates for examples: every header name is valid, nothing is a glob, and the environment
    holds one token. *)
Definition example_net_libs : NetLibs := {|
  glob_valid _ _ := true;
  globset_builds _ := true;
  glob_match _ p s := bool_decide (p = s);
  UrlHost_parse s := Some s;
|}.
Definition example_hook_libs : HookLibs := {|
  HeaderName_from_bytes s := Some s;
  HeaderValue_from_str s := Some s;
  form_urlencoded_parse _ := [];
  Path_is_absolute p := starts_with p (lit "/");
  AbsolutePathBuf_from_absolute_path p := Some p;
  env_var _ := Some (lit "token");
  read_to_string _ := None;
|}.

Definition example_hook : MitmHookConfig :=
  mk_hook_config (lit "api.github.com") (mk_hook_match_config [lit "post"] [lit "/repos/openai/"] [] [] None)
    (mk_hook_actions_config [lit "authorization"]
       [mk_injected_header_config (lit "authorization") (Some (lit "TOKEN")) None (Some (lit "Bearer "))]).

Definition hooked_config : NetworkProxyConfig :=
  mk_config true default_proxy_url true default_socks_url true true false None Limited None None None
    true false false ∅ None ∅ false [example_hook].

Definition example_request (path : str) : Request := mk_request (lit "POST") path None [].

Definition example_evaluation (path : str) : HookEvaluation :=
  match @compile_mitm_hooks example_net_libs example_hook_libs hooked_config with
  | Ok m => @evaluate_mitm_hooks example_net_libs example_hook_libs m (lit "API.github.com:443") (example_request path)
  | Err _ => NoHooksForHost
  end.

Lemma hooks_first_match_witness :
  (∃ a, example_evaluation (lit "/repos/openai/codex") = Matched a)
  ∧ example_evaluation (lit "/repos/openai/%2e%2e/other") = HookedHostNoMatch.
Proof.
  split; [|vm_compute; reflexivity]. unfold example_evaluation.
  destruct (@compile_mitm_hooks example_net_libs example_hook_libs hooked_config) as [m|e] eqn:E;
    [|vm_compute in E; discriminate].
  destruct (@hooks_first_match example_net_libs example_hook_libs hooked_config m (lit "API.github.com:443")
              (example_request (lit "/repos/openai/codex")) E) as (hooks & Hh & -> & _).
  vm_compute in Hh. injection Hh as <-. eexists. vm_compute. reflexivity.
Defined.
