(* ===== verification/NetState.v ===== *)
(** The live state of the network proxy: building it and checking it against managed
    constraints ([network-proxy/src/state.rs]), the operations on it ([runtime.rs]), the decision
    on a request ([network_policy.rs]) and the check of a connection ([connect_policy.rs]).

    Every operation first asks the reloader for a new state; what it answers is an argument
    of the operation, [r]. *)
From stdpp Require Import base list numbers strings gmap.
From S2P Require Import Prelude RustStr PathConv NetIp NetPolicy NetConfig MitmHook.

(** * Constraints: [state.rs] *)
Record NetworkProxyConstraints : Type := mk_constraints {
  k_enabled : option bool;
  k_mode : option NetworkMode;
  k_allow_upstream_proxy : option bool;
  k_dangerously_allow_non_loopback_proxy : option bool;
  k_dangerously_allow_all_unix_sockets : option bool;
  k_allowed_domains : option (list str);
  k_allowlist_expansion_enabled : option bool;
  k_denied_domains : option (list str);
  k_denylist_expansion_enabled : option bool;
  k_allow_unix_sockets : option (list str);
  k_allow_local_binding : option bool;
}.

#[export] Instance NetworkProxyConstraints_eq_dec : EqDecision NetworkProxyConstraints.
Proof. solve_decision. Defined.

Definition no_constraints : NetworkProxyConstraints :=
  mk_constraints None None None None None None None None None None None.

(** [NetworkProxyConstraintError::InvalidValue], with the field it names. *)
Inductive ConstraintError : Type := InvalidValue (field_name : str).

Definition network_mode_rank (mode : NetworkMode) : nat :=
  match mode with
  | Limited => 0
  | Full => 1
  end.

Definition validate_non_global_wildcard_domain_patterns (field_name : str) (patterns : list str)
    : Result unit ConstraintError :=
  if existsb is_global_wildcard_domain_pattern patterns then Err (InvalidValue field_name) else Ok tt.

(** [iter().map(|s| s.to_ascii_lowercase()).collect::<HashSet<_>>()]. *)
Definition lower_set (l : list str) : gset str := list_to_set (to_ascii_lowercase <$> l).

(** A field that managed configuration can hold down. *)
Definition validate (ok : bool) (field_name : str) : Result unit ConstraintError :=
  if ok then Ok tt else Err (InvalidValue field_name).

Section Validation.
Context `{NL : NetLibs, HL : HookLibs}.

Definition validate_allowed_domains (k : NetworkProxyConstraints) (candidate : list str) (denied_overrides : gset str)
    : Result unit ConstraintError :=
  match k_allowed_domains k with
  | None => Ok tt
  | Some managed =>
      let? _ := validate_non_global_wildcard_domain_patterns (lit "network.allowed_domains") managed in
      match k_allowlist_expansion_enabled k with
      | Some true =>
          validate (bool_decide (lower_set managed ∖ lower_set candidate ∖ denied_overrides = ∅))
            (lit "network.allowed_domains")
      | Some false =>
          validate (bool_decide (lower_set candidate = lower_set managed ∖ denied_overrides))
            (lit "network.allowed_domains")
      | None =>
          let managed_patterns := parse_for_constraints <$> managed in
          validate
            (forallb (λ entry, existsb (λ m, allows m (parse_for_constraints entry)) managed_patterns) candidate)
            (lit "network.allowed_domains")
      end
  end.

Definition validate_denied_domains (k : NetworkProxyConstraints) (candidate : list str) : Result unit ConstraintError :=
  match k_denied_domains k with
  | None => Ok tt
  | Some managed =>
      let? _ := validate_non_global_wildcard_domain_patterns (lit "network.denied_domains") managed in
      match k_denylist_expansion_enabled k with
      | Some false =>
          validate (bool_decide (lower_set candidate = lower_set managed)) (lit "network.denied_domains")
      | Some true | None =>
          validate (bool_decide (lower_set managed ⊆ lower_set candidate)) (lit "network.denied_domains")
      end
  end.

Definition validate_unix_sockets (k : NetworkProxyConstraints) (candidate : list str) : Result unit ConstraintError :=
  match k_allow_unix_sockets k with
  | None => Ok tt
  | Some managed =>
      validate (forallb (λ entry, bool_decide (to_ascii_lowercase entry ∈ lower_set managed)) candidate)
        (lit "network.allow_unix_sockets")
  end.

(** [Some max]: the setting may be on only when [max] is. *)
Definition at_most (max : option bool) (setting : bool) : bool := negb setting || default true max.

Definition validate_policy_against_constraints (c : NetworkProxyConfig) (k : NetworkProxyConstraints)
    : Result unit ConstraintError :=
  let config_allowed := default [] (allowed_domains c) in
  let config_denied := default [] (denied_domains c) in
  let? _ := map_err (λ _, InvalidValue (lit "network.mitm_hooks")) (validate_mitm_hook_config c) in
  let? _ := validate_non_global_wildcard_domain_patterns (lit "network.denied_domains") config_denied in
  let? _ := validate (at_most (k_enabled k) (cfg_enabled c)) (lit "network.enabled") in
  let? _ :=
    validate
      (match k_mode k with
       | Some max_mode => network_mode_rank (cfg_mode c) <=? network_mode_rank max_mode
       | None => true
       end) (lit "network.mode") in
  let? _ := validate (at_most (k_allow_upstream_proxy k) (cfg_allow_upstream_proxy c)) (lit "network.allow_upstream_proxy") in
  let? _ :=
    validate (at_most (k_dangerously_allow_non_loopback_proxy k) (cfg_dangerously_allow_non_loopback_proxy c))
      (lit "network.dangerously_allow_non_loopback_proxy") in
  let allow_all_unix_sockets :=
    default (bool_decide (k_allow_unix_sockets k = None)) (k_dangerously_allow_all_unix_sockets k) in
  let? _ :=
    validate (at_most (Some allow_all_unix_sockets) (default false (cfg_dangerously_allow_all_unix_sockets c)))
      (lit "network.dangerously_allow_all_unix_sockets") in
  let? _ :=
    validate (at_most (k_allow_local_binding k) (config_allow_local_binding c)) (lit "network.allow_local_binding") in
  let? _ := validate_allowed_domains k config_allowed (lower_set config_denied) in
  let? _ := validate_denied_domains k config_denied in
  validate_unix_sockets k (allow_unix_sockets c).
End Validation.

(** * The state *)

(** [BlockedRequest]. *)
Record BlockedRequest : Type := mk_blocked_request {
  br_host : str;
  br_reason : str;
  br_client : option str;
  br_method : option str;
  br_mode : option NetworkMode;
  br_protocol : str;
  br_execution_id : option str;
  br_decision : option str;
  br_source : option str;
  br_port : option N;
  br_timestamp : Z;
}.

Record MitmState : Type := mk_mitm_state { mitm_allow_upstream_proxy : bool }.

Record ConfigState : Type := mk_state {
  executor_os : Platform;
  config : NetworkProxyConfig;
  brokerage_created_default_allowlist : bool;
  allow_set : GlobSet;
  deny_set : GlobSet;
  mitm : option MitmState;
  mitm_hooks : MitmHooksByHost;
  constraints : NetworkProxyConstraints;
  blocked : list BlockedRequest;
  blocked_total : N;
}.

Definition set_config (c : NetworkProxyConfig) (st : ConfigState) : ConfigState :=
  mk_state (executor_os st) c (brokerage_created_default_allowlist st) (allow_set st) (deny_set st) (mitm st)
    (mitm_hooks st) (constraints st) (blocked st) (blocked_total st).

Definition set_blocked (b : list BlockedRequest) (total : N) (st : ConfigState) : ConfigState :=
  mk_state (executor_os st) (config st) (brokerage_created_default_allowlist st) (allow_set st) (deny_set st)
    (mitm st) (mitm_hooks st) (constraints st) b total.

Inductive BuildError : Type :=
| SocketPathsInvalid
| BrokerRequiresMitm
| ConstraintViolated (e : ConstraintError)
| PatternsInvalid (e : PolicyError)
| HooksInvalid (e : HookError)
| MitmUnavailable.

(** Whether the certificate authority for interception can be loaded or created, which
    [MitmState::new] does on disk. *)
Class MitmLib : Type := { mitm_ca_available : bool }.

Section Build.
Context `{NL : NetLibs, HL : HookLibs, ML : MitmLib}.

Definition MitmState_new (allow_upstream : bool) : option MitmState :=
  if mitm_ca_available then Some (mk_mitm_state allow_upstream) else None.

(** What [build_config_state] makes of the configuration before compiling it, and whether
    brokerage supplied the default allowlist. *)
Definition broker_config (c : NetworkProxyConfig) (k : NetworkProxyConstraints) : NetworkProxyConfig * bool :=
  let c := if bool_decide (k_enabled k = Some false) then set_credential_broker false c else c in
  let brokerage_created_proxy := cfg_credential_broker c && negb (cfg_enabled c) in
  let default_allowlist :=
    brokerage_created_proxy && bool_decide (allowed_domains c = None) && bool_decide (k_allowed_domains k = None) in
  let c := if brokerage_created_proxy then set_enabled true c else c in
  let c := if default_allowlist then set_allowed_domains [lit "*"] c else c in
  (c, default_allowlist).

Definition build_config_state (c : NetworkProxyConfig) (k : NetworkProxyConstraints) (os : Platform)
    : Result ConfigState BuildError :=
  let '(c, default_allowlist) := broker_config c k in
  if negb (validate_unix_socket_allowlist_paths c os) then Err SocketPathsInvalid
  else if cfg_credential_broker c && negb (cfg_mitm c) then Err BrokerRequiresMitm
  else
    let allowed := default [] (allowed_domains c) in
    let denied := default [] (denied_domains c) in
    let? _ :=
      map_err ConstraintViolated
        (validate_non_global_wildcard_domain_patterns (lit "network.denied_domains") denied) in
    let? ds := map_err PatternsInvalid (compile_denylist_globset denied) in
    let? als := map_err PatternsInvalid (compile_allowlist_globset allowed) in
    let? hooks := map_err HooksInvalid (compile_mitm_hooks c) in
    let? m :=
      (if cfg_mitm c then
         let? m := ok_or (MitmState_new (cfg_allow_upstream_proxy c)) MitmUnavailable in Ok (Some m)
       else Ok None) in
    Ok (mk_state os c default_allowlist als ds m hooks k [] 0).
End Build.

(** * Operations: [runtime.rs] *)
Inductive HostBlockReason : Type := Denied | NotAllowed | NotAllowedLocal.
Inductive HostBlockDecision : Type :=
| Allowed
| Blocked (reason : HostBlockReason).

#[export] Instance HostBlockReason_eq_dec : EqDecision HostBlockReason.
Proof. solve_decision. Defined.
#[export] Instance HostBlockDecision_eq_dec : EqDecision HostBlockDecision.
Proof. solve_decision. Defined.

Definition reason_str (r : HostBlockReason) : str :=
  match r with
  | Denied => lit "denied"
  | NotAllowed => lit "not_allowed"
  | NotAllowedLocal => lit "not_allowed_local"
  end.

Inductive LocalBindingPolicy : Type := DefaultFalse | RequireTrue.

#[export] Instance LocalBindingPolicy_eq_dec : EqDecision LocalBindingPolicy.
Proof. solve_decision. Defined.

Definition resolve (p : LocalBindingPolicy) (c : NetworkProxyConfig) : bool :=
  default (cfg_enabled c && bool_decide (p = RequireTrue)) (cfg_allow_local_binding c).

Definition resolved_config (p : LocalBindingPolicy) (c : NetworkProxyConfig) : NetworkProxyConfig :=
  set_allow_local_binding (Some (resolve p c)) c.

Definition MAX_BLOCKED_EVENTS : nat := 200.
Definition U64_MAX : N := (2 ^ 64 - 1)%N.

Inductive DomainListKind : Type := ListAllow | ListDeny.

Definition kind_permission (k : DomainListKind) : NetworkDomainPermission :=
  match k with
  | ListAllow => PermAllow
  | ListDeny => PermDeny
  end.

Definition kind_entries (k : DomainListKind) (c : NetworkProxyConfig) : list str :=
  match k with
  | ListAllow => default [] (allowed_domains c)
  | ListDeny => default [] (denied_domains c)
  end.

Definition kind_opposite_entries (k : DomainListKind) (c : NetworkProxyConfig) : list str :=
  match k with
  | ListAllow => default [] (denied_domains c)
  | ListDeny => default [] (allowed_domains c)
  end.

Definition constraint_field (k : DomainListKind) : str :=
  match k with
  | ListAllow => lit "network.allowed_domains"
  | ListDeny => lit "network.denied_domains"
  end.

Inductive OpError : Type :=
| ReloadFailed
| InvalidHost
| ConstrainedByManagedConfig (field : str) (e : ConstraintError)
| CompileFailed (e : BuildError).

(** The answer of the reloader: a failure, nothing new, or a new state. *)
Abbreviation Reload := (Result (option ConfigState) OpError).

Definition is_explicit_local_allowlisted (allowed : list str) (host : str) : bool :=
  let unscoped_host := unscoped_ip_literal host in
  existsb (λ p,
    let p := trim p in
    if bool_decide (p = lit "*") || starts_with p (lit "*.") || starts_with p (lit "**.") then false
    else if contains_char p STAR || contains_char p QUESTION then false
    else
      let normalized_pattern := normalize_host p in
      bool_decide (normalized_pattern = host)
      || match unscoped_host with Some ip => bool_decide (normalized_pattern = ip) | None => false end) allowed.

(** A local or non-public literal, without its scope. *)
Definition local_literal (host : str) : bool :=
  let host_no_scope := default host (unscoped_ip_literal host) in
  if is_loopback_host host then true
  else
    match parse_ip host_no_scope with
    | Some ip => is_non_public_ip ip
    | None => false
    end.

Section Operations.
Context `{NL : NetLibs, HL : HookLibs, ML : MitmLib}.
Abbreviation Op A := (SE ConfigState A OpError).

(** Addresses of a host and port; [None] when the lookup fails or does not end in time. *)
Abbreviation Dns := (str → N → option (list IpAddr)).

Definition reload_if_needed (r : Reload) : Op unit := λ st,
  match r with
  | Err e => (st, Err e)
  | Ok None => (st, Ok tt)
  | Ok (Some new_state) => (set_blocked (blocked st) (blocked_total st) new_state, Ok tt)
  end.

Definition force_reload (r : Result ConfigState OpError) : Op unit := λ st,
  match r with
  | Ok new_state => (set_blocked (blocked st) (blocked_total new_state) new_state, Ok tt)
  | Err e => (st, Err e)
  end.

Definition replace_config_state (r : Reload) (new_state : ConfigState) : Op unit :=
  reload_if_needed r ;;;
  se_modify (λ st, set_blocked (blocked st) (blocked_total st) new_state).

Definition host_resolves_to_non_public_ip (lookup : Dns) (host : str) (port : N) : bool :=
  match parse_ip host with
  | Some ip => is_non_public_ip ip
  | None =>
      match lookup host port with
      | None => true
      | Some addrs => existsb is_non_public_ip addrs
      end
  end.

(** The decision on a parsed host, from what is read under the lock. *)
Definition decide_host (lookup : Dns) (deny allow : GlobSet) (allow_local : bool) (allowed : option (list str))
    (host : str) (port : N) : HostBlockDecision :=
  let allowed_domains_empty := bool_decide (allowed = None) in
  let allowed := default [] allowed in
  if globset_matches_host_or_unscoped deny host then Blocked Denied
  else
    let is_allowlisted := globset_matches_host_or_unscoped allow host in
    let local_blocked :=
      if allow_local then false
      else if local_literal host then negb (is_explicit_local_allowlisted allowed host)
      else host_resolves_to_non_public_ip lookup host port in
    if local_blocked then Blocked NotAllowedLocal
    else if allowed_domains_empty || negb is_allowlisted then Blocked NotAllowed
    else Allowed.

Definition host_blocked_with_local_binding (policy : LocalBindingPolicy) (lookup : Dns) (r : Reload)
    (host : str) (port : N) (allow_local : option bool) : Op HostBlockDecision :=
  reload_if_needed r ;;;
  match Host_parse host with
  | None => se_ret (Blocked NotAllowed)
  | Some host =>
      st <-- se_get ;;
      let allow_local :=
        default (resolve policy (config st)) allow_local
        && negb (bool_decide (cfg_allow_local_binding (config st) = Some false)) in
      se_ret (decide_host lookup (deny_set st) (allow_set st) allow_local (allowed_domains (config st)) host port)
  end.

Definition host_blocked (policy : LocalBindingPolicy) (lookup : Dns) (r : Reload) (host : str) (port : N)
    : Op HostBlockDecision :=
  host_blocked_with_local_binding policy lookup r host port None.

(** [while blocked.len() > MAX_BLOCKED_EVENTS { pop_front }]. *)
Fixpoint pop_excess (l : list BlockedRequest) : list BlockedRequest :=
  match l with
  | [] => []
  | _ :: l' => if MAX_BLOCKED_EVENTS <? length l then pop_excess l' else l
  end.

Definition set_execution_id (id : option str) (e : BlockedRequest) : BlockedRequest :=
  mk_blocked_request (br_host e) (br_reason e) (br_client e) (br_method e) (br_mode e) (br_protocol e) id
    (br_decision e) (br_source e) (br_port e) (br_timestamp e).

Definition push_blocked (entry : BlockedRequest) (st : ConfigState) : ConfigState :=
  set_blocked (pop_excess (blocked st ++ [entry])) (N.min (blocked_total st + 1) U64_MAX) st.

(** The entry handed to the observer is the result. *)
Definition record_blocked (execution_id : option str) (r : Reload) (entry : BlockedRequest) : Op BlockedRequest :=
  reload_if_needed r ;;;
  let entry := set_execution_id execution_id entry in
  se_modify (push_blocked entry) ;;;
  se_ret entry.

Definition blocked_snapshot (r : Reload) : Op (list BlockedRequest) :=
  reload_if_needed r ;;;
  st <-- se_get ;;
  se_ret (blocked st).

Definition drain_blocked (r : Reload) : Op (list BlockedRequest) :=
  reload_if_needed r ;;;
  st <-- se_get ;;
  se_put (set_blocked [] (blocked_total st) st) ;;;
  se_ret (blocked st).

Definition method_allowed (r : Reload) (method : str) : Op bool :=
  reload_if_needed r ;;;
  st <-- se_get ;;
  se_ret (allows_method (cfg_mode (config st)) method).

Definition state_allow_local_binding (policy : LocalBindingPolicy) (r : Reload) : Op bool :=
  reload_if_needed r ;;;
  st <-- se_get ;;
  se_ret (resolve policy (config st)).

Definition evaluate_mitm_hook_request (r : Reload) (host : str) (req : Request) : Op HookEvaluation :=
  reload_if_needed r ;;;
  st <-- se_get ;;
  se_ret (evaluate_mitm_hooks (mitm_hooks st) host req).

(** An update reads the state under the read lock, computes, and takes the write lock, where it
    starts over when what it relied on has changed. [prepare_*] is the first part and
    [commit_*] the second, which is [None] when the loop continues. *)
Definition prepare_mode (policy : LocalBindingPolicy) (mode : NetworkMode) (st : ConfigState)
    : Result NetworkProxyConstraints OpError :=
  let candidate := set_cfg_mode mode (config st) in
  let? _ :=
    map_err (ConstrainedByManagedConfig (lit "network.mode"))
      (validate_policy_against_constraints (resolved_config policy candidate) (constraints st)) in
  Ok (constraints st).

Definition commit_mode (mode : NetworkMode) (k : NetworkProxyConstraints) (st : ConfigState) : option ConfigState :=
  if bool_decide (constraints st = k) then Some (set_config (set_cfg_mode mode (config st)) st) else None.

Record PendingUpdate : Type := mk_pending {
  previous_cfg : NetworkProxyConfig;
  pending_constraints : NetworkProxyConstraints;
  pending_os : Platform;
  pending_state : ConfigState;
}.

(** [Ok None]: the host is already on the list, and nothing is to do. *)
Definition prepare_domain (policy : LocalBindingPolicy) (target : DomainListKind) (normalized_host : str)
    (st : ConfigState) : Result (option PendingUpdate) OpError :=
  let listed := existsb (λ entry, bool_decide (normalize_host entry = normalized_host)) in
  if listed (kind_entries target (config st)) && negb (listed (kind_opposite_entries target (config st)))
  then Ok None
  else
    let candidate := upsert_domain_permission normalized_host (kind_permission target) normalize_host (config st) in
    let? _ :=
      map_err (ConstrainedByManagedConfig (constraint_field target))
        (validate_policy_against_constraints (resolved_config policy candidate) (constraints st)) in
    let? new_state := map_err CompileFailed (build_config_state candidate (constraints st) (executor_os st)) in
    Ok (Some (mk_pending (config st) (constraints st) (executor_os st)
                (set_blocked (blocked st) (blocked_total st) new_state))).

Definition commit_domain (p : PendingUpdate) (st : ConfigState) : option ConfigState :=
  if bool_decide (constraints st = pending_constraints p) && bool_decide (config st = previous_cfg p)
     && bool_decide (executor_os st = pending_os p)
  then Some (pending_state p)
  else None.

(** The loops. A turn is given by what the reloader answers and by what the other tasks do to
    the state between the two parts; [Ok false] is a loop that is still running after the turns
    given. *)
Abbreviation Turns := (list (Reload * (ConfigState → ConfigState))).

Fixpoint set_network_mode (policy : LocalBindingPolicy) (mode : NetworkMode) (turns : Turns) : Op bool :=
  match turns with
  | [] => se_ret false
  | (r, others) :: turns =>
      reload_if_needed r ;;;
      st <-- se_get ;;
      k <-- se_lift (prepare_mode policy mode st) ;;
      se_modify others ;;;
      st <-- se_get ;;
      match commit_mode mode k st with
      | Some st' => se_put st' ;;; se_ret true
      | None => set_network_mode policy mode turns
      end
  end.

Fixpoint update_domain_loop (policy : LocalBindingPolicy) (normalized_host : str) (target : DomainListKind)
    (turns : Turns) : Op bool :=
  match turns with
  | [] => se_ret false
  | (r, others) :: turns =>
      reload_if_needed r ;;;
      st <-- se_get ;;
      p <-- se_lift (prepare_domain policy target normalized_host st) ;;
      match p with
      | None => se_ret true
      | Some p =>
          se_modify others ;;;
          st <-- se_get ;;
          match commit_domain p st with
          | Some st' => se_put st' ;;; se_ret true
          | None => update_domain_loop policy normalized_host target turns
          end
      end
  end.

Definition update_domain_list (policy : LocalBindingPolicy) (host : str) (target : DomainListKind) (turns : Turns) : Op bool :=
  match Host_parse host with
  | None => se_fail InvalidHost
  | Some normalized_host => update_domain_loop policy normalized_host target turns
  end.

Definition add_allowed_domain (policy : LocalBindingPolicy) (host : str) (turns : Turns) : Op bool :=
  update_domain_list policy host ListAllow turns.
Definition add_denied_domain (policy : LocalBindingPolicy) (host : str) (turns : Turns) : Op bool :=
  update_domain_list policy host ListDeny turns.

End Operations.

(** * The decision on a request: [network_policy.rs] *)
Inductive NetworkPolicyDecision : Type := PolicyDeny | PolicyAsk.
Inductive NetworkDecisionSource : Type := BaselinePolicy | ModeGuard | ProxyState | Decider.

Inductive NetworkDecision : Type :=
| Allow
| Deny (reason : str) (source : NetworkDecisionSource) (decision : NetworkPolicyDecision).

Inductive NetworkProtocol : Type := Http | HttpsConnect | Socks5Tcp | Socks5Udp.

(** [NetworkPolicyRequest], without the handles that tell whether the client is still there. *)
Record NetworkPolicyRequest : Type := mk_policy_request {
  pr_protocol : NetworkProtocol;
  pr_host : str;
  pr_port : N;
  pr_environment_id : option str;
  pr_client_addr : option str;
  pr_method : option str;
  pr_command : option str;
  pr_exec_policy_hint : option str;
  pr_execution_id : option str;
}.

Definition REASON_POLICY_DENIED : str := lit "policy_denied".

Definition nonempty_reason (reason : str) : str := if is_empty reason then REASON_POLICY_DENIED else reason.
Definition deny_with_source (reason : str) (source : NetworkDecisionSource) : NetworkDecision :=
  Deny (nonempty_reason reason) source PolicyDeny.
Definition ask_with_source (reason : str) (source : NetworkDecisionSource) : NetworkDecision :=
  Deny (nonempty_reason reason) source PolicyAsk.

Definition map_decider_decision (d : NetworkDecision) : NetworkDecision :=
  match d with
  | Allow => Allow
  | Deny reason _ decision => Deny reason Decider decision
  end.

(** The policy part of the audit event of a domain decision. *)
Record AuditEvent : Type := mk_audit_event {
  ae_decision : str;
  ae_source : NetworkDecisionSource;
  ae_reason : str;
  ae_host : str;
  ae_port : N;
  ae_policy_override : bool;
}.

Definition decision_str (d : NetworkPolicyDecision) : str :=
  match d with
  | PolicyDeny => lit "deny"
  | PolicyAsk => lit "ask"
  end.

(** The identity of the execution a state view belongs to. *)
Record Attribution : Type := mk_attribution {
  at_environment_id : option str;
  at_execution_id : option str;
}.

Definition decider_request (a : Attribution) (req : NetworkPolicyRequest) : NetworkPolicyRequest :=
  mk_policy_request (pr_protocol req) (pr_host req) (pr_port req)
    (match pr_environment_id req with Some e => Some e | None => at_environment_id a end)
    (pr_client_addr req) (pr_method req) (pr_command req) (pr_exec_policy_hint req) (at_execution_id a).

(** The decision and the audit event, given the decision on the host. *)
Definition evaluate_decision (a : Attribution) (decider : option (NetworkPolicyRequest → NetworkDecision))
    (req : NetworkPolicyRequest) (host_decision : HostBlockDecision) : NetworkDecision * bool :=
  match host_decision with
  | Allowed => (Allow, false)
  | Blocked NotAllowed =>
      match decider with
      | Some decide =>
          let d := map_decider_decision (decide (decider_request a req)) in
          (d, match d with Allow => true | Deny _ _ _ => false end)
      | None => (deny_with_source (reason_str NotAllowed) BaselinePolicy, false)
      end
  | Blocked reason => (deny_with_source (reason_str reason) BaselinePolicy, false)
  end.

Definition audit_event (req : NetworkPolicyRequest) (d : NetworkDecision) (policy_override : bool) : AuditEvent :=
  let '(decision, source, reason) :=
    match d with
    | Allow =>
        (lit "allow", if policy_override then Decider else BaselinePolicy,
         if policy_override then reason_str NotAllowed else lit "allow")
    | Deny reason source decision => (decision_str decision, source, reason)
    end in
  mk_audit_event decision source reason (pr_host req) (pr_port req) policy_override.

Section Requests.
Context `{NL : NetLibs, HL : HookLibs, ML : MitmLib}.

Definition evaluate_host_policy (policy : LocalBindingPolicy) (lookup : str → N → option (list IpAddr)) (r : Reload)
    (a : Attribution) (decider : option (NetworkPolicyRequest → NetworkDecision)) (req : NetworkPolicyRequest)
    : SE ConfigState (NetworkDecision * AuditEvent) OpError :=
  host_decision <-- host_blocked policy lookup r (pr_host req) (pr_port req) ;;
  let '(d, policy_override) := evaluate_decision a decider req host_decision in
  se_ret (d, audit_event req d policy_override).

(** * Connections: [connect_policy.rs]

    The target of a connection is an address or a name; its text is what [Display] prints,
    which for an address is a parameter. *)
Inductive TargetHost : Type :=
| Address (ip : IpAddr) (text : str)
| Name (name : str).

Definition target_text (h : TargetHost) : str :=
  match h with
  | Address _ text => text
  | Name name => name
  end.

Definition is_localhost_name (name : str) : bool := eq_ignore_ascii_case (trim_end_dots name) (lit "localhost").

Definition is_non_public_target (host : TargetHost) : bool :=
  match host with
  | Address ip _ => is_non_public_ip ip
  | Name name => is_localhost_name name
  end.

Definition target_matches_non_public_addr (host : TargetHost) (addr : IpAddr) : bool :=
  match host with
  | Address ip _ => bool_decide (ip = addr)
  | Name name => is_localhost_name name && is_loopback addr
  end.

(** Each call on the state may find a reload: [r1] and [r2]. *)
Definition allows_non_public_target (policy : LocalBindingPolicy) (lookup : str → N → option (list IpAddr))
    (r1 r2 : Reload) (target : TargetHost) (port : N) (addr : IpAddr) : SE ConfigState bool OpError :=
  allow_local <-- state_allow_local_binding policy r1 ;;
  if (allow_local : bool) then se_ret true
  else if negb (target_matches_non_public_addr target addr) then se_ret false
  else
    d <-- host_blocked policy lookup r2 (target_text target) port ;;
    se_ret (bool_decide (d = Allowed)).

(** Whether [connect] goes on to open a connection to [addr]; otherwise it is refused with
    "network target rejected by policy". *)
Definition connect_permitted (policy : LocalBindingPolicy) (lookup : str → N → option (list IpAddr))
    (r1 r2 : Reload) (target : TargetHost) (port : N) (addr : IpAddr) : SE ConfigState bool OpError :=
  if is_non_public_ip addr then allows_non_public_target policy lookup r1 r2 target port addr
  else se_ret true.
End Requests.
