(* ===== verification/NetStateFacts.v ===== *)
(** The live state of the proxy: what every interleaving of its operations keeps true. *)
From stdpp Require Import base list sets numbers strings gmap relations.
From S2P Require Import Prelude RustStr PathConv NetIp NetPolicy NetPolicyFacts NetConfig NetConfigFacts MitmHook NetState.

(** * Validation, one setting at a time *)
Lemma validate_true b f : validate b f = Ok tt ↔ b = true.
Proof. unfold validate. by destruct b. Qed.

Lemma wildcard_free f ps :
  validate_non_global_wildcard_domain_patterns f ps = Ok tt ↔ existsb is_global_wildcard_domain_pattern ps = false.
Proof. unfold validate_non_global_wildcard_domain_patterns. by destruct (existsb _ ps). Qed.

Lemma bind_unit_ok {E} (r k : Result unit E) : (let? _ := r in k) = Ok tt ↔ r = Ok tt ∧ k = Ok tt.
Proof. destruct r as [[]|]; simpl; naive_solver. Qed.

Lemma map_err_unit_ok {A E F} (f : E → F) (r : Result A E) a : map_err f r = Ok a ↔ r = Ok a.
Proof. destruct r; simpl; naive_solver. Qed.

Section Valid.
Context `{NL : NetLibs, HL : HookLibs}.

Record ValidConfig (c : NetworkProxyConfig) (k : NetworkProxyConstraints) : Prop := {
  v_hooks : validate_mitm_hook_config c = Ok tt;
  v_wildcards : existsb is_global_wildcard_domain_pattern (default [] (denied_domains c)) = false;
  v_enabled : at_most (k_enabled k) (cfg_enabled c) = true;
  v_mode : match k_mode k with Some m => network_mode_rank (cfg_mode c) <=? network_mode_rank m | None => true end = true;
  v_upstream : at_most (k_allow_upstream_proxy k) (cfg_allow_upstream_proxy c) = true;
  v_listen : at_most (k_dangerously_allow_non_loopback_proxy k) (cfg_dangerously_allow_non_loopback_proxy c) = true;
  v_all_sockets :
    at_most (Some (default (bool_decide (k_allow_unix_sockets k = None)) (k_dangerously_allow_all_unix_sockets k)))
      (default false (cfg_dangerously_allow_all_unix_sockets c)) = true;
  v_local : at_most (k_allow_local_binding k) (config_allow_local_binding c) = true;
  v_allowed :
    validate_allowed_domains k (default [] (allowed_domains c)) (lower_set (default [] (denied_domains c))) = Ok tt;
  v_denied : validate_denied_domains k (default [] (denied_domains c)) = Ok tt;
  v_sockets : validate_unix_sockets k (allow_unix_sockets c) = Ok tt;
}.

Lemma validate_policy_ok c k : validate_policy_against_constraints c k = Ok tt ↔ ValidConfig c k.
Proof.
  unfold validate_policy_against_constraints. cbv zeta.
  rewrite !bind_unit_ok, map_err_unit_ok, wildcard_free, !validate_true. split.
  - intros (? & ? & ? & ? & ? & ? & ? & ? & ? & ? & ?). by constructor.
  - intros []. tauto.
Qed.

(** Validation of another configuration with the same settings but the mode. *)
Lemma valid_set_mode c k m :
  ValidConfig c k →
  match k_mode k with Some max => network_mode_rank m <=? network_mode_rank max | None => true end = true →
  ValidConfig (set_cfg_mode m c) k.
Proof. intros [] Hm. by constructor. Qed.

Lemma resolved_set_mode policy m c : resolved_config policy (set_cfg_mode m c) = set_cfg_mode m (resolved_config policy c).
Proof. done. Qed.
End Valid.

(** * The invariant *)
Section Invariant.
Context `{NL : NetLibs, HL : HookLibs, ML : MitmLib} (policy : LocalBindingPolicy).

Record StateOk (st : ConfigState) : Prop := {
  ok_valid : ValidConfig (resolved_config policy (config st)) (constraints st);
  ok_deny : compile_denylist_globset (default [] (denied_domains (config st))) = Ok (deny_set st);
  ok_allow : compile_allowlist_globset (default [] (allowed_domains (config st))) = Ok (allow_set st);
  ok_broker :
    cfg_credential_broker (config st) = true → cfg_enabled (config st) = true ∧ k_enabled (constraints st) ≠ Some false;
  ok_blocked : length (blocked st) ≤ MAX_BLOCKED_EVENTS;
  ok_total : (blocked_total st ≤ U64_MAX)%N;
}.

Lemma set_blocked_ok b t st :
  StateOk st → length b ≤ MAX_BLOCKED_EVENTS → (t ≤ U64_MAX)%N → StateOk (set_blocked b t st).
Proof. intros []. by constructor. Qed.

Lemma pop_excess_length l : length (pop_excess l) ≤ MAX_BLOCKED_EVENTS.
Proof.
  induction l as [|x l IH]; [apply Nat.le_0_l|]. cbn [pop_excess].
  destruct (MAX_BLOCKED_EVENTS <? length (x :: l)) eqn:E; [done|]. by apply Nat.ltb_ge in E.
Qed.

Lemma broker_config_id c k :
  (cfg_credential_broker c = true → cfg_enabled c = true ∧ k_enabled k ≠ Some false) → broker_config c k = (c, false).
Proof.
  intros Hb. unfold broker_config.
  replace (if bool_decide (k_enabled k = Some false) then set_credential_broker false c else c) with c.
  2:{ case_bool_decide as E; [|done]. destruct (cfg_credential_broker c) eqn:Ec; [naive_solver|].
      destruct c. simpl in *. by rewrite Ec. }
  destruct (cfg_credential_broker c); simpl; [|done]. by destruct (Hb eq_refl) as [-> _].
Qed.

(** A state built from a validated configuration. *)
Lemma built_state_ok c k os st :
  ValidConfig (resolved_config policy c) k →
  (cfg_credential_broker c = true → cfg_enabled c = true ∧ k_enabled k ≠ Some false) →
  build_config_state c k os = Ok st →
  StateOk st ∧ config st = c ∧ constraints st = k ∧ executor_os st = os.
Proof.
  intros Hv Hb. unfold build_config_state. rewrite broker_config_id by done.
  destruct (negb _); [done|]. destruct (cfg_credential_broker c && _); [done|].
  destruct (validate_non_global_wildcard_domain_patterns _ _); simpl; [|done].
  destruct (compile_denylist_globset _) as [ds|] eqn:Ed; simpl; [|done].
  destruct (compile_allowlist_globset _) as [al|] eqn:Ea; simpl; [|done].
  destruct (compile_mitm_hooks c) as [hooks|]; simpl; [|done].
  destruct (if cfg_mitm c then _ else _); simpl; [|done]. intros [= <-].
  split; [|done]. constructor; simpl; [done..|apply Nat.le_0_l|apply N.le_0_l].
Qed.

(** * Interleavings

    The state and the updates under way: between its two parts an update waits for the write
    lock while others run. *)
Record System : Type := mk_system {
  sys_state : ConfigState;
  sys_modes : list (NetworkMode * NetworkProxyConstraints);
  sys_updates : list PendingUpdate;
}.

(** Reloaded and replacing states have been built and validated by their suppliers, who are
    outside the proxy. *)
Inductive net_step : System → System → Prop :=
| step_reload st new ms us st' :
    StateOk new → reload_if_needed (Ok (Some new)) st = (st', Ok tt) → net_step (mk_system st ms us) (mk_system st' ms us)
| step_force_reload st new ms us st' :
    StateOk new → force_reload (Ok new) st = (st', Ok tt) → net_step (mk_system st ms us) (mk_system st' ms us)
| step_replace st new ms us st' :
    StateOk new → replace_config_state (Ok None) new st = (st', Ok tt) → net_step (mk_system st ms us) (mk_system st' ms us)
| step_record st ms us id entry e st' :
    record_blocked id (Ok None) entry st = (st', Ok e) → net_step (mk_system st ms us) (mk_system st' ms us)
| step_drain st ms us l st' :
    drain_blocked (Ok None) st = (st', Ok l) → net_step (mk_system st ms us) (mk_system st' ms us)
| step_mode_prepare st ms us m k :
    prepare_mode policy m st = Ok k → net_step (mk_system st ms us) (mk_system st ((m, k) :: ms) us)
| step_mode_commit st a m k b us st' :
    commit_mode m k st = Some st' → net_step (mk_system st (a ++ (m, k) :: b) us) (mk_system st' (a ++ b) us)
| step_mode_retry st a m k b us :
    commit_mode m k st = None → net_step (mk_system st (a ++ (m, k) :: b) us) (mk_system st (a ++ b) us)
| step_update_prepare st ms us target host p :
    prepare_domain policy target host st = Ok (Some p) → net_step (mk_system st ms us) (mk_system st ms (p :: us))
| step_update_commit st ms a p b st' :
    commit_domain p st = Some st' → net_step (mk_system st ms (a ++ p :: b)) (mk_system st' ms (a ++ b))
| step_update_retry st ms a p b :
    commit_domain p st = None → net_step (mk_system st ms (a ++ p :: b)) (mk_system st ms (a ++ b)).

(** A mode that waits was validated against its constraints, a state that waits is a good
    one. *)
Definition mode_within (mk : NetworkMode * NetworkProxyConstraints) : Prop :=
  match k_mode mk.2 with Some max => network_mode_rank mk.1 <=? network_mode_rank max | None => true end = true.

Record SystemOk (s : System) : Prop := {
  sok_state : StateOk (sys_state s);
  sok_modes : Forall mode_within (sys_modes s);
  sok_updates : Forall (λ p, StateOk (pending_state p)) (sys_updates s);
}.

Lemma prepare_mode_within m st k : prepare_mode policy m st = Ok k → mode_within (m, k).
Proof.
  unfold prepare_mode. destruct (map_err _ _) as [[]|] eqn:E; simpl; [|done]. intros [= <-].
  apply map_err_unit_ok, validate_policy_ok in E. apply (v_mode _ _ E).
Qed.

Lemma commit_mode_ok m k st st' : StateOk st → mode_within (m, k) → commit_mode m k st = Some st' → StateOk st'.
Proof.
  unfold commit_mode. case_bool_decide as E; [|done]. subst k. intros [] Hm [= <-].
  constructor; simpl; [|done..]. rewrite resolved_set_mode. by apply valid_set_mode.
Qed.

Lemma prepare_domain_ok target host st p :
  StateOk st → prepare_domain policy target host st = Ok (Some p) → StateOk (pending_state p).
Proof.
  intros Hst. unfold prepare_domain. destruct (_ && _); [done|].
  destruct (map_err (ConstrainedByManagedConfig _) _) as [[]|] eqn:Ev; simpl; [|done].
  apply map_err_unit_ok, validate_policy_ok in Ev.
  destruct (build_config_state _ _ _) as [new|] eqn:Eb; simpl; [|done]. intros [= <-]. simpl.
  apply set_blocked_ok; [|apply ok_blocked, Hst|apply ok_total, Hst].
  by apply (built_state_ok _ _ _ _ Ev) in Eb as [? _]; [|apply (ok_broker _ Hst)].
Qed.

Lemma net_step_ok s s' : net_step s s' → SystemOk s → SystemOk s'.
Proof.
  intros Hstep [Hst Hms Hus].
  inversion Hstep; subst; clear Hstep; simpl in *; constructor; simpl in *;
    try match goal with H : _ = (_, _) |- _ => injection H as <- end;
    rewrite ?Forall_app, ?Forall_cons in *; try (destruct_and?; by auto).
  - by apply set_blocked_ok; [|apply Hst..].
  - by apply set_blocked_ok; [|apply Hst|apply ok_total].
  - by apply set_blocked_ok; [|apply Hst..].
  - apply set_blocked_ok; [done|apply pop_excess_length|lia].
  - apply set_blocked_ok; [done|apply Nat.le_0_l|apply Hst].
  - split; [|done]. by eapply prepare_mode_within.
  - eapply commit_mode_ok; [done| |done]. naive_solver.
  - split; [|done]. by eapply prepare_domain_ok.
  - unfold commit_domain in *. destruct (_ && _); [|done]. naive_solver.
Qed.


End Invariant.
