(* ===== verification/NetStateSafety.v ===== *)
(** Hosts after normalization, and what the decision on a host means. *)
From stdpp Require Import base list sets numbers strings gmap relations.
From S2P Require Import Prelude RustStr PathConv NetIp NetPolicy NetPolicyFacts NetConfig NetConfigFacts MitmHook NetState NetStateFacts.

(** * Normalized hosts are in lower case *)
Definition lower_char (c : char) : Prop := to_ascii_lowercase_char c = c.

Lemma to_ascii_lowercase_char_idemp c : lower_char (to_ascii_lowercase_char c).
Proof.
  unfold lower_char, to_ascii_lowercase_char. destruct (is_ascii_uppercase c) eqn:E; [|by rewrite E].
  unfold is_ascii_uppercase in *. rewrite andb_true_iff, !N.leb_le in E.
  destruct ((65 <=? c + 32)%N && (c + 32 <=? 90)%N) eqn:E'; [|done]. rewrite andb_true_iff, !N.leb_le in E'. lia.
Qed.

Lemma lower_Forall s : Forall lower_char (to_ascii_lowercase s).
Proof. apply Forall_fmap, Forall_true. intros c. apply to_ascii_lowercase_char_idemp. Qed.

Lemma trim_end_dots_Forall (P : char → Prop) s : Forall P s → Forall P (trim_end_dots s).
Proof.
  destruct (trim_end_matches_prefix (N.eqb DOT) s) as (w & E & _). unfold trim_end_dots.
  rewrite E at 1. by intros [? _]%Forall_app.
Qed.

Lemma normalize_ip_literal_Forall (P : char → Prop) s t :
  P PERCENT → Forall P s → normalize_ip_literal s = Some t → Forall P t.
Proof.
  intros Hp Hs. unfold normalize_ip_literal, split_once_str. destruct (is_ip s); [by intros [= <-]|].
  assert (∀ i n, Forall P (take i s ++ [PERCENT] ++ drop n s)) as Hpart.
  { intros i n. apply Forall_app. split; [by apply Forall_take|]. constructor; [done|by apply Forall_drop]. }
  destruct (find s (lit "%25")) as [i|]; simpl; [destruct (is_ip (take i s)); [intros [= <-]; by apply Hpart|]|];
    (destruct (find s (lit "%")) as [j|]; simpl; [|done]);
    (destruct (is_ip (take j s)); [intros [= <-]; by apply Hpart|done]).
Qed.

Lemma normalize_dns_lower s : Forall lower_char (normalize_dns_host_or_ip_literal s).
Proof.
  unfold normalize_dns_host_or_ip_literal.
  pose proof (trim_end_dots_Forall lower_char _ (lower_Forall s)) as H.
  destruct (normalize_ip_literal _) as [t|] eqn:E; [|done]. by eapply normalize_ip_literal_Forall.
Qed.

Lemma normalize_host_lower host : to_ascii_lowercase (normalize_host host) = normalize_host host.
Proof.
  apply to_ascii_lowercase_id. unfold normalize_host.
  destruct (if starts_with _ _ then _ else _); [|destruct (_ =? _)]; apply normalize_dns_lower.
Qed.

Lemma split_once_fst s c a b : split_once s c = Some (a, b) → ∃ t, s = a ++ t.
Proof.
  revert a b. induction s as [|x s IH]; intros a b; simpl; [done|].
  destruct (x =? c)%N; [intros [= <- <-]; by eexists|].
  destruct (split_once s c) as [[a' b']|]; [|done]. intros [= <- <-]. destruct (IH _ _ eq_refl) as [t ->]. by exists t.
Qed.

Lemma unscoped_lower h ip :
  to_ascii_lowercase h = h → unscoped_ip_literal h = Some ip → to_ascii_lowercase ip = ip.
Proof.
  intros Hl. unfold unscoped_ip_literal. destruct (split_once h PERCENT) as [[a b]|] eqn:E; simpl; [|done].
  destruct (parse_ip a); simpl; [|done]. intros [= <-]. destruct (split_once_fst _ _ _ _ E) as [t ->].
  unfold to_ascii_lowercase in *. rewrite fmap_app in Hl. apply app_inj_1 in Hl as [? _]; [done|]. by rewrite length_fmap.
Qed.

Lemma Host_parse_Some host h : Host_parse host = Some h ↔ h = normalize_host host ∧ h ≠ [].
Proof. unfold Host_parse. destruct (normalize_host host); simpl; naive_solver. Qed.

(** * The decision on a host *)
Section Decision.
Context `{NL : NetLibs}.

(** A host or, for a scoped literal, its address. *)
Definition forms (h : str) : list str := h :: option_list (unscoped_ip_literal h).

Lemma matches_forms set h :
  globset_matches_host_or_unscoped set h = true ↔ ∃ f, f ∈ forms h ∧ globset_is_match set f = true.
Proof.
  unfold globset_matches_host_or_unscoped, forms. rewrite orb_true_iff.
  destruct (unscoped_ip_literal h) as [ip|]; simpl; setoid_rewrite elem_of_cons; [|set_solver].
  setoid_rewrite list_elem_of_singleton. naive_solver.
Qed.

Lemma forms_lower host f : f ∈ forms (normalize_host host) → to_ascii_lowercase f = f.
Proof.
  unfold forms. rewrite elem_of_cons. intros [->|H]; [apply normalize_host_lower|].
  destruct (unscoped_ip_literal _) as [ip|] eqn:E; simpl in H; [|by apply not_elem_of_nil in H].
  apply list_elem_of_singleton in H as ->. eapply unscoped_lower, E. apply normalize_host_lower.
Qed.

(** The addresses behind a host are public: of a literal, itself; of a name, all that it
    resolves to. *)
Definition public_addresses (lookup : str → N → option (list IpAddr)) (h : str) (port : N) : Prop :=
  match parse_ip h with
  | Some ip => is_non_public_ip ip = false
  | None => ∃ addrs, lookup h port = Some addrs ∧ Forall (λ ip, is_non_public_ip ip = false) addrs
  end.

Lemma host_resolves_false lookup h port :
  host_resolves_to_non_public_ip lookup h port = false ↔ public_addresses lookup h port.
Proof.
  unfold host_resolves_to_non_public_ip, public_addresses. destruct (parse_ip h); [done|].
  destruct (lookup h port) as [addrs|]; [|naive_solver]. rewrite <- not_true_iff_false, existsb_exists.
  setoid_rewrite <- list_elem_of_In. split.
  - intros H. exists addrs. split; [done|]. rewrite Forall_forall. intros ip Hip. apply not_true_is_false. naive_solver.
  - intros (? & [= <-] & H) (ip & Hip & E). rewrite Forall_forall in H. apply H in Hip. congruence.
Qed.

(** An allowlist entry without wildcards that names the host itself. *)
Definition names (entry h : str) : Prop := normalize_host (trim entry) ∈ forms h ∧ STAR ∉ trim entry.

Lemma explicit_local_names allowed h :
  is_explicit_local_allowlisted allowed h = true → ∃ e, e ∈ allowed ∧ names e h.
Proof.
  unfold is_explicit_local_allowlisted. rewrite existsb_exists. setoid_rewrite <- list_elem_of_In.
  intros (e & He & Hb). exists e. split; [done|]. cbv zeta in Hb.
  destruct (_ || _ || _); [done|]. destruct (contains_char (trim e) STAR) eqn:Es; [done|].
  destruct (contains_char (trim e) QUESTION); [done|]. simpl in Hb.
  apply orb_true_iff in Hb. unfold names, forms. split.
  - destruct Hb as [E%bool_decide_eq_true|E]; [set_solver|].
    destruct (unscoped_ip_literal h); [|done]. apply bool_decide_eq_true in E. set_solver.
  - intros Hin. apply not_true_iff_false in Es. apply Es. unfold contains_char. apply existsb_exists.
    exists STAR. split; [by apply list_elem_of_In|done].
Qed.

(** What [Allowed] means. *)
Lemma decide_host_allowed lookup deny allow local allowed h port :
  decide_host lookup deny allow local allowed h port = Allowed →
  globset_matches_host_or_unscoped deny h = false
  ∧ globset_matches_host_or_unscoped allow h = true
  ∧ (local = true
     ∨ (local_literal h = true ∧ ∃ e, e ∈ default [] allowed ∧ names e h)
     ∨ (local_literal h = false ∧ public_addresses lookup h port)).
Proof.
  unfold decide_host. destruct (globset_matches_host_or_unscoped deny h); [done|].
  destruct (globset_matches_host_or_unscoped allow h); simpl; [|rewrite orb_true_r; by destruct (if local then _ else _)].
  rewrite orb_false_r. destruct local; [by destruct (bool_decide _); auto|].
  destruct (local_literal h).
  - destruct (is_explicit_local_allowlisted _ _) eqn:E; simpl; [|done].
    intros _. split_and!; [done..|]. right. left. split; [done|]. by apply explicit_local_names.
  - destruct (host_resolves_to_non_public_ip lookup h port) eqn:E; [done|].
    intros _. split_and!; [done..|]. right. right. split; [done|]. by apply host_resolves_false.
Qed.
End Decision.

(** What the proxy lets through: the hosts of its policy, within managed constraints, and local
    addresses only when they are asked for by name. *)

(** A configuration whose entries are all in canonical form. *)
Definition canonical_config `{NetLibs} (c : NetworkProxyConfig) : Prop :=
  ∀ e, e ∈ default [] (cfg_domains c) → ∃ p, canonical (pattern e) p.

(** A pattern covers a host in one of its forms. *)
Definition covers_host (p : DomainPattern) (h : str) : Prop := ∃ f, f ∈ forms h ∧ covers p f.

(** Crates for examples: plain domains parse, [?*.] is any label prefix, other globs are
    literals. *)
Definition plain_net_libs : NetLibs := {|
  glob_valid _ _ := true;
  globset_builds _ := true;
  glob_match _ p s :=
    match strip_prefix p (lit "?*.") with
    | Some d => ends_with (to_ascii_lowercase s) ([DOT] ++ d) && (length d + 1 <? length s)
    | None => bool_decide (to_ascii_lowercase s = p)
    end;
  UrlHost_parse s := if plain_domain s then Some s else None;
|}.

Lemma plain_net_libs_laws : @GlobLaws plain_net_libs.
Proof.
  split; intros d h Hd; cbn [glob_match plain_net_libs].
  - change (lit "?*.") with (QUESTION :: lit "*."). rewrite strip_prefix_absent by by apply plain_not_in.
    apply bool_decide_eq_true.
  - rewrite strip_prefix_app, andb_true_iff, ends_with_true, Nat.ltb_lt.
    assert (length (to_ascii_lowercase h) = length h) as Hl by apply length_fmap. split.
    + intros [[x E] Hlen]. exists x. split; [|done]. intros ->. rewrite E in Hl. simpl in Hl. lia.
    + intros (x & Hx & E). split; [by exists x|]. rewrite E, !length_app in Hl. simpl in Hl.
      destruct x; [done|]. simpl in Hl. lia.
Qed.

Section Safety.
Context `{NL : NetLibs, HL : HookLibs, ML : MitmLib, GL : !GlobLaws} (policy : LocalBindingPolicy).
Abbreviation Dns := (str → N → option (list IpAddr)).

Lemma host_blocked_allowed lookup host port st st' :
  host_blocked policy lookup (Ok None) host port st = (st', Ok Allowed) →
  st' = st ∧ normalize_host host ≠ []
  ∧ globset_matches_host_or_unscoped (deny_set st) (normalize_host host) = false
  ∧ globset_matches_host_or_unscoped (allow_set st) (normalize_host host) = true
  ∧ (resolve policy (config st) = true
     ∨ (local_literal (normalize_host host) = true
        ∧ ∃ e, e ∈ default [] (allowed_domains (config st)) ∧ names e (normalize_host host))
     ∨ (local_literal (normalize_host host) = false ∧ public_addresses lookup (normalize_host host) port)).
Proof.
  unfold host_blocked, host_blocked_with_local_binding, se_bind. cbn [reload_if_needed].
  destruct (Host_parse host) as [h|] eqn:E; [|done]. apply Host_parse_Some in E as [-> Hne].
  cbn. intros [= <- Hd]. apply decide_host_allowed in Hd as (? & ? & Hl). split_and!; [done..|].
  destruct Hl as [Hl|Hl]; [left; by apply andb_true_iff in Hl as [Hl _]|by right].
Qed.

Lemma entries_canonical c perm :
  canonical_config c → ∀ e, e ∈ default [] (domain_entries c perm) → ∃ p, canonical e p.
Proof.
  intros Hc e He. apply elem_of_domain_entries in He as (ds & Ed & Hb).
  assert (∃ q, mk_entry e q ∈ ds) as [q Hq].
  { clear Ed. induction ds as [|x ds IH] using rev_ind; [done|]. rewrite best_permission_snoc in Hb.
    case_decide as Hx.
    - exists (permission x). destruct x as [px qx]. simpl in *. subst. set_solver.
    - destruct (IH Hb) as [q Hq]. exists q. set_solver. }
  apply (Hc (mk_entry e q)). by rewrite Ed.
Qed.

(** The allowed host is covered by an entry of the allowlist, and by no entry of the denylist. *)
Lemma allowed_host_covered lookup host port st st' :
  StateOk policy st → canonical_config (config st) →
  host_blocked policy lookup (Ok None) host port st = (st', Ok Allowed) →
  ∃ e, e ∈ default [] (allowed_domains (config st)) ∧ covers_host (parse_for_constraints e) (normalize_host host).
Proof.
  intros Hok Hcan (_ & _ & _ & Ha & _)%host_blocked_allowed. apply matches_forms in Ha as (f & Hf & Hm).
  destruct (compiled_match_covered _ _ _ _ (ok_allow _ _ Hok) (entries_canonical _ _ Hcan) Hm) as (e & He & Hcov).
  rewrite (forms_lower _ _ Hf) in Hcov. exists e. split; [done|]. by exists f.
Qed.

Lemma allowed_host_not_denied lookup host port st st' e p :
  StateOk policy st → canonical e p → e ∈ default [] (denied_domains (config st)) →
  host_blocked policy lookup (Ok None) host port st = (st', Ok Allowed) →
  ∀ f, f ∈ forms (normalize_host host) → head f ≠ Some DOT → ¬ covers p f.
Proof.
  intros Hok Hp He (_ & _ & Hd & _)%host_blocked_allowed f Hf Hh Hcov.
  apply not_true_iff_false in Hd. apply Hd, matches_forms. exists f. split; [done|].
  eapply compiled_covered_match; [apply (ok_deny _ _ Hok)|done..|]. by rewrite (forms_lower _ _ Hf).
Qed.


(** * Managed constraints *)
Lemma canonical_lower e p : canonical e p → to_ascii_lowercase e = e.
Proof.
  intros (d & Hd & _ & Hcase). pose proof (plain_lower _ Hd) as Hl.
  destruct Hcase as [[-> _]|[[-> _]|[-> _]]]; [done|..]; unfold to_ascii_lowercase in *; rewrite fmap_app, Hl; done.
Qed.

Lemma elem_of_lower_set (l : list str) s : s ∈ lower_set l ↔ ∃ e, e ∈ l ∧ to_ascii_lowercase e = s.
Proof. unfold lower_set. rewrite elem_of_list_to_set, list_elem_of_fmap. naive_solver. Qed.

Lemma managed_allowlist_entry k managed allowed denied e :
  validate_allowed_domains k allowed denied = Ok tt →
  k_allowed_domains k = Some managed → k_allowlist_expansion_enabled k = None → e ∈ allowed →
  ∃ m, m ∈ managed ∧ allows (parse_for_constraints m) (parse_for_constraints e) = true.
Proof.
  unfold validate_allowed_domains. intros Hv Hk Hx He. rewrite Hk, bind_unit_ok, Hx, validate_true in Hv.
  destruct Hv as [_ Hv]. rewrite forallb_forall in Hv. apply list_elem_of_In in He. apply Hv, existsb_exists in He.
  destruct He as (p & Hp & Hall). apply list_elem_of_In, list_elem_of_fmap in Hp as (m & -> & Hm). by exists m.
Qed.

Lemma managed_denylist_entry k managed denied m p :
  validate_denied_domains k denied = Ok tt → k_denied_domains k = Some managed → m ∈ managed → canonical m p →
  (∀ e, e ∈ denied → ∃ q, canonical e q) → m ∈ denied.
Proof.
  unfold validate_denied_domains. intros Hv Hk Hm Hp Hcan. rewrite Hk, bind_unit_ok in Hv. destruct Hv as [_ Hv].
  assert (lower_set managed ⊆ lower_set denied) as Hsub.
  { destruct (k_denylist_expansion_enabled k) as [[]|]; apply validate_true, bool_decide_eq_true in Hv; set_solver. }
  assert (m ∈ lower_set managed) as Hin.
  { apply elem_of_lower_set. exists m. split; [done|]. by eapply canonical_lower. }
  apply Hsub, elem_of_lower_set in Hin as (e & He & E). destruct (Hcan e He) as [q Hq].
  by rewrite (canonical_lower _ _ Hq) in E; subst.
Qed.

End Safety.

(** * An example

    A managed allowlist and a managed denial, with the user's lists within them. *)
Definition no_hooks : HookLibs := {|
  HeaderName_from_bytes _ := None;
  HeaderValue_from_str _ := None;
  form_urlencoded_parse _ := [];
  Path_is_absolute _ := false;
  AbsolutePathBuf_from_absolute_path _ := None;
  env_var _ := None;
  read_to_string _ := None;
|}.
Definition no_mitm : MitmLib := {| mitm_ca_available := false |}.

Definition listed_config (ds : NetworkDomainPermissions) : NetworkProxyConfig :=
  mk_config true default_proxy_url true default_socks_url true true false None Full (Some ds) None None
    false false false ∅ None ∅ false [].

Definition example_entries : NetworkDomainPermissions :=
  [mk_entry (lit "*.example.com") PermAllow; mk_entry (lit "bad.example.com") PermDeny].

Definition example_constraints : NetworkProxyConstraints :=
  mk_constraints None None None None None (Some [lit "**.example.com"]) None (Some [lit "bad.example.com"]) None None None.

Definition example_state : ConfigState :=
  mk_state PlatformLinux (listed_config example_entries) false [lit "?*.example.com"] [lit "bad.example.com"] None ∅
    example_constraints [] 0.

Definition example_dns : str → N → option (list IpAddr) := λ _ _, Some [V4 (from_octets 8 8 8 8)].

Lemma example_state_ok : @StateOk plain_net_libs no_hooks DefaultFalse example_state.
Proof.
  constructor; [apply validate_policy_ok; vm_compute; reflexivity|done..|apply Nat.le_0_l|apply N.le_0_l].
Qed.

Lemma example_canonical : @canonical_config plain_net_libs (config example_state).
Proof.
  intros e He. change (e ∈ example_entries) in He. unfold example_entries in He.
  rewrite !elem_of_cons, elem_of_nil in He. destruct He as [->|[->|[]]].
  - exists (SubdomainsOnly (lit "example.com")), (lit "example.com"). split_and!; [done..|]. by right; left.
  - exists (Exact (lit "bad.example.com")), (lit "bad.example.com"). split_and!; [done..|]. by left.
Qed.

Lemma example_allowed :
  @host_blocked plain_net_libs DefaultFalse example_dns (Ok None) (lit "API.example.com:443") 443 example_state
  = (example_state, Ok Allowed).
Proof. vm_compute. reflexivity. Qed.


