(* ===== verification/NetRequests.v ===== *)
(** Requests and connections: what a decider may override, when a connection to a local address
    is opened, and what an update of the lists does to later requests. *)
From stdpp Require Import base list sets numbers strings gmap relations.
From S2P Require Import Prelude RustStr PathConv NetIp NetPolicy NetPolicyFacts NetConfig NetConfigFacts MitmHook NetState NetStateFacts NetStateSafety.

Section Requests.
Context `{NL : NetLibs, HL : HookLibs, ML : MitmLib} (policy : LocalBindingPolicy).
Abbreviation Dns := (str → N → option (list IpAddr)).

(** * Requests *)
Lemma evaluate_host_policy_inv (lookup : Dns) r a decider req st st' d ev :
  evaluate_host_policy policy lookup r a decider req st = (st', Ok (d, ev)) →
  ∃ hd o, host_blocked policy lookup r (pr_host req) (pr_port req) st = (st', Ok hd)
    ∧ evaluate_decision a decider req hd = (d, o) ∧ ev = audit_event req d o.
Proof.
  unfold evaluate_host_policy, se_bind. destruct (host_blocked _ _ _ _ _ st) as [s [hd|e]]; [|done].
  destruct (evaluate_decision a decider req hd) as [d' o] eqn:E. intros [= <- <- <-]. eauto.
Qed.

(** a denied host and a blocked local host stay denied by the baseline policy whatever the
    decider; only a host that is merely not on the allowlist is put to the decider, with the
    identity of the execution filled in, and the decision audited is the one taken, marked as
    an override exactly when the decider allowed it. *)
Theorem decider_overrides_only_unlisted (lookup : Dns) r a decider req st st' d ev :
  evaluate_host_policy policy lookup r a decider req st = (st', Ok (d, ev)) →
  ∃ hd, host_blocked policy lookup r (pr_host req) (pr_port req) st = (st', Ok hd)
  ∧ d = match hd, decider with
        | Allowed, _ => Allow
        | Blocked NotAllowed, Some decide => map_decider_decision (decide (decider_request a req))
        | Blocked reason, _ => Deny (reason_str reason) BaselinePolicy PolicyDeny
        end
  ∧ (ae_policy_override ev = true ↔ d = Allow ∧ hd = Blocked NotAllowed)
  ∧ (ae_decision ev = lit "allow" ↔ d = Allow)
  ∧ ae_host ev = pr_host req ∧ ae_port ev = pr_port req.
Proof.
  intros (hd & o & Hb & He & ->)%evaluate_host_policy_inv. exists hd. split; [done|].
  unfold evaluate_decision in He.
  destruct hd as [|[| |]]; [|injection He as <- <-; vm_compute; naive_solver| |injection He as <- <-; vm_compute; naive_solver].
  - injection He as <- <-. unfold audit_event. simpl. naive_solver.
  - destruct decider as [decide|]; [|injection He as <- <-; vm_compute; naive_solver].
    injection He as <- <-. split; [done|].
    destruct (map_decider_decision _) as [|reason source dec]; unfold audit_event; simpl; [naive_solver|].
    destruct dec; vm_compute; naive_solver.
Qed.

(** * Connections *)
Lemma connect_permitted_inv (lookup : Dns) target port addr st st' :
  connect_permitted policy lookup (Ok None) (Ok None) target port addr st = (st', Ok true) →
  is_non_public_ip addr = true → resolve policy (config st) = false →
  target_matches_non_public_addr target addr = true
  ∧ host_blocked policy lookup (Ok None) (target_text target) port st = (st', Ok Allowed).
Proof.
  unfold connect_permitted. intros Hc Hn Hr. rewrite Hn in Hc.
  unfold allows_non_public_target, state_allow_local_binding, se_bind in Hc. cbn [reload_if_needed se_get se_ret] in Hc.
  rewrite Hr in Hc. destruct (target_matches_non_public_addr target addr); [|done]. simpl in Hc. split; [done|].
  destruct (host_blocked _ _ _ _ _ st) as [s [hd|e]]; [|done]. injection Hc as <- Hd. by case_bool_decide; subst.
Qed.

(** A name that is [localhost] up to case and trailing dots. *)
Lemma localhost_char c d : to_ascii_lowercase_char c = d → d ∈ lit "localhost" → is_whitespace c = false ∧ c ≠ COLON ∧ c ≠ 91%N.
Proof.
  unfold to_ascii_lowercase_char, is_ascii_uppercase. intros E Hd.
  assert (97 ≤ d ≤ 122)%N.
  { change (lit "localhost") with [108; 111; 99; 97; 108; 104; 111; 115; 116]%N in Hd.
    rewrite !elem_of_cons, elem_of_nil in Hd. lia. }
  assert (65 ≤ c ≤ 90 ∨ 97 ≤ c ≤ 122)%N as Hc.
  { destruct ((65 <=? c)%N && (c <=? 90)%N) eqn:Eu; [rewrite andb_true_iff, !N.leb_le in Eu|]; lia. }
  split; [|unfold COLON; lia]. apply not_true_is_false. unfold is_whitespace.
  rewrite !orb_true_iff, !andb_true_iff, !N.leb_le, !N.eqb_eq. lia.
Qed.

Lemma normalize_localhost name : is_localhost_name name = true → normalize_host name = lit "localhost".
Proof.
  unfold is_localhost_name, eq_ignore_ascii_case. rewrite bool_decide_eq_true.
  change (to_ascii_lowercase (lit "localhost")) with (lit "localhost"). intros E.
  destruct (trim_end_matches_prefix (N.eqb DOT) name) as (w & Hw & Hdots). fold (trim_end_dots name) in Hw.
  assert (Forall (λ c, is_whitespace c = false ∧ c ≠ COLON ∧ c ≠ 91%N) name) as Hname.
  { rewrite Hw. apply Forall_app. split.
    - rewrite Forall_forall. intros c Hc. eapply localhost_char; [done|]. rewrite <- E.
      unfold to_ascii_lowercase. by apply list_elem_of_fmap_2.
    - eapply Forall_impl; [done|]. intros c Hc%Is_true_true%N.eqb_eq. by subst. }
  assert (∀ c, (is_whitespace c = true ∨ c = COLON ∨ c = 91%N) → c ∉ name) as Habs.
  { intros c Hc Hin. rewrite Forall_forall in Hname. destruct (Hname _ Hin) as (? & ? & ?). naive_solver congruence. }
  unfold normalize_host. rewrite trim_no_ws by (eapply Forall_impl; [done|naive_solver]).
  change (lit "[") with [91%N]. rewrite starts_with_absent, count_char_absent by (apply Habs; auto). simpl.
  unfold normalize_dns_host_or_ip_literal.
  assert (trim_end_dots (to_ascii_lowercase name) = lit "localhost") as ->; [|by vm_compute].
  rewrite Hw. unfold to_ascii_lowercase in *. rewrite fmap_app, E.
  assert (to_ascii_lowercase_char <$> w = w) as ->.
  { apply to_ascii_lowercase_id. eapply Forall_impl; [done|]. intros c Hc%Is_true_true%N.eqb_eq. by subst. }
  unfold trim_end_dots, trim_end_matches. rewrite reverse_app.
  rewrite trim_start_matches_app by by apply Forall_reverse. by vm_compute.
Qed.

(** C24: without local binding, a connection to a non-public address is opened only when the
    target itself is that address, or is [localhost] and the address a loopback one, and the
    allowlist names the target without wildcards: a public name that resolves, now or on a
    second lookup, to a private address does not reach it. The text of an address target reads
    back as the address. *)
Theorem private_connection_needs_listing (lookup : Dns) target port addr st st' :
  connect_permitted policy lookup (Ok None) (Ok None) target port addr st = (st', Ok true) →
  is_non_public_ip addr = true →
  (∀ ip text, target = Address ip text → parse_ip (normalize_host text) = Some ip) →
  resolve policy (config st) = true
  ∨ (target_matches_non_public_addr target addr = true
     ∧ ∃ e, e ∈ default [] (allowed_domains (config st)) ∧ names e (normalize_host (target_text target))).
Proof.
  intros Hc Hn Htext. destruct (resolve policy (config st)) eqn:Hr; [by left|right].
  destruct (connect_permitted_inv _ _ _ _ _ _ Hc Hn Hr) as [Ht Hb]. split; [done|].
  apply host_blocked_allowed in Hb as (_ & _ & _ & _ & [Hl|[[_ Hl]|[Hlit Hl]]]); [congruence|done|exfalso].
  destruct target as [ip text|name]; simpl in *.
  - apply bool_decide_eq_true in Ht as ->. unfold public_addresses in Hl. rewrite (Htext _ _ eq_refl) in Hl. congruence.
  - apply andb_true_iff in Ht as [Ht _]. rewrite (normalize_localhost _ Ht) in Hlit. by vm_compute in Hlit.
Qed.

(** * Updates *)
Lemma trim_idemp s : trim (trim s) = trim s.
Proof.
  apply trim_id; [|apply trim_end_no_trailing_ws].
  unfold trim. destruct (trim_end_matches_prefix is_whitespace (trim_start s)) as (w & E & _).
  pose proof (trim_start_no_leading_ws s) as H. unfold trim_end.
  destruct (trim_end_matches is_whitespace (trim_start s)) as [|c t]; [done|]. rewrite E in H. done.
Qed.

Lemma normalize_host_trim s : normalize_host (trim s) = normalize_host s.
Proof. unfold normalize_host. by rewrite trim_idemp. Qed.

(** Normalization keeps a leading star. *)
Lemma normalize_dns_star s : head s = Some STAR → head (normalize_dns_host_or_ip_literal s) = Some STAR.
Proof.
  destruct s as [|c s]; [done|]. intros [= ->]. unfold normalize_dns_host_or_ip_literal.
  assert (∃ t, trim_end_dots (to_ascii_lowercase (STAR :: s)) = STAR :: t) as [t ->].
  { unfold to_ascii_lowercase. rewrite fmap_cons. change (to_ascii_lowercase_char STAR) with STAR.
    destruct (trim_end_matches_prefix (N.eqb DOT) (STAR :: (to_ascii_lowercase_char <$> s))) as (w & E & Hw).
    unfold trim_end_dots. destruct (trim_end_matches _ _) as [|c t]; [|simplify_list_eq; by eexists].
    simpl in E. subst w. by inversion Hw. }
  unfold normalize_ip_literal. destruct (is_ip (STAR :: t)); [done|].
  assert (∀ pat ip sc, split_once_str (STAR :: t) pat = Some (ip, sc) → is_ip ip = true → head ip = Some STAR) as Hip.
  { intros pat ip sc. unfold split_once_str. destruct (find _ pat) as [[|i]|]; simpl; [|by intros [= <- _]|done].
    intros [= <- _]. done. }
  destruct (split_once_str (STAR :: t) (lit "%25")) as [[ip sc]|] eqn:E1;
    [destruct (is_ip ip) eqn:Ei; [specialize (Hip _ _ _ E1 Ei); by destruct ip|]|];
    (destruct (split_once_str (STAR :: t) (lit "%")) as [[ip' sc']|] eqn:E2; [|done]);
    (destruct (is_ip ip') eqn:Ei'; [specialize (Hip _ _ _ E2 Ei'); by destruct ip'|done]).
Qed.

Lemma normalize_host_star s : head (trim s) = Some STAR → head (normalize_host s) = Some STAR.
Proof.
  unfold normalize_host. destruct (trim s) as [|c t]; [done|]. intros [= ->].
  change (starts_with (STAR :: t) (lit "[")) with false.
  destruct (_ =? 1); apply normalize_dns_star; [|done].
  unfold before_colon. cbn [split_char]. change (STAR =? COLON)%N with false. by destruct (split_char COLON t).
Qed.

(** An entry whose normalized form is a plain domain stands for that domain. *)
Lemma plain_entry_expand e h :
  plain_domain h = true → normalize_host e = h → expand_domain_pattern (normalize_pattern e) = [h].
Proof.
  intros Hh He.
  assert (head (trim e) ≠ Some STAR) as Hstar.
  { intros E%normalize_host_star. rewrite He in E. destruct h as [|c h]; [done|]. injection E as ->.
    by apply plain_domain_true in Hh as (_ & [[=] _]%Forall_cons & _). }
  assert (∀ p, strip_prefix (trim e) (STAR :: p) = None) as Hstrip.
  { intros p. apply strip_prefix_None. intros [k E]. by rewrite E in Hstar. }
  assert (normalize_pattern e = h) as ->.
  { unfold normalize_pattern. rewrite bool_decide_eq_false_2 by (intros E; by rewrite E in Hstar).
    change (lit "**.") with (STAR :: lit "*."). change (lit "*.") with (STAR :: lit "."). rewrite !Hstrip. simpl.
    by rewrite normalize_host_trim. }
  unfold expand_domain_pattern, DomainPattern_parse. rewrite (plain_trim _ Hh), (plain_nonempty _ Hh).
  change (lit "**.") with (STAR :: lit "*."). change (lit "*.") with (STAR :: lit ".").
  by rewrite !(strip_star_plain _ Hh).
Qed.

Lemma listed_true (l : list str) h :
  existsb (λ entry, bool_decide (normalize_host entry = h)) l = true ↔ ∃ e, e ∈ l ∧ normalize_host e = h.
Proof.
  rewrite existsb_exists. setoid_rewrite <- list_elem_of_In. setoid_rewrite bool_decide_eq_true. done.
Qed.

(** A prepared update that lists the host, and a host that is already listed. *)
Lemma prepare_domain_lists target h st p :
  StateOk policy st → prepare_domain policy target h st = Ok (Some p) →
  mk_entry h (kind_permission target) ∈ default [] (cfg_domains (config (pending_state p))).
Proof.
  intros Hok. unfold prepare_domain. destruct (_ && _); [done|].
  destruct (map_err (ConstrainedByManagedConfig _) _) as [[]|] eqn:Ev; simpl; [|done].
  apply map_err_unit_ok, validate_policy_ok in Ev.
  destruct (build_config_state _ _ _) as [new|] eqn:Eb; simpl; [|done]. intros [= <-]. simpl.
  destruct (built_state_ok _ _ _ _ _ Ev (ok_broker _ _ Hok) Eb) as (_ & -> & _).
  apply upsert_entries. by left.
Qed.

Lemma prepare_domain_listed target h st :
  prepare_domain policy target h st = Ok None → ∃ e, e ∈ kind_entries target (config st) ∧ normalize_host e = h.
Proof.
  unfold prepare_domain. destruct (_ && _) eqn:E.
  - intros _. apply andb_true_iff in E as [E _]. by apply listed_true in E.
  - destruct (map_err (ConstrainedByManagedConfig _) _); simpl; [|done]. by destruct (build_config_state _ _ _).
Qed.

(** Turns in which the reloader and the other tasks leave good states. *)
Definition good_turn (turn : Reload * (ConfigState → ConfigState)) : Prop :=
  (∀ new, turn.1 = Ok (Some new) → StateOk policy new) ∧ (∀ st, StateOk policy st → StateOk policy (turn.2 st)).

Lemma reload_ok r st st' u :
  (∀ new, r = Ok (Some new) → StateOk policy new) → StateOk policy st →
  reload_if_needed r st = (st', Ok u) → StateOk policy st'.
Proof.
  intros Hr Hst. unfold reload_if_needed. destruct r as [[new|]|]; [|by intros [= <-]|done].
  intros [= <- _]. apply set_blocked_ok; [by apply Hr|apply Hst..].
Qed.

(** A finished denial leaves a good state that lists the host. *)
Lemma denial_listed h turns st st' :
  normalize_host h = h → Forall good_turn turns → StateOk policy st →
  update_domain_loop policy h ListDeny turns st = (st', Ok true) →
  StateOk policy st' ∧ ∃ e, e ∈ default [] (denied_domains (config st')) ∧ normalize_host e = h.
Proof.
  intros Hn Hts. revert st. induction Hts as [|[r others] turns [Hr Ho] _ IH]; intros st Hok; [done|].
  cbn [update_domain_loop]. unfold se_bind, se_get, se_lift, se_modify, se_put.
  destruct (reload_if_needed r st) as [st1 [u|]] eqn:Er; [|done].
  assert (StateOk policy st1) as Hok1 by by eapply reload_ok.
  destruct (prepare_domain policy ListDeny h st1) as [[p|]|] eqn:Ep; [..|done].
  - destruct (commit_domain p (others st1)) as [st2|] eqn:Ec; [|by apply IH, Ho].
    unfold commit_domain in Ec. destruct (_ && _); [|done]. injection Ec as <-. intros [= <-].
    split; [by eapply prepare_domain_ok|]. exists h. split; [|done].
    apply elem_of_denied_domains. by apply (prepare_domain_lists ListDeny _ _ _ Hok1).
  - intros [= <-]. split; [done|]. by apply prepare_domain_listed in Ep.
Qed.

(** once a plain host has been added to the denylist, every later request to it is blocked
    as denied, on any port and whatever it resolves to, whether it was listed before, allowed
    before or new, and whatever reloads and other updates ran while the addition was under
    way. *)
Theorem added_denial_blocks `{!GlobLaws} (lookup : Dns) host h port turns st st' :
  StateOk policy st → Forall good_turn turns → Host_parse host = Some h → plain_domain h = true →
  add_denied_domain policy host turns st = (st', Ok true) →
  host_blocked policy lookup (Ok None) host port st' = (st', Ok (Blocked Denied)).
Proof.
  intros Hok Hts Hh Hp. unfold add_denied_domain, update_domain_list. rewrite Hh. intros Hadd.
  destruct (denial_listed _ _ _ _ (normalize_host_plain _ Hp) Hts Hok Hadd) as (Hok' & e & He & Hn).
  unfold host_blocked, host_blocked_with_local_binding, se_bind. cbn [reload_if_needed se_get]. rewrite Hh.
  unfold se_ret. do 2 f_equal. unfold decide_host.
  assert (globset_matches_host_or_unscoped (deny_set st') h = true) as ->; [|done].
  unfold globset_matches_host_or_unscoped. apply orb_true_iff. left.
  apply (compile_match _ _ _ _ (ok_deny _ _ Hok')). exists e, h. split_and!; [done| |].
  - rewrite (plain_entry_expand _ _ Hp Hn). set_solver.
  - apply glob_literal; [done|]. by apply plain_lower.
Qed.

(** * Termination of the update loops

    What an update relies on is untouched in a quiet turn. *)
Definition quiet (others : ConfigState → ConfigState) : Prop :=
  ∀ st, constraints (others st) = constraints st ∧ config (others st) = config st
    ∧ executor_os (others st) = executor_os st.

Lemma quiet_commit_domain target h st p others :
  quiet others → prepare_domain policy target h st = Ok (Some p) → is_Some (commit_domain p (others st)).
Proof.
  intros Hq. unfold prepare_domain. destruct (_ && _); [done|].
  destruct (map_err (ConstrainedByManagedConfig _) _); simpl; [|done].
  destruct (build_config_state _ _ _); simpl; [|done]. intros [= <-]. unfold commit_domain. simpl.
  destruct (Hq st) as (-> & -> & ->). rewrite !bool_decide_eq_true_2 by done. by eexists.
Qed.

Lemma quiet_commit_mode m st k others :
  quiet others → prepare_mode policy m st = Ok k → is_Some (commit_mode m k (others st)).
Proof.
  intros Hq. unfold prepare_mode. destruct (map_err _ _); simpl; [|done]. intros [= <-].
  unfold commit_mode. destruct (Hq st) as (-> & _). rewrite bool_decide_eq_true_2 by done. by eexists.
Qed.

(** C40: the retry loops of [set_network_mode] and [update_domain_list] end: after any number of
    turns disturbed by others, at the latest the first turn in which nobody changes the
    configuration, the constraints or the platform returns, with success or an error. *)
Theorem update_loops_terminate turns r others rest st :
  quiet others →
  (∀ m, (set_network_mode policy m (turns ++ (r, others) :: rest) st).2 ≠ Ok false)
  ∧ (∀ host target, (update_domain_list policy host target (turns ++ (r, others) :: rest) st).2 ≠ Ok false).
Proof.
  intros Hq. split; [intros m|intros host target; unfold update_domain_list; destruct (Host_parse host) as [h|]; [|done]].
  - revert st. induction turns as [|[r' o'] turns IH]; intros st;
      cbn [app set_network_mode]; unfold se_bind, se_get, se_lift, se_modify, se_put;
      (destruct (reload_if_needed _ st) as [st1 [[]|]]; [|done]);
      (destruct (prepare_mode policy m st1) as [k|] eqn:Ep; [|done]).
    + by destruct (quiet_commit_mode _ _ _ _ Hq Ep) as [st2 ->].
    + destruct (commit_mode m k (o' st1)); [done|apply IH].
  - revert st. induction turns as [|[r' o'] turns IH]; intros st;
      cbn [app update_domain_loop]; unfold se_bind, se_get, se_lift, se_modify, se_put;
      (destruct (reload_if_needed _ st) as [st1 [[]|]]; [|done]);
      (destruct (prepare_domain policy target h st1) as [[p|]|] eqn:Ep; [|done..]).
    + by destruct (quiet_commit_domain _ _ _ _ _ Hq Ep) as [st2 ->].
    + destruct (commit_domain p (o' st1)); [done|apply IH].
Qed.
End Requests.

(** * Two defects *)
Section Defects.
Context `{NL : NetLibs, HL : HookLibs, ML : MitmLib} (policy : LocalBindingPolicy).

(** an update of the lists that waits for the write lock checks that the configuration is
    still the one it read, but not the buffer of blocked requests, and then stores the buffer it
    read: a request recorded in between is dropped from the buffer and from the total. *)
Theorem list_update_loses_blocked target host st p id entry st1 e :
  prepare_domain policy target host st = Ok (Some p) →
  record_blocked id (Ok None) entry st = (st1, Ok e) →
  ∃ st2, commit_domain p st1 = Some st2 ∧ blocked st2 = blocked st ∧ blocked_total st2 = blocked_total st.
Proof.
  unfold prepare_domain. destruct (_ && _); [done|].
  destruct (map_err (ConstrainedByManagedConfig _) _) as [[]|]; simpl; [|done].
  destruct (build_config_state _ _ _) as [new|]; simpl; [|done]. intros [= <-] [= <- <-].
  unfold commit_domain. simpl. rewrite !bool_decide_eq_true_2 by done. by eexists.
Qed.

(** Managed settings that only list allowed domains. *)
Definition managed_allowlist (l : list str) : NetworkProxyConstraints :=
  mk_constraints None None None None None (Some l) None None None None None.

(** entries that the URL parser refuses are all compared as the empty domain: a managed
    allowlist with the literal [[::1]] admits a user entry with a port, and that entry is then
    compiled without its port and lets the host through. *)
Theorem unparsed_entries_escape_managed_allowlist `{!GlobLaws} set :
  UrlHost_parse (lit "::1") = None → UrlHost_parse (lit "evil.com:443") = None →
  compile_allowlist_globset [lit "evil.com:443"] = Ok set →
  validate_policy_against_constraints (listed_config [mk_entry (lit "evil.com:443") PermAllow])
    (managed_allowlist [lit "[::1]"]) = Ok tt
  ∧ globset_is_match set (lit "evil.com") = true.
Proof.
  intros H1 H2 Hset. split.
  - apply validate_policy_ok. constructor; try reflexivity.
    unfold validate_allowed_domains, managed_allowlist. cbn [k_allowed_domains k_allowlist_expansion_enabled].
    apply bind_unit_ok. split; [reflexivity|]. apply validate_true.
    assert (parse_for_constraints (lit "[::1]") = Exact []) as E1.
    { change (Exact (default [] (UrlHost_parse (lit "::1"))) = Exact []). by rewrite H1. }
    assert (parse_for_constraints (lit "evil.com:443") = Exact []) as E2.
    { change (Exact (default [] (UrlHost_parse (lit "evil.com:443"))) = Exact []). by rewrite H2. }
    change (default [] (allowed_domains _)) with [lit "evil.com:443"]. rewrite fmap_cons, E1.
    cbn [forallb]. by rewrite E2.
  - apply (compile_match _ _ _ _ Hset). exists (lit "evil.com:443"), (lit "evil.com"). split_and!; [set_solver| |].
    + rewrite (plain_entry_expand _ (lit "evil.com")) by reflexivity. set_solver.
    + by apply glob_literal.
Qed.
End Defects.

(** * Examples *)
Definition blocked_entry : BlockedRequest :=
  mk_blocked_request (lit "evil.com") (lit "not_allowed") None None None (lit "http") None None None (Some 80%N) 0.

Lemma recorded_step :
  @net_step plain_net_libs no_hooks no_mitm DefaultFalse (mk_system example_state [] [])
    (mk_system (push_blocked (set_execution_id (Some (lit "run")) blocked_entry) example_state) [] []).
Proof.
  apply (step_record _ _ _ _ (Some (lit "run")) blocked_entry (set_execution_id (Some (lit "run")) blocked_entry)).
  reflexivity.
Qed.


Definition unlisted_request (host : str) : NetworkPolicyRequest :=
  mk_policy_request Http host 80 None None None None None None.

(** A decider that allows everything. *)
Definition lenient : option (NetworkPolicyRequest → NetworkDecision) := Some (λ _, Allow).

Definition evaluate_example (host : str) :=
  @evaluate_host_policy plain_net_libs DefaultFalse example_dns (Ok None) (mk_attribution None None) lenient
    (unlisted_request host) example_state.

Lemma decider_overrides_only_unlisted_witness :
  ∃ ev, evaluate_example (lit "bad.example.com") = (example_state, Ok (Deny (lit "denied") BaselinePolicy PolicyDeny, ev))
    ∧ (ae_decision ev = lit "allow" → False).
Proof.
  eexists. split; [vm_compute; reflexivity|].
  destruct (@decider_overrides_only_unlisted plain_net_libs DefaultFalse example_dns (Ok None) (mk_attribution None None)
    lenient (unlisted_request (lit "bad.example.com")) example_state example_state
    (Deny (lit "denied") BaselinePolicy PolicyDeny) _ ltac:(vm_compute; reflexivity)) as (hd & _ & _ & _ & H & _).
  intros E. apply H in E. discriminate E.
Defined.

(** A loopback literal that the allowlist names. *)
Definition local_state : ConfigState :=
  mk_state PlatformLinux (listed_config [mk_entry (lit "127.0.0.1") PermAllow]) false [lit "127.0.0.1"] [] None ∅ no_constraints [] 0.

Lemma private_connection_needs_listing_witness :
  target_matches_non_public_addr (Address LOOPBACK (lit "127.0.0.1")) LOOPBACK = true
  ∧ ∃ e, e ∈ default [] (allowed_domains (config local_state)) ∧ names e (normalize_host (lit "127.0.0.1")).
Proof.
  destruct (@private_connection_needs_listing plain_net_libs DefaultFalse example_dns
    (Address LOOPBACK (lit "127.0.0.1")) 80 LOOPBACK local_state local_state) as [H|H];
    [vm_compute; reflexivity|vm_compute; reflexivity|intros ip text [= <- <-]; vm_compute; reflexivity|vm_compute in H; discriminate|exact H].
Defined.

(** A host of the allowlist is denied. *)
Definition one_turn : list (Reload * (ConfigState → ConfigState)) := [(Ok None, id)].

Definition denied_state : ConfigState :=
  (@add_denied_domain plain_net_libs no_hooks no_mitm DefaultFalse (lit "API.example.com") one_turn example_state).1.

Lemma denied_state_added :
  @add_denied_domain plain_net_libs no_hooks no_mitm DefaultFalse (lit "API.example.com") one_turn example_state
  = (denied_state, Ok true).
Proof. vm_compute. reflexivity. Qed.

Lemma one_turn_good : Forall (@good_turn plain_net_libs no_hooks DefaultFalse) one_turn.
Proof. apply Forall_singleton. by split. Qed.

Lemma added_denial_blocks_witness :
  @host_blocked plain_net_libs DefaultFalse example_dns (Ok None) (lit "API.example.com") 443 denied_state
  = (denied_state, Ok (Blocked Denied)).
Proof.
  exact (@added_denial_blocks plain_net_libs no_hooks no_mitm DefaultFalse plain_net_libs_laws example_dns
    (lit "API.example.com") (lit "api.example.com") 443 one_turn example_state denied_state example_state_ok
    one_turn_good eq_refl eq_refl denied_state_added).
Defined.

(** Recording a blocked request does not disturb an update. *)
Lemma update_loops_terminate_witness :
  (@set_network_mode plain_net_libs no_hooks DefaultFalse Limited
     [(Ok None, λ _, local_state); (Ok None, push_blocked blocked_entry)] example_state).2 = Ok true
  ∧ (@set_network_mode plain_net_libs no_hooks DefaultFalse Limited
     [(Ok None, λ _, local_state); (Ok None, push_blocked blocked_entry)] example_state).2 ≠ Ok false.
Proof.
  split; [vm_compute; reflexivity|].
  apply (@update_loops_terminate plain_net_libs no_hooks no_mitm DefaultFalse [(Ok None, λ _, local_state)] (Ok None)
    (push_blocked blocked_entry) [] example_state).
  intros st. split_and!; reflexivity.
Defined.

Definition pending_denial : PendingUpdate :=
  mk_pending (config example_state) (constraints example_state) (executor_os example_state) denied_state.

Lemma pending_denial_prepared :
  @prepare_domain plain_net_libs no_hooks no_mitm DefaultFalse ListDeny (lit "api.example.com") example_state
  = Ok (Some pending_denial).
Proof. vm_compute. reflexivity. Qed.

Lemma list_update_loses_blocked_witness :
  ∃ st2, commit_domain pending_denial (push_blocked (set_execution_id None blocked_entry) example_state) = Some st2
    ∧ blocked st2 = [] ∧ blocked_total st2 = 0%N.
Proof.
  exact (@list_update_loses_blocked plain_net_libs no_hooks no_mitm DefaultFalse ListDeny (lit "api.example.com")
    example_state pending_denial None blocked_entry _ _ pending_denial_prepared eq_refl).
Defined.

Lemma unparsed_entries_escape_managed_allowlist_witness :
  @validate_policy_against_constraints plain_net_libs no_hooks
    (listed_config [mk_entry (lit "evil.com:443") PermAllow]) (managed_allowlist [lit "[::1]"]) = Ok tt
  ∧ @globset_is_match plain_net_libs [lit "evil.com"] (lit "evil.com") = true.
Proof.
  exact (@unparsed_entries_escape_managed_allowlist plain_net_libs no_hooks plain_net_libs_laws [lit "evil.com"]
    eq_refl eq_refl eq_refl).
Defined.
