(* ===== verification/HeadTailBuffer.v ===== *)
(** [core/src/unified_exec/head_tail_buffer.rs]: the capped buffer of process output
    that keeps a prefix and a suffix of everything it was given.

    Bytes are natural numbers below 256; the counter of omitted bytes is a [usize] with
    saturating arithmetic. The contract of the buffer is a function of the whole output
    it was given ([summary]); every operation refines it. *)
From stdpp Require Import base list numbers strings pretty.
From S2P Require Import Prelude RustStr.

Abbreviation byte := N.

Record HeadTailBuffer : Type := mkBuffer {
  head : list byte;
  tail : list byte;
  omitted_bytes : N;
}.

Definition empty_buffer : HeadTailBuffer := mkBuffer [] [] 0.

Definition UNIFIED_EXEC_OUTPUT_MAX_BYTES : nat := 1024 * 1024.

Definition format_output_omission_marker (omitted : N) : list byte :=
  lit "... " ++ lit (pretty omitted) ++ lit " bytes omitted ...".

Section Buffer.
(** The const parameter [MAX_BYTES]. *)
Variable MAX_BYTES : nat.

Definition HEAD_BUDGET : nat := MAX_BYTES / 2.
Definition TAIL_BUDGET : nat := MAX_BYTES - HEAD_BUDGET.

Definition retained_bytes (b : HeadTailBuffer) : N :=
  saturating_add (N.of_nat (length (head b))) (N.of_nat (length (tail b))).

Definition total_bytes (b : HeadTailBuffer) : N :=
  saturating_add (retained_bytes b) (omitted_bytes b).

(** [chunk.split_at_checked(n).unwrap_or((chunk, &[]))]. *)
Definition split_at_or_all (n : nat) (chunk : list byte) : list byte * list byte :=
  if n <=? length chunk then (take n chunk, drop n chunk) else (chunk, []).

(** The new buffer and the bytes that did not fit. *)
Definition fill_head (chunk : list byte) (b : HeadTailBuffer) : HeadTailBuffer * list byte :=
  let remaining_head := HEAD_BUDGET - length (head b) in
  let (chunk_head, chunk_tail) := split_at_or_all remaining_head chunk in
  (mkBuffer (head b ++ chunk_head) (tail b) (omitted_bytes b), chunk_tail).

Definition push_tail (chunk : list byte) (b : HeadTailBuffer) : HeadTailBuffer :=
  let remaining_tail := TAIL_BUDGET - length (tail b) in
  let excess_tail := length chunk - remaining_tail in
  let omitted := saturating_add (omitted_bytes b) (N.of_nat excess_tail) in
  if excess_tail <? length (tail b)
  then mkBuffer (head b) (drop excess_tail (tail b) ++ chunk) omitted
  else mkBuffer (head b) (drop (excess_tail - length (tail b)) chunk) omitted.

Definition push_chunk (chunk : list byte) (b : HeadTailBuffer) : HeadTailBuffer :=
  let (b, chunk) := fill_head chunk b in push_tail chunk b.

Definition to_bytes (b : HeadTailBuffer) : list byte := head b ++ tail b.

Definition to_bytes_with_omission_marker (b : HeadTailBuffer) : list byte :=
  if (omitted_bytes b =? 0)%N then to_bytes b
  else head b ++ [LF] ++ format_output_omission_marker (omitted_bytes b) ++ [LF] ++ tail b.

(** [push_buffer]. The source's ring buffer is stored as two slices; where it is split
    depends on its history, so the split point [k] is an argument. *)
Definition push_buffer (k : nat) (src b : HeadTailBuffer) : HeadTailBuffer :=
  let b := mkBuffer (head b) (tail b) (saturating_add (omitted_bytes b) (omitted_bytes src)) in
  let (b, overflow) :=
    if is_empty (head b) then (mkBuffer (head src) (tail b) (omitted_bytes b), [])
    else fill_head (head src) b in
  if length (tail src) =? TAIL_BUDGET then
    mkBuffer (head b) (tail src)
      (saturating_add (saturating_add (omitted_bytes b) (N.of_nat (length (tail b))))
         (N.of_nat (length overflow)))
  else
    let b := push_tail overflow b in
    if is_empty (tail b) then mkBuffer (head b) (tail src) (omitted_bytes b)
    else push_tail (drop k (tail src)) (push_tail (take k (tail src)) b).

(** * The contract *)

(** The last [n] elements. *)
Definition lastn (n : nat) (l : list byte) : list byte := drop (length l - n) l.

(** The summary of an output: its first [HEAD_BUDGET] bytes, the last [TAIL_BUDGET] of
    the others, and how many are left out. *)
Definition summary (data : list byte) : HeadTailBuffer :=
  let others := drop HEAD_BUDGET data in
  mkBuffer (take HEAD_BUDGET data) (lastn TAIL_BUDGET others)
    (saturate (length others - TAIL_BUDGET)).

(** * Lemmas *)

Lemma saturating_add_saturate a b : saturating_add (saturate a) (N.of_nat b) = saturate (a + b).
Proof. unfold saturating_add, saturate. lia. Qed.

Lemma saturating_add_saturate2 a b : saturating_add (saturate a) (saturate b) = saturate (a + b).
Proof. unfold saturating_add, saturate. lia. Qed.

Lemma length_lastn n l : length (lastn n l) = Nat.min n (length l).
Proof. unfold lastn. rewrite length_drop. lia. Qed.

Lemma lastn_all n l : length l ≤ n → lastn n l = l.
Proof. intros H. unfold lastn. by replace (length l - n) with 0 by lia. Qed.

(** Appending to a suffix is appending and taking the suffix. *)
Lemma lastn_lastn_app n l m : lastn n (lastn n l ++ m) = lastn n (l ++ m).
Proof.
  unfold lastn at 1 3. rewrite !length_app, length_lastn. unfold lastn. rewrite !drop_app.
  rewrite drop_drop, length_drop. f_equal; f_equal; lia.
Qed.

Lemma lastn_app_long n l m : n ≤ length m → lastn n (l ++ m) = lastn n m.
Proof.
  intros H. unfold lastn. rewrite length_app, drop_app, (drop_ge l) by lia. simpl. f_equal. lia.
Qed.

Lemma split_at_or_all_eq n chunk : split_at_or_all n chunk = (take n chunk, drop n chunk).
Proof.
  unfold split_at_or_all. destruct (Nat.leb_spec n (length chunk)); [done|].
  by rewrite take_ge, drop_ge by lia.
Qed.

(** [push_tail] appends to the bytes after the head. *)
Lemma push_tail_lastn h others n chunk :
  push_tail chunk (mkBuffer h (lastn TAIL_BUDGET others) (saturate n))
  = mkBuffer h (lastn TAIL_BUDGET (others ++ chunk))
      (saturate (n + (length chunk - (TAIL_BUDGET - length others)))).
Proof.
  unfold push_tail. simpl. rewrite length_lastn, saturating_add_saturate.
  set (T := TAIL_BUDGET). rewrite <- lastn_lastn_app.
  set (t := lastn T others). assert (Ht : length t = Nat.min T (length others)) by apply length_lastn.
  replace (length chunk - (T - Nat.min T (length others)))
    with (length chunk - (T - length others)) by lia.
  set (e := length chunk - (T - length others)).
  assert (He : length (t ++ chunk) - T = e) by (rewrite length_app; lia).
  unfold lastn. rewrite He, drop_app. rewrite <- Ht.
  destruct (Nat.ltb_spec e (length t)).
  - by replace (e - length t) with 0 by lia.
  - by rewrite (drop_ge t) by lia.
Qed.

Lemma take_app_head n (a c : list byte) : take n a ++ take (n - length (take n a)) c = take n (a ++ c).
Proof.
  rewrite take_app, length_take. destruct (decide (length a ≤ n)).
  - by replace (n - (n `min` length a)) with (n - length a) by lia.
  - by replace (n - (n `min` length a)) with 0 by lia; replace (n - length a) with 0 by lia.
Qed.

Lemma drop_app_head n (a c : list byte) : drop n a ++ drop (n - length (take n a)) c = drop n (a ++ c).
Proof.
  rewrite drop_app, length_take. destruct (decide (length a ≤ n)).
  - by replace (n - (n `min` length a)) with (n - length a) by lia.
  - by replace (n - (n `min` length a)) with 0 by lia; replace (n - length a) with 0 by lia.
Qed.

(** Pushing one chunk extends the output. *)
Lemma push_chunk_summary data chunk : push_chunk chunk (summary data) = summary (data ++ chunk).
Proof.
  unfold push_chunk, fill_head, summary. simpl. rewrite split_at_or_all_eq, push_tail_lastn.
  rewrite take_app_head, drop_app_head. f_equal. rewrite <- drop_app_head, length_app. f_equal. lia.
Qed.

Lemma summary_nil : summary [] = empty_buffer.
Proof. unfold summary. rewrite take_nil, drop_nil. unfold lastn. by rewrite drop_nil. Qed.

(** Pushing a later buffer extends the output by that buffer's output. *)
Lemma push_buffer_summary k a b : push_buffer k (summary b) (summary a) = summary (a ++ b).
Proof.
  set (H := HEAD_BUDGET). set (T := TAIL_BUDGET). assert (HT : H ≤ T).
  { unfold T, TAIL_BUDGET, H, HEAD_BUDGET. pose proof (Nat.div_mod_eq MAX_BYTES 2).
    pose proof (Nat.mod_upper_bound MAX_BYTES 2). lia. }
  set (ra := drop H a). set (rb := drop H b).
  set (o := drop (H - length (take H a)) (take H b)).
  (* the state after the head is filled *)
  assert (Hfill : (if is_empty (take H a)
      then (mkBuffer (take H b) (lastn T ra) (saturate (length ra - T + (length rb - T))), [])
      else fill_head (take H b)
        (mkBuffer (take H a) (lastn T ra) (saturate (length ra - T + (length rb - T)))))
    = (mkBuffer (take H (a ++ b)) (lastn T ra) (saturate (length ra - T + (length rb - T))), o)).
  { assert (Hf : take H a ++ take (H - length (take H a)) (take H b) = take H (a ++ b)).
    { rewrite take_take, Nat.min_l by lia. apply take_app_head. }
    destruct (is_empty (take H a)) eqn:Ee.
    - destruct (take H a) eqn:Et; [|done]. simpl in *. rewrite Nat.sub_0_r in Hf. unfold o.
      simpl. rewrite Nat.sub_0_r, drop_ge by (rewrite length_take; lia).
      rewrite take_take, Nat.min_id in Hf. by rewrite Hf.
    - unfold fill_head. simpl. fold H. rewrite split_at_or_all_eq, Hf. done. }
  assert (Hrest : drop H (a ++ b) = ra ++ o ++ rb).
  { rewrite <- drop_app_head. f_equal. rewrite <- (take_drop H b) at 1. rewrite drop_app. fold rb.
    f_equal. destruct (decide (length b ≤ H)).
    - unfold rb. by rewrite (drop_ge b), drop_nil by done.
    - rewrite !length_take. by replace (H - H `min` length a - H `min` length b) with 0 by lia. }
  unfold push_buffer, summary. simpl. fold H T ra rb. rewrite saturating_add_saturate2, Hfill.
  rewrite length_lastn, Hrest, !length_app. simpl.
  destruct (Nat.eqb_spec (T `min` length rb) T) as [Hfull|Hpart].
  - rewrite !saturating_add_saturate, !length_lastn. f_equal.
    + by rewrite (assoc_L (++)), lastn_app_long by lia.
    + f_equal. lia.
  - rewrite (lastn_all T rb) by lia. rewrite push_tail_lastn. simpl. fold T.
    destruct (is_empty (lastn T (ra ++ o))) eqn:Ee.
    + assert (Hl : length (lastn T (ra ++ o)) = 0) by by destruct (lastn T (ra ++ o)).
      rewrite length_lastn, length_app in Hl.
      assert (ra = []) as -> by (apply nil_length_inv; lia).
      assert (o = []) as -> by (apply nil_length_inv; lia). simpl.
      rewrite lastn_all by lia. f_equal. f_equal. lia.
    + rewrite !push_tail_lastn. rewrite <- (assoc_L (++) (ra ++ o)), take_drop, <- (assoc_L (++)).
      f_equal. f_equal. rewrite !length_app, length_take, length_drop. fold T. lia.
Qed.

Lemma lastn_rest_length data :
  length (take HEAD_BUDGET data) + length (lastn TAIL_BUDGET (drop HEAD_BUDGET data))
    + (length (drop HEAD_BUDGET data) - TAIL_BUDGET) = length data.
Proof. rewrite length_take, length_lastn, length_drop. lia. Qed.

(** The buffer of an output that arrives in chunks. *)
Definition collect (chunks : list (list byte)) : HeadTailBuffer :=
  foldl (λ b c, push_chunk c b) empty_buffer chunks.

Lemma collect_summary chunks : collect chunks = summary (concat chunks).
Proof.
  unfold collect. rewrite <- summary_nil. change (concat chunks) with ([] ++ concat chunks).
  generalize ([] : list byte). induction chunks as [|c cs IH]; intros d; simpl; [by rewrite app_nil_r|].
  by rewrite push_chunk_summary, IH, (assoc_L (++)).
Qed.

(** The buffer holds the summary of everything it was given, however the output
    was cut into chunks and collected in intermediate buffers: after any chunks it is
    the summary of their concatenation, and appending the buffer of a later output gives
    the summary of both outputs together, whatever the layout of the later buffer's ring. *)
Theorem buffer_refines_summary (chunks later : list (list byte)) (k : nat) :
  collect chunks = summary (concat chunks)
  ∧ push_buffer k (collect later) (collect chunks) = summary (concat (chunks ++ later)).
Proof. by rewrite !collect_summary, push_buffer_summary, concat_app. Qed.

Lemma budgets_add : HEAD_BUDGET + TAIL_BUDGET = MAX_BYTES.
Proof.
  unfold TAIL_BUDGET, HEAD_BUDGET. pose proof (Nat.Div0.div_le_upper_bound MAX_BYTES 2 MAX_BYTES). lia.
Qed.

Lemma summary_total data : total_bytes (summary data) = saturate (length data).
Proof.
  pose proof (lastn_rest_length data) as Hlen. unfold total_bytes, retained_bytes. simpl.
  unfold saturating_add, saturate. lia.
Qed.

(** An output within the cap is kept whole. *)
Lemma summary_small data : length data ≤ MAX_BYTES → to_bytes_with_omission_marker (summary data) = data.
Proof.
  intros Hd. pose proof budgets_add. unfold to_bytes_with_omission_marker, to_bytes, summary.
  cbn [head tail omitted_bytes].
  rewrite (lastn_all _ (drop HEAD_BUDGET data)) by (rewrite length_drop; lia).
  replace (length (drop HEAD_BUDGET data) - TAIL_BUDGET) with 0 by (rewrite length_drop; lia).
  change (saturate 0) with 0%N. cbn [N.eqb]. apply take_drop.
Qed.

(** A longer output is its head, the omitted middle and its tail. *)
Lemma summary_large data :
  MAX_BYTES < length data →
  ∃ middle, data = take HEAD_BUDGET data ++ middle ++ lastn TAIL_BUDGET data
    ∧ length middle = length data - MAX_BYTES
    ∧ summary data = mkBuffer (take HEAD_BUDGET data) (lastn TAIL_BUDGET data) (saturate (length middle)).
Proof.
  intros Hd. pose proof budgets_add. exists (take (length data - MAX_BYTES) (drop HEAD_BUDGET data)).
  rewrite length_take, length_drop, Nat.min_l by lia. split; [|split; [done|]].
  - rewrite <- (take_drop HEAD_BUDGET data) at 1. f_equal.
    rewrite <- (take_drop (length data - MAX_BYTES) (drop HEAD_BUDGET data)) at 1. f_equal.
    unfold lastn. rewrite drop_drop. f_equal. lia.
  - unfold summary, lastn. rewrite length_drop, drop_drop. f_equal; [|f_equal; lia]. f_equal. lia.
Qed.

(** C38: The cap holds and nothing is lost below it. However an output is cut into chunks, its
    buffer retains at most [MAX_BYTES] bytes, counts every byte up to [usize::MAX], and
    renders an output of at most [MAX_BYTES] bytes unchanged; a longer one as its first
    half-budget, a line with the number of omitted bytes, and its last half-budget. *)
Theorem output_buffer_bounded (chunks : list (list byte)) :
  let data := concat chunks in
  length (to_bytes (collect chunks)) ≤ MAX_BYTES
  ∧ total_bytes (collect chunks) = saturate (length data)
  ∧ (length data ≤ MAX_BYTES → to_bytes_with_omission_marker (collect chunks) = data)
  ∧ (MAX_BYTES < length data →
      ∃ middle, data = take HEAD_BUDGET data ++ middle ++ lastn TAIL_BUDGET data
        ∧ length middle = length data - MAX_BYTES
        ∧ to_bytes_with_omission_marker (collect chunks)
          = take HEAD_BUDGET data ++ [LF]
            ++ format_output_omission_marker (saturate (length middle)) ++ [LF]
            ++ lastn TAIL_BUDGET data).
Proof.
  intros data. rewrite collect_summary. fold data.
  split; [|split; [apply summary_total|split; [apply summary_small|]]].
  - pose proof budgets_add. unfold to_bytes, summary. cbn [head tail].
    rewrite length_app, length_take, length_lastn. lia.
  - intros Hd. destruct (summary_large data Hd) as (middle & Hm & Hl & Hs). exists middle.
    split; [done|]. split; [done|]. rewrite Hs. unfold to_bytes_with_omission_marker.
    cbn [head tail omitted_bytes].
    assert (Hz : (saturate (length middle) =? 0)%N = false); [|by rewrite Hz].
    apply N.eqb_neq. unfold saturate, USIZE_MAX. lia.
Qed.
End Buffer.
