(* ===== verification/Truncate.v ===== *)
(** [utils/string/src/truncate.rs]: cutting the middle out of a text on character
    boundaries. Byte counts are [usize] values; slicing a string inside a character is
    the panic [None]. *)
From stdpp Require Import base list numbers strings pretty.
From S2P Require Import Prelude RustStr.

Definition APPROX_BYTES_PER_TOKEN : N := 4.

Definition approx_token_count (text : str) : N :=
  (saturating_add (byte_len text) (APPROX_BYTES_PER_TOKEN - 1) / APPROX_BYTES_PER_TOKEN)%N.

Definition approx_bytes_for_tokens (tokens : N) : N := saturating_mul tokens APPROX_BYTES_PER_TOKEN.

Definition approx_tokens_from_byte_count (bytes : N) : N :=
  (saturating_add bytes (APPROX_BYTES_PER_TOKEN - 1) / APPROX_BYTES_PER_TOKEN)%N.

(** The variables of the loop of [split_string]. *)
Record SplitState : Type := mkSplit {
  prefix_end : N;
  suffix_start : N;
  removed_chars : N;
  suffix_started : bool;
}.

(** The loop over [s.char_indices()], from the byte offset [idx]. *)
Fixpoint split_loop (s : str) (idx beginning_bytes tail_start_target : N) (st : SplitState)
    : SplitState :=
  match s with
  | [] => st
  | ch :: s =>
      let char_end := (idx + N.of_nat (len_utf8 ch))%N in
      split_loop s char_end beginning_bytes tail_start_target
        (if (char_end <=? beginning_bytes)%N then
           mkSplit char_end (suffix_start st) (removed_chars st) (suffix_started st)
         else if (tail_start_target <=? idx)%N then
           if negb (suffix_started st) then mkSplit (prefix_end st) idx (removed_chars st) true
           else st
         else
           mkSplit (prefix_end st) (suffix_start st) (saturating_add (removed_chars st) 1)
             (suffix_started st))
  end.

Definition split_string (s : str) (beginning_bytes end_bytes : N) : option (N * str * str) :=
  if is_empty s then Some (0%N, [], [])
  else
    let len := byte_len s in
    let tail_start_target := (len - end_bytes)%N in
    let st := split_loop s 0 beginning_bytes tail_start_target (mkSplit 0 len 0 false) in
    let start := if (suffix_start st <? prefix_end st)%N then prefix_end st else suffix_start st in
    before ← split_at_byte s (prefix_end st);
    after ← split_at_byte s start;
    Some (removed_chars st, before.1, after.2).

Definition split_budget (budget : N) : N * N :=
  let left_half := (budget / 2)%N in (left_half, budget - left_half)%N.

Definition ELLIPSIS : char := 8230%N.

Definition format_truncation_marker (use_tokens : bool) (removed_count : N) : str :=
  [ELLIPSIS] ++ lit (pretty removed_count)
  ++ (if use_tokens then lit " tokens truncated" else lit " chars truncated") ++ [ELLIPSIS].

Definition removed_units (use_tokens : bool) (removed_bytes removed : N) : N :=
  if use_tokens then approx_tokens_from_byte_count removed_bytes else removed.

Definition assemble_truncated_output (prefix suffix marker : str) : str := prefix ++ marker ++ suffix.

Definition truncate_with_byte_estimate (s : str) (max_bytes : N) (use_tokens : bool) : option str :=
  if is_empty s then Some []
  else
    let total_chars := N.of_nat (length s) in
    if (max_bytes =? 0)%N then
      Some (format_truncation_marker use_tokens (removed_units use_tokens (byte_len s) total_chars))
    else if (byte_len s <=? max_bytes)%N then Some s
    else
      let total_bytes := byte_len s in
      let (left_budget, right_budget) := split_budget max_bytes in
      '(removed, prefix, suffix) ← split_string s left_budget right_budget;
      let marker := format_truncation_marker use_tokens
        (removed_units use_tokens (total_bytes - max_bytes) removed) in
      Some (assemble_truncated_output prefix suffix marker).

Definition truncate_middle_chars (s : str) (max_bytes : N) : option str :=
  truncate_with_byte_estimate s max_bytes false.

Definition truncate_middle_with_token_budget (s : str) (max_tokens : N) : option (str * option N) :=
  if is_empty s then Some ([], None)
  else if (0 <? max_tokens)%N && (byte_len s <=? approx_bytes_for_tokens max_tokens)%N
  then Some (s, None)
  else
    truncated ← truncate_with_byte_estimate s (approx_bytes_for_tokens max_tokens) true;
    let total_tokens := approx_token_count s in
    if bool_decide (truncated = s) then Some (truncated, None)
    else Some (truncated, Some total_tokens).

(** * The loop *)

(** The characters that fit in [n] bytes. *)
Fixpoint fitting (s : str) (n : N) : str :=
  match s with
  | [] => []
  | c :: s =>
      if (N.of_nat (len_utf8 c) <=? n)%N then c :: fitting s (n - N.of_nat (len_utf8 c)) else []
  end.

Lemma fitting_prefix s n : ∃ rest, s = fitting s n ++ rest ∧ (byte_len (fitting s n) <= n)%N
  ∧ (∀ c r, rest = c :: r → (n < byte_len (fitting s n) + N.of_nat (len_utf8 c))%N).
Proof.
  revert n. induction s as [|c s IH]; intros n; simpl.
  - exists []. split; [done|]. split; [unfold byte_len; simpl; lia|done].
  - destruct (N.leb_spec (N.of_nat (len_utf8 c)) n) as [Hc|Hc].
    + destruct (IH (n - N.of_nat (len_utf8 c))%N) as (rest & Hs & Hl & Hm). exists rest.
      split; [by rewrite Hs at 1|]. rewrite byte_len_cons. split; [lia|].
      intros d r Hr. specialize (Hm d r Hr). lia.
    + exists (c :: s). split; [done|]. split; [unfold byte_len; simpl; lia|].
      intros d r [= <- <-]. unfold byte_len. simpl. lia.
Qed.

(** While characters fit, the loop only moves [prefix_end]. *)
Lemma split_loop_prefix a rest idx b t st :
  (idx + byte_len a <= b)%N →
  split_loop (a ++ rest) idx b t st
  = split_loop rest (idx + byte_len a) b t
      (if is_empty a then st
       else mkSplit (idx + byte_len a) (suffix_start st) (removed_chars st) (suffix_started st)).
Proof.
  revert idx st. induction a as [|c a IH]; intros idx st Hb.
  - simpl. f_equal. unfold byte_len. simpl. lia.
  - rewrite byte_len_cons in *. simpl.
    destruct (N.leb_spec (idx + N.of_nat (len_utf8 c)) b); [|lia].
    rewrite IH by lia. f_equal; [lia|]. destruct a; simpl; f_equal; unfold byte_len; simpl; lia.
Qed.

(** The next character ends after the first budget. *)
Definition past (b idx : N) (s : str) : Prop :=
  match s with
  | c :: _ => (b < idx + N.of_nat (len_utf8 c))%N
  | [] => True
  end.

Lemma past_next b idx c s : past b idx (c :: s) → past b (idx + N.of_nat (len_utf8 c)) s.
Proof. unfold past. destruct s; lia. Qed.

Lemma split_loop_suffix s idx b t st :
  past b idx s → (t <= idx)%N → suffix_started st = true → split_loop s idx b t st = st.
Proof.
  revert idx. induction s as [|c s IH]; intros idx Hp Ht Hst; simpl; [done|].
  pose proof (past_next _ _ _ _ Hp) as Hn. simpl in Hp.
  destruct (N.leb_spec (idx + N.of_nat (len_utf8 c)) b); [lia|].
  destruct (N.leb_spec t idx); [|lia]. rewrite Hst. simpl. apply IH; [done|lia|done].
Qed.

(** The rest of the text: counted characters, then the suffix. *)
Lemma split_loop_rest s idx b t st :
  past b idx s → suffix_started st = false → (removed_chars st <= USIZE_MAX)%N →
  ∃ m after, s = m ++ after
    ∧ split_loop s idx b t st
      = mkSplit (prefix_end st) (if is_empty after then suffix_start st else idx + byte_len m)%N
          (saturating_add (removed_chars st) (N.of_nat (length m))) (negb (is_empty after))
    ∧ (after ≠ [] → (t <= idx + byte_len m)%N)
    ∧ (∀ m' c, m = m' ++ [c] → (idx + byte_len m' < t)%N).
Proof.
  revert idx st. induction s as [|c s IH]; intros idx st Hp Hst Hr.
  - exists [], []. split; [done|]. split; [|split; [done|by intros [|? []]]].
    destruct st as [p ss r started]. simpl in *. subst. f_equal. unfold saturating_add. lia.
  - pose proof (past_next _ _ _ _ Hp) as Hn. simpl in Hp. simpl split_loop.
    destruct (N.leb_spec (idx + N.of_nat (len_utf8 c)) b); [lia|].
    destruct (N.leb_spec t idx) as [Ht|Ht].
    + exists [], (c :: s). split; [done|]. rewrite Hst. simpl negb. cbn iota.
      rewrite split_loop_suffix by (simpl; done || lia). split; [|split].
      * simpl. f_equal; unfold saturating_add, byte_len; simpl; lia.
      * intros _. lia.
      * by intros [|? []].
    + destruct (IH (idx + N.of_nat (len_utf8 c))%N
        (mkSplit (prefix_end st) (suffix_start st) (saturating_add (removed_chars st) 1)
           (suffix_started st))) as (m & after & -> & Heq & Ha & Hm);
        [done|done|simpl; unfold saturating_add; lia|].
      exists (c :: m), after. split; [done|]. rewrite Heq. rewrite byte_len_cons. simpl.
      split; [|split].
      * f_equal; [destruct after; simpl; lia|]. unfold saturating_add. lia.
      * intros Hne. specialize (Ha Hne). lia.
      * intros [|d m'] e; simpl; intros [= -> ->]; [unfold byte_len; simpl; lia|].
        specialize (Hm m' e eq_refl). rewrite byte_len_cons. lia.
Qed.

(** [split_string] does not panic; it cuts the text into the characters that fit in the
    first budget, a counted middle, and the longest remaining suffix within the second. *)
Lemma split_string_spec s b e :
  ∃ middle after,
    split_string s b e = Some (saturate (length middle), fitting s b, after)
    ∧ s = fitting s b ++ middle ++ after ∧ (byte_len after <= e)%N
    ∧ (∀ m' c, middle = m' ++ [c] → (e < byte_len (c :: after))%N).
Proof.
  unfold split_string. destruct (is_empty s) eqn:Es.
  { destruct s; [|done]. exists [], []. split; [done|]. split; [done|]. split; [unfold byte_len; simpl; lia|].
    by intros [|? []]. }
  destruct (fitting_prefix s b) as (rest & Hs & Hb & Hn). set (a := fitting s b) in *.
  set (t := (byte_len s - e)%N).
  assert (Hloop : ∃ ss, split_loop s 0 b t (mkSplit 0 (byte_len s) 0 false)
    = split_loop rest (byte_len a) b t (mkSplit (byte_len a) ss 0 false) ∧ ss = byte_len s).
  { exists (byte_len s). split; [|done]. rewrite Hs at 1. rewrite split_loop_prefix by lia. f_equal.
    destruct a; [|done]. simpl. f_equal. }
  destruct Hloop as (ss & -> & ->).
  destruct (split_loop_rest rest (byte_len a) b t (mkSplit (byte_len a) (byte_len s) 0 false))
    as (m & after & Hrest & -> & Ha & Hm).
  { destruct rest as [|c r]; [done|]. simpl. by eapply Hn. }
  { done. }
  { simpl. unfold USIZE_MAX. lia. }
  cbn [prefix_end suffix_start removed_chars]. subst rest.
  assert (Hstart : (if is_empty after then byte_len s else byte_len a + byte_len m)%N
    = byte_len (a ++ m)).
  { rewrite byte_len_app. destruct after; [|done]. simpl. rewrite Hs, app_nil_r. apply byte_len_app. }
  rewrite Hstart. destruct (N.ltb_spec (byte_len (a ++ m)) (byte_len a)) as [Hlt|_].
  { rewrite byte_len_app in Hlt. lia. }
  exists m, after. split; [|split; [done|split]].
  - assert (H1 : split_at_byte s (byte_len a) = Some (a, m ++ after))
      by (rewrite Hs; apply split_at_byte_app).
    assert (H2 : split_at_byte s (byte_len (a ++ m)) = Some (a ++ m, after))
      by (rewrite Hs, (assoc_L (++)); apply split_at_byte_app).
    rewrite H1. cbn [mbind option_bind]. rewrite H2. cbn [mbind option_bind fst snd].
    do 3 f_equal.
  - destruct after as [|x after]; [unfold byte_len; simpl; lia|].
    specialize (Ha ltac:(done)). unfold t in Ha. rewrite Hs, !byte_len_app in Ha. lia.
  - intros m' c Hc. specialize (Hm m' c Hc). unfold t in Hm. rewrite Hs, Hc, !byte_len_app in Hm.
    rewrite byte_len_cons in *. change (byte_len []) with 0%N in Hm. lia.
Qed.

Lemma truncate_total s max_bytes use_tokens : is_Some (truncate_with_byte_estimate s max_bytes use_tokens).
Proof.
  unfold truncate_with_byte_estimate. repeat (case_goal; [eauto|]). unfold split_budget.
  destruct (split_string_spec s (max_bytes / 2) (max_bytes - max_bytes / 2)) as (m & after & -> & _).
  simpl. eauto.
Qed.

Lemma truncate_middle_chars_total s n : is_Some (truncate_middle_chars s n).
Proof. apply truncate_total. Qed.

Lemma truncate_token_budget_total s n : is_Some (truncate_middle_with_token_budget s n).
Proof.
  unfold truncate_middle_with_token_budget. repeat (case_goal; [eauto|]).
  destruct (truncate_total s (approx_bytes_for_tokens n) true) as [x ->]. simpl. case_goal; eauto.
Qed.

(** Truncating by characters never panics and cuts the middle on character
    boundaries: an empty text or one within the budget is unchanged (a zero budget
    leaves only the marker); otherwise the result is a prefix and a suffix of the text
    around a marker with the number of characters removed between them, and the prefix
    and the suffix together take at most [max_bytes] bytes. *)
Theorem truncate_middle_chars_spec s max_bytes :
  ∃ out, truncate_middle_chars s max_bytes = Some out ∧
    ((s = [] ∨ (max_bytes ≠ 0 ∧ byte_len s <= max_bytes)%N) → out = s)
    ∧ (s ≠ [] → max_bytes = 0%N →
        out = format_truncation_marker false (N.of_nat (length s)))
    ∧ ((max_bytes ≠ 0 ∧ max_bytes < byte_len s)%N →
        ∃ before middle after, s = before ++ middle ++ after
          ∧ (byte_len before + byte_len after <= max_bytes)%N
          ∧ out = before ++ format_truncation_marker false (saturate (length middle)) ++ after).
Proof.
  unfold truncate_middle_chars, truncate_with_byte_estimate.
  destruct (is_empty s) eqn:Es.
  { destruct s; [|done]. exists []. split; [done|]. split; [done|]. split; [done|].
    intros [_ H]. unfold byte_len in H. simpl in H. lia. }
  assert (Hne : s ≠ []) by by destruct s.
  destruct (N.eqb_spec max_bytes 0) as [->|Hmax].
  { eexists. split; [done|]. split; [|split]; [intros [?|[? ?]]; done|done|intros [? ?]; done]. }
  destruct (N.leb_spec (byte_len s) max_bytes) as [Hle|Hgt].
  { exists s. split; [done|]. split; [done|]. split; [done|]. intros [_ H]. lia. }
  unfold split_budget. destruct (split_string_spec s (max_bytes / 2) (max_bytes - max_bytes / 2))
    as (m & after & -> & Hs & Ha & _).
  eexists. split; [done|]. split; [intros [?|[_ ?]]; [done|lia]|]. split; [done|]. intros _.
  exists (fitting s (max_bytes / 2)), m, after. split; [done|]. split; [|done].
  destruct (fitting_prefix s (max_bytes / 2)) as (_ & _ & Hf & _).
  assert (max_bytes / 2 <= max_bytes)%N by (apply N.Div0.div_le_upper_bound; lia). lia.
Qed.

(** Truncating to a token budget never panics and says whether it changed the
    text: without a token count the text is unchanged, with one it differs and the count
    is the approximate token count of the original. *)
Theorem truncate_with_token_budget_reports s max_tokens :
  ∃ out tokens, truncate_middle_with_token_budget s max_tokens = Some (out, tokens) ∧
    match tokens with
    | None => out = s
    | Some n => out ≠ s ∧ n = approx_token_count s
    end
    ∧ ((0 < max_tokens ∧ byte_len s <= 4 * max_tokens ∧ byte_len s <= USIZE_MAX)%N → tokens = None).
Proof.
  unfold truncate_middle_with_token_budget. destruct (is_empty s) eqn:Es.
  { destruct s; [|done]. by exists [], None. }
  destruct ((0 <? max_tokens)%N && (byte_len s <=? approx_bytes_for_tokens max_tokens)%N) eqn:Ef.
  { by exists s, None. }
  assert (Hpre : ¬ (0 < max_tokens ∧ byte_len s <= 4 * max_tokens ∧ byte_len s <= USIZE_MAX)%N).
  { intros (H1 & H2 & H3). apply andb_false_iff in Ef as [Ef|Ef].
    - apply N.ltb_ge in Ef. lia.
    - apply N.leb_gt in Ef. unfold approx_bytes_for_tokens, saturating_mul, APPROX_BYTES_PER_TOKEN in Ef.
      lia. }
  pose proof (truncate_total s (approx_bytes_for_tokens max_tokens) true) as Ht.
  destruct Ht as [out ->]. simpl. case_bool_decide as Hout; eexists _, _; (split; [done|]);
    simpl; split; auto; intros H; by destruct (Hpre H).
Qed.
