(* ===== verification/OutputTruncation.v ===== *)
(** [utils/output-truncation/src/lib.rs]: fitting tool output into a byte or token
    budget. [None] is a panic of string slicing. The float scaling of
    [with_serialization_allowance] is left out. *)
From stdpp Require Import base list numbers strings pretty.
From S2P Require Import Prelude RustStr Truncate.

(** [TruncationPolicy] of [codex_protocol]. *)
Inductive TruncationPolicy : Type :=
| Bytes (n : N)
| Tokens (n : N).

Definition token_budget (p : TruncationPolicy) : N :=
  match p with
  | Bytes n => approx_tokens_from_byte_count n
  | Tokens n => n
  end.

Definition byte_budget (p : TruncationPolicy) : N :=
  match p with
  | Bytes n => n
  | Tokens n => approx_bytes_for_tokens n
  end.

(** [FunctionCallOutputContentItem], over the types of image references and details. *)
Inductive FunctionCallOutputContentItem (I D : Type) : Type :=
| InputText (text : str)
| InputImage (image : I) (detail : option D)
| InputAudio (audio_url : str)
| EncryptedContent (encrypted_content : str).
Arguments InputText {I D} text.
Arguments InputImage {I D} image detail.
Arguments InputAudio {I D} audio_url.
Arguments EncryptedContent {I D} encrypted_content.

Definition truncate_text (content : str) (p : TruncationPolicy) : option str :=
  match p with
  | Bytes n => truncate_middle_chars content n
  | Tokens n => fst <$> truncate_middle_with_token_budget content n
  end.

Definition formatted_truncate_text (content : str) (p : TruncationPolicy) : option str :=
  if (byte_len content <=? byte_budget p)%N then Some content
  else
    let original_token_count := approx_token_count content in
    let total_lines := length (lines content) in
    result ← truncate_text content p;
    Some (lit "Warning: truncated output (original token count: " ++ lit (pretty original_token_count)
          ++ lit ")" ++ [LF] ++ lit "Total output lines: " ++ display_nat total_lines ++ [LF; LF]
          ++ result).

Section Items.
Context {I D : Type}.
Abbreviation item := (FunctionCallOutputContentItem I D).

Definition text_of (i : item) : option str :=
  match i with
  | InputText text => Some text
  | _ => None
  end.

(** [combined]: the texts with line feeds between them, except after nothing. *)
Definition combine_texts (texts : list str) : str :=
  foldl (λ combined text, (if is_empty combined then combined else combined ++ [LF]) ++ text) [] texts.

Definition formatted_truncate_text_content_items_with_policy (items : list item)
    (p : TruncationPolicy) : option (list item * option N) :=
  let text_segments := omap text_of items in
  if is_empty text_segments then Some (items, None)
  else
    let combined := combine_texts text_segments in
    if (byte_len combined <=? byte_budget p)%N then Some (items, None)
    else
      text ← formatted_truncate_text combined p;
      Some (InputText text :: filter (λ i, text_of i = None) items,
            Some (approx_token_count combined)).

(** The variables of the loop of [truncate_function_output_items_with_policy]. *)
Record ItemsState : Type := mkItems {
  out : list item;
  remaining_budget : N;
  omitted_text_items : nat;
  omitted_audio_items : nat;
}.

Definition text_cost (p : TruncationPolicy) (text : str) : N :=
  match p with
  | Bytes _ => byte_len text
  | Tokens _ => approx_token_count text
  end.

Definition audio_cost (p : TruncationPolicy) (token_cost : N) : N :=
  match p with
  | Bytes _ => approx_bytes_for_tokens token_cost
  | Tokens _ => token_cost
  end.

Definition with_budget (p : TruncationPolicy) (n : N) : TruncationPolicy :=
  match p with
  | Bytes _ => Bytes n
  | Tokens _ => Tokens n
  end.

Definition push_item (i : item) (budget : N) (st : ItemsState) : ItemsState :=
  mkItems (out st ++ [i]) budget (omitted_text_items st) (omitted_audio_items st).

Definition omit_text (budget : N) (st : ItemsState) : ItemsState :=
  mkItems (out st) budget (S (omitted_text_items st)) (omitted_audio_items st).

Definition omit_audio (st : ItemsState) : ItemsState :=
  mkItems (out st) (remaining_budget st) (omitted_text_items st) (S (omitted_audio_items st)).

Variable estimate_audio_token_count : str → N.

(** One iteration of [for item in items]. *)
Definition step_item (p : TruncationPolicy) (i : item) (st : ItemsState) : option ItemsState :=
  let remaining := remaining_budget st in
  match i with
  | InputText text =>
      if is_empty text then Some st
      else if (remaining =? 0)%N then Some (omit_text remaining st)
      else
        let cost := text_cost p text in
        if (cost <=? remaining)%N then Some (push_item (InputText text) (remaining - cost) st)
        else
          snippet ← truncate_text text (with_budget p remaining);
          Some (if is_empty snippet then omit_text 0 st else push_item (InputText snippet) 0 st)
  | InputImage image detail => Some (push_item (InputImage image detail) remaining st)
  | InputAudio audio_url =>
      let cost := audio_cost p (estimate_audio_token_count audio_url) in
      if (cost <=? remaining)%N then Some (push_item (InputAudio audio_url) (remaining - cost) st)
      else Some (omit_audio st)
  | EncryptedContent c => Some (push_item (EncryptedContent c) remaining st)
  end.

Fixpoint items_loop (p : TruncationPolicy) (items : list item) (st : ItemsState) : option ItemsState :=
  match items with
  | [] => Some st
  | i :: items => st ← step_item p i st; items_loop p items st
  end.

(** The budget in the policy's own unit. *)
Definition initial_budget (p : TruncationPolicy) : N :=
  match p with
  | Bytes _ => byte_budget p
  | Tokens _ => token_budget p
  end.

Definition omission_note (count : nat) (what : str) : list item :=
  if 0 <? count
  then [InputText (lit "[omitted " ++ display_nat count ++ lit " " ++ what ++ lit " items ...]")]
  else [].

Definition truncate_function_output_items_with_policy (items : list item) (p : TruncationPolicy)
    : option (list item) :=
  st ← items_loop p items (mkItems [] (initial_budget p) 0 0);
  Some (out st ++ omission_note (omitted_text_items st) (lit "text")
        ++ omission_note (omitted_audio_items st) (lit "audio")).

(** [FunctionCallOutputBody] and [truncate_function_output_payload]. *)
Inductive FunctionCallOutputBody : Type :=
| BodyText (text : str)
| BodyItems (items : list item).

Definition truncate_function_output_payload (body : FunctionCallOutputBody) (p : TruncationPolicy)
    : option FunctionCallOutputBody :=
  match body with
  | BodyText text => BodyText <$> truncate_text text p
  | BodyItems items => BodyItems <$> truncate_function_output_items_with_policy items p
  end.

(** * What is kept *)

(** Images and encrypted content, which have no cost. *)
Definition is_free (i : item) : Prop :=
  match i with
  | InputImage _ _ | EncryptedContent _ => True
  | _ => False
  end.

#[export] Instance is_free_dec i : Decision (is_free i).
Proof. destruct i; simpl; apply _. Defined.

Definition is_text (i : item) : Prop := is_Some (text_of i).
Definition is_nonempty_text (i : item) : Prop := is_text i ∧ text_of i ≠ Some [].
Definition is_audio (i : item) : Prop := match i with InputAudio _ => True | _ => False end.

#[export] Instance is_text_dec i : Decision (is_text i).
Proof. unfold is_text. apply _. Defined.
#[export] Instance is_nonempty_text_dec i : Decision (is_nonempty_text i).
Proof. unfold is_nonempty_text. apply _. Defined.
#[export] Instance is_audio_dec i : Decision (is_audio i).
Proof. destruct i; simpl; apply _. Defined.

Definition item_cost (p : TruncationPolicy) (i : item) : N :=
  match i with
  | InputText text => text_cost p text
  | InputAudio url => audio_cost p (estimate_audio_token_count url)
  | _ => 0
  end.

Definition total_cost (p : TruncationPolicy) (items : list item) : N :=
  foldr (λ i n, (item_cost p i + n)%N) 0%N items.

Definition count (P : item → Prop) `{∀ i, Decision (P i)} (l : list item) : nat := length (filter P l).

Lemma count_app (P : item → Prop) `{∀ i, Decision (P i)} l k : count P (l ++ k) = count P l + count P k.
Proof. unfold count. by rewrite filter_app, length_app. Qed.

Lemma truncate_text_total content p : is_Some (truncate_text content p).
Proof.
  destruct p as [n|n]; simpl.
  - destruct (truncate_middle_chars_total content n) as [x ->]. eauto.
  - destruct (truncate_token_budget_total content n) as [x ->]. simpl. eauto.
Qed.

Lemma text_cost_pos p text : text ≠ [] → (1 <= text_cost p text)%N.
Proof.
  intros Hne. assert (1 <= byte_len text)%N.
  { destruct text as [|c text]; [done|]. rewrite byte_len_cons. pose proof (len_utf8_pos c). lia. }
  destruct p; simpl; [done|]. unfold approx_token_count, saturating_add, APPROX_BYTES_PER_TOKEN.
  apply N.div_le_lower_bound; [done|]. unfold USIZE_MAX. lia.
Qed.

(** What one iteration preserves. *)
Record step_ok (p : TruncationPolicy) (i : item) (st st' : ItemsState) : Prop := mkStepOk {
  ok_free : filter is_free (out st') = filter is_free (out st) ++ filter is_free [i];
  ok_text : count is_text (out st') + omitted_text_items st'
    = count is_text (out st) + omitted_text_items st + count is_nonempty_text [i];
  ok_audio : count is_audio (out st') + omitted_audio_items st'
    = count is_audio (out st) + omitted_audio_items st + count is_audio [i];
  ok_budget : (item_cost p i <= remaining_budget st)%N →
    st' = mkItems (out st ++ filter (λ j, text_of j ≠ Some []) [i])
      (remaining_budget st - item_cost p i) (omitted_text_items st) (omitted_audio_items st);
}.

Lemma step_item_ok p i st : ∃ st', step_item p i st = Some st' ∧ step_ok p i st st'.
Proof.
  destruct st as [o r ot oa]. destruct i as [text|image detail|url|c]; simpl.
  - destruct (is_empty text) eqn:Et.
    { destruct text; [|done]. eexists. split; [done|]. split; simpl.
      - by rewrite app_nil_r.
      - unfold count. simpl. lia.
      - unfold count. simpl. lia.
      - intros _. rewrite app_nil_r. f_equal. destruct p; simpl; [by rewrite N.sub_0_r|].
        by rewrite N.sub_0_r. }
    assert (Hne : text ≠ []) by by destruct text.
    pose proof (text_cost_pos p text Hne) as Hcost.
    assert (Hn : count is_nonempty_text [InputText text] = 1).
    { unfold count. rewrite filter_cons_True; [done|]. split; [by exists text|]. by intros [= ->]. }
    assert (Hk : filter (λ j : item, text_of j ≠ Some []) [InputText text] = [InputText text]).
    { rewrite filter_cons_True; [done|]. by intros [= ->]. }
    destruct (N.eqb_spec r 0) as [->|Hr].
    { eexists. split; [done|]. split; simpl; rewrite ?Hn.
      - by rewrite app_nil_r.
      - lia.
      - unfold count. simpl. lia.
      - lia. }
    destruct (N.leb_spec (text_cost p text) r).
    { eexists. split; [done|]. split; simpl; rewrite ?Hn, ?Hk, ?filter_app, ?count_app; try done;
        unfold count; simpl; lia. }
    destruct (truncate_text_total text (with_budget p r)) as [snippet ->]. simpl.
    destruct (is_empty snippet); eexists; (split; [done|]); split; simpl;
      rewrite ?Hn, ?filter_app, ?count_app, ?app_nil_r; try done; try lia;
      unfold count; simpl; lia.
  - eexists. split; [done|]. split; simpl; rewrite ?filter_app, ?count_app;
      first [done | unfold count; simpl; lia | intros _; by rewrite N.sub_0_r].
  - destruct (N.leb_spec (audio_cost p (estimate_audio_token_count url)) r);
      eexists; (split; [done|]); split; simpl; rewrite ?filter_app, ?count_app, ?app_nil_r; try done;
      try lia; unfold count; simpl; lia.
  - eexists. split; [done|]. split; simpl; rewrite ?filter_app, ?count_app;
      first [done | unfold count; simpl; lia | intros _; by rewrite N.sub_0_r].
Qed.

Lemma items_loop_ok p items st :
  ∃ st', items_loop p items st = Some st'
    ∧ filter is_free (out st') = filter is_free (out st) ++ filter is_free items
    ∧ count is_text (out st') + omitted_text_items st'
      = count is_text (out st) + omitted_text_items st + count is_nonempty_text items
    ∧ count is_audio (out st') + omitted_audio_items st'
      = count is_audio (out st) + omitted_audio_items st + count is_audio items
    ∧ ((total_cost p items <= remaining_budget st)%N →
        out st' = out st ++ filter (λ j, text_of j ≠ Some []) items
        ∧ omitted_text_items st' = omitted_text_items st
        ∧ omitted_audio_items st' = omitted_audio_items st).
Proof.
  revert st. induction items as [|i items IH]; intros st; simpl.
  - exists st. rewrite !app_nil_r. unfold count. simpl. repeat split; lia.
  - destruct (step_item_ok p i st) as (st1 & -> & Hs). simpl.
    destruct (IH st1) as (st2 & -> & H1 & H2 & H3 & H4). exists st2. destruct Hs as [F T A B].
    change (i :: items) with ([i] ++ items). rewrite !filter_app, !count_app. split; [done|].
    split; [by rewrite H1, F, (assoc_L (++))|]. split; [lia|]. split; [lia|].
    intros Hc. rewrite B in * by lia. simpl in *. destruct H4 as (-> & -> & ->); [lia|].
    by rewrite (assoc_L (++)).
Qed.

(** Truncating the items of a tool output never panics, keeps every image and
    every encrypted item in order, and accounts for the rest: the texts kept (or cut) and
    the texts reported as omitted add up to the nonempty texts, and likewise for audio.
    If the costs fit in the budget, the output is the items without the empty texts. *)
Theorem truncate_items_accounts (items : list item) (p : TruncationPolicy) :
  ∃ kept omitted_texts omitted_audio,
    truncate_function_output_items_with_policy items p
      = Some (kept ++ omission_note omitted_texts (lit "text")
                ++ omission_note omitted_audio (lit "audio"))
    ∧ filter is_free kept = filter is_free items
    ∧ count is_text kept + omitted_texts = count is_nonempty_text items
    ∧ count is_audio kept + omitted_audio = count is_audio items
    ∧ ((total_cost p items <= initial_budget p)%N →
        truncate_function_output_items_with_policy items p
        = Some (filter (λ j, text_of j ≠ Some []) items)).
Proof.
  unfold truncate_function_output_items_with_policy.
  destruct (items_loop_ok p items (mkItems [] (initial_budget p) 0 0))
    as (st & -> & H1 & H2 & H3 & H4). simpl in *.
  exists (out st), (omitted_text_items st), (omitted_audio_items st).
  split; [done|]. split; [done|]. split; [done|]. split; [done|].
  intros Hc. destruct (H4 Hc) as (-> & -> & ->). simpl. by rewrite app_nil_r.
Qed.
End Items.
