(* ===== verification/Normalize.v ===== *)
(** The items of a conversation: [protocol/src/models.rs], the envelopes of
    [history/src/lib.rs] and the annotated contents of [context-fragments]. *)
From stdpp Require Import base list numbers strings sets gmap.
From S2P Require Import Prelude RustStr Truncate OutputTruncation.

(** Types whose values the code modelled here only copies. *)
Class ProtocolTypes := {
  Json : Type;
  JsonNumber : Type;
  MessagePhase : Type;
  ReasoningItemReasoningSummary : Type;
  ReasoningItemContent : Type;
  LocalShellStatus : Type;
  LocalShellAction : Type;
  WebSearchAction : Type;
  ConfigurationReasoning : Type;
  ExecutedToolCall : Type;
}.

Inductive ImageReference : Type :=
| Inline (image_url : str)
| File (file_id : str).

Inductive ImageDetail : Type := DetailAuto | DetailLow | DetailHigh | DetailOriginal.

Inductive ContentItem : Type :=
| CInputText (text : str)
| CInputImage (image : ImageReference) (detail : option ImageDetail)
| CInputAudio (audio_url : str)
| COutputText (text : str).

Inductive AgentMessageInputContent : Type :=
| AInputText (text : str)
| AEncryptedContent (encrypted_content : str).

(** [FunctionCallOutputPayload]. *)
Record FunctionCallOutputPayload : Type := mkPayload {
  body : FunctionCallOutputBody (I := ImageReference) (D := ImageDetail);
  success : option bool;
}.

Definition from_text (content : str) : FunctionCallOutputPayload := mkPayload (BodyText content) None.

Section Items.
Context `{PT : ProtocolTypes}.

(** [InternalChatMessageMetadataPassthrough]; a [ContentItemKind] is a string. *)
Record Passthrough : Type := mkPassthrough {
  turn_id : option str;
  create_time : option JsonNumber;
  content_item_kinds : option (list str);
  cell_id : option str;
  executed_tool_calls : option (list ExecutedToolCall);
  tool_calls_complete : option bool;
}.

Definition default_passthrough : Passthrough := mkPassthrough None None None None None None.

Definition set_kinds (kinds : option (list str)) (m : Passthrough) : Passthrough :=
  mkPassthrough (turn_id m) (create_time m) kinds (cell_id m) (executed_tool_calls m)
    (tool_calls_complete m).

(** A [ResponseItemId] is a string. *)
Inductive ResponseItem : Type :=
| AdditionalTools (id : option str) (role : str) (tools : list Json)
| Message (id : option str) (role : str) (content : list ContentItem)
    (phase : option MessagePhase) (passthrough : option Passthrough)
| AgentMessage (id : option str) (author recipient : str) (content : list AgentMessageInputContent)
    (passthrough : option Passthrough)
| Reasoning (id : option str) (summary : list ReasoningItemReasoningSummary)
    (content : option (list ReasoningItemContent)) (encrypted_content : option str)
    (passthrough : option Passthrough)
| LocalShellCall (id call_id : option str) (status : LocalShellStatus) (action : LocalShellAction)
    (passthrough : option Passthrough)
| FunctionCall (id : option str) (name : str) (namespace : option str) (arguments : str)
    (encrypted_function_args : option (list str)) (call_id : str) (passthrough : option Passthrough)
| ToolSearchCall (id call_id status : option str) (execution : str) (arguments : Json)
    (passthrough : option Passthrough)
| FunctionCallOutput (id call_id name namespace : option str) (output : FunctionCallOutputPayload)
    (passthrough : option Passthrough)
| CustomToolCall (id status : option str) (call_id name : str) (namespace : option str) (input : str)
    (passthrough : option Passthrough)
| CustomToolCallOutput (id : option str) (call_id : str) (name : option str)
    (output : FunctionCallOutputPayload) (passthrough : option Passthrough)
| ToolSearchOutput (id call_id : option str) (status execution : str) (tools : list Json)
    (passthrough : option Passthrough)
| WebSearchCall (id status : option str) (action : option WebSearchAction)
    (passthrough : option Passthrough)
| ImageGenerationCall (id : option str) (status : str) (revised_prompt : option str) (result : str)
    (passthrough : option Passthrough)
| Compaction (id : option str) (encrypted_content : str) (passthrough : option Passthrough)
| ConfigurationUpdate (reasoning : ConfigurationReasoning)
| CompactionTrigger
| ContextCompaction (id encrypted_content : option str) (passthrough : option Passthrough)
| OtherItem.

(** [ResponseItemEnvelope], over the metadata of the harness. *)
Record ResponseItemEnvelope {H : Type} : Type := mkEnvelope {
  item : ResponseItem;
  metadata : option H;
}.
Arguments ResponseItemEnvelope H : clear implicits.

Definition new_envelope {H : Type} (i : ResponseItem) : ResponseItemEnvelope H := mkEnvelope H i None.

Definition with_item {H : Type} (i : ResponseItem) (e : ResponseItemEnvelope H)
    : ResponseItemEnvelope H := mkEnvelope H i (metadata e).

(** * Annotated contents: [annotated_content.rs]

    A content with its kind. *)
Abbreviation AnnotatedContent := (ContentItem * str)%type.

(** [content.zip(kinds.chain(repeat("unknown")))]. *)
Fixpoint zip_kinds (content : list ContentItem) (kinds : list str) : list AnnotatedContent :=
  match content with
  | [] => []
  | c :: content =>
      match kinds with
      | [] => (c, lit "unknown") :: zip_kinds content []
      | k :: kinds => (c, k) :: zip_kinds content kinds
      end
  end.

(** Taking the contents of a message leaves it empty and without kinds. *)
Definition to_annotated_content (i : ResponseItem) : ResponseItem * option (list AnnotatedContent) :=
  match i with
  | Message id role content phase m =>
      (Message id role [] phase (set_kinds None <$> m),
       Some (zip_kinds content (default [] (m ≫= content_item_kinds))))
  | _ => (i, None)
  end.

Definition set_annotated_content (i : ResponseItem) (annotated : list AnnotatedContent)
    : ResponseItem * option unit :=
  match i with
  | Message id role _ phase m =>
      (Message id role annotated.*1 phase
         (Some (set_kinds (Some annotated.*2) (default default_passthrough m))), Some tt)
  | _ => (i, None)
  end.
End Items.
Arguments ResponseItemEnvelope {PT} H.
Arguments mkEnvelope {PT H} item metadata.
Arguments item {PT H} _.
Arguments metadata {PT H} _.

(** [core/src/context_manager/normalize.rs], and the operations of [history.rs] that keep
    the history fit for the model: every tool call has its output, every output its call,
    and no media the model cannot take. *)

Inductive InputModality : Type := Text | Image | Audio.

#[export] Instance InputModality_eq_dec : EqDecision InputModality.
Proof. solve_decision. Defined.

(** [UnsupportedMedia]: a fragment without markers, so it renders as its text. *)
Record UnsupportedMedia : Type := mkUnsupported {
  media_text : str;
  media_kind : str;
}.

Definition UNSUPPORTED_IMAGE : UnsupportedMedia := mkUnsupported
  (lit "image content omitted because you do not support image input") (lit "images.unsupported").
Definition UNSUPPORTED_AUDIO : UnsupportedMedia := mkUnsupported
  (lit "audio content omitted because you do not support audio input") (lit "audio.unsupported").

Section Normalize.
Context `{PT : ProtocolTypes} {H : Type}.

(** [Uuid::new_v5] in the namespace of synthetic outputs, printed; and whether the build
    has debug assertions, in which case [error_or_panic] panics. *)
Context (uuid_new_v5 : str → str) (debug_assertions : bool).
Abbreviation Envelope := (ResponseItemEnvelope H).
Implicit Types (items : list Envelope) (i : ResponseItem).

(** [None] is the panic. *)
Definition error_or_panic : option unit := if debug_assertions then None else Some tt.

(** * Missing outputs *)

Definition function_output_id i : option str :=
  match i with FunctionCallOutput _ (Some call_id) _ _ _ _ => Some call_id | _ => None end.
Definition tool_search_output_id i : option str :=
  match i with ToolSearchOutput _ (Some call_id) _ _ _ _ => Some call_id | _ => None end.
Definition custom_tool_output_id i : option str :=
  match i with CustomToolCallOutput _ call_id _ _ _ => Some call_id | _ => None end.

(** The ids that [f] finds. *)
Definition ids_of (f : ResponseItem → option str) items : gset str :=
  list_to_set (omap (λ e, f (item e)) items).

Definition synthetic_output_id (prefix : str) (item_id : option str) : option str :=
  match item_id with
  | Some source_id =>
      if is_empty source_id then None
      else Some (prefix ++ lit "_" ++ uuid_new_v5 (prefix ++ lit ":" ++ source_id))
  | None => None
  end.

(** What an item lacks: nothing, or the output to insert, with whether its absence is
    an error. *)
Definition missing_output (function_ids tool_search_ids custom_ids : gset str) i
    : option (bool * ResponseItem) :=
  match i with
  | FunctionCall id _ _ _ _ call_id _ =>
      if bool_decide (call_id ∈ function_ids) then None
      else Some (false, FunctionCallOutput (synthetic_output_id (lit "fco") id) (Some call_id)
                          None None (from_text (lit "aborted")) None)
  | ToolSearchCall id (Some call_id) _ _ _ _ =>
      if bool_decide (call_id ∈ tool_search_ids) then None
      else Some (false, ToolSearchOutput (synthetic_output_id (lit "tso") id) (Some call_id)
                          (lit "completed") (lit "client") [] None)
  | CustomToolCall id _ call_id _ _ _ _ =>
      if bool_decide (call_id ∈ custom_ids) then None
      else Some (true, CustomToolCallOutput (synthetic_output_id (lit "ctco") id) call_id
                         None (from_text (lit "aborted")) None)
  | LocalShellCall id (Some call_id) _ _ _ =>
      if bool_decide (call_id ∈ function_ids) then None
      else Some (true, FunctionCallOutput (synthetic_output_id (lit "fco") id) (Some call_id)
                         None None (from_text (lit "aborted")) None)
  | _ => None
  end.

(** The loop that collects the outputs to insert, with the index of their calls. *)
Fixpoint missing_outputs (find : ResponseItem → option (bool * ResponseItem)) (idx : nat) items
    : option (list (nat * Envelope)) :=
  match items with
  | [] => Some []
  | e :: items =>
      match find (item e) with
      | None => missing_outputs find (S idx) items
      | Some (is_error, output) =>
          _ ← (if is_error : bool then error_or_panic else Some tt);
          rest ← missing_outputs find (S idx) items;
          Some ((idx, new_envelope output) :: rest)
      end
  end.

(** [for (idx, output) in .. { items.insert(idx + 1, output) }]. *)
Fixpoint insert_outputs (outputs : list (nat * Envelope)) items : option (list Envelope) :=
  match outputs with
  | [] => Some items
  | (idx, output) :: outputs => items ← vec_insert (idx + 1) output items; insert_outputs outputs items
  end.

Definition ensure_call_outputs_present items : option (list Envelope) :=
  let find := missing_output (ids_of function_output_id items) (ids_of tool_search_output_id items)
    (ids_of custom_tool_output_id items) in
  missing ← missing_outputs find 0 items;
  insert_outputs (reverse missing) items.

(** * Orphan outputs *)

Definition function_call_id i : option str :=
  match i with
  | FunctionCall _ _ _ _ _ call_id _ => Some call_id
  | LocalShellCall _ (Some call_id) _ _ _ => Some call_id
  | _ => None
  end.
Definition tool_search_call_id i : option str :=
  match i with ToolSearchCall _ (Some call_id) _ _ _ _ => Some call_id | _ => None end.
Definition custom_tool_call_id i : option str :=
  match i with CustomToolCall _ _ call_id _ _ _ _ => Some call_id | _ => None end.

Definition is_orphan (function_ids tool_search_ids custom_ids : gset str) i : bool :=
  match i with
  | FunctionCallOutput _ (Some call_id) _ _ _ _ => bool_decide (call_id ∉ function_ids)
  | CustomToolCallOutput _ call_id _ _ _ => bool_decide (call_id ∉ custom_ids)
  | ToolSearchOutput _ (Some call_id) _ execution _ _ =>
      bool_decide (execution ≠ lit "server") && bool_decide (call_id ∉ tool_search_ids)
  | _ => false
  end.

Fixpoint orphan_positions (orphan : ResponseItem → bool) (position : nat) items : option (list nat) :=
  match items with
  | [] => Some []
  | e :: items =>
      if orphan (item e) then
        _ ← error_or_panic;
        rest ← orphan_positions orphan (S position) items;
        Some (position :: rest)
      else orphan_positions orphan (S position) items
  end.

(** [items.retain(..)] with the peekable iterator over the positions. *)
Fixpoint retain_others (positions : list nat) (position : nat) items : list Envelope :=
  match items with
  | [] => []
  | e :: items =>
      match positions with
      | p :: positions' =>
          if p =? position then retain_others positions' (S position) items
          else e :: retain_others positions (S position) items
      | [] => e :: retain_others [] (S position) items
      end
  end.

Definition remove_orphan_outputs items : option (list Envelope) :=
  let orphan := is_orphan (ids_of function_call_id items) (ids_of tool_search_call_id items)
    (ids_of custom_tool_call_id items) in
  positions ← orphan_positions orphan 0 items;
  Some (if is_empty positions then items else retain_others positions 0 items).

(** * Removing the other half of a pair *)

(** [iter().position(..)]. *)
Fixpoint position (f : ResponseItem → bool) items : option nat :=
  match items with
  | [] => None
  | e :: items => if f (item e) then Some 0 else S <$> position f items
  end.

Definition remove_first_matching (f : ResponseItem → bool) items : list Envelope :=
  match position f items with
  | Some pos => delete pos items
  | None => items
  end.

Definition is_id (f : ResponseItem → option str) (call_id : str) i : bool :=
  bool_decide (f i = Some call_id).

Definition plain_function_call_id i : option str :=
  match i with FunctionCall _ _ _ _ _ call_id _ => Some call_id | _ => None end.
Definition local_shell_call_id i : option str :=
  match i with LocalShellCall _ (Some call_id) _ _ _ => Some call_id | _ => None end.

Definition remove_corresponding_for items i : list Envelope :=
  match i with
  | FunctionCall _ _ _ _ _ call_id _ => remove_first_matching (is_id function_output_id call_id) items
  | FunctionCallOutput _ (Some call_id) _ _ _ _ =>
      match position (is_id plain_function_call_id call_id) items with
      | Some pos => delete pos items
      | None =>
          match position (is_id local_shell_call_id call_id) items with
          | Some pos => delete pos items
          | None => items
          end
      end
  | ToolSearchCall _ (Some call_id) _ _ _ _ =>
      remove_first_matching (is_id tool_search_output_id call_id) items
  | ToolSearchOutput _ (Some call_id) _ _ _ _ =>
      remove_first_matching (is_id tool_search_call_id call_id) items
  | CustomToolCall _ _ call_id _ _ _ _ =>
      remove_first_matching (is_id custom_tool_output_id call_id) items
  | CustomToolCallOutput _ call_id _ _ _ =>
      remove_first_matching (is_id custom_tool_call_id call_id) items
  | LocalShellCall _ (Some call_id) _ _ _ =>
      remove_first_matching (is_id function_output_id call_id) items
  | _ => items
  end.

(** [ContextManager::remove_first_item], on the items. *)
Definition remove_first_item items : list Envelope :=
  match items with
  | [] => []
  | removed :: items => remove_corresponding_for items (item removed)
  end.

(** * Unsupported media *)

(** Replaces the contents of a message that [bad] selects. *)
Definition strip_message (bad : ContentItem → bool) (media : UnsupportedMedia) i : ResponseItem :=
  let (taken, content) := to_annotated_content i in
  match content with
  | Some content =>
      let content := (λ c, if bad c.1 then (CInputText (media_text media), media_kind media) else c)
        <$> content in
      (set_annotated_content taken content).1
  | None => taken
  end.

Abbreviation OutputItem := (FunctionCallOutputContentItem ImageReference ImageDetail).

Definition strip_output (bad : OutputItem → bool) (media : UnsupportedMedia)
    (o : FunctionCallOutputPayload) : FunctionCallOutputPayload :=
  match body o with
  | BodyText _ => o
  | BodyItems content_items =>
      mkPayload (BodyItems ((λ c, if bad c then InputText (media_text media) else c) <$> content_items))
        (success o)
  end.

Definition is_image_content (c : ContentItem) : bool := match c with CInputImage _ _ => true | _ => false end.
Definition is_audio_content (c : ContentItem) : bool := match c with CInputAudio _ => true | _ => false end.
Definition is_image_output (c : OutputItem) : bool := match c with InputImage _ _ => true | _ => false end.
Definition is_audio_output (c : OutputItem) : bool := match c with InputAudio _ => true | _ => false end.

Definition strip_image_item i : ResponseItem :=
  match i with
  | Message _ _ _ _ _ => strip_message is_image_content UNSUPPORTED_IMAGE i
  | FunctionCallOutput id call_id name namespace output m =>
      FunctionCallOutput id call_id name namespace (strip_output is_image_output UNSUPPORTED_IMAGE output) m
  | CustomToolCallOutput id call_id name output m =>
      CustomToolCallOutput id call_id name (strip_output is_image_output UNSUPPORTED_IMAGE output) m
  | ImageGenerationCall id status revised_prompt _ m => ImageGenerationCall id status revised_prompt [] m
  | _ => i
  end.

Definition strip_images_when_unsupported (input_modalities : list InputModality) items : list Envelope :=
  if bool_decide (Image ∈ input_modalities) then items
  else (λ e, with_item (strip_image_item (item e)) e) <$> items.

Definition strip_audio_item i : ResponseItem :=
  match i with
  | Message _ _ _ _ _ => strip_message is_audio_content UNSUPPORTED_AUDIO i
  | FunctionCallOutput id call_id name namespace output m =>
      FunctionCallOutput id call_id name namespace (strip_output is_audio_output UNSUPPORTED_AUDIO output) m
  | CustomToolCallOutput id call_id name output m =>
      CustomToolCallOutput id call_id name (strip_output is_audio_output UNSUPPORTED_AUDIO output) m
  | _ => i
  end.

Definition strip_audio_when_unsupported (input_modalities : list InputModality) items : list Envelope :=
  if bool_decide (Audio ∈ input_modalities) then items
  else (λ e, with_item (strip_audio_item (item e)) e) <$> items.

(** * [ContextManager::normalize_history] and [for_prompt] *)

Definition normalize_history (input_modalities : list InputModality) items : option (list Envelope) :=
  items ← ensure_call_outputs_present items;
  items ← remove_orphan_outputs items;
  let items := strip_images_when_unsupported input_modalities items in
  Some (strip_audio_when_unsupported input_modalities items).

Definition for_prompt_annotated (input_modalities : list InputModality) items : option (list Envelope) :=
  normalize_history input_modalities items.

Definition for_prompt (input_modalities : list InputModality) items : option (list ResponseItem) :=
  option_map (map item) (for_prompt_annotated input_modalities items).
End Normalize.
