(* ===== verification/NormalizeFacts.v ===== *)
(** The history sent to the model is well formed: calls and outputs are paired, and what
    the model cannot take is gone. *)
From stdpp Require Import base list sets numbers strings gmap.
From S2P Require Import Prelude RustStr Truncate OutputTruncation Normalize.

(** * Pairing

    A call and its output share a kind and an id. Local shell calls are answered by
    function outputs. *)
Inductive CallKind : Type := KFunction | KToolSearch | KCustomTool.

#[export] Instance CallKind_eq_dec : EqDecision CallKind.
Proof. solve_decision. Defined.

Section Facts.
Context `{PT : ProtocolTypes} {H : Type}.
Abbreviation Envelope := (ResponseItemEnvelope H).
Abbreviation OutputItem := (FunctionCallOutputContentItem ImageReference ImageDetail).
Implicit Types (items : list Envelope) (i : ResponseItem) (e : Envelope).

Definition call_key i : option (CallKind * str) :=
  match i with
  | FunctionCall _ _ _ _ _ call_id _ => Some (KFunction, call_id)
  | LocalShellCall _ (Some call_id) _ _ _ => Some (KFunction, call_id)
  | ToolSearchCall _ (Some call_id) _ _ _ _ => Some (KToolSearch, call_id)
  | CustomToolCall _ _ call_id _ _ _ _ => Some (KCustomTool, call_id)
  | _ => None
  end.

Definition output_key i : option (CallKind * str) :=
  match i with
  | FunctionCallOutput _ (Some call_id) _ _ _ _ => Some (KFunction, call_id)
  | ToolSearchOutput _ (Some call_id) _ _ _ _ => Some (KToolSearch, call_id)
  | CustomToolCallOutput _ call_id _ _ _ => Some (KCustomTool, call_id)
  | _ => None
  end.

(** A search that the server ran, whose call is not in the history. *)
Definition server_output i : bool :=
  match i with
  | ToolSearchOutput _ _ _ execution _ _ => bool_decide (execution = lit "server")
  | _ => false
  end.

Definition has_call items (k : CallKind * str) : Prop := ∃ e, e ∈ items ∧ call_key (item e) = Some k.
Definition has_output items (k : CallKind * str) : Prop := ∃ e, e ∈ items ∧ output_key (item e) = Some k.

Record Paired items : Prop := {
  calls_answered e k : e ∈ items → call_key (item e) = Some k → has_output items k;
  outputs_called e k : e ∈ items → output_key (item e) = Some k →
    server_output (item e) = true ∨ has_call items k;
}.

(** * The sets of ids are the sets of keys *)
Lemma elem_of_ids_of (f : ResponseItem → option str) items c :
  c ∈ ids_of f items ↔ ∃ e, e ∈ items ∧ f (item e) = Some c.
Proof. unfold ids_of. rewrite elem_of_list_to_set, list_elem_of_omap. done. Qed.

(** [f] finds the ids of one kind of output, or of one kind of call. *)
Definition finds (key : ResponseItem → option (CallKind * str)) (kind : CallKind)
    (f : ResponseItem → option str) : Prop :=
  ∀ i c, f i = Some c ↔ key i = Some (kind, c).

Lemma ids_of_outputs kind f items c :
  finds output_key kind f → c ∈ ids_of f items ↔ has_output items (kind, c).
Proof. intros Hf. rewrite elem_of_ids_of. split; intros (e & He & Hc%Hf); by exists e. Qed.

Lemma ids_of_calls kind f items c :
  finds call_key kind f → c ∈ ids_of f items ↔ has_call items (kind, c).
Proof. intros Hf. rewrite elem_of_ids_of. split; intros (e & He & Hc%Hf); by exists e. Qed.

Ltac finds_cases := intros [] c; simpl; repeat case_match; naive_solver.

Lemma finds_function_output : finds output_key KFunction function_output_id.
Proof. finds_cases. Qed.
Lemma finds_tool_search_output : finds output_key KToolSearch tool_search_output_id.
Proof. finds_cases. Qed.
Lemma finds_custom_tool_output : finds output_key KCustomTool custom_tool_output_id.
Proof. finds_cases. Qed.
Lemma finds_function_call : finds call_key KFunction function_call_id.
Proof. finds_cases. Qed.
Lemma finds_tool_search_call : finds call_key KToolSearch tool_search_call_id.
Proof. finds_cases. Qed.
Lemma finds_custom_tool_call : finds call_key KCustomTool custom_tool_call_id.
Proof. finds_cases. Qed.

(** * Missing outputs *)
Section Build.
Context (uuid_new_v5 : str → str) (debug_assertions : bool).

Definition find items : ResponseItem → option (bool * ResponseItem) :=
  missing_output uuid_new_v5 (ids_of function_output_id items) (ids_of tool_search_output_id items)
    (ids_of custom_tool_output_id items).

Lemma missing_output_None items i k : find items i = None → call_key i = Some k → has_output items k.
Proof.
  unfold find. destruct i; simpl; try done; repeat case_match; intros E Hk; simplify_eq/=;
    case_bool_decide as Hin; try done; revert Hin;
    (rewrite (ids_of_outputs KFunction) by apply finds_function_output)
    || (rewrite (ids_of_outputs KToolSearch) by apply finds_tool_search_output)
    || (rewrite (ids_of_outputs KCustomTool) by apply finds_custom_tool_output); done.
Qed.

(** The inserted output answers the call, which had no output. *)
Lemma missing_output_Some items i err o : find items i = Some (err, o) →
  ∃ k, call_key i = Some k ∧ output_key o = Some k ∧ call_key o = None ∧ ¬ has_output items k.
Proof.
  unfold find. destruct i; simpl; try done; repeat case_match; try done;
    case_bool_decide as Hin; try done; intros [= <- <-]; eexists; (split_and!; [done..|]); revert Hin;
    (rewrite (ids_of_outputs KFunction) by apply finds_function_output)
    || (rewrite (ids_of_outputs KToolSearch) by apply finds_tool_search_output)
    || (rewrite (ids_of_outputs KCustomTool) by apply finds_custom_tool_output); done.
Qed.

(** The reference: every call is followed by the output it lacks. *)
Definition answer items e : list Envelope :=
  match find items (item e) with
  | Some (_, o) => [new_envelope o]
  | None => []
  end.
Definition with_outputs items : list Envelope := items ≫= λ e, e :: answer items e.

Lemma insert_outputs_app a b items :
  insert_outputs (H := H) (a ++ b) items = items ← insert_outputs a items; insert_outputs b items.
Proof.
  revert items. induction a as [|[idx o] a IH]; intros items; simpl; [done|].
  destruct (vec_insert _ _ _); simpl; [apply IH|done].
Qed.

Lemma insert_outputs_spec all items pre ms :
  missing_outputs debug_assertions (find all) (length pre) items = Some ms →
  insert_outputs (reverse ms) (pre ++ items) = Some (pre ++ (items ≫= λ e, e :: answer all e)).
Proof.
  revert pre ms. induction items as [|e items IH]; intros pre ms; simpl.
  { intros [= <-]. by rewrite app_nil_r. }
  assert (Hpre : ∀ ms', missing_outputs debug_assertions (find all) (S (length pre)) items = Some ms' →
    insert_outputs (reverse ms') (pre ++ e :: items) = Some (pre ++ e :: (items ≫= λ e, e :: answer all e))).
  { intros ms' Hms. specialize (IH (pre ++ [e]) ms'). rewrite length_app, Nat.add_comm in IH.
    specialize (IH Hms). by rewrite <- !app_assoc in IH. }
  unfold answer at 1. destruct (find all (item e)) as [[err o]|] eqn:Ef; [|apply Hpre].
  destruct (if err then _ else _) as [[]|]; simpl; [|done].
  destruct (missing_outputs _ _ _ items) as [ms'|] eqn:Em; simpl; [|done]. intros [= <-].
  rewrite reverse_cons, insert_outputs_app, (Hpre _ eq_refl). simpl. unfold vec_insert.
  rewrite (proj2 (Nat.leb_le _ _)) by (rewrite length_app; simpl; lia). simpl.
  rewrite take_app_ge, drop_app_ge by lia. replace (length pre + 1 - length pre) with 1 by lia. simpl.
  by rewrite <- app_assoc.
Qed.

(** The insertion at the recorded indices, last first, is the reference. *)
Lemma ensure_spec items items' :
  ensure_call_outputs_present uuid_new_v5 debug_assertions items = Some items' → items' = with_outputs items.
Proof.
  unfold ensure_call_outputs_present. destruct (missing_outputs _ _ 0 items) as [ms|] eqn:E; simpl; [|done].
  pose proof (insert_outputs_spec items items [] ms E) as Hi. simpl in Hi. rewrite Hi. by intros [= <-].
Qed.

Lemma elem_of_with_outputs items e :
  e ∈ with_outputs items ↔ e ∈ items ∨ ∃ e0 err o, e0 ∈ items ∧ find items (item e0) = Some (err, o) ∧ e = new_envelope o.
Proof.
  unfold with_outputs, answer. rewrite list_elem_of_bind. split.
  - intros (e0 & He & He0). destruct (find items (item e0)) as [[err o]|] eqn:Ef; [|set_solver].
    apply elem_of_cons in He as [->|He%list_elem_of_singleton]; [by left|]. right. by exists e0, err, o.
  - intros [He|(e0 & err & o & He0 & Ef & ->)]; [exists e; set_solver|]. exists e0. rewrite Ef. set_solver.
Qed.

Lemma has_call_with_outputs items k : has_call (with_outputs items) k ↔ has_call items k.
Proof.
  unfold has_call. split; intros (e & He & Hk).
  - apply elem_of_with_outputs in He as [He|(e0 & err & o & _ & Ef & ->)]; [by exists e|].
    apply missing_output_Some in Ef as (k' & _ & _ & Hc & _). simpl in Hk. congruence.
  - exists e. rewrite elem_of_with_outputs. auto.
Qed.

Lemma with_outputs_answered items k : has_call items k → has_output (with_outputs items) k.
Proof.
  intros (e & He & Hk). destruct (find items (item e)) as [[err o]|] eqn:Ef.
  - pose proof Ef as (k' & Hk' & Ho & _)%missing_output_Some. simplify_eq. exists (new_envelope o).
    rewrite elem_of_with_outputs. split; [|done]. right. by exists e, err, o.
  - destruct (missing_output_None _ _ _ Ef Hk) as (e' & He' & Ho). exists e'. rewrite elem_of_with_outputs. auto.
Qed.

(** * Orphans *)
Definition orphan items : ResponseItem → bool :=
  is_orphan (ids_of function_call_id items) (ids_of tool_search_call_id items)
    (ids_of custom_tool_call_id items).

Lemma orphan_true items i : orphan items i = true →
  ∃ k, output_key i = Some k ∧ server_output i = false ∧ ¬ has_call items k.
Proof.
  unfold orphan. destruct i; simpl; try done; repeat case_match; try done; intros Ho; bool_props;
    rewrite ?(ids_of_calls KFunction) in * by apply finds_function_call;
    rewrite ?(ids_of_calls KToolSearch) in * by apply finds_tool_search_call;
    rewrite ?(ids_of_calls KCustomTool) in * by apply finds_custom_tool_call;
    eexists; split_and!; rewrite ?bool_decide_eq_false; done.
Qed.

Lemma orphan_false items i k : orphan items i = false → output_key i = Some k →
  server_output i = true ∨ has_call items k.
Proof.
  unfold orphan. destruct i; simpl; try done; repeat case_match; try done; intros Ho [= <-].
  - right. bool_props. apply dec_stable in Ho. by apply (ids_of_calls KFunction) in Ho; [|apply finds_function_call].
  - right. bool_props. apply dec_stable in Ho. by apply (ids_of_calls KCustomTool) in Ho; [|apply finds_custom_tool_call].
  - apply andb_false_iff in Ho as [Ho|Ho]; bool_props; apply dec_stable in Ho; [left; by apply bool_decide_eq_true|right].
    by apply (ids_of_calls KToolSearch) in Ho; [|apply finds_tool_search_call].
Qed.

Lemma orphan_positions_ge (f : ResponseItem → bool) k items ps :
  orphan_positions debug_assertions f k items = Some ps → Forall (λ p, k ≤ p) ps.
Proof.
  revert k ps. induction items as [|e items IH]; intros k ps; simpl; [intros [= <-]; constructor|].
  assert (Hm : ∀ ps', orphan_positions debug_assertions f (S k) items = Some ps' → Forall (λ p, k ≤ p) ps').
  { intros ps' Hp. eapply Forall_impl; [by eapply IH|]. simpl. lia. }
  destruct (f (item e)); [|apply Hm]. destruct (error_or_panic _); simpl; [|done].
  destruct (orphan_positions _ _ _ items) as [ps'|] eqn:E; simpl; [|done]. intros [= <-].
  constructor; [lia|by apply Hm].
Qed.

(** The positions that [retain] skips are those of the orphans. *)
Lemma retain_others_spec (f : ResponseItem → bool) k items ps :
  orphan_positions debug_assertions f k items = Some ps →
  retain_others ps k items = filter (λ e, f (item e) = false) items.
Proof.
  revert k ps. induction items as [|e items IH]; intros k ps; simpl; [done|].
  rewrite filter_cons. destruct (f (item e)) eqn:Ef.
  - destruct (error_or_panic _); simpl; [|done].
    destruct (orphan_positions _ _ _ items) as [ps'|] eqn:E; simpl; [|done]. intros [= <-].
    rewrite Nat.eqb_refl. by apply IH.
  - intros Hps. rewrite decide_True by done. rewrite <- (IH _ _ Hps). destruct ps as [|p ps]; [done|].
    apply orphan_positions_ge in Hps. inversion_clear Hps. by rewrite (proj2 (Nat.eqb_neq _ _)) by lia.
Qed.

Lemma remove_orphan_spec items items' : remove_orphan_outputs debug_assertions items = Some items' →
  items' = filter (λ e, orphan items (item e) = false) items.
Proof.
  unfold remove_orphan_outputs. destruct (orphan_positions _ _ 0 items) as [ps|] eqn:E; simpl; [|done].
  pose proof (retain_others_spec _ _ _ _ E) as Hr. destruct ps as [|p ps]; simpl; intros [= <-]; [|done].
  etransitivity; [|exact Hr]. clear. generalize 0. induction items as [|e items IH]; intros n; simpl; [done|]. by f_equal.
Qed.

Lemma call_not_orphan items i k : call_key i = Some k → orphan items i = false.
Proof. by destruct i. Qed.

(** Inserting what is missing and dropping the orphans pairs everything. *)
Lemma normalized_paired items :
  let items1 := with_outputs items in
  Paired (filter (λ e, orphan items1 (item e) = false) items1).
Proof.
  intros items1. set (items2 := filter _ items1).
  assert (Hcall : ∀ k, has_call items2 k ↔ has_call items1 k).
  { intros k. unfold has_call, items2. split; intros (e & He & Hk); exists e.
    - apply list_elem_of_filter in He as [_ He]. done.
    - rewrite list_elem_of_filter. split; [|done]. split; [by eapply call_not_orphan|done]. }
  split.
  - intros e k He Hk. assert (Hc : has_call items1 k) by (apply Hcall; by exists e).
    destruct (with_outputs_answered items k) as (e' & He' & Hk'); [by apply has_call_with_outputs|].
    exists e'. split; [|done]. apply list_elem_of_filter. split; [|done].
    destruct (orphan items1 (item e')) eqn:Eo; [|done].
    apply orphan_true in Eo as (k' & Hk'' & _ & Hn). simplify_eq. done.
  - intros e k (Ho & He)%list_elem_of_filter Hk. rewrite Hcall. by apply orphan_false.
Qed.

(** A paired history needs nothing. *)
Lemma paired_ensure items : Paired items →
  ensure_call_outputs_present uuid_new_v5 debug_assertions items = Some items.
Proof.
  intros Hp. unfold ensure_call_outputs_present.
  assert (Hn : ∀ e, e ∈ items → find items (item e) = None).
  { intros e He. destruct (find items (item e)) as [[err o]|] eqn:Ef; [|done].
    apply missing_output_Some in Ef as (k & Hk & _ & _ & Hno). by destruct Hno; apply (calls_answered _ Hp e). }
  fold (find items). enough (∀ n l, (∀ e, e ∈ l → find items (item e) = None) →
    missing_outputs debug_assertions (find items) n l = Some []) as -> by done.
  intros n l. revert n. induction l as [|e l IH]; intros n Hl; simpl; [done|].
  rewrite Hl by set_solver. apply IH. set_solver.
Qed.

Lemma paired_remove items : Paired items → remove_orphan_outputs debug_assertions items = Some items.
Proof.
  intros Hp. unfold remove_orphan_outputs. fold (orphan items).
  assert (Hn : ∀ e, e ∈ items → orphan items (item e) = false).
  { intros e He. destruct (orphan items (item e)) eqn:Eo; [|done].
    apply orphan_true in Eo as (k & Hk & Hs & Hno).
    destruct (outputs_called _ Hp e k He Hk); [congruence|done]. }
  enough (∀ n l, (∀ e, e ∈ l → orphan items (item e) = false) →
    orphan_positions debug_assertions (orphan items) n l = Some []) as -> by done.
  intros n l. revert n. induction l as [|e l IH]; intros n Hl; simpl; [done|].
  rewrite Hl by set_solver. apply IH. set_solver.
Qed.

(** Without debug assertions nothing panics. *)
Lemma missing_outputs_release f n items : debug_assertions = false →
  is_Some (missing_outputs (H := H) debug_assertions f n items).
Proof.
  intros Hd. revert n. induction items as [|e items IH]; intros n; simpl; [by eexists|].
  destruct (IH (S n)) as [ms Hms]. unfold error_or_panic. rewrite Hd, <- Hd, Hms.
  destruct (f (item e)) as [[[] o]|]; by eexists.
Qed.

Lemma orphan_positions_release f n items : debug_assertions = false →
  is_Some (orphan_positions (H := H) debug_assertions f n items).
Proof.
  intros Hd. revert n. induction items as [|e items IH]; intros n; simpl; [by eexists|].
  destruct (IH (S n)) as [ps Hps]. unfold error_or_panic. rewrite Hd, <- Hd, Hps.
  destruct (f (item e)); by eexists.
Qed.

Lemma ensure_release items : debug_assertions = false →
  ensure_call_outputs_present uuid_new_v5 debug_assertions items = Some (with_outputs items).
Proof.
  intros Hd. unfold ensure_call_outputs_present. cbv zeta.
  destruct (missing_outputs_release (find items) 0 items Hd) as [ms Em].
  pose proof (insert_outputs_spec items items [] ms Em) as Hi. unfold find in Em. rewrite Em. exact Hi.
Qed.

Lemma remove_release items : debug_assertions = false →
  remove_orphan_outputs debug_assertions items = Some (filter (λ e, orphan items (item e) = false) items).
Proof.
  intros Hd. destruct (orphan_positions_release (orphan items) 0 items Hd) as [ps Ep].
  destruct (remove_orphan_outputs debug_assertions items) as [x|] eqn:E; [by rewrite (remove_orphan_spec _ _ E)|].
  unfold remove_orphan_outputs in E. unfold orphan in Ep. by rewrite Ep in E.
Qed.
End Build.

(** * Media *)

(** No content selected by [bad], in messages and in tool outputs. *)
Definition media_free (bad : ContentItem → bool) (bad_output : OutputItem → bool) i : Prop :=
  match i with
  | Message _ _ content _ _ => Forall (λ c, bad c = false) content
  | FunctionCallOutput _ _ _ _ output _ | CustomToolCallOutput _ _ _ output _ =>
      match body output with
      | BodyText _ => True
      | BodyItems items => Forall (λ c, bad_output c = false) items
      end
  | _ => True
  end.

Definition image_free i : Prop :=
  media_free is_image_content is_image_output i ∧
  match i with ImageGenerationCall _ _ _ result _ => result = [] | _ => True end.
Definition audio_free i : Prop := media_free is_audio_content is_audio_output i.

(** A message has one kind for each content. *)
Definition aligned i : Prop :=
  match i with
  | Message _ _ content _ m =>
      ∃ p kinds, m = Some p ∧ content_item_kinds p = Some kinds ∧ length kinds = length content
  | _ => True
  end.

Lemma zip_kinds_fst content kinds : (zip_kinds content kinds).*1 = content.
Proof. revert kinds. induction content as [|c content IH]; intros [|k kinds]; simpl; [done..| |]; by rewrite IH. Qed.

Lemma zip_kinds_snd content kinds : length kinds = length content → (zip_kinds content kinds).*2 = kinds.
Proof.
  revert kinds. induction content as [|c content IH]; intros [|k kinds] Hl; simplify_eq/=; [done|]. by rewrite IH.
Qed.

Section Strip.
Context (bad : ContentItem → bool) (bad_output : OutputItem → bool) (media : UnsupportedMedia).

Lemma strip_message_id i : aligned i → media_free bad bad_output i → strip_message bad media i = i.
Proof.
  unfold strip_message. destruct i; try done. intros (p & kinds & -> & Hk & Hl) Hf. simpl in *.
  rewrite Hk. simpl.
  assert (Hz : ∀ l, Forall (λ c, bad c = false) l.*1 →
    (λ c, if bad c.1 then (CInputText (media_text media), media_kind media) else c) <$> l = l).
  { intros l. induction l as [|[c k] l IH]; intros Hl'; [done|]. inversion_clear Hl' as [|? ? Hb Hr].
    simpl in *. rewrite Hb. f_equal. by apply IH. }
  rewrite Hz by by rewrite zip_kinds_fst. rewrite zip_kinds_fst, zip_kinds_snd by done.
  destruct p. simpl in *. by rewrite Hk.
Qed.

Lemma strip_message_aligned i : aligned (strip_message bad media i).
Proof.
  unfold strip_message. destruct i; try done. simpl. eexists _, _. split; [done|]. split; [done|].
  by rewrite !length_fmap.
Qed.

(** What was replaced is gone, and the replacement brings nothing else in. *)
Lemma strip_message_free i (bad' : ContentItem → bool) (bad_output' : OutputItem → bool) :
  (∀ t, bad' (CInputText t) = false) →
  (∀ c, bad' c = true → bad c = true) ∨ media_free bad' bad_output' i →
  match i with Message _ _ _ _ _ => media_free bad' bad_output' (strip_message bad media i) | _ => True end.
Proof.
  intros Ht Hi. destruct i as [| id role content phase m| | | | | | | | | | | | | | | | ]; try done.
  unfold strip_message. simpl. set (kinds := default [] _).
  rewrite <- list_fmap_compose, Forall_fmap. apply Forall_forall. intros [c k] Hc. simpl.
  destruct (bad c) eqn:Eb; [apply Ht|]. destruct Hi as [Hi|Hi].
  - destruct (bad' c) eqn:E'; [|done]. rewrite (Hi _ E') in Eb. done.
  - simpl in Hi. rewrite Forall_forall in Hi. apply Hi. rewrite <- (zip_kinds_fst content kinds).
    apply list_elem_of_fmap. by exists (c, k).
Qed.

Lemma strip_output_id (o : FunctionCallOutputPayload) :
  match body o with BodyText _ => True | BodyItems l => Forall (λ c, bad_output c = false) l end →
  strip_output bad_output media o = o.
Proof.
  unfold strip_output. destruct o as [[t|l] s]; [done|]. simpl. intros Hl. do 2 f_equal.
  induction Hl as [|c l Hc _ IH]; [done|]. csimpl. rewrite Hc. by f_equal.
Qed.

Lemma strip_output_free (o : FunctionCallOutputPayload) (bad' : OutputItem → bool) :
  (∀ t, bad' (InputText t) = false) →
  (∀ c, bad' c = true → bad_output c = true) ∨
    match body o with BodyText _ => True | BodyItems l => Forall (λ c, bad' c = false) l end →
  match body (strip_output bad_output media o) with
  | BodyText _ => True
  | BodyItems l => Forall (λ c, bad' c = false) l
  end.
Proof.
  intros Ht Hi. unfold strip_output. destruct o as [[t|l] s]; [done|]. simpl in *.
  apply Forall_fmap, Forall_forall. intros c Hc. simpl. destruct (bad_output c) eqn:Eb; [apply Ht|].
  destruct Hi as [Hi|Hi]; [|rewrite Forall_forall in Hi; by apply Hi].
  destruct (bad' c) eqn:E'; [|done]. by rewrite (Hi _ E') in Eb.
Qed.
End Strip.

#[local] Arguments strip_message : simpl never.
#[local] Arguments strip_output : simpl never.

Lemma strip_image_item_free i : image_free (strip_image_item i) ∧ aligned (strip_image_item i).
Proof.
  unfold image_free. destruct i; simpl; try done; (split; [split|]); try done.
  - apply (strip_message_free is_image_content UNSUPPORTED_IMAGE (Message id role content phase passthrough) is_image_content is_image_output); auto.
  - exact (strip_message_aligned is_image_content UNSUPPORTED_IMAGE (Message id role content phase passthrough)).
  - apply (strip_output_free _ UNSUPPORTED_IMAGE); auto.
  - apply (strip_output_free _ UNSUPPORTED_IMAGE); auto.
Qed.

Lemma strip_audio_item_free i : audio_free (strip_audio_item i) ∧ aligned (strip_audio_item i).
Proof.
  unfold audio_free. destruct i; simpl; try done; split; try done.
  - apply (strip_message_free is_audio_content UNSUPPORTED_AUDIO (Message id role content phase passthrough) is_audio_content is_audio_output); auto.
  - exact (strip_message_aligned is_audio_content UNSUPPORTED_AUDIO (Message id role content phase passthrough)).
  - apply (strip_output_free _ UNSUPPORTED_AUDIO); auto.
  - apply (strip_output_free _ UNSUPPORTED_AUDIO); auto.
Qed.

Lemma strip_audio_keeps_image_free i : image_free i → image_free (strip_audio_item i).
Proof.
  unfold image_free. intros [Hf Hg]. destruct i; simpl in *; try done; (split; [|done]).
  - apply (strip_message_free is_audio_content UNSUPPORTED_AUDIO (Message id role content phase passthrough) is_image_content is_image_output); auto.
  - apply (strip_output_free is_audio_output UNSUPPORTED_AUDIO); auto.
  - apply (strip_output_free is_audio_output UNSUPPORTED_AUDIO); auto.
Qed.

Lemma strip_image_item_id i : aligned i → image_free i → strip_image_item i = i.
Proof.
  intros Ha [Hf Hg]. destruct i; simpl in *; try done; try (f_equal; by apply strip_output_id); [|by subst].
  by eapply (strip_message_id _ is_image_output).
Qed.

Lemma strip_audio_item_id i : aligned i → audio_free i → strip_audio_item i = i.
Proof.
  intros Ha Hf. destruct i; simpl in *; try done; try (f_equal; by apply strip_output_id).
  by eapply (strip_message_id _ is_audio_output).
Qed.

(** ** Both passes *)
Definition prepare (m : list InputModality) i : ResponseItem :=
  let i := if bool_decide (Image ∈ m) then i else strip_image_item i in
  if bool_decide (Audio ∈ m) then i else strip_audio_item i.

Definition supported (m : list InputModality) i : Prop :=
  (Image ∉ m → image_free i) ∧ (Audio ∉ m → audio_free i).

Lemma prepare_supported m i : supported m (prepare m i).
Proof.
  unfold supported, prepare. split; intros Hm; rewrite (bool_decide_eq_false_2 _ Hm).
  - case_bool_decide; [|apply strip_audio_keeps_image_free]; apply strip_image_item_free.
  - apply strip_audio_item_free.
Qed.

Lemma prepare_idemp m i : prepare m (prepare m i) = prepare m i.
Proof.
  pose proof (prepare_supported m i) as [Hi Ha]. unfold prepare in *.
  destruct (strip_image_item_free i) as [_ Hai]. pose proof (strip_audio_item_free i) as [_ Haa].
  destruct (strip_audio_item_free (strip_image_item i)) as [_ Haia].
  case_bool_decide as Em; case_bool_decide as Ea; [done| | |].
  - apply strip_image_item_id; auto.
  - apply strip_audio_item_id; auto.
  - rewrite (strip_image_item_id (strip_audio_item _)) by auto. apply strip_audio_item_id; auto.
Qed.

Lemma prepare_keys m i :
  call_key (prepare m i) = call_key i ∧ output_key (prepare m i) = output_key i
  ∧ server_output (prepare m i) = server_output i.
Proof. unfold prepare. destruct (bool_decide _), (bool_decide _); by destruct i. Qed.

Definition prepare_envelope (m : list InputModality) e : Envelope := with_item (prepare m (item e)) e.

Lemma strip_both m items :
  strip_audio_when_unsupported m (strip_images_when_unsupported m items) = prepare_envelope m <$> items.
Proof.
  unfold strip_audio_when_unsupported, strip_images_when_unsupported, prepare_envelope, prepare.
  destruct (bool_decide (Image ∈ m)), (bool_decide (Audio ∈ m)); [| |done|by rewrite <- list_fmap_compose].
  - induction items as [|[] items IH]; csimpl; [done|]. by f_equal.
  - done.
Qed.

Lemma prepare_paired m items : Paired items → Paired (prepare_envelope m <$> items).
Proof.
  intros [Hc Ho].
  assert (Hcall : ∀ k, has_call items k → has_call (prepare_envelope m <$> items) k).
  { intros k (e & He & Hk). exists (prepare_envelope m e). split; [by apply list_elem_of_fmap_2|].
    simpl. by destruct (prepare_keys m (item e)) as [-> _]. }
  split; intros e' k (e & -> & He)%list_elem_of_fmap; simpl;
    destruct (prepare_keys m (item e)) as (Ek & Eo & Es); rewrite ?Ek, ?Eo, ?Es; intros Hk.
  - destruct (Hc e k He Hk) as (e2 & He2 & Hk2). exists (prepare_envelope m e2).
    split; [by apply list_elem_of_fmap_2|]. simpl. by destruct (prepare_keys m (item e2)) as (_ & -> & _).
  - destruct (Ho e k He Hk); auto.
Qed.

(** * The theorems *)

(** The history that is sent: outputs inserted after the calls that lack one, orphans
    dropped, media replaced. *)
Definition prepared_history uuid (m : list InputModality) items : list Envelope :=
  prepare_envelope m <$> filter (λ e, orphan (with_outputs uuid items) (item e) = false) (with_outputs uuid items).


(** Normalizing is idempotent: a history that was normalized is sent unchanged, and
    normalizing it again does not panic, with or without debug assertions. *)
Theorem normalization_idempotent uuid uuid' debug debug' m items items' :
  normalize_history uuid debug m items = Some items' →
  normalize_history uuid' debug' m items' = Some items'.
Proof.
  unfold normalize_history. destruct (ensure_call_outputs_present _ _ items) as [x|] eqn:E1; simpl; [|done].
  destruct (remove_orphan_outputs _ x) as [y|] eqn:E2; simpl; [|done]. rewrite strip_both. intros [= <-].
  apply ensure_spec in E1. apply remove_orphan_spec in E2. subst.
  pose proof (prepare_paired m _ (normalized_paired uuid items)) as Hp.
  rewrite paired_ensure by done. simpl. rewrite paired_remove by done. simpl. rewrite strip_both. f_equal.
  rewrite <- list_fmap_compose. apply list_fmap_ext. intros _ e _.
  unfold prepare_envelope, compose. simpl. by rewrite prepare_idemp.
Qed.

(** ** Dropping the oldest item *)

(** One item with the key is gone, or there was none. *)
Definition removed (key : ResponseItem → option (CallKind * str)) (k : CallKind * str) items items' : Prop :=
  (∃ x, items ≡ₚ x :: items' ∧ key (item x) = Some k) ∨
  (items' = items ∧ ∀ e, e ∈ items → key (item e) ≠ Some k).

Lemma position_Some f items n : position (H := H) f items = Some n → ∃ x, items !! n = Some x ∧ f (item x) = true.
Proof.
  revert n. induction items as [|e items IH]; intros n; simpl; [done|].
  destruct (f (item e)) eqn:Ef; [intros [= <-]; by exists e|].
  intros (n' & Hn & ->)%fmap_Some. by destruct (IH n' Hn) as (x & ? & ?); exists x.
Qed.

Lemma position_None f items e : position (H := H) f items = None → e ∈ items → f (item e) = false.
Proof.
  induction items as [|x items IH]; simpl; [set_solver|]. destruct (f (item x)) eqn:Ef; [done|].
  rewrite fmap_None. intros Hp [->|He]%elem_of_cons; auto.
Qed.

Lemma remove_first_matching_removed key kind (f : ResponseItem → option str) c items :
  finds key kind f → removed key (kind, c) items (remove_first_matching (is_id f c) items).
Proof.
  intros Hf. unfold remove_first_matching, removed, is_id. destruct (position _ items) as [n|] eqn:Ep.
  - left. apply position_Some in Ep as (x & Hx & Hb). exists x. split; [by apply delete_Permutation|].
    apply bool_decide_eq_true in Hb. by apply Hf.
  - right. split; [done|]. intros e He Hk. apply (position_None _ _ e) in Ep; [|done].
    apply bool_decide_eq_false in Ep. by apply Ep, Hf.
Qed.

Lemma remove_corresponding_spec i items :
  match call_key i, output_key i with
  | Some k, _ => removed output_key k items (remove_corresponding_for items i)
  | None, Some k => removed call_key k items (remove_corresponding_for items i)
  | None, None => remove_corresponding_for items i = items
  end.
Proof.
  destruct i as [| | | |? [c|]| |? [c|]|? [c|]| | |? [c|]| | | | | | | ]; simpl; try done;
    try apply remove_first_matching_removed;
    auto using finds_function_output, finds_tool_search_output, finds_custom_tool_output,
      finds_tool_search_call, finds_custom_tool_call.
  destruct (position (is_id plain_function_call_id c) items) as [n|] eqn:E1.
  { apply position_Some in E1 as (x & Hx & Hb). left. exists x. split; [by apply delete_Permutation|].
    apply bool_decide_eq_true in Hb. by destruct (item x); simplify_eq/=. }
  destruct (position (is_id local_shell_call_id c) items) as [n|] eqn:E2.
  { apply position_Some in E2 as (x & Hx & Hb). left. exists x. split; [by apply delete_Permutation|].
    apply bool_decide_eq_true in Hb. by destruct (item x) as [| | | |? [c'|]| | | | | | | | | | | | | ]; simplify_eq/=. }
  right. split; [done|]. intros e He Hk. apply (position_None _ _ e) in E1, E2; [|done..].
  apply bool_decide_eq_false in E1, E2.
  destruct (item e) as [| | | |? [c'|]| |? [c'|]| | | | | | | | | | | ]; simplify_eq/=.
Qed.

(** No two calls and no two outputs share a key. *)
Definition distinct_keys items : Prop :=
  NoDup (omap (λ e, call_key (item e)) items) ∧ NoDup (omap (λ e, output_key (item e)) items).

Lemma distinct_tail (key : ResponseItem → option (CallKind * str)) (x : Envelope) items k e :
  NoDup (omap (λ e, key (item e)) (x :: items)) → key (item x) = Some k → e ∈ items → key (item e) ≠ Some k.
Proof.
  simpl. intros Hn Hx He Hk. rewrite Hx in Hn. apply NoDup_cons in Hn as [Hn _]. apply Hn.
  apply list_elem_of_omap. eauto.
Qed.

Lemma distinct_removed (key : ResponseItem → option (CallKind * str)) k items items' e :
  NoDup (omap (λ e, key (item e)) items) → removed key k items items' → e ∈ items' → key (item e) ≠ Some k.
Proof.
  intros Hn [(x & Hp & Hx)|[-> Hno]] He; [|by apply Hno].
  rewrite Hp in Hn. by eapply distinct_tail.
Qed.

Lemma removed_other key k items items' e :
  removed key k items items' → e ∈ items → key (item e) ≠ Some k → e ∈ items'.
Proof. intros [(x & Hp & Hx)|[-> _]] He Hk; [|done]. rewrite Hp in He. set_solver. Qed.

Lemma removed_sub key k items items' e : removed key k items items' → e ∈ items' → e ∈ items.
Proof. intros [(x & Hp & _)|[-> _]] He; [|done]. rewrite Hp. by right. Qed.

Lemma call_not_output i k : call_key i = Some k → output_key i = None.
Proof. by destruct i. Qed.

Lemma remove_call_paired x items items' k : Paired (x :: items) → distinct_keys (x :: items) →
  call_key (item x) = Some k → removed output_key k items items' → Paired items'.
Proof.
  intros [Hc Ho] [Hdc Hdo] Hx Hr. pose proof (call_not_output _ _ Hx) as Hxo.
  assert (Hdo' : NoDup (omap (λ e, output_key (item e)) items)) by (simpl in Hdo; by rewrite Hxo in Hdo).
  split; intros e k' He Hk; pose proof (removed_sub _ _ _ _ _ Hr He) as He'.
  - destruct (Hc e k') as (o & Hoin & Hok); [set_solver|done|].
    assert (k' ≠ k) by (intros ->; by eapply (distinct_tail call_key x items k e)).
    apply elem_of_cons in Hoin as [->|Hoin]; [congruence|].
    exists o. split; [|done]. eapply removed_other; [done..|congruence].
  - destruct (Ho e k') as [?|(c & Hcin & Hck)]; [set_solver|done|by left|right].
    assert (k' ≠ k) by (intros ->; by eapply (distinct_removed output_key)).
    apply elem_of_cons in Hcin as [->|Hcin]; [congruence|].
    exists c. split; [|done]. eapply removed_other; [done..|]. by rewrite (call_not_output _ _ Hck).
Qed.

Lemma remove_output_paired x items items' k : Paired (x :: items) → distinct_keys (x :: items) →
  call_key (item x) = None → output_key (item x) = Some k → removed call_key k items items' → Paired items'.
Proof.
  intros [Hc Ho] [Hdc Hdo] Hxc Hx Hr.
  assert (Hdc' : NoDup (omap (λ e, call_key (item e)) items)) by (simpl in Hdc; by rewrite Hxc in Hdc).
  split; intros e k' He Hk; pose proof (removed_sub _ _ _ _ _ Hr He) as He'.
  - destruct (Hc e k') as (o & Hoin & Hok); [set_solver|done|].
    assert (k' ≠ k) by (intros ->; by eapply (distinct_removed call_key)).
    apply elem_of_cons in Hoin as [->|Hoin]; [congruence|].
    exists o. split; [|done]. eapply removed_other; [done..|]. intros Hok'.
    apply call_not_output in Hok'. congruence.
  - destruct (Ho e k') as [?|(c & Hcin & Hck)]; [set_solver|done|by left|right].
    assert (k' ≠ k) by (intros ->; by eapply (distinct_tail output_key x items k e)).
    apply elem_of_cons in Hcin as [->|Hcin]; [congruence|].
    exists c. split; [|done]. eapply removed_other; [done..|congruence].
Qed.

(** Dropping the oldest item keeps the history paired without a normalization:
    when no two calls and no two outputs share an id, [remove_first_item] removes the
    other half of the pair together with the item. *)
Theorem remove_first_item_paired items :
  Paired items → distinct_keys items → Paired (remove_first_item items).
Proof.
  intros Hp Hd. destruct items as [|x items]; [done|]. simpl.
  pose proof (remove_corresponding_spec (item x) items) as Hr.
  destruct (call_key (item x)) as [k|] eqn:Hc; [by eapply remove_call_paired|].
  destruct (output_key (item x)) as [k|] eqn:Ho; [by eapply remove_output_paired|].
  rewrite Hr. destruct Hp as [Hpc Hpo]. split; intros e k He Hk.
  - destruct (Hpc e k) as (o & Hoin & Hok); [set_solver|done|]. exists o.
    apply elem_of_cons in Hoin as [->|?]; [congruence|done].
  - destruct (Hpo e k) as [?|(c & Hcin & Hck)]; [set_solver|done|by left|right]. exists c.
    apply elem_of_cons in Hcin as [->|?]; [congruence|done].
Qed.
End Facts.

(** * A sample history *)
Definition unit_types : ProtocolTypes := Build_ProtocolTypes unit unit unit unit unit unit unit unit unit unit.
#[export] Existing Instance unit_types.

Definition sample_call (id : str) : ResponseItem := FunctionCall (Some (lit "fc_1")) (lit "shell") None (lit "{}") None id None.
Definition sample_output (id : str) (p : FunctionCallOutputPayload) : ResponseItem :=
  FunctionCallOutput None (Some id) None None p None.

Definition sample_history : list (ResponseItemEnvelope unit) := new_envelope <$>
  [Message None (lit "user") [CInputText (lit "hi"); CInputImage (Inline (lit "data:")) None] None None;
   sample_call (lit "a"); sample_output (lit "b") (from_text (lit "orphan")); sample_call (lit "c");
   sample_output (lit "c") (mkPayload (BodyItems [InputImage (Inline (lit "data:")) None]) None)].

Lemma normalization_idempotent_witness : ∃ items', normalize_history id false [Text] sample_history = Some items'
  ∧ length items' = 5 ∧ normalize_history id true [Text] items' = Some items'.
Proof.
  eexists. split; [vm_compute; reflexivity|]. split; [reflexivity|].
  apply (normalization_idempotent id id false true [Text] sample_history). vm_compute. reflexivity.
Defined.

Definition sample_pair : list (ResponseItemEnvelope unit) :=
  new_envelope <$> [sample_call (lit "a"); OtherItem; sample_output (lit "a") (from_text (lit "done"))].

Lemma remove_first_item_paired_witness :
  remove_first_item sample_pair = [new_envelope OtherItem] ∧ Paired (remove_first_item sample_pair).
Proof.
  split; [vm_compute; reflexivity|]. apply (remove_first_item_paired sample_pair).
  - split; intros e k He Hk; unfold sample_pair in He; simpl in He; rewrite !elem_of_cons in He;
      destruct He as [->|[->|[->|He]]]; simplify_eq/=; try by apply elem_of_nil in He.
    + exists (new_envelope (sample_output (lit "a") (from_text (lit "done")))). split; [|done]. unfold sample_pair. set_solver.
    + right. exists (new_envelope (sample_call (lit "a"))). split; [|done]. unfold sample_pair. set_solver.
  - split; apply (bool_decide_unpack _); vm_compute; exact I.
Defined.
