(* ===== verification/InlineHiddenTag.v ===== *)
(** [stream_text.rs], [inline_hidden_tag.rs] and [citation.rs] of
    [utils/stream-parser]: hiding inline tags in streamed text and extracting their
    contents.

    Offsets are counted in characters; the delimiters and the slices of the source lie
    on character boundaries. *)
From stdpp Require Import base list numbers strings.
From S2P Require Import Prelude RustStr.

(** * Streamed text *)
Record StreamTextChunk (E : Type) : Type := mkTextChunk {
  visible_text : str;
  extracted : list E;
}.
Arguments mkTextChunk {E} visible_text extracted.
Arguments visible_text {E} _.
Arguments extracted {E} _.

Definition default_chunk {E} : StreamTextChunk E := mkTextChunk [] [].

Definition chunk_is_empty {E} (c : StreamTextChunk E) : bool :=
  is_empty (visible_text c) && is_empty (extracted c).

Definition chunk_app {E} (a b : StreamTextChunk E) : StreamTextChunk E :=
  mkTextChunk (visible_text a ++ visible_text b) (extracted a ++ extracted b).

(** The trait [StreamTextParser]. *)
Class StreamTextParser (P E : Type) := {
  push_str : str → P → P * StreamTextChunk E;
  finish : P → P * StreamTextChunk E;
}.

(** Feeding the chunks of a stream one after the other. *)
Fixpoint push_all {P E} `{StreamTextParser P E} (chunks : list str) (p : P) : P * StreamTextChunk E :=
  match chunks with
  | [] => (p, default_chunk)
  | c :: chunks =>
      let (p, out) := push_str c p in
      let (p, rest) := push_all chunks p in
      (p, chunk_app out rest)
  end.

(** A whole stream: its chunks and the final flush. *)
Definition run_stream {P E} `{StreamTextParser P E} (chunks : list str) (p : P) : StreamTextChunk E :=
  let (p, out) := push_all chunks p in
  chunk_app out (finish p).2.

(** * Hidden inline tags *)
Record ExtractedInlineTag (T : Type) : Type := mkExtracted { ex_tag : T; ex_content : str }.
Arguments mkExtracted {T} ex_tag ex_content.
Arguments ex_content {T} _.

Record InlineTagSpec (T : Type) : Type := mkInlineSpec {
  spec_tag : T;
  spec_open : str;
  spec_close : str;
}.
Arguments mkInlineSpec {T} spec_tag spec_open spec_close.
Arguments spec_tag {T} _.
Arguments spec_open {T} _.
Arguments spec_close {T} _.

Record ActiveTag (T : Type) : Type := mkActive {
  active_tag : T;
  active_close : str;
  active_content : str;
}.
Arguments mkActive {T} active_tag active_close active_content.
Arguments active_tag {T} _.
Arguments active_close {T} _.
Arguments active_content {T} _.

Record InlineHiddenTagParser (T : Type) : Type := mkInline {
  specs : list (InlineTagSpec T);
  pending : str;
  active : option (ActiveTag T);
}.
Arguments mkInline {T} specs pending active.
Arguments specs {T} _.
Arguments pending {T} _.
Arguments active {T} _.

(** The loop over [k] from [n] down to 1. *)
Fixpoint longest_from (s needle : str) (n : nat) : nat :=
  match n with
  | 0 => 0
  | S k => if ends_with s (take n needle) then n else longest_from s needle k
  end.

Definition longest_suffix_prefix_len (s needle : str) : nat :=
  longest_from s needle (Nat.min (length s) (length needle - 1)).

Section Inline.
Context {T : Type}.
Abbreviation Parser := (InlineHiddenTagParser T).
Abbreviation Chunk := (StreamTextChunk (ExtractedInlineTag T)).

(** [InlineHiddenTagParser::new]; [None] is the panic of its assertions. *)
Definition new_inline (ss : list (InlineTagSpec T)) : option Parser :=
  if is_empty ss || existsb (λ s, is_empty (spec_open s) || is_empty (spec_close s)) ss then None
  else Some (mkInline ss [] None).

(** The order of [min_by]: position, then longer delimiter, then index. *)
Definition open_before (a b : nat * nat * nat) : bool :=
  let '(pos_a, len_a, idx_a) := a in
  let '(pos_b, len_b, idx_b) := b in
  if pos_a =? pos_b then
    if len_b =? len_a then idx_a <=? idx_b else len_b <? len_a
  else pos_a <? pos_b.

Fixpoint min_open (l : list (nat * nat * nat)) : option (nat * nat * nat) :=
  match l with
  | [] => None
  | x :: l =>
      match min_open l with
      | Some y => Some (if open_before x y then x else y)
      | None => Some x
      end
  end.

Fixpoint open_candidates (pending : str) (ss : list (InlineTagSpec T)) (idx : nat)
    : list (nat * nat * nat) :=
  match ss with
  | [] => []
  | s :: ss =>
      match find pending (spec_open s) with
      | Some pos => [(pos, length (spec_open s), idx)]
      | None => []
      end ++ open_candidates pending ss (S idx)
  end.

Definition find_next_open (p : Parser) : option (nat * nat) :=
  '(pos, _, idx) ← min_open (open_candidates (pending p) (specs p) 0);
  Some (pos, idx).

Definition max_open_prefix_suffix_len (p : Parser) : nat :=
  foldr Nat.max 0 ((λ s, longest_suffix_prefix_len (pending p) (spec_open s)) <$> specs p).

Definition set_pending (s : str) (p : Parser) : Parser := mkInline (specs p) s (active p).
Definition set_active (a : option (ActiveTag T)) (p : Parser) : Parser :=
  mkInline (specs p) (pending p) a.

Definition drain_visible_to_suffix_match (p : Parser) (out : Chunk) (keep_suffix_len : nat)
    : Parser * Chunk :=
  let n := length (pending p) - keep_suffix_len in
  (set_pending (drop n (pending p)) p,
   mkTextChunk (visible_text out ++ take n (pending p)) (extracted out)).

(** The [loop] of [push_str]; every [continue] consumes a delimiter, so [fuel] beyond
    the length of the pending text is never used up. *)
Fixpoint push_loop (fuel : nat) (p : Parser) (out : Chunk) : Parser * Chunk :=
  match fuel with
  | 0 => (p, out)
  | S fuel =>
      match active p with
      | Some a =>
          match find (pending p) (active_close a) with
          | Some close_idx =>
              push_loop fuel
                (mkInline (specs p) (drop (close_idx + length (active_close a)) (pending p)) None)
                (mkTextChunk (visible_text out)
                   (extracted out ++
                    [mkExtracted (active_tag a) (active_content a ++ take close_idx (pending p))]))
          | None =>
              let keep := longest_suffix_prefix_len (pending p) (active_close a) in
              let n := length (pending p) - keep in
              (mkInline (specs p) (drop n (pending p))
                 (Some (mkActive (active_tag a) (active_close a)
                    (active_content a ++ take n (pending p)))), out)
          end
      | None =>
          match find_next_open p with
          | Some (open_idx, spec_idx) =>
              match specs p !! spec_idx with
              | Some spec =>
                  push_loop fuel
                    (mkInline (specs p) (drop (open_idx + length (spec_open spec)) (pending p))
                       (Some (mkActive (spec_tag spec) (spec_close spec) [])))
                    (mkTextChunk (visible_text out ++ take open_idx (pending p)) (extracted out))
              | None => (p, out)
              end
          | None => drain_visible_to_suffix_match p out (max_open_prefix_suffix_len p)
          end
      end
  end.

Definition inline_push_str (chunk : str) (p : Parser) : Parser * Chunk :=
  let p := set_pending (pending p ++ chunk) p in
  push_loop (S (length (pending p))) p default_chunk.

Definition inline_finish (p : Parser) : Parser * Chunk :=
  match active p with
  | Some a =>
      (mkInline (specs p) [] None,
       mkTextChunk [] [mkExtracted (active_tag a) (active_content a ++ pending p)])
  | None => (mkInline (specs p) [] None, mkTextChunk (pending p) [])
  end.

#[export] Instance inline_stream : StreamTextParser Parser (ExtractedInlineTag T) := {|
  push_str := inline_push_str;
  finish := inline_finish;
|}.
End Inline.

(** * Citations *)
Definition CITATION_OPEN : str := lit "<oai-mem-citation>".
Definition CITATION_CLOSE : str := lit "</oai-mem-citation>".

Record CitationStreamParser : Type := mkCitation { citation_inner : InlineHiddenTagParser unit }.

Definition new_citation : CitationStreamParser :=
  mkCitation (mkInline [mkInlineSpec tt CITATION_OPEN CITATION_CLOSE] [] None).

Definition citation_chunk (c : StreamTextChunk (ExtractedInlineTag unit)) : StreamTextChunk str :=
  mkTextChunk (visible_text c) (ex_content <$> extracted c).

#[export] Instance citation_stream : StreamTextParser CitationStreamParser str := {|
  push_str chunk p :=
    let (inner, out) := push_str chunk (citation_inner p) in (mkCitation inner, citation_chunk out);
  finish p := let (inner, out) := finish (citation_inner p) in (mkCitation inner, citation_chunk out);
|}.

Definition strip_citations (text : str) : str * list str :=
  let (p, out) := push_str text new_citation in
  let tail := (finish p).2 in
  (visible_text out ++ visible_text tail, extracted out ++ extracted tail).
