(* ===== verification/InlineHiddenTagFacts.v ===== *)
(** Hidden inline tags: the parse does not depend on how the stream is cut into chunks,
    and what the citation parser hides and extracts. *)
From stdpp Require Import base list numbers strings.
From S2P Require Import Prelude RustStr InlineHiddenTag.

(** * Scanning for a delimiter *)

(** [Found u r]: [u], the delimiter, [r]. [Keep u w]: no delimiter; [w] may be the
    beginning of one. *)
Inductive scanned : Type :=
| Found (u r : str)
| Keep (u w : str).

Definition scan (n s : str) : scanned :=
  match find s n with
  | Some i => Found (take i s) (drop (i + length n) s)
  | None =>
      let k := longest_suffix_prefix_len s n in
      Keep (take (length s - k) s) (drop (length s - k) s)
  end.

Definition prepend (u : str) (x : scanned) : scanned :=
  match x with
  | Found u' r => Found (u ++ u') r
  | Keep u' w => Keep (u ++ u') w
  end.

(** [s] ends with the first [k] characters of [n]. *)
Definition suffix_prefix (s n : str) (k : nat) : Prop :=
  k ≤ length n - 1 ∧ ∃ u, s = u ++ take k n.

Lemma suffix_prefix_len s n k : suffix_prefix s n k → k ≤ length s.
Proof. intros [Hk [u ->]]. rewrite length_app, length_take. lia. Qed.

Lemma longest_from_spec s n m :
  m ≤ length n - 1 →
  suffix_prefix s n (longest_from s n m) ∧
  (∀ j, j ≤ m → suffix_prefix s n j → j ≤ longest_from s n m).
Proof.
  induction m as [|m IH]; intros Hm.
  - simpl. split; [split; [lia|by exists s; rewrite app_nil_r]|]. lia.
  - cbn [longest_from]. destruct (ends_with s (take (S m) n)) eqn:E.
    + split; [|lia]. split; [done|]. unfold ends_with in E. apply bool_decide_eq_true in E as [u Hu].
      apply strip_suffix_Some in Hu. by exists u.
    + destruct IH as [H1 H2]; [lia|]. split; [done|]. intros j Hj Hs.
      destruct (decide (j = S m)) as [->|]; [|apply H2; [lia|done]].
      destruct Hs as [_ [u ->]]. unfold ends_with in E. apply bool_decide_eq_false in E.
      exfalso. apply E. exists u. by apply strip_suffix_Some.
Qed.

Lemma longest_spec s n :
  suffix_prefix s n (longest_suffix_prefix_len s n) ∧
  (∀ j, suffix_prefix s n j → j ≤ longest_suffix_prefix_len s n).
Proof.
  unfold longest_suffix_prefix_len. destruct (longest_from_spec s n (length s `min` (length n - 1)))
    as [H1 H2]; [lia|]. split; [done|]. intros j Hj. pose proof (suffix_prefix_len _ _ _ Hj).
  apply H2; [destruct Hj; lia|done].
Qed.

Lemma longest_unique s n k :
  suffix_prefix s n k → (∀ j, suffix_prefix s n j → j ≤ k) → longest_suffix_prefix_len s n = k.
Proof. intros H1 H2. destruct (longest_spec s n) as [H3 H4]. apply H2 in H3. apply H4 in H1. lia. Qed.

(** The text before the kept part and the kept part. *)
Lemma scan_Keep n s u w :
  scan n s = Keep u w →
  find s n = None ∧ s = u ++ w ∧ w = take (length w) n ∧ length w ≤ length n - 1
  ∧ (∀ j, suffix_prefix s n j → j ≤ length w).
Proof.
  unfold scan. destruct (find s n) eqn:E; [done|]. intros [= <- <-].
  destruct (longest_spec s n) as [[Hk [x Hx]] Hmax].
  set (k := longest_suffix_prefix_len s n) in *.
  assert (Hlx : length s - k = length x).
  { rewrite Hx, length_app, length_take. lia. }
  assert (Hd : drop (length s - k) s = take k n).
  { rewrite Hlx. rewrite Hx at 1. apply drop_app_length. }
  assert (Hl : length (take k n) = k) by (rewrite length_take; lia).
  rewrite Hd, Hl. split; [done|]. split; [|done].
  rewrite Hx at 1. f_equal. rewrite Hlx. rewrite Hx at 1. by rewrite take_app_length.
Qed.

Lemma scan_Found n s u r :
  scan n s = Found u r →
  s = u ++ n ++ r ∧ (∀ a b, s = a ++ n ++ b → length u ≤ length a).
Proof.
  unfold scan. destruct (find s n) as [i|] eqn:E; [|done]. intros [= <- <-].
  apply find_Some in E as (a & b & Hs & Ha & Hmin). subst i.
  assert (take (length a) s = a) as ->.
  { rewrite Hs at 1. apply take_app_length. }
  assert (drop (length a + length n) s = b) as ->; [|done].
  rewrite Hs, (assoc_L (++)), <- length_app. apply drop_app_length.
Qed.

Lemma scan_first u n r :
  (∀ a b, u ++ n ++ r = a ++ n ++ b → length u ≤ length a) → scan n (u ++ n ++ r) = Found u r.
Proof.
  intros Hmin. unfold scan. rewrite find_first by done. rewrite take_app_length. f_equal.
  rewrite (assoc_L (++)), <- length_app. apply drop_app_length.
Qed.

Lemma scan_none s n : (∀ a b, s ≠ a ++ n ++ b) → find s n = None.
Proof.
  intros H. destruct (find s n) eqn:E; [|done]. apply find_Some in E as (a & b & Hs & _).
  by destruct (H a b).
Qed.

(** What follows a found delimiter does not matter. *)
Lemma scan_app_Found n s1 s2 u r : scan n s1 = Found u r → scan n (s1 ++ s2) = Found u (r ++ s2).
Proof.
  intros [Hs Hmin]%scan_Found.
  assert (Heq : s1 ++ s2 = u ++ n ++ r ++ s2) by (rewrite Hs; by rewrite <- !(assoc_L (++))).
  rewrite Heq. apply scan_first. intros a b H. rewrite <- Heq in H.
  destruct (decide (length u ≤ length a)); [done|]. exfalso.
  rewrite (assoc_L (++) a) in H. apply app_eq_inv in H as [(k & H1 & H2)|(k & H1 & H2)].
  - rewrite H1 in Hmin. specialize (Hmin a k). rewrite <- (assoc_L (++)) in Hmin. specialize (Hmin eq_refl). lia.
  - apply (f_equal length) in H1. apply (f_equal length) in Hs. rewrite !length_app in *. lia.
Qed.

(** No delimiter starts in the part before the kept one, whatever follows. *)
Lemma keep_occurrence n s1 s2 u w a b :
  n ≠ [] → scan n s1 = Keep u w → s1 ++ s2 = a ++ n ++ b → length u ≤ length a.
Proof.
  intros Hn (Hnone & Hs & _ & _ & Hmax)%scan_Keep Heq.
  destruct (decide (length u ≤ length a)); [done|]. exfalso.
  apply app_eq_inv in Heq as [(k & H1 & H2)|(k & H1 & H2)].
  - apply app_eq_inv in H2 as [(k2 & H3 & H4)|(k2 & H3 & H4)].
    + assert (Hsp : suffix_prefix s1 n (length k)).
      { split.
        - destruct k2 as [|c k2].
          + rewrite app_nil_r in H3. subst k. by destruct (find_None _ _ Hnone a []); rewrite app_nil_r.
          + rewrite H3, length_app. simpl. lia.
        - exists a. rewrite H3, take_app_length. done. }
      apply Hmax in Hsp. apply (f_equal length) in H1. apply (f_equal length) in Hs.
      rewrite !length_app in *. lia.
    + subst k. by destruct (find_None _ _ Hnone a k2).
  - apply (f_equal length) in H1. apply (f_equal length) in Hs. rewrite length_app in *. lia.
Qed.

Lemma keep_suffix_prefix n s1 s2 u w j :
  scan n s1 = Keep u w → suffix_prefix (s1 ++ s2) n j → suffix_prefix (w ++ s2) n j.
Proof.
  intros Hk [Hj [x Hx]]. split; [done|]. pose proof (scan_Keep _ _ _ _ Hk) as (_ & Hs & _ & _ & Hmax).
  destruct (decide (length u ≤ length x)) as [Hl|Hl].
  - rewrite Hs, <- (assoc_L (++)) in Hx. apply app_eq_inv in Hx as [(k & H1 & H2)|(k & H1 & H2)].
    + assert (k = []) as ->.
      { apply nil_length_inv. apply (f_equal length) in H1. rewrite length_app in H1. lia. }
      exists []. rewrite app_nil_l in H2 |- *. done.
    + by exists k.
  - exfalso. apply app_eq_inv in Hx as [(k & H1 & H2)|(k & H1 & H2)].
    + assert (Hsp : suffix_prefix s1 n (length k)).
      { apply (f_equal length) in H2 as Hl2. rewrite length_take, length_app in Hl2. split; [lia|].
        exists x. rewrite H1. f_equal.
        assert (Hk' : take (length k) (take j n) = k) by (rewrite H2; apply take_app_length).
        rewrite take_take in Hk'. rewrite <- Hk' at 1. f_equal. lia. }
      apply Hmax in Hsp. apply (f_equal length) in H1. apply (f_equal length) in Hs.
      rewrite !length_app in *. lia.
    + apply (f_equal length) in H1. apply (f_equal length) in Hs. rewrite length_app in *. lia.
Qed.


(** Scanning can be resumed from the kept part. *)
Lemma scan_app_Keep n s1 s2 u w :
  n ≠ [] → scan n s1 = Keep u w → scan n (s1 ++ s2) = prepend u (scan n (w ++ s2)).
Proof.
  intros Hn Hk. pose proof (scan_Keep _ _ _ _ Hk) as (_ & Hs & _ & _ & _).
  assert (Happ : s1 ++ s2 = u ++ w ++ s2) by (rewrite Hs; by rewrite <- (assoc_L (++))).
  destruct (scan n (w ++ s2)) as [u' r|u' w'] eqn:E; simpl.
  - apply scan_Found in E as [He Hmin]. rewrite Happ, He, (assoc_L (++)). apply scan_first.
    intros a b Hab. rewrite <- (assoc_L (++)), <- He, <- Happ in Hab.
    pose proof (keep_occurrence _ _ _ _ _ _ _ Hn Hk Hab) as Hl. rewrite Happ in Hab.
    apply app_eq_inv in Hab as [(k & H1 & H2)|(k & H1 & H2)].
    + assert (k = []) as ->.
      { apply nil_length_inv. apply (f_equal length) in H1. rewrite length_app in H1. lia. }
      pose proof (Hmin [] b (eq_sym H2)) as Hz. rewrite length_app. rewrite app_nil_r in H1. subst. simpl in Hz. lia.
    + apply Hmin in H2. rewrite H1, !length_app. lia.
  - pose proof (scan_Keep _ _ _ _ E) as (Hnone & He & Hw & Hlw & Hmax).
    assert (Hf : find (s1 ++ s2) n = None).
    { apply scan_none. intros a b Hab. pose proof (keep_occurrence _ _ _ _ _ _ _ Hn Hk Hab) as Hl.
      rewrite Happ in Hab. apply app_eq_inv in Hab as [(k & H1 & H2)|(k & H1 & H2)].
      - assert (k = []) as ->.
        { apply nil_length_inv. apply (f_equal length) in H1. rewrite length_app in H1. lia. }
        by destruct (find_None _ _ Hnone [] b (eq_sym H2)).
      - by destruct (find_None _ _ Hnone k b). }
    assert (Hl : longest_suffix_prefix_len (s1 ++ s2) n = length w').
    { apply longest_unique.
      - split; [done|]. exists (u ++ u'). rewrite Happ, He, <- Hw. apply (assoc_L (++)).
      - intros j Hj. apply Hmax. by eapply keep_suffix_prefix. }
    unfold scan. rewrite Hf, Hl, Happ, He, (assoc_L (++)).
    rewrite length_app. replace (length (u ++ u') + length w' - length w') with (length (u ++ u')) by lia.
    by rewrite take_app_length, drop_app_length.
Qed.

Lemma scan_kept n w : w = take (length w) n → length w ≤ length n - 1 → n ≠ [] → scan n w = Keep [] w.
Proof.
  intros Hw Hl Hn. assert (0 < length n) by (destruct n; simpl; [done|lia]).
  assert (Hf : find w n = None).
  { apply scan_none. intros a b H2. apply (f_equal length) in H2. rewrite !length_app in H2. lia. }
  assert (Hk : longest_suffix_prefix_len w n = length w).
  { apply longest_unique; [split; [done|by exists []]|]. intros j Hj. by apply suffix_prefix_len in Hj. }
  unfold scan. by rewrite Hf, Hk, Nat.sub_diag.
Qed.

(** * One pair of delimiters *)
Section Single.
Context {T : Type} (spec : InlineTagSpec T).
Context (Hopen : spec_open spec ≠ []) (Hclose : spec_close spec ≠ []).

(** [parses a s v e a' w]: in mode [a] ([Some t]: inside a tag with content [t] so far)
    the text [s] shows [v], extracts [e], and leaves mode [a'] and the unread text [w]. *)
Inductive parses : option str → str → str → list str → option str → str → Prop :=
| parse_open s u r v e a w :
    scan (spec_open spec) s = Found u r → parses (Some []) r v e a w →
    parses None s (u ++ v) e a w
| parse_visible s u w :
    scan (spec_open spec) s = Keep u w → parses None s u [] None w
| parse_close t s u r v e a w :
    scan (spec_close spec) s = Found u r → parses None r v e a w →
    parses (Some t) s v ((t ++ u) :: e) a w
| parse_hidden t s u w :
    scan (spec_close spec) s = Keep u w → parses (Some t) s [] [] (Some (t ++ u)) w.

Lemma parses_det a s v e a' w v2 e2 a2 w2 :
  parses a s v e a' w → parses a s v2 e2 a2 w2 → v = v2 ∧ e = e2 ∧ a' = a2 ∧ w = w2.
Proof.
  clear Hopen Hclose. intros H. revert v2 e2 a2 w2.
  induction H as [s u r v e a w Hs _ IH|s u w Hs|t s u r v e a w Hs _ IH|t s u w Hs];
    intros v2 e2 a2 w2 H2; inversion H2 as
      [? ? ? ? ? ? ? Hs2 Hr|? ? ? Hs2|? ? ? ? ? ? ? ? Hs2 Hr|? ? ? ? Hs2]; subst;
    rewrite Hs in Hs2; simplify_eq; try done; by apply IH in Hr as (-> & -> & -> & ->).
Qed.

(** Reading on from the mode and the unread text left by a first part. *)
Lemma parses_app a s1 s2 v1 e1 a1 w1 v2 e2 a2 w2 :
  parses a s1 v1 e1 a1 w1 → parses a1 (w1 ++ s2) v2 e2 a2 w2 →
  parses a (s1 ++ s2) (v1 ++ v2) (e1 ++ e2) a2 w2.
Proof.
  induction 1 as [s u r v e a w Hs _ IH|s u w Hs|t s u r v e a w Hs _ IH|t s u w Hs]; intros H2.
  - rewrite <- (assoc_L (++)). eapply parse_open; [by apply scan_app_Found|by apply IH].
  - pose proof (scan_app_Keep _ _ s2 _ _ Hopen Hs) as Hk. simpl.
    inversion H2 as [? ? ? ? ? ? ? Hs2 Hr|? ? ? Hs2| |]; subst; rewrite Hs2 in Hk; simpl in Hk.
    + rewrite (assoc_L (++)). by eapply parse_open.
    + by eapply parse_visible.
  - simpl. eapply parse_close; [by apply scan_app_Found|by apply IH].
  - pose proof (scan_app_Keep _ _ s2 _ _ Hclose Hs) as Hk. simpl.
    inversion H2 as [| |? ? ? ? ? ? ? ? Hs2 Hr|? ? ? ? Hs2]; subst; rewrite Hs2 in Hk; simpl in Hk;
      rewrite <- (assoc_L (++)).
    + by eapply parse_close.
    + by eapply parse_hidden.
Qed.

(** What is left unread is a proper beginning of the delimiter looked for, and reading
    it again changes nothing. *)
Definition delimiter (a : option str) : str :=
  match a with Some _ => spec_close spec | None => spec_open spec end.

Lemma parses_left a s v e a' w :
  parses a s v e a' w → length w < length (delimiter a') ∧ parses a' w [] [] a' w.
Proof.
  induction 1 as [| s u w Hs| |t s u w Hs]; try done.
  - apply scan_Keep in Hs as (_ & _ & Hw & Hl & _). simpl.
    split; [destruct (spec_open spec); simpl in *; [done|lia]|].
    apply parse_visible. by apply scan_kept.
  - apply scan_Keep in Hs as (_ & _ & Hw & Hl & _). simpl.
    split; [destruct (spec_close spec); simpl in *; [done|lia]|].
    rewrite <- (app_nil_r (t ++ u)) at 2. apply parse_hidden. by apply scan_kept.
Qed.

Lemma parses_start : parses None [] [] [] None [].
Proof. apply parse_visible. apply scan_kept; simpl; [done|lia|done]. Qed.

(** The parser in mode [a] with the unread text [s]. *)
Definition state (a : option str) (s : str) : InlineHiddenTagParser T :=
  mkInline [spec] s ((λ t, mkActive (spec_tag spec) (spec_close spec) t) <$> a).

Definition tagged (e : list str) : list (ExtractedInlineTag T) := mkExtracted (spec_tag spec) <$> e.

Lemma push_loop_parses fuel a s out :
  length s < fuel →
  ∃ v e a' w, parses a s v e a' w ∧
    push_loop fuel (state a s) out = (state a' w, chunk_app out (mkTextChunk v (tagged e))).
Proof.
  revert a s out. induction fuel as [|fuel IH]; intros a s out Hf; [lia|]. destruct a as [t|].
  - cbn [push_loop state active pending fmap option_fmap option_map active_close active_tag active_content].
    destruct (find s (spec_close spec)) as [i|] eqn:E.
    + assert (Hs : scan (spec_close spec) s = Found (take i s) (drop (i + length (spec_close spec)) s))
        by (unfold scan; by rewrite E).
      destruct (IH None (drop (i + length (spec_close spec)) s)
        (mkTextChunk (visible_text out) (extracted out ++ [mkExtracted (spec_tag spec) (t ++ take i s)])))
        as (v & e & a' & w & Hp & Hr).
      { apply scan_Found in Hs as [Hs _]. apply (f_equal length) in Hs. rewrite !length_app in Hs.
        assert (0 < length (spec_close spec)) by (destruct (spec_close spec); simpl; [done|lia]). lia. }
      eexists _, _, _, _. split; [by eapply parse_close|]. unfold state in Hr |- *. simpl in Hr |- *.
      rewrite Hr. unfold chunk_app, tagged. simpl. by rewrite <- (assoc_L (++)).
    + eexists _, _, _, _. split; [eapply parse_hidden; unfold scan; by rewrite E|].
      unfold chunk_app, tagged, state. simpl. rewrite !app_nil_r. by destruct out.
  - cbn [push_loop state active pending fmap option_fmap option_map].
    unfold find_next_open, max_open_prefix_suffix_len, drain_visible_to_suffix_match. simpl.
    destruct (find s (spec_open spec)) as [i|] eqn:E; simpl.
    + assert (Hs : scan (spec_open spec) s = Found (take i s) (drop (i + length (spec_open spec)) s))
        by (unfold scan; by rewrite E).
      destruct (IH (Some []) (drop (i + length (spec_open spec)) s)
        (mkTextChunk (visible_text out ++ take i s) (extracted out)))
        as (v & e & a' & w & Hp & Hr).
      { apply scan_Found in Hs as [Hs _]. apply (f_equal length) in Hs. rewrite !length_app in Hs.
        assert (0 < length (spec_open spec)) by (destruct (spec_open spec); simpl; [done|lia]). lia. }
      eexists _, _, _, _. split; [by eapply parse_open|]. unfold state in Hr |- *. simpl in Hr |- *.
      rewrite Hr. unfold chunk_app. simpl. by rewrite <- (assoc_L (++)).
    + rewrite Nat.max_0_r. eexists _, _, _, _. split; [eapply parse_visible; unfold scan; by rewrite E|].
      unfold chunk_app, tagged, state, set_pending. simpl. by rewrite !app_nil_r.
Qed.

Lemma push_str_parses chunk a s :
  ∃ v e a' w, parses a (s ++ chunk) v e a' w ∧
    push_str chunk (state a s) = (state a' w, mkTextChunk v (tagged e)).
Proof.
  destruct (push_loop_parses (S (length (s ++ chunk))) a (s ++ chunk) default_chunk)
    as (v & e & a' & w & Hp & Hr); [lia|].
  exists v, e, a', w. split; [done|]. exact Hr.
Qed.

Lemma push_all_parses chunks a s :
  parses a s [] [] a s →
  ∃ v e a' w, parses a (s ++ concat chunks) v e a' w ∧
    push_all chunks (state a s) = (state a' w, mkTextChunk v (tagged e)).
Proof.
  revert a s. induction chunks as [|c chunks IH]; intros a s Hs; simpl.
  - exists [], [], a, s. by rewrite app_nil_r.
  - destruct (push_str_parses c a s) as (v1 & e1 & a1 & w1 & Hp1 & Hr1). simpl in Hr1. rewrite Hr1.
    destruct (IH a1 w1) as (v2 & e2 & a2 & w2 & Hp2 & Hr2); [by apply parses_left in Hp1 as [_ ?]|].
    rewrite Hr2. exists (v1 ++ v2), (e1 ++ e2), a2, w2.
    split; [rewrite (assoc_L (++)); by eapply parses_app|].
    unfold chunk_app, tagged. simpl. by rewrite fmap_app.
Qed.

(** The whole parse of a text, flush included. *)
Definition flushed (v : str) (e : list str) (a : option str) (w : str) : str * list str :=
  match a with Some t => (v, e ++ [t ++ w]) | None => (v ++ w, e) end.

Lemma run_stream_parses chunks :
  ∃ v e a w, parses None (concat chunks) v e a w ∧
    run_stream chunks (state None []) =
      mkTextChunk (flushed v e a w).1 (tagged (flushed v e a w).2).
Proof.
  destruct (push_all_parses chunks None [] parses_start) as (v & e & a & w & Hp & Hr).
  exists v, e, a, w. split; [done|]. unfold run_stream. rewrite Hr.
  destruct a as [t|]; unfold chunk_app, tagged; simpl; rewrite ?app_nil_r, ?fmap_app; done.
Qed.

Lemma run_stream_chunks chunks chunks' :
  concat chunks = concat chunks' →
  run_stream chunks (state None []) = run_stream chunks' (state None []).
Proof.
  intros Heq. destruct (run_stream_parses chunks) as (v & e & a & w & Hp & ->).
  destruct (run_stream_parses chunks') as (v2 & e2 & a2 & w2 & Hp2 & ->). rewrite Heq in Hp.
  by destruct (parses_det _ _ _ _ _ _ _ _ _ _ Hp Hp2) as (-> & -> & -> & ->).
Qed.
End Single.

Lemma new_inline_single {T} (spec : InlineTagSpec T) p :
  new_inline [spec] = Some p → spec_open spec ≠ [] ∧ spec_close spec ≠ [] ∧ p = state spec None [].
Proof.
  unfold new_inline. simpl. destruct (spec_open spec) eqn:Eo; simpl; [done|].
  destruct (spec_close spec) eqn:Ec; simpl; [done|]. by intros [= <-].
Qed.

(** A parser for one pair of inline delimiters gives the same visible text and the
    same extracted contents however the stream is cut into chunks, delimiters split
    between chunks included; and at any moment it withholds less than one delimiter of
    the text it has received. *)
Theorem inline_tag_chunking {T} (spec : InlineTagSpec T) p chunks chunks' :
  new_inline [spec] = Some p → concat chunks = concat chunks' →
  run_stream chunks p = run_stream chunks' p ∧
  length (pending (push_all chunks p).1)
    < Nat.max (length (spec_open spec)) (length (spec_close spec)).
Proof.
  intros (Ho & Hc & ->)%new_inline_single Heq. split; [by apply run_stream_chunks|].
  destruct (push_all_parses spec Ho Hc chunks None [] (parses_start spec Ho)) as (v & e & a & w & Hp & ->).
  apply parses_left in Hp as [Hl _]; [|done..]. destruct a; simpl in *; lia.
Qed.

Lemma inline_tag_chunking_witness :
  let spec := mkInlineSpec tt (lit "<a>") (lit "</a>") in
  let p := mkInline [spec] [] None in
  run_stream [lit "x<"; lit "a>y</"; lit "a>z"] p = run_stream [lit "x<a>y</a>z"] p ∧
  length (pending (push_all [lit "x<"; lit "a>y</"; lit "a>z"] p).1) < 4.
Proof. exact (inline_tag_chunking (mkInlineSpec tt (lit "<a>") (lit "</a>")) _ _ _ eq_refl eq_refl). Defined.

(** * Citations *)
Abbreviation citation_spec := (mkInlineSpec tt CITATION_OPEN CITATION_CLOSE).

Lemma citation_open_ne : spec_open citation_spec ≠ [].
Proof. done. Qed.
Lemma citation_close_ne : spec_close citation_spec ≠ [].
Proof. done. Qed.
#[local] Hint Resolve citation_open_ne citation_close_ne : core.

Lemma citation_push_all chunks i :
  push_all chunks (mkCitation i) =
    (mkCitation (push_all chunks i).1, citation_chunk (push_all chunks i).2).
Proof.
  revert i. induction chunks as [|c chunks IH]; intros i; [done|]. simpl.
  destruct (inline_push_str c i) as [i1 out]. rewrite IH. destruct (push_all chunks i1) as [i2 rest].
  unfold citation_chunk, chunk_app. simpl. by rewrite fmap_app.
Qed.

Lemma citation_untag e : ex_content <$> tagged citation_spec e = e.
Proof. unfold tagged. rewrite <- list_fmap_compose. apply list_fmap_id. Qed.

(** The parse of a text decides what [strip_citations] returns. *)
Lemma strip_parses text v e a w :
  parses citation_spec None text v e a w → strip_citations text = flushed v e a w.
Proof.
  intros Hp. destruct (push_str_parses citation_spec citation_open_ne citation_close_ne text None [])
    as (v2 & e2 & a2 & w2 & Hp2 & Hr). simpl in Hp2, Hr.
  destruct (parses_det _ _ _ _ _ _ _ _ _ _ _ Hp Hp2) as (-> & -> & -> & ->).
  unfold strip_citations, new_citation. simpl. unfold state in Hr. simpl in Hr. rewrite Hr.
  destruct a2 as [t|]; simpl; rewrite citation_untag, ?app_nil_r; done.
Qed.

Lemma strip_parses_ex text :
  ∃ v e a w, parses citation_spec None text v e a w ∧ strip_citations text = flushed v e a w.
Proof.
  destruct (push_str_parses citation_spec citation_open_ne citation_close_ne text None [])
    as (v & e & a & w & Hp & _). exists v, e, a, w. split; [done|by apply strip_parses].
Qed.

(** The streamed parse is the parse of the whole text. *)
Lemma citation_run_stream chunks :
  run_stream chunks new_citation =
    mkTextChunk (strip_citations (concat chunks)).1 (strip_citations (concat chunks)).2.
Proof.
  destruct (run_stream_parses citation_spec citation_open_ne citation_close_ne chunks)
    as (v & e & a & w & Hp & Hr). rewrite (strip_parses _ _ _ _ _ Hp).
  unfold run_stream in *. unfold new_citation. rewrite citation_push_all.
  change (mkInline [citation_spec] [] None) with (state citation_spec None []).
  destruct (push_all chunks (state citation_spec None [])) as [p out]. simpl in *.
  unfold inline_finish in *. destruct (active p); unfold chunk_app, citation_chunk in *; simpl in *;
    injection Hr as H1 H2; rewrite H1; f_equal; rewrite <- (citation_untag (flushed v e a w).2), <- H2;
    by rewrite fmap_app.
Qed.

(** What citation stripping computes. The streamed parser agrees with
    [strip_citations] of the whole text for every cutting into chunks, and
    [strip_citations] satisfies: without an opening tag the text is unchanged; the first
    opening tag and the first closing tag after it delimit the first citation, which is
    hidden with its tags and extracted, and the rest is treated the same way; an
    unclosed citation extends to the end of the text. *)
Theorem strip_citations_spec :
  (∀ chunks, run_stream chunks new_citation =
    mkTextChunk (strip_citations (concat chunks)).1 (strip_citations (concat chunks)).2)
  ∧ (∀ text, find text CITATION_OPEN = None → strip_citations text = (text, []))
  ∧ (∀ text i, find text CITATION_OPEN = Some i →
      let body := drop (i + length CITATION_OPEN) text in
      (find body CITATION_CLOSE = None → strip_citations text = (take i text, [body]))
      ∧ (∀ j, find body CITATION_CLOSE = Some j →
          let rest := strip_citations (drop (j + length CITATION_CLOSE) body) in
          strip_citations text = (take i text ++ rest.1, take j body :: rest.2))).
Proof.
  split; [apply citation_run_stream|]. split.
  - intros text Hf. erewrite strip_parses; [|apply parse_visible; unfold scan; simpl; by rewrite Hf].
    simpl. by rewrite take_drop.
  - intros text i Hi body.
    assert (Hs : scan (spec_open citation_spec) text = Found (take i text) body)
      by (unfold scan; simpl; by rewrite Hi).
    split.
    + intros Hc. erewrite strip_parses; [|eapply parse_open; [exact Hs|]; apply parse_hidden;
        unfold scan; simpl; by rewrite Hc].
      simpl. by rewrite app_nil_r, take_drop.
    + intros j Hj rest. destruct (strip_parses_ex (drop (j + length CITATION_CLOSE) body))
        as (v & e & a & w & Hp & Hr). unfold rest. rewrite Hr.
      erewrite strip_parses; [|eapply parse_open; [exact Hs|]; eapply parse_close; [|exact Hp];
        unfold scan; simpl; by rewrite Hj].
      destruct a; simpl; by rewrite ?(assoc_L (++)).
Qed.
