(* ===== verification/TaggedLine.v ===== *)
(** [tagged_line_parser.rs], [proposed_plan.rs] and [assistant_text.rs] of
    [utils/stream-parser]: tag blocks whose tags stand alone on a line, plan blocks, and
    the parser of assistant text that strips citations and plan blocks in one pass. *)
From stdpp Require Import base list numbers strings.
From S2P Require Import Prelude RustStr InlineHiddenTag.

(** * Tag blocks *)
Record TagSpec (T : Type) : Type := mkTagSpec {
  tag_open : str;
  tag_close : str;
  tag_tag : T;
}.
Arguments mkTagSpec {T} tag_open tag_close tag_tag.
Arguments tag_open {T} _.
Arguments tag_close {T} _.
Arguments tag_tag {T} _.

Inductive TaggedLineSegment (T : Type) : Type :=
| Normal (text : str)
| TagStart (tag : T)
| TagDelta (tag : T) (text : str)
| TagEnd (tag : T).
Arguments Normal {T} text.
Arguments TagStart {T} tag.
Arguments TagDelta {T} tag text.
Arguments TagEnd {T} tag.

Record TaggedLineParser (T : Type) : Type := mkTagged {
  line_specs : list (TagSpec T);
  active_line_tag : option T;
  detect_tag : bool;
  line_buffer : str;
}.
Arguments mkTagged {T} line_specs active_line_tag detect_tag line_buffer.
Arguments line_specs {T} _.
Arguments active_line_tag {T} _.
Arguments detect_tag {T} _.
Arguments line_buffer {T} _.

Section Tagged.
Context {T : Type} `{EqDecision T}.
Abbreviation Parser := (TaggedLineParser T).
Abbreviation Segment := (TaggedLineSegment T).

Definition new_tagged (specs : list (TagSpec T)) : Parser := mkTagged specs None true [].

(** [segments.last_mut()] together with the segments before it. *)
Fixpoint split_last {A} (l : list A) : option (list A * A) :=
  match l with
  | [] => None
  | x :: l =>
      match split_last l with
      | Some (l, y) => Some (x :: l, y)
      | None => Some ([], x)
      end
  end.

Definition push_segment (segments : list Segment) (segment : Segment) : list Segment :=
  match segment with
  | Normal delta =>
      if is_empty delta then segments
      else match split_last segments with
           | Some (before, Normal existing) => before ++ [Normal (existing ++ delta)]
           | _ => segments ++ [Normal delta]
           end
  | TagDelta tag delta =>
      if is_empty delta then segments
      else match split_last segments with
           | Some (before, TagDelta existing_tag existing) =>
               if decide (existing_tag = tag) then before ++ [TagDelta tag (existing ++ delta)]
               else segments ++ [TagDelta tag delta]
           | _ => segments ++ [TagDelta tag delta]
           end
  | TagStart tag => segments ++ [TagStart tag]
  | TagEnd tag => segments ++ [TagEnd tag]
  end.

Definition text_segment (a : option T) (text : str) : Segment :=
  match a with Some tag => TagDelta tag text | None => Normal text end.

Definition push_text (p : Parser) (text : str) (segments : list Segment) : list Segment :=
  push_segment segments (text_segment (active_line_tag p) text).

Definition is_tag_prefix (p : Parser) (slug : str) : bool :=
  let slug := trim_end slug in
  existsb (λ spec, starts_with (tag_open spec) slug || starts_with (tag_close spec) slug) (line_specs p).

Definition match_open (p : Parser) (slug : str) : option T :=
  tag_tag <$> List.find (λ spec, bool_decide (tag_open spec = slug)) (line_specs p).

Definition match_close (p : Parser) (slug : str) : option T :=
  tag_tag <$> List.find (λ spec, bool_decide (tag_close spec = slug)) (line_specs p).

(** [strip_suffix('\n').unwrap_or(..)], then both trims. *)
Definition line_slug (line : str) : str :=
  trim_end (trim_start (default line (strip_suffix line [LF]))).

Definition set_line (a : option T) (detect : bool) (buffer : str) (p : Parser) : Parser :=
  mkTagged (line_specs p) a detect buffer.

Definition finish_line (p : Parser) (segments : list Segment) : Parser * list Segment :=
  let line := line_buffer p in
  let slug := line_slug line in
  let a := active_line_tag p in
  match match_open p slug, a with
  | Some tag, None => (set_line (Some tag) true [] p, push_segment segments (TagStart tag))
  | _, _ =>
      match match_close p slug with
      | Some tag =>
          if decide (a = Some tag) then (set_line None true [] p, push_segment segments (TagEnd tag))
          else (set_line a true [] p, push_text p line segments)
      | None => (set_line a true [] p, push_text p line segments)
      end
  end.

(** The body of the [for] loop of [parse], on the parser, [run] and [segments]. *)
Definition parse_char (st : Parser * str * list Segment) (ch : char) : Parser * str * list Segment :=
  let '(p, run, segments) := st in
  if detect_tag p then
    let segments := if is_empty run then segments else push_text p run segments in
    let p := set_line (active_line_tag p) true (line_buffer p ++ [ch]) p in
    if decide (ch = LF) then
      let '(p, segments) := finish_line p segments in (p, [], segments)
    else
      let slug := trim_start (line_buffer p) in
      if is_empty slug || is_tag_prefix p slug then (p, [], segments)
      else
        let buffered := line_buffer p in
        let p := set_line (active_line_tag p) false [] p in
        (p, [], push_text p buffered segments)
  else
    let run := run ++ [ch] in
    if decide (ch = LF) then
      (set_line (active_line_tag p) true (line_buffer p) p, [], push_text p run segments)
    else (p, run, segments).

Definition parse (delta : str) (p : Parser) : Parser * list Segment :=
  let '(p, run, segments) := foldl parse_char (p, [], []) delta in
  (p, if is_empty run then segments else push_text p run segments).

Definition finish_tagged (p : Parser) : Parser * list Segment :=
  let '(a, segments) :=
    if is_empty (line_buffer p) then (active_line_tag p, [])
    else
      let buffered := line_buffer p in
      let slug := line_slug buffered in
      let a := active_line_tag p in
      match match_open p slug, a with
      | Some tag, None => (Some tag, push_segment [] (TagStart tag))
      | _, _ =>
          match match_close p slug with
          | Some tag =>
              if decide (a = Some tag) then (None, push_segment [] (TagEnd tag))
              else (a, push_text p buffered [])
          | None => (a, push_text p buffered [])
          end
      end in
  (set_line None true [] p,
   match a with Some tag => push_segment segments (TagEnd tag) | None => segments end).
End Tagged.

(** * Plan blocks *)
Definition OPEN_TAG : str := lit "<proposed_plan>".
Definition CLOSE_TAG : str := lit "</proposed_plan>".

Inductive PlanTag : Type := ProposedPlan.

#[export] Instance PlanTag_eq_dec : EqDecision PlanTag.
Proof. solve_decision. Defined.

Inductive ProposedPlanSegment : Type :=
| PlanNormal (text : str)
| ProposedPlanStart
| ProposedPlanDelta (text : str)
| ProposedPlanEnd.

Record ProposedPlanParser : Type := mkPlan { plan_parser : TaggedLineParser PlanTag }.

Definition new_plan : ProposedPlanParser :=
  mkPlan (new_tagged [mkTagSpec OPEN_TAG CLOSE_TAG ProposedPlan]).

Definition map_segment (s : TaggedLineSegment PlanTag) : ProposedPlanSegment :=
  match s with
  | Normal text => PlanNormal text
  | TagStart ProposedPlan => ProposedPlanStart
  | TagDelta ProposedPlan text => ProposedPlanDelta text
  | TagEnd ProposedPlan => ProposedPlanEnd
  end.

Definition map_segments (segments : list (TaggedLineSegment PlanTag))
    : StreamTextChunk ProposedPlanSegment :=
  foldl (λ out segment,
    let mapped := map_segment segment in
    mkTextChunk
      (match mapped with PlanNormal text => visible_text out ++ text | _ => visible_text out end)
      (extracted out ++ [mapped])) default_chunk segments.

#[export] Instance plan_stream : StreamTextParser ProposedPlanParser ProposedPlanSegment := {|
  push_str chunk p :=
    let (inner, segs) := parse chunk (plan_parser p) in (mkPlan inner, map_segments segs);
  finish p := let (inner, segs) := finish_tagged (plan_parser p) in (mkPlan inner, map_segments segs);
|}.

Definition strip_proposed_plan_blocks (text : str) : str :=
  let (p, out) := push_str text new_plan in
  visible_text out ++ visible_text (finish p).2.

(** The loop of [extract_proposed_plan_text]. *)
Definition plan_text_step (st : str * bool) (segment : ProposedPlanSegment) : str * bool :=
  match segment with
  | ProposedPlanStart => ([], true)
  | ProposedPlanDelta delta => (st.1 ++ delta, st.2)
  | ProposedPlanEnd | PlanNormal _ => st
  end.

Definition extract_proposed_plan_text (text : str) : option str :=
  let (p, out) := push_str text new_plan in
  let (plan_text, saw_plan_block) :=
    foldl plan_text_step ([], false) (extracted out ++ extracted (finish p).2) in
  if saw_plan_block then Some plan_text else None.

(** * Assistant text *)
Record AssistantTextChunk : Type := mkAssistantChunk {
  at_visible_text : str;
  at_citations : list str;
  at_plan_segments : list ProposedPlanSegment;
}.

Record AssistantTextStreamParser : Type := mkAssistant {
  plan_mode : bool;
  at_citation_parser : CitationStreamParser;
  at_plan_parser : ProposedPlanParser;
}.

Definition new_assistant (mode : bool) : AssistantTextStreamParser :=
  mkAssistant mode new_citation new_plan.

Definition parse_visible_text (text : str) (p : AssistantTextStreamParser)
    : AssistantTextStreamParser * AssistantTextChunk :=
  if plan_mode p then
    let (plan, chunk) := push_str text (at_plan_parser p) in
    (mkAssistant (plan_mode p) (at_citation_parser p) plan,
     mkAssistantChunk (visible_text chunk) [] (extracted chunk))
  else (p, mkAssistantChunk text [] []).

Definition assistant_push_str (chunk : str) (p : AssistantTextStreamParser)
    : AssistantTextStreamParser * AssistantTextChunk :=
  let (cits, citation_chunk) := push_str chunk (at_citation_parser p) in
  let p := mkAssistant (plan_mode p) cits (at_plan_parser p) in
  let (p, out) := parse_visible_text (visible_text citation_chunk) p in
  (p, mkAssistantChunk (at_visible_text out) (extracted citation_chunk) (at_plan_segments out)).

Definition assistant_finish (p : AssistantTextStreamParser)
    : AssistantTextStreamParser * AssistantTextChunk :=
  let (cits, citation_chunk) := finish (at_citation_parser p) in
  let p := mkAssistant (plan_mode p) cits (at_plan_parser p) in
  let (p, out) := parse_visible_text (visible_text citation_chunk) p in
  let '(p, out) :=
    if plan_mode p then
      let (plan, tail) := finish (at_plan_parser p) in
      (mkAssistant (plan_mode p) (at_citation_parser p) plan,
       if chunk_is_empty tail then out
       else mkAssistantChunk (at_visible_text out ++ visible_text tail) (at_citations out)
              (at_plan_segments out ++ extracted tail))
    else (p, out) in
  (p, mkAssistantChunk (at_visible_text out) (extracted citation_chunk) (at_plan_segments out)).

(** The chunks of a stream one after the other, and the final flush. *)
Fixpoint assistant_push_all (chunks : list str) (p : AssistantTextStreamParser)
    : AssistantTextStreamParser * list AssistantTextChunk :=
  match chunks with
  | [] => (p, [])
  | c :: chunks =>
      let (p, out) := assistant_push_str c p in
      let (p, outs) := assistant_push_all chunks p in (p, out :: outs)
  end.

Definition assistant_stream (chunks : list str) (p : AssistantTextStreamParser)
    : list AssistantTextChunk :=
  let (p, outs) := assistant_push_all chunks p in outs ++ [(assistant_finish p).2].
