(* ===== verification/TaggedLineFacts.v ===== *)
(** Tag blocks, plan blocks and assistant text: the streamed parse agrees with a
    line-by-line reference, however the stream is cut into chunks. *)
From stdpp Require Import base list numbers strings.
From S2P Require Import Prelude RustStr InlineHiddenTag InlineHiddenTagFacts TaggedLine.

Lemma split_last_Some {A} (l l' : list A) x : split_last l = Some (l', x) ↔ l = l' ++ [x].
Proof.
  revert l'. induction l as [|y l IH]; intros l'; simpl.
  - split; [done|]. by destruct l'.
  - destruct (split_last l) as [[l1 z]|] eqn:E.
    + specialize (IH l1). destruct IH as [IH _].
      assert (Hl : l = l1 ++ [z]).
      { clear -E. revert l1 E. induction l as [|c l IHl]; intros l1 E; simpl in E; [done|].
        destruct (split_last l) as [[l2 z2]|] eqn:E2; simplify_eq; [by rewrite (IHl _ eq_refl)|].
        destruct l; [done|]. simpl in E2. by destruct (split_last l) as [[]|]. }
      subst l. split; [by intros [= <- <-]|]. intros H.
      change (y :: l1 ++ [z]) with ((y :: l1) ++ [z]) in H. apply app_inj_tail in H as [<- <-]. done.
    + assert (l = []) as ->.
      { destruct l; [done|]. simpl in E. by destruct (split_last l) as [[]|]. }
      split; [by intros [= <- <-]|]. intros H. change [y] with ([] ++ [y]) in H.
      by apply app_inj_tail in H as [<- <-].
Qed.

Lemma split_last_snoc {A} (l : list A) x : split_last (l ++ [x]) = Some (l, x).
Proof. by apply split_last_Some. Qed.

Section Tagged.
Context {T : Type} `{EqDecision T}.
Abbreviation Segment := (TaggedLineSegment T).
Abbreviation Parser := (TaggedLineParser T).

(** * Segments up to merging *)

(** Pushing a sequence of segments onto segments already emitted. *)
Definition pushes (acc l : list Segment) : list Segment := foldl push_segment acc l.

(** The segments with adjacent text joined. *)
Definition merged (l : list Segment) : list Segment := pushes [] l.

(** Two sequences that cannot be told apart by pushing them. *)
Definition seg_equiv (l1 l2 : list Segment) : Prop := ∀ acc, pushes acc l1 = pushes acc l2.

#[local] Instance seg_equivalence : Equivalence seg_equiv.
Proof. split; [by intros l acc|by intros l1 l2 H acc|]. intros l1 l2 l3 H1 H2 acc. by rewrite H1. Qed.

Lemma pushes_app acc l1 l2 : pushes acc (l1 ++ l2) = pushes (pushes acc l1) l2.
Proof. apply foldl_app. Qed.

#[local] Instance seg_equiv_app : Proper (seg_equiv ==> seg_equiv ==> seg_equiv) (++).
Proof. intros l1 l1' H1 l2 l2' H2 acc. by rewrite !pushes_app, H1, H2. Qed.

Lemma text_segment_nil a : seg_equiv [text_segment a []] [].
Proof. intros acc. by destruct a. Qed.

Lemma text_segment_app a s t : seg_equiv [text_segment a (s ++ t)] [text_segment a s; text_segment a t].
Proof.
  intros acc. unfold pushes. simpl. destruct s as [|c s]; [by destruct a|].
  destruct t as [|d t]; [rewrite app_nil_r; by destruct a|].
  destruct a as [tag|]; simpl.
  - destruct (split_last acc) as [[l [x|x|x y|x]]|] eqn:E; simpl;
      rewrite ?split_last_snoc, ?decide_True by done; rewrite <- ?(assoc_L (++)); try done.
    destruct (decide (x = tag)) as [->|Hne]; rewrite split_last_snoc, decide_True by done;
      rewrite <- ?(assoc_L (++)); done.
  - destruct (split_last acc) as [[l [x|x|x y|x]]|] eqn:E; simpl;
      rewrite ?split_last_snoc, <- ?(assoc_L (++)); done.
Qed.

(** [push_segment] appends, up to merging. *)
Lemma push_segment_equiv l s : seg_equiv (push_segment l s) (l ++ [s]).
Proof.
  destruct s as [t|t|t x|t]; simpl; [|done| |done].
  - destruct t as [|c t]; simpl; [by rewrite (text_segment_nil None), app_nil_r|].
    destruct (split_last l) as [[l' [x|?|? ?|?]]|] eqn:E; try done.
    apply split_last_Some in E as ->. rewrite <- (assoc_L (++)).
    by rewrite (text_segment_app None x (c :: t)).
  - destruct x as [|c x]; simpl; [by rewrite (text_segment_nil (Some t)), app_nil_r|].
    destruct (split_last l) as [[l' [?|?|t' y|?]]|] eqn:E; try done.
    destruct (decide (t' = t)) as [->|]; [|done].
    apply split_last_Some in E as ->. rewrite <- (assoc_L (++)).
    by rewrite (text_segment_app (Some t) y (c :: x)).
Qed.

Lemma merged_equiv l l' : seg_equiv l l' → merged l = merged l'.
Proof. intros H. apply H. Qed.

(** * One character at a time *)

(** The parser without the accumulation of runs: the state after a character and the
    segments it decides. *)
Definition step (st : Parser * list Segment) (ch : char) : Parser * list Segment :=
  let '(p, evs) := st in
  if detect_tag p then
    let '(p, _, segs) := parse_char (p, [], []) ch in (p, evs ++ segs)
  else
    (set_line (active_line_tag p) (bool_decide (ch = LF)) (line_buffer p) p,
     evs ++ [text_segment (active_line_tag p) [ch]]).

Lemma parse_char_step p run segs evs ch p' run' segs' p2 evs' :
  seg_equiv (segs ++ [text_segment (active_line_tag p) run]) evs →
  parse_char (p, run, segs) ch = (p', run', segs') → step (p, evs) ch = (p2, evs') →
  p' = p2 ∧ seg_equiv (segs' ++ [text_segment (active_line_tag p') run']) evs'.
Proof.
  intros Hinv. unfold step. destruct (detect_tag p) eqn:Ed.
  - unfold parse_char. rewrite Ed. cbn [is_empty].
    set (segs1 := if is_empty run then segs else push_text p run segs).
    assert (H1 : seg_equiv segs1 evs).
    { rewrite <- Hinv. unfold segs1. destruct run; simpl; [|by apply push_segment_equiv].
      by rewrite text_segment_nil, app_nil_r. }
    clearbody segs1. case_goal; [|case_goal].
    + unfold finish_line. repeat case_goal; intros [= <- <- <-] [= <- <-]; (split; [done|]);
        unfold push_text; rewrite text_segment_nil, app_nil_r, ?push_segment_equiv, H1; done.
    + intros [= <- <- <-] [= <- <-]. split; [done|]. by rewrite text_segment_nil, !app_nil_r.
    + intros [= <- <- <-] [= <- <-]. split; [done|].
      unfold push_text. by rewrite text_segment_nil, app_nil_r, !push_segment_equiv, H1.
  - unfold parse_char. rewrite Ed. case_goal; intros [= <- <- <-] [= <- <-].
    + split; [by rewrite bool_decide_eq_true_2|]. unfold push_text. cbn [active_line_tag set_line].
      rewrite text_segment_nil, app_nil_r, push_segment_equiv, text_segment_app.
      by rewrite <- Hinv, <- (assoc_L (++)).
    + rewrite bool_decide_eq_false_2 by done. split; [destruct p; simpl in *; by subst|].
      rewrite text_segment_app, <- Hinv, <- (assoc_L (++)). done.
Qed.

Definition steps (p : Parser) (s : str) : Parser * list Segment := foldl step (p, []) s.

Lemma step_acc p evs ch : step (p, evs) ch = ((step (p, []) ch).1, evs ++ (step (p, []) ch).2).
Proof. unfold step. destruct (detect_tag p); [|done]. by destruct (parse_char _ ch) as [[? ?] ?]. Qed.

Lemma foldl_step_acc p evs s :
  foldl step (p, evs) s = ((steps p s).1, evs ++ (steps p s).2).
Proof.
  unfold steps. revert p evs. induction s as [|c s IH]; intros p evs; cbn [foldl]; [by rewrite app_nil_r|].
  rewrite step_acc, IH. destruct (step (p, []) c) as [p1 e1]. rewrite (IH p1 e1). simpl.
  by rewrite (assoc_L (++)).
Qed.

Lemma steps_app p s t :
  steps p (s ++ t) = ((steps (steps p s).1 t).1, (steps p s).2 ++ (steps (steps p s).1 t).2).
Proof.
  unfold steps at 1. rewrite foldl_app. fold (steps p s). destruct (steps p s) as [p1 e1].
  apply foldl_step_acc.
Qed.

Lemma parse_steps p s :
  (parse s p).1 = (steps p s).1 ∧ seg_equiv (parse s p).2 (steps p s).2.
Proof.
  unfold parse, steps.
  assert (Hgen : ∀ s p run segs evs, seg_equiv (segs ++ [text_segment (active_line_tag p) run]) evs →
    let '(p', run', segs') := foldl parse_char (p, run, segs) s in
    p' = (foldl step (p, evs) s).1 ∧
    seg_equiv (segs' ++ [text_segment (active_line_tag p') run']) (foldl step (p, evs) s).2).
  { clear. induction s as [|c s IH]; intros p run segs evs Hinv; [done|]. cbn [foldl].
    destruct (parse_char (p, run, segs) c) as [[p1 run1] segs1] eqn:E1.
    destruct (step (p, evs) c) as [p2 evs2] eqn:E2.
    destruct (parse_char_step _ _ _ _ _ _ _ _ _ _ Hinv E1 E2) as [<- H2]. by apply IH. }
  specialize (Hgen s p [] [] []). destruct (foldl parse_char (p, [], []) s) as [[p1 run1] segs1].
  destruct Hgen as [H1 H2]; [apply text_segment_nil|]. split; [done|]. simpl. rewrite <- H2.
  destruct run1; simpl; [by rewrite text_segment_nil, app_nil_r|by apply push_segment_equiv].
Qed.

(** All chunks of a stream. *)
Fixpoint parse_all (chunks : list str) (p : Parser) : Parser * list Segment :=
  match chunks with
  | [] => (p, [])
  | c :: chunks =>
      let (p, segs) := parse c p in
      let (p, rest) := parse_all chunks p in (p, segs ++ rest)
  end.

Lemma parse_all_steps chunks p :
  (parse_all chunks p).1 = (steps p (concat chunks)).1 ∧
  seg_equiv (parse_all chunks p).2 (steps p (concat chunks)).2.
Proof.
  revert p. induction chunks as [|c chunks IH]; intros p; [done|]. cbn [parse_all concat].
  rewrite steps_app. destruct (parse_steps p c) as [H1 H2]. destruct (parse c p) as [p1 segs].
  simpl in H1, H2. subst p1. destruct (IH (steps p c).1) as [H3 H4].
  destruct (parse_all chunks _) as [p2 rest]. simpl in *. split; [done|]. by rewrite H2, H4.
Qed.

(** * The line-by-line reference *)

(** [split_inclusive('\n')]. *)
Fixpoint lines_inclusive (s : str) : list str :=
  match s with
  | [] => []
  | c :: s =>
      if decide (c = LF) then [c] :: lines_inclusive s
      else match lines_inclusive s with
           | [] => [[c]]
           | l :: ls => (c :: l) :: ls
           end
  end.

Lemma lines_inclusive_line l s : LF ∉ l → lines_inclusive (l ++ LF :: s) = (l ++ [LF]) :: lines_inclusive s.
Proof.
  induction l as [|c l IH]; intros Hl; simpl; [done|].
  apply not_elem_of_cons in Hl as [Hc Hl]. rewrite decide_False by done. by rewrite IH.
Qed.

Lemma lines_inclusive_last l : LF ∉ l → l ≠ [] → lines_inclusive l = [l].
Proof.
  induction l as [|c l IH]; intros Hl Hne; [done|]. apply not_elem_of_cons in Hl as [Hc Hl]. simpl.
  rewrite decide_False by done. destruct l as [|d l]; [done|]. by rewrite IH.
Qed.

Lemma line_cases (s : str) : LF ∉ s ∨ ∃ l r, s = l ++ LF :: r ∧ LF ∉ l.
Proof.
  destruct (decide (LF ∈ s)) as [Hin|]; [|by left]. right.
  apply list_elem_of_split_l in Hin as (l & r & -> & Hl). by exists l, r.
Qed.

(** What a whole line means: an opening tag outside a block, the closing tag of the
    current block, or text. *)
Definition line_event (specs : list (TagSpec T)) (a : option T) (line : str) : Segment * option T :=
  let p := mkTagged specs a true line in
  match match_open p (line_slug line), a with
  | Some tag, None => (TagStart tag, Some tag)
  | _, _ =>
      match match_close p (line_slug line) with
      | Some tag => if decide (a = Some tag) then (TagEnd tag, None) else (text_segment a line, a)
      | None => (text_segment a line, a)
      end
  end.

Fixpoint line_events (specs : list (TagSpec T)) (a : option T) (ls : list str) : list Segment * option T :=
  match ls with
  | [] => ([], a)
  | l :: ls =>
      let (ev, a) := line_event specs a l in
      let (evs, a) := line_events specs a ls in (ev :: evs, a)
  end.

(** The segments of a text: its lines, and the end of a block left open. *)
Definition tagged_lines (specs : list (TagSpec T)) (text : str) : list Segment :=
  let (evs, a) := line_events specs None (lines_inclusive text) in
  evs ++ match a with Some tag => [TagEnd tag] | None => [] end.

Definition at_line (specs : list (TagSpec T)) (a : option T) (buffer : str) : Parser :=
  mkTagged specs a true buffer.

Definition closing (a : option T) : list Segment :=
  match a with Some tag => [TagEnd tag] | None => [] end.

Lemma finish_line_event specs a line segs :
  finish_line (at_line specs a line) segs =
    (at_line specs (line_event specs a line).2 [], push_segment segs (line_event specs a line).1).
Proof.
  unfold finish_line, line_event, set_line, at_line, push_text. cbn [line_buffer active_line_tag line_specs].
  destruct (match_open (T:=T) _ _), a; repeat case_goal; done.
Qed.

Lemma finish_tagged_event specs a line :
  line ≠ [] →
  seg_equiv (finish_tagged (at_line specs a line)).2
    ((line_event specs a line).1 :: closing (line_event specs a line).2).
Proof.
  intros Hne. unfold finish_tagged, line_event, at_line, push_text, closing.
  cbn [line_buffer active_line_tag line_specs]. destruct line as [|c line]; [done|]. cbn [is_empty].
  destruct (match_open (T:=T) _ _), a; repeat case_goal; cbn [snd fst] in *; simplify_eq;
    rewrite ?push_segment_equiv; done.
Qed.

(** The line read so far can still become a tag. *)
Definition undecided (specs : list (TagSpec T)) (l : str) : bool :=
  is_empty (trim_start l) || is_tag_prefix (at_line specs None []) (trim_start l).

Lemma steps_detect specs a l c :
  c ≠ LF →
  steps (at_line specs a l) [c] =
    if undecided specs (l ++ [c]) then (at_line specs a (l ++ [c]), [])
    else (mkTagged specs a false [], push_segment [] (text_segment a (l ++ [c]))).
Proof.
  intros Hc. unfold steps, step, parse_char, undecided, is_tag_prefix, at_line. simpl.
  rewrite decide_False by done. by destruct (is_empty _ || existsb _ _).
Qed.

(** Before the newline: nothing is emitted while the line can still be a tag; once it
    cannot, everything read has been emitted as text. *)
Lemma steps_line specs a l :
  LF ∉ l →
  steps (at_line specs a []) l = (at_line specs a l, [])
  ∨ ∃ evs q, steps (at_line specs a []) l = (mkTagged specs a false [], evs)
      ∧ seg_equiv evs [text_segment a l] ∧ q `prefix_of` l ∧ undecided specs q = false.
Proof.
  induction l as [|c l IH] using rev_ind; intros Hl; [by left|].
  apply not_elem_of_app in Hl as [Hl Hc]. apply not_elem_of_cons in Hc as [Hc _].
  rewrite steps_app. destruct IH as [->|(evs & q & -> & He & Hq & Hu)]; [done| |]; cbn [fst snd].
  - rewrite steps_detect by done.
    destruct (undecided specs (l ++ [c])) eqn:E; [by left|]. right.
    eexists _, (l ++ [c]). split; [done|]. split; [|by split].
    cbn [snd]. by rewrite app_nil_l, push_segment_equiv.
  - right. eexists _, q. unfold steps, step, set_line. cbn. rewrite bool_decide_eq_false_2 by done.
    split; [done|]. split; [by rewrite He, text_segment_app|]. split; [by apply prefix_app_r|done].
Qed.

Lemma trim_end_prefix_app x r : trim_end x `prefix_of` trim_end (x ++ r).
Proof.
  destruct (trim_end_matches_prefix is_whitespace x) as (w & Hx & _).
  destruct (trim_end_matches_prefix is_whitespace (w ++ r)) as (w2 & Hr & Hw2).
  change (trim_end_matches is_whitespace ?s) with (trim_end s) in *.
  pose proof (trim_end_no_trailing_ws x) as Hn. pose proof (trim_end_no_trailing_ws (w ++ r)) as Hn2.
  assert (x ++ r = (trim_end x ++ trim_end (w ++ r)) ++ w2) as ->.
  { rewrite <- (assoc_L (++)), <- Hr, Hx at 1. by rewrite <- (assoc_L (++)). }
  rewrite trim_end_app_ws by done. destruct (trim_end (w ++ r)) as [|c z] eqn:E.
  - rewrite app_nil_r, (trim_end_id _ Hn). done.
  - rewrite (trim_end_id (_ ++ _)); [by apply prefix_app_r|]. by apply no_trailing_ws_app.
Qed.

(** A tag line cannot be ruled out before its end. *)
Lemma trim_prefix_cases l q :
  q `prefix_of` l → trim_start q = [] ∨ trim_end (trim_start q) `prefix_of` trim l.
Proof.
  intros [r ->]. destruct (trim_start q) as [|c x] eqn:E; [by left|]. right.
  assert (Hc : is_whitespace c = false).
  { pose proof (trim_start_no_leading_ws q) as Hn. rewrite E in Hn. exact Hn. }
  destruct (trim_start_matches_suffix is_whitespace q) as (w & Hq & Hw).
  change (trim_start_matches is_whitespace q) with (trim_start q) in Hq. rewrite E in Hq.
  assert (Ht : trim_start (q ++ r) = (c :: x) ++ r).
  { rewrite Hq, <- (assoc_L (++)). unfold trim_start. rewrite trim_start_matches_app by done.
    by apply trim_start_matches_id. }
  unfold trim. rewrite Ht. clear -Hc. simpl. rewrite !trim_end_cons by done.
  apply prefix_cons. apply trim_end_prefix_app.
Qed.

Lemma line_slug_newline l : line_slug (l ++ [LF]) = trim l.
Proof.
  unfold line_slug. assert (strip_suffix (l ++ [LF]) [LF] = Some l) as -> by by apply strip_suffix_Some.
  done.
Qed.

Lemma line_slug_plain l : LF ∉ l → line_slug l = trim l.
Proof.
  intros Hl. unfold line_slug. rewrite strip_suffix_None; [done|]. intros r ->. apply Hl, elem_of_app; right; by apply list_elem_of_here.
Qed.

Lemma match_open_in specs a l t :
  match_open (mkTagged specs a true l) (line_slug l) = Some t →
  ∃ spec : TagSpec T, spec ∈ specs ∧ tag_open spec = line_slug l.
Proof.
  unfold match_open. simpl. destruct (List.find _ specs) as [spec|] eqn:E; [|done]. intros _.
  apply List.find_some in E as [Hin Heq]. apply bool_decide_eq_true in Heq.
  exists spec. split; [by apply list_elem_of_In|done].
Qed.

Lemma match_close_in specs a l t :
  match_close (mkTagged specs a true l) (line_slug l) = Some t →
  ∃ spec : TagSpec T, spec ∈ specs ∧ tag_close spec = line_slug l.
Proof.
  unfold match_close. simpl. destruct (List.find _ specs) as [spec|] eqn:E; [|done]. intros _.
  apply List.find_some in E as [Hin Heq]. apply bool_decide_eq_true in Heq.
  exists spec. split; [by apply list_elem_of_In|done].
Qed.

Lemma undecided_tag specs l q (spec : TagSpec T) :
  q `prefix_of` l → spec ∈ specs → tag_open spec = trim l ∨ tag_close spec = trim l →
  undecided specs q = true.
Proof.
  intros Hq Hin Ht. unfold undecided. apply trim_prefix_cases in Hq as [->|Hq]; [done|].
  apply orb_true_iff. right. unfold is_tag_prefix. apply existsb_exists. exists spec.
  split; [by apply list_elem_of_In|]. apply orb_true_iff.
  destruct Ht as [Ht|Ht]; [left|right]; apply starts_with_true; by rewrite Ht.
Qed.

(** A line ruled out is text. *)
Lemma line_event_text specs a l line q :
  line_slug line = trim l → q `prefix_of` l → undecided specs q = false →
  line_event specs a line = (text_segment a line, a).
Proof.
  intros Hs Hq Hu. unfold line_event.
  destruct (match_open _ _) eqn:Eo.
  { apply match_open_in in Eo as (spec & Hin & Ht). rewrite Hs in Ht.
    rewrite (undecided_tag _ _ _ _ Hq Hin) in Hu; [done|by left]. }
  destruct (match_close _ _) eqn:Ec; [|done].
  apply match_close_in in Ec as (spec & Hin & Ht). rewrite Hs in Ht.
  rewrite (undecided_tag _ _ _ _ Hq Hin) in Hu; [done|by right].
Qed.

(** A whole line, newline included, from the beginning of a line. *)
Lemma steps_full_line specs a l :
  LF ∉ l →
  ∃ evs, steps (at_line specs a []) (l ++ [LF]) = (at_line specs (line_event specs a (l ++ [LF])).2 [], evs)
    ∧ seg_equiv evs [(line_event specs a (l ++ [LF])).1].
Proof.
  intros Hl. rewrite steps_app.
  destruct (steps_line specs a l Hl) as [->|(evs & q & -> & He & Hq & Hu)]; cbn [fst snd].
  - unfold steps. cbn [foldl]. unfold step, parse_char. cbn [detect_tag at_line].
    rewrite decide_True by done. cbn [is_empty active_line_tag line_buffer at_line].
    change (set_line a true (l ++ [LF]) (at_line specs a l)) with (at_line specs a (l ++ [LF])).
    rewrite finish_line_event. eexists. split; [done|]. by rewrite !app_nil_l, push_segment_equiv.
  - rewrite (line_event_text specs a l _ q) by (done || apply line_slug_newline).
    eexists. split; [done|]. unfold steps, step. cbn. by rewrite He, text_segment_app.
Qed.

Lemma steps_text specs a s :
  seg_equiv ((steps (at_line specs a []) s).2 ++ (finish_tagged (steps (at_line specs a []) s).1).2)
    ((line_events specs a (lines_inclusive s)).1 ++ closing (line_events specs a (lines_inclusive s)).2).
Proof.
  remember (length s) as n eqn:Hn. revert s a Hn.
  induction (lt_wf n) as [n _ IH]; intros s a ->.
  destruct (line_cases s) as [Hl|(l & r & -> & Hl)].
  - destruct (decide (s = [])) as [->|Hne]; [by destruct a|].
    rewrite lines_inclusive_last by done. simpl.
    destruct (line_event specs a s) as [ev a'] eqn:Ee.
    destruct (steps_line specs a s Hl) as [->|(evs & q & -> & He & Hq & Hu)]; cbn [fst snd].
    + rewrite app_nil_l, finish_tagged_event, Ee by done. done.
    + rewrite (line_event_text specs a s s q) in Ee by (done || by apply line_slug_plain).
      simplify_eq. rewrite He. by destruct a'.
  - rewrite lines_inclusive_line by done. simpl.
    destruct (steps_full_line specs a l Hl) as (evs & Hs & He).
    rewrite (cons_middle LF l r), (assoc_L (++)), steps_app, Hs.
    destruct (line_event specs a (l ++ [LF])) as [ev a'] eqn:Ee. cbn [fst snd] in *.
    specialize (IH (length r)). rewrite <- (assoc_L (++)), IH with (s := r); [|rewrite length_app; simpl; lia|done].
    destruct (line_events specs a' (lines_inclusive r)) as [evs2 a2]. simpl. by rewrite He.
Qed.

Definition parse_stream (chunks : list str) (p : Parser) : list Segment :=
  let (p, segs) := parse_all chunks p in segs ++ (finish_tagged p).2.

Lemma parse_stream_lines specs chunks :
  seg_equiv (parse_stream chunks (new_tagged specs)) (tagged_lines specs (concat chunks)).
Proof.
  unfold parse_stream, tagged_lines. destruct (parse_all_steps chunks (new_tagged specs)) as [H1 H2].
  destruct (parse_all chunks (new_tagged specs)) as [p segs]. simpl in *. subst p.
  pose proof (steps_text specs None (concat chunks)) as Ht.
  change (at_line specs None []) with (new_tagged specs) in Ht. rewrite H2, Ht.
  by destruct (line_events specs None _) as [evs []].
Qed.

(** * Observations that merging does not change *)
Section Observe.
Context {S : Type} (g : S → Segment → S).
Context (g_nil : ∀ st a, g st (text_segment a []) = st).
Context (g_app : ∀ st a s t, g (g st (text_segment a s)) (text_segment a t) = g st (text_segment a (s ++ t))).

Lemma observe_push st l s : foldl g st (push_segment l s) = g (foldl g st l) s.
Proof.
  destruct s as [t|t|t x|t]; simpl; [|by rewrite foldl_snoc| |by rewrite foldl_snoc].
  - destruct t as [|c t]; simpl; [by rewrite (g_nil _ None)|].
    destruct (split_last l) as [[l' [x|?|? ?|?]]|] eqn:E; try by rewrite foldl_snoc.
    apply split_last_Some in E as ->. rewrite !foldl_snoc. symmetry. apply (g_app _ None).
  - destruct x as [|c x]; simpl; [by rewrite (g_nil _ (Some t))|].
    destruct (split_last l) as [[l' [?|?|t' y|?]]|] eqn:E; try by rewrite foldl_snoc.
    destruct (decide (t' = t)) as [->|]; [|by rewrite foldl_snoc].
    apply split_last_Some in E as ->. rewrite !foldl_snoc. symmetry. apply (g_app _ (Some t)).
Qed.

Lemma observe_pushes st acc l : foldl g st (pushes acc l) = foldl g (foldl g st acc) l.
Proof.
  revert acc. induction l as [|s l IH]; intros acc; [done|]. simpl. by rewrite IH, observe_push.
Qed.

Lemma observe_equiv st l l' : seg_equiv l l' → foldl g st l = foldl g st l'.
Proof. intros H. specialize (H []). apply (f_equal (foldl g st)) in H. by rewrite !observe_pushes in H. Qed.
End Observe.

(** The text outside blocks. *)
Definition normal_text (s : Segment) : option str :=
  match s with Normal t => Some t | _ => None end.

Definition outside (l : list Segment) : str := concat (omap normal_text l).

Lemma outside_app l l' : outside (l ++ l') = outside l ++ outside l'.
Proof. unfold outside. by rewrite omap_app, concat_app. Qed.

Lemma outside_fold l st :
  foldl (λ st s, match s with Normal t => st ++ t | _ => st end) st l = st ++ outside l.
Proof.
  revert st. induction l as [|s l IH]; intros st; simpl; [by rewrite app_nil_r|]. rewrite IH.
  destruct s; simpl; try done. unfold outside. simpl. by rewrite <- (assoc_L (++)).
Qed.

Lemma outside_equiv l l' : seg_equiv l l' → outside l = outside l'.
Proof.
  intros H. pose proof (outside_fold l []) as H1. pose proof (outside_fold l' []) as H2. simpl in H1, H2.
  rewrite <- H1, <- H2. apply observe_equiv; [|by intros ? [] ? ?; simpl; rewrite <- ?(assoc_L (++))|done].
  intros st []; simpl; by rewrite ?app_nil_r.
Qed.

(** * Stripping twice *)

(** Lines as [lines_inclusive] produces them. *)
Fixpoint proper_lines (ls : list str) : Prop :=
  match ls with
  | [] => True
  | l :: ls => (∃ w, (LF ∉ w) ∧ (l = w ++ [LF] ∨ l = w ∧ w ≠ [] ∧ ls = [])) ∧ proper_lines ls
  end.

Lemma lines_inclusive_proper s : proper_lines (lines_inclusive s).
Proof.
  induction s as [|c s IH]; simpl; [done|]. destruct (decide (c = LF)) as [->|Hc].
  { split; [|done]. exists []. split; [apply not_elem_of_nil|by left]. }
  destruct (lines_inclusive s) as [|l ls].
  { split; [|done]. exists [c]. split; [|by right]. apply not_elem_of_cons. split; [done|apply not_elem_of_nil]. }
  destruct IH as [(w & Hw & Hl) IH]. split; [|done]. exists (c :: w).
  split; [by apply not_elem_of_cons|]. destruct Hl as [->|(-> & Hne & ->)]; [by left|by right].
Qed.

Lemma lines_inclusive_concat ls : proper_lines ls → lines_inclusive (concat ls) = ls.
Proof.
  induction ls as [|l ls IH]; [done|]. intros [(w & Hw & Hl) Hls]. cbn [concat].
  destruct Hl as [->|(-> & Hne & ->)].
  - rewrite <- (assoc_L (++)). change ([LF] ++ concat ls) with (LF :: concat ls).
    by rewrite lines_inclusive_line, IH.
  - simpl. rewrite app_nil_r. by apply lines_inclusive_last.
Qed.

Lemma normal_lines specs a ls :
  proper_lines ls →
  let kept := omap normal_text (line_events specs a ls).1 in
  proper_lines kept ∧ Forall (λ l, line_event specs None l = (Normal l, None)) kept.
Proof.
  revert a. induction ls as [|l ls IH]; intros a; [done|]. intros [(w & Hw & Hl) Hls]. simpl.
  destruct (line_event specs a l) as [ev a'] eqn:Ee. specialize (IH a' Hls). simpl in IH.
  destruct (line_events specs a' ls) as [evs a2] eqn:Ees. simpl in *.
  destruct ev as [t|t|t x|t]; simpl; try done. destruct IH as [IH1 IH2].
  assert (a = None ∧ t = l ∧ a' = None) as (-> & -> & ->).
  { clear -Ee. unfold line_event in Ee. repeat case_in Ee; destruct a; by simplify_eq/=. }
  split; [|by constructor]. split; [|done]. exists w. split; [done|].
  destruct Hl as [->|(-> & Hne & ->)]; [by left|right]. by simplify_eq/=.
Qed.

Lemma line_events_normal specs ls :
  Forall (λ l, line_event specs None l = (Normal l, None)) ls →
  line_events specs None ls = (Normal <$> ls, None).
Proof. induction 1 as [|l ls Hl _ IH]; [done|]. simpl. by rewrite Hl, IH. Qed.

Lemma tagged_lines_outside specs text :
  ∃ ls, tagged_lines specs (outside (tagged_lines specs text)) = Normal <$> ls
    ∧ concat ls = outside (tagged_lines specs text).
Proof.
  unfold tagged_lines at 2 3. pose proof (normal_lines specs None _ (lines_inclusive_proper text)) as [H1 H2].
  destruct (line_events specs None (lines_inclusive text)) as [evs a]. simpl in *.
  assert (Ho : outside (evs ++ match a with Some tag => [TagEnd tag] | None => [] end)
    = concat (omap normal_text evs)).
  { rewrite outside_app. destruct a; unfold outside; simpl; by rewrite app_nil_r. }
  rewrite Ho. exists (omap normal_text evs). split; [|done].
  unfold tagged_lines. rewrite lines_inclusive_concat, line_events_normal by done. by rewrite app_nil_r.
Qed.
End Tagged.

(** Feeding a text in any chunks to the parser of tag blocks and finishing gives,
    up to joining adjacent text, what a line-by-line reading of the whole text gives: a
    line that is an opening tag (spaces around it allowed) outside a block starts one, the
    closing tag of the current block ends it, every other line is text of the block or
    normal text with its line ending, and a block still open at the end is closed. *)
Theorem tagged_parser_refines_lines {T} `{EqDecision T} (specs : list (TagSpec T)) chunks :
  merged (parse_stream chunks (new_tagged specs)) = merged (tagged_lines specs (concat chunks)).
Proof. apply merged_equiv, parse_stream_lines. Qed.

(** * Plan blocks *)
Abbreviation plan_specs := [mkTagSpec OPEN_TAG CLOSE_TAG ProposedPlan].

Lemma map_segments_eq segs : map_segments segs = mkTextChunk (outside segs) (map_segment <$> segs).
Proof.
  induction segs as [|s segs IH] using rev_ind; [done|].
  unfold map_segments in *. rewrite foldl_app, IH. simpl. rewrite outside_app, fmap_app. simpl.
  destruct s as [t|[]|[] t|[]]; unfold outside; simpl; by rewrite ?app_nil_r.
Qed.

Lemma plan_push_all chunks p :
  push_all chunks (mkPlan p) =
    (mkPlan (parse_all chunks p).1,
     mkTextChunk (outside (parse_all chunks p).2) (map_segment <$> (parse_all chunks p).2)).
Proof.
  revert p. induction chunks as [|c chunks IH]; intros p; [done|]. cbn [push_all push_str plan_stream plan_parser parse_all].
  destruct (parse c p) as [p1 segs]. rewrite IH. destruct (parse_all chunks p1) as [p2 rest]. simpl.
  by rewrite map_segments_eq, outside_app, fmap_app.
Qed.

Lemma plan_run_stream chunks p :
  run_stream chunks (mkPlan p) =
    mkTextChunk (outside (parse_stream chunks p)) (map_segment <$> parse_stream chunks p).
Proof.
  unfold run_stream, parse_stream. rewrite plan_push_all. destruct (parse_all chunks p) as [p1 segs].
  cbn [finish plan_stream plan_parser fst]. destruct (finish_tagged p1) as [p2 fin]. simpl.
  by rewrite map_segments_eq, outside_app, fmap_app.
Qed.

Lemma push_one {P E} `{StreamTextParser P E} text (p : P) :
  run_stream [text] p =
    let (p, out) := push_str text p in chunk_app out (finish p).2.
Proof.
  unfold run_stream. simpl. destruct (push_str text p) as [p1 out]. destruct (finish p1) as [p2 fin].
  unfold chunk_app. simpl. by rewrite !app_nil_r.
Qed.

Lemma strip_plan_lines text : strip_proposed_plan_blocks text = outside (tagged_lines plan_specs text).
Proof.
  pose proof (push_one text new_plan) as H. unfold new_plan in H. rewrite plan_run_stream in H.
  unfold strip_proposed_plan_blocks, new_plan. destruct (push_str text _) as [p out].
  apply (f_equal visible_text) in H. etrans; [symmetry; exact H|]. cbn [visible_text].
  rewrite (outside_equiv _ _ (parse_stream_lines plan_specs [text])). simpl. by rewrite app_nil_r.
Qed.

(** The plan text kept after a sequence of segments. *)
Definition plan_step (st : str * bool) (s : TaggedLineSegment PlanTag) : str * bool :=
  plan_text_step st (map_segment s).

Lemma extract_plan_lines text :
  extract_proposed_plan_text text =
    let st := foldl plan_step ([], false) (tagged_lines plan_specs text) in
    if st.2 then Some st.1 else None.
Proof.
  pose proof (push_one text new_plan) as H. unfold new_plan in H. rewrite plan_run_stream in H.
  unfold extract_proposed_plan_text, new_plan. destruct (push_str text _) as [p out].
  apply (f_equal extracted) in H. cbn [extracted chunk_app] in H. rewrite <- H. clear H.
  assert (Hm : ∀ l st, foldl plan_text_step st (map_segment <$> l) = foldl plan_step st l).
  { induction l as [|s l IH]; intros st; [done|]. apply IH. }
  rewrite Hm. rewrite (observe_equiv plan_step) with (l' := tagged_lines plan_specs text).
  - by destruct (foldl plan_step _ _).
  - by intros [x b] [[]|]; unfold plan_step; simpl; rewrite ?app_nil_r.
  - intros [x b] [[]|] s t; unfold plan_step; simpl; by rewrite <- ?(assoc_L (++)).
  - pose proof (parse_stream_lines plan_specs [text]) as Hp. simpl in Hp. by rewrite app_nil_r in Hp.
Qed.

(** The text of the blocks. *)
Definition delta_text (s : TaggedLineSegment PlanTag) : option str :=
  match s with TagDelta _ t => Some t | _ => None end.

Lemma plan_step_no_start l st :
  TagStart ProposedPlan ∉ l → foldl plan_step st l = (st.1 ++ concat (omap delta_text l), st.2).
Proof.
  revert st. induction l as [|s l IH]; intros [x b] Hl; simpl; [by rewrite app_nil_r|].
  apply not_elem_of_cons in Hl as [Hs Hl]. rewrite IH by done.
  destruct s as [t|[]|[] t|[]]; simpl; try done. by rewrite <- (assoc_L (++)).
Qed.

(** [strip_proposed_plan_blocks] keeps exactly the lines outside plan blocks and
    its result has no plan block left, so that stripping again changes nothing;
    [extract_proposed_plan_text] returns the text of the last plan block, and nothing
    when the text has none; and the visible text of a stream, in any chunks, is the
    stripped text. *)
Theorem proposed_plan_spec text :
  strip_proposed_plan_blocks text = outside (tagged_lines plan_specs text)
  ∧ strip_proposed_plan_blocks (strip_proposed_plan_blocks text) = strip_proposed_plan_blocks text
  ∧ extract_proposed_plan_text (strip_proposed_plan_blocks text) = None
  ∧ (TagStart ProposedPlan ∉ tagged_lines plan_specs text → extract_proposed_plan_text text = None)
  ∧ (∀ before after, tagged_lines plan_specs text = before ++ TagStart ProposedPlan :: after →
      TagStart ProposedPlan ∉ after →
      extract_proposed_plan_text text = Some (concat (omap delta_text after)))
  ∧ (∀ chunks, concat chunks = text →
      visible_text (run_stream chunks new_plan) = strip_proposed_plan_blocks text).
Proof.
  destruct (tagged_lines_outside plan_specs text) as (ls & Hls & Hc).
  rewrite !extract_plan_lines, !strip_plan_lines, Hls. split; [done|]. split.
  { rewrite <- Hc. unfold outside. f_equal. clear. induction ls as [|l ls IH]; [done|]. simpl. by f_equal. }
  split.
  { rewrite plan_step_no_start; [done|]. intros (y & Hy & _)%list_elem_of_fmap. done. }
  split; [intros Hn; by rewrite plan_step_no_start|]. split.
  { intros before after -> Hn. rewrite foldl_app. cbn [foldl]. rewrite plan_step_no_start by done.
    unfold plan_step. done. }
  intros chunks <-. unfold new_plan. rewrite plan_run_stream.
  by rewrite (outside_equiv _ _ (parse_stream_lines plan_specs chunks)).
Qed.

(** * Assistant text *)
Lemma run_stream_snoc {P E} `{StreamTextParser P E} chunks c (p : P) :
  run_stream (chunks ++ [c]) p =
    let (p, out) := push_all chunks p in
    let (p, last) := push_str c p in chunk_app (chunk_app out last) (finish p).2.
Proof.
  unfold run_stream.
  assert (Hg : ∀ chunks p, push_all (chunks ++ [c]) p =
    let (p, out) := push_all chunks p in
    let (p, last) := push_str c p in (p, chunk_app out last)).
  { clear. induction chunks as [|d chunks IH]; intros p; simpl.
    - destruct (push_str c p) as [p1 out]. unfold chunk_app. simpl. by rewrite !app_nil_r.
    - destruct (push_str d p) as [p1 out]. rewrite IH. destruct (push_all chunks p1) as [p2 rest].
      destruct (push_str c p2) as [p3 fin]. unfold chunk_app. simpl. by rewrite !(assoc_L (++)). }
  rewrite Hg. destruct (push_all chunks p) as [p1 out]. by destruct (push_str c p1).
Qed.

(** The citation parser feeds [pieces] to the plan parser, chunk by chunk. *)
Lemma assistant_push_all_eq mode chunks cits plan :
  ∃ pieces,
    let c := push_all chunks cits in
    let q := push_all pieces plan in
    let r := assistant_push_all chunks (mkAssistant mode cits plan) in
    concat pieces = visible_text c.2 ∧
    r.1 = mkAssistant mode c.1 (if mode then q.1 else plan) ∧
    concat (at_citations <$> r.2) = extracted c.2 ∧
    concat (at_visible_text <$> r.2) = (if mode then visible_text q.2 else visible_text c.2) ∧
    concat (at_plan_segments <$> r.2) = (if mode then extracted q.2 else []).
Proof.
  revert cits plan. induction chunks as [|s chunks IH]; intros cits plan.
  { exists []. by destruct mode. }
  cbn [push_all assistant_push_all]. unfold assistant_push_str, parse_visible_text.
  cbn [at_citation_parser at_plan_parser plan_mode].
  destruct (push_str s cits) as [cits1 cout]. destruct mode.
  - destruct (push_str (visible_text cout) plan) as [plan1 pout] eqn:Ep.
    destruct (IH cits1 plan1) as (pieces & H1 & H2 & H3 & H4 & H5). exists (visible_text cout :: pieces).
    cbn [push_all]. rewrite Ep. destruct (push_all chunks cits1), (push_all pieces plan1),
      (assistant_push_all chunks _). simpl in *. split_and!; try done; by f_equal.
  - destruct (IH cits1 plan) as (pieces & H1 & H2 & H3 & H4 & H5). exists (visible_text cout :: pieces).
    destruct (push_all chunks cits1), (assistant_push_all chunks _). simpl in *.
    split_and!; try done; by f_equal.
Qed.

Lemma assistant_finish_eq mode cits plan :
  let f := finish cits in
  let q := push_str (visible_text f.2) plan in
  let r := (assistant_finish (mkAssistant mode cits plan)).2 in
  at_citations r = extracted f.2 ∧
  at_visible_text r = (if mode then visible_text q.2 ++ visible_text (finish q.1).2 else visible_text f.2) ∧
  at_plan_segments r = (if mode then extracted q.2 ++ extracted (finish q.1).2 else []).
Proof.
  unfold assistant_finish, parse_visible_text. cbn [at_citation_parser at_plan_parser plan_mode].
  destruct (finish cits) as [cits1 cout]. destruct mode; [|done]. cbn [snd fst].
  destruct (push_str (visible_text cout) plan) as [plan1 pout]. cbn [at_plan_parser plan_mode fst snd].
  destruct (finish plan1) as [plan2 [tv te]]. unfold chunk_is_empty. simpl.
  destruct tv; [destruct te|]; simpl; by rewrite ?app_nil_r.
Qed.

