(* ===== verification/Utf8Stream.v ===== *)
(** [utf8_stream.rs] of [utils/stream-parser]: feeding a text parser from raw bytes,
    with code points split between chunks. [std::str::from_utf8] is modelled with its
    error values. *)
From stdpp Require Import base list numbers strings.
From S2P Require Import Prelude RustStr InlineHiddenTag InlineHiddenTagFacts.

Abbreviation byte := N.

(** * UTF-8 *)

(** A Unicode scalar value. *)
Definition is_scalar (c : char) : bool :=
  ((c <? 55296) || ((57343 <? c) && (c <? 1114112)))%N.

Definition encode (c : char) : list byte :=
  (if c <? 128 then [c]
   else if c <? 2048 then [192 + c / 64; 128 + c mod 64]
   else if c <? 65536 then [224 + c / 4096; 128 + (c / 64) mod 64; 128 + c mod 64]
   else [240 + c / 262144; 128 + (c / 4096) mod 64; 128 + (c / 64) mod 64; 128 + c mod 64])%N.

Definition utf8 (s : str) : list byte := concat (encode <$> s).

Definition between (lo hi b : byte) : bool := ((lo <=? b) && (b <=? hi))%N.
Definition continuation (b : byte) : bool := between 128 191 b.

(** The bytes allowed after the first byte of a three-byte and of a four-byte sequence. *)
Definition second3 (b0 b1 : byte) : bool :=
  if (b0 =? 224)%N then between 160 191 b1
  else if (b0 =? 237)%N then between 128 159 b1
  else continuation b1.
Definition second4 (b0 b1 : byte) : bool :=
  if (b0 =? 240)%N then between 144 191 b1
  else if (b0 =? 244)%N then between 128 143 b1
  else continuation b1.

(** The first sequence of the bytes: a code point and what follows, an invalid sequence
    of the given length, or a sequence that the end cuts off. *)
Inductive decoded : Type :=
| Decoded (c : char) (rest : list byte)
| Invalid (error_len : nat)
| Incomplete.

Definition decode2 (b0 : byte) (bs : list byte) : decoded :=
  match bs with
  | [] => Incomplete
  | b1 :: bs => if continuation b1 then Decoded ((b0 - 192) * 64 + (b1 - 128))%N bs else Invalid 1
  end.

Definition decode3 (b0 : byte) (bs : list byte) : decoded :=
  match bs with
  | [] => Incomplete
  | b1 :: bs =>
      if second3 b0 b1 then
        match bs with
        | [] => Incomplete
        | b2 :: bs =>
            if continuation b2
            then Decoded ((b0 - 224) * 4096 + (b1 - 128) * 64 + (b2 - 128))%N bs else Invalid 2
        end
      else Invalid 1
  end.

Definition decode4 (b0 : byte) (bs : list byte) : decoded :=
  match bs with
  | [] => Incomplete
  | b1 :: bs =>
      if second4 b0 b1 then
        match bs with
        | [] => Incomplete
        | b2 :: bs =>
            if continuation b2 then
              match bs with
              | [] => Incomplete
              | b3 :: bs =>
                  if continuation b3
                  then Decoded
                    ((b0 - 240) * 262144 + (b1 - 128) * 4096 + (b2 - 128) * 64 + (b3 - 128))%N bs
                  else Invalid 3
              end
            else Invalid 2
        end
      else Invalid 1
  end.

Definition decode (bs : list byte) : decoded :=
  match bs with
  | [] => Incomplete
  | b0 :: bs =>
      if (b0 <? 128)%N then Decoded b0 bs
      else if between 194 223 b0 then decode2 b0 bs
      else if between 224 239 b0 then decode3 b0 bs
      else if between 240 244 b0 then decode4 b0 bs
      else Invalid 1
  end.

(** [Utf8Error]. *)
Record Utf8Error : Type := mkUtf8Error { valid_up_to : nat; error_len : option nat }.

(** Every step consumes a byte: as much fuel as bytes is enough. *)
Fixpoint from_utf8_loop (fuel : nat) (bs : list byte) (pos : nat) : Result str Utf8Error :=
  match bs, fuel with
  | [], _ => Ok []
  | _, 0 => Err (mkUtf8Error pos None)
  | _, S fuel =>
      match decode bs with
      | Decoded c rest =>
          let? s := from_utf8_loop fuel rest (pos + len_utf8 c) in Ok (c :: s)
      | Invalid n => Err (mkUtf8Error pos (Some n))
      | Incomplete => Err (mkUtf8Error pos None)
      end
  end.

Definition from_utf8 (bs : list byte) : Result str Utf8Error := from_utf8_loop (length bs) bs 0.

(** * The parser *)
Inductive Utf8StreamParserError : Type :=
| InvalidUtf8 (valid_up_to error_len : nat)
| IncompleteUtf8AtEof.

Record Utf8StreamParser (P : Type) : Type := mkUtf8 {
  inner : P;
  pending_utf8 : list byte;
}.
Arguments mkUtf8 {P} inner pending_utf8.
Arguments inner {P} _.
Arguments pending_utf8 {P} _.

Section Utf8.
Context {P E : Type} `{StreamTextParser P E}.
Abbreviation Parser := (Utf8StreamParser P).
Abbreviation Outcome := (Result (StreamTextChunk E) Utf8StreamParserError).

Definition new_utf8 (p : P) : Parser := mkUtf8 p [].

Definition push_bytes (chunk : list byte) (p : Parser) : Parser * Outcome :=
  let old_len := length (pending_utf8 p) in
  let pending := pending_utf8 p ++ chunk in
  match from_utf8 pending with
  | Ok text =>
      let (i, out) := push_str text (inner p) in
      (mkUtf8 i [], Ok out)
  | Err err =>
      match error_len err with
      | Some n => (mkUtf8 (inner p) (take old_len pending), Err (InvalidUtf8 (valid_up_to err) n))
      | None =>
          let valid := valid_up_to err in
          if valid =? 0 then (mkUtf8 (inner p) pending, Ok default_chunk)
          else
            match from_utf8 (take valid pending) with
            | Ok text =>
                let (i, out) := push_str text (inner p) in
                (mkUtf8 i (drop valid pending), Ok out)
            | Err prefix_err =>
                (mkUtf8 (inner p) (take old_len pending),
                 Err (InvalidUtf8 (valid_up_to prefix_err) (default 0 (error_len prefix_err))))
            end
      end
  end.

(** The error of [finish] and [into_inner] for undecodable buffered bytes. *)
Definition eof_error (err : Utf8Error) : Utf8StreamParserError :=
  match error_len err with
  | Some n => InvalidUtf8 (valid_up_to err) n
  | None => IncompleteUtf8AtEof
  end.

Definition finish_utf8 (p : Parser) : Parser * Outcome :=
  let flush (p : Parser) (out : StreamTextChunk E) : Parser * Outcome :=
    let (i, tail) := finish (inner p) in
    (mkUtf8 i (pending_utf8 p), Ok (chunk_app out tail)) in
  if is_empty (pending_utf8 p) then flush p default_chunk
  else
    match from_utf8 (pending_utf8 p) with
    | Err err => (p, Err (eof_error err))
    | Ok text =>
        let (i, out) := push_str text (inner p) in
        flush (mkUtf8 i []) out
    end.

Definition into_inner (p : Parser) : Result P Utf8StreamParserError :=
  if is_empty (pending_utf8 p) then Ok (inner p)
  else match from_utf8 (pending_utf8 p) with
       | Ok _ => Ok (inner p)
       | Err err => Err (eof_error err)
       end.

Definition into_inner_lossy (p : Parser) : P := inner p.

(** The byte chunks of a stream and the final flush, up to the first error. *)
Fixpoint push_all_bytes (chunks : list (list byte)) (p : Parser) : Parser * Outcome :=
  match chunks with
  | [] => (p, Ok default_chunk)
  | c :: chunks =>
      match push_bytes c p with
      | (p, Ok out) =>
          let (p, r) := push_all_bytes chunks p in
          (p, let? rest := r in Ok (chunk_app out rest))
      | (p, Err e) => (p, Err e)
      end
  end.

Definition run_bytes (chunks : list (list byte)) (p : Parser) : Outcome :=
  let (p, r) := push_all_bytes chunks p in
  let? out := r in
  let? fin := (finish_utf8 p).2 in
  Ok (chunk_app out fin).
End Utf8.

(** Bytes to text: decoding is exact, code points may be split anywhere, and an invalid
    chunk leaves the parser as it was. *)

Ltac Zify.zify_post_hook ::= Z.to_euclidean_division_equations.

Lemma ltb_case (a b : N) : ((a <? b)%N = true ∧ (a < b)%N) ∨ ((a <? b)%N = false ∧ (b <= a)%N).
Proof. destruct (N.ltb_spec a b); [left|right]; done. Qed.

Lemma between_true lo hi b : between lo hi b = true ↔ (lo <= b <= hi)%N.
Proof. unfold between. rewrite andb_true_iff, !N.leb_le. done. Qed.

Lemma between_false lo hi b : between lo hi b = false ↔ (b < lo ∨ hi < b)%N.
Proof. unfold between. rewrite andb_false_iff, !N.leb_gt. done. Qed.

Lemma is_scalar_true c : is_scalar c = true ↔ (c < 55296 ∨ 57343 < c < 1114112)%N.
Proof. unfold is_scalar. rewrite orb_true_iff, andb_true_iff, !N.ltb_lt. done. Qed.

Lemma second3_true b0 b1 :
  second3 b0 b1 = true ↔
  (128 <= b1 <= 191 ∧ (b0 = 224 → 160 <= b1) ∧ (b0 = 237 → b1 <= 159))%N.
Proof.
  unfold second3. destruct (N.eqb_spec b0 224); [|destruct (N.eqb_spec b0 237)];
    unfold continuation; rewrite between_true; lia.
Qed.

Lemma second4_true b0 b1 :
  second4 b0 b1 = true ↔
  (128 <= b1 <= 191 ∧ (b0 = 240 → 144 <= b1) ∧ (b0 = 244 → b1 <= 143))%N.
Proof.
  unfold second4. destruct (N.eqb_spec b0 240); [|destruct (N.eqb_spec b0 244)];
    unfold continuation; rewrite between_true; lia.
Qed.

Lemma length_encode c : length (encode c) = len_utf8 c.
Proof. unfold encode, len_utf8. repeat case_match; done. Qed.

(** * Decoding one code point *)

(** A scalar value is decoded from its encoding, and from nothing shorter. *)
Lemma decode_encode c rest : is_scalar c = true → decode (encode c ++ rest) = Decoded c rest.
Proof.
  rewrite is_scalar_true. intros Hc. unfold encode.
  destruct (ltb_case c 128) as [[-> ?]|[-> ?]].
  { simpl. by destruct (ltb_case c 128) as [[-> ?]|[-> ?]]; [|lia]. }
  destruct (ltb_case c 2048) as [[-> ?]|[-> ?]].
  { cbn [app decode]. rewrite (proj2 (N.ltb_ge _ _)) by lia.
    rewrite (proj2 (between_true _ _ _)) by lia. cbn [decode2]. unfold continuation.
    rewrite (proj2 (between_true _ _ _)) by lia. f_equal. lia. }
  destruct (ltb_case c 65536) as [[-> ?]|[-> ?]].
  { cbn [app decode]. rewrite (proj2 (N.ltb_ge _ _)) by lia.
    rewrite (proj2 (between_false _ _ _)) by lia. rewrite (proj2 (between_true _ _ _)) by lia.
    cbn [decode3]. rewrite (proj2 (second3_true _ _)) by lia. unfold continuation.
    rewrite (proj2 (between_true _ _ _)) by lia. f_equal. lia. }
  cbn [app decode]. rewrite (proj2 (N.ltb_ge _ _)) by lia.
  rewrite (proj2 (between_false _ _ _)) by lia. rewrite (proj2 (between_false _ _ _)) by lia.
  rewrite (proj2 (between_true _ _ _)) by lia.
  cbn [decode4]. rewrite (proj2 (second4_true _ _)) by lia. unfold continuation.
  rewrite !(proj2 (between_true _ _ _)) by lia. f_equal. lia.
Qed.

Lemma continuation_true b : continuation b = true ↔ (128 <= b <= 191)%N.
Proof. apply between_true. Qed.

Lemma decode_sound bs c rest :
  decode bs = Decoded c rest → bs = encode c ++ rest ∧ is_scalar c = true.
Proof.
  destruct bs as [|b0 bs]; simpl; [done|]. rewrite is_scalar_true. unfold encode.
  destruct (ltb_case b0 128) as [[E ?]|[E ?]]; rewrite E.
  { intros [= -> ->]. rewrite E. split; [done|lia]. }
  destruct (between 194 223 b0) eqn:E2.
  { apply between_true in E2. unfold decode2. destruct bs as [|b1 bs]; [done|].
    destruct (continuation b1) eqn:Ec; [|done]. apply continuation_true in Ec. intros [= <- <-].
    rewrite (proj2 (N.ltb_ge _ 128)) by lia. rewrite (proj2 (N.ltb_lt _ 2048)) by lia.
    split; [|lia]. cbn [app]. repeat f_equal; lia. }
  apply between_false in E2. destruct (between 224 239 b0) eqn:E3.
  { apply between_true in E3. unfold decode3. destruct bs as [|b1 bs]; [done|].
    destruct (second3 b0 b1) eqn:E1; [|done]. apply second3_true in E1. destruct bs as [|b2 bs]; [done|].
    destruct (continuation b2) eqn:Ec; [|done]. apply continuation_true in Ec. intros [= <- <-].
    rewrite (proj2 (N.ltb_ge _ 128)), (proj2 (N.ltb_ge _ 2048)) by lia.
    rewrite (proj2 (N.ltb_lt _ 65536)) by lia. split; [|lia]. cbn [app]. repeat f_equal; lia. }
  apply between_false in E3. destruct (between 240 244 b0) eqn:E4; [|done].
  apply between_true in E4. unfold decode4. destruct bs as [|b1 bs]; [done|].
  destruct (second4 b0 b1) eqn:E1; [|done]. apply second4_true in E1. destruct bs as [|b2 bs]; [done|].
  destruct (continuation b2) eqn:Ec; [|done]. apply continuation_true in Ec. destruct bs as [|b3 bs]; [done|].
  destruct (continuation b3) eqn:Ec3; [|done]. apply continuation_true in Ec3. intros [= <- <-].
  rewrite (proj2 (N.ltb_ge _ 128)), (proj2 (N.ltb_ge _ 2048)), (proj2 (N.ltb_ge _ 65536)) by lia.
  split; [|lia]. cbn [app]. repeat f_equal; lia.
Qed.

(** What has been decided does not depend on what follows. *)
Lemma decode_app bs more :
  decode (bs ++ more) =
    match decode bs with
    | Decoded c rest => Decoded c (rest ++ more)
    | Invalid n => Invalid n
    | Incomplete => decode (bs ++ more)
    end.
Proof.
  destruct bs as [|b0 bs]; [done|]. simpl. unfold decode2, decode3, decode4.
  repeat case_goal; simplify_eq/=; try done; congruence.
Qed.

Lemma decode_cut c q r : is_scalar c = true → encode c = q ++ r → r ≠ [] → decode q = Incomplete.
Proof.
  intros Hc He Hr. pose proof (decode_encode c [] Hc) as Hd. rewrite app_nil_r, He, decode_app in Hd.
  destruct (decode q) as [c' rest|n|]; [|done|done]. injection Hd as _ Hd. by destruct rest.
Qed.

(** A sequence that was cut off can be completed. *)
Lemma decode_complete q : decode q = Incomplete → ∃ more c, decode (q ++ more) = Decoded c [].
Proof.
  destruct q as [|b0 q]; [intros _; by exists [0%N], 0%N|]. simpl.
  destruct (ltb_case b0 128) as [[-> ?]|[-> ?]]; [done|].
  destruct (between 194 223 b0) eqn:E2.
  { unfold decode2. destruct q as [|b1 q]; [|by case_match]. intros _. exists [128%N]. by eexists. }
  destruct (between 224 239 b0) eqn:E3.
  { unfold decode3. destruct q as [|b1 q].
    - intros _. exists [if (b0 =? 224)%N then 160%N else 128%N; 128%N]. eexists. simpl.
      rewrite (proj2 (second3_true _ _)); [done|]. destruct (N.eqb_spec b0 224); lia.
    - simpl. destruct (second3 b0 b1); [|done]. destruct q as [|b2 q]; [|by case_match].
      intros _. exists [128%N]. by eexists. }
  destruct (between 240 244 b0) eqn:E4; [|done].
  unfold decode4. destruct q as [|b1 q].
  - intros _. exists [if (b0 =? 240)%N then 144%N else 128%N; 128%N; 128%N]. eexists. simpl.
    rewrite (proj2 (second4_true _ _)); [done|]. destruct (N.eqb_spec b0 240); lia.
  - simpl. destruct (second4 b0 b1); [|done]. destruct q as [|b2 q].
    { intros _. exists [128%N; 128%N]. by eexists. }
    simpl. destruct (continuation b2); [|done]. destruct q as [|b3 q]; [|by case_match].
    intros _. exists [128%N]. by eexists.
Qed.

(** * Decoding a whole buffer *)
Abbreviation scalars := (Forall (λ c, is_scalar c = true)).

Lemma utf8_app s t : utf8 (s ++ t) = utf8 s ++ utf8 t.
Proof. unfold utf8. by rewrite fmap_app, concat_app. Qed.

Lemma length_utf8 s : length (utf8 s) = str_len s.
Proof.
  induction s as [|c s IH]; [done|]. change (utf8 (c :: s)) with (encode c ++ utf8 s).
  by rewrite length_app, length_encode, IH.
Qed.

Lemma encode_ne c : 1 ≤ length (encode c).
Proof. rewrite length_encode. apply len_utf8_pos. Qed.

(** Complete code points followed by a sequence cut off. *)
Lemma from_utf8_loop_cut s q fuel pos :
  scalars s → decode q = Incomplete → length (utf8 s ++ q) ≤ fuel →
  from_utf8_loop fuel (utf8 s ++ q) pos =
    if is_empty q then Ok s else Err (mkUtf8Error (pos + str_len s) None).
Proof.
  intros Hs Hq. revert fuel pos. induction Hs as [|c s Hc _ IH]; intros fuel pos Hf.
  - simpl in *. destruct q as [|b q]; [by destruct fuel|]. destruct fuel as [|fuel]; [simpl in Hf; lia|].
    cbn [from_utf8_loop]. rewrite Hq. simpl. do 2 f_equal. unfold str_len. simpl. lia.
  - change (utf8 (c :: s)) with (encode c ++ utf8 s) in *. rewrite <- (assoc_L (++)) in *.
    pose proof (encode_ne c) as Hl. rewrite length_app in Hf.
    destruct fuel as [|fuel]; [lia|]. pose proof (decode_encode c (utf8 s ++ q) Hc) as Hd.
    destruct (encode c ++ utf8 s ++ q) as [|b bs] eqn:E.
    { apply (f_equal length) in E. rewrite length_app in E. simpl in E. lia. }
    cbn [from_utf8_loop]. rewrite Hd, IH by lia. destruct (is_empty q); [done|]. simpl.
    do 2 f_equal. unfold str_len. simpl. lia.
Qed.

Lemma from_utf8_cut s q :
  scalars s → decode q = Incomplete →
  from_utf8 (utf8 s ++ q) = if is_empty q then Ok s else Err (mkUtf8Error (str_len s) None).
Proof. intros Hs Hq. unfold from_utf8. by rewrite from_utf8_loop_cut by done. Qed.

(** Every buffer is complete code points followed by a sequence cut off or an invalid one. *)
Lemma buffer_cases bs :
  ∃ s q, bs = utf8 s ++ q ∧ scalars s ∧
    (decode q = Incomplete ∨ (∃ n, decode q = Invalid n) ∧ ∃ v n, from_utf8 bs = Err (mkUtf8Error v (Some n))).
Proof.
  unfold from_utf8. generalize 0. remember (length bs) as fuel eqn:Hf.
  assert (length bs ≤ fuel) as Hle by lia. clear Hf. revert bs Hle.
  induction fuel as [|fuel IH]; intros bs Hle pos.
  { exists [], []. assert (bs = []) as -> by (apply nil_length_inv; lia). by repeat split; left. }
  destruct (decode bs) as [c rest|n|] eqn:E.
  - apply decode_sound in E as He. destruct He as [-> Hc]. pose proof (encode_ne c).
    rewrite length_app in Hle. destruct (IH rest ltac:(lia) (pos + len_utf8 c)) as (s & q & -> & Hs & Hq).
    exists (c :: s), q. split; [unfold utf8; simpl; by rewrite <- (assoc_L (++))|]. split; [by constructor|].
    destruct Hq as [Hq|[Hq (v & n & Hv)]]; [by left|]. right. split; [done|]. exists v, n.
    destruct (encode c ++ utf8 s ++ q) as [|b bs] eqn:Eb.
    { apply (f_equal length) in Eb. rewrite length_app in Eb. simpl in Eb. lia. }
    cbn [from_utf8_loop]. by rewrite E, Hv.
  - exists [], bs. split; [done|]. split; [done|]. right. split; [by eexists|]. exists pos, n.
    destruct bs as [|b bs]; [done|]. cbn [from_utf8_loop]. by rewrite E.
  - exists [], bs. split; [done|]. split; [done|]. by left.
Qed.

(** A part of the encoding of a text ends in at most one code point cut off. *)
Lemma utf8_prefix s q r :
  scalars s → utf8 s = q ++ r →
  ∃ s1 s2 q', s = s1 ++ s2 ∧ q = utf8 s1 ++ q' ∧ decode q' = Incomplete ∧ utf8 s2 = q' ++ r.
Proof.
  intros Hs. revert q. induction Hs as [|c s Hc Hs IH]; intros q Hq.
  { symmetry in Hq. apply app_eq_nil in Hq as [-> ->]. by exists [], [], []. }
  change (utf8 (c :: s)) with (encode c ++ utf8 s) in Hq.
  destruct (decide (length q < length (encode c))) as [Hl|Hl].
  - exists [], (c :: s), q. split; [done|]. split; [done|]. split; [|done].
    apply app_eq_inv in Hq as [(k & H1 & H2)|(k & H1 & H2)].
    + apply (decode_cut c q k); [done..|]. intros ->. rewrite app_nil_r in H1. rewrite H1 in Hl. lia.
    + apply (f_equal length) in H1. rewrite length_app in H1. lia.
  - assert (∃ q2, q = encode c ++ q2 ∧ utf8 s = q2 ++ r) as (q2 & -> & H2).
    { apply app_eq_inv in Hq as [(k & H1 & H2)|(k & H1 & H2)]; [|by exists k].
      apply (f_equal length) in H1 as Hlk. rewrite length_app in Hlk.
      assert (k = []) as -> by (apply nil_length_inv; lia). rewrite app_nil_r in H1. subst q.
      exists []. rewrite app_nil_r. by rewrite app_nil_l in H2. }
    destruct (IH q2 H2) as (s1 & s2 & q' & -> & -> & Hd & He).
    exists (c :: s1), s2, q'. split; [done|]. split; [|done]. unfold utf8. simpl. by rewrite <- (assoc_L (++)).
Qed.

Section Utf8.
Context {P E : Type} `{StreamTextParser P E}.

(** The text decided by a chunk goes to the inner parser, if there is any new text. *)
Lemma push_bytes_cut chunk (p : Utf8StreamParser P) s q :
  scalars s → decode q = Incomplete → pending_utf8 p ++ chunk = utf8 s ++ q →
  ∃ pieces, concat pieces = s ∧
    push_bytes chunk p = (mkUtf8 (push_all pieces (inner p)).1 q, Ok (push_all pieces (inner p)).2).
Proof.
  intros Hs Hq Hp. unfold push_bytes. rewrite Hp, from_utf8_cut by done.
  destruct q as [|b q]; cbn [is_empty].
  - exists [s]. simpl. rewrite app_nil_r. destruct (push_str s (inner p)) as [i out]. simpl.
    unfold chunk_app. simpl. rewrite !app_nil_r. by destruct out.
  - cbn [error_len valid_up_to]. destruct (Nat.eqb_spec (str_len s) 0) as [Hz|Hz].
    { apply str_len_nil_iff in Hz as ->. by exists []. }
    exists [s]. rewrite <- length_utf8, take_app_length, drop_app_length.
    assert (from_utf8 (utf8 s) = Ok s) as ->.
    { rewrite <- (app_nil_r (utf8 s)). by rewrite from_utf8_cut. }
    simpl. rewrite app_nil_r. destruct (push_str s (inner p)) as [i out]. simpl.
    unfold chunk_app. simpl. rewrite !app_nil_r. by destruct out.
Qed.

Lemma push_all_app c1 c2 (p : P) :
  push_all (c1 ++ c2) p =
    ((push_all c2 (push_all c1 p).1).1, chunk_app (push_all c1 p).2 (push_all c2 (push_all c1 p).1).2).
Proof.
  revert p. induction c1 as [|c c1 IH]; intros p; simpl.
  - destruct (push_all c2 p) as [p2 out]. unfold chunk_app. by destruct out.
  - destruct (push_str c p) as [p1 out]. rewrite IH. destruct (push_all c1 p1) as [p2 out2]. simpl.
    unfold chunk_app. simpl. by rewrite !(assoc_L (++)).
Qed.

Lemma push_all_bytes_text chunks i q s :
  scalars s → decode q = Incomplete → q ++ concat chunks = utf8 s →
  ∃ pieces, concat pieces = s ∧
    push_all_bytes chunks (mkUtf8 i q) = (mkUtf8 (push_all pieces i).1 [], Ok (push_all pieces i).2).
Proof.
  revert i q s. induction chunks as [|c chunks IH]; intros i q s Hs Hq Hcat; cbn [concat push_all_bytes] in *.
  - destruct s as [|c s].
    { exists []. rewrite app_nil_r in Hcat. by rewrite Hcat. }
    exfalso. apply Forall_cons in Hs as [Hc Hs]. rewrite app_nil_r in Hcat. rewrite Hcat in Hq.
    change (utf8 (c :: s)) with (encode c ++ utf8 s) in Hq. by rewrite decode_encode in Hq.
  - rewrite (assoc_L (++)) in Hcat. symmetry in Hcat.
    destruct (utf8_prefix _ _ _ Hs Hcat) as (s1 & s2 & q' & -> & Hp & Hq' & H2).
    apply Forall_app in Hs as [Hs1 Hs2].
    destruct (push_bytes_cut c (mkUtf8 i q) s1 q' Hs1 Hq' Hp) as (p1 & <- & ->). cbn [inner].
    destruct (IH (push_all p1 i).1 q' s2 Hs2 Hq' (eq_sym H2)) as (p2 & <- & ->).
    exists (p1 ++ p2). split; [apply concat_app|]. by rewrite push_all_app.
Qed.

Lemma run_bytes_text chunks i s :
  scalars s → concat chunks = utf8 s →
  ∃ pieces, concat pieces = s ∧ run_bytes chunks (new_utf8 i) = Ok (run_stream pieces i).
Proof.
  intros Hs Hc. destruct (push_all_bytes_text chunks i [] s Hs eq_refl Hc) as (pieces & <- & Hr).
  exists pieces. split; [done|]. unfold run_bytes, run_stream, new_utf8. rewrite Hr.
  destruct (push_all pieces i) as [j out]. unfold finish_utf8. simpl.
  destruct (finish j) as [j2 fin]. simpl. by destruct fin.
Qed.

(** [push_bytes] reports an error exactly when no further bytes could make the
    bytes received valid UTF-8, and then leaves the parser as it was, so that the chunk
    can be replaced. *)
Theorem push_bytes_rolls_back chunk (p : Utf8StreamParser P) :
  (is_ok (push_bytes chunk p).2 = false ↔
    ¬ ∃ s more, scalars s ∧ pending_utf8 p ++ chunk ++ more = utf8 s) ∧
  (is_ok (push_bytes chunk p).2 = false → (push_bytes chunk p).1 = p).
Proof.
  destruct (buffer_cases (pending_utf8 p ++ chunk)) as (s & q & Hb & Hs & [Hq|[[n Hq] (v & m & Hv)]]).
  - destruct (push_bytes_cut chunk p s q Hs Hq Hb) as (pieces & _ & ->). simpl. split; [|done].
    split; [done|]. intros Hn. destruct Hn. destruct (decode_complete q Hq) as (more & c & Hd).
    apply decode_sound in Hd as [Hd Hc]. exists (s ++ [c]), more.
    split; [apply Forall_app; split; [done|by constructor]|].
    rewrite (assoc_L (++)), Hb, <- (assoc_L (++)), Hd, utf8_app. unfold utf8. simpl. by rewrite !app_nil_r.
  - assert (Hr : push_bytes chunk p = (p, Err (InvalidUtf8 v m))).
    { unfold push_bytes. rewrite Hv. cbn [error_len valid_up_to]. rewrite take_app_length. by destruct p. }
    rewrite Hr. simpl. split; [|done]. split; [|done]. intros _ (s' & more & Hs' & Heq).
    rewrite (assoc_L (++)) in Heq. symmetry in Heq.
    destruct (utf8_prefix _ _ _ Hs' Heq) as (s1 & s2 & q' & -> & Hp & Hq' & _).
    apply Forall_app in Hs' as [Hs1 _].
    rewrite Hp, from_utf8_cut in Hv by done. by destruct q'.
Qed.
End Utf8.

(** bytes that encode a text give what the text gives, however the bytes are cut
    into chunks, also inside code points: the inner parser receives the text in some
    pieces, and for citations, whose parse does not depend on the pieces, the result is
    [strip_citations] of the text. *)
Theorem utf8_stream_decodes s chunks :
  Forall (λ c, is_scalar c = true) s → concat chunks = utf8 s →
  (∀ P E (SP : StreamTextParser P E) (i : P), ∃ pieces,
    concat pieces = s ∧ run_bytes chunks (new_utf8 i) = Ok (run_stream pieces i))
  ∧ run_bytes chunks (new_utf8 new_citation) =
      Ok (mkTextChunk (strip_citations s).1 (strip_citations s).2).
Proof.
  intros Hs Hc. split; [intros; by apply run_bytes_text|].
  destruct (run_bytes_text chunks new_citation s Hs Hc) as (pieces & <- & ->).
  by rewrite citation_run_stream.
Qed.

Lemma utf8_stream_decodes_witness :
  run_bytes [[65; 195]; [169; 60]; [226; 130]; [172]]%N (new_utf8 new_citation) =
    Ok (mkTextChunk (strip_citations [65; 233; 60; 8364]%N).1 (strip_citations [65; 233; 60; 8364]%N).2).
Proof.
  apply (utf8_stream_decodes [65; 233; 60; 8364]%N [[65; 195]; [169; 60]; [226; 130]; [172]]%N).
  - repeat constructor.
  - reflexivity.
Defined.
