(* ===== verification/TurnDiff.v ===== *)
(** [core/src/turn_diff_tracker.rs]: the net diff of a turn, computed from the deltas
    that [apply_patch] reports; and the way the deltas reach it: the attempts of
    [tools/runtimes/apply_patch.rs] and the events of [tools/events.rs].

    The diff library, SHA-1 and relative paths are an interface. The iteration order
    of the hash maps is one too. *)
From stdpp Require Import base list sets numbers strings gmap.
From S2P Require Import Prelude RustStr PatchParser SeekSequence FileUpdate ApplyPatch Utf8Stream.

(** * Data *)

Definition ZERO_OID : str := lit "0000000000000000000000000000000000000000".
Definition DEV_NULL : str := lit "/dev/null".
Definition REGULAR_FILE_MODE : str := lit "100644".

Record TrackedContent : Type := mkTracked {
  content : str;
  revision : N;
}.

Record TrackedPath (P : Type) : Type := mkTrackedPath {
  environment_id : str;
  path_in_env : P;
}.
Arguments mkTrackedPath {P} environment_id path_in_env.
Arguments environment_id {P} _.
Arguments path_in_env {P} _.

#[export] Instance TrackedPath_eq_dec {P} `{EqDecision P} : EqDecision (TrackedPath P).
Proof. solve_decision. Defined.

#[export] Program Instance TrackedPath_countable {P} `{Countable P} : Countable (TrackedPath P) :=
  inj_countable' (λ p, (environment_id p, path_in_env p)) (λ x, mkTrackedPath x.1 x.2) _.
Next Obligation. by intros P ? ? []. Qed.

Record DiffCacheKey (P : Type) : Type := mkKey {
  left_path : TrackedPath P;
  left_revision : option N;
  right_path : TrackedPath P;
  right_revision : option N;
}.
Arguments mkKey {P} left_path left_revision right_path right_revision.
Arguments left_path {P} _.
Arguments left_revision {P} _.
Arguments right_path {P} _.
Arguments right_revision {P} _.

#[export] Instance DiffCacheKey_eq_dec {P} `{EqDecision P} : EqDecision (DiffCacheKey P).
Proof. solve_decision. Defined.

#[export] Program Instance DiffCacheKey_countable {P} `{Countable P} : Countable (DiffCacheKey P) :=
  inj_countable' (λ k, (left_path k, left_revision k, right_path k, right_revision k))
    (λ x, mkKey x.1.1.1 x.1.1.2 x.1.2 x.2) _.
Next Obligation. by intros P ? ? []. Qed.

(** [next_revision] is a [u64] that counts the contents recorded in a turn; it is
    kept unbounded, as it cannot reach [2 ^ 64]. *)
Record TurnDiffTracker (P : Type) `{Countable P} : Type := mkTracker {
  valid : bool;
  display_roots_by_environment : gmap str P;
  baseline_by_path : gmap (TrackedPath P) TrackedContent;
  current_by_path : gmap (TrackedPath P) TrackedContent;
  origin_by_current_path : gmap (TrackedPath P) (TrackedPath P);
  next_revision : N;
  rendered_diffs : gmap (DiffCacheKey P) (option str);
  unified_diff : option str;
}.
Arguments mkTracker {P _ _} valid display_roots_by_environment baseline_by_path current_by_path
  origin_by_current_path next_revision rendered_diffs unified_diff.
Arguments valid {P _ _} _.
Arguments display_roots_by_environment {P _ _} _.
Arguments baseline_by_path {P _ _} _.
Arguments current_by_path {P _ _} _.
Arguments origin_by_current_path {P _ _} _.
Arguments next_revision {P _ _} _.
Arguments rendered_diffs {P _ _} _.
Arguments unified_diff {P _ _} _.

(** * What the tracker calls

    [relative_path_from] of [PathUri]; the text that [similar] prints for a pair of
    contents with the two headers, which depends on the clock through the timeout
    (an instant [T] stands for what the clock does); SHA-1 in hexadecimal; and the
    orders in which the hash maps are enumerated. *)
Class TurnDiffEnv (P T : Type) `{Countable P} := {
  relative_path_from : P → P → option str;
  unified_text_diff : T → str → str → str → str → str;
  sha1_hex : list byte → str;
  keys_of : gmap (TrackedPath P) TrackedContent → list (TrackedPath P);
  origins_of : gmap (TrackedPath P) (TrackedPath P) → list (TrackedPath P * TrackedPath P);
}.

Section Tracker.
Context {P T : Type} `{Countable P} `{PU : PathUri P} {TE : TurnDiffEnv P T}.
Abbreviation Tracker := (TurnDiffTracker P).
Abbreviation TPath := (TrackedPath P).
Implicit Types (t : Tracker) (p : TPath).

(** * Construction *)

Definition default_tracker : Tracker := mkTracker true ∅ ∅ ∅ ∅ 0 ∅ None.

(** [display_roots.into_iter().collect()]: a later root of an environment wins. *)
Definition with_environment_display_roots (roots : list (str * P)) : Tracker :=
  mkTracker true (foldl (λ m r, <[r.1 := r.2]> m) ∅ roots) ∅ ∅ ∅ 0 ∅ None.

(** Assignments to the fields. *)
Definition set_baseline m t : Tracker :=
  mkTracker (valid t) (display_roots_by_environment t) m (current_by_path t)
    (origin_by_current_path t) (next_revision t) (rendered_diffs t) (unified_diff t).
Definition set_current m t : Tracker :=
  mkTracker (valid t) (display_roots_by_environment t) (baseline_by_path t) m
    (origin_by_current_path t) (next_revision t) (rendered_diffs t) (unified_diff t).
Definition set_origin m t : Tracker :=
  mkTracker (valid t) (display_roots_by_environment t) (baseline_by_path t) (current_by_path t)
    m (next_revision t) (rendered_diffs t) (unified_diff t).

Definition invalidate t : Tracker :=
  mkTracker false (display_roots_by_environment t) (baseline_by_path t) (current_by_path t)
    (origin_by_current_path t) (next_revision t) ∅ None.

Definition get_unified_diff t : option str := unified_diff t.
Definition has_unified_diff t : bool := bool_decide (is_Some (unified_diff t)).

(** * Recording changes *)

Definition tracked_content (s : str) t : TrackedContent * Tracker :=
  (mkTracked s (next_revision t),
   mkTracker (valid t) (display_roots_by_environment t) (baseline_by_path t) (current_by_path t)
     (origin_by_current_path t) (next_revision t + 1) (rendered_diffs t) (unified_diff t)).

(** [self.m.insert(path, self.tracked_content(s))]. *)
Definition insert_baseline p (s : str) t : Tracker :=
  let (c, t) := tracked_content s t in set_baseline (<[p := c]> (baseline_by_path t)) t.
Definition insert_current p (s : str) t : Tracker :=
  let (c, t) := tracked_content s t in set_current (<[p := c]> (current_by_path t)) t.

(** [!current.contains_key(p) && !baseline.contains_key(p)]. *)
Definition untracked p t : bool :=
  bool_decide (current_by_path t !! p = None) && bool_decide (baseline_by_path t !! p = None).

Definition tracker_apply_add p (s : str) (overwritten_content : option str) t : Tracker :=
  let t := set_origin (delete p (origin_by_current_path t)) t in
  let t :=
    match overwritten_content with
    | Some o => if untracked p t then insert_baseline p o t else t
    | None => t
    end in
  insert_current p s t.

Definition tracker_apply_delete p (s : str) t : Tracker :=
  let removed := current_by_path t !! p in
  let t := set_current (delete p (current_by_path t)) t in
  let t :=
    if bool_decide (removed = None) && bool_decide (baseline_by_path t !! p = None)
    then insert_baseline p s t else t in
  set_origin (delete p (origin_by_current_path t)) t.

Definition tracker_apply_update source_path (move_path : option TPath) (old_content : str)
    (overwritten_move_content : option str) (new_content : str) t : Tracker :=
  let t := if untracked source_path t then insert_baseline source_path old_content t else t in
  match move_path with
  | Some dest_path =>
      let t :=
        match overwritten_move_content with
        | Some o => if untracked dest_path t then insert_baseline dest_path o t else t
        | None => t
        end in
      let origin := default source_path (origin_by_current_path t !! source_path) in
      let t := set_origin (delete source_path (origin_by_current_path t)) t in
      let t := set_current (delete source_path (current_by_path t)) t in
      let t := insert_current dest_path new_content t in
      let t := set_origin (delete dest_path (origin_by_current_path t)) t in
      if decide (dest_path = origin) then t
      else set_origin (<[dest_path := origin]> (origin_by_current_path t)) t
  | None => insert_current source_path new_content t
  end.

Definition apply_change (env : str) (c : AppliedPatchChange P) t : Tracker :=
  let source_path := mkTrackedPath env (change_path c) in
  match change c with
  | ChangeAdd s overwritten => tracker_apply_add source_path s overwritten t
  | ChangeDelete s => tracker_apply_delete source_path s t
  | ChangeUpdate move_path old overwritten new =>
      tracker_apply_update source_path (mkTrackedPath env <$> move_path) old overwritten new t
  end.

(** * Rendering *)

(** [display_path]. *)
Definition display_path t p : str :=
  let display :=
    default (native_path_string (path_in_env p))
      (root ← display_roots_by_environment t !! environment_id p;
       relative_path_from (path_in_env p) root) in
  if (1 <? size (display_roots_by_environment t)) && negb (is_empty (environment_id p))
  then environment_id p ++ lit "/" ++ display else display.

(** [git_blob_oid]: the hash of a header with the length in bytes, and the bytes. *)
Definition git_blob_oid (data : list byte) : str :=
  sha1_hex (utf8 (lit "blob " ++ display_nat (length data) ++ [0%N]) ++ data).

(** [replace('\\', "/")]. *)
Definition forward_slashes (s : str) : str := (λ c, if (c =? 92)%N then 47%N else c) <$> s.

Definition content_oid (o : option str) : str :=
  match o with
  | Some s => git_blob_oid (utf8 s)
  | None => ZERO_OID
  end.

Definition render_diff t (now : T) left_path (left_content : option str) right_path
    (right_content : option str) : option str :=
  if bool_decide (left_content = right_content) then None
  else
    let left_display := forward_slashes (display_path t left_path) in
    let right_display := forward_slashes (display_path t right_path) in
    let head := lit "diff --git a/" ++ left_display ++ lit " b/" ++ right_display ++ [LF] in
    mode ← match left_content, right_content with
           | None, Some _ => Some (lit "new file mode " ++ REGULAR_FILE_MODE ++ [LF])
           | Some _, None => Some (lit "deleted file mode " ++ REGULAR_FILE_MODE ++ [LF])
           | Some _, Some _ => Some []
           | None, None => None
           end;
    let index :=
      lit "index " ++ content_oid left_content ++ lit ".." ++ content_oid right_content ++ [LF] in
    let old_header := if bool_decide (is_Some left_content) then lit "a/" ++ left_display else DEV_NULL in
    let new_header := if bool_decide (is_Some right_content) then lit "b/" ++ right_display else DEV_NULL in
    let unified :=
      unified_text_diff now old_header new_header (default [] left_content)
        (default [] right_content) in
    Some (head ++ mode ++ index ++ unified).

(** The pairs that pass the filter, in the order of the hash map; collecting them
    keeps the last destination of an origin. *)
Definition is_rename t (d o : TPath) : bool :=
  negb (bool_decide (d = o)
        || bool_decide (is_Some (current_by_path t !! o))
        || bool_decide (current_by_path t !! d = None)
        || bool_decide (baseline_by_path t !! o = None)
        || bool_decide (is_Some (baseline_by_path t !! d))).

Definition rename_pairs t : gmap TPath TPath :=
  foldl (λ m x, if is_rename t x.1 x.2 then <[x.2 := x.1]> m else m) ∅
    (origins_of (origin_by_current_path t)).

(** The variables of the loop of [refresh_unified_diff]. *)
Record Refresh : Type := mkRefresh {
  handled : gset TPath;
  previous : gmap (DiffCacheKey P) (option str);
  rendered : gmap (DiffCacheKey P) (option str);
  aggregated : str;
}.

Definition push_diff (s : str) (diff : option str) : str :=
  match diff with
  | Some d =>
      let s := s ++ d in
      if ends_with s [LF] then s else s ++ [LF]
  | None => s
  end.

(** The body of the loop once the two sides are chosen. *)
Definition refresh_pair t (now : T) left right (r : Refresh) : Refresh :=
  let left_content := baseline_by_path t !! left in
  let right_content := current_by_path t !! right in
  let key := mkKey left (revision <$> left_content) right (revision <$> right_content) in
  let diff :=
    match previous r !! key with
    | Some cached => cached
    | None => render_diff t now left (content <$> left_content) right (content <$> right_content)
    end in
  mkRefresh (handled r) (delete key (previous r)) (<[key := diff]> (rendered r))
    (push_diff (aggregated r) diff).

Definition refresh_path t (now : T) (pairs : gmap TPath TPath) (destinations : gset TPath)
    (r : Refresh) p : Refresh :=
  if decide (p ∈ handled r) then r
  else
    let r := mkRefresh ({[p]} ∪ handled r) (previous r) (rendered r) (aggregated r) in
    if decide (p ∈ destinations) then r
    else
      match pairs !! p with
      | Some dest =>
          refresh_pair t now p dest
            (mkRefresh ({[dest]} ∪ handled r) (previous r) (rendered r) (aggregated r))
      | None => refresh_pair t now p p r
      end.

Definition sorted_paths t : list TPath :=
  dedup (sort_by_key (display_path t)
    (keys_of (baseline_by_path t) ++ keys_of (current_by_path t))).

Definition refresh_unified_diff (now : T) t : Tracker :=
  let pairs := rename_pairs t in
  let destinations := list_to_set (map_to_list pairs).*2 in
  let r := foldl (refresh_path t now pairs destinations)
    (mkRefresh ∅ (rendered_diffs t) ∅ []) (sorted_paths t) in
  mkTracker (valid t) (display_roots_by_environment t) (baseline_by_path t) (current_by_path t)
    (origin_by_current_path t) (next_revision t) (rendered r)
    (if is_empty (aggregated r) then None else Some (aggregated r)).

Definition track_delta (now : T) (env : str) (d : AppliedPatchDelta P) t : Tracker :=
  if negb (valid t) then t
  else if negb (delta_exact d) then invalidate t
  else refresh_unified_diff now (foldl (λ t c, apply_change env c t) t (delta_changes d)).

(** * The events: [tools/events.rs] *)

Inductive TurnDiffTrackerUpdate : Type :=
| Track (environment : option str) (d : AppliedPatchDelta P)
| Invalidate
| NoUpdate.

Definition tracker_update_for_known_delta (env : option str) (d : AppliedPatchDelta P)
    : TurnDiffTrackerUpdate :=
  if delta_exact d && is_empty (delta_changes d) then NoUpdate else Track env d.

(** How the orchestrator ended: [Ok(output)], a sandbox timeout, a sandbox denial, any
    other error of Codex, or a rejection. *)
Inductive ToolResult : Type :=
| ToolOk
| ToolTimeout
| ToolDenied
| ToolCodexError
| ToolRejected.

(** [ToolEmitter::finish] chooses the stage and [ToolEmitter::emit] the update, for a
    patch tool. *)
Definition patch_tracker_update (env : option str) (out : ToolResult)
    (applied_patch_delta : option (AppliedPatchDelta P)) : TurnDiffTrackerUpdate :=
  match out with
  | ToolOk =>
      match applied_patch_delta with
      | Some d => tracker_update_for_known_delta env d
      | None => Invalidate
      end
  | ToolTimeout => Invalidate
  | ToolDenied =>
      match applied_patch_delta with
      | Some d => tracker_update_for_known_delta env d
      | None => Invalidate
      end
  | ToolCodexError => NoUpdate
  | ToolRejected =>
      match applied_patch_delta with
      | Some d => tracker_update_for_known_delta env d
      | None => NoUpdate
      end
  end.

(** The tracker part of [emit_patch_end]: the new tracker, and the text of the
    [TurnDiff] event if one is sent. *)
Definition emit_patch_end (now : T) (u : TurnDiffTrackerUpdate) t : Tracker * option str :=
  let had_unified_diff := has_unified_diff t in
  let '(t, tracker_changed) :=
    match u with
    | Track env d => (track_delta now (default [] env) d t, true)
    | Invalidate => (invalidate t, true)
    | NoUpdate => (t, false)
    end in
  let diff := get_unified_diff t in
  (t, if tracker_changed && (had_unified_diff || bool_decide (is_Some diff))
      then Some (default [] diff) else None).
End Tracker.

(** * The attempts: [tools/runtimes/apply_patch.rs]

    Each attempt runs in a sandbox of its own, which is part of the world; the
    delta of every attempt, failed ones included, is appended to the committed one. *)
Section Attempts.
Context {W P S : Type} `{FS : ExecutorFileSystem W P} `{PU : PathUri P} `{CO : Console W}.
Context (enter_sandbox : S → W → W).

(** [None] is a panic. *)
Definition run_attempt (patch : str) (cwd : P) (sandbox : S) (opts : ApplyPatchOptions) (w : W)
    (committed_delta : AppliedPatchDelta P) : option (W * AppliedPatchDelta P) :=
  match apply_patch_with_options patch opts cwd (enter_sandbox sandbox w) with
  | (w, Applied d) | (w, Failed _ d) => Some (w, delta_append committed_delta d)
  | (_, Panicked) => None
  end.

Fixpoint run_attempts (patch : str) (cwd : P) (attempts : list (S * ApplyPatchOptions)) (w : W)
    (committed_delta : AppliedPatchDelta P) : option (W * AppliedPatchDelta P) :=
  match attempts with
  | [] => Some (w, committed_delta)
  | a :: attempts =>
      x ← run_attempt patch cwd a.1 a.2 w committed_delta;
      run_attempts patch cwd attempts x.1 x.2
  end.
End Attempts.
