(* ===== verification/TurnDiffFacts.v ===== *)
(** The turn diff is the net diff: of the files before the turn and the files after
    it, whatever patches were applied in between, with every cached rendering still
    right. *)
From stdpp Require Import base list sets numbers strings gmap sorting.
From S2P Require Import Prelude RustStr PatchParser SeekSequence FileUpdate ApplyPatch ApplyPatchFacts Utf8Stream TurnDiff.

Section Dedup.
Context {A : Type}.

Lemma dedup_StronglySorted `{EqDecision A} (R : relation A) l :
  StronglySorted R l → StronglySorted R (dedup l).
Proof.
  induction 1 as [|a l Hl IH Ha]; [constructor|]. destruct l as [|b l]; [by repeat constructor|].
  rewrite dedup_cons_cons. case_decide; [done|]. constructor; [done|].
  rewrite Forall_forall in *. intros x Hx. apply Ha. by apply elem_of_dedup.
Qed.
End Dedup.

(** * Net contents

    [B] and [C] are the texts the tracker has as baseline and as current contents;
    [f0] are the files before the turn, [f] the files now. *)
Section Net.
Context {K : Type} `{EqDecision K}.
Implicit Types B C f : K → option str.

Definition net B C f0 f : Prop := ∀ q,
  match B q, C q with
  | Some b, c => f0 q = Some b ∧ f q = c
  | None, Some c => f0 q = None ∧ f q = Some c
  | None, None => f q = f0 q
  end.

(** What is recorded as baseline when [p] is about to be changed. *)
Definition noted (p : K) B C f : K → option str := λ q,
  if decide (q = p) then
    match B p, C p with
    | None, None => f p
    | b, _ => b
    end
  else B q.

Lemma net_ext B B' C C' f0 f f' :
  net B C f0 f → (∀ q, B' q = B q) → (∀ q, C' q = C q) → (∀ q, f' q = f q) → net B' C' f0 f'.
Proof. intros H HB HC Hf q. rewrite HB, HC, Hf. apply H. Qed.

(** One file changes. *)
Lemma net_upd p v B C f0 f : net B C f0 f → net (noted p B C f) (upd p v C) f0 (upd p v f).
Proof.
  intros H q. specialize (H q). unfold noted, upd. case_decide as E; [|done]. subst.
  destruct (B p), (C p), (f p), v; naive_solver.
Qed.

Lemma net_tracked B C f0 f q : net B C f0 f → is_Some (B q) ∨ is_Some (C q) → f0 q = B q ∧ f q = C q.
Proof. intros H. specialize (H q). intros [[x Hx]|[x Hx]]; destruct (B q), (C q); naive_solver. Qed.

Lemma net_changed B C f0 f q : net B C f0 f → f q ≠ f0 q → is_Some (B q) ∨ is_Some (C q).
Proof. intros H. specialize (H q). destruct (B q), (C q); naive_solver. Qed.
End Net.

Section Tracker.
Context {P T : Type} `{Countable P} `{PU : PathUri P} {TE : TurnDiffEnv P T}.
Abbreviation Tracker := (TurnDiffTracker P).
Abbreviation TPath := (TrackedPath P).
Implicit Types (t : Tracker) (p q : TPath) (f : TPath → option str).

(** * The maps after a change *)
Definition base t q : option str := content <$> baseline_by_path t !! q.
Definition cur t q : option str := content <$> current_by_path t !! q.

Lemma base_insert_baseline p s t q : base (insert_baseline p s t) q = upd p (Some s) (base t) q.
Proof.
  unfold base, upd. simpl. case_decide; [subst; by rewrite lookup_insert_eq|].
  by rewrite lookup_insert_ne.
Qed.

Lemma cur_insert_current p s t q : cur (insert_current p s t) q = upd p (Some s) (cur t) q.
Proof.
  unfold cur, upd. simpl. case_decide; [subst; by rewrite lookup_insert_eq|].
  by rewrite lookup_insert_ne.
Qed.

Lemma cur_delete p t q :
  cur (set_current (delete p (current_by_path t)) t) q = upd p None (cur t) q.
Proof.
  unfold cur, upd. simpl. case_decide; [subst; by rewrite lookup_delete_eq|].
  by rewrite lookup_delete_ne.
Qed.

Lemma untracked_spec p t :
  untracked p t = match base t p, cur t p with None, None => true | _, _ => false end.
Proof.
  unfold untracked, base, cur.
  destruct (baseline_by_path t !! p), (current_by_path t !! p); simpl; by rewrite ?andb_true_r.
Qed.

(** Recording what [p] had, when it had something. *)
Definition note p (o : option str) t : Tracker :=
  match o with
  | Some o => if untracked p t then insert_baseline p o t else t
  | None => t
  end.

Lemma base_note p t f q : base (note p (f p) t) q = noted p (base t) (cur t) f q.
Proof.
  unfold note, noted. destruct (f p) as [o|] eqn:Hf.
  - rewrite untracked_spec. destruct (base t p) eqn:Hb; [by case_decide; subst|].
    destruct (cur t p); [by case_decide; subst|]. by rewrite base_insert_baseline.
  - case_decide as E; [|done]. subst. destruct (base t p), (cur t p); done.
Qed.

Lemma cur_note p o t q : cur (note p o t) q = cur t q.
Proof. unfold note. destruct o; [by destruct (untracked p t)|done]. Qed.

Lemma tracker_apply_delete_eq p s t :
  tracker_apply_delete p s t =
    let t1 := note p (Some s) t in
    let t2 := set_current (delete p (current_by_path t1)) t1 in
    set_origin (delete p (origin_by_current_path t2)) t2.
Proof.
  unfold tracker_apply_delete, note, untracked. simpl.
  destruct (bool_decide _ && bool_decide _); by destruct t.
Qed.

Lemma base_move p d old o new t q :
  base (tracker_apply_update p (Some d) old o new t) q = base (note d o (note p (Some old) t)) q.
Proof. unfold tracker_apply_update. by case_decide. Qed.

Lemma cur_move p d old o new t q :
  cur (tracker_apply_update p (Some d) old o new t) q = upd d (Some new) (upd p None (cur t)) q.
Proof.
  transitivity (cur (insert_current d new (let t' := note d o (note p (Some old) t) in
    set_current (delete p (current_by_path t')) (set_origin (delete p (origin_by_current_path t')) t'))) q);
    [unfold tracker_apply_update; by case_decide|].
  rewrite cur_insert_current. apply upd_ext. intros q'. cbv zeta.
  etransitivity; [apply (cur_delete p (note d o (note p (Some old) t)))|].
  apply upd_ext. intros q''. by rewrite !cur_note.
Qed.

(** ** One change, seen on the files of its environment *)
Definition in_env (env : str) f : P → option str := λ x, f (mkTrackedPath env x).

Definition with_env (env : str) (g : P → option str) f : TPath → option str := λ q,
  if decide (environment_id q = env) then g (path_in_env q) else f q.

Lemma with_env_upd env x v f q :
  with_env env (upd x v (in_env env f)) f q = upd (mkTrackedPath env x) v f q.
Proof.
  unfold with_env, in_env, upd. destruct q as [e y]. simpl. repeat case_decide; naive_solver.
Qed.

Definition no_self_move (c : AppliedPatchChange P) : Prop :=
  match change c with
  | ChangeUpdate (Some dest) _ _ _ => dest ≠ change_path c
  | _ => True
  end.

#[local] Arguments tracker_apply_add : simpl never.
#[local] Arguments tracker_apply_delete : simpl never.
#[local] Arguments tracker_apply_update : simpl never.

Lemma apply_change_net env (c : AppliedPatchChange P) t f0 f :
  net (base t) (cur t) f0 f → no_self_move c →
  (∀ x, undo c (redo c (in_env env f)) x = in_env env f x) →
  net (base (apply_change env c t)) (cur (apply_change env c t)) f0
    (with_env env (redo c (in_env env f)) f).
Proof.
  intros Hn Hm Hu. unfold apply_change, no_self_move in *.
  set (p := mkTrackedPath env (change_path c)).
  pose proof (Hu (change_path c)) as Hp. unfold undo, redo in *.
  destruct (change c) as [s o|s|[d|] old o new]; simpl in *.
  - rewrite upd_same in Hp. unfold in_env in Hp. fold p in Hp. subst o.
    eapply (net_ext _ _ _ _ _ (upd p (Some s) f)).
    + eapply (net_upd p (Some s)); exact Hn.
    + intros q. apply (base_note p (set_origin _ t) f).
    + intros q. unfold tracker_apply_add. rewrite cur_insert_current. unfold upd. case_decide; [done|].
      apply (cur_note p (f p) (set_origin _ t)).
    + intros q. apply with_env_upd.
  - rewrite upd_same in Hp. unfold in_env in Hp. fold p in Hp. rewrite tracker_apply_delete_eq, Hp.
    eapply (net_ext _ _ _ _ _ (upd p None f)).
    + eapply (net_upd p None); exact Hn.
    + intros q. apply (base_note p t f).
    + intros q. rewrite <- (cur_delete p t). simpl. unfold cur. simpl.
      by destruct (f p) as [o|]; simpl; [destruct (untracked p t)|].
    + intros q. apply with_env_upd.
  - pose proof (Hu d) as Hd. unfold upd at 1 in Hd. rewrite decide_False in Hd by done.
    rewrite upd_same in Hp, Hd. unfold in_env in Hp, Hd. fold p in Hp. set (e := mkTrackedPath env d) in *.
    assert (e ≠ p) by (unfold e, p; congruence). subst o.
    change (mkTrackedPath env <$> Some d) with (Some e).
    eapply (net_ext _ _ _ _ _ (upd e (Some new) (upd p None f))).
    + eapply (net_upd e (Some new)), (net_upd p None); exact Hn.
    + intros q. rewrite base_move, base_note. unfold noted, upd. rewrite Hp, !(base_note p t f), !cur_note.
      unfold noted. repeat case_decide; congruence.
    + intros q. apply cur_move.
    + intros q. transitivity (with_env env (upd (change_path c) None (in_env env (upd e (Some new) f)))
        (upd e (Some new) f) q).
      * unfold with_env, in_env, upd, e. destruct q. simpl. repeat case_decide; naive_solver.
      * rewrite with_env_upd. fold p. unfold upd. repeat case_decide; congruence.
  - rewrite upd_same in Hp. unfold in_env in Hp. fold p in Hp.
    eapply (net_ext _ _ _ _ _ (upd p (Some new) f)).
    + eapply (net_upd p (Some new)); exact Hn.
    + intros q. rewrite <- (base_note p t f), <- Hp. done.
    + intros q. etransitivity; [apply (cur_insert_current p new (note p (Some old) t))|].
      apply upd_ext. intros q'. apply cur_note.
    + intros q. apply with_env_upd.
Qed.

Lemma apply_changes_net env cs t f0 f :
  net (base t) (cur t) f0 f → Forall no_self_move cs → coherent cs (in_env env f) →
  let t' := foldl (λ t c, apply_change env c t) t cs in
  net (base t') (cur t') f0 (with_env env (redo_all cs (in_env env f)) f).
Proof.
  revert t f. induction cs as [|c cs IH]; intros t f Hn Hm Hc; simpl.
  - eapply net_ext; [exact Hn|done..|]. intros [e x]. unfold with_env, in_env. simpl.
    by case_decide; subst.
  - inversion_clear Hm. destruct Hc as [Hu Hc].
    set (f' := with_env env (redo c (in_env env f)) f).
    assert (Hf : ∀ x, redo c (in_env env f) x = in_env env f' x)
      by (intros x; unfold f', with_env, in_env; simpl; by rewrite decide_True).
    eapply net_ext; [apply (IH (apply_change env c t) f')|done..|].
    + by apply apply_change_net.
    + done.
    + by eapply coherent_ext.
    + intros q. unfold with_env at 1 2. case_decide as E; [by apply redo_all_ext|].
      unfold f', with_env. by rewrite decide_False.
Qed.

(** * Revisions and the cache

    A revision names one text: [hist] says which. Every cached rendering is one of the
    texts its revisions name, printed at some instant. *)
Definition known (hist : N → str) (n : N) (c : TrackedContent) : Prop :=
  (revision c < n)%N ∧ hist (revision c) = content c.

Definition renders t p (l : option str) q (r : option str) (out : option str) : Prop :=
  ∃ now : T, render_diff t now p l q r = out.

Record CacheOk (hist : N → str) t : Prop := {
  baseline_known q c : baseline_by_path t !! q = Some c → known hist (next_revision t) c;
  current_known q c : current_by_path t !! q = Some c → known hist (next_revision t) c;
  cached_known k out : rendered_diffs t !! k = Some out →
    (∀ n, left_revision k = Some n ∨ right_revision k = Some n → (n < next_revision t)%N) ∧
    renders t (left_path k) (hist <$> left_revision k) (right_path k) (hist <$> right_revision k) out;
}.

Definition cache_ok t : Prop := ∃ hist, CacheOk hist t.

Lemma render_diff_roots t t' : display_roots_by_environment t = display_roots_by_environment t' →
  render_diff (T := T) t = render_diff t'.
Proof. intros E. unfold render_diff, display_path. by rewrite E. Qed.

Lemma cache_ok_sub t t' : cache_ok t → display_roots_by_environment t' = display_roots_by_environment t →
  baseline_by_path t' ⊆ baseline_by_path t → current_by_path t' ⊆ current_by_path t →
  next_revision t' = next_revision t → rendered_diffs t' ⊆ rendered_diffs t → cache_ok t'.
Proof.
  intros [hist [Hb Hc Hr]] Ed Hb' Hc' En Hr'. exists hist. split; rewrite ?En.
  - intros q c Hq. eapply Hb, lookup_weaken; done.
  - intros q c Hq. eapply Hc, lookup_weaken; done.
  - intros k out Hk. eapply lookup_weaken in Hk; [|done]. unfold renders. rewrite (render_diff_roots _ t) by done.
    by apply Hr.
Qed.

Definition learn (hist : N → str) (n : N) (s : str) : N → str := λ m, if (m =? n)%N then s else hist m.

Lemma known_learn hist n s c : known hist n c → known (learn hist n s) (n + 1) c.
Proof. intros [? ?]. unfold known, learn. rewrite (proj2 (N.eqb_neq _ _)) by lia. split; [lia|done]. Qed.

Lemma fmap_learn hist n s (o : option N) : (∀ m, o = Some m → (m < n)%N) → learn hist n s <$> o = hist <$> o.
Proof.
  intros Hlt. destruct o as [m|]; [|done]. specialize (Hlt m eq_refl). simpl. f_equal. unfold learn.
  by rewrite (proj2 (N.eqb_neq _ _)) by lia.
Qed.

(** A new revision for [s]. *)
Lemma CacheOk_learn hist s t : CacheOk hist t →
  CacheOk (learn hist (next_revision t) s) (tracked_content s t).2.
Proof.
  intros [Hb Hc Hr]. split; simpl.
  - intros q c Hq. by eapply known_learn, Hb.
  - intros q c Hq. by eapply known_learn, Hc.
  - intros k out Hk. apply Hr in Hk as [Hlt Hk]. split; [intros n Hn; specialize (Hlt n Hn); lia|].
    rewrite !fmap_learn by (intros; apply Hlt; auto). done.
Qed.

Lemma known_new hist s t :
  known (learn hist (next_revision t) s) (next_revision t + 1) (mkTracked s (next_revision t)).
Proof. unfold known, learn. simpl. rewrite N.eqb_refl. split; [lia|done]. Qed.

Lemma insert_baseline_ok p s t : cache_ok t → cache_ok (insert_baseline p s t).
Proof.
  intros [hist Hh]. exists (learn hist (next_revision t) s).
  destruct (CacheOk_learn _ s _ Hh) as [Hb Hc Hr]. split; [|exact Hc|exact Hr].
  simpl in *. intros q c [[-> <-]|[_ Hq]]%lookup_insert_Some; [apply known_new|by eapply Hb].
Qed.

Lemma insert_current_ok p s t : cache_ok t → cache_ok (insert_current p s t).
Proof.
  intros [hist Hh]. exists (learn hist (next_revision t) s).
  destruct (CacheOk_learn _ s _ Hh) as [Hb Hc Hr]. split; [exact Hb| |exact Hr].
  simpl in *. intros q c [[-> <-]|[_ Hq]]%lookup_insert_Some; [apply known_new|by eapply Hc].
Qed.

Lemma set_origin_ok m t : cache_ok t → cache_ok (set_origin m t).
Proof. intros Ht. by eapply cache_ok_sub. Qed.

Lemma delete_current_ok p t : cache_ok t → cache_ok (set_current (delete p (current_by_path t)) t).
Proof. intros Ht. eapply cache_ok_sub; [done..| |done|done]. apply delete_subseteq. Qed.

Lemma note_ok p o t : cache_ok t → cache_ok (note p o t).
Proof. intros. unfold note. destruct o; [|done]. case_match; [by apply insert_baseline_ok|done]. Qed.

#[local] Hint Resolve insert_baseline_ok insert_current_ok set_origin_ok delete_current_ok note_ok : codex.

Lemma apply_change_ok env c t : cache_ok t → cache_ok (apply_change env c t).
Proof.
  intros Ht. unfold apply_change. destruct (change c) as [s o|s|[d|] old o new].
  - apply insert_current_ok, (note_ok _ o (set_origin _ t)). auto with codex.
  - rewrite tracker_apply_delete_eq. cbv zeta. auto with codex.
  - simpl. unfold tracker_apply_update. cbv zeta.
    assert (H1 : cache_ok (note (mkTrackedPath env d) o (note (mkTrackedPath env (change_path c)) (Some old) t)))
      by auto with codex.
    case_decide; auto 10 with codex.
  - simpl. unfold tracker_apply_update. apply insert_current_ok, (note_ok _ (Some old) t Ht).
Qed.

Lemma note_frame p o t : display_roots_by_environment (note p o t) = display_roots_by_environment t
  ∧ valid (note p o t) = valid t.
Proof. unfold note. destruct o; [|done]. by destruct (untracked p t). Qed.

Lemma apply_change_frame env c t :
  display_roots_by_environment (apply_change env c t) = display_roots_by_environment t
  ∧ valid (apply_change env c t) = valid t.
Proof.
  unfold apply_change. destruct (change c) as [s o|s|[d|] old o new].
  - apply (note_frame _ o (set_origin _ t)).
  - rewrite tracker_apply_delete_eq. apply (note_frame _ (Some s) t).
  - simpl. unfold tracker_apply_update. cbv zeta.
    destruct (note_frame (mkTrackedPath env (change_path c)) (Some old) t) as [<- <-].
    case_decide; apply (note_frame _ o).
  - apply (note_frame _ (Some old) t).
Qed.

Lemma apply_changes_ok env cs t : cache_ok t →
  let t' := foldl (λ t c, apply_change env c t) t cs in
  cache_ok t' ∧ display_roots_by_environment t' = display_roots_by_environment t ∧ valid t' = valid t.
Proof.
  revert t. induction cs as [|c cs IH]; intros t Ht; simpl; [done|].
  destruct (apply_change_frame env c t) as [<- <-]. by apply IH, apply_change_ok.
Qed.

(** * Refreshing *)

Definition cached hist t (m : gmap (DiffCacheKey P) (option str)) : Prop := ∀ k out,
  m !! k = Some out →
  (∀ n, left_revision k = Some n ∨ right_revision k = Some n → (n < next_revision t)%N) ∧
  renders t (left_path k) (hist <$> left_revision k) (right_path k) (hist <$> right_revision k) out.

(** The revision of a recorded text names it. *)
Lemma hist_content hist n (o : option TrackedContent) :
  (∀ c, o = Some c → known hist n c) → hist <$> (revision <$> o) = content <$> o.
Proof. intros Hk. destruct o as [c|]; [|done]. simpl. by destruct (Hk c eq_refl) as [_ ->]. Qed.

Lemma refresh_pair_spec hist t now l r rf :
  CacheOk hist t → cached hist t (previous rf) → cached hist t (rendered rf) →
  let rf' := refresh_pair t now l r rf in
  handled rf' = handled rf ∧ cached hist t (previous rf') ∧ cached hist t (rendered rf') ∧
  ∃ out, renders t l (base t l) r (cur t r) out ∧ aggregated rf' = push_diff (aggregated rf) out.
Proof.
  intros [Hb Hc _] Hp Hr. unfold refresh_pair. cbv zeta. simpl.
  set (k := mkKey l _ r _). set (out := match previous rf !! k with Some x => x | None => _ end).
  assert (Hl : hist <$> left_revision k = base t l) by (apply (hist_content _ (next_revision t)); eauto).
  assert (Hr' : hist <$> right_revision k = cur t r) by (apply (hist_content _ (next_revision t)); eauto).
  assert (Ho : renders t l (base t l) r (cur t r) out).
  { unfold out. destruct (previous rf !! k) as [x|] eqn:Ek; [|by eexists].
    destruct (Hp _ _ Ek) as [_ Hx]. by rewrite Hl, Hr' in Hx. }
  split; [done|]. split; [|split; [|by exists out]].
  - intros k' x [_ Hk']%lookup_delete_Some. by apply Hp.
  - intros k' x [[<- <-]|[_ Hk']]%lookup_insert_Some; [|by apply Hr]. rewrite Hl, Hr'. split; [|done].
    subst k. simpl. intros n [Hn|Hn]; apply fmap_Some in Hn as (c & Hc' & ->);
      [by destruct (Hb _ _ Hc')|by destruct (Hc _ _ Hc')].
Qed.

(** The pairs of paths that the loop renders. *)
Fixpoint blocks (pairs : gmap TPath TPath) (dests seen : gset TPath) (ps : list TPath)
    : list (TPath * TPath) :=
  match ps with
  | [] => []
  | p :: ps =>
      if decide (p ∈ seen ∨ p ∈ dests) then blocks pairs dests seen ps
      else (p, default p (pairs !! p)) :: blocks pairs dests ({[p]} ∪ seen) ps
  end.

(** The handled paths are the seen ones, as far as it matters. *)
Definition agree (dests h seen : gset TPath) : Prop := ∀ q, (q ∉ dests) → q ∈ h ↔ q ∈ seen.

Lemma refresh_path_spec hist t now (pairs : gmap TPath TPath) (dests seen : gset TPath) p rf :
  CacheOk hist t → cached hist t (previous rf) → cached hist t (rendered rf) →
  (∀ p d, pairs !! p = Some d → d ∈ dests) → agree dests (handled rf) seen →
  let rf' := refresh_path t now pairs dests rf p in
  let d := default p (pairs !! p) in
  cached hist t (previous rf') ∧ cached hist t (rendered rf') ∧
  if decide (p ∈ seen ∨ p ∈ dests) then
    agree dests (handled rf') seen ∧ aggregated rf' = aggregated rf
  else
    agree dests (handled rf') ({[p]} ∪ seen) ∧
    ∃ out, renders t p (base t p) d (cur t d) out ∧ aggregated rf' = push_diff (aggregated rf) out.
Proof.
  intros Hh Hp Hr Hd Hs. unfold agree, refresh_path in *. cbv zeta. case_decide as E1.
  { rewrite decide_True; [done|]. destruct (decide (p ∈ dests)); [by right|left; by apply Hs]. }
  case_decide as E2.
  { rewrite decide_True by by right. simpl. split_and!; [done..| |done]. set_solver. }
  rewrite decide_False by (intros [?|?]; [|done]; by apply E1, Hs).
  destruct (pairs !! p) as [d|] eqn:Ep; cbn [default from_option id].
  - match goal with |- context [refresh_pair _ _ _ _ ?x] =>
      destruct (refresh_pair_spec hist t now p d x) as (-> & ? & ? & ?); [done..|] end.
    split_and!; [done..| |done]. simpl. apply Hd in Ep. set_solver.
  - match goal with |- context [refresh_pair _ _ _ _ ?x] =>
      destruct (refresh_pair_spec hist t now p p x) as (-> & ? & ? & ?); [done..|] end.
    split_and!; [done..| |done]. simpl. set_solver.
Qed.

Lemma refresh_loop_spec hist t now (pairs : gmap TPath TPath) (dests seen : gset TPath) ps rf :
  CacheOk hist t → cached hist t (previous rf) → cached hist t (rendered rf) →
  (∀ p d, pairs !! p = Some d → d ∈ dests) → agree dests (handled rf) seen →
  let rf' := foldl (refresh_path t now pairs dests) rf ps in
  cached hist t (rendered rf') ∧
  ∃ outs, Forall2 (λ b out, renders t b.1 (base t b.1) b.2 (cur t b.2) out)
      (blocks pairs dests seen ps) outs
    ∧ aggregated rf' = foldl push_diff (aggregated rf) outs.
Proof.
  intros Hh Hp Hr Hd. revert rf seen Hp Hr. induction ps as [|p ps IH]; intros rf seen Hp Hr Hs.
  { split; [done|]. by exists []. }
  destruct (refresh_path_spec hist t now pairs dests seen p rf) as (Hp1 & Hr1 & H1); [done..|].
  simpl. case_decide.
  - destruct H1 as [Hs1 <-]. by apply IH.
  - destruct H1 as (Hs1 & out & Hout & Hagg).
    destruct (IH _ _ Hp1 Hr1 Hs1) as (Hc & outs & Hf & Ha). split; [done|].
    exists (out :: outs). split; [by constructor|]. simpl. by rewrite Ha, Hagg.
Qed.

Lemma elem_of_blocks pairs dests seen ps b :
  b ∈ blocks pairs dests seen ps ↔
  b.2 = default b.1 (pairs !! b.1) ∧ b.1 ∈ ps ∧ (b.1 ∉ seen) ∧ (b.1 ∉ dests).
Proof.
  revert seen. induction ps as [|p ps IH]; intros seen; simpl; [set_solver|].
  destruct b as [b1 b2]. case_decide as E; rewrite ?elem_of_cons, IH; simpl.
  - set_solver.
  - destruct (decide (b1 = p)) as [->|]; [|set_solver]. naive_solver set_solver.
Qed.

Lemma blocks_NoDup pairs dests seen ps : NoDup (blocks pairs dests seen ps).
Proof.
  revert seen. induction ps as [|p ps IH]; intros seen; simpl; [constructor|].
  case_decide; [done|]. constructor; [|done]. rewrite elem_of_blocks. set_solver.
Qed.

Lemma blocks_sorted (R : relation TPath) pairs dests seen ps :
  StronglySorted R ps → StronglySorted (λ b b', R b.1 b'.1) (blocks pairs dests seen ps).
Proof.
  intros Hs. revert seen. induction Hs as [|p ps Hs IH Hp]; intros seen; simpl; [constructor|].
  case_decide; [done|]. constructor; [done|]. apply Forall_forall.
  intros b (_ & Hb & _)%elem_of_blocks. simpl. by eapply Forall_forall in Hp.
Qed.

(** ** The text

    Every printed block ends with a line feed. *)
Definition terminated (d : str) : str := if ends_with d [LF] then d else d ++ [LF].

Definition unified_text (outs : list (option str)) : option str :=
  match concat (terminated <$> omap id outs) with
  | [] => None
  | s => Some s
  end.

Lemma ends_with_app (s d x : str) : d ≠ [] → length x = 1 → ends_with (s ++ d) x = ends_with d x.
Proof.
  intros Hd Hx. apply bool_decide_ext. destruct d as [|c d _] using rev_ind; [done|]. clear Hd.
  destruct x as [|y [|]]; try done. split; intros [r Hr]; apply strip_suffix_Some in Hr.
  - rewrite app_assoc in Hr. apply app_inj_tail in Hr as [_ ->]. exists d. by apply strip_suffix_Some.
  - apply app_inj_tail in Hr as [_ ->]. exists (s ++ d). by apply strip_suffix_Some; rewrite app_assoc.
Qed.

Lemma render_diff_nonempty t now p l q r d : render_diff (T := T) t now p l q r = Some d → d ≠ [].
Proof. unfold render_diff. case_match; [done|]. intros Hd. by destruct l, r; simplify_eq/=. Qed.

Lemma push_diffs outs s : Forall (λ o, o ≠ Some []) outs →
  foldl push_diff s outs = s ++ concat (terminated <$> omap id outs).
Proof.
  intros Hf. revert s. induction Hf as [|[d|] outs Ho Hf IH]; intros s; simpl; [by rewrite app_nil_r| |done].
  rewrite IH, app_assoc. f_equal. unfold terminated. rewrite ends_with_app by (done || congruence).
  case_match; [done|]. by rewrite app_assoc.
Qed.

(** ** Renames *)
Lemma rename_pairs_spec t o d : rename_pairs t !! o = Some d →
  (d, o) ∈ origins_of (origin_by_current_path t) ∧ is_rename t d o = true.
Proof.
  unfold rename_pairs. set (l := origins_of _). assert (Hl : ∀ x, x ∈ l → x ∈ l) by done.
  revert Hl. generalize l at 1 3. intros l'. assert (Hm : ∀ o d : TPath, (∅ : gmap TPath TPath) !! o = Some d →
    (d, o) ∈ l ∧ is_rename t d o = true) by done. revert Hm. generalize (∅ : gmap TPath TPath).
  induction l' as [|x l' IH]; intros m Hm Hl; simpl; [apply Hm|].
  apply IH; [|set_solver]. case_match eqn:E; [|done].
  intros o' d' [[<- <-]|[_ ?]]%lookup_insert_Some; [|by apply Hm]. destruct x. split; [set_solver|done].
Qed.

Lemma is_rename_spec t d o : is_rename t d o = true →
  d ≠ o ∧ cur t o = None ∧ is_Some (cur t d) ∧ is_Some (base t o) ∧ base t d = None.
Proof.
  unfold is_rename, base, cur. rewrite negb_true_iff, !orb_false_iff, !bool_decide_eq_false.
  rewrite !fmap_is_Some, !fmap_None, !eq_None_not_Some. intros ((((? & ?) & ?) & ?) & ?).
  split; [done|]. split; [done|]. split; [by apply dec_stable|]. split; [by apply dec_stable|done].
Qed.

(** * The net diff

    [f0] are the files before the turn and [f] the files after it. [bs] are the printed
    pairs, [outs] what was printed for each:
    - the pairs are in the order of the displayed path of the left side, and no path is
      in two of them;
    - a pair of different paths is a rename: a file that is gone, and one that is new;
    - a pair shows the text its left side had before the turn and the text its right
      side has now;
    - every path whose text changed is in a pair. *)
Record NetDiff t f0 f (bs : list (TPath * TPath)) (outs : list (option str)) : Prop := {
  nd_sorted : StronglySorted (λ b b', str_leb (display_path t b.1) (display_path t b'.1) = true) bs;
  nd_nodup : NoDup bs;
  nd_once b b' q : b ∈ bs → b' ∈ bs → q = b.1 ∨ q = b.2 → q = b'.1 ∨ q = b'.2 → b = b';
  nd_rename b : b ∈ bs → b.1 ≠ b.2 →
    is_Some (f0 b.1) ∧ f b.1 = None ∧ f0 b.2 = None ∧ is_Some (f b.2);
  nd_shows : Forall2 (λ b out, renders t b.1 (f0 b.1) b.2 (f b.2) out) bs outs;
  nd_complete q : f q ≠ f0 q → ∃ b, b ∈ bs ∧ (q = b.1 ∨ q = b.2);
}.

(** The hash maps enumerate their entries, each once. *)
Class HashOrder : Prop := {
  keys_of_perm m : keys_of m ≡ₚ (map_to_list m).*1;
  origins_of_perm m : origins_of m ≡ₚ map_to_list m;
}.

Context {HO : HashOrder}.

Lemma elem_of_sorted_paths t q : q ∈ sorted_paths t ↔ is_Some (base t q) ∨ is_Some (cur t q).
Proof.
  unfold sorted_paths, base, cur. rewrite elem_of_dedup, sort_by_key_perm, !keys_of_perm, elem_of_app.
  rewrite !fmap_is_Some, !list_elem_of_fmap. split.
  - intros [([p c] & -> & Hp)|([p c] & -> & Hp)]; apply elem_of_map_to_list in Hp; eauto.
  - intros [[c Hc]|[c Hc]]; [left|right]; exists (q, c); by rewrite elem_of_map_to_list.
Qed.

Lemma rename_pairs_inj t o o' d : rename_pairs t !! o = Some d → rename_pairs t !! o' = Some d → o = o'.
Proof.
  intros [H1 _]%rename_pairs_spec [H2 _]%rename_pairs_spec.
  rewrite origins_of_perm, elem_of_map_to_list in H1, H2. congruence.
Qed.

Abbreviation pair_blocks t :=
  (blocks (rename_pairs t) (list_to_set (map_to_list (rename_pairs t)).*2) ∅ (sorted_paths t)).

Lemma elem_of_destinations t d :
  d ∈ (list_to_set (map_to_list (rename_pairs t)).*2 : gset TPath) ↔ ∃ o, rename_pairs t !! o = Some d.
Proof.
  rewrite elem_of_list_to_set, list_elem_of_fmap. split.
  - intros ([o x] & -> & Hx). apply elem_of_map_to_list in Hx. eauto.
  - intros [o Ho]. exists (o, d). by rewrite elem_of_map_to_list.
Qed.

(** A printed pair: one tracked path, or a rename. *)
Lemma pair_blocks_cases t b : b ∈ pair_blocks t →
  (b.1 = b.2 ∧ (is_Some (base t b.1) ∨ is_Some (cur t b.1))) ∨ rename_pairs t !! b.1 = Some b.2.
Proof.
  intros (H2 & H1 & _)%elem_of_blocks. apply elem_of_sorted_paths in H1.
  destruct (rename_pairs t !! b.1); naive_solver.
Qed.

Lemma pair_blocks_once t b b' q : b ∈ pair_blocks t → b' ∈ pair_blocks t →
  q = b.1 ∨ q = b.2 → q = b'.1 ∨ q = b'.2 → b = b'.
Proof.
  intros (E & _ & _ & Hd)%elem_of_blocks (E' & _ & _ & Hd')%elem_of_blocks.
  rewrite elem_of_destinations in Hd, Hd'. pose proof (rename_pairs_inj t b.1 b'.1 q) as Hi.
  destruct b as [x y], b' as [x' y']. simpl in *.
  destruct (rename_pairs t !! x) eqn:Ex, (rename_pairs t !! x') eqn:Ex'; simpl in *; naive_solver.
Qed.

Lemma pair_blocks_complete t q :
  is_Some (base t q) ∨ is_Some (cur t q) → ∃ b, b ∈ pair_blocks t ∧ (q = b.1 ∨ q = b.2).
Proof.
  intros Hq. destruct (decide (q ∈ (list_to_set (map_to_list (rename_pairs t)).*2 : gset TPath))) as [Hd|Hd].
  - apply elem_of_destinations in Hd as [o Ho]. exists (o, q). split; [|by right].
    pose proof Ho as [_ (_ & _ & _ & Hb & _)%is_rename_spec]%rename_pairs_spec.
    apply elem_of_blocks. simpl. rewrite Ho, elem_of_sorted_paths, elem_of_destinations.
    split; [done|]. split; [by left|]. split; [set_solver|]. intros [o' Ho'].
    apply rename_pairs_spec in Ho' as [_ (_ & _ & _ & _ & Hn')%is_rename_spec].
    rewrite Hn' in Hb. by destruct Hb.
  - exists (q, default q (rename_pairs t !! q)). split; [|by left]. apply elem_of_blocks.
    apply elem_of_sorted_paths in Hq. set_solver.
Qed.

(** Both sides of a printed pair show the files. *)
Lemma pair_blocks_files t f0 f b : net (base t) (cur t) f0 f → b ∈ pair_blocks t →
  f0 b.1 = base t b.1 ∧ f b.2 = cur t b.2.
Proof.
  intros Hn [[<- Hb]|Hp]%pair_blocks_cases; [by apply net_tracked|].
  apply rename_pairs_spec in Hp as [_ (_ & _ & Hc & Hb & _)%is_rename_spec].
  destruct (net_tracked _ _ _ _ b.1 Hn (or_introl Hb)), (net_tracked _ _ _ _ b.2 Hn (or_intror Hc)).
  done.
Qed.

Lemma net_diff_of_blocks t f0 f outs : net (base t) (cur t) f0 f →
  Forall2 (λ b out, renders t b.1 (base t b.1) b.2 (cur t b.2) out) (pair_blocks t) outs →
  NetDiff t f0 f (pair_blocks t) outs.
Proof.
  intros Hn Hf. split.
  - apply (blocks_sorted (key_le (display_path t))), dedup_StronglySorted, sort_by_key_sorted.
  - apply blocks_NoDup.
  - apply pair_blocks_once.
  - intros b [[? _]|Hp]%pair_blocks_cases Hne; [done|].
    apply rename_pairs_spec in Hp as [_ (_ & Hc & Hc' & Hb1 & Hb2)%is_rename_spec].
    destruct (net_tracked _ _ _ _ b.1 Hn) as [-> ->]; [by left|].
    destruct (net_tracked _ _ _ _ b.2 Hn) as [-> ->]; [by right|]. done.
  - apply Forall2_same_length_lookup. split; [by eapply Forall2_length|]. intros i b out Hb Ho.
    pose proof (Forall2_lookup_lr _ _ _ _ _ _ Hf Hb Ho) as Hr.
    apply list_elem_of_lookup_2, (pair_blocks_files _ _ _ _ Hn) in Hb as [-> ->]. done.
  - intros q Hq. by eapply pair_blocks_complete, net_changed.
Qed.

Lemma rendered_nonempty bs outs (g g' : TPath * TPath → option str) t :
  Forall2 (λ b out, renders t b.1 (g b) b.2 (g' b) out) bs outs → Forall (λ o, o ≠ Some []) outs.
Proof.
  induction 1 as [|b out bs outs [now Hr] _ IH]; constructor; [|done]. intros ->.
  by apply render_diff_nonempty in Hr.
Qed.

(** [net] and a good cache give the net diff, and a good cache again. *)
Lemma refresh_spec now t f0 f : cache_ok t → net (base t) (cur t) f0 f →
  let t' := refresh_unified_diff now t in
  cache_ok t' ∧ ∃ bs outs, NetDiff t' f0 f bs outs ∧ unified_diff t' = unified_text outs.
Proof.
  intros [hist Hh] Hn. pose proof (cached_known _ _ Hh) as Hc.
  destruct (refresh_loop_spec hist t now (rename_pairs t)
    (list_to_set (map_to_list (rename_pairs t)).*2) ∅ (sorted_paths t)
    (mkRefresh ∅ (rendered_diffs t) ∅ [])) as (Hr & outs & Hf & Ha); [done|exact Hc|done|..|done|].
  { intros o d Ho. apply elem_of_destinations. eauto. }
  split.
  - exists hist. destruct Hh as [Hb Hcur _]. split; [exact Hb|exact Hcur|]. simpl.
    intros k out Hk. apply Hr in Hk. unfold renders. by rewrite (render_diff_roots _ t).
  - exists (pair_blocks t), outs. split.
    + apply (net_diff_of_blocks (refresh_unified_diff now t)); [done|]. eapply Forall2_impl; [exact Hf|].
      intros b out [n Hb]. exists n. rewrite <- Hb. by rewrite <- (render_diff_roots t).
    + simpl. rewrite Ha, push_diffs by exact (rendered_nonempty _ _ (λ b, base t b.1) (λ b, cur t b.2) t Hf). unfold unified_text. simpl.
      by destruct (concat _).
Qed.

Lemma NetDiff_ext t f0 f f' bs outs : NetDiff t f0 f bs outs → (∀ q, f' q = f q) → NetDiff t f0 f' bs outs.
Proof.
  intros [] Hf. split; [done..| | |].
  - intros b. rewrite !Hf. auto.
  - eapply Forall2_impl; [done|]. intros b out. by rewrite Hf.
  - intros q. rewrite Hf. auto.
Qed.

(** * The invariant of the tracker

    A valid tracker shows the net diff; an invalid one shows nothing. *)
Definition TrackerOk f0 f t : Prop :=
  if valid t then
    cache_ok t ∧ net (base t) (cur t) f0 f ∧
    ∃ bs outs, NetDiff t f0 f bs outs ∧ unified_diff t = unified_text outs
  else unified_diff t = None.

Lemma TrackerOk_ext f0 f f' t : TrackerOk f0 f t → (∀ q, f' q = f q) → TrackerOk f0 f' t.
Proof.
  unfold TrackerOk. destruct (valid t); [|done]. intros (Hc & Hn & bs & outs & Hd & Hu) Hf.
  split; [done|]. split; [by eapply net_ext|]. exists bs, outs. split; [by eapply NetDiff_ext|done].
Qed.

Lemma new_tracker_ok roots f : TrackerOk f f (with_environment_display_roots roots).
Proof.
  split; [exists (λ _, []); by split|]. split; [done|]. exists [], []. split; [|done].
  split; [constructor..| | | |done]; set_solver.
Qed.

Lemma invalidate_ok f0 f t : TrackerOk f0 f (invalidate t).
Proof. done. Qed.

(** Tracking a delta that describes what happened to the files of one environment. *)
Lemma track_delta_ok now env d t f0 f g : TrackerOk f0 f t →
  (delta_exact d = true →
    Forall no_self_move (delta_changes d) ∧ describes (delta_changes d) (in_env env f) g) →
  TrackerOk f0 (with_env env g f) (track_delta now env d t).
Proof.
  intros Ht Hd. unfold track_delta, TrackerOk in Ht |- *. destruct (valid t) eqn:Ev; simpl; [|by rewrite Ev].
  destruct (delta_exact d); simpl; [|done]. destruct Ht as (Hc & Hn & _).
  destruct (Hd eq_refl) as (Hm & Hr & _ & Hco).
  destruct (apply_changes_ok env (delta_changes d) t Hc) as (Hc' & _ & Hv).
  rewrite Hv, Ev. pose proof (apply_changes_net env _ _ _ _ Hn Hm Hco) as Hn'.
  assert (Hw : ∀ q, with_env env g f q = with_env env (redo_all (delta_changes d) (in_env env f)) f q)
    by (intros q; unfold with_env; case_decide; [by rewrite Hr|done]).
  destruct (refresh_spec now _ _ _ Hc' Hn') as (Hc2 & bs & outs & Hd2 & Hu2).
  split; [done|]. split; [by eapply net_ext|]. exists bs, outs. split; [by eapply NetDiff_ext|done].
Qed.
End Tracker.
