(* ===== verification/TurnDiffTurn.v ===== *)
(** A whole turn: patches applied in several environments, with retries and failures,
    and the diff that is shown for all of them. *)
From stdpp Require Import base list sets numbers strings gmap relations.
From S2P Require Import Prelude RustStr PatchParser SeekSequence FileUpdate ApplyPatch ApplyPatchFacts Utf8Stream TurnDiff TurnDiffFacts.

Section Turn.
Context {W P S T : Type} `{FS : ExecutorFileSystem W P} `{PU : PathUri P} `{CO : Console W}
  `{Countable P} {PF : PlainFiles W P} {TE : TurnDiffEnv P T} {HO : HashOrder}.
Context (enter_sandbox : S → W → W).

(** Entering a sandbox leaves the files alone. *)
Context (enter_files : ∀ s w q, file_at (enter_sandbox s w) q = file_at w q).

(** * The attempts of one call *)

Lemma run_attempt_describes patch cwd s opts w c w' d :
  run_attempt enter_sandbox patch cwd s opts w c = Some (w', d) → delta_exact d = true →
  delta_exact c = true ∧ ∃ cs, delta_changes d = delta_changes c ++ cs
    ∧ describes cs (file_at w) (file_at w').
Proof.
  unfold run_attempt. destruct (apply_patch_with_options _ _ _ _) as [w1 r] eqn:Er.
  assert (Hd : ∀ d1, outcome_delta r = Some d1 → delta_exact (delta_append c d1) = true →
    delta_exact c = true ∧ ∃ cs, delta_changes (delta_append c d1) = delta_changes c ++ cs
      ∧ describes cs (file_at w) (file_at w1)).
  { intros d1 Hd1 [Hc He]%andb_true_iff. split; [done|]. exists (delta_changes d1). split; [done|].
    destruct (apply_patch_describes _ _ _ _ _ _ _ Er Hd1 He) as (Hr & Hu & Hco). split; [|split].
    - intros q. rewrite <- Hr. apply redo_all_ext. intros q'. by rewrite enter_files.
    - intros q. by rewrite Hu, enter_files.
    - eapply coherent_ext; [|done]. intros q. apply enter_files. }
  destruct r; intros [= <- <-]; by apply Hd.
Qed.

Lemma run_attempts_describes patch cwd attempts w c w' d :
  run_attempts enter_sandbox patch cwd attempts w c = Some (w', d) → delta_exact d = true →
  delta_exact c = true ∧ ∃ cs, delta_changes d = delta_changes c ++ cs
    ∧ describes cs (file_at w) (file_at w').
Proof.
  revert w c. induction attempts as [|[s o] attempts IH]; intros w c; simpl.
  - intros [= <- <-] Hd. split; [done|]. exists []. rewrite app_nil_r. split; [done|]. by apply describes_nil.
  - destruct (run_attempt _ _ _ _ _ _ _) as [[w1 c1]|] eqn:E1; simpl; [|done]. intros Hr Hd.
    destruct (IH _ _ Hr Hd) as (Hc1 & cs2 & Hcs2 & Hd2).
    destruct (run_attempt_describes _ _ _ _ _ _ _ _ E1 Hc1) as (Hc & cs1 & Hcs1 & Hd1).
    split; [done|]. exists (cs1 ++ cs2). split; [by rewrite Hcs2, Hcs1, app_assoc|].
    by eapply describes_app.
Qed.

(** * The turn as a step relation

    A step is a call of the patch tool in an environment: the attempts the orchestrator
    makes (none when the call is refused), how the call ends, and the instant at which
    the diff is refreshed. The files change only by these calls. A file is not moved onto
    itself, and an error that is not a sandbox error is only reported before any attempt. *)
Record TurnState : Type := mkTurn {
  worlds : str → W;
  tracker : TurnDiffTracker P;
}.

Definition set_world (env : str) (w : W) (ws : str → W) : str → W := λ e,
  if decide (e = env) then w else ws e.

Inductive turn_step : TurnState → TurnState → Prop :=
| patch_call env patch cwd attempts out (now : T) ws t w' d :
    run_attempts enter_sandbox patch cwd attempts (ws env) empty_delta = Some (w', d) →
    Forall no_self_move (delta_changes d) →
    (out = ToolCodexError → attempts = []) →
    turn_step (mkTurn ws t)
      (mkTurn (set_world env w' ws)
        (emit_patch_end now (patch_tracker_update (Some env) out (Some d)) t).1).

(** All files of all environments. *)
Definition turn_files (ws : str → W) (q : TrackedPath P) : option str :=
  file_at (ws (environment_id q)) (path_in_env q).

Lemma turn_files_set env w ws q :
  turn_files (set_world env w ws) q = with_env env (file_at w) (turn_files ws) q.
Proof. unfold turn_files, set_world, with_env. by case_decide. Qed.

Lemma turn_step_ok f0 s s' : turn_step s s' →
  TrackerOk f0 (turn_files (worlds s)) (tracker s) → TrackerOk f0 (turn_files (worlds s')) (tracker s').
Proof.
  intros [env patch cwd attempts out now ws t w' d Hr Hm Hout] Ht. simpl in *.
  assert (Hd : delta_exact d = true → describes (delta_changes d) (file_at (ws env)) (file_at w')).
  { intros He. destruct (run_attempts_describes _ _ _ _ _ _ _ Hr He) as (_ & cs & -> & Hd). done. }
  assert (Hk : TrackerOk f0 (turn_files (set_world env w' ws))
    (emit_patch_end now (tracker_update_for_known_delta (Some env) d) t).1).
  { unfold tracker_update_for_known_delta. destruct (delta_exact d && is_empty (delta_changes d)) eqn:E; simpl.
    - apply andb_true_iff in E as [He Hn]. destruct (Hd He) as (Hr1 & _). destruct (delta_changes d); [|done].
      eapply TrackerOk_ext; [exact Ht|]. intros q. rewrite turn_files_set. unfold with_env, turn_files.
      case_decide as E; [|done]. rewrite <- Hr1, <- E. done.
    - eapply TrackerOk_ext; [|apply turn_files_set]. apply (track_delta_ok now env d t f0 _ (file_at w')); [done|].
      intros He. split; [done|]. by apply Hd. }
  destruct out; [exact Hk|done|exact Hk| |exact Hk].
  rewrite (Hout eq_refl) in Hr. simpl in Hr. injection Hr as <- <-. exact Hk.
Qed.


(** An event is sent whenever the shown diff changes, with the new diff. *)
Lemma turn_diff_event_sent (now : T) u (t : TurnDiffTracker P) :
  let (t', event) := emit_patch_end now u t in
  unified_diff t' ≠ unified_diff t → event = Some (default [] (unified_diff t')).
Proof.
  unfold emit_patch_end, has_unified_diff, get_unified_diff. destruct u; simpl; [| |done].
  - set (t' := track_delta _ _ _ _). destruct (unified_diff t), (unified_diff t'); done.
  - destruct (unified_diff t); done.
Qed.
End Turn.

(** * A file moved onto itself *)
Section SelfMove.
Context {P T : Type} `{Countable P} `{PU : PathUri P} {TE : TurnDiffEnv P T}.

(** A move of a file onto itself is tracked wrongly: applying the change leaves no
    file at the path, but the tracker keeps the new text as its current text, whatever it
    had recorded before. *)
Theorem self_move_misreported env (p : P) old new (t : TurnDiffTracker P) (f : P → option str) :
  let c := mkChange p (ChangeUpdate (Some p) old (Some old) new) in
  redo c f p = None ∧ cur (apply_change env c t) (mkTrackedPath env p) = Some new.
Proof.
  split; [apply upd_same|].
  etransitivity; [apply (cur_move _ (mkTrackedPath env p) old (Some old) new t)|apply upd_same].
Qed.
End SelfMove.

(** * A turn that is run

    The in-memory file system, a diff that prints both texts, and the enumeration
    orders of the maps of the model. *)
#[export] Instance MemTurnEnv : TurnDiffEnv str unit := {|
  relative_path_from p root := strip_prefix p (root ++ lit "/");
  unified_text_diff _ old_header new_header l r :=
    lit "--- " ++ old_header ++ [LF] ++ lit "+++ " ++ new_header ++ [LF] ++ l ++ r;
  sha1_hex bytes := display_nat (length bytes);
  keys_of m := (map_to_list m).*1;
  origins_of m := map_to_list m;
|}.

#[export] Instance MemHashOrder : HashOrder (P := str) (T := unit).
Proof. split; done. Qed.

Definition second_patch : str := join [LF]
  [lit "*** Begin Patch"; lit "*** Update File: moved"; lit "*** Move to: again"; lit "-b"; lit "+c";
   lit "*** Delete File: new"; lit "*** End Patch"].

Definition enter_mem (_ : unit) (w : MemWorld) : MemWorld := w.
Definition mem_attempts : list (unit * ApplyPatchOptions) := [(tt, default_options)].

Definition mem_roots : list (str * str) := [(lit "local", lit "/w")].

Definition second_delta : AppliedPatchDelta str := mkDelta
  [mkChange (lit "/w/moved") (ChangeUpdate (Some (lit "/w/again")) (lit "b" ++ [LF]) None (lit "c" ++ [LF]));
   mkChange (lit "/w/new") (ChangeDelete (lit "n" ++ [LF]))] true.

Definition mem_emit (d : AppliedPatchDelta str) (t : TurnDiffTracker str) : TurnDiffTracker str :=
  (emit_patch_end (T := unit) tt (patch_tracker_update (Some (lit "local")) ToolOk (Some d)) t).1.

Definition mem_tracker : TurnDiffTracker str :=
  mem_emit second_delta (mem_emit sample_delta (with_environment_display_roots mem_roots)).

(** The file moved twice is one rename, the file added and deleted again is not shown. *)
Definition mem_diff : str := concat ((λ l, l ++ [LF]) <$>
  [lit "diff --git a/gone b/gone"; lit "deleted file mode 100644";
   lit "index 8..0000000000000000000000000000000000000000"; lit "--- a/gone"; lit "+++ /dev/null"; lit "g";
   lit "diff --git a/old b/again"; lit "index 9..9"; lit "--- a/old"; lit "+++ b/again"; lit "a"; lit "c"]).

Definition mem_after : MemWorld :=
  (apply_patch_with_options second_patch default_options (lit "/w") sample_after).1.

Lemma mem_step patch w w' d t ws : run_attempts enter_mem patch (lit "/w") mem_attempts w empty_delta = Some (w', d) →
  ws (lit "local") = w → Forall no_self_move (delta_changes d) →
  turn_step (T := unit) enter_mem (mkTurn ws t) (mkTurn (set_world (lit "local") w' ws) (mem_emit d t)).
Proof. intros Hr <- Hm. by apply (patch_call enter_mem _ patch (lit "/w") mem_attempts). Qed.

Definition mem_end : str → MemWorld :=
  set_world (lit "local") mem_after (set_world (lit "local") sample_after (λ _, sample_world)).

Lemma mem_turn : rtc (turn_step (T := unit) enter_mem)
  (mkTurn (λ _, sample_world) (with_environment_display_roots mem_roots)) (mkTurn mem_end mem_tracker).
Proof.
  eapply rtc_l; [|eapply rtc_once].
  - eapply (mem_step sample_patch sample_world sample_after sample_delta); [vm_compute; reflexivity|reflexivity|].
    repeat constructor; vm_compute; congruence.
  - eapply (mem_step second_patch sample_after mem_after second_delta); [vm_compute; reflexivity|reflexivity|].
    repeat constructor; vm_compute; congruence.
Qed.

