(* ===== verification/PasteBurst.v ===== *)
(** [tui/src/bottom_pane/paste_burst.rs]: detecting pastes in terminals that deliver
    them as key events; and the part of [chat_composer.rs] and
    [chat_composer/paste_input.rs] that feeds it and applies its decisions, with the Enter
    of [chat_composer/reconnect.rs].

    Instants are nanoseconds, and [duration_since] saturates at zero, as subtraction on
    [N] does. The draft (textarea, attachments, placeholders, Vim history) is an interface;
    the integration of pasted text ([apply_paste]) is modelled on it. *)
From stdpp Require Import base list numbers strings.
From S2P Require Import Prelude RustStr.

Abbreviation Instant := N.
Abbreviation Duration := N.

Definition from_millis (n : N) : Duration := (n * 1000000)%N.
Definition duration_since (now earlier : Instant) : Duration := (now - earlier)%N.

Definition PASTE_BURST_MIN_CHARS : N := 3.
Definition PASTE_ENTER_SUPPRESS_WINDOW : Duration := from_millis 120.
Definition PASTE_BURST_CHAR_INTERVAL : Duration := from_millis 8.

(** The constant depends on the target: [cfg(windows)]. *)
Definition PASTE_BURST_ACTIVE_IDLE_TIMEOUT (windows : bool) : Duration :=
  if windows then from_millis 60 else from_millis 8.

Definition U16_MAX : N := 65535.

(** * The state machine *)
Record PasteBurst : Type := mkBurst {
  last_plain_char_time : option Instant;
  consecutive_plain_char_burst : N;
  burst_window_until : option Instant;
  buffer : str;
  active : bool;
  pending_first_char : option (char * Instant);
}.

Definition default_burst : PasteBurst := mkBurst None 0 None [] false None.

Inductive CharDecision : Type :=
| BeginBuffer (retro_chars : N)
| BufferAppend
| RetainFirstChar
| BeginBufferFromPending.

Record RetroGrab : Type := mkGrab {
  start_byte : nat;
  grabbed : str;
}.

Inductive FlushResult : Type :=
| FlushPaste (s : str)
| FlushTyped (c : char)
| FlushNone.

Definition recommended_flush_delay : Duration := (PASTE_BURST_CHAR_INTERVAL + from_millis 1)%N.

Definition is_active_internal (b : PasteBurst) : bool := active b || negb (is_empty (buffer b)).

Definition is_active (b : PasteBurst) : bool :=
  is_active_internal b || bool_decide (is_Some (pending_first_char b)).

(** Keep the burst window alive. *)
Definition extend_window (now : Instant) (b : PasteBurst) : PasteBurst :=
  mkBurst (last_plain_char_time b) (consecutive_plain_char_burst b)
    (Some (now + PASTE_ENTER_SUPPRESS_WINDOW)%N) (buffer b) (active b) (pending_first_char b).

Definition note_plain_char (now : Instant) (b : PasteBurst) : PasteBurst :=
  let burst :=
    match last_plain_char_time b with
    | Some prev =>
        if (duration_since now prev <=? PASTE_BURST_CHAR_INTERVAL)%N
        then N.min (consecutive_plain_char_burst b + 1) U16_MAX else 1%N
    | None => 1%N
    end in
  mkBurst (Some now) burst (burst_window_until b) (buffer b) (active b) (pending_first_char b).

(** The held character, if it was held recently. *)
Definition recently_held (now : Instant) (b : PasteBurst) : option char :=
  match pending_first_char b with
  | Some (held, held_at) =>
      if (duration_since now held_at <=? PASTE_BURST_CHAR_INTERVAL)%N then Some held else None
  | None => None
  end.

Definition on_plain_char (ch : char) (now : Instant) (b : PasteBurst) : PasteBurst * CharDecision :=
  let b := note_plain_char now b in
  if active b then (extend_window now b, BufferAppend)
  else
    match recently_held now b with
    | Some held =>
        (mkBurst (last_plain_char_time b) (consecutive_plain_char_burst b)
           (Some (now + PASTE_ENTER_SUPPRESS_WINDOW)%N) (buffer b ++ [held]) true None,
         BeginBufferFromPending)
    | None =>
        if (PASTE_BURST_MIN_CHARS <=? consecutive_plain_char_burst b)%N
        then (b, BeginBuffer (consecutive_plain_char_burst b - 1))
        else
          (mkBurst (last_plain_char_time b) (consecutive_plain_char_burst b) (burst_window_until b)
             (buffer b) (active b) (Some (ch, now)), RetainFirstChar)
    end.

Definition on_plain_char_no_hold (now : Instant) (b : PasteBurst) : PasteBurst * option CharDecision :=
  let b := note_plain_char now b in
  if active b then (extend_window now b, Some BufferAppend)
  else if (PASTE_BURST_MIN_CHARS <=? consecutive_plain_char_burst b)%N
  then (b, Some (BeginBuffer (consecutive_plain_char_burst b - 1)))
  else (b, None).

Definition append_char_to_buffer (ch : char) (now : Instant) (b : PasteBurst) : PasteBurst :=
  mkBurst (last_plain_char_time b) (consecutive_plain_char_burst b)
    (Some (now + PASTE_ENTER_SUPPRESS_WINDOW)%N) (buffer b ++ [ch]) (active b) (pending_first_char b).

Definition try_append_char_if_active (ch : char) (now : Instant) (b : PasteBurst)
    : PasteBurst * bool :=
  if active b || negb (is_empty (buffer b)) then (append_char_to_buffer ch now b, true)
  else (b, false).

Definition append_control_char_if_active (ch : char) (now : Instant) (b : PasteBurst)
    : PasteBurst * bool :=
  if is_active b then
    let held := match pending_first_char b with Some (held, _) => [held] | None => [] end in
    (mkBurst (Some now) (consecutive_plain_char_burst b)
       (Some (now + PASTE_ENTER_SUPPRESS_WINDOW)%N) (buffer b ++ held ++ [ch]) true None, true)
  else (b, false).

Definition newline_should_insert_instead_of_submit (now : Instant) (b : PasteBurst) : bool :=
  is_active b || match burst_window_until b with Some until => (now <=? until)%N | None => false end.

Definition direct_insert_newline_should_insert (now : Instant) (b : PasteBurst) : bool :=
  newline_should_insert_instead_of_submit now b
  || match last_plain_char_time b with
     | Some t => (duration_since now t <=? PASTE_BURST_CHAR_INTERVAL)%N
     | None => false
     end.

Definition begin_with_retro_grabbed (g : str) (now : Instant) (b : PasteBurst) : PasteBurst :=
  mkBurst (last_plain_char_time b) (consecutive_plain_char_burst b)
    (Some (now + PASTE_ENTER_SUPPRESS_WINDOW)%N)
    (if is_empty g then buffer b else buffer b ++ g) true (pending_first_char b).

(** [char_indices]: the byte offset of each character. *)
Fixpoint char_indices_from (i : nat) (s : str) : list (nat * char) :=
  match s with
  | [] => []
  | c :: s => (i, c) :: char_indices_from (i + len_utf8 c) s
  end.
Definition char_indices (s : str) : list (nat * char) := char_indices_from 0 s.

Definition retro_start_index (before : str) (retro_chars : nat) : nat :=
  if retro_chars =? 0 then str_len before
  else default 0 (fst <$> reverse (char_indices before) !! (retro_chars - 1)).

(** [None] is the panic of slicing off a character boundary. *)
Definition decide_begin_buffer (now : Instant) (before : str) (retro_chars : nat) (b : PasteBurst)
    : option (PasteBurst * option RetroGrab) :=
  let start := retro_start_index before retro_chars in
  x ← split_at_byte before (N.of_nat start);
  let g := x.2 in
  let looks_pastey := existsb is_whitespace g || (16 <=? length g) in
  Some (if looks_pastey then (begin_with_retro_grabbed g now b, Some (mkGrab start g)) else (b, None)).

Definition flush_before_modified_input (b : PasteBurst) : PasteBurst * option str :=
  if is_active b then
    let held := match pending_first_char b with Some (ch, _) => [ch] | None => [] end in
    (mkBurst (last_plain_char_time b) (consecutive_plain_char_burst b) (burst_window_until b)
       [] false None, Some (buffer b ++ held))
  else (b, None).

Definition clear_window_after_non_char (b : PasteBurst) : PasteBurst :=
  mkBurst None 0 None (buffer b) false None.

Definition clear_after_explicit_paste (b : PasteBurst) : PasteBurst := mkBurst None 0 None [] false None.

(** * Pasted text

    [sanitize_user_text] of [history_cell/messages.rs]: control characters are dropped,
    apart from tabs and newlines, and so are CSI sequences: from [ESC] and a bracket to a
    character in [@..~], or to the end. *)
Definition ESC : char := 27%N.
Definition LEFT_BRACKET : char := 91%N.
Definition TAB : char := 9%N.
Definition is_control (c : char) : bool := ((c <? 32) || ((127 <=? c) && (c <=? 159)))%N.

Fixpoint sanitize_from (csi : bool) (s : str) : str :=
  match s with
  | [] => []
  | c :: s' =>
      if csi then sanitize_from (negb ((64 <=? c) && (c <=? 126))%N) s'
      else if (c =? ESC)%N then
        match s' with
        | x :: s'' => if (x =? LEFT_BRACKET)%N then sanitize_from true s'' else sanitize_from false s'
        | [] => []
        end
      else if is_control c && negb ((c =? LF) || (c =? TAB))%N then sanitize_from false s'
      else c :: sanitize_from false s'
  end.
Definition sanitize_user_text (s : str) : str := sanitize_from false s.

(** The pairs of [CR] and [LF], then the other [CR]s, become [LF]. *)
Fixpoint normalize_newlines (s : str) : str :=
  match s with
  | [] => []
  | c :: s' =>
      if (c =? CR)%N then
        LF :: match s' with
              | x :: s'' => if (x =? LF)%N then normalize_newlines s'' else normalize_newlines s'
              | [] => []
              end
      else c :: normalize_newlines s'
  end.

Definition LARGE_PASTE_CHAR_THRESHOLD : nat := 1000.

(** * The caller: the composer

    A key: a character, with or without a modifier that makes it a shortcut; Enter; Tab;
    or any other key. *)
Inductive Key (K : Type) : Type :=
| KeyChar (ch : char) (has_non_text_modifier : bool)
| KeyEnter
| KeyTab
| KeyOther (k : K).
Arguments KeyChar {K} ch has_non_text_modifier.
Arguments KeyEnter {K}.
Arguments KeyTab {K}.
Arguments KeyOther {K} k.

(** The draft, apart from the detector: textarea, attachments, placeholders, popups.
    - [begin_vim_edit] opens an undo step, when the textarea is not in normal mode;
    - [textarea_input]: a key handled normally, with the bookkeeping around it;
    - [input_non_ascii]: a character typed by the other path;
    - [leave_bash_mode]: Backspace at the start of a shell command, when it is that;
    - [insert_str] of the composer and [textarea_insert_str];
    - [insert_into_query]: when a history search or a Vim search is open;
    - [insert_large_paste]: a placeholder for the text;
    - [paste_image_path]: an attachment and a space, when the text names an image;
    - [retract_paste_burst]: the text from a byte offset to the cursor is taken back, unless
      that is refused. *)
Class Draft (K D : Type) := {
  allows_paste_burst : D → bool;
  before_cursor : D → str;
  begin_vim_edit : Key K → D → D;
  textarea_input : Key K → D → D;
  input_non_ascii : char → D → D;
  leave_bash_mode : K → D → option D;
  insert_str : str → D → D;
  textarea_insert_str : str → D → D;
  insert_into_query : str → D → option D;
  insert_large_paste : str → D → D;
  image_paste_enabled : D → bool;
  paste_image_path : str → D → option D;
  retract_paste_burst : nat → D → option D;
  in_slash_context : D → bool;
}.

(** What reaches the composer: a key, a tick, or a change of the setting. *)
Inductive Event (K : Type) : Type :=
| OnKey (key : Key K)
| OnTick
| SetDisabled (disabled : bool).
Arguments OnKey {K} key.
Arguments OnTick {K}.
Arguments SetDisabled {K} disabled.

(** [DraftState] of [chat_composer/draft_state.rs]: the setting, the detector and the rest. *)
Record DraftState (D : Type) : Type := mkDraftState {
  disable_paste_burst : bool;
  paste_burst : PasteBurst;
  draft_rest : D;
}.
Arguments mkDraftState {D} _ _ _.
Arguments disable_paste_burst {D} _.
Arguments paste_burst {D} _.
Arguments draft_rest {D} _.

Section Timed.
Context (windows : bool).

Definition flush_if_due (now : Instant) (b : PasteBurst) : PasteBurst * FlushResult :=
  let timeout :=
    if is_active_internal b then PASTE_BURST_ACTIVE_IDLE_TIMEOUT windows
    else PASTE_BURST_CHAR_INTERVAL in
  let timed_out :=
    match last_plain_char_time b with
    | Some t => (timeout <? duration_since now t)%N
    | None => false
    end in
  if timed_out && is_active_internal b then
    (mkBurst (last_plain_char_time b) (consecutive_plain_char_burst b) (burst_window_until b)
       [] false (pending_first_char b), FlushPaste (buffer b))
  else if timed_out then
    match pending_first_char b with
    | Some (ch, _) =>
        (mkBurst (last_plain_char_time b) (consecutive_plain_char_burst b) (burst_window_until b)
           (buffer b) (active b) None, FlushTyped ch)
    | None => (b, FlushNone)
    end
  else (b, FlushNone).

(** * Handling keys *)

Section Composer.
Context {K D : Type} {DR : Draft K D}.
Implicit Types (b : PasteBurst) (d : D) (c : DraftState D).

(** The part of [apply_paste] that changes the draft. *)
Definition insert_paste (pasted : str) d : D :=
  if LARGE_PASTE_CHAR_THRESHOLD <? length pasted then insert_large_paste pasted d
  else
    let image := if (1 <? length pasted) && image_paste_enabled d then paste_image_path pasted d else None in
    default (insert_str pasted d) image.

Definition apply_paste (pasted : str) b d : PasteBurst * D :=
  let pasted := sanitize_user_text (normalize_newlines pasted) in
  match insert_into_query pasted d with
  | Some d => (b, d)
  | None => (clear_after_explicit_paste b, insert_paste pasted d)
  end.

(** [handle_paste]: a paste that the terminal reports as such. *)
Definition handle_paste (pasted : str) c : DraftState D :=
  let (b, d) := apply_paste pasted (paste_burst c) (draft_rest c) in
  mkDraftState (disable_paste_burst c) b d.

(** [handle_paste_burst_flush]. *)
Definition handle_paste_burst_flush (now : Instant) b d : PasteBurst * D :=
  let (b, r) := flush_if_due now b in
  match r with
  | FlushPaste pasted => apply_paste pasted b d
  | FlushTyped ch => (b, insert_str [ch] d)
  | FlushNone => (b, d)
  end.

(** [if let Some(pasted) = flush_before_modified_input() { apply_paste(pasted) }]. *)
Definition flush_and_apply b d : PasteBurst * D :=
  let (b, r) := flush_before_modified_input b in
  match r with
  | Some pasted => apply_paste pasted b d
  | None => (b, d)
  end.

(** The [BeginBuffer] arm of both handlers: [Some (b, d, true)] when the character was
    buffered, [None] a panic. *)
Definition begin_buffer (ch : char) (now : Instant) (retro_chars : N) b d
    : option (PasteBurst * D * bool) :=
  x ← decide_begin_buffer now (before_cursor d) (N.to_nat retro_chars) b;
  let (b, grab) := (x : PasteBurst * option RetroGrab) in
  Some (match grab with
        | Some g =>
            if is_empty (grabbed g) then (append_char_to_buffer ch now b, d, true)
            else
              match retract_paste_burst (start_byte g) d with
              | Some d => (append_char_to_buffer ch now b, d, true)
              | None => (clear_after_explicit_paste b, d, false)
              end
        | None => (b, d, false)
        end).

(** [handle_non_ascii_char]; the last arm of its [match] is [unreachable!]. *)
Definition handle_non_ascii_char (disabled : bool) (ch : char) (now : Instant) b d : option (PasteBurst * D) :=
  if disabled then Some (b, input_non_ascii ch d)
  else
    let (b, appended) := try_append_char_if_active ch now b in
    if appended : bool then Some (b, d)
    else
      let (b, d) := flush_and_apply b d in
      let (b, decision) := on_plain_char_no_hold now b in
      x ← match decision with
          | Some BufferAppend => Some (append_char_to_buffer ch now b, d, true)
          | Some (BeginBuffer retro_chars) => begin_buffer ch now retro_chars b d
          | Some _ => None
          | None => Some (b, d, false)
          end;
      let '(b, d, buffered) := (x : PasteBurst * D * bool) in
      Some (if buffered then (b, d)
            else
              let (b, d) := flush_and_apply b d in
              (b, input_non_ascii ch d)).

(** The ASCII arm of [handle_input_basic_with_time]. *)
Definition handle_ascii_char (ch : char) (now : Instant) b d : option (PasteBurst * D) :=
  let (b, decision) := on_plain_char ch now b in
  match decision with
  | BufferAppend | BeginBufferFromPending => Some (append_char_to_buffer ch now b, d)
  | RetainFirstChar => Some (b, d)
  | BeginBuffer retro_chars =>
      x ← begin_buffer ch now retro_chars b d;
      let '(b, d, buffered) := (x : PasteBurst * D * bool) in
      Some (if buffered then (b, d)
            else
              let (b, d) := flush_and_apply b d in
              (b, textarea_input (KeyChar ch false) d))
  end.

(** [handle_input_basic_with_time]: the flow of a key through burst detection to the
    textarea. [None] is a panic. *)
Definition handle_input_basic_with_time (disabled : bool) (key : Key K) (now : Instant) b d
    : option (PasteBurst * D) :=
  let (b, d) := handle_paste_burst_flush now b (begin_vim_edit key d) in
  match key with
  | KeyEnter =>
      let (b', appended) := append_control_char_if_active LF now b in
      Some (if negb disabled && is_active b && appended then (b', d) else (b, textarea_input KeyEnter d))
  | KeyChar ch has_non_text_modifier =>
      if negb has_non_text_modifier && negb disabled && allows_paste_burst d then
        if (128 <=? ch)%N then handle_non_ascii_char disabled ch now b d
        else handle_ascii_char ch now b d
      else
        let (b, d) := flush_and_apply b d in
        let d := textarea_input key d in
        Some (if has_non_text_modifier then (clear_window_after_non_char b, d) else (b, d))
  | KeyTab =>
      let (b, d) := flush_and_apply b d in
      Some (clear_window_after_non_char b, textarea_input key d)
  | KeyOther k =>
      let (b, d) := flush_and_apply b d in
      match leave_bash_mode k d with
      | Some d => Some (b, d)
      | None => Some (clear_window_after_non_char b, textarea_input key d)
      end
  end.

(** [handle_paste_tab]: whether the Tab belongs to a burst. *)
Definition handle_paste_tab (disabled : bool) (now : Instant) b d : PasteBurst * D * bool :=
  if disabled || negb (allows_paste_burst d) then (b, d, false)
  else
    let (b, d) := handle_paste_burst_flush now b d in
    let (b', appended) := append_control_char_if_active TAB now b in
    if appended : bool then (b', d, true)
    else if direct_insert_newline_should_insert now b then
      let (b, appended) := append_control_char_if_active TAB now (begin_with_retro_grabbed [] now b) in
      (b, d, appended)
    else (b, d, false).

(** [handle_paste_enter]: whether the Enter belongs to a burst instead of submitting. *)
Definition handle_paste_enter (disabled : bool) (now : Instant) b d : PasteBurst * D * bool :=
  let (b', appended) := append_control_char_if_active LF now b in
  if negb disabled && is_active b && negb (in_slash_context d) && appended then (b', d, true)
  else if negb (in_slash_context d) && negb disabled && newline_should_insert_instead_of_submit now b
  then (extend_window now b, textarea_insert_str [LF] d, true)
  else (b, d, false).

(** [set_disable_paste_burst]. *)
Definition set_disable_paste_burst (disabled : bool) c : DraftState D :=
  if disabled && negb (disable_paste_burst c) then
    let (b, d) := flush_and_apply (paste_burst c) (draft_rest c) in
    mkDraftState disabled (clear_after_explicit_paste b) d
  else mkDraftState disabled (paste_burst c) (draft_rest c).

(** A key, when no popup, search or binding takes it: Tab is offered to the burst first. *)
Definition handle_key (disabled : bool) (key : Key K) (now : Instant) b d : option (PasteBurst * D) :=
  match key with
  | KeyTab =>
      let '(b, d, handled) := handle_paste_tab disabled now b d in
      if handled : bool then Some (b, d) else handle_input_basic_with_time disabled KeyTab now b d
  | _ => handle_input_basic_with_time disabled key now b d
  end.

Definition handle_event (e : Event K) (now : Instant) c : option (DraftState D) :=
  match e with
  | OnKey key =>
      x ← handle_key (disable_paste_burst c) key now (paste_burst c) (draft_rest c);
      Some (mkDraftState (disable_paste_burst c) x.1 x.2)
  | OnTick =>
      let (b, d) := handle_paste_burst_flush now (paste_burst c) (draft_rest c) in
      Some (mkDraftState (disable_paste_burst c) b d)
  | SetDisabled disabled => Some (set_disable_paste_burst disabled c)
  end.

Fixpoint handle_events (es : list (Event K * Instant)) c : option (DraftState D) :=
  match es with
  | [] => Some c
  | (e, now) :: es => c ← handle_event e now c; handle_events es c
  end.
End Composer.
End Timed.
