(* ===== verification/PasteBurstFacts.v ===== *)
(** Burst detection is invisible in the end: the composer refines an editor in which
    every key takes effect at once, and nothing is held back for long. *)
From stdpp Require Import base list numbers strings.
From S2P Require Import Prelude RustStr PasteBurst.

(** * The grabbed text *)
Lemma char_indices_lookup i s k c :
  s !! k = Some c → char_indices_from i s !! k = Some (i + str_len (take k s), c).
Proof.
  revert i k. induction s as [|x s IH]; intros i [|k] Hk; simplify_eq/=.
  - f_equal. f_equal. unfold str_len. simpl. lia.
  - rewrite (IH _ _ Hk). unfold str_len. simpl. do 2 f_equal. lia.
Qed.

Lemma length_char_indices i s : length (char_indices_from i s) = length s.
Proof. revert i. induction s; intros i; simpl; auto. Qed.

(** The retro-grabbed text is the last [n] characters. *)
Lemma retro_start_index_split s n :
  split_at_byte s (N.of_nat (retro_start_index s n))
  = Some (take (length s - n) s, drop (length s - n) s).
Proof.
  assert (Hk : ∀ k, retro_start_index s n = str_len (take k s) →
    split_at_byte s (N.of_nat (retro_start_index s n)) = Some (take k s, drop k s)).
  { intros k ->. rewrite <- (take_drop k s) at 1. apply split_at_byte_app. }
  apply Hk. unfold retro_start_index. destruct n as [|n]; simpl.
  { by rewrite Nat.sub_0_r, take_ge. }
  destruct (decide (S n ≤ length s)) as [Hn|Hn].
  - destruct (lookup_lt_is_Some_2 s (length s - S n)) as [c Hc]; [lia|].
    rewrite reverse_lookup by (unfold char_indices; rewrite length_char_indices; lia).
    unfold char_indices. rewrite length_char_indices.
    replace (length s - S (n - 0)) with (length s - S n) by lia.
    by rewrite (char_indices_lookup _ _ _ _ Hc).
  - rewrite lookup_ge_None_2 by (rewrite length_reverse; unfold char_indices; rewrite length_char_indices; lia).
    replace (length s - S n) with 0 by lia. done.
Qed.

(** * The invariant of the state machine *)

(** The text that was typed and is not in the draft yet. *)
Definition held (b : PasteBurst) : str :=
  buffer b ++ match pending_first_char b with Some (c, _) => [c] | None => [] end.

(** A held first character is the last thing that was typed and nothing is buffered
    beside it, buffered text belongs to an active burst, and there is a time to wait from
    when text is held; [t] bounds that time. *)
Record BurstOk (t : Instant) (b : PasteBurst) : Prop := {
  bo_pending c at' : pending_first_char b = Some (c, at') →
    last_plain_char_time b = Some at' ∧ buffer b = [] ∧ active b = false;
  bo_buffer : buffer b ≠ [] → active b = true;
  bo_active : active b = true → is_Some (last_plain_char_time b);
  bo_time t' : last_plain_char_time b = Some t' → (t' <= t)%N;
}.

Lemma BurstOk_default t : BurstOk t default_burst.
Proof. by split. Qed.

Lemma BurstOk_mono t t' b : (t <= t')%N → BurstOk t b → BurstOk t' b.
Proof. intros Ht [? ? ? Hb]. split; [done..|]. intros x Hx. specialize (Hb x Hx). lia. Qed.

Lemma is_active_internal_active t b : BurstOk t b → is_active_internal b = active b.
Proof.
  intros [_ Hb _ _]. unfold is_active_internal. destruct (active b); [done|].
  destruct (buffer b); [done|]. simpl in *. by rewrite Hb.
Qed.

Lemma inactive_held b : is_active b = false → held b = [] ∧ active b = false ∧ buffer b = [] ∧ pending_first_char b = None.
Proof.
  unfold is_active, is_active_internal, held. destruct (active b), (buffer b), (pending_first_char b); simpl; try done.
Qed.

(** * The editor

    What the composer relies on. An editor state [A] with the operations a user sees: a key
    applied at once ([edit]), a paste, and a character inserted. [typed g d a]: the draft [d]
    stands for [a] followed by the characters [g], which were typed one by one and are the
    text before the cursor. In a mode that takes text, plain characters and Enter insert
    themselves, no search is open, and taking back characters that were just typed leaves
    the state before them. *)
Definition type_all {A} (type_char : char → A → A) (s : str) (a : A) : A := foldl (λ a c, type_char c a) a s.

Class ImmediateEditor (K D A : Type) `{Draft K D} := {
  text_mode : A → bool;
  type_char : char → A → A;
  edit : Key K → A → A;
  paste : str → A → A;
  insert_char : char → A → A;
  typed : str → D → A → Prop;
  text_mode_type c a : text_mode (type_char c a) = text_mode a;
  text_mode_insert c a : text_mode (insert_char c a) = text_mode a;
  text_mode_paste s a : text_mode (paste s a) = text_mode a;
  edit_char c a : text_mode a = true → edit (KeyChar c false) a = type_char c a;
  edit_enter a : text_mode a = true → edit KeyEnter a = type_char LF a;
  typed_nil g d a : typed g d a → typed [] d (type_all type_char g a);
  typed_mode d a : typed [] d a → allows_paste_burst d = text_mode a;
  typed_before g d a : typed g d a → ∃ pre, before_cursor d = pre ++ g;
  typed_begin g k d a : typed g d a → typed g (begin_vim_edit k d) a;
  typed_input k d a : typed [] d a → typed [] (textarea_input k d) (edit k a);
  typed_char g c d a : typed g d a → g ≠ [] → text_mode a = true →
    typed (g ++ [c]) (textarea_input (KeyChar c false) d) a;
  typed_non_ascii g c d a : typed g d a → (128 <= c)%N → text_mode a = true →
    typed (g ++ [c]) (input_non_ascii c d) a;
  typed_enter g d a : typed g d a → text_mode a = true →
    typed (g ++ [LF]) (textarea_input KeyEnter d) a ∧ typed (g ++ [LF]) (textarea_insert_str [LF] d) a;
  typed_bash k d d' a : typed [] d a → leave_bash_mode k d = Some d' →
    before_cursor d = [] ∧ text_mode (edit (KeyOther k) a) = text_mode a ∧ typed [] d' (edit (KeyOther k) a);
  typed_query s d a : typed [] d a → text_mode a = true → insert_into_query s d = None;
  typed_insert c d a : typed [] d a → text_mode a = true → typed [] (insert_str [c] d) (insert_char c a);
  typed_paste s d a : typed [] d a → text_mode a = true →
    typed [] (insert_paste (sanitize_user_text (normalize_newlines s)) d) (paste s a);
  typed_retract g1 g2 d d' a n pre : typed (g1 ++ g2) d a → text_mode a = true →
    split_at_byte (before_cursor d) n = Some (pre, g2) → retract_paste_burst (N.to_nat n) d = Some d' →
    typed [] d' (type_all type_char g1 a);
}.

(** ** What a sequence of events may do

    The text that events type: characters, Enter and Tab; ticks and changes of the setting
    type nothing; other keys are not text. *)
Definition event_text {K} (e : Event K) : option str :=
  match e with
  | OnKey (KeyChar c false) => Some [c]
  | OnKey KeyEnter => Some [LF]
  | OnKey KeyTab => Some [TAB]
  | OnKey _ => None
  | OnTick | SetDisabled _ => Some []
  end.

Definition text_of {K} (es : list (Event K)) : option str :=
  foldr (λ e r, x ← event_text e; y ← r; Some (x ++ y)) (Some []) es.

(** The events take effect in their order: each key at once, or a run of text pasted as a
    whole, or its one character inserted. *)
Inductive Edits {K D A} `{ImmediateEditor K D A} : list (Event K) → A → A → Prop :=
| edits_nil a : Edits [] a a
| edits_key es k a a' : Edits es a a' → Edits (es ++ [OnKey k]) a (edit k a')
| edits_silent es e a a' : Edits es a a' → event_text e = Some [] → Edits (es ++ [e]) a a'
| edits_paste es run s a a' : Edits es a a' → text_mode a' = true → text_of run = Some s →
    Edits (es ++ run) a (paste s a')
| edits_insert es run c a a' : Edits es a a' → text_mode a' = true → text_of run = Some [c] →
    Edits (es ++ run) a (insert_char c a').

Lemma text_of_app {K} (r1 r2 : list (Event K)) s1 s2 :
  text_of r1 = Some s1 → text_of r2 = Some s2 → text_of (r1 ++ r2) = Some (s1 ++ s2).
Proof.
  intros H1 H2. revert s1 H1. induction r1 as [|e r1 IH]; simpl; intros s1 H1; [by simplify_eq|].
  destruct (event_text e) as [x|]; [|done]. simpl in *. destruct (text_of r1) as [y|]; [|done]. simplify_eq/=.
  rewrite (IH y eq_refl). simpl. by rewrite app_assoc.
Qed.

Lemma event_text_short {K} (e : Event K) s : event_text e = Some s → s = [] ∨ ∃ c, s = [c].
Proof. destruct e as [[? []| | |]| |]; simpl; intros; simplify_eq; eauto. Qed.

(** A run can be cut wherever its text can. *)
Lemma text_of_split {K} (run : list (Event K)) g1 g2 : text_of run = Some (g1 ++ g2) →
  ∃ r1 r2, run = r1 ++ r2 ∧ text_of r1 = Some g1 ∧ text_of r2 = Some g2.
Proof.
  revert g1. induction run as [|e run IH]; intros g1.
  { simpl. intros [= E]. symmetry in E. apply app_nil in E as [-> ->]. by exists [], []. }
  destruct g1 as [|c g1]; [intros E; by exists [], (e :: run)|].
  simpl. destruct (event_text e) as [x|] eqn:Ee; [|done]. destruct (text_of run) as [y|]; [|done]. simpl.
  intros [= E]. destruct (event_text_short e x Ee) as [->|[c' ->]]; simpl in E; subst.
  - destruct (IH (c :: g1) eq_refl) as (r1 & r2 & -> & H1 & H2). exists (e :: r1), r2. simpl. by rewrite Ee, H1.
  - injection E as -> ->. destruct (IH g1 eq_refl) as (r1 & r2 & -> & H1 & H2).
    exists (e :: r1), r2. simpl. by rewrite Ee, H1.
Qed.

Section Refinement.
Context {K D A : Type} `{IE : ImmediateEditor K D A} (windows : bool).
Implicit Types (b : PasteBurst) (d : D) (a : A) (t now : Instant) (es run : list (Event K)) (g : str) (m : bool).

(** Runs of keys that are typed: Tab is not. *)
Definition typing run : Prop := Forall (λ e, e ≠ OnKey KeyTab) run.

Lemma edits_typed es run g a a1 : Edits es a a1 → typing run → text_of run = Some g →
  (g ≠ [] → text_mode a1 = true) → Edits (es ++ run) a (type_all type_char g a1).
Proof.
  intros He Hty. revert es g a1 He. induction Hty as [|e run Hne Hty IH]; intros es g a1 He; simpl.
  { intros [= <-] _. by rewrite app_nil_r. }
  destruct (event_text e) as [x|] eqn:Ee; [|done]. destruct (text_of run) as [y|]; [|done]. simpl.
  intros [= <-] Hm. rewrite (app_assoc es [e] run : es ++ e :: run = _).
  destruct (event_text_short e x Ee) as [->|[c ->]].
  - apply (IH _ y); [by apply edits_silent|done|done].
  - assert (Edits (es ++ [e]) a (type_char c a1)) as He'.
    { assert (text_mode a1 = true) as Ht by by apply Hm.
      destruct e as [[c' []| | |]| |]; simplify_eq/=; [rewrite <- edit_char|rewrite <- edit_enter];
        by try apply edits_key. }
    apply (IH _ y); [done..|]. intros _. rewrite text_mode_type. by apply Hm.
Qed.

(** The draft stands for the events, and [g] are the characters at the end of it that were
    typed one by one; [m] is its mode. *)
Definition Drawn es a g d m : Prop :=
  ∃ es0 run a1, es = es0 ++ run ∧ Edits es0 a a1 ∧ typing run ∧ text_of run = Some g ∧ typed g d a1
    ∧ text_mode a1 = m ∧ (g ≠ [] → m = true).

Lemma text_mode_types g a : text_mode (type_all type_char g a) = text_mode a.
Proof. revert a. unfold type_all. induction g as [|c g IH]; intros a; simpl; [done|]. by rewrite IH, text_mode_type. Qed.

Lemma Drawn_edits es a g d m : Drawn es a g d m →
  ∃ a', Edits es a a' ∧ typed [] d a' ∧ text_mode a' = m.
Proof.
  intros (es0 & run & a1 & -> & He & Hty & Hr & Hd & <- & Hg). exists (type_all type_char g a1).
  split; [by apply edits_typed|]. split; [by apply typed_nil|apply text_mode_types].
Qed.

Lemma Drawn_start es a a' d : Edits es a a' → typed [] d a' → Drawn es a [] d (text_mode a').
Proof. intros He Hd. exists es, [], a'. rewrite app_nil_r. split_and!; try done. constructor. Qed.

Lemma Drawn_mode es a g d m : Drawn es a g d m → allows_paste_burst d = m.
Proof. intros (a' & _ & Hd & <-)%Drawn_edits. by apply typed_mode. Qed.

Lemma Drawn_begin es a g d m k : Drawn es a g d m → Drawn es a g (begin_vim_edit k d) m.
Proof. intros (es0 & run & a1 & -> & He & Hty & Hr & Hd & Hm). exists es0, run, a1. split_and!; try done; [by apply typed_begin|apply Hm..]. Qed.

Lemma Drawn_silent es es' a g d m : Drawn es a g d m → text_of es' = Some [] → Drawn (es ++ es') a g d m.
Proof.
  intros (es0 & run & a1 & -> & He & Hty & Hr & Hd & Hm) Hs. exists es0, (run ++ es'), a1.
  rewrite app_assoc. split_and!; [done|done| |by rewrite <- (app_nil_r g); apply text_of_app|done|apply Hm..].
  apply Forall_app. split; [done|]. clear -Hs. induction es' as [|e es' IH]; [constructor|]. simpl in Hs.
  destruct (event_text e) as [x|] eqn:Ee; [|done]. destruct (text_of es') as [y|]; [|done]. simplify_eq/=.
  destruct x, y; try done. constructor; [by intros ->|by apply IH].
Qed.

(** A key that is not text, or a character where no run has to be kept. *)
Lemma Drawn_key es a g d m k : Drawn es a g d m → ∃ m', Drawn (es ++ [OnKey k]) a [] (textarea_input k d) m'.
Proof.
  intros (a' & He & Hd & _)%Drawn_edits. eexists. eapply Drawn_start; [by apply edits_key|by apply typed_input].
Qed.

(** One more character typed. *)
Lemma Drawn_snoc es a g d d' e c : Drawn es a g d true → e ≠ OnKey KeyTab → event_text e = Some [c] →
  (∀ a1, typed g d a1 → text_mode a1 = true → typed (g ++ [c]) d' a1) →
  Drawn (es ++ [e]) a (g ++ [c]) d' true.
Proof.
  intros (es0 & run & a1 & -> & He & Hty & Hr & Hd & Hm & _) Hne Ee Hd'. exists es0, (run ++ [e]), a1.
  rewrite app_assoc. split_and!; [done|done|by apply Forall_app; split; [|by constructor]| |by apply Hd'|done|done].
  apply text_of_app; [done|]. simpl. by rewrite Ee.
Qed.

Lemma Drawn_char es a g d c : Drawn es a g d true → g ≠ [] →
  Drawn (es ++ [OnKey (KeyChar c false)]) a (g ++ [c]) (textarea_input (KeyChar c false) d) true.
Proof. intros Hd Hg. eapply Drawn_snoc; [done..|]. intros. by apply typed_char. Qed.

Lemma Drawn_non_ascii es a g d c : Drawn es a g d true → (128 <= c)%N →
  Drawn (es ++ [OnKey (KeyChar c false)]) a (g ++ [c]) (input_non_ascii c d) true.
Proof. intros Hd Hc. eapply Drawn_snoc; [done..|]. intros. by apply typed_non_ascii. Qed.

Lemma Drawn_enter es a g d : Drawn es a g d true →
  Drawn (es ++ [OnKey KeyEnter]) a (g ++ [LF]) (textarea_input KeyEnter d) true
  ∧ Drawn (es ++ [OnKey KeyEnter]) a (g ++ [LF]) (textarea_insert_str [LF] d) true.
Proof. intros Hd. by split; (eapply Drawn_snoc; [done..|]); intros; apply typed_enter. Qed.

(** Taking back the end of what was typed. *)
Lemma Drawn_retract es a g1 g2 d d' n pre : Drawn es a (g1 ++ g2) d true →
  split_at_byte (before_cursor d) n = Some (pre, g2) → retract_paste_burst (N.to_nat n) d = Some d' →
  ∃ es1 es2, es = es1 ++ es2 ∧ text_of es2 = Some g2 ∧ Drawn es1 a [] d' true.
Proof.
  intros (es0 & run & a1 & -> & He & Hty & Hr & Hd & Hm & _) Hs Hx.
  destruct (text_of_split _ _ _ Hr) as (r1 & r2 & -> & H1 & H2). apply Forall_app in Hty as [Hty1 _].
  exists (es0 ++ r1), r2. rewrite app_assoc. split_and!; [done..|].
  rewrite <- Hm, <- (text_mode_types g1). eapply Drawn_start; [by apply edits_typed|]. by eapply typed_retract.
Qed.

(** Text that was held is pasted, or a held character inserted. *)
Lemma Drawn_paste es es' a g d s b : Drawn es a g d true → text_of es' = Some s →
  ∃ d', apply_paste s b d = (default_burst, d') ∧ Drawn (es ++ es') a [] d' true.
Proof.
  intros (a' & He & Hd & Hm)%Drawn_edits Hs. unfold apply_paste. rewrite (typed_query _ _ _ Hd Hm).
  eexists _. split; [done|]. rewrite <- Hm, <- (text_mode_paste s a'). eapply Drawn_start; [by eapply edits_paste|by apply typed_paste].
Qed.

Lemma Drawn_insert es es' a g d c : Drawn es a g d true → text_of es' = Some [c] →
  Drawn (es ++ es') a [] (insert_str [c] d) true.
Proof.
  intros (a' & He & Hd & Hm)%Drawn_edits Hs. rewrite <- Hm, <- (text_mode_insert c a').
  eapply Drawn_start; [by apply edits_insert|by apply typed_insert].
Qed.

Lemma Drawn_before es a g d m : Drawn es a g d m → ∃ pre, before_cursor d = pre ++ g.
Proof. intros (es0 & run & a1 & -> & He & Hty & Hr & Hd & _). by eapply typed_before. Qed.

(** ** The simulation

    [recent]: the next character would continue the burst. *)
Definition recent t b : Prop := ∃ l, last_plain_char_time b = Some l ∧ (t <= l + PASTE_BURST_CHAR_INTERVAL)%N.

(** The draft stands for the events up to those whose text is held. Outside a burst, the
    characters that are counted towards one were typed one by one at its end, and nothing is
    counted when there is no burst detection. *)
Record Sim t es a m (x : bool) b d : Prop := {
  sim_ok : BurstOk t b;
  sim_mode : is_active b = true → m = true ∧ x = false;
  sim_quiet : m = false ∨ x = true → last_plain_char_time b = None ∧ burst_window_until b = None;
  sim_draft : ∃ es1 es2 g, es = es1 ++ es2 ∧ text_of es2 = Some (held b) ∧ Drawn es1 a g d m
    ∧ (is_active b = false → recent t b → N.to_nat (consecutive_plain_char_burst b) ≤ length g);
}.

Lemma Sim_idle t es a m x b d g : BurstOk t b → is_active b = false → Drawn es a g d m →
  (recent t b → N.to_nat (consecutive_plain_char_burst b) ≤ length g) →
  (m = false ∨ x = true → last_plain_char_time b = None ∧ burst_window_until b = None) → Sim t es a m x b d.
Proof.
  intros Hb Hi Hd Hc Hq. split; [done|by rewrite Hi|done|]. exists es, [], g. rewrite app_nil_r.
  by destruct (inactive_held b Hi) as [-> _].
Qed.

Lemma Sim_cleared t es a m x b d g : BurstOk t b → is_active b = false → Drawn es a g d m →
  last_plain_char_time b = None → burst_window_until b = None → Sim t es a m x b d.
Proof.
  intros Hb Hi Hd Hl Hw. eapply Sim_idle; [done..| |done]. intros (l & E & _). congruence.
Qed.

Lemma Sim_default t es a m x d g : Drawn es a g d m → Sim t es a m x default_burst d.
Proof. intros Hd. eapply Sim_cleared; [apply BurstOk_default|done..]. Qed.

Lemma Sim_run t es a m x b d : Sim t es a m x b d → is_active b = false →
  ∃ g, Drawn es a g d m ∧ (recent t b → N.to_nat (consecutive_plain_char_burst b) ≤ length g).
Proof.
  intros [_ _ _ (es1 & es2 & g & -> & Hs & Hd & Hc)] Hi. exists g.
  destruct (inactive_held b Hi) as [E _]. rewrite E in Hs. split; [by apply Drawn_silent|auto].
Qed.

Lemma Sim_mono t t' es a m x b d : (t <= t')%N → Sim t es a m x b d → Sim t' es a m x b d.
Proof.
  intros Ht [Hb Hm Hq (es1 & es2 & g & He & Hs & Hd & Hc)]. split; [by eapply BurstOk_mono|done..|].
  exists es1, es2, g. split_and!; [done..|]. intros Hi (l & El & Hl). apply Hc; [done|]. exists l. split; [done|lia].
Qed.

Lemma Sim_begin t es a m x b d k : Sim t es a m x b d → Sim t es a m x b (begin_vim_edit k d).
Proof.
  intros [Hb Hm Hq (es1 & es2 & g & He & Hs & Hd & Hc)]. split; [done..|]. exists es1, es2, g.
  split_and!; [done..|by apply Drawn_begin|done].
Qed.

Lemma Sim_silent t es a m x b d e : Sim t es a m x b d → event_text e = Some [] → Sim t (es ++ [e]) a m x b d.
Proof.
  intros [Hb Hm Hq (es1 & es2 & g & -> & Hs & Hd & Hc)] Ee. split; [done..|]. exists es1, (es2 ++ [e]), g.
  rewrite app_assoc. split_and!; [done| |done..]. rewrite <- (app_nil_r (held b)). apply text_of_app; [done|].
  simpl. by rewrite Ee.
Qed.

Lemma Sim_allows t es a m x b d : Sim t es a m x b d → allows_paste_burst d = m.
Proof. intros [_ _ _ (es1 & es2 & g & _ & _ & Hd & _)]. by eapply Drawn_mode. Qed.

(** One more character in the buffer. *)
Lemma Sim_append t es a b b' d e ch : Sim t es a true false b d → BurstOk t b' → is_active b' = true →
  held b' = held b ++ [ch] → event_text e = Some [ch] → Sim t (es ++ [e]) a true false b' d.
Proof.
  intros [_ _ _ (es1 & es2 & g & -> & Hs & Hd & _)] Hb Hi Hh Ee. split; [done|done|by intros []|].
  exists es1, (es2 ++ [e]), g. rewrite app_assoc, Hi, Hh. split_and!; [done| |done|done].
  apply text_of_app; [done|]. simpl. by rewrite Ee.
Qed.

(** ** Flushing *)
Lemma active_pending t b : BurstOk t b → active b = true → pending_first_char b = None.
Proof.
  intros Hb Ha. destruct (pending_first_char b) as [[c at']|] eqn:Hp; [|done].
  destruct (bo_pending _ _ Hb c at' Hp) as (_ & _ & ?). congruence.
Qed.

(** Held text is pasted as a whole. *)
Lemma paste_held t t' es a m x b b' d : Sim t es a m x b d → is_active b = true →
  ∃ d', apply_paste (held b) b' d = (default_burst, d') ∧ Sim t' es a m x default_burst d'.
Proof.
  intros Hs Hi. destruct (sim_mode _ _ _ _ _ _ _ Hs Hi) as [-> ->].
  destruct (sim_draft _ _ _ _ _ _ _ Hs) as (es1 & es2 & g & -> & Ht & Hd & _).
  destruct (Drawn_paste es1 es2 a g d (held b) b' Hd Ht) as (d' & E & Hd'). exists d'. split; [done|].
  by eapply Sim_default.
Qed.

Lemma flush_and_apply_sim t es a m x b d : Sim t es a m x b d →
  let (b', d') := flush_and_apply b d in
  Sim t es a m x b' d' ∧ is_active b' = false ∧ (is_active b = false → b' = b ∧ d' = d).
Proof.
  intros Hs. unfold flush_and_apply, flush_before_modified_input. destruct (is_active b) eqn:Hi; [|done].
  destruct (paste_held t t es a m x b (mkBurst (last_plain_char_time b) (consecutive_plain_char_burst b)
    (burst_window_until b) [] false None) d Hs Hi) as (d' & E & Hs'). unfold held in E. by rewrite E.
Qed.

Lemma inactive_flush b d : is_active b = false → flush_and_apply b d = (b, d).
Proof. intros Hi. unfold flush_and_apply, flush_before_modified_input. by rewrite Hi. Qed.

Lemma pending_active b c at' : pending_first_char b = Some (c, at') → is_active b = true.
Proof. intros Hp. unfold is_active. rewrite Hp. apply orb_true_r. Qed.

(** A held character that is due is inserted. *)
Lemma insert_held t now es a m x b d c at' : Sim t es a m x b d → (t <= now)%N →
  pending_first_char b = Some (c, at') → (PASTE_BURST_CHAR_INTERVAL < now - at')%N →
  Sim now es a m x (mkBurst (last_plain_char_time b) (consecutive_plain_char_burst b) (burst_window_until b)
    (buffer b) (active b) None) (insert_str [c] d).
Proof.
  intros Hs Ht Hp Hdue. pose proof (sim_ok _ _ _ _ _ _ _ Hs) as Hb.
  destruct (bo_pending _ _ Hb _ _ Hp) as (Hl & Hbuf & Ha).
  destruct (sim_mode _ _ _ _ _ _ _ Hs (pending_active _ _ _ Hp)) as [-> ->].
  destruct (sim_draft _ _ _ _ _ _ _ Hs) as (es1 & es2 & g & -> & Htx & Hd & _).
  unfold held in Htx. rewrite Hp, Hbuf in Htx. rewrite Hbuf, Ha.
  eapply Sim_idle; [|done|by eapply Drawn_insert| |by intros []].
  - split; [done..|]. simpl. intros t' Ht'. pose proof (bo_time _ _ Hb _ Ht'). lia.
  - intros (l & El & Hr). simpl in El. simplify_eq. lia.
Qed.

Lemma flush_sim t now es a m x b d : Sim t es a m x b d → (t <= now)%N →
  let (b', d') := handle_paste_burst_flush windows now b d in
  Sim now es a m x b' d' ∧
  (∀ c at', pending_first_char b' = Some (c, at') →
    (duration_since now at' <=? PASTE_BURST_CHAR_INTERVAL)%N = true) ∧
  ((t + PASTE_BURST_ACTIVE_IDLE_TIMEOUT windows < now)%N → is_active b' = false).
Proof.
  intros Hs Ht. pose proof (sim_ok _ _ _ _ _ _ _ Hs) as Hb. unfold handle_paste_burst_flush, flush_if_due.
  rewrite (is_active_internal_active t b Hb). unfold duration_since. destruct (active b) eqn:Ha.
  - pose proof (active_pending t b Hb Ha) as Hp.
    destruct (bo_active _ _ Hb Ha) as [l Hl]. rewrite Hl. cbv zeta. rewrite andb_true_r.
    assert (Hact : is_active b = true) by (unfold is_active, is_active_internal; by rewrite Ha).
    assert (Hh : held b = buffer b) by (unfold held; by rewrite Hp, app_nil_r).
    destruct (_ <? _)%N eqn:Et.
    + edestruct (paste_held t now) as (d' & E & Hs'); [exact Hs|done|]. rewrite Hh in E. rewrite E. by split_and!.
    + split; [by eapply Sim_mono|]. split; [by rewrite Hp|]. intros Hlate. exfalso.
      apply (bo_time _ _ Hb) in Hl. apply N.ltb_ge in Et. lia.
  - cbv zeta. rewrite andb_false_r. destruct (pending_first_char b) as [[c at']|] eqn:Hp.
    + destruct (bo_pending _ _ Hb _ _ Hp) as (Hl & Hbuf & _). rewrite Hl. destruct (_ <? _)%N eqn:Et.
      * apply N.ltb_lt in Et. pose proof (insert_held t now es a m x b d c at' Hs Ht Hp Et) as Hx.
        rewrite Hl, Ha in Hx. split; [done|]. split; [done|]. intros _. unfold is_active, is_active_internal. simpl.
        by rewrite Hbuf.
      * split; [by eapply Sim_mono|]. apply N.ltb_ge in Et. split.
        { intros c' at'' [= <- <-]%(eq_trans (eq_sym Hp)). by apply N.leb_le. }
        intros Hlate. exfalso. apply (bo_time _ _ Hb) in Hl.
        enough (PASTE_BURST_CHAR_INTERVAL <= PASTE_BURST_ACTIVE_IDLE_TIMEOUT windows)%N by lia.
        by destruct windows.
    + assert (Hr : ∀ z, (if z : bool then (b, FlushNone) else (b, FlushNone)) = (b, FlushNone)) by by intros [].
      rewrite Hr. split; [by eapply Sim_mono|]. split; [by rewrite Hp|]. intros _.
      unfold is_active. by rewrite (is_active_internal_active t b Hb), Ha, Hp.
Qed.

(** ** Characters *)
Lemma note_plain_char_ok t now b : (now <= t)%N → is_active b = false →
  BurstOk t (note_plain_char now b) ∧ is_active (note_plain_char now b) = false.
Proof.
  intros Ht Hi. destruct (inactive_held b Hi) as (_ & Ha & Hbuf & Hp). split; [|done].
  split; unfold note_plain_char; simpl; rewrite ?Hp, ?Hbuf, ?Ha; [done..|]. by intros t' [= <-].
Qed.

(** The characters counted before this one. *)
Lemma note_plain_char_count now b n : (recent now b → N.to_nat (consecutive_plain_char_burst b) ≤ n) →
  N.to_nat (consecutive_plain_char_burst (note_plain_char now b)) ≤ S n.
Proof.
  intros Hn. unfold note_plain_char, recent, duration_since in *. simpl.
  destruct (last_plain_char_time b) as [l|]; [|lia]. destruct (_ <=? _)%N eqn:E; [|lia].
  apply N.leb_le in E. assert (N.to_nat (consecutive_plain_char_burst b) ≤ n) by (apply Hn; exists l; split; [done|lia]).
  lia.
Qed.

(** Buffering with a grab either moves the grabbed text into the buffer, or leaves the
    draft as it was and nothing held. *)
Lemma begin_buffer_sim now ch n es a b d g : BurstOk now b → is_active b = false →
  is_Some (last_plain_char_time b) → Drawn es a g d true → N.to_nat n ≤ length g →
  ∃ b' d' buffered, begin_buffer ch now n b d = Some (b', d', buffered) ∧
    if buffered : bool then Sim now (es ++ [OnKey (KeyChar ch false)]) a true false b' d'
    else d' = d ∧ (b' = b ∨ b' = default_burst).
Proof.
  intros Hb Hi Hl Hd Hn. unfold begin_buffer, decide_begin_buffer.
  pose proof (retro_start_index_split (before_cursor d) (N.to_nat n)) as Hsp.
  destruct (Drawn_before _ _ _ _ _ Hd) as [pre Hpre].
  assert (Hg2 : drop (length (before_cursor d) - N.to_nat n) (before_cursor d) = drop (length g - N.to_nat n) g).
  { rewrite Hpre, length_app, drop_app_ge by lia. f_equal. lia. }
  rewrite Hg2 in Hsp. rewrite <- (take_drop (length g - N.to_nat n) g) in Hd.
  rewrite Hsp. set (g2 := drop _ g) in *. cbn [mbind option_bind snd].
  destruct (inactive_held b Hi) as (_ & Ha & Hbuf & Hp).
  destruct (existsb is_whitespace g2 || (16 <=? length g2)) eqn:Eg; [|by eexists b, d, false; auto].
  simpl. destruct (is_empty g2) eqn:Ee; [by destruct g2|].
  destruct (retract_paste_burst _ d) as [d'|] eqn:Er; [|by eexists _, d, false; auto].
  eexists _, _, _. split; [done|]. simpl. rewrite <- (Nat2N.id (retro_start_index _ _)) in Er.
  destruct (Drawn_retract _ _ _ _ _ _ _ _ Hd Hsp Er) as (es1 & es2 & -> & Ht & Hd').
  split; [|done|by intros []|].
  - split; simpl; rewrite ?Hp; [done|done|done|]. apply (bo_time _ _ Hb).
  - exists es1, (es2 ++ [OnKey (KeyChar ch false)]), []. rewrite app_assoc. split_and!; [done| |done|done].
    unfold held. simpl. rewrite Hp, Hbuf, Ee, app_nil_r. by apply text_of_app.
Qed.

Lemma typed_sim now es a b b' d g ch : BurstOk now b → is_active b = false →
  N.to_nat (consecutive_plain_char_burst b) ≤ S (length g) → Drawn es a (g ++ [ch]) d true →
  b' = b ∨ b' = default_burst → Sim now es a true false b' d.
Proof.
  intros Hb Hi Hc Hd [-> | ->]; [|by eapply Sim_default]. eapply Sim_idle; [done..| |by intros []].
  intros _. rewrite length_app. simpl. lia.
Qed.

Lemma ascii_sim now es a ch b d : Sim now es a true false b d →
  (∀ c at', pending_first_char b = Some (c, at') →
    (duration_since now at' <=? PASTE_BURST_CHAR_INTERVAL)%N = true) →
  ∃ b' d', handle_ascii_char ch now b d = Some (b', d')
    ∧ Sim now (es ++ [OnKey (KeyChar ch false)]) a true false b' d'.
Proof.
  intros Hs Hrec. pose proof (sim_ok _ _ _ _ _ _ _ Hs) as Hb. unfold handle_ascii_char, on_plain_char. cbv zeta.
  cbn [active note_plain_char]. destruct (active b) eqn:Ha.
  { pose proof (active_pending now b Hb Ha) as Hp. eexists _, _. split; [done|].
    eapply Sim_append; [done| | | |done]; [split; simpl; rewrite ?Hp; [done..|by intros t' [= <-]]| |].
    - unfold is_active, is_active_internal. simpl. by rewrite Ha.
    - unfold held. simpl. by rewrite Hp, !app_nil_r. }
  unfold recently_held. cbn [pending_first_char note_plain_char].
  destruct (pending_first_char b) as [[c at']|] eqn:Hp.
  { rewrite (Hrec _ _ eq_refl). eexists _, _. split; [done|].
    destruct (bo_pending _ _ Hb _ _ Hp) as (_ & Hbuf & _).
    eapply Sim_append; [done| | | |done]; [split; simpl; [done..|by intros t' [= <-]]|done|].
    unfold held. simpl. by rewrite Hp, Hbuf. }
  assert (Hi : is_active b = false).
  { unfold is_active. by rewrite (is_active_internal_active now b Hb), Ha, Hp. }
  destruct (note_plain_char_ok now now b (N.le_refl _) Hi) as [Hbn Hin].
  destruct (Sim_run _ _ _ _ _ _ _ Hs Hi) as (g & Hd & Hc). apply note_plain_char_count in Hc.
  destruct (PASTE_BURST_MIN_CHARS <=? _)%N eqn:E3.
  - apply N.leb_le in E3. unfold PASTE_BURST_MIN_CHARS in E3.
    edestruct (begin_buffer_sim now ch (consecutive_plain_char_burst (note_plain_char now b) - 1)) as (b' & d' & buffered & -> & Hbb);
      [exact Hbn|done|by eexists|exact Hd|lia|].
    simpl. destruct buffered; [by eexists _, _|]. destruct Hbb as (-> & Hb').
    assert (is_active b' = false) as Hi' by by destruct Hb' as [-> | ->].
    rewrite inactive_flush by done. eexists _, _. split; [done|].
    eapply typed_sim; [exact Hbn|done|exact Hc| |naive_solver]. apply Drawn_char; [done|].
    intros ->. cbn [length] in Hc. lia.
  - eexists _, _. split; [done|]. destruct (inactive_held b Hi) as (Hh & _ & Hbuf & _).
    eapply Sim_append; [done| | | |done].
    + split; simpl; rewrite ?Hbuf; [by intros c' at' [= <- <-]|done|done|by intros t' [= <-]].
    + apply orb_true_r.
    + rewrite Hh. unfold held. simpl. by rewrite Hbuf.
Qed.

Lemma non_ascii_sim now es a ch b d : Sim now es a true false b d → (128 <= ch)%N →
  ∃ b' d', handle_non_ascii_char false ch now b d = Some (b', d')
    ∧ Sim now (es ++ [OnKey (KeyChar ch false)]) a true false b' d'.
Proof.
  intros Hs Hch. pose proof (sim_ok _ _ _ _ _ _ _ Hs) as Hb. unfold handle_non_ascii_char, try_append_char_if_active.
  change (active b || negb (is_empty (buffer b))) with (is_active_internal b).
  rewrite (is_active_internal_active now b Hb). destruct (active b) eqn:Ha.
  { pose proof (active_pending now b Hb Ha) as Hp. eexists _, _. split; [done|].
    eapply Sim_append; [done| | | |done];
      [split; simpl; rewrite ?Hp; [done|done|by intros; apply (bo_active _ _ Hb)|apply (bo_time _ _ Hb)]| |].
    - unfold is_active, is_active_internal. simpl. by rewrite Ha.
    - unfold held. simpl. by rewrite Hp, !app_nil_r. }
  pose proof (flush_and_apply_sim now es a true false b d Hs) as Hf. destruct (flush_and_apply b d) as [b1 d1].
  destruct Hf as (Hs1 & Hi1 & _). unfold on_plain_char_no_hold. cbv zeta.
  destruct (note_plain_char_ok now now b1 (N.le_refl _) Hi1) as [Hbn Hin].
  destruct (Sim_run _ _ _ _ _ _ _ Hs1 Hi1) as (g & Hd & Hc). apply note_plain_char_count in Hc.
  pose proof (Drawn_non_ascii _ _ _ _ _ Hd Hch) as Hd'.
  destruct (inactive_held _ Hin) as (_ & -> & _). destruct (PASTE_BURST_MIN_CHARS <=? _)%N.
  - edestruct (begin_buffer_sim now ch (consecutive_plain_char_burst (note_plain_char now b1) - 1)) as (b' & d' & buffered & -> & Hbb);
      [exact Hbn|done|by eexists|exact Hd|lia|].
    simpl. destruct buffered; [by eexists _, _|]. destruct Hbb as (-> & Hb').
    assert (is_active b' = false) as Hi' by by destruct Hb' as [-> | ->].
    rewrite inactive_flush by done. eexists _, _. split; [done|]. eapply typed_sim; [exact Hbn|done|exact Hc|done|naive_solver].
  - simpl. rewrite inactive_flush by done. eexists _, _. split; [done|].
    eapply typed_sim; [exact Hbn|done|exact Hc|done|by left].
Qed.

(** ** Keys *)
Lemma clear_window_sim t es a m m' x x' b d d' es' g : Sim t es a m x b d → is_active b = false →
  Drawn es' a g d' m' → Sim t es' a m' x' (clear_window_after_non_char b) d'.
Proof.
  intros Hs Hi Hd. destruct (inactive_held _ Hi) as (_ & _ & Hbuf & _).
  eapply Sim_cleared; [| |done..]; [split; simpl; by rewrite ?Hbuf|].
  unfold is_active, is_active_internal. simpl. by rewrite Hbuf.
Qed.

(** A key that takes effect at once: what is held is applied first. *)
Lemma other_key_sim t es a m x b d k : Sim t es a m x b d →
  let (b, d) := flush_and_apply b d in
  ∃ m', Sim t (es ++ [OnKey k]) a m' x (clear_window_after_non_char b) (textarea_input k d).
Proof.
  intros Hs. pose proof (flush_and_apply_sim _ _ _ _ _ _ _ Hs) as Hf. destruct (flush_and_apply b d) as [b1 d1].
  destruct Hf as (Hs1 & Hi1 & _). destruct (Sim_run _ _ _ _ _ _ _ Hs1 Hi1) as (g & Hd & _).
  destruct (Drawn_key _ _ _ _ _ k Hd) as [m' Hd']. exists m'. by eapply clear_window_sim.
Qed.

(** Without detection nothing is held, and keys go to the textarea. *)
Lemma undetected_sim t es a m x b d k : Sim t es a m x b d → m = false ∨ x = true →
  is_active b = false ∧ ∃ m', Sim t (es ++ [OnKey k]) a m' x b (textarea_input k d).
Proof.
  intros Hs Hq. destruct (sim_quiet _ _ _ _ _ _ _ Hs Hq) as [Hl Hw].
  assert (Hi : is_active b = false).
  { destruct (is_active b) eqn:Hi; [|done]. destruct (sim_mode _ _ _ _ _ _ _ Hs Hi) as [-> ->]. by destruct Hq. }
  split; [done|]. destruct (Sim_run _ _ _ _ _ _ _ Hs Hi) as (g & Hd & _).
  destruct (Drawn_key _ _ _ _ _ k Hd) as [m' Hd']. exists m'.
  by eapply Sim_cleared; [apply (sim_ok _ _ _ _ _ _ _ Hs)|..].
Qed.

Lemma append_control_ok t now b ch : BurstOk t b → is_active b = true → (now <= t)%N →
  append_control_char_if_active ch now b = ((append_control_char_if_active ch now b).1, true)
  ∧ BurstOk t (append_control_char_if_active ch now b).1
  ∧ is_active (append_control_char_if_active ch now b).1 = true
  ∧ held (append_control_char_if_active ch now b).1 = held b ++ [ch].
Proof.
  intros Hb Hi Ht. unfold append_control_char_if_active. rewrite Hi. split_and!; [done| |done|].
  - split; simpl; [done..|by intros t' [= <-]].
  - unfold held. simpl. by destruct (pending_first_char b) as [[]|]; rewrite ?app_nil_r, <- ?app_assoc.
Qed.

Lemma enter_key_sim now es a m x b d : Sim now es a m x b d →
  ∃ m' b' d', (let (b', appended) := append_control_char_if_active LF now b in
    (if negb x && is_active b && appended then (b', d) else (b, textarea_input KeyEnter d))) = (b', d')
    ∧ Sim now (es ++ [OnKey KeyEnter]) a m' x b' d'.
Proof.
  intros Hs. pose proof (sim_ok _ _ _ _ _ _ _ Hs) as Hb. destruct (is_active b) eqn:Hi.
  { destruct (sim_mode _ _ _ _ _ _ _ Hs Hi) as [-> ->].
    destruct (append_control_ok now now b LF Hb Hi (N.le_refl _)) as (-> & Hb' & Hi' & Hh).
    eexists _, _, _. split; [done|]. by eapply Sim_append. }
  destruct (append_control_char_if_active LF now b) as [b' appended]. rewrite andb_false_r. simpl.
  destruct m.
  - destruct (Sim_run _ _ _ _ _ _ _ Hs Hi) as (g & Hd & Hc). eexists true, _, _. split; [done|].
    eapply Sim_idle; [done|done|by apply Drawn_enter| |apply (sim_quiet _ _ _ _ _ _ _ Hs)].
    intros Hr. rewrite length_app. specialize (Hc Hr). lia.
  - destruct (undetected_sim _ _ _ _ _ _ _ KeyEnter Hs (or_introl eq_refl)) as (_ & m' & Hs'). by eexists _, _, _.
Qed.

Lemma bash_sim t es a m x b d d' k : Sim t es a m x b d → is_active b = false →
  leave_bash_mode k d = Some d' → Sim t (es ++ [OnKey (KeyOther k)]) a m x b d'.
Proof.
  intros Hs Hi Hk. destruct (Sim_run _ _ _ _ _ _ _ Hs Hi) as (g & Hd & Hc).
  destruct (Drawn_before _ _ _ _ _ Hd) as [pre Hpre]. destruct (Drawn_edits _ _ _ _ _ Hd) as (a' & He & Ht & <-).
  destruct (typed_bash _ _ _ _ Ht Hk) as (Hbc & <- & Ht'). rewrite Hbc in Hpre.
  symmetry in Hpre. apply app_nil in Hpre as [_ ->].
  eapply Sim_idle; [apply (sim_ok _ _ _ _ _ _ _ Hs)|done| |exact Hc|].
  - eapply Drawn_start; [by apply edits_key|done].
  - rewrite (proj1 (proj2 (typed_bash _ _ _ _ Ht Hk))). apply (sim_quiet _ _ _ _ _ _ _ Hs).
Qed.

Lemma input_sim t now key es a m x b d : (t <= now)%N → Sim t es a m x b d →
  ∃ m' b' d', handle_input_basic_with_time windows x key now b d = Some (b', d')
    ∧ Sim now (es ++ [OnKey key]) a m' x b' d'.
Proof.
  intros Ht Hs0. unfold handle_input_basic_with_time.
  pose proof (flush_sim t now es a m x b _ (Sim_begin _ _ _ _ _ _ _ key Hs0) Ht) as Hf.
  destruct (handle_paste_burst_flush windows now b _) as [b1 d1]. destruct Hf as (Hs & Hrec & _).
  pose proof (other_key_sim now es a m x b1 d1 key Hs) as Ho.
  pose proof (flush_and_apply_sim _ _ _ _ _ _ _ Hs) as Hf.
  destruct key as [ch modified| | |k].
  - rewrite (Sim_allows _ _ _ _ _ _ _ Hs). destruct modified; simpl.
    { destruct (flush_and_apply b1 d1) as [b2 d2]. destruct Ho as [m' Ho]. by eexists _, _, _. }
    destruct (negb x && m) eqn:E.
    + bool_props. subst. exists true. destruct (128 <=? ch)%N eqn:Ech; [|by apply ascii_sim].
      apply non_ascii_sim; [done|by apply N.leb_le].
    + assert (m = false ∨ x = true) as Hq by (destruct x, m; auto).
      destruct (undetected_sim _ _ _ _ _ _ _ (KeyChar ch false) Hs Hq) as (Hi & m' & Hs').
      destruct (flush_and_apply b1 d1) as [b2 d2]. destruct Hf as (_ & _ & Hsame).
      destruct (Hsame Hi) as [-> ->]. by eexists _, _, _.
  - destruct (enter_key_sim _ _ _ _ _ _ _ Hs) as (m' & b' & d' & E & Hs').
    destruct (append_control_char_if_active LF now b1) as [b2 appended]. rewrite E. by eexists _, _, _.
  - destruct (flush_and_apply b1 d1) as [b2 d2]. destruct Ho as [m' Ho]. by eexists _, _, _.
  - destruct (flush_and_apply b1 d1) as [b2 d2]. destruct Ho as [m' Ho]. destruct Hf as (Hs2 & Hi2 & _).
    destruct (leave_bash_mode k d2) as [d3|] eqn:Ek; [|by eexists _, _, _]. eexists _, _, _. split; [done|].
    by eapply bash_sim.
Qed.

Lemma paste_tab_sim t now es a m x b d : (t <= now)%N → Sim t es a m x b d →
  let '(b', d', handled) := handle_paste_tab windows x now b d in
  Sim now (if handled : bool then es ++ [OnKey KeyTab] else es) a m x b' d'.
Proof.
  intros Ht Hs. unfold handle_paste_tab. rewrite (Sim_allows _ _ _ _ _ _ _ Hs).
  destruct (x || negb m) eqn:E; [by eapply Sim_mono|]. bool_props. subst.
  pose proof (flush_sim t now es a true false b d Hs Ht) as Hf.
  destruct (handle_paste_burst_flush windows now b d) as [b1 d1]. destruct Hf as (Hs1 & _).
  pose proof (sim_ok _ _ _ _ _ _ _ Hs1) as Hb. destruct (is_active b1) eqn:Hi.
  { destruct (append_control_ok now now b1 TAB Hb Hi (N.le_refl _)) as (-> & Hb' & Hi' & Hh).
    by eapply Sim_append. }
  unfold append_control_char_if_active at 1. rewrite Hi.
  destruct (direct_insert_newline_should_insert now b1); [|done].
  destruct (inactive_held b1 Hi) as (Hh & _ & Hbuf & Hp). unfold append_control_char_if_active. simpl.
  eapply Sim_append; [done| |done| |done].
  - split; simpl; [done..|by intros t' [= <-]].
  - rewrite Hh. unfold held. simpl. by rewrite Hbuf, Hp.
Qed.

(** An Enter that does not submit is typed. *)
Lemma paste_enter_sim t now es a m x b d : (t <= now)%N → Sim t es a m x b d →
  let '(b', d', handled) := handle_paste_enter x now b d in
  Sim now (if handled : bool then es ++ [OnKey KeyEnter] else es) a m x b' d'.
Proof.
  intros Ht Hs0. apply (Sim_mono _ _ _ _ _ _ _ _ Ht) in Hs0 as Hs. clear Hs0. unfold handle_paste_enter.
  pose proof (sim_ok _ _ _ _ _ _ _ Hs) as Hb. destruct (is_active b) eqn:Hi.
  { destruct (sim_mode _ _ _ _ _ _ _ Hs Hi) as [-> ->].
    destruct (append_control_ok now now b LF Hb Hi (N.le_refl _)) as (-> & Hb' & Hi' & Hh).
    destruct (in_slash_context d); simpl; [done|]. by eapply Sim_append. }
  destruct (append_control_char_if_active LF now b) as [b' appended]. rewrite andb_false_r. simpl.
  destruct (in_slash_context d); [done|]. destruct x; [done|]. simpl.
  unfold newline_should_insert_instead_of_submit. rewrite Hi. simpl.
  destruct (burst_window_until b) as [until|] eqn:Hw; [|done]. destruct (now <=? until)%N; [|done].
  destruct m; [|by destruct (sim_quiet _ _ _ _ _ _ _ Hs (or_introl eq_refl)); congruence].
  destruct (Sim_run _ _ _ _ _ _ _ Hs Hi) as (g & Hd & Hc). destruct (inactive_held b Hi) as (_ & Ha & Hbuf & Hp).
  eapply Sim_idle; [|done|by apply Drawn_enter| |by intros []].
  - split; simpl; rewrite ?Hp, ?Hbuf, ?Ha; [done..|apply (bo_time _ _ Hb)].
  - intros Hr. rewrite length_app. specialize (Hc Hr). simpl. lia.
Qed.

(** ** Events *)
Lemma key_sim t now key es a m x b d : (t <= now)%N → Sim t es a m x b d →
  ∃ m' b' d', handle_key windows x key now b d = Some (b', d') ∧ Sim now (es ++ [OnKey key]) a m' x b' d'.
Proof.
  intros Ht Hs. destruct key as [ch modified| | |k]; try by apply input_sim with (t := t) (m := m).
  simpl. pose proof (paste_tab_sim t now es a m x b d Ht Hs) as Hp.
  destruct (handle_paste_tab windows x now b d) as [[b1 d1] handled]. destruct handled; [by eexists _, _, _|].
  by apply input_sim with (t := now) (m := m).
Qed.

Definition SimC t es a (c : DraftState D) : Prop := ∃ m, Sim t es a m (disable_paste_burst c) (paste_burst c) (draft_rest c).

Lemma set_disabled_sim t es a c disabled : SimC t es a c →
  SimC t (es ++ [SetDisabled disabled]) a (set_disable_paste_burst disabled c).
Proof.
  destruct c as [x b d]. intros [m Hs]. exists m. simpl in *. apply Sim_silent; [|done]. unfold set_disable_paste_burst. simpl.
  destruct (disabled && negb x) eqn:E.
  - pose proof (flush_and_apply_sim _ _ _ _ _ _ _ Hs) as Hf. destruct (flush_and_apply b d) as [b1 d1].
    destruct Hf as (Hs1 & Hi1 & _). destruct (Sim_run _ _ _ _ _ _ _ Hs1 Hi1) as (g & Hd & _). by eapply Sim_default.
  - destruct Hs as [Hb Hm Hq Hd]. assert (disabled = true → x = true) as Hx by by intros ->; destruct x.
    split; simpl; [done| | |done].
    + intros Hi. destruct (Hm Hi) as [-> ->]. split; [done|]. destruct disabled; [by discriminate Hx|done].
    + intros [->|Hd']; apply Hq; auto.
Qed.

Lemma event_sim t now e es a c : (t <= now)%N → SimC t es a c →
  ∃ c', handle_event windows e now c = Some c' ∧ SimC now (es ++ [e]) a c'.
Proof.
  intros Ht Hs. destruct e as [key| |disabled]; simpl.
  - destruct Hs as [m Hs]. destruct (key_sim t now key _ _ _ _ _ _ Ht Hs) as (m' & b' & d' & -> & Hs'). simpl.
    eexists. split; [done|]. by exists m'.
  - destruct Hs as [m Hs]. pose proof (flush_sim t now _ _ _ _ _ _ Hs Ht) as Hf.
    destruct (handle_paste_burst_flush windows now _ _) as [b1 d1]. destruct Hf as [Hs1 _].
    eexists. split; [done|]. exists m. by apply Sim_silent.
  - eexists. split; [done|]. apply set_disabled_sim. destruct Hs as [m Hs]. exists m. by eapply Sim_mono.
Qed.

(** The instants of the events, from [t] to [t'], in order: the clock is monotonic. *)
Fixpoint chronological t (es : list (Event K * Instant)) (t' : Instant) : Prop :=
  match es with
  | [] => (t <= t')%N
  | (_, now) :: es => (t <= now)%N ∧ chronological now es t'
  end.

Lemma events_sim t t' es0 (es : list (Event K * Instant)) a c : chronological t es t' → SimC t es0 a c →
  ∃ c', handle_events windows es c = Some c' ∧ SimC t' (es0 ++ es.*1) a c'.
Proof.
  revert t es0 c. induction es as [|[e now] es IH]; intros t es0 c; simpl.
  { intros Ht [m Hs]. exists c. split; [done|]. exists m. rewrite app_nil_r. by eapply Sim_mono. }
  intros [Ht Hes] Hs. destruct (event_sim t now e es0 a c Ht Hs) as (c1 & -> & Hs1). simpl.
  destruct (IH now (es0 ++ [e]) c1 Hes Hs1) as (c' & E & Hs'). exists c'. by rewrite <- app_assoc in Hs'.
Qed.

Lemma SimC_start t x d a : typed [] d a → SimC t [] a (mkDraftState x default_burst d).
Proof. intros Hd. eexists. eapply Sim_default, Drawn_start; [constructor|done]. Qed.


(** Nothing is held back for long: a tick that comes later than the idle timeout after
    the last event leaves nothing held, and the draft stands for an editor state in which
    every event took effect. *)
Theorem held_text_is_flushed (es : list (Event K * Instant)) t x d a now :
  chronological 0 es t → typed [] d a → (t + PASTE_BURST_ACTIVE_IDLE_TIMEOUT windows < now)%N →
  ∃ c c' a', handle_events windows es (mkDraftState x default_burst d) = Some c ∧
    handle_event windows OnTick now c = Some c' ∧ is_active (paste_burst c') = false ∧
    Edits es.*1 a a' ∧ typed [] (draft_rest c') a'.
Proof.
  intros Hes Hd Hnow. destruct (events_sim 0 t [] es a _ Hes (SimC_start 0 x d a Hd)) as (c & E & m & Hs).
  pose proof (flush_sim t now _ _ _ _ _ _ Hs ltac:(lia)) as Hf. simpl in Hf. exists c. simpl.
  destruct (handle_paste_burst_flush windows now _ _) as [b1 d1]. destruct Hf as (Hs1 & _ & Hi).
  specialize (Hi Hnow). destruct (Sim_run _ _ _ _ _ _ _ Hs1 Hi) as (g & Hdr & _).
  destruct (Drawn_edits _ _ _ _ _ Hdr) as (a' & He & Ha & _). by eexists _, a'.
Qed.

(** A paste that the terminal reports makes the detector forget what it holds: the result
    does not depend on it, and the characters are lost. *)
Theorem explicit_paste_drops_held s x b d :
  insert_into_query (sanitize_user_text (normalize_newlines s)) d = None →
  handle_paste s (mkDraftState x b d) = handle_paste s (mkDraftState x default_burst d)
  ∧ held (paste_burst (handle_paste s (mkDraftState x b d))) = [].
Proof. intros Hq. unfold handle_paste, apply_paste. simpl. by rewrite Hq. Qed.
End Refinement.

(** * Enter after a burst

    Buffering a character opens the window in which Enter inserts a newline. *)
Lemma enter_window ch now now' b :
  (now' <= now + PASTE_ENTER_SUPPRESS_WINDOW)%N →
  newline_should_insert_instead_of_submit now' (append_char_to_buffer ch now b) = true.
Proof.
  intros Hn. unfold newline_should_insert_instead_of_submit. simpl.
  by rewrite (proj2 (N.leb_le _ _) Hn), orb_true_r.
Qed.

(** * A plain text draft

    The text before the cursor; a shortcut or another key clears it, and a large paste is
    put between brackets. *)
Definition plain_key (k : Key unit) (d : str) : str :=
  match k with
  | KeyChar c false => d ++ [c]
  | KeyEnter => d ++ [LF]
  | KeyChar _ true | KeyTab | KeyOther _ => []
  end.

#[export] Instance PlainDraft : Draft unit str := {|
  allows_paste_burst _ := true;
  before_cursor d := d;
  begin_vim_edit _ d := d;
  textarea_input := plain_key;
  input_non_ascii c d := d ++ [c];
  leave_bash_mode _ _ := None;
  insert_str s d := d ++ s;
  textarea_insert_str s d := d ++ s;
  insert_into_query _ _ := None;
  insert_large_paste s d := d ++ lit "[" ++ s ++ lit "]";
  image_paste_enabled _ := false;
  paste_image_path _ _ := None;
  retract_paste_burst n d := fst <$> split_at_byte d (N.of_nat n);
  in_slash_context _ := false;
|}.

Lemma append_all (s a : str) : type_all (λ c a, a ++ [c]) s a = a ++ s.
Proof.
  unfold type_all. revert a. induction s as [|c s IH]; intros a; simpl; [by rewrite app_nil_r|].
  by rewrite IH, <- app_assoc.
Qed.

Lemma split_at_byte_app_eq s n x y : split_at_byte s n = Some (x, y) → s = x ++ y.
Proof.
  revert n x. induction s as [|c s IH]; intros n x; simpl; (destruct (n =? 0)%N; [by intros [= <- <-]|]); [done|].
  destruct (_ <=? _)%N; [|done]. destruct (split_at_byte s _) as [[x' y']|] eqn:E; [|done].
  intros [= <- <-]. by rewrite (IH _ _ E).
Qed.

#[export] Program Instance PlainEditor : ImmediateEditor unit str str := {|
  text_mode _ := true;
  type_char c a := a ++ [c];
  edit := plain_key;
  paste s a := insert_paste (sanitize_user_text (normalize_newlines s)) a;
  insert_char c a := a ++ [c];
  typed g d a := d = a ++ g;
|}.
Next Obligation. done. Qed.
Next Obligation. done. Qed.
Next Obligation. done. Qed.
Next Obligation. done. Qed.
Next Obligation. done. Qed.
Next Obligation. intros g d a ->. by rewrite append_all, app_nil_r. Qed.
Next Obligation. done. Qed.
Next Obligation. intros g d a ->. by exists a. Qed.
Next Obligation. done. Qed.
Next Obligation. intros k d a. cbn beta. rewrite !app_nil_r. by intros ->. Qed.
Next Obligation. intros g c d a -> _ _. simpl. by rewrite <- app_assoc. Qed.
Next Obligation. intros g c d a -> _ _. simpl. by rewrite <- app_assoc. Qed.
Next Obligation. intros g d a -> _. simpl. by rewrite <- app_assoc. Qed.
Next Obligation. done. Qed.
Next Obligation. done. Qed.
Next Obligation. intros c d a. cbn beta. rewrite !app_nil_r. by intros ->. Qed.
Next Obligation. intros s d a. cbn beta. rewrite !app_nil_r. by intros ->. Qed.
Next Obligation.
  simpl. intros g1 g2 d d' a n pre -> _ Hs. rewrite N2Nat.id, Hs. intros [= <-].
  rewrite append_all, app_nil_r. apply split_at_byte_app_eq in Hs. rewrite app_assoc in Hs.
  by apply app_inv_tail in Hs.
Qed.

(** A typed character, a pasted line of four characters a millisecond apart, Enter, and
    a non-ASCII character. *)
Definition sample_events : list (Event unit * Instant) :=
  [(OnKey (KeyChar 104 false), from_millis 0); (OnTick, from_millis 20);
   (OnKey (KeyChar 97 false), from_millis 100); (OnKey (KeyChar 32 false), from_millis 101);
   (OnKey (KeyChar 98 false), from_millis 102); (OnKey KeyEnter, from_millis 103);
   (OnKey (KeyChar 233 false), from_millis 104)].

Lemma sample_chronological : chronological 0 sample_events (from_millis 104).
Proof. repeat split; vm_compute; discriminate. Qed.


Lemma held_text_is_flushed_witness :
  ∃ c c' a', handle_events false sample_events (mkDraftState false default_burst []) = Some c ∧
    handle_event false OnTick (from_millis 113) c = Some c' ∧ is_active (paste_burst c') = false ∧
    Edits (D := str) sample_events.*1 [] a' ∧ draft_rest c' = lit "ha b" ++ [LF; 233%N].
Proof.
  destruct (held_text_is_flushed (IE := PlainEditor) false sample_events (from_millis 104) false
    ([] : str) ([] : str) (from_millis 113) sample_chronological eq_refl)
    as (c & c' & a' & E & Ec & Hi & He & Hd).
  - vm_compute. reflexivity.
  - exists c, c', a'. split; [exact E|]. split; [exact Ec|]. split; [exact Hi|]. split; [exact He|].
    vm_compute in E. injection E as <-. vm_compute in Ec. injection Ec as <-. reflexivity.
Defined.
