(* ===== verification/UrlLib.v ===== *)
(** What [utils/path-uri] uses of the crates [url], [urlencoding] and [base64]: an
    interface with the operations, and one with the documented behaviour that the
    theorems about paths rely on. The text codecs of [std] that the crate uses next to
    them (lossy UTF-8, UTF-16) are defined here too. *)
From stdpp Require Import base list numbers strings.
From S2P Require Import Prelude RustStr PathConv Utf8Stream.

(** * Text codecs of [std] *)

Definition is_ascii_alphabetic (c : char) : bool :=
  ((65 <=? c) && (c <=? 90))%N || ((97 <=? c) && (c <=? 122))%N.
Definition to_ascii_uppercase_char (c : char) : char :=
  if ((97 <=? c) && (c <=? 122))%N then (c - 32)%N else c.

(** [str::replace] of one character by another. *)
Definition replace_char (from to : char) (s : str) : str :=
  (λ c, if (c =? from)%N then to else c) <$> s.

(** [String::from_utf8_lossy]: each maximal invalid part becomes U+FFFD. *)
Definition REPLACEMENT : char := 65533%N.

Fixpoint from_utf8_lossy_loop (fuel : nat) (bs : list byte) : str :=
  match bs, fuel with
  | [], _ => []
  | _, 0 => [REPLACEMENT]
  | _, S fuel =>
      match decode bs with
      | Decoded c rest => c :: from_utf8_lossy_loop fuel rest
      | Invalid n => REPLACEMENT :: from_utf8_lossy_loop fuel (drop n bs)
      | Incomplete => [REPLACEMENT]
      end
  end.
Definition from_utf8_lossy (bs : list byte) : str := from_utf8_lossy_loop (length bs) bs.

(** [str::encode_utf16] and [u16::to_le_bytes]. *)
Definition encode_utf16_char (c : char) : list N :=
  if (c <? 65536)%N then [c]
  else [55296 + (c - 65536) / 1024; 56320 + (c - 65536) mod 1024]%N.
Definition encode_utf16 (s : str) : list N := concat (encode_utf16_char <$> s).
Definition to_le_bytes (u : N) : list byte := [u mod 256; u / 256]%N.

(** [chunks_exact(2)] with [u16::from_le_bytes]. *)
Fixpoint wide_of_le_bytes (bs : list byte) : list N :=
  match bs with
  | lo :: hi :: bs => (lo + 256 * hi)%N :: wide_of_le_bytes bs
  | _ => []
  end.

(** [String::from_utf16_lossy]: an unpaired surrogate becomes U+FFFD. *)
Definition high_surrogate (u : N) : bool := ((55296 <=? u) && (u <? 56320))%N.
Definition low_surrogate (u : N) : bool := ((56320 <=? u) && (u <? 57344))%N.
Fixpoint from_utf16_lossy (us : list N) : str :=
  match us with
  | [] => []
  | u :: us' =>
      if high_surrogate u then
        match us' with
        | v :: us'' =>
            if low_surrogate v
            then (65536 + (u - 55296) * 1024 + (v - 56320))%N :: from_utf16_lossy us''
            else REPLACEMENT :: from_utf16_lossy us'
        | [] => [REPLACEMENT]
        end
      else if low_surrogate u then REPLACEMENT :: from_utf16_lossy us'
      else u :: from_utf16_lossy us'
  end.

(** [<[u8]>::eq_ignore_ascii_case]. *)
Definition bytes_eq_ignore_ascii_case (a b : list byte) : bool :=
  bool_decide (to_ascii_lowercase a = to_ascii_lowercase b).

(** * The crates *)

(** [path_segments_mut] fails only for URLs that cannot be a base; no [file:] URL is
    one, so its operations are total here. [set_host] reports a failure. *)
Class UrlLib : Type := {
  Url : Type;
  Url_eq_dec :: EqDecision Url;
  ParseError : Type;
  url_parse : str → Result Url ParseError;
  url_scheme : Url → str;
  url_username : Url → str;
  url_password : Url → option str;
  url_port : Url → option N;
  url_query : Url → option str;
  url_fragment : Url → option str;
  url_host_str : Url → option str;
  url_path : Url → str;
  url_as_str : Url → str;
  url_path_segments : Url → option (list str);
  url_set_host : option str → Url → option Url;
  url_set_path : str → Url → Url;
  segments_clear : Url → Url;
  segments_pop_if_empty : Url → Url;
  segments_pop : Url → Url;
  segments_push : str → Url → Url;
  decode_binary : list byte → list byte;
  encode_binary : list byte → str;
  url_decode : str → option str;
  base64_encode : list byte → str;
  base64_decode : str → option (list byte);
}.

(** The segments after [pop_if_empty], [pop] and [push] of [PathSegmentsMut]. *)
Definition pop_segment (segs : list str) : list str :=
  match segs with
  | _ :: _ :: _ => removelast segs
  | _ => [[]]
  end.
Definition pop_empty_segment (segs : list str) : list str :=
  match segs with
  | _ :: _ :: _ => if bool_decide (last segs = Some []) then removelast segs else segs
  | _ => segs
  end.
Definition push_segment (enc : str) (segs : list str) : list str :=
  if bool_decide (segs = [[]]) then [enc] else segs ++ [enc].

Definition dot : str := [46%N].
Definition dotdot : str := [46%N; 46%N].

(** A segment that [push] appends as it is: not a dot segment, nothing that the parser
    skips, no drive letter written with a bar. *)
Definition plain_segment (s : str) : bool :=
  negb (bool_decide (s = dot)) && negb (bool_decide (s = dotdot)) &&
  forallb (λ c, is_scalar c && negb ((c =? 9) || (c =? 10) || (c =? 13) || (c =? 124))%N) s.

(** A URL that only has a scheme, a host and a path. *)
Definition bare_file_url `{UrlLib} (u : Url) : Prop :=
  url_scheme u = lit "file" ∧ url_username u = [] ∧ url_password u = None ∧
  url_port u = None ∧ url_query u = None ∧ url_fragment u = None.

(** The part of a URL that [PathSegmentsMut] leaves alone. *)
Definition same_authority `{UrlLib} (u v : Url) : Prop :=
  url_host_str u = url_host_str v ∧ (bare_file_url v → bare_file_url u).

Class UrlLaws `{UrlLib} : Prop := {
  (** the path of a [file:] URL starts with a slash; its segments lie between slashes *)
  law_segments u : bare_file_url u →
    ∃ p, url_path u = 47%N :: p ∧ url_path_segments u = Some (split_char 47 p);
  (** the serialization of a URL with only a host and a path *)
  law_as_str u : bare_file_url u →
    url_as_str u = lit "file://" ++ default [] (url_host_str u) ++ url_path u;
  (** URLs compare like their serialization *)
  law_ext u v : url_as_str u = url_as_str v → u = v;
  (** a host holds no slash *)
  law_host u h : url_host_str u = Some h → 47%N ∉ h;
  law_clear u : same_authority (segments_clear u) u ∧
    (bare_file_url u → url_path_segments (segments_clear u) = Some [[]]);
  law_pop_if_empty u segs : bare_file_url u → url_path_segments u = Some segs →
    same_authority (segments_pop_if_empty u) u ∧
    url_path_segments (segments_pop_if_empty u) = Some (pop_empty_segment segs);
  law_pop u segs : bare_file_url u → url_path_segments u = Some segs →
    same_authority (segments_pop u) u ∧
    url_path_segments (segments_pop u) = Some (pop_segment segs);
  (** [push] percent-encodes its segment *)
  law_push u segs s : bare_file_url u → url_path_segments u = Some segs →
    plain_segment s = true →
    ∃ enc, same_authority (segments_push s u) u ∧
      url_path_segments (segments_push s u) = Some (push_segment enc segs) ∧
      decode_binary (utf8 enc) = utf8 s ∧ (s = [] ↔ enc = []) ∧ 47%N ∉ enc;
  law_set_no_host u : bare_file_url u →
    ∃ v, url_set_host None u = Some v ∧ bare_file_url v ∧ url_host_str v = None ∧
      url_path v = url_path u;
  (** a path that differs from the present one in the case of letters only is stored as
      it is *)
  law_set_path_case u p : bare_file_url u →
    to_ascii_lowercase p = to_ascii_lowercase (url_path u) →
    same_authority (url_set_path p u) u ∧ url_path (url_set_path p u) = p;
  (** ["file:///"] is a URL with an empty path and no host *)
  law_root : ∃ u, url_parse (lit "file:///") = Ok u ∧ bare_file_url u ∧
    url_host_str u = None ∧ url_path_segments u = Some [[]];
  (** percent-decoding works on the parts between slashes *)
  law_decode_slash a b :
    decode_binary (a ++ 47%N :: b) = decode_binary a ++ 47%N :: decode_binary b;
  law_decode_nil : decode_binary [] = [];
  law_decode_nul : decode_binary (utf8 (lit "%00")) = [0%N];
  law_decode_colon d a : a = 65%N ∨ a = 97%N → d ≠ 37%N →
    decode_binary [d; 37%N; 51%N; a] = [d; 58%N];
  (** and leaves bytes other than the percent sign alone *)
  law_decode_plain a : 37%N ∉ a → decode_binary a = a;
  (** [decode] is [decode_binary] followed by the UTF-8 check *)
  law_decode s : url_decode s =
    match from_utf8 (decode_binary (utf8 s)) with
    | Ok t => Some t
    | Err _ => None
    end;
}.
