(* ===== verification/PathUri.v ===== *)
(** [utils/path-uri]: typed [file:] URIs with path operations that do not depend on the
    host ([lib.rs], [absolute_path_normalization.rs], [native_path_bytes.rs]), over an
    interface for the URL crates. *)
From stdpp Require Import base list numbers strings.
From S2P Require Import Prelude RustStr PathConv Utf8Stream UrlLib.

Definition BAD_PATH_URI_PREFIX : str := lit "file:///%00/bad/path/".

#[export] Instance PathConvention_eq_dec : EqDecision PathConvention.
Proof. solve_decision. Defined.

(** [PathConvention::home_relative_suffix]. *)
Definition home_relative_suffix (c : PathConvention) (path : str) : option str :=
  match strip_prefix path [126%N] with
  | None => None
  | Some suffix =>
      if is_empty suffix || starts_with suffix [47%N]
         || (bool_decide (c = Windows) && starts_with suffix [92%N])
      then Some suffix else None
  end.

(** [normalize_windows_device_path] of [utils/absolute-path]. *)
Definition is_windows_separator (c : N) : bool := (c =? 92)%N || (c =? 47)%N.
Definition is_windows_drive_absolute_path (path : str) : bool :=
  match path with
  | d :: c :: sep :: _ => is_ascii_alphabetic d && (c =? 58)%N && is_windows_separator sep
  | _ => false
  end.
Definition normalize_windows_device_path (path : str) : option str :=
  match strip_prefix path (lit "\\?\UNC\") with
  | Some unc => Some (lit "\\" ++ unc)
  | None =>
  match strip_prefix path (lit "\\.\UNC\") with
  | Some unc => Some (lit "\\" ++ unc)
  | None =>
  let drive prefix :=
    match strip_prefix path prefix with
    | Some p => if is_windows_drive_absolute_path p then Some p else None
    | None => None
    end in
  match drive (lit "\\?\") with
  | Some p => Some p
  | None => drive (lit "\\.\")
  end end end.

Definition is_windows_drive_uri_segment (segment : str) : bool :=
  match segment with
  | [d; c] => is_ascii_alphabetic d && (c =? 58)%N
  | [d; c; x; a] =>
      is_ascii_alphabetic d && (c =? 37)%N && (x =? 51)%N && ((a =? 65)%N || (a =? 97)%N)
  | _ => false
  end.

Definition infer_opaque_path_convention (bs : list byte) : option PathConvention :=
  if starts_with bs [47%N] then Some Posix
  else if Nat.odd (length bs) then None
  else match wide_of_le_bytes bs with
       | first :: second :: _ =>
           let has_drive := (first <? 256)%N && is_ascii_alphabetic first && (second =? 58)%N in
           let has_unc_prefix := (first =? 92)%N && (second =? 92)%N in
           if has_drive || has_unc_prefix then Some Windows else None
       | _ => None
       end.

Section PathUri.
Context `{UrlLib}.

(** [PathUriParseError]. *)
Inductive PathUriParseError : Type :=
| InvalidUri (e : ParseError)
| UnsupportedScheme (scheme : str)
| InvalidFileUriPath (path : str)
| CredentialsNotAllowed
| PortNotAllowed
| QueryNotAllowed
| FragmentNotAllowed
| JoinPathMustBeDescendant (path : str).

Record PathUri : Type := mkPathUri { url_of : Url }.

#[export] Instance PathUri_eq_dec : EqDecision PathUri.
Proof. solve_decision. Defined.

(** ** Helpers on URLs *)

Definition nonempty_segments (segs : list str) : list str :=
  filter (λ s, negb (is_empty s)) segs.

Definition decode_uri_path (path : str) : str := default path (url_decode path).

Definition decode_bad_path_uri (url : Url) : option (list byte) :=
  match strip_prefix (url_as_str url) BAD_PATH_URI_PREFIX with
  | None => None
  | Some encoded_path =>
      if is_empty encoded_path || contains_char encoded_path 47 then None
      else match base64_decode encoded_path with
           | None => None
           | Some path_bytes =>
               if bool_decide (base64_encode path_bytes = encoded_path)
               then Some path_bytes else None
           end
  end.

Definition containment_path_segments (url : Url) (c : PathConvention) : option (list str) :=
  match url_path_segments url with
  | None => None
  | Some segments =>
      let segments := nonempty_segments segments in
      if existsb (λ segment,
           existsb (λ b, (b =? 47)%N || (bool_decide (c = Windows) && (b =? 92)%N))
             (decode_binary (utf8 segment))) segments
      then None else Some segments
  end.

(** How one pair of segments is compared under a convention. *)
Definition native_segment_eq (c : PathConvention) (path base : str) : bool :=
  match c with
  | Posix => bool_decide (decode_binary (utf8 path) = decode_binary (utf8 base))
  | Windows =>
      eq_ignore_ascii_case path base
      || eq_ignore_ascii_case (decode_uri_path path) (decode_uri_path base)
  end.

Definition native_path_segments_start_with (path base : list str) (c : PathConvention) : bool :=
  (length base <=? length path)
  && forallb (λ pb, native_segment_eq c pb.1 pb.2) (combine path base).

Definition validate_common_known_uri (url : Url) : Result unit PathUriParseError :=
  if negb (is_empty (url_username url)) || bool_decide (is_Some (url_password url))
  then Err CredentialsNotAllowed
  else if bool_decide (is_Some (url_port url)) then Err PortNotAllowed
  else if bool_decide (is_Some (url_query url)) then Err QueryNotAllowed
  else if bool_decide (is_Some (url_fragment url)) then Err FragmentNotAllowed
  else Ok tt.

Definition validate_file_url (url : Url) : Result unit PathUriParseError :=
  let? _ := validate_common_known_uri url in
  if contains_char (decode_binary (utf8 (url_path url))) 0
     && bool_decide (decode_bad_path_uri url = None)
  then Err (InvalidFileUriPath (url_as_str url))
  else Ok tt.

(** Removing the host of a [file:] URL does not fail. *)
Definition without_localhost_authority (url : Url) : Url :=
  if bool_decide (url_host_str url = Some (lit "localhost"))
  then default url (url_set_host None url)
  else url.

Definition with_normalized_windows_drive_letter (url : Url) : Url :=
  if bool_decide (is_Some (url_host_str url)) then url
  else
    let path := url_path url in
    let rest := trim_start_matches (N.eqb 47) path in
    let slashes := take (length path - length rest) path in
    match rest with
    | [] => url
    | d :: tail =>
        match split_char 47 rest with
        | drive :: _ =>
            if negb (is_windows_drive_uri_segment drive) || is_ascii_uppercase d then url
            else url_set_path (slashes ++ to_ascii_uppercase_char d :: tail) url
        | [] => url
        end
    end.

(** ** Construction *)

(** [TryFrom<Url>]. *)
Definition try_from_url (url : Url) : Result PathUri PathUriParseError :=
  if negb (bool_decide (url_scheme url = lit "file")) then Err (UnsupportedScheme (url_scheme url))
  else
    let? _ := validate_file_url url in
    Ok (mkPathUri (with_normalized_windows_drive_letter (without_localhost_authority url))).

Definition parse_uri (uri : str) : Result PathUri PathUriParseError :=
  match url_parse uri with
  | Err e => Err (InvalidUri e)
  | Ok url => try_from_url url
  end.

(** [from_opaque_path_bytes]; [None] stands for the branch that the source calls
    unreachable. *)
Definition from_opaque_path_bytes (path_bytes : list byte) : option PathUri :=
  match parse_uri (BAD_PATH_URI_PREFIX ++ base64_encode path_bytes) with
  | Ok uri => Some uri
  | Err _ => None
  end.

Definition opaque_fallback_bytes (p : PathUri) : option (list byte) :=
  decode_bad_path_uri (url_of p).

Definition is_opaque (p : PathUri) : bool := bool_decide (is_Some (opaque_fallback_bytes p)).

Definition infer_path_convention (p : PathUri) : option PathConvention :=
  match opaque_fallback_bytes p with
  | Some path_bytes => infer_opaque_path_convention path_bytes
  | None =>
      if bool_decide (is_Some (url_host_str (url_of p))) then Some Windows
      else
        let has_windows_drive :=
          match url_path_segments (url_of p) with
          | Some segments =>
              match nonempty_segments segments with
              | segment :: _ => is_windows_drive_uri_segment segment
              | [] => false
              end
          | None => false
          end in
        if has_windows_drive then Some Windows else Some Posix
  end.

Definition windows_opaque_path_uri (path : str) : option PathUri :=
  from_opaque_path_bytes (concat (to_le_bytes <$> encode_utf16 path)).

(** [path_uri_from_segments]: the loop keeps the segments so far, their number and
    whether the text ended with a separator. *)
Fixpoint normalize_segments (anchor_depth depth : nat) (acc : list str) (trailing : bool)
    (segments : list str) : list str * nat * bool :=
  match segments with
  | [] => (acc, depth, trailing)
  | s :: segments =>
      if bool_decide (s = []) then normalize_segments anchor_depth depth acc true segments
      else if bool_decide (s = dot) then normalize_segments anchor_depth depth acc false segments
      else if bool_decide (s = dotdot) then
        if anchor_depth <? depth
        then normalize_segments anchor_depth (depth - 1) (removelast acc) false segments
        else normalize_segments anchor_depth depth acc false segments
      else normalize_segments anchor_depth (S depth) (acc ++ [s]) false segments
  end.

Definition anchor_depth (c : PathConvention) : nat :=
  match c with
  | Posix => 0
  | Windows => 1
  end.

Definition path_uri_from_segments (c : PathConvention) (host : option str) (segments : list str)
    : option PathUri :=
  match url_parse (lit "file:///") with
  | Err _ => None
  | Ok url =>
      let url := match host with
                 | Some host => url_set_host (Some host) url
                 | None => Some url
                 end in
      match url with
      | None => None
      | Some url =>
          let '(normalized, depth, trailing) :=
            normalize_segments (anchor_depth c) 0 [] false segments in
          let normalized :=
            if trailing
               || (bool_decide (c = Windows) && bool_decide (host = None)
                   && bool_decide (depth = anchor_depth c))
            then normalized ++ [[]] else normalized in
          match try_from_url (foldl (λ u s, segments_push s u) (segments_clear url) normalized) with
          | Ok uri => Some uri
          | Err _ => None
          end
      end
  end.

Definition parse_posix_path (path : str) : option PathUri :=
  match strip_prefix path [47%N] with
  | None => None
  | Some path =>
      if contains_char path 0 then from_opaque_path_bytes (utf8 (47%N :: path))
      else path_uri_from_segments Posix None (split_char 47 path)
  end.

Definition parse_unc_path (path : str) : option PathUri :=
  match split_by is_windows_separator (drop 2 path) with
  | host :: share :: components =>
      if is_empty host || is_empty share then None
      else if bool_decide (host ∈ [dot; dotdot]) || bool_decide (share ∈ [dot; dotdot])
      then windows_opaque_path_uri path
      else
        match path_uri_from_segments Windows (Some host) (share :: components) with
        | Some uri =>
            match url_host_str (url_of uri) with
            | Some parsed =>
                if eq_ignore_ascii_case parsed host then Some uri else windows_opaque_path_uri path
            | None => windows_opaque_path_uri path
            end
        | None => windows_opaque_path_uri path
        end
  | _ => None
  end.

Definition parse_unnormalized_windows_path (path : str) : option PathUri :=
  let uses_namespace :=
    match path with
    | a :: b :: n :: sep :: _ =>
        is_windows_separator a && is_windows_separator b && is_windows_separator sep
        && ((n =? 46)%N || (n =? 63)%N)
    | _ => false
    end in
  if uses_namespace || contains_char path 0 then windows_opaque_path_uri path
  else if is_windows_drive_absolute_path path then
    path_uri_from_segments Windows None
      (take 2 path :: split_by is_windows_separator (drop 3 path))
  else
    match path with
    | a :: b :: _ =>
        if is_windows_separator a && is_windows_separator b then parse_unc_path path else None
    | _ => None
    end.

Definition parse_windows_path (path : str) : option PathUri :=
  match normalize_windows_device_path path with
  | None => parse_unnormalized_windows_path path
  | Some normalized_path =>
      let is_unc := starts_with normalized_path (lit "\\") in
      let bad_unc :=
        match strip_prefix normalized_path (lit "\\") with
        | Some unc_path =>
            match split_by is_windows_separator unc_path with
            | a :: b :: _ =>
                bool_decide (a ∈ [[]; dot; dotdot]) || bool_decide (b ∈ [[]; dot; dotdot])
            | _ => true
            end
        | None => false
        end in
      if bad_unc then windows_opaque_path_uri path
      else
        match parse_unnormalized_windows_path normalized_path with
        | Some uri =>
            if bool_decide (infer_path_convention uri = Some Windows)
               && bool_decide (opaque_fallback_bytes uri = None)
               && (negb is_unc
                   || match url_host_str (url_of uri) with
                      | Some host => negb (is_empty host)
                      | None => false
                      end)
            then Some uri else windows_opaque_path_uri path
        | None => windows_opaque_path_uri path
        end
  end.

Definition from_absolute_native_path (path : str) (c : PathConvention) : option PathUri :=
  match (match c with Posix => parse_posix_path path | Windows => parse_windows_path path end) with
  | None => None
  | Some uri =>
      if negb (bool_decide (url_host_str (url_of uri) = Some []))
         && bool_decide (infer_path_convention uri = Some c)
      then Some uri
      else match c with
           | Posix => from_opaque_path_bytes (utf8 path)
           | Windows => windows_opaque_path_uri path
           end
  end.

(** ** Equality and hashing *)

Definition decoded_path_bytes (p : PathUri) : list byte := decode_binary (utf8 (url_path (url_of p))).

Definition windows_identity_path_bytes (p : PathUri) : option (list byte) :=
  if negb (bool_decide (infer_path_convention p = Some Windows))
     || bool_decide (is_Some (opaque_fallback_bytes p))
  then None
  else
    match url_path_segments (url_of p) with
    | None => None
    | Some segments =>
        if existsb (λ segment, existsb (λ b, (b =? 47)%N || (b =? 92)%N)
             (decode_binary (utf8 segment))) segments
        then None else Some (decoded_path_bytes p)
    end.

(** [PartialEq]. *)
Definition uri_eqb (p q : PathUri) : bool :=
  bool_decide (url_of p = url_of q)
  || match windows_identity_path_bytes p, windows_identity_path_bytes q with
     | Some path, Some other_path =>
         bool_decide (url_host_str (url_of p) = url_host_str (url_of q))
         && bytes_eq_ignore_ascii_case path other_path
     | _, _ => false
     end.

(** What [Hash] feeds to the hasher: the URL, or the host and the folded bytes with their
    number. *)
Definition hash_input (p : PathUri) : Url + (option str * nat * list byte) :=
  match windows_identity_path_bytes p with
  | None => inl (url_of p)
  | Some path => inr (url_host_str (url_of p), length path, to_ascii_lowercase path)
  end.

(** ** Lexical operations *)

Definition basename (p : PathUri) : option str :=
  if bool_decide (is_Some (decode_bad_path_uri (url_of p))) then None
  else match url_path_segments (url_of p) with
       | None => None
       | Some segments => decode_uri_path <$> last (nonempty_segments segments)
       end.

Definition parent (p : PathUri) : option PathUri :=
  if bool_decide (is_Some (decode_bad_path_uri (url_of p))) then None
  else
    match infer_path_convention p, url_path_segments (url_of p) with
    | Some c, Some segments =>
        if length (nonempty_segments segments) <=? anchor_depth c then None
        else Some (mkPathUri (segments_pop (segments_pop_if_empty (url_of p))))
    | _, _ => None
    end.

(** [ancestors], as the list of the iterator's items; the number of segments bounds it. *)
Fixpoint successors (fuel : nat) (p : PathUri) : list PathUri :=
  match fuel with
  | 0 => [p]
  | S fuel =>
      p :: match parent p with
           | Some q => successors fuel q
           | None => []
           end
  end.
Definition ancestors (p : PathUri) : list PathUri :=
  successors (length (default [] (url_path_segments (url_of p)))) p.

Definition uri_starts_with (p base : PathUri) : bool :=
  if uri_eqb p base then true
  else if bool_decide (is_Some (decode_bad_path_uri (url_of p)))
          || bool_decide (is_Some (decode_bad_path_uri (url_of base))) then false
  else if negb (bool_decide (url_host_str (url_of p) = url_host_str (url_of base))) then false
  else
    let convention := infer_path_convention p in
    if negb (bool_decide (convention = infer_path_convention base)) then false
    else
      let c := default Posix convention in
      match containment_path_segments (url_of p) c, containment_path_segments (url_of base) c with
      | Some path_segments, Some base_segments =>
          native_path_segments_start_with path_segments base_segments c
      | _, _ => false
      end.

Definition lexical_depth (p : PathUri) : option nat :=
  if bool_decide (is_Some (decode_bad_path_uri (url_of p))) then None
  else match infer_path_convention p with
       | None => None
       | Some c => length <$> containment_path_segments (url_of p) c
       end.

Definition overlaps (p other : PathUri) : option bool :=
  if uri_eqb p other then Some true
  else match lexical_depth p, lexical_depth other with
       | Some _, Some _ => Some (uri_starts_with p other || uri_starts_with other p)
       | _, _ => None
       end.

Definition native_separator (c : PathConvention) : str :=
  match c with
  | Posix => [47%N]
  | Windows => [92%N]
  end.

Definition relative_path_from (p base : PathUri) : option str :=
  if uri_eqb p base then Some []
  else if bool_decide (is_Some (decode_bad_path_uri (url_of p)))
          || bool_decide (is_Some (decode_bad_path_uri (url_of base)))
          || negb (bool_decide (url_host_str (url_of p) = url_host_str (url_of base)))
          || negb (bool_decide (infer_path_convention p = infer_path_convention base)) then None
  else
    match infer_path_convention p with
    | None => None
    | Some c =>
        match containment_path_segments (url_of p) c, containment_path_segments (url_of base) c with
        | Some path_segments, Some base_segments =>
            if native_path_segments_start_with path_segments base_segments c
            then Some (join (native_separator c)
                         (decode_uri_path <$> drop (length base_segments) path_segments))
            else None
        | _, _ => None
        end
    end.

(** One component of a joined path: the URL and the number of non-empty segments. *)
Definition join_component (anchor : nat) (st : Url * nat) (component : str) : Url * nat :=
  let '(url, depth) := st in
  if bool_decide (component = []) || bool_decide (component = dot) then (url, depth)
  else if bool_decide (component = dotdot) then
    if anchor <? depth then (segments_pop url, depth - 1) else (url, depth)
  else (segments_push component url, S depth).

Definition starts_with_drive (path : str) : option char :=
  match path with
  | d :: c :: _ => if is_ascii_alphabetic d && (c =? 58)%N then Some d else None
  | _ => None
  end.

(** The segments of a relative path appended to the base. *)
Definition join_relative (p : PathUri) (c : PathConvention) (path : str)
    : Result PathUri PathUriParseError :=
  if bool_decide (is_Some (decode_bad_path_uri (url_of p)))
  then Err (InvalidFileUriPath (url_as_str (url_of p)))
  else
    let depth := length (nonempty_segments (default [] (url_path_segments (url_of p)))) in
    let windows_root_relative :=
      bool_decide (c = Windows)
      && match path with
         | a :: b :: _ => is_windows_separator a && negb (is_windows_separator b)
         | [a] => is_windows_separator a
         | [] => false
         end in
    let url := segments_pop_if_empty (url_of p) in
    let '(url, depth) :=
      if windows_root_relative
      then (Nat.iter (depth - anchor_depth c) segments_pop url, Nat.min depth (anchor_depth c))
      else (url, depth) in
    let path := match c with
                | Posix => path
                | Windows => replace_char 92 47 path
                end in
    try_from_url (foldl (join_component (anchor_depth c)) (url, depth) (split_char 47 path)).1.

Definition uri_join (p : PathUri) (path : str) : Result PathUri PathUriParseError :=
  if contains_char path 0 then Err (InvalidFileUriPath path)
  else if is_empty path then Ok p
  else
    match infer_path_convention p with
    | None => Err (InvalidFileUriPath (url_as_str (url_of p)))
    | Some c =>
        match from_absolute_native_path path c with
        | Some absolute => Ok absolute
        | None =>
            match (if bool_decide (c = Windows) then starts_with_drive path else None) with
            | Some d =>
                let same_drive :=
                  match nonempty_segments (default [] (url_path_segments (url_of p))) with
                  | segment :: _ =>
                      is_windows_drive_uri_segment segment
                      && bool_decide (to_ascii_lowercase_char <$> head segment
                                      = Some (to_ascii_lowercase_char d))
                  | [] => false
                  end in
                if same_drive then join_relative p c (drop 2 path)
                else Err (InvalidFileUriPath path)
            | None => join_relative p c path
            end
        end
    end.

Definition join_descendant (p : PathUri) (path : str) : Result PathUri PathUriParseError :=
  let? descendant := uri_join p path in
  let windows := bool_decide (infer_path_convention p = Some Windows) in
  if starts_with path [47%N]
     || (windows && (starts_with path [92%N]
                     || existsb (λ segment, contains_char segment 58) (path_segments Windows path)))
     || negb (uri_starts_with descendant p)
  then Err (JoinPathMustBeDescendant path)
  else Ok descendant.

(** [join_native_bytes]: text in UTF-8 is joined as text. *)
Fixpoint join_bytes_loop (segments : list str) (components : list (list byte)) : list str :=
  match components with
  | [] => segments
  | comp :: components =>
      if bool_decide (comp = []) || bool_decide (comp = dot)
      then join_bytes_loop segments components
      else if bool_decide (comp = dotdot) then join_bytes_loop (removelast segments) components
      else join_bytes_loop (segments ++ [encode_binary comp]) components
  end.

Definition join_native_bytes (p : PathUri) (path : list byte) : Result PathUri PathUriParseError :=
  match from_utf8 path with
  | Ok path => uri_join p path
  | Err _ =>
      if negb (bool_decide (infer_path_convention p = Some Posix))
         || bool_decide (is_Some (opaque_fallback_bytes p)) || contains_char path 0
      then Err (InvalidFileUriPath (url_as_str (url_of p)))
      else
        let segments := if starts_with path [47%N] then []
                        else nonempty_segments (split_char 47 (url_path (url_of p))) in
        let segments := join_bytes_loop segments (split_char 47 path) in
        let? uri := try_from_url (url_set_path (47%N :: join [47%N] segments) (url_of p)) in
        if negb (bool_decide (infer_path_convention uri = Some Posix))
        then Err (InvalidFileUriPath (url_as_str (url_of uri)))
        else Ok uri
  end.
End PathUri.

Arguments PathUriParseError {_}.
Arguments PathUri {_}.
