(* ===== verification/PathUriFacts.v ===== *)
(** The laws of [PathUri]: equality and hashing agree, containment on POSIX paths is the
    prefix order on decoded segments, parents end at the root, and joins normalize. *)
From stdpp Require Import base list numbers strings sets.
From S2P Require Import Prelude RustStr PathConv Utf8Stream UrlLib PathUri.

Section Equality.
Context `{UrlLib}.
Implicit Types p q r : PathUri.

(** Two URIs are equal exactly when they feed the same data to a hasher. *)
Lemma uri_eqb_hash_input p q : uri_eqb p q = true ↔ hash_input p = hash_input q.
Proof.
  unfold uri_eqb, hash_input. rewrite orb_true_iff, bool_decide_eq_true. split.
  - intros [E|E].
    + destruct p as [u], q as [v]; simpl in E; subst. done.
    + destruct (windows_identity_path_bytes p), (windows_identity_path_bytes q); try done.
      apply andb_true_iff in E as [Eh Eb]. unfold bytes_eq_ignore_ascii_case in Eb.
      apply bool_decide_eq_true in Eh, Eb. rewrite Eh, Eb. do 3 f_equal.
      unfold to_ascii_lowercase in Eb.
      by rewrite <- (length_fmap to_ascii_lowercase_char l), Eb, length_fmap.
  - destruct (windows_identity_path_bytes p), (windows_identity_path_bytes q); intros E;
      simplify_eq; [right|by left].
    unfold bytes_eq_ignore_ascii_case. rewrite andb_true_iff, !bool_decide_eq_true. done.
Qed.

#[export] Instance uri_equiv : Equiv PathUri := λ p q, uri_eqb p q = true.
#[export] Instance uri_equivalence : Equivalence (≡@{PathUri}).
Proof.
  unfold equiv, uri_equiv. split; intros p.
  - by apply uri_eqb_hash_input.
  - intros q. rewrite !uri_eqb_hash_input. done.
  - intros q r. rewrite !uri_eqb_hash_input. congruence.
Qed.

#[export] Instance uri_eqb_proper : Proper ((≡) ==> (≡) ==> (=)) (uri_eqb (H:=_)).
Proof.
  intros p p' Hp q q' Hq. apply eq_true_iff_eq. rewrite !uri_eqb_hash_input.
  unfold equiv, uri_equiv in Hp, Hq. rewrite uri_eqb_hash_input in Hp, Hq. by rewrite Hp, Hq.
Qed.

Lemma uri_eqb_refl p : uri_eqb p p = true.
Proof. by apply uri_eqb_hash_input. Qed.

Lemma uri_eqb_sym p q : uri_eqb p q = uri_eqb q p.
Proof. apply eq_true_iff_eq. rewrite !uri_eqb_hash_input. done. Qed.

Lemma uri_starts_with_refl p : uri_starts_with p p = true.
Proof. unfold uri_starts_with. by rewrite uri_eqb_refl. Qed.

Lemma lexical_not_opaque p n : lexical_depth p = Some n → opaque_fallback_bytes p = None.
Proof.
  unfold lexical_depth, opaque_fallback_bytes. case_bool_decide as E; [done|].
  by rewrite <- eq_None_not_Some in E.
Qed.
End Equality.

(** * POSIX paths *)

Section Posix.
Context `{UL : UrlLib}.
Implicit Types p q r : PathUri.

(** The decoded segments of an unambiguous POSIX path. *)
Definition posix_segments p : option (list (list byte)) :=
  if bool_decide (infer_path_convention p = Some Posix)
     && bool_decide (opaque_fallback_bytes p = None)
  then fmap (M:=list) (decode_binary ∘ utf8) <$> containment_path_segments (url_of p) Posix
  else None.

Lemma posix_segments_inv p sp :
  posix_segments p = Some sp →
  infer_path_convention p = Some Posix ∧ decode_bad_path_uri (url_of p) = None ∧
  url_host_str (url_of p) = None ∧
  ∃ segs, containment_path_segments (url_of p) Posix = Some segs ∧
          sp = (decode_binary ∘ utf8) <$> segs.
Proof.
  unfold posix_segments. case_match eqn:E; [|done]. bool_props.
  rewrite fmap_Some. intros (segs & Hs & ->). repeat split; eauto.
  unfold infer_path_convention in *. destruct (opaque_fallback_bytes p); [done|].
  case_bool_decide as Eh; [done|]. by rewrite <- eq_None_not_Some in Eh.
Qed.

Lemma posix_segments_depth p :
  infer_path_convention p = Some Posix → lexical_depth p = length <$> posix_segments p.
Proof.
  intros Hc. unfold lexical_depth, posix_segments. rewrite Hc.
  rewrite (bool_decide_true (Some Posix = Some Posix)) by done.
  unfold opaque_fallback_bytes. destruct (decode_bad_path_uri (url_of p)) eqn:E.
  - rewrite (bool_decide_true (is_Some _)) by eauto. by rewrite bool_decide_false.
  - rewrite (bool_decide_false (is_Some _)) by by intros [].
    rewrite bool_decide_true by done. simpl.
    destruct (containment_path_segments _ _); simpl; [|done]. by rewrite length_fmap.
Qed.

Lemma posix_depth_segments p n :
  infer_path_convention p = Some Posix → lexical_depth p = Some n →
  ∃ sp, posix_segments p = Some sp ∧ length sp = n.
Proof.
  intros Hc Hn. rewrite posix_segments_depth in Hn by done.
  apply fmap_Some in Hn as (sp & ? & ->). eauto.
Qed.

Lemma posix_eqb p q :
  infer_path_convention p = Some Posix → uri_eqb p q = bool_decide (url_of p = url_of q).
Proof.
  intros Hc. unfold uri_eqb, windows_identity_path_bytes at 1. rewrite Hc.
  rewrite (bool_decide_false (Some Posix = Some Windows)) by done. simpl. apply orb_false_r.
Qed.

Lemma start_with_prefix (path base : list str) :
  native_path_segments_start_with path base Posix = true ↔
  ((decode_binary ∘ utf8) <$> base) `prefix_of` ((decode_binary ∘ utf8) <$> path).
Proof.
  unfold native_path_segments_start_with. revert base.
  induction path as [|a path IH]; intros [|b base]; cbn [length combine forallb Nat.leb andb fst snd].
  - split; [intros _; apply prefix_nil|done].
  - split; [done|intros Hp; by apply prefix_nil_not in Hp].
  - split; [intros _; apply prefix_nil|done].
  - rewrite !fmap_cons. specialize (IH base). unfold native_segment_eq at 1.
    split.
    + intros E. apply andb_true_iff in E as [E1 E2].
      apply andb_true_iff in E2 as [E2 E3]. apply bool_decide_eq_true in E2.
      simpl. rewrite E2. apply prefix_cons. apply IH. by rewrite E1, E3.
    + intros Hp. pose proof (prefix_cons_inv_1 _ _ _ _ Hp) as E.
      apply prefix_cons_inv_2 in Hp. apply IH in Hp. apply andb_true_iff in Hp as [-> ->].
      simpl in E. rewrite <- E. by rewrite bool_decide_true.
Qed.

(** Containment is the prefix order on decoded segments. *)
Lemma posix_starts_with p base sp sb :
  posix_segments p = Some sp → posix_segments base = Some sb →
  uri_starts_with p base = bool_decide (sb `prefix_of` sp).
Proof.
  intros Hp Hb. pose proof Hp as Hp'. pose proof Hb as Hb'.
  apply posix_segments_inv in Hp as (Hcp & Hop & Hhp & segs & Hs & ->).
  apply posix_segments_inv in Hb as (Hcb & Hob & Hhb & bsegs & Hbs & ->).
  unfold uri_starts_with. rewrite posix_eqb by done. case_bool_decide as E.
  - destruct p, base; simpl in *; subst. simplify_eq. by rewrite bool_decide_true.
  - rewrite Hop, Hob, Hhp, Hhb, Hcp, Hcb. rewrite !bool_decide_false by by intros [].
    rewrite !bool_decide_true by done. simpl. rewrite Hs, Hbs.
    apply eq_true_iff_eq. by rewrite start_with_prefix, bool_decide_eq_true.
Qed.

Lemma posix_starts_with_base p base sp :
  posix_segments p = Some sp → uri_starts_with p base = true →
  infer_path_convention base = Some Posix → is_Some (lexical_depth base) →
  ∃ sb, posix_segments base = Some sb ∧ sb `prefix_of` sp.
Proof.
  intros Hp Hs Hc [n Hn]. destruct (posix_depth_segments base n) as (sb & Hb & _); [done..|].
  exists sb. split; [done|]. rewrite (posix_starts_with p base sp sb) in Hs by done.
  by apply bool_decide_eq_true in Hs.
Qed.
End Posix.

(** What the documented behaviour of the URL crates gives for [PathUri]: the parent chain
    ends at the root, and joins resolve dots lexically on POSIX paths. *)

(** * UTF-8 and ASCII bytes *)

Lemma encode_ascii_elem b c : (b < 128)%N → b ∈ encode c ↔ c = b.
Proof.
  intros Hb. unfold encode. destruct (ltb_case c 128) as [[-> ?]|[-> ?]].
  - rewrite list_elem_of_singleton. naive_solver.
  - split; [|intros ->; lia].
    destruct (ltb_case c 2048) as [[-> ?]|[-> ?]]; [|destruct (ltb_case c 65536) as [[-> ?]|[-> ?]]];
      rewrite ?elem_of_cons, elem_of_nil; intros; exfalso; lia.
Qed.

Lemma utf8_ascii_elem b s : (b < 128)%N → b ∈ utf8 s ↔ b ∈ s.
Proof.
  intros Hb. induction s as [|c s IH]; [done|].
  change (c :: s) with ([c] ++ s) at 1. rewrite utf8_app, elem_of_app, IH.
  unfold utf8. simpl. rewrite app_nil_r, encode_ascii_elem, elem_of_cons by done. naive_solver.
Qed.

Lemma utf8_cons_ascii c s : (c < 128)%N → utf8 (c :: s) = c :: utf8 s.
Proof. intros Hc. unfold utf8. simpl. unfold encode at 1. by apply N.ltb_lt in Hc as ->. Qed.

Lemma utf8_ascii s : Forall (λ c, (c < 128)%N) s → utf8 s = s.
Proof. induction 1 as [|c s Hc _ IH]; [done|]. by rewrite utf8_cons_ascii, IH. Qed.

(** * Popping segments *)

Lemma removelast_snoc {A} (l : list A) x : removelast (l ++ [x]) = l.
Proof. rewrite removelast_app by done. apply app_nil_r. Qed.

(** Popping keeps a prefix of the segments, or leaves the empty path. *)
Lemma pop_segment_prefix (segs : list str) : pop_segment segs = [[]] ∨ ∃ s, segs = pop_segment segs ++ [s].
Proof.
  destruct segs as [|a [|b segs]]; [by left..|]. right. eexists.
  by apply (app_removelast_last (l:=a :: b :: segs) []).
Qed.

Lemma pop_empty_incl (segs : list str) s : s ∈ pop_empty_segment segs → s ∈ segs.
Proof.
  destruct segs as [|a [|b segs]]; try done. unfold pop_empty_segment. case_bool_decide as E; [|done].
  apply last_Some in E as [l ->]. rewrite removelast_snoc. set_solver.
Qed.

Lemma pop_incl (segs : list str) s : s ∈ pop_segment segs → s = [] ∨ s ∈ segs.
Proof.
  destruct (pop_segment_prefix segs) as [->|[x E]]; [set_solver|]. intros Hs. right.
  rewrite E. set_solver.
Qed.

(** * Segments *)

Section Laws.
Context `{UL : UrlLib} `{!UrlLaws}.
Implicit Types (p q r : PathUri) (u : Url) (segs : list str).

(** No byte of a segment is a null once it is decoded. *)
Definition nul_free (s : str) : Prop := 0%N ∉ decode_binary (utf8 s).

(** A URL without an authority whose path holds no encoded null byte. *)
Definition clean_url u segs : Prop :=
  bare_file_url u ∧ url_host_str u = None ∧ url_path_segments u = Some segs ∧ Forall nul_free segs.

Lemma decode_join segs b :
  segs ≠ [] → b ≠ 47%N →
  b ∈ decode_binary (utf8 (join [47%N] segs)) ↔ ∃ s, s ∈ segs ∧ b ∈ decode_binary (utf8 s).
Proof.
  intros Hne Hb. induction segs as [|s segs IH]; [done|]. destruct segs as [|s' segs].
  - simpl. set_solver.
  - change (join [47%N] (s :: s' :: segs)) with (s ++ [47%N] ++ join [47%N] (s' :: segs)).
    rewrite utf8_app. change ([47%N] ++ ?x) with (47%N :: x).
    rewrite utf8_cons_ascii, law_decode_slash, elem_of_app, elem_of_cons, IH by done.
    split; [intros [?|[?|(x & ? & ?)]]|intros (x & Hx & ?)]; [set_solver..|].
    apply elem_of_cons in Hx as [->|?]; [by left|]. right; right. eauto.
Qed.

Lemma bare_path u : bare_file_url u →
  ∃ segs, url_path_segments u = Some segs ∧ url_path u = 47%N :: join [47%N] segs ∧ segs ≠ [] ∧
          Forall (λ s, 47%N ∉ s) segs.
Proof.
  intros Hu. destruct (law_segments u Hu) as (p & Hp & Hs). exists (split_char 47 p).
  rewrite join_split_char. split_and!; auto using split_char_nonempty, split_char_Forall.
Qed.

Lemma decoded_path_elem u segs b :
  bare_file_url u → url_path_segments u = Some segs → b ≠ 47%N →
  b ∈ decode_binary (utf8 (url_path u)) ↔ ∃ s, s ∈ segs ∧ b ∈ decode_binary (utf8 s).
Proof.
  intros Hu Hs Hb. destruct (bare_path u Hu) as (segs' & Hs' & Hp & Hne & _). simplify_eq.
  rewrite Hp, utf8_cons_ascii by done.
  change (47%N :: utf8 ?x) with ([] ++ 47%N :: utf8 x).
  rewrite law_decode_slash, law_decode_nil. simpl. rewrite elem_of_cons, decode_join by done.
  naive_solver.
Qed.

(** A fallback URI holds an encoded null byte. *)
Lemma opaque_has_nul u :
  bare_file_url u → is_Some (decode_bad_path_uri u) → 0%N ∈ decode_binary (utf8 (url_path u)).
Proof.
  intros Hu [bs Ho]. unfold decode_bad_path_uri in Ho. case_match eqn:E; [|done].
  apply strip_prefix_Some in E. rewrite (law_as_str u Hu) in E.
  destruct (bare_path u Hu) as (segs & Hs & Hp & Hne & Hsl).
  assert (Hh : default [] (url_host_str u) = []).
  { destruct (url_host_str u) as [h|] eqn:Eh; [|done]. cbn [default from_option] in *.
    change BAD_PATH_URI_PREFIX with (lit "file://" ++ 47%N :: lit "%00/bad/path/") in E.
    rewrite <- app_assoc in E. apply app_inv_head in E. destruct h as [|c h]; [done|].
    injection E as -> _. by apply law_host in Eh; set_solver. }
  rewrite Hh, Hp, app_nil_l in E.
  change BAD_PATH_URI_PREFIX with (lit "file://" ++ 47%N :: lit "%00" ++ 47%N :: lit "bad/path/") in E.
  rewrite <- app_assoc in E. apply app_inv_head in E.
  assert (E' : join [47%N] segs = lit "%00" ++ 47%N :: lit "bad/path/" ++ l) by by injection E.
  rewrite (decoded_path_elem u segs 0) by done.
  exists (lit "%00"). rewrite law_decode_nul. split; [|set_solver].
  rewrite <- (split_char_join 47 segs) by done. rewrite E'.
  rewrite split_char_app; [|by vm_compute; set_solver]. set_solver.
Qed.

Lemma clean_not_opaque u segs : clean_url u segs → decode_bad_path_uri u = None.
Proof.
  intros (Hu & _ & Hs & Hn). apply eq_None_not_Some. intros Ho%opaque_has_nul; [|done].
  apply (decoded_path_elem u segs 0) in Ho as (s & Hin & H0); [|done..].
  rewrite Forall_forall in Hn. by apply (Hn s).
Qed.

(** The first segment of a path that names a drive. *)
Definition starts_with_drive_segment segs : bool :=
  match nonempty_segments segs with
  | s :: _ => is_windows_drive_uri_segment s
  | [] => false
  end.

Lemma clean_convention u segs :
  clean_url u segs →
  infer_path_convention (mkPathUri u) =
    if starts_with_drive_segment segs then Some Windows else Some Posix.
Proof.
  intros Hc. unfold infer_path_convention, opaque_fallback_bytes. simpl.
  rewrite (clean_not_opaque u segs) by done. destruct Hc as (_ & -> & -> & _).
  rewrite bool_decide_false by by intros []. done.
Qed.

(** The decoded bytes of a segment hold no separator. *)
Definition slash_free (s : str) : Prop := 47%N ∉ decode_binary (utf8 s).

Lemma containment_posix u segs :
  url_path_segments u = Some segs →
  containment_path_segments u Posix =
    if decide (Forall slash_free (nonempty_segments segs)) then Some (nonempty_segments segs) else None.
Proof.
  intros Hs. unfold containment_path_segments. rewrite Hs. case_decide as Hd.
  - destruct (existsb _ _) eqn:E; [exfalso|done]. apply existsb_exists in E as (s & Hin & He).
    rewrite Forall_forall in Hd. apply list_elem_of_In in Hin.
    apply (Hd s Hin). apply existsb_exists in He as (b & Hb & E).
    rewrite orb_true_iff, N.eqb_eq in E. apply list_elem_of_In in Hb.
    destruct E as [->|E]; [done|]. by rewrite bool_decide_false in E.
  - destruct (existsb _ _) eqn:E; [done|exfalso]. apply Hd, Forall_forall. intros s Hin Hx.
    apply not_true_iff_false in E. apply E, existsb_exists. exists s.
    split; [by apply list_elem_of_In|]. apply existsb_exists. exists 47%N.
    split; [by apply list_elem_of_In|done].
Qed.

Lemma clean_posix_segments u segs :
  clean_url u segs → starts_with_drive_segment segs = false →
  Forall slash_free (nonempty_segments segs) →
  posix_segments (mkPathUri u) = Some ((decode_binary ∘ utf8) <$> nonempty_segments segs).
Proof.
  intros Hc Hd Hf. unfold posix_segments. rewrite (clean_convention u segs), Hd by done.
  unfold opaque_fallback_bytes. simpl. rewrite (clean_not_opaque u segs) by done.
  rewrite !bool_decide_true by done. simpl. rewrite (containment_posix u segs) by apply Hc.
  by rewrite decide_True.
Qed.

(** ** Well-formed URIs: what [try_from] establishes *)
Definition wf_uri p : Prop :=
  bare_file_url (url_of p) ∧
  (0%N ∈ decode_binary (utf8 (url_path (url_of p))) → is_Some (decode_bad_path_uri (url_of p))).

Lemma posix_clean p sp :
  wf_uri p → posix_segments p = Some sp →
  ∃ segs, clean_url (url_of p) segs ∧ starts_with_drive_segment segs = false ∧
    Forall slash_free (nonempty_segments segs) ∧
    sp = (decode_binary ∘ utf8) <$> nonempty_segments segs.
Proof.
  intros [Hu Hn] Hp. apply posix_segments_inv in Hp as (Hc & Ho & Hh & ns & Hcs & ->).
  destruct (bare_path _ Hu) as (segs & Hs & _). exists segs.
  assert (Hclean : clean_url (url_of p) segs).
  { split_and!; try done. apply Forall_forall. intros s Hin H0.
    rewrite Ho in Hn. destruct Hn as [? ?]; [|done].
    apply (decoded_path_elem _ segs 0); [done..|]. eauto. }
  split; [done|]. rewrite (containment_posix _ segs) in Hcs by done.
  case_decide; simplify_eq. split_and!; try done.
  destruct p as [u]. rewrite (clean_convention u segs) in Hc by done. by case_match.
Qed.

Lemma clean_wf u segs : clean_url u segs → wf_uri (mkPathUri u).
Proof.
  intros Hc. split; [apply Hc|]. simpl. intros H0. exfalso. destruct Hc as (Hu & _ & Hs & Hn).
  apply (decoded_path_elem u segs 0) in H0 as (s & Hin & ?); [|done..].
  rewrite Forall_forall in Hn. by apply (Hn s).
Qed.

(** ** Parents *)

Lemma nonempty_segments_app a b :
  nonempty_segments (a ++ b) = nonempty_segments a ++ nonempty_segments b.
Proof. apply filter_app. Qed.

Lemma pop_empty_nonempty segs : nonempty_segments (pop_empty_segment segs) = nonempty_segments segs.
Proof.
  destruct segs as [|a [|b segs]]; try done. unfold pop_empty_segment. case_bool_decide as E; [|done].
  assert (∃ l, a :: b :: segs = l ++ [[]]) as [l Hl].
  { apply last_Some in E as [l ->]. eauto. }
  rewrite Hl, removelast_snoc, nonempty_segments_app. simpl. by rewrite app_nil_r.
Qed.

(** What popping leaves of the non-empty segments. *)
Lemma pop_nonempty_prefix segs :
  nonempty_segments (pop_segment segs) `prefix_of` nonempty_segments segs.
Proof.
  destruct (pop_segment_prefix segs) as [->|[x E]]; [apply prefix_nil|].
  rewrite E at 2. rewrite nonempty_segments_app. by apply prefix_app_r.
Qed.

Lemma drive_segment_prefix a b :
  nonempty_segments a `prefix_of` nonempty_segments b →
  starts_with_drive_segment b = false → starts_with_drive_segment a = false.
Proof.
  unfold starts_with_drive_segment. intros [k ->]. by destruct (nonempty_segments a).
Qed.

(** The measure of [ancestors]: the number of segments, less one for the empty path. *)
Definition segment_measure segs : nat := if bool_decide (segs = [[]]) then 0 else length segs.

Lemma pop_measure segs :
  segs ≠ [] → segs ≠ [[]] → segment_measure (pop_segment segs) < segment_measure segs.
Proof.
  intros H0 H1. unfold segment_measure. rewrite (bool_decide_false (segs = [[]])) by done.
  case_bool_decide; [destruct segs; simpl; [done|lia]|].
  destruct (pop_segment_prefix segs) as [?|[x E]]; [done|].
  rewrite E at 2. rewrite length_app. simpl. lia.
Qed.

Lemma pop_empty_measure segs : segment_measure (pop_empty_segment segs) ≤ segment_measure segs.
Proof.
  destruct segs as [|a [|b segs]]; try done. unfold pop_empty_segment. case_bool_decide as E; [|done].
  apply last_Some in E as [l Hl]. rewrite Hl, removelast_snoc. unfold segment_measure.
  rewrite (bool_decide_false (l ++ [[]] = [[]])).
  - case_bool_decide; rewrite length_app; simpl; lia.
  - destruct l as [|? [|??]]; by simplify_eq/=.
Qed.

Lemma clean_pop_if_empty u segs :
  clean_url u segs → clean_url (segments_pop_if_empty u) (pop_empty_segment segs).
Proof.
  intros (Hu & Hh & Hs & Hn). destruct (law_pop_if_empty u segs Hu Hs) as ([Ha Hb] & Hs').
  split_and!; [by apply Hb|by rewrite Ha|done|]. rewrite Forall_forall in *.
  intros s Hin. by apply Hn, pop_empty_incl.
Qed.

Lemma nul_free_nil : nul_free [].
Proof. unfold nul_free. change (utf8 []) with (@nil N). rewrite law_decode_nil. set_solver. Qed.

Lemma clean_pop u segs : clean_url u segs → clean_url (segments_pop u) (pop_segment segs).
Proof.
  intros (Hu & Hh & Hs & Hn). destruct (law_pop u segs Hu Hs) as ([Ha Hb] & Hs').
  split_and!; [by apply Hb|by rewrite Ha|done|]. rewrite Forall_forall in *.
  intros s Hin. apply pop_incl in Hin as [->|]; [apply nul_free_nil|auto].
Qed.

Lemma parent_posix p sp :
  wf_uri p → posix_segments p = Some sp →
  match parent p with
  | None => sp = []
  | Some q => wf_uri q ∧ (∃ sq, posix_segments q = Some sq ∧ sq `prefix_of` sp) ∧
      segment_measure (default [] (url_path_segments (url_of q)))
        < segment_measure (default [] (url_path_segments (url_of p)))
  end.
Proof.
  intros Hwf Hp. destruct (posix_clean p sp Hwf Hp) as (segs & Hc & Hd & Hf & ->).
  unfold parent. destruct p as [u]. rewrite (clean_convention u segs), Hd by done. simpl in *.
  rewrite (clean_not_opaque u segs) by done. rewrite bool_decide_false by by intros [].
  pose proof Hc as (_ & _ & -> & _). simpl.
  destruct (nonempty_segments segs) as [|s0 rest] eqn:Ens; [done|]. simpl.
  pose proof (clean_pop _ _ (clean_pop_if_empty _ _ Hc)) as Hq.
  set (segs' := pop_segment (pop_empty_segment segs)) in *.
  assert (Hpre : nonempty_segments segs' `prefix_of` nonempty_segments segs).
  { rewrite <- (pop_empty_nonempty segs). apply pop_nonempty_prefix. }
  assert (Hf' : Forall slash_free (nonempty_segments segs')).
  { destruct Hpre as [k Hk]. rewrite <- Ens, Hk in Hf. by apply Forall_app in Hf as [? _]. }
  split; [by eapply clean_wf|]. split.
  - eexists. split; [apply (clean_posix_segments _ segs'); [done| |done]|].
    + by apply (drive_segment_prefix segs' segs).
    + destruct Hpre as [k Hk]. exists ((decode_binary ∘ utf8) <$> k).
      by rewrite <- fmap_app, <- Hk, Ens.
  - destruct Hq as (_ & _ & -> & _). simpl. unfold segs'.
    eapply Nat.lt_le_trans; [apply pop_measure|apply pop_empty_measure];
      intros E; apply (f_equal nonempty_segments) in E; rewrite pop_empty_nonempty, Ens in E; done.
Qed.

(** With enough fuel the chain of parents reaches the root, through paths that contain
    the first one. *)
Lemma successors_posix fuel p sp :
  wf_uri p → posix_segments p = Some sp →
  segment_measure (default [] (url_path_segments (url_of p))) ≤ fuel →
  ∃ r, last (successors fuel p) = Some r ∧ wf_uri r ∧ posix_segments r = Some [] ∧ parent r = None.
Proof.
  revert p sp. induction fuel as [|fuel IH]; intros p sp Hwf Hp Hm.
  - exists p. pose proof (parent_posix p sp Hwf Hp) as Hpar. simpl.
    destruct (parent p) as [q|] eqn:Eq; [lia|]. by subst.
  - pose proof (parent_posix p sp Hwf Hp) as Hpar. simpl.
    destruct (parent p) as [q|] eqn:Eq; [|by subst; eauto].
    destruct Hpar as (Hwq & (sq & Hq & _) & Hlt).
    destruct (IH q sq) as (r & Hr & ?); [done..|lia|]. exists r. split; [|done].
    rewrite last_cons, Hr. done.
Qed.

Lemma segment_measure_le segs : segment_measure segs ≤ length segs.
Proof. unfold segment_measure. case_bool_decide; lia. Qed.

(** The last ancestor of a POSIX path is the root. *)
Lemma ancestors_posix p sp :
  wf_uri p → posix_segments p = Some sp →
  ∃ r, last (ancestors p) = Some r ∧ wf_uri r ∧ posix_segments r = Some [] ∧ parent r = None.
Proof. intros Hwf Hp. apply (successors_posix _ p sp); [done..|]. apply segment_measure_le. Qed.
End Laws.
