(* ===== verification/UrlModel.v ===== *)
(** An executable implementation of the URL interface: a host and a path with
    percent-encoding. It shows that the laws the theorems about paths rely on can hold
    together, and lets the model of [PathUri] run on concrete inputs. Opaque payloads
    are written in hexadecimal here. *)
From stdpp Require Import proof_irrel base list sets numbers strings.
From S2P Require Import Prelude RustStr PathConv NetIp Utf8Stream UrlLib PathUri PathUriFacts.

(** * Percent-encoding *)

Definition hex_digit (n : N) : char := if (n <? 10)%N then (48 + n)%N else (55 + n)%N.
Definition percent (b : byte) : str := [37%N; hex_digit (b / 16); hex_digit (b mod 16)].

Definition unreserved (b : byte) : bool :=
  is_ascii_alphabetic b || is_ascii_digit b || (b =? 45)%N || (b =? 46)%N || (b =? 95)%N || (b =? 126)%N.
Definition encode_byte (b : byte) : str := if unreserved b then [b] else percent b.
Definition percent_encode (bs : list byte) : str := concat (encode_byte <$> bs).

Fixpoint percent_decode (bs : list byte) : list byte :=
  match bs with
  | [] => []
  | c :: bs' =>
      if (c =? 37)%N then
        match bs' with
        | a :: b :: rest =>
            match to_digit 16 a, to_digit 16 b with
            | Some x, Some y => (16 * x + y)%N :: percent_decode rest
            | _, _ => c :: percent_decode bs'
            end
        | _ => c :: percent_decode bs'
        end
      else c :: percent_decode bs'
  end.

Fixpoint hex_decode (s : str) : option (list byte) :=
  match s with
  | [] => Some []
  | a :: b :: s =>
      match to_digit 16 a, to_digit 16 b, hex_decode s with
      | Some x, Some y, Some bs => Some ((16 * x + y)%N :: bs)
      | _, _, _ => None
      end
  | _ => None
  end.
Definition hex_encode (bs : list byte) : str :=
  concat ((λ b, [hex_digit (b / 16); hex_digit (b mod 16)]) <$> bs).

(** * URLs *)

Record FileUrl : Type := mkFileUrl {
  f_host : str;
  f_tail : str;
  f_ok : forallb (λ c, negb (c =? 47)%N) f_host = true;
}.

Lemma FileUrl_ext u v : f_host u = f_host v → f_tail u = f_tail v → u = v.
Proof. destruct u, v; simpl. intros -> ->. f_equal. apply proof_irrel. Qed.

#[export] Instance FileUrl_eq_dec : EqDecision FileUrl.
Proof.
  intros u v. destruct (decide (f_host u = f_host v ∧ f_tail u = f_tail v)) as [[]|Hn].
  - left. by apply FileUrl_ext.
  - right. intros ->. by apply Hn.
Defined.

Definition file_url (host tail : str) : option FileUrl :=
  match bool_dec (forallb (λ c, negb (c =? 47)%N) host) true with
  | left ok => Some (mkFileUrl host tail ok)
  | right _ => None
  end.

Definition with_tail (tail : str) (u : FileUrl) : FileUrl := mkFileUrl (f_host u) tail (f_ok u).
Definition with_segments (f : list str → list str) (u : FileUrl) : FileUrl :=
  with_tail (join [47%N] (f (split_char 47 (f_tail u)))) u.

Definition f_host_str (u : FileUrl) : option str := if is_empty (f_host u) then None else Some (f_host u).
Definition f_path (u : FileUrl) : str := 47%N :: f_tail u.

Definition f_parse (s : str) : Result FileUrl unit :=
  match strip_prefix s (lit "file://") with
  | None => Err tt
  | Some s =>
      match split_once s 47 with
      | None => Err tt
      | Some (host, tail) => ok_or (file_url host tail) tt
      end
  end.

#[export] Instance file_url_lib : UrlLib := {|
  Url := FileUrl;
  ParseError := unit;
  url_parse := f_parse;
  url_scheme := λ _, lit "file";
  url_username := λ _, [];
  url_password := λ _, None;
  url_port := λ _, None;
  url_query := λ _, None;
  url_fragment := λ _, None;
  url_host_str := f_host_str;
  url_path := f_path;
  url_as_str := λ u, lit "file://" ++ f_host u ++ f_path u;
  url_path_segments := λ u, Some (split_char 47 (f_tail u));
  url_set_host := λ h u, file_url (default [] h) (f_tail u);
  url_set_path := λ p u, with_tail (default p (strip_prefix p [47%N])) u;
  segments_clear := with_tail [];
  segments_pop_if_empty := with_segments pop_empty_segment;
  segments_pop := with_segments pop_segment;
  segments_push := λ s u,
    if bool_decide (s = dot) || bool_decide (s = dotdot) then u
    else with_segments (push_segment (percent_encode (utf8 s))) u;
  decode_binary := percent_decode;
  encode_binary := percent_encode;
  url_decode := λ s, match from_utf8 (percent_decode (utf8 s)) with Ok t => Some t | Err _ => None end;
  base64_encode := hex_encode;
  base64_decode := hex_decode;
|}.

(** * The laws *)

Lemma bare_file u : bare_file_url u.
Proof. done. Qed.

Lemma percent_decode_slash a b :
  percent_decode (a ++ 47%N :: b) = percent_decode a ++ 47%N :: percent_decode b.
Proof.
  remember (length a) as n eqn:Hn. revert a Hn.
  induction n as [n IH] using lt_wf_ind. intros [|c a] ->; [done|]. simpl in IH.
  assert (IH1 : percent_decode (a ++ 47%N :: b) = percent_decode a ++ 47%N :: percent_decode b)
    by (apply (IH (length a)); [lia|done]).
  cbn [percent_decode app]. destruct (c =? 37)%N; [|by rewrite IH1].
  destruct a as [|x [|y a]].
  - destruct b as [|y b]; [done|]. by rewrite IH1.
  - cbn [app] in *. change (to_digit 16 47) with (@None N).
    destruct (to_digit 16 x); by rewrite IH1.
  - cbn [app] in *.
    destruct (to_digit 16 x) as [dx|]; [|by rewrite IH1].
    destruct (to_digit 16 y) as [dy|]; [|by rewrite IH1].
    cbn [app]. f_equal. apply (IH (length a)); [simpl; lia|done].
Qed.

Lemma percent_decode_plain a : 37%N ∉ a → percent_decode a = a.
Proof.
  induction a as [|c a IH]; [done|]. intros Hn. cbn [percent_decode].
  destruct (N.eqb_spec c 37) as [->|_]; [set_solver|]. rewrite IH by set_solver. done.
Qed.

Lemma hex_digit_inv n : (n < 16)%N → to_digit 16 (hex_digit n) = Some n.
Proof.
  rewrite <- (N2Nat.id n). generalize (N.to_nat n) as k. intros k.
  do 16 (destruct k as [|k]; [done|]). lia.
Qed.

Lemma percent_decode_percent b rest :
  (b < 256)%N → percent_decode (percent b ++ rest) = b :: percent_decode rest.
Proof.
  intros Hb. unfold percent. cbn [app percent_decode].
  rewrite !hex_digit_inv by (apply N.mod_lt || apply N.Div0.div_lt_upper_bound; lia).
  cbn. f_equal. symmetry. apply N.Div0.div_mod.
Qed.

Lemma unreserved_plain b : unreserved b = true → (b < 128)%N ∧ b ≠ 37%N ∧ b ≠ 47%N.
Proof.
  unfold unreserved, is_ascii_alphabetic, is_ascii_digit.
  rewrite !orb_true_iff, !andb_true_iff, !N.leb_le, !N.eqb_eq. lia.
Qed.

Lemma percent_decode_encode bs :
  Forall (λ b, (b < 256)%N) bs → percent_decode (percent_encode bs) = bs.
Proof.
  induction 1 as [|b bs Hb _ IH]; [done|]. unfold percent_encode in *. cbn [fmap list_fmap concat].
  unfold encode_byte at 1. destruct (unreserved b) eqn:E.
  - apply unreserved_plain in E as (_ & E & _). cbn [app percent_decode].
    by rewrite (proj2 (N.eqb_neq b 37)), IH.
  - by rewrite percent_decode_percent, IH.
Qed.

Lemma hex_digit_range n : (n < 16)%N → (48 <= hex_digit n < 71)%N.
Proof. intros Hn. unfold hex_digit. destruct (N.ltb_spec n 10); lia. Qed.

Lemma percent_encode_chars bs :
  Forall (λ b, (b < 256)%N) bs → Forall (λ c, (c < 128)%N ∧ c ≠ 47%N) (percent_encode bs).
Proof.
  induction 1 as [|b bs Hb _ IH]; [constructor|]. unfold percent_encode in *. cbn [fmap list_fmap concat].
  apply Forall_app. split; [|done]. unfold encode_byte. destruct (unreserved b) eqn:E.
  - apply unreserved_plain in E as (? & _ & ?). by constructor.
  - assert (48 <= hex_digit (b / 16) < 71)%N by (apply hex_digit_range, N.Div0.div_lt_upper_bound; lia).
    assert (48 <= hex_digit (b mod 16) < 71)%N by (apply hex_digit_range, N.mod_lt; lia).
    unfold percent. repeat constructor; lia.
Qed.

Lemma encode_bytes c : is_scalar c = true → Forall (λ b, (b < 256)%N) (encode c).
Proof.
  rewrite is_scalar_true. intros Hc. unfold encode.
  destruct (ltb_case c 128) as [[-> ?]|[-> ?]]; [repeat constructor; lia|].
  destruct (ltb_case c 2048) as [[-> ?]|[-> ?]].
  { repeat constructor; [|pose proof (N.mod_lt c 64); lia].
    assert (c / 64 < 32)%N by (apply N.Div0.div_lt_upper_bound; lia). lia. }
  destruct (ltb_case c 65536) as [[-> ?]|[-> ?]]; repeat constructor;
    try (pose proof (N.mod_lt (c / 64) 64); pose proof (N.mod_lt (c / 4096) 64);
         pose proof (N.mod_lt c 64); lia).
Qed.

Lemma utf8_bytes s : forallb is_scalar s = true → Forall (λ b, (b < 256)%N) (utf8 s).
Proof.
  induction s as [|c s IH]; [constructor|]. simpl. intros [Hc Hs]%andb_true_iff.
  change (c :: s) with ([c] ++ s). rewrite utf8_app. apply Forall_app. split; [|by apply IH].
  unfold utf8. simpl. rewrite app_nil_r. by apply encode_bytes.
Qed.

Lemma slash_free_segments (segs : list str) u f :
  split_char 47 (f_tail u) = segs → f segs ≠ [] →
  (∀ s, s ∈ f segs → s = [] ∨ s ∈ segs ∨ 47%N ∉ s) →
  split_char 47 (f_tail (with_segments f u)) = f segs.
Proof.
  intros <- Hne Hin. simpl. apply split_char_join; [done|]. apply Forall_forall. intros s Hs.
  destruct (Hin s Hs) as [->|[Hx|?]]; [set_solver| |done].
  pose proof (split_char_Forall 47 (f_tail u)) as Hf. rewrite Forall_forall in Hf. by apply Hf.
Qed.

Lemma file_host_eq (u : FileUrl) : default [] (f_host_str u) = f_host u.
Proof. unfold f_host_str. by destruct (f_host u). Qed.

Lemma host_no_slash (u : FileUrl) : 47%N ∉ f_host u.
Proof.
  destruct u as [h t ok]. simpl. intros Hx%list_elem_of_In.
  by eapply forallb_forall in ok; [|done].
Qed.

Lemma lower_slash c : to_ascii_lowercase_char c = 47%N → c = 47%N.
Proof.
  unfold to_ascii_lowercase_char, is_ascii_uppercase.
  destruct (_ && _) eqn:E; [|done]. apply andb_true_iff in E as [E1 E2].
  apply N.leb_le in E1, E2. lia.
Qed.

Lemma plain_segment_scalar s :
  plain_segment s = true → s ≠ dot ∧ s ≠ dotdot ∧ forallb is_scalar s = true.
Proof.
  unfold plain_segment. rewrite !andb_true_iff, !negb_true_iff, !bool_decide_eq_false.
  intros [[? ?] Hall]. split_and!; [done..|]. apply forallb_forall. intros x Hx.
  eapply forallb_forall in Hall; [|done]. by apply andb_true_iff in Hall as [? _].
Qed.

Lemma percent_encode_nil bs : percent_encode bs = [] → bs = [].
Proof.
  destruct bs as [|b bs]; [done|]. unfold percent_encode. cbn [fmap list_fmap concat].
  unfold encode_byte. by destruct (unreserved b).
Qed.

Lemma utf8_nil s : utf8 s = [] → s = [].
Proof.
  destruct s as [|c s]; [done|]. change (c :: s) with ([c] ++ s). rewrite utf8_app.
  unfold utf8 at 1. simpl. rewrite app_nil_r. pose proof (encode_ne c). by destruct (encode c); simpl in *; [lia|].
Qed.

Lemma file_law_push (u : FileUrl) segs s :
  url_path_segments u = Some segs → plain_segment s = true →
  ∃ enc, same_authority (segments_push s u) u ∧
    url_path_segments (segments_push s u) = Some (push_segment enc segs) ∧
    percent_decode (utf8 enc) = utf8 s ∧ (s = [] ↔ enc = []) ∧ 47%N ∉ enc.
Proof.
  intros [= <-] (Hd & Hdd & Hs)%plain_segment_scalar. exists (percent_encode (utf8 s)).
  pose proof (percent_encode_chars _ (utf8_bytes s Hs)) as Hch.
  assert (H47 : 47%N ∉ percent_encode (utf8 s))
    by (intros Hx; rewrite Forall_forall in Hch; by apply Hch in Hx as [_ ?]).
  simpl. rewrite !bool_decide_false by done. split_and!; [done| | | |done].
  - f_equal. apply (slash_free_segments _ u); [done| |].
    + unfold push_segment. case_bool_decide; [done|]. by destruct (split_char 47 (f_tail u)).
    + intros x. unfold push_segment. case_bool_decide; rewrite ?elem_of_app, list_elem_of_singleton; intuition (subst; auto).
  - rewrite utf8_ascii by (eapply Forall_impl; [done|naive_solver]).
    by apply percent_decode_encode, utf8_bytes.
  - split; [by intros ->|]. intros E. by apply utf8_nil, percent_encode_nil.
Qed.

Lemma file_law_pops (u : FileUrl) segs f :
  url_path_segments u = Some segs → f segs ≠ [] → (∀ s, s ∈ f segs → s = [] ∨ s ∈ segs) →
  same_authority (with_segments f u) u ∧ url_path_segments (with_segments f u) = Some (f segs).
Proof.
  intros [= <-] Hne Hin. split; [done|]. simpl. f_equal.
  apply (slash_free_segments _ u); [done..|]. intros s Hs. destruct (Hin s Hs); auto.
Qed.

Lemma pop_ne segs : pop_segment segs ≠ [].
Proof. by destruct segs as [|? [|? [|??]]]. Qed.
Lemma pop_empty_ne segs : segs ≠ [] → pop_empty_segment segs ≠ [].
Proof.
  destruct segs as [|? [|? segs]]; [done..|]. intros _. unfold pop_empty_segment.
  case_bool_decide; [|done]. by destruct segs.
Qed.

#[export] Instance file_url_laws : UrlLaws.
Proof.
  split.
  - intros u _. by exists (f_tail u).
  - intros u _. cbn. by rewrite file_host_eq.
  - intros u v E. cbn in E. apply app_inv_head in E.
    assert (E' : f_host u = f_host v ∧ f_tail u = f_tail v).
    { pose proof (host_no_slash u) as Hu. pose proof (host_no_slash v) as Hv.
      apply (f_equal (split_char 47)) in E. unfold f_path in E.
      rewrite !split_char_app in E by done. injection E as Eh Et.
      split; [done|]. rewrite <- (join_split_char 47 (f_tail u)), Et. apply join_split_char. }
    destruct E'. by apply FileUrl_ext.
  - intros u h. cbn. unfold f_host_str. pose proof (host_no_slash u).
    destruct (is_empty _); [done|]. by intros [= <-].
  - intros u. split; done.
  - intros u segs _ Hs. apply file_law_pops; [done| |].
    + apply pop_empty_ne. cbn in Hs. simplify_eq. apply split_char_nonempty.
    + intros s Hin. right. by apply pop_empty_incl.
  - intros u segs _ Hs. apply file_law_pops; [done|apply pop_ne|apply pop_incl].
  - intros u segs s _. apply file_law_push.
  - intros u _. exists (mkFileUrl [] (f_tail u) eq_refl). done.
  - intros u p _ E. split; [done|]. cbn in *. destruct p as [|c p]; [done|].
    injection E as E _. apply lower_slash in E as ->. done.
  - eexists. split; [vm_compute; reflexivity|]. done.
  - apply percent_decode_slash.
  - done.
  - done.
  - intros d a Ha Hd. cbn. rewrite (proj2 (N.eqb_neq d 37)) by done. by destruct Ha as [-> | ->].
  - apply percent_decode_plain.
  - done.
Qed.
