(* ===== verification/LegacyPath.v ===== *)
(** Native path text at the edges of [utils/path-uri]: rendering a URI in a convention,
    parsing and resolving text ([api_path_string.rs]), and the checks for configuration
    paths ([config_path.rs]). *)
From stdpp Require Import base list numbers strings.
From S2P Require Import Prelude RustStr PathConv Utf8Stream UrlLib PathUri.

(** The text of a [LegacyAppPathString]. *)
Record LegacyAppPathString : Type := from_string { as_str : str }.

#[export] Instance LegacyAppPathString_eq_dec : EqDecision LegacyAppPathString.
Proof. solve_decision. Defined.

Definition contains_glob_metacharacter (path : str) : bool :=
  existsb (λ c, existsb (N.eqb c) (lit "*?[]{}")) path.

(** [render_windows_opaque_fallback]. *)
Definition render_windows_opaque_fallback (path_bytes : list byte) : option str :=
  if Nat.odd (length path_bytes) then None
  else
    let path_wide := wide_of_le_bytes path_bytes in
    let has_drive_root :=
      match path_wide with
      | drive :: colon :: sep :: _ =>
          is_ascii_alphabetic drive && (colon =? 58)%N && is_windows_separator sep
      | _ => false
      end in
    let has_namespace_or_unc_root :=
      match path_wide with
      | a :: b :: _ => is_windows_separator a && is_windows_separator b
      | _ => false
      end in
    if has_drive_root || has_namespace_or_unc_root then Some (from_utf16_lossy path_wide) else None.

Section LegacyPath.
Context `{UrlLib}.
Implicit Types (p cwd home : PathUri).

Inductive LegacyAppPathStringError : Type :=
| OpaqueFallback (path : str)
| IncompatibleConvention (path : str) (convention : PathConvention)
| InvalidNativePath (path : str) (convention : option PathConvention)
| UnsupportedConfigPath (path : str) (convention : PathConvention)
| MissingBaseConvention (cwd : str)
| MissingHomeDirectory (path : str)
| MismatchedConvention (path : str) (path_convention : PathConvention) (cwd : str)
    (convention : PathConvention)
| PathUriError (e : PathUriParseError).

Definition uri_to_string p : str := url_as_str (url_of p).

(** ** Rendering *)

Definition decode_native_segment (segment : str) : str := from_utf8_lossy (decode_binary (utf8 segment)).

Definition incompatible_convention p (c : PathConvention) : LegacyAppPathStringError :=
  IncompatibleConvention (uri_to_string p) c.

(** The segments of a validated [file:] URL. *)
Definition url_segments p : list str := default [] (url_path_segments (url_of p)).

Definition render_posix_path p : Result str LegacyAppPathStringError :=
  if bool_decide (is_Some (url_host_str (url_of p))) then Err (incompatible_convention p Posix)
  else Ok (concat ((λ segment, 47%N :: decode_native_segment segment) <$> url_segments p)).

Definition render_windows_tail (segments : list str) : str :=
  concat ((λ segment, 92%N :: decode_native_segment segment) <$> segments).

(** A drive or share without further segments keeps its separator only for the drive. *)
Definition with_drive_root (rendered : str) : str :=
  match rendered with
  | [d; c] => if (c =? 58)%N then [d; c; 92%N] else rendered
  | _ => rendered
  end.

Definition render_windows_path p : Result str LegacyAppPathStringError :=
  match url_host_str (url_of p) with
  | Some host =>
      match url_segments p with
      | [] => Err (incompatible_convention p Windows)
      | share :: segments =>
          let share := decode_native_segment share in
          if is_empty share then Err (incompatible_convention p Windows)
          else Ok (with_drive_root (lit "\\" ++ host ++ 92%N :: share ++ render_windows_tail segments))
      end
  | None =>
      match url_segments p with
      | [] => Err (incompatible_convention p Windows)
      | drive :: segments =>
          match decode_native_segment drive with
          | [d; c] =>
              if is_ascii_alphabetic d && (c =? 58)%N
              then Ok (with_drive_root ([d; c] ++ render_windows_tail segments))
              else Err (incompatible_convention p Windows)
          | _ => Err (incompatible_convention p Windows)
          end
      end
  end.

Definition render_opaque_fallback p (path_bytes : list byte) (c : PathConvention)
    : Result str LegacyAppPathStringError :=
  ok_or
    match c with
    | Posix => if starts_with path_bytes [47%N] then Some (from_utf8_lossy path_bytes) else None
    | Windows => render_windows_opaque_fallback path_bytes
    end (OpaqueFallback (uri_to_string p)).

Definition from_path_uri p (c : PathConvention) : Result LegacyAppPathString LegacyAppPathStringError :=
  let? text :=
    match opaque_fallback_bytes p with
    | Some path_bytes => render_opaque_fallback p path_bytes c
    | None => match c with
              | Posix => render_posix_path p
              | Windows => render_windows_path p
              end
    end in
  Ok (from_string text).

Definition inferred_native_path_string p : str :=
  match infer_path_convention p with
  | Some c => match from_path_uri p c with
              | Ok s => as_str s
              | Err _ => uri_to_string p
              end
  | None => uri_to_string p
  end.

(** ** Parsing and resolving *)

Definition to_path_uri (s : LegacyAppPathString) (c : PathConvention)
    : Result PathUri LegacyAppPathStringError :=
  ok_or (from_absolute_native_path (as_str s) c) (InvalidNativePath (as_str s) (Some c)).

Definition infer_absolute_path_convention (s : LegacyAppPathString) : option PathConvention :=
  if is_windows_drive_absolute_path (as_str s) || starts_with (as_str s) (lit "\\") then Some Windows
  else if starts_with (as_str s) [47%N] then Some Posix
  else None.

(** [TryFrom<LegacyAppPathString> for PathUri] and [to_inferred_path_uri]. *)
Definition try_from_legacy (s : LegacyAppPathString) : Result PathUri LegacyAppPathStringError :=
  match infer_absolute_path_convention s with
  | None => Err (InvalidNativePath (as_str s) None)
  | Some c => ok_or (from_absolute_native_path (as_str s) c) (InvalidNativePath (as_str s) (Some c))
  end.
Definition to_inferred_path_uri (s : LegacyAppPathString) : option PathUri :=
  match try_from_legacy s with
  | Ok p => Some p
  | Err _ => None
  end.
Definition render_for_ui (s : LegacyAppPathString) : str :=
  match to_inferred_path_uri s with
  | Some p => inferred_native_path_string p
  | None => as_str s
  end.

(** The separators that a home-relative suffix may start with. *)
Definition trim_separators (windows : bool) (suffix : str) : str :=
  trim_start_matches (λ c, (c =? 47)%N || (windows && (c =? 92)%N)) suffix.

Definition join_error (r : Result PathUri PathUriParseError) : Result PathUri LegacyAppPathStringError :=
  map_err PathUriError r.

Definition resolve_against (s : LegacyAppPathString) cwd (user_home_dir : option PathUri)
    : Result PathUri LegacyAppPathStringError :=
  match infer_path_convention cwd with
  | None => Err (MissingBaseConvention (uri_to_string cwd))
  | Some c =>
      let is_windows := bool_decide (c = Windows) in
      let path := as_str s in
      match home_relative_suffix c path with
      | Some suffix =>
          let? home := ok_or user_home_dir (MissingHomeDirectory path) in
          join_error (uri_join home (trim_separators is_windows suffix))
      | None =>
          if is_windows && (starts_with path (lit "//") || starts_with path (lit "\\"))
          then to_path_uri s Windows
          else
            match infer_absolute_path_convention s with
            | Some pc =>
                if bool_decide (pc = c) then to_path_uri s c
                else if bool_decide (pc = Posix) && is_windows then join_error (uri_join cwd path)
                else Err (MismatchedConvention path pc (uri_to_string cwd) c)
            | None => join_error (uri_join cwd path)
            end
      end
  end.

(** ** Configuration paths *)

Definition component_has_colon (index : nat) (segment : str) : bool :=
  let segment :=
    match segment with
    | d :: c :: rest =>
        if (index =? 0) && is_ascii_alphabetic d && (c =? 58)%N then rest else segment
    | _ => segment
    end in
  contains_char segment 58.

Definition validate_config_path_text (input : str) (c : PathConvention)
    : Result unit LegacyAppPathStringError :=
  let native_input := default input (normalize_windows_device_path input) in
  let windows := bool_decide (c = Windows) in
  let has_windows_component_colon :=
    windows && existsb (λ e, component_has_colon e.1 e.2) (imap (λ i s, (i, s)) (path_segments c native_input)) in
  let mixed_home_separators :=
    windows && match home_relative_suffix c input with
               | Some suffix =>
                   (starts_with suffix [47%N] && starts_with (trim_start_matches (N.eqb 47) suffix) [92%N])
                   || (starts_with suffix [92%N] && starts_with (trim_start_matches (N.eqb 92) suffix) [47%N])
               | None => false
               end in
  let bare_windows_drive :=
    windows && match native_input with
               | [d; x] => is_ascii_alphabetic d && (x =? 58)%N
               | _ => false
               end in
  if contains_char input 0 || has_windows_component_colon || mixed_home_separators || bare_windows_drive
  then Err (UnsupportedConfigPath input c) else Ok tt.

Definition validate_config_path p (c : PathConvention) : Result unit LegacyAppPathStringError :=
  if negb (bool_decide (infer_path_convention p = Some c))
  then Err (IncompatibleConvention (uri_to_string p) c)
  else
    let bytes := decoded_path_bytes p in
    if bool_decide (lexical_depth p = None) || contains_char bytes 0 || negb (is_ok (from_utf8 bytes))
    then Err (PathUriError (InvalidFileUriPath (uri_to_string p)))
    else
      let? text := from_path_uri p c in
      validate_config_path_text (as_str text) c.

Definition validate_glob_directory p (c : PathConvention) : Result unit LegacyAppPathStringError :=
  let? _ := validate_config_path p c in
  let? path := from_path_uri p c in
  if contains_glob_metacharacter (as_str path) || (bool_decide (c = Posix) && contains_char (as_str path) 92)
  then Err (UnsupportedConfigPath (as_str path) c) else Ok tt.

Definition validate_glob_base (input : str) (base : PathUri) (c : PathConvention)
    : Result unit LegacyAppPathStringError :=
  let? _ := validate_config_path base c in
  if contains_glob_metacharacter input then validate_glob_directory base c else Ok tt.

Definition resolve_config_path_uri (input : str) (c : PathConvention) (base user_home_dir : option PathUri)
    : Result PathUri LegacyAppPathStringError :=
  let? _ := validate_config_path_text input c in
  let path := from_string input in
  let? resolved :=
    (if bool_decide (is_Some (home_relative_suffix c input)) then
       let? home := ok_or user_home_dir (MissingHomeDirectory input) in
       let? _ := validate_glob_base input home c in
       resolve_against path home (Some home)
     else
       match to_path_uri path c with
       | Ok absolute => Ok absolute
       | Err error =>
           let? base := ok_or base error in
           let? _ := validate_glob_base input base c in
           resolve_against path base None
       end) in
  let? _ := validate_config_path resolved c in
  join_error (uri_join resolved dot).

Definition to_config_path_string p (c : PathConvention) : Result str LegacyAppPathStringError :=
  let? rendered := from_path_uri p c in
  Ok (if bool_decide (is_Some (url_host_str (url_of p))) && bool_decide (parent p = None)
      then as_str rendered ++ [92%N] else as_str rendered).

Definition resolve_config_path (input : str) (c : PathConvention) (base user_home_dir : option PathUri)
    : Result str LegacyAppPathStringError :=
  let? p := resolve_config_path_uri input c base user_home_dir in
  to_config_path_string p c.
End LegacyPath.

Arguments LegacyAppPathStringError {_}.
