(* ===== verification/Permissions.v ===== *)
(** [protocol/src/permissions.rs] and [permissions/target.rs]: filesystem sandbox policies
    and how they are evaluated against the paths of an executor. Deny globs are compiled
    by the crate [globset], an interface here. *)
From stdpp Require Import base list numbers strings.
From S2P Require Import Prelude RustStr PathConv Utf8Stream UrlLib PathUri LegacyPath.

(** * Data *)

Inductive NetworkSandboxPolicy : Type := NetRestricted | NetEnabled.
Definition is_enabled (n : NetworkSandboxPolicy) : bool :=
  match n with
  | NetEnabled => true
  | NetRestricted => false
  end.

(** The derived order is the order of the constructors. *)
Inductive FileSystemAccessMode : Type := Read | Write | Deny.
#[export] Instance FileSystemAccessMode_eq_dec : EqDecision FileSystemAccessMode.
Proof. solve_decision. Defined.

Definition access_rank (a : FileSystemAccessMode) : nat :=
  match a with
  | Read => 0
  | Write => 1
  | Deny => 2
  end.
Definition can_read (a : FileSystemAccessMode) : bool := negb (bool_decide (a = Deny)).
Definition can_write (a : FileSystemAccessMode) : bool := bool_decide (a = Write).

Inductive FileSystemSpecialPath : Type :=
| Root
| Minimal
| ProjectRoots (subpath : option str)
| Tmpdir
| SlashTmp
| Unknown (path : str) (subpath : option str).
#[export] Instance FileSystemSpecialPath_eq_dec : EqDecision FileSystemSpecialPath.
Proof. solve_decision. Defined.

Inductive MissingPathBehavior : Type := Skip.
#[export] Instance MissingPathBehavior_eq_dec : EqDecision MissingPathBehavior.
Proof. solve_decision. Defined.

Inductive FileSystemSandboxKind : Type := Restricted | Unrestricted | ExternalSandbox.
#[export] Instance FileSystemSandboxKind_eq_dec : EqDecision FileSystemSandboxKind.
Proof. solve_decision. Defined.

Definition PROTECTED_METADATA_PATH_NAMES : list str := [lit ".git"; lit ".agents"; lit ".codex"].
Definition PROJECT_ROOTS_GLOB_PATTERN_PREFIX : str := lit "codex-project-roots://".

(** [globset]: compiling a pattern with [literal_separator] and [allow_unclosed_class]. *)
Class GlobLib : Type := {
  glob_build (pattern : str) (backslash_escape case_insensitive : bool) :
    Result (list byte → bool) str;
}.

Section Permissions.
Context `{UrlLib}.

Inductive FileSystemPath : Type :=
| Path (path : PathUri)
| GlobPattern (pattern : str)
| Special (value : FileSystemSpecialPath).
#[export] Instance FileSystemPath_eq_dec : EqDecision FileSystemPath.
Proof. solve_decision. Defined.

Record FileSystemSandboxEntry : Type := mkEntry {
  entry_path : FileSystemPath;
  access : FileSystemAccessMode;
  missing_path_behavior : option MissingPathBehavior;
}.

Record FileSystemSandboxPolicy : Type := mkPolicy {
  kind : FileSystemSandboxKind;
  glob_scan_max_depth : option nat;
  entries : list FileSystemSandboxEntry;
}.

Record FileSystemSandboxPolicyContext : Type := mkContext {
  cwd : PathUri;
  workspace_roots : list PathUri;
  user_home_dir : option PathUri;
  temporary_directories : option (list PathUri);
}.

Implicit Types (path root : PathUri) (e : FileSystemSandboxEntry) (pol : FileSystemSandboxPolicy)
  (ctx : FileSystemSandboxPolicyContext) (c : PathConvention).

(** The derived [PartialEq], over the equality of [PathUri]. *)
Definition fs_path_eqb (a b : FileSystemPath) : bool :=
  match a, b with
  | Path p, Path q => uri_eqb p q
  | GlobPattern p, GlobPattern q => bool_decide (p = q)
  | Special v, Special w => bool_decide (v = w)
  | _, _ => false
  end.
Definition entry_eqb (a b : FileSystemSandboxEntry) : bool :=
  fs_path_eqb (entry_path a) (entry_path b) && bool_decide (access a = access b)
  && bool_decide (missing_path_behavior a = missing_path_behavior b).

(** [Vec::contains], and the loops that push what is not contained yet. *)
Definition contains_entry (es : list FileSystemSandboxEntry) e : bool := existsb (λ x, entry_eqb x e) es.
Definition push_new (es : list FileSystemSandboxEntry) e : list FileSystemSandboxEntry :=
  if contains_entry es e then es else es ++ [e].

Definition new_entry (p : FileSystemPath) (a : FileSystemAccessMode) : FileSystemSandboxEntry :=
  mkEntry p a None.
Definition skip_missing_path (p : FileSystemPath) (a : FileSystemAccessMode) : FileSystemSandboxEntry :=
  mkEntry p a (Some Skip).
Definition skips_missing_path e : bool := bool_decide (missing_path_behavior e = Some Skip).

Definition restricted (es : list FileSystemSandboxEntry) : FileSystemSandboxPolicy :=
  mkPolicy Restricted None es.
Definition read_only : FileSystemSandboxPolicy := restricted [new_entry (Special Root) Read].
Definition unrestricted : FileSystemSandboxPolicy := mkPolicy Unrestricted None [].
Definition external_sandbox : FileSystemSandboxPolicy := mkPolicy ExternalSandbox None [].
Definition set_entries (es : list FileSystemSandboxEntry) pol : FileSystemSandboxPolicy :=
  mkPolicy (kind pol) (glob_scan_max_depth pol) es.

Definition remove_skip_missing_path_entries pol : FileSystemSandboxPolicy :=
  set_entries (filter (λ e, negb (skips_missing_path e)) (entries pol)) pol.

Definition is_restricted pol : bool := bool_decide (kind pol = Restricted).

(** * What a policy grants as a whole *)

Definition is_special (v : FileSystemSpecialPath) e : bool :=
  match entry_path e with
  | Special w => bool_decide (w = v)
  | _ => false
  end.

Definition has_root_access (predicate : FileSystemAccessMode → bool) pol : bool :=
  is_restricted pol && existsb (λ e, is_special Root e && predicate (access e)) (entries pol).

Definition has_denied_read_restrictions_for_convention (convention : option PathConvention) pol : bool :=
  is_restricted pol
  && existsb (λ e, bool_decide (access e = Deny)
                   && negb (is_special SlashTmp e && bool_decide (convention = Some Windows)))
       (entries pol).

Definition special_paths_share_target (left right : FileSystemSpecialPath) : bool :=
  match left, right with
  | Root, Root | Minimal, Minimal | Tmpdir, Tmpdir | SlashTmp, SlashTmp => true
  | ProjectRoots l, ProjectRoots r => bool_decide (l = r)
  | Unknown l ls, Unknown r rs => bool_decide (l = r) && bool_decide (ls = rs)
  | _, _ => false
  end.

Definition special_path_matches_path_uri (value : FileSystemSpecialPath) path : bool :=
  match value with
  | Root => bool_decide (is_Some (lexical_depth path)) && negb (bool_decide (is_Some (parent path)))
  | SlashTmp =>
      bool_decide (infer_path_convention path = Some Posix)
      && bool_decide (lexical_depth path = Some 1)
      && bool_decide (basename path = Some (lit "tmp"))
  | _ => false
  end.

Definition file_system_paths_share_target (left right : FileSystemPath) c : bool :=
  match left, right with
  | Path l, Path r => uri_eqb l r
  | Special l, Special r => special_paths_share_target l r
  | Path path, Special value | Special value, Path path =>
      bool_decide (infer_path_convention path = Some c) && special_path_matches_path_uri value path
  | GlobPattern l, GlobPattern r => bool_decide (l = r)
  | GlobPattern _, _ | _, GlobPattern _ => false
  end.

Definition has_same_target_write_override e c pol : bool :=
  existsb (λ candidate,
    can_write (access candidate)
    && (access_rank (access e) <? access_rank (access candidate))
    && file_system_paths_share_target (entry_path candidate) (entry_path e) c) (entries pol).

Definition narrows_write c pol e : bool :=
  if can_write (access e) then false
  else match entry_path e with
       | Path _ => negb (has_same_target_write_override e c pol)
       | GlobPattern _ => true
       | Special value =>
           match value with
           | Root => bool_decide (access e = Deny)
           | SlashTmp =>
               if bool_decide (c = Windows) then false
               else negb (has_same_target_write_override e c pol)
           | Minimal | Unknown _ _ => false
           | _ => negb (has_same_target_write_override e c pol)
           end
       end.
Definition has_write_narrowing_entries c pol : bool :=
  is_restricted pol && existsb (narrows_write c pol) (entries pol).

Definition has_full_disk_read_access_for_convention (convention : option PathConvention) pol : bool :=
  match kind pol with
  | Unrestricted | ExternalSandbox => true
  | Restricted =>
      has_root_access can_read pol
      && negb (has_denied_read_restrictions_for_convention convention pol)
  end.

Definition has_full_disk_write_access_for_convention (convention : option PathConvention) pol : bool :=
  match kind pol with
  | Unrestricted | ExternalSandbox => true
  | Restricted =>
      match convention with
      | Some c => has_root_access can_write pol && negb (has_write_narrowing_entries c pol)
      | None => false
      end
  end.

Definition has_full_disk_write_access_with_context ctx pol : bool :=
  has_full_disk_write_access_for_convention (infer_path_convention (cwd ctx)) pol.

(** * Access to one path *)

Definition file_system_root ctx : option PathUri :=
  match lexical_depth (cwd ctx) with
  | None => None
  | Some _ => last (ancestors (cwd ctx))
  end.

Definition ok_uris (r : Result PathUri PathUriParseError) : list PathUri :=
  match r with
  | Ok p => [p]
  | Err _ => []
  end.

(** The roots an entry stands for in a context, before the convention is checked. *)
Definition entry_roots ctx (p : FileSystemPath) : list PathUri :=
  match p with
  | Path path => [path]
  | GlobPattern _ => []
  | Special value =>
      match value with
      | Root => option_list (file_system_root ctx)
      | ProjectRoots subpath =>
          root ← workspace_roots ctx;
          match subpath with
          | Some subpath => ok_uris (uri_join root subpath)
          | None => [root]
          end
      | Tmpdir => default [] (temporary_directories ctx)
      | SlashTmp =>
          if bool_decide (infer_path_convention (cwd ctx) = Some Posix)
          then ok_uris (uri_join (cwd ctx) (lit "/tmp")) else []
      | Minimal | Unknown _ _ => []
      end
  end.

Definition resolved_entries ctx pol : list (PathUri * FileSystemAccessMode) :=
  e ← entries pol;
  (λ p, (p, access e)) <$>
    filter (λ p, bool_decide (infer_path_convention p = infer_path_convention (cwd ctx)))
      (entry_roots ctx (entry_path e)).

(** The fold that attaches depths: an opaque root is skipped, another root without a depth
    makes the whole evaluation fail. *)
Fixpoint with_depths (rs : list (PathUri * FileSystemAccessMode))
    : option (list (PathUri * FileSystemAccessMode * nat)) :=
  match rs with
  | [] => Some []
  | (root, a) :: rs =>
      match lexical_depth root with
      | Some depth => cons (root, a, depth) <$> with_depths rs
      | None => if is_opaque root then with_depths rs else None
      end
  end.

(** [max_by_key(|(_, access, depth)| (depth, access))]: the last of the maximal ones. *)
Definition key_le (x y : PathUri * FileSystemAccessMode * nat) : bool :=
  (x.2 <? y.2) || ((x.2 =? y.2) && (access_rank x.1.2 <=? access_rank y.1.2)).
Fixpoint max_entry (best : PathUri * FileSystemAccessMode * nat)
    (l : list (PathUri * FileSystemAccessMode * nat)) : PathUri * FileSystemAccessMode * nat :=
  match l with
  | [] => best
  | x :: l => max_entry (if key_le best x then x else best) l
  end.
Definition max_by_key (l : list (PathUri * FileSystemAccessMode * nat))
    : option (PathUri * FileSystemAccessMode * nat) :=
  match l with
  | [] => None
  | x :: l => Some (max_entry x l)
  end.

(** A path that cannot be compared with the policy of the context. *)
Definition comparable_path path ctx c : bool :=
  bool_decide (infer_path_convention path = Some c)
  && bool_decide (is_Some (lexical_depth path))
  && bool_decide (is_Some (lexical_depth (cwd ctx))).

Definition resolve_access path ctx pol : FileSystemAccessMode :=
  match kind pol with
  | Unrestricted | ExternalSandbox => Write
  | Restricted =>
      match infer_path_convention (cwd ctx) with
      | None => Deny
      | Some c =>
          if negb (comparable_path path ctx c) then Deny
          else match with_depths (resolved_entries ctx pol) with
               | None => Deny
               | Some es =>
                   match max_by_key (filter (λ x, uri_starts_with path x.1.1) es) with
                   | Some x => x.1.2
                   | None => Deny
                   end
               end
      end
  end.

Definition can_read_path path ctx pol : bool := can_read (resolve_access path ctx pol).

(** The first protected metadata directory of a writable root that contains the path. *)
Definition protected_of path root : option (PathUri * str) :=
  head (omap (λ name,
    match join_descendant root name with
    | Ok protected => if uri_starts_with path protected then Some (protected, name) else None
    | Err _ => None
    end) PROTECTED_METADATA_PATH_NAMES).

Definition metadata_write_denial path ctx pol : option str :=
  if negb (is_restricted pol) then None
  else
    let es := resolved_entries ctx pol in
    match head (omap (λ ra, protected_of path ra.1) (filter (λ ra, can_write ra.2) es)) with
    | None => None
    | Some (protected, name) =>
        if existsb (λ ra, can_write ra.2 && uri_starts_with path ra.1 && uri_starts_with ra.1 protected) es
        then None else Some name
    end.

Definition can_write_path path ctx pol : bool :=
  if negb (can_write (resolve_access path ctx pol)) then false
  else has_full_disk_write_access_with_context ctx pol
       || bool_decide (metadata_write_denial path ctx pol = None).

Definition has_configured_writable_roots ctx pol : bool :=
  negb (has_full_disk_write_access_with_context ctx pol)
  && existsb (λ ra, can_write ra.2 && can_write_path ra.1 ctx pol) (resolved_entries ctx pol).
End Permissions.
