(* ===== verification/PermissionsDeny.v ===== *)
(** Read denials of a filesystem policy: the runtime matcher of [permissions.rs], its
    strict form in [permissions/target.rs], the validation of mandatory denials in
    [permissions/deny_read_validator.rs] and the scan bounds of
    [permissions/windows_glob.rs]. *)
From stdpp Require Import base list numbers strings.
From S2P Require Import Prelude RustStr PathConv Utf8Stream UrlLib PathUri LegacyPath Permissions.

(** * Scan bounds of Windows deny globs *)

Record WindowsDenyReadGlobScan : Type := mkGlobScan {
  scan_root : str;
  pattern_suffix : str;
  max_depth : option nat;
}.

Definition is_scan_glob (c : char) : bool := (c =? 42)%N || (c =? 63)%N || (c =? 91)%N.

(** The text before the first character that [f] accepts. *)
Fixpoint take_until (f : char → bool) (s : str) : str :=
  match s with
  | [] => []
  | c :: s => if f c then [] else c :: take_until f s
  end.

(** [rfind]: the position of the last character that [f] accepts. *)
Definition rfind_char (f : char → bool) (s : str) : option nat :=
  let after := take_until f (reverse s) in
  if length after <? length s then Some (length s - length after - 1) else None.

Definition windows_deny_read_glob_scan (pattern : str) (configured_max_depth : option nat)
    : WindowsDenyReadGlobScan :=
  let literal_prefix := take_until is_scan_glob pattern in
  let '(root, suffix) :=
    match rfind_char is_windows_separator literal_prefix with
    | Some index =>
        let drive_root := (0 <? index) && bool_decide (literal_prefix !! (index - 1) = Some 58%N) in
        let stop := if (index =? 0) || drive_root then index + 1 else index in
        (take stop literal_prefix, drop (index + 1) pattern)
    | None => (lit ".", pattern)
    end in
  let components := filter (λ comp, negb (is_empty comp)) (path_segments Windows suffix) in
  let depth :=
    if bool_decide (lit "**" ∈ components) then configured_max_depth
    else Some match configured_max_depth with
              | Some d => Nat.min d (length components)
              | None => length components
              end in
  mkGlobScan root suffix depth.

Section Deny.
Context `{UrlLib} `{GlobLib}.
Implicit Types (path root : PathUri) (e : FileSystemSandboxEntry) (pol : FileSystemSandboxPolicy)
  (ctx : FileSystemSandboxPolicyContext) (c : PathConvention).

Inductive InvalidDenyReadGlobBehavior : Type := FailClosed | ReturnError.

(** The error messages, one constructor each. *)
Inductive DenyReadError : Type :=
| NoExecutorHome (pattern : str)
| UnusableGlobDirectory (e : LegacyAppPathStringError)
| UnresolvedGlob (pattern : str)
| InvalidGlob (pattern err : str)
| InvalidPath
| TmpdirUnavailable
| TmpdirUnsafe
| TmpdirNotReported
| Shadowed.

(** A compiled glob is the predicate it decides on path bytes. *)
Record PreparedReadDenyMatcher : Type := mkPrepared {
  denied_roots : list PathUri;
  deny_read_matchers : list (list byte → bool);
  invalid_pattern : bool;
}.

Definition build_glob_matcher (pattern : str) c : Result (list byte → bool) str :=
  let pattern := if bool_decide (c = Windows) then replace_char 92 47 pattern else pattern in
  glob_build pattern (bool_decide (c = Posix)) (bool_decide (c = Windows)).

(** The text after a home marker in a deny glob: [~/], and [~\] on Windows. *)
Definition glob_home_suffix (is_windows : bool) (pattern : str) : option str :=
  match strip_prefix pattern (lit "~/") with
  | Some suffix => Some suffix
  | None => if is_windows then strip_prefix pattern (lit "~\") else None
  end.

(** One deny glob with its root made explicit; [None] for entries of other shapes. *)
Definition deny_read_glob ctx e : option (Result str DenyReadError) :=
  match entry_path e with
  | GlobPattern pattern =>
      let is_windows := bool_decide (infer_path_convention (cwd ctx) = Some Windows) in
      let resolved : Result (PathUri * str) DenyReadError :=
        match glob_home_suffix is_windows pattern with
        | Some suffix =>
            match user_home_dir ctx with
            | Some home => Ok (home, trim_separators is_windows suffix)
            | None => Err (NoExecutorHome pattern)
            end
        | None => Ok (cwd ctx, pattern)
        end in
      Some
        match resolved with
        | Err err => Err err
        | Ok (root, pattern) =>
            let c := if is_windows then Windows else Posix in
            let valid :=
              match to_path_uri (from_string pattern) c with
              | Ok _ => Ok tt
              | Err _ => validate_glob_directory root c
              end in
            match valid with
            | Err error => Err (UnusableGlobDirectory error)
            | Ok _ =>
                match uri_join root pattern with
                | Ok p => Ok (inferred_native_path_string p)
                | Err _ => Err (UnresolvedGlob pattern)
                end
            end
        end
  | _ => None
  end.

(** Collecting into a [Result]: the first error wins. *)
Definition deny_read_globs ctx pol : Result (list str) DenyReadError :=
  collect_results id (omap (deny_read_glob ctx) (filter (λ e, bool_decide (access e = Deny)) (entries pol))).

Definition same_location root fs_root : bool := uri_starts_with root fs_root && uri_starts_with fs_root root.

(** Denied roots, without a denial of the whole file system. *)
Definition denied_roots_of ctx pol : list PathUri :=
  (filter (λ ra, bool_decide (ra.2 = Deny)
                 && negb match file_system_root ctx with
                         | Some fs_root => same_location ra.1 fs_root
                         | None => false
                         end) (resolved_entries ctx pol)).*1.

(** The loop over the patterns: an invalid one is an error, or makes the matcher deny. *)
Fixpoint compile_patterns c (behavior : InvalidDenyReadGlobBehavior) (patterns : list str)
    : Result (list (list byte → bool) * bool) DenyReadError :=
  match patterns with
  | [] => Ok ([], false)
  | pattern :: patterns =>
      match build_glob_matcher pattern c with
      | Ok matcher =>
          let? rest := compile_patterns c behavior patterns in Ok (matcher :: rest.1, rest.2)
      | Err err =>
          match behavior with
          | FailClosed => let? rest := compile_patterns c behavior patterns in Ok (rest.1, true)
          | ReturnError => Err (InvalidGlob pattern err)
          end
      end
  end.

Definition prepare_deny_read_matcher ctx (behavior : InvalidDenyReadGlobBehavior) pol
    : Result PreparedReadDenyMatcher DenyReadError :=
  let roots := denied_roots_of ctx pol in
  match infer_path_convention (cwd ctx) with
  | None => Ok (mkPrepared roots [] true)
  | Some c =>
      match deny_read_globs ctx pol with
      | Err err =>
          match behavior with
          | FailClosed => Ok (mkPrepared roots [] true)
          | ReturnError => Err err
          end
      | Ok patterns =>
          let? compiled := compile_patterns c behavior patterns in
          Ok (mkPrepared roots compiled.1 compiled.2)
      end
  end.

(** The bytes of a path that the globs are matched against. *)
Definition glob_candidate c path : list byte :=
  match c with
  | Posix => decoded_path_bytes path
  | Windows => utf8 (replace_char 92 47 (inferred_native_path_string path))
  end.

Definition matches_prepared_read_deny path ctx (prepared : PreparedReadDenyMatcher) : bool :=
  match infer_path_convention (cwd ctx) with
  | None => true
  | Some c =>
      if negb (comparable_path path ctx c) then true
      else if invalid_pattern prepared then true
      else existsb (uri_starts_with path) (denied_roots prepared)
           || existsb (λ matcher, matcher (glob_candidate c path)) (deny_read_matchers prepared)
  end.

(** [ReadDenyMatcher::from_context]: no matcher when nothing is denied. *)
Definition from_context pol ctx : option PreparedReadDenyMatcher :=
  if existsb (λ e, bool_decide (access e = Deny)) (entries pol) then
    match prepare_deny_read_matcher ctx FailClosed pol with
    | Ok prepared => Some prepared
    | Err _ => None
    end
  else None.

(** Whether a read is denied by the matcher of a policy, if it has one. *)
Definition read_denied pol ctx path : bool :=
  match from_context pol ctx with
  | Some prepared => matches_prepared_read_deny path ctx prepared
  | None => false
  end.

(** ** Executor contexts ([target.rs]) *)

Definition has_context_read_denials pol ctx : bool :=
  is_restricted pol
  && existsb (λ e, bool_decide (access e = Deny)
                   && negb (is_special SlashTmp e
                            && negb (bool_decide (infer_path_convention (cwd ctx) = Some Posix))))
       (entries pol).

Definition valid_context_path c path : bool :=
  bool_decide (infer_path_convention path = Some c) && bool_decide (is_Some (lexical_depth path)).

Definition validate_context_entry c ctx e : Result unit DenyReadError :=
  match entry_path e with
  | Path path => if negb (valid_context_path c path) then Err InvalidPath else Ok tt
  | Special Tmpdir =>
      match temporary_directories ctx with
      | None => Err TmpdirUnavailable
      | Some directories =>
          if existsb (λ path, negb (valid_context_path c path)) directories
          then Err TmpdirUnsafe else Ok tt
      end
  | Special (ProjectRoots (Some subpath)) =>
      if existsb (λ root, negb (is_ok (uri_join root subpath))) (workspace_roots ctx)
      then Err InvalidPath else Ok tt
  | GlobPattern pattern =>
      if (starts_with pattern (lit "~/") || (bool_decide (c = Windows) && starts_with pattern (lit "~\")))
         && negb match user_home_dir ctx with
                 | Some home => valid_context_path c home
                 | None => false
                 end
      then Err InvalidPath else Ok tt
  | _ => Ok tt
  end.

Definition validate_context_paths pol ctx : Result unit DenyReadError :=
  match infer_path_convention (cwd ctx) with
  | None => Err InvalidPath
  | Some c =>
      if negb (valid_context_path c (cwd ctx))
         || existsb (λ path, negb (valid_context_path c path)) (workspace_roots ctx)
      then Err InvalidPath
      else let? _ := collect_results (validate_context_entry c ctx) (entries pol) in Ok tt
  end.

(** [ReadDenyMatcher::try_new_with_context]. *)
Definition try_new_with_context pol ctx : Result (option PreparedReadDenyMatcher) DenyReadError :=
  if negb (has_context_read_denials pol ctx) then Ok None
  else
    let? _ := validate_context_paths pol ctx in
    let? prepared := prepare_deny_read_matcher ctx ReturnError pol in
    Ok (Some prepared).

(** Denied roots without duplicates, in the order of the entries. *)
Fixpoint dedup_uris (seen : list PathUri) (l : list PathUri) : list PathUri :=
  match l with
  | [] => []
  | p :: l => if existsb (uri_eqb p) seen then dedup_uris seen l else p :: dedup_uris (p :: seen) l
  end.

Definition get_unreadable_roots_with_context ctx pol : Result (list PathUri) DenyReadError :=
  if negb (is_restricted pol) then Ok []
  else if bool_decide (temporary_directories ctx = None)
          && existsb (λ e, bool_decide (access e = Deny) && is_special Tmpdir e) (entries pol)
  then Err TmpdirNotReported
  else Ok (dedup_uris [] (denied_roots_of ctx pol)).

(** ** Mandatory denials ([deny_read_validator.rs]) *)

Record DenyReadValidator : Type := mkValidator {
  required_entries : list FileSystemSandboxEntry;
  matcher : option PreparedReadDenyMatcher;
}.
Inductive DenyReadViolation : Type :=
| MissingRequiredDeny
| ReadablePath (path : PathUri).

Definition new_validator (required : FileSystemSandboxPolicy) ctx : Result DenyReadValidator DenyReadError :=
  if has_context_read_denials required ctx then
    let? prepared := prepare_deny_read_matcher ctx ReturnError required in
    Ok (mkValidator (entries required) (Some prepared))
  else Ok (mkValidator (entries required) None).

Definition violating_path (v : DenyReadValidator) ctx e : option PathUri :=
  match entry_path e with
  | Path path =>
      if negb (bool_decide (infer_path_convention path = infer_path_convention (cwd ctx))) then None
      else match matcher v with
           | Some m => if matches_prepared_read_deny path ctx m then Some path else None
           | None => None
           end
  | _ => None
  end.

Definition validate (v : DenyReadValidator) (selected : FileSystemSandboxPolicy) ctx
    : Result unit DenyReadViolation :=
  let missing_required_deny := existsb (λ e, negb (contains_entry (entries selected) e)) (required_entries v) in
  match head (omap (violating_path v ctx) (filter (λ e, can_read (access e)) (entries selected))) with
  | Some path => Err (ReadablePath path)
  | None => if missing_required_deny then Err MissingRequiredDeny else Ok tt
  end.

Definition validate_managed_deny_read (required : FileSystemSandboxPolicy) ctx (selected : FileSystemSandboxPolicy)
    : Result unit DenyReadError :=
  let? v := new_validator required ctx in
  map_err (λ _, Shadowed) (validate v selected ctx).
End Deny.
