(* ===== verification/PermissionsRoots.v ===== *)
(** Rewriting filesystem policies: preserving denials, replacing workspace-root symbols by
    the roots of an executor, the built-in workspace policy and the projections from
    legacy sandbox policies ([protocol/src/permissions.rs], [permissions/target.rs]). *)
From stdpp Require Import base list numbers strings.
From S2P Require Import Prelude RustStr PathConv Utf8Stream UrlLib PathUri LegacyPath Permissions.

(** * The local host

    [AbsolutePathBuf] of [utils/absolute-path] and the part of [std::fs] that the policies
    look at, as an interface. *)
Class LocalHost `{UrlLib} : Type := {
  AbsPath : Type;
  AbsPath_eq_dec :: EqDecision AbsPath;
  native : PathConvention;
  from_abs_path : AbsPath → PathUri;
  to_abs_path : PathUri → option AbsPath;
  abs_join : AbsPath → str → AbsPath;
  resolve_path_against_base : str → AbsPath → AbsPath;
  abs_parent : AbsPath → option AbsPath;
  abs_file_name : AbsPath → option str;
  fs_is_file : AbsPath → bool;
  fs_is_dir : AbsPath → bool;
  fs_exists : AbsPath → bool;
  fs_read_to_string : AbsPath → option str;
}.

(** * Legacy sandbox policies ([protocol.rs]) *)

Inductive NetworkAccess : Type := AccessRestricted | AccessEnabled.

Section Roots.
Context `{UrlLib}.
Implicit Types (path root : PathUri) (e : FileSystemSandboxEntry) (pol existing : FileSystemSandboxPolicy)
  (ctx : FileSystemSandboxPolicyContext) (c : PathConvention).

(** ** Preserving denials *)

Definition deny_entries pol : list FileSystemSandboxEntry :=
  filter (λ e, bool_decide (access e = Deny)) (entries pol).

Definition set_glob_depth (d : option nat) pol : FileSystemSandboxPolicy := mkPolicy (kind pol) d (entries pol).

Definition preserve_deny_read_restrictions_from existing pol : FileSystemSandboxPolicy :=
  let has_deny_read_entries := existsb (λ e, bool_decide (access e = Deny)) (entries existing) in
  let pol :=
    if bool_decide (kind pol = Unrestricted) && has_deny_read_entries
    then restricted [new_entry (Special Root) Write] else pol in
  if negb (is_restricted pol) then pol
  else
    let pol :=
      match glob_scan_max_depth pol with
      | None => set_glob_depth (glob_scan_max_depth existing) pol
      | Some _ => pol
      end in
    set_entries (foldl push_new (entries pol) (deny_entries existing)) pol.

(** ** Workspace roots *)

Definition resolve_scoped_workspace_path root (subpath : str) : option PathUri :=
  match infer_path_convention root with
  | None => None
  | Some c =>
      if starts_with subpath [47%N]
         || (bool_decide (c = Windows) && starts_with subpath [92%N])
         || existsb (λ s, bool_decide (s = dot) || bool_decide (s = dotdot)) (path_segments c subpath)
         || (bool_decide (c = Windows) && existsb (λ s, contains_char s 58) (path_segments c subpath))
      then None
      else match uri_join root subpath with
           | Ok path => if uri_starts_with path root then Some path else None
           | Err _ => None
           end
  end.

(** What a workspace-root entry says about the part below each root: a subpath, and
    whether it is a glob. Other entries are kept. *)
Definition workspace_subpath (p : FileSystemPath) : option (option str * bool) :=
  match p with
  | Special (ProjectRoots subpath) => Some (subpath, false)
  | GlobPattern pattern =>
      match strip_prefix pattern PROJECT_ROOTS_GLOB_PATTERN_PREFIX with
      | Some subpath => Some (Some subpath, true)
      | None => None
      end
  | _ => None
  end.

(** Where a workspace-root entry lies below one root; a glob needs a directory that can be
    written into a pattern. *)
Definition materialized_path (subpath : option str) (is_glob : bool) root : option PathUri :=
  if is_glob
     && match infer_path_convention root with
        | None => true
        | Some c => negb (is_ok (validate_glob_directory root c))
        end
  then None
  else match subpath with
       | None => Some root
       | Some subpath => resolve_scoped_workspace_path root subpath
       end.

(** The entry for one root; a restriction that cannot be resolved denies the root. *)
Definition materialize_at e (subpath : option str) (is_glob : bool) root : option FileSystemSandboxEntry :=
  match materialized_path subpath is_glob root with
  | Some path =>
      Some (mkEntry (if is_glob then GlobPattern (inferred_native_path_string path) else Path path)
              (access e) (missing_path_behavior e))
  | None =>
      if negb (can_write (access e)) then Some (mkEntry (Path root) Deny (missing_path_behavior e)) else None
  end.

(** A legacy denial below the home directory, which the roots say nothing about. *)
Definition home_relative_denial (roots : list PathUri) e (subpath : option str) : bool :=
  bool_decide (access e = Deny)
  && match subpath with
     | None => false
     | Some subpath =>
         existsb (λ root, match infer_path_convention root with
                          | Some c => bool_decide (is_Some (home_relative_suffix c subpath))
                          | None => false
                          end) roots
     end.

Fixpoint materialize_entries (roots : list PathUri) (es : list FileSystemSandboxEntry)
    : option (list FileSystemSandboxEntry) :=
  match es with
  | [] => Some []
  | e :: es =>
      match workspace_subpath (entry_path e) with
      | None => cons e <$> materialize_entries roots es
      | Some (subpath, is_glob) =>
          if home_relative_denial roots e subpath then None
          else app (omap (materialize_at e subpath is_glob) roots) <$> materialize_entries roots es
      end
  end.

Definition try_materialize_project_roots_with_path_uris (roots : list PathUri) pol
    : option FileSystemSandboxPolicy :=
  (λ es, set_entries es pol) <$> materialize_entries roots (entries pol).

Definition materialize_project_roots_with_path_uris (roots : list PathUri) pol : FileSystemSandboxPolicy :=
  default (restricted []) (try_materialize_project_roots_with_path_uris roots pol).

Definition with_materialized_project_roots_for_path_uris (roots : list PathUri) pol : FileSystemSandboxPolicy :=
  match try_materialize_project_roots_with_path_uris roots pol with
  | None => restricted []
  | Some materialized => set_entries (foldl push_new (entries pol) (entries materialized)) pol
  end.
End Roots.

(** * Policies of the local host *)

Section Local.
Context `{UL : UrlLib} `{!LocalHost}.
Implicit Types (path root : AbsPath) (pol existing : FileSystemSandboxPolicy).

Inductive SandboxPolicy : Type :=
| DangerFullAccess
| ReadOnly (network_access : bool)
| ExternalSandboxPolicy (network_access : NetworkAccess)
| WorkspaceWrite (writable_roots : list AbsPath) (network_access exclude_tmpdir_env_var exclude_slash_tmp : bool).

(** [dedup_absolute_paths] without normalization: the first occurrence of each path. *)
Fixpoint dedup_paths (seen l : list AbsPath) : list AbsPath :=
  match l with
  | [] => []
  | p :: l => if bool_decide (p ∈ seen) then dedup_paths seen l else p :: dedup_paths (p :: seen) l
  end.

Definition is_git_pointer_file path : bool :=
  fs_is_file path && bool_decide (abs_file_name path = Some (lit ".git")).

Definition resolve_gitdir_from_file dot_git : option AbsPath :=
  match fs_read_to_string dot_git with
  | None => None
  | Some contents =>
      match split_once (trim contents) 58 with
      | Some (prefix, gitdir_raw) =>
          if negb (bool_decide (trim prefix = lit "gitdir")) then None
          else
            let gitdir_raw := trim gitdir_raw in
            if is_empty gitdir_raw then None
            else match abs_parent dot_git with
                 | None => None
                 | Some base =>
                     let gitdir_path := resolve_path_against_base gitdir_raw base in
                     if fs_exists gitdir_path then Some gitdir_path else None
                 end
      | None => None
      end
  end.

Definition default_read_only_subpaths_for_writable_root (writable_root : AbsPath) (protect_missing_dot_codex : bool)
    : list AbsPath :=
  let top_level_git := abs_join writable_root (lit ".git") in
  let is_file := fs_is_file top_level_git in
  let git :=
    if fs_is_dir top_level_git || is_file then
      option_list (if is_file && is_git_pointer_file top_level_git
                   then resolve_gitdir_from_file top_level_git else None) ++ [top_level_git]
    else [] in
  let top_level_agents := abs_join writable_root (lit ".agents") in
  let agents := if fs_is_dir top_level_agents then [top_level_agents] else [] in
  let top_level_codex := abs_join writable_root (lit ".codex") in
  let codex := if protect_missing_dot_codex || fs_is_dir top_level_codex then [top_level_codex] else [] in
  dedup_paths [] (git ++ agents ++ codex).

Definition append_default_read_only_entry_if_no_explicit_rule (es : list FileSystemSandboxEntry)
    (p : FileSystemPath) : list FileSystemSandboxEntry :=
  if existsb (λ e, file_system_paths_share_target (entry_path e) p native) es then es
  else es ++ [skip_missing_path p Read].

Definition append_default_paths (protect_missing_dot_codex : bool) (es : list FileSystemSandboxEntry)
    (writable_root : AbsPath) : list FileSystemSandboxEntry :=
  foldl (λ es p, append_default_read_only_entry_if_no_explicit_rule es (Path (from_abs_path p))) es
    (default_read_only_subpaths_for_writable_root writable_root protect_missing_dot_codex).

(** The grants of workspace-write, without the read-only defaults. *)
Definition workspace_grants (writable_roots : list AbsPath) (exclude_tmpdir_env_var exclude_slash_tmp : bool)
    : list FileSystemSandboxEntry :=
  [new_entry (Special Root) Read; new_entry (Special (ProjectRoots None)) Write]
  ++ (if negb exclude_slash_tmp then [new_entry (Special SlashTmp) Write] else [])
  ++ (if negb exclude_tmpdir_env_var then [new_entry (Special Tmpdir) Write] else [])
  ++ ((λ p, new_entry (Path (from_abs_path p)) Write) <$> writable_roots).

Definition workspace_write (writable_roots : list AbsPath) (exclude_tmpdir_env_var exclude_slash_tmp : bool)
    : FileSystemSandboxPolicy :=
  let es := workspace_grants writable_roots exclude_tmpdir_env_var exclude_slash_tmp in
  let es := foldl (λ es name, append_default_read_only_entry_if_no_explicit_rule es
                                (Special (ProjectRoots (Some name)))) es
              [lit ".git"; lit ".agents"; lit ".codex"] in
  restricted (foldl (append_default_paths false) es writable_roots).

Definition workspace_write_with_path_uris (roots : list PathUri) (exclude_tmpdir_env_var exclude_slash_tmp : bool)
    : FileSystemSandboxPolicy :=
  with_materialized_project_roots_for_path_uris roots
    (workspace_write [] exclude_tmpdir_env_var exclude_slash_tmp).

(** [From<&SandboxPolicy>]. *)
Definition from_sandbox_policy (sp : SandboxPolicy) : FileSystemSandboxPolicy :=
  match sp with
  | DangerFullAccess => unrestricted
  | ExternalSandboxPolicy _ => external_sandbox
  | ReadOnly _ => restricted [new_entry (Special Root) Read]
  | WorkspaceWrite writable_roots _ exclude_tmpdir_env_var exclude_slash_tmp =>
      workspace_write writable_roots exclude_tmpdir_env_var exclude_slash_tmp
  end.

Definition has_full_network_access (sp : SandboxPolicy) : bool :=
  match sp with
  | DangerFullAccess => true
  | ExternalSandboxPolicy AccessEnabled => true
  | ExternalSandboxPolicy AccessRestricted => false
  | ReadOnly network_access => network_access
  | WorkspaceWrite _ network_access _ _ => network_access
  end.
Definition network_from_sandbox_policy (sp : SandboxPolicy) : NetworkSandboxPolicy :=
  if has_full_network_access sp then NetEnabled else NetRestricted.

(** The working directory is [None] when it has no absolute form. *)
Definition from_legacy_sandbox_policy_for_cwd (sp : SandboxPolicy) (cwd : option AbsPath) : FileSystemSandboxPolicy :=
  let pol := from_sandbox_policy sp in
  match sp with
  | WorkspaceWrite writable_roots _ _ _ =>
      let es := match cwd with
                | Some cwd_root => append_default_paths true (entries pol) cwd_root
                | None => entries pol
                end in
      set_entries (foldl (append_default_paths false) es writable_roots) pol
  | _ => pol
  end.

Definition from_legacy_sandbox_policy_preserving_deny_entries (sp : SandboxPolicy) (cwd : option AbsPath) existing
    : FileSystemSandboxPolicy :=
  let rebuilt := from_legacy_sandbox_policy_for_cwd sp cwd in
  if negb (is_restricted rebuilt) then rebuilt
  else
    let rebuilt := set_glob_depth (glob_scan_max_depth existing) rebuilt in
    set_entries (foldl push_new (entries rebuilt) (deny_entries existing)) rebuilt.

Definition with_additional_legacy_workspace_writable_roots (additional : list AbsPath) pol : FileSystemSandboxPolicy :=
  if negb (is_restricted pol) then pol
  else set_entries (foldl (λ es path,
         let explicit := existsb (λ e, can_write (access e)
           && match entry_path e with
              | Path p => uri_eqb p (from_abs_path path)
              | _ => false
              end) es in
         append_default_paths false
           (if explicit then es else es ++ [new_entry (Path (from_abs_path path)) Write]) path)
         (entries pol) additional) pol.

(** ** Projecting to a legacy policy *)

Inductive LegacyProjectionError : Type :=
| NotAHostPath (path : PathUri)
| WritesOutsideWorkspace.

(** What the loop over the entries collects. *)
Record LegacyScan : Type := mkScan {
  workspace_root_writable : bool;
  writable_root_paths : list AbsPath;
  tmpdir_writable : bool;
  slash_tmp_writable : bool;
  unbridgeable_root_write : bool;
}.

Definition scan_root_path (cwd : option AbsPath) path (s : LegacyScan) : LegacyScan :=
  if bool_decide (cwd = Some path)
  then mkScan true (writable_root_paths s) (tmpdir_writable s) (slash_tmp_writable s) (unbridgeable_root_write s)
  else mkScan (workspace_root_writable s) (writable_root_paths s ++ [path]) (tmpdir_writable s)
         (slash_tmp_writable s) (unbridgeable_root_write s).

Definition scan_entry (cwd : option AbsPath) (s : LegacyScan) (e : FileSystemSandboxEntry)
    : Result LegacyScan LegacyProjectionError :=
  let write := can_write (access e) in
  match entry_path e with
  | GlobPattern _ => Ok s
  | Path p =>
      if write then
        let? path := ok_or (to_abs_path p) (NotAHostPath p) in Ok (scan_root_path cwd path s)
      else Ok s
  | Special Root =>
      Ok (if write then mkScan (workspace_root_writable s) (writable_root_paths s) (tmpdir_writable s)
                          (slash_tmp_writable s) true else s)
  | Special Minimal | Special (Unknown _ _) => Ok s
  | Special (ProjectRoots None) =>
      Ok (if write then mkScan true (writable_root_paths s) (tmpdir_writable s) (slash_tmp_writable s)
                          (unbridgeable_root_write s) else s)
  | Special (ProjectRoots (Some subpath)) =>
      Ok match cwd with
         | Some base =>
             if write
             then mkScan (workspace_root_writable s)
                    (writable_root_paths s ++ [resolve_path_against_base subpath base])
                    (tmpdir_writable s) (slash_tmp_writable s) (unbridgeable_root_write s)
             else s
         | None => s
         end
  | Special Tmpdir =>
      Ok (if write then mkScan (workspace_root_writable s) (writable_root_paths s) true (slash_tmp_writable s)
                          (unbridgeable_root_write s) else s)
  | Special SlashTmp =>
      Ok (if write then mkScan (workspace_root_writable s) (writable_root_paths s) (tmpdir_writable s) true
                          (unbridgeable_root_write s) else s)
  end.

Fixpoint scan_entries (cwd : option AbsPath) (s : LegacyScan) (es : list FileSystemSandboxEntry)
    : Result LegacyScan LegacyProjectionError :=
  match es with
  | [] => Ok s
  | e :: es => let? s := scan_entry cwd s e in scan_entries cwd s es
  end.

Definition network_access_of (n : NetworkSandboxPolicy) : NetworkAccess :=
  if is_enabled n then AccessEnabled else AccessRestricted.

Definition full_disk_legacy (n : NetworkSandboxPolicy) : SandboxPolicy :=
  if is_enabled n then DangerFullAccess else ExternalSandboxPolicy AccessRestricted.

Definition to_legacy_sandbox_policy (n : NetworkSandboxPolicy) (cwd : option AbsPath) pol
    : Result SandboxPolicy LegacyProjectionError :=
  match kind pol with
  | ExternalSandbox => Ok (ExternalSandboxPolicy (network_access_of n))
  | Unrestricted => Ok (full_disk_legacy n)
  | Restricted =>
      let? s := scan_entries cwd (mkScan false [] false false false) (entries pol) in
      if has_full_disk_write_access_for_convention (Some native) pol then Ok (full_disk_legacy n)
      else if workspace_root_writable s then
        Ok (WorkspaceWrite (dedup_paths [] (writable_root_paths s)) (is_enabled n)
              (negb (tmpdir_writable s)) (negb (slash_tmp_writable s)))
      else if unbridgeable_root_write s || negb (is_empty (writable_root_paths s)) || tmpdir_writable s
              || (bool_decide (native = Posix) && slash_tmp_writable s)
      then Err WritesOutsideWorkspace
      else Ok (ReadOnly (is_enabled n))
  end.
End Local.

Arguments SandboxPolicy {_ _}.
