(* ===== verification/PermissionsSafety.v ===== *)
(** What a filesystem policy decides about a path: the most specific entry wins, denials
    before writes before reads, and everything that cannot be compared is denied. *)
From stdpp Require Import base list sets numbers strings.
From S2P Require Import Prelude RustStr PathConv Utf8Stream UrlLib PathUri PathUriFacts UrlModel LegacyPath Permissions PermissionsRoots.

Section Facts.
Context `{UL : UrlLib}.
Implicit Types (path root : PathUri) (pol : FileSystemSandboxPolicy)
  (ctx : FileSystemSandboxPolicyContext) (x y : PathUri * FileSystemAccessMode * nat).

(** * The maximum *)

Lemma key_le_refl x : key_le x x = true.
Proof. unfold key_le. rewrite Nat.eqb_refl, Nat.leb_refl. apply orb_true_r. Qed.

Lemma key_le_true x y :
  key_le x y = true ↔ x.2 < y.2 ∨ (x.2 = y.2 ∧ access_rank x.1.2 ≤ access_rank y.1.2).
Proof.
  unfold key_le. by rewrite orb_true_iff, andb_true_iff, Nat.ltb_lt, Nat.eqb_eq, Nat.leb_le.
Qed.

Lemma max_entry_spec l best :
  (max_entry best l = best ∨ max_entry best l ∈ l) ∧
  key_le best (max_entry best l) = true ∧ Forall (λ x, key_le x (max_entry best l) = true) l.
Proof.
  revert best. induction l as [|x l IH]; intros best; simpl.
  - split; [by left|]. split; [apply key_le_refl|constructor].
  - destruct (IH (if key_le best x then x else best)) as (Hin & Hle & Hall).
    set (m := max_entry _ l) in *. destruct (key_le best x) eqn:E.
    + split_and!; [set_solver| |by constructor]. rewrite key_le_true in *. lia.
    + split_and!; [set_solver|done|]. constructor; [|done].
      apply not_true_iff_false in E. rewrite key_le_true in *. lia.
Qed.

Lemma max_by_key_spec l :
  match max_by_key l with
  | None => l = []
  | Some m => m ∈ l ∧ ∀ x, x ∈ l → key_le x m = true
  end.
Proof.
  destruct l as [|x l]; [done|]. simpl. destruct (max_entry_spec l x) as (Hin & Hle & Hall).
  rewrite Forall_forall in Hall. split; [set_solver|]. intros y. rewrite elem_of_cons.
  intros [->|?]; auto.
Qed.

Lemma with_depths_spec rs :
  match with_depths rs with
  | None => ∃ root a, (root, a) ∈ rs ∧ lexical_depth root = None ∧ is_opaque root = false
  | Some es =>
      Forall (λ ra, is_Some (lexical_depth ra.1) ∨ is_opaque ra.1 = true) rs ∧
      ∀ root a d, (root, a, d) ∈ es ↔ (root, a) ∈ rs ∧ lexical_depth root = Some d
  end.
Proof.
  induction rs as [|[root a] rs IH]; simpl.
  - split; [constructor|]. set_solver.
  - destruct (lexical_depth root) as [d|] eqn:Ed.
    + destruct (with_depths rs) as [es|]; simpl; [|set_solver].
      destruct IH as [Hf Hes]. split; [constructor; [by left; eauto|done]|].
      intros r b k. rewrite !elem_of_cons, Hes. naive_solver.
    + destruct (is_opaque root) eqn:Eo; [|set_solver]. destruct (with_depths rs) as [es|]; [|set_solver].
      destruct IH as [Hf Hes]. split; [constructor; [by right|done]|].
      intros r b k. rewrite elem_of_cons, Hes. naive_solver.
Qed.

(** * Deciding entries *)

(** An entry of the policy whose root contains the path, with the depth of the root. *)
Definition covers ctx pol path root (a : FileSystemAccessMode) (d : nat) : Prop :=
  (root, a) ∈ resolved_entries ctx pol ∧ lexical_depth root = Some d ∧ uri_starts_with path root = true.

(** The access of a most specific covering entry; among equally deep ones, a denial comes
    before a write grant and a write grant before a read grant. *)
Definition decided ctx pol path (a : FileSystemAccessMode) : Prop :=
  ∃ root d, covers ctx pol path root a d ∧
    ∀ root' a' d', covers ctx pol path root' a' d' →
      d' < d ∨ (d' = d ∧ access_rank a' ≤ access_rank a).

(** Path, working directory and roots can be compared. *)
Definition evaluable path ctx pol : bool :=
  match infer_path_convention (cwd ctx) with
  | None => false
  | Some c =>
      comparable_path path ctx c
      && forallb (λ ra, bool_decide (is_Some (lexical_depth ra.1)) || is_opaque ra.1)
           (resolved_entries ctx pol)
  end.

Lemma evaluable_depths path ctx pol :
  evaluable path ctx pol = true →
  ∃ c es, infer_path_convention (cwd ctx) = Some c ∧ comparable_path path ctx c = true ∧
    with_depths (resolved_entries ctx pol) = Some es.
Proof.
  unfold evaluable. destruct (infer_path_convention (cwd ctx)) as [c|]; [|done].
  intros [Hc Hall]%andb_true_iff. exists c.
  pose proof (with_depths_spec (resolved_entries ctx pol)) as Hd.
  destruct (with_depths _) as [es|]; [by eauto|]. destruct Hd as (root & a & Hin & Hn & Ho).
  apply list_elem_of_In in Hin. eapply forallb_forall in Hall; [|done]. simpl in Hall.
  rewrite Hn, Ho, bool_decide_false in Hall; [done|]. by intros [].
Qed.

Lemma resolve_access_evaluable path ctx pol :
  kind pol = Restricted → evaluable path ctx pol = true →
  (∃ root a d, covers ctx pol path root a d) ∧ decided ctx pol path (resolve_access path ctx pol) ∨
  (∀ root a d, ¬ covers ctx pol path root a d) ∧ resolve_access path ctx pol = Deny.
Proof.
  intros Hk He. destruct (evaluable_depths _ _ _ He) as (c & es & Hc & Hcmp & Hes).
  unfold resolve_access. rewrite Hk, Hc, Hcmp, Hes. simpl.
  pose proof (with_depths_spec (resolved_entries ctx pol)) as Hd. rewrite Hes in Hd.
  destruct Hd as [_ Hd].
  assert (Hin : ∀ root a d, (root, a, d) ∈ filter (λ x, uri_starts_with path x.1.1) es
                            ↔ covers ctx pol path root a d).
  { intros root a d. rewrite list_elem_of_filter, Hd. unfold covers. simpl. rewrite Is_true_true. naive_solver. }
  pose proof (max_by_key_spec (filter (λ x, uri_starts_with path x.1.1) es)) as Hm.
  destruct (max_by_key _) as [[[root a] d]|].
  - left. destruct Hm as [Hm Hmax]. apply Hin in Hm. split; [by eauto|]. exists root, d. split; [done|].
    intros root' a' d' Hcov. apply Hin, Hmax, key_le_true in Hcov. done.
  - right. split; [|done]. intros root a d Hcov%Hin. rewrite Hm in Hcov. set_solver.
Qed.

Lemma resolve_access_not_evaluable path ctx pol :
  kind pol = Restricted → evaluable path ctx pol = false → resolve_access path ctx pol = Deny.
Proof.
  intros Hk He. unfold resolve_access. rewrite Hk. unfold evaluable in He.
  destruct (infer_path_convention (cwd ctx)) as [c|]; [|done].
  destruct (comparable_path path ctx c); [|done]. simpl in *.
  pose proof (with_depths_spec (resolved_entries ctx pol)) as Hd.
  destruct (with_depths _) as [es|]; [exfalso|done]. destruct Hd as [Hf _].
  apply not_true_iff_false in He. apply He, forallb_forall. intros ra Hra%list_elem_of_In.
  rewrite Forall_forall in Hf. apply orb_true_iff. rewrite bool_decide_eq_true. by apply Hf.
Qed.
End Facts.

(** The claims about filesystem policies that hold on every executor, with concrete
    policies that witness them. *)

(** * Concrete paths *)

Definition uri (s : string) : PathUri :=
  match parse_uri (lit s) with
  | Ok p => p
  | Err _ => mkPathUri (mkFileUrl [] [] eq_refl)
  end.
Definition workspace_ctx (roots : list PathUri) : FileSystemSandboxPolicyContext :=
  mkContext (uri "file:///ws") roots None (Some []).

(** * The most specific entry decides *)

Section Decide.
Context `{UL : UrlLib}.
Implicit Types (path root : PathUri) (pol : FileSystemSandboxPolicy) (ctx : FileSystemSandboxPolicyContext).

(** C2: Access to a path under a restricted policy. When the path, the working directory
    and the roots can be compared, the access is that of an entry that contains the path
    and is at least as deep as every other such entry, a denial before a write grant
    before a read grant among the deepest; without such an entry, and whenever something
    cannot be compared, the access is denied. *)
Theorem resolve_access_most_specific path ctx pol :
  kind pol = Restricted →
  if evaluable path ctx pol
  then decided ctx pol path (resolve_access path ctx pol)
       ∨ (∀ root a d, ¬ covers ctx pol path root a d) ∧ resolve_access path ctx pol = Deny
  else resolve_access path ctx pol = Deny.
Proof.
  intros Hk. destruct (evaluable path ctx pol) eqn:He.
  - destruct (resolve_access_evaluable path ctx pol Hk He) as [[_ ?]|?]; auto.
  - by apply resolve_access_not_evaluable.
Qed.

Lemma resolved_convention ctx pol root a :
  (root, a) ∈ resolved_entries ctx pol → infer_path_convention root = infer_path_convention (cwd ctx).
Proof.
  unfold resolved_entries. rewrite list_elem_of_bind. intros (e & Hin & _).
  apply list_elem_of_fmap in Hin as (p & [= -> ->] & Hp). apply list_elem_of_filter in Hp as [Hp _].
  by apply bool_decide_unpack in Hp.
Qed.

Lemma covers_posix ctx pol path root a d :
  infer_path_convention (cwd ctx) = Some Posix → evaluable path ctx pol = true →
  covers ctx pol path root a d →
  ∃ sp sr, posix_segments path = Some sp ∧ posix_segments root = Some sr ∧ sr `prefix_of` sp ∧ length sr = d.
Proof.
  intros Hc He (Hin & Hd & Hs). unfold evaluable in He. rewrite Hc in He.
  apply andb_true_iff in He as [Hcmp _]. unfold comparable_path in Hcmp.
  rewrite !andb_true_iff, !bool_decide_eq_true in Hcmp. destruct Hcmp as [[Hpc [n Hn]] _].
  apply resolved_convention in Hin. rewrite Hc in Hin.
  destruct (posix_depth_segments path n) as (sp & Hsp & _); [done..|].
  destruct (posix_depth_segments root d) as (sr & Hsr & Hl); [done..|].
  exists sp, sr. split_and!; try done. rewrite (posix_starts_with path root sp sr) in Hs by done.
  by apply bool_decide_eq_true in Hs.
Qed.

(** On a POSIX executor a deeper covering entry lies inside the other one. *)
Lemma covers_nested ctx pol path root a d root' a' d' :
  infer_path_convention (cwd ctx) = Some Posix → evaluable path ctx pol = true →
  covers ctx pol path root a d → covers ctx pol path root' a' d' → d ≤ d' →
  uri_starts_with root' root = true ∧ (d < d' → uri_starts_with root root' = false).
Proof.
  intros Hc He H1 H2 Hle.
  destruct (covers_posix _ _ _ _ _ _ Hc He H1) as (sp & sr & Hsp & Hsr & Hp & <-).
  destruct (covers_posix _ _ _ _ _ _ Hc He H2) as (sp' & sr' & Hsp' & Hsr' & Hp' & <-). simplify_eq.
  rewrite (posix_starts_with root' root sr' sr), (posix_starts_with root root' sr sr') by done. split.
  - apply bool_decide_eq_true. destruct (prefix_weak_total sr sr' sp); [done..|].
    by rewrite (prefix_length_eq sr' sr).
  - intros Hlt. apply bool_decide_eq_false. intros Hx%prefix_length. lia.
Qed.

(** No grant overrides a denial from outside: on a POSIX executor, a path that a denied
    root contains can only be read through a readable entry strictly inside that root. *)
Theorem denial_overridden_only_inside path ctx pol root d :
  kind pol = Restricted → infer_path_convention (cwd ctx) = Some Posix →
  covers ctx pol path root Deny d → can_read_path path ctx pol = true →
  ∃ root' a' d', covers ctx pol path root' a' d' ∧ can_read a' = true ∧
    uri_starts_with root' root = true ∧ uri_starts_with root root' = false.
Proof.
  intros Hk Hc Hcov Hr. unfold can_read_path in Hr. destruct (evaluable path ctx pol) eqn:He.
  2: { rewrite resolve_access_not_evaluable in Hr by done. by vm_compute in Hr. }
  destruct (resolve_access_evaluable path ctx pol Hk He) as [[_ (root' & d' & Hcov' & Hmax)]|[Hno _]].
  2: { by apply Hno in Hcov. }
  exists root', (resolve_access path ctx pol), d'. split_and!; [done..| |].
  all: assert (Hlt : d < d') by (destruct (Hmax _ _ _ Hcov) as [?|[_ Hrk]]; [done|];
    destruct (resolve_access path ctx pol); simpl in Hrk; [lia..|by vm_compute in Hr]).
  all: eapply (covers_nested ctx pol path root Deny d root' _ d'); eauto; lia.
Qed.
End Decide.

Definition denied_src : FileSystemSandboxPolicy :=
  restricted [new_entry (Special Root) Read; new_entry (Path (uri "file:///ws/secret")) Deny;
              new_entry (Path (uri "file:///ws/secret/public")) Read].

Lemma resolve_access_most_specific_witness :
  kind denied_src = Restricted ∧
  evaluable (uri "file:///ws/secret/key") (workspace_ctx []) denied_src = true ∧
  decided (workspace_ctx []) denied_src (uri "file:///ws/secret/key")
    (resolve_access (uri "file:///ws/secret/key") (workspace_ctx []) denied_src).
Proof.
  split; [done|]. split; [vm_compute; reflexivity|].
  pose proof (resolve_access_most_specific (uri "file:///ws/secret/key") (workspace_ctx []) denied_src eq_refl) as Hx.
  assert (He : evaluable (uri "file:///ws/secret/key") (workspace_ctx []) denied_src = true)
    by (vm_compute; reflexivity).
  rewrite He in Hx. destruct Hx as [Hx|[Hno _]]; [exact Hx|].
  exfalso. apply (Hno (uri "file:///ws/secret") Deny 2). split_and!; [|vm_compute; reflexivity..].
  apply (bool_decide_unpack _). vm_compute. exact I.
Defined.

Lemma denial_overridden_only_inside_witness :
  ∃ root' a' d', covers (workspace_ctx []) denied_src (uri "file:///ws/secret/public/a") root' a' d' ∧
    can_read a' = true ∧ uri_starts_with root' (uri "file:///ws/secret") = true ∧
    uri_starts_with (uri "file:///ws/secret") root' = false.
Proof.
  apply (denial_overridden_only_inside (uri "file:///ws/secret/public/a") (workspace_ctx []) denied_src
           (uri "file:///ws/secret") 2); [done|vm_compute; reflexivity| |vm_compute; reflexivity].
  split_and!; [|vm_compute; reflexivity..].
  apply (bool_decide_unpack _). vm_compute. exact I.
Defined.

(** * Protected metadata *)

Section Metadata.
Context `{UL : UrlLib}.
Implicit Types (path root : PathUri) (pol : FileSystemSandboxPolicy) (ctx : FileSystemSandboxPolicyContext).

(** A metadata directory of a writable root. *)
Definition metadata_directory ctx pol (protected : PathUri) (name : str) : Prop :=
  name ∈ PROTECTED_METADATA_PATH_NAMES ∧
  ∃ root, (root, Write) ∈ resolved_entries ctx pol ∧ join_descendant root name = Ok protected.

Lemma head_omap_spec {A B} (f : A → option B) l :
  match head (omap f l) with
  | Some b => ∃ a, a ∈ l ∧ f a = Some b
  | None => ∀ a, a ∈ l → f a = None
  end.
Proof.
  induction l as [|a l IH]; [set_solver|]. change (omap f (a :: l)) with
    (match f a with Some b => b :: omap f l | None => omap f l end).
  destruct (f a) as [b|] eqn:E; [exists a; set_solver|].
  destruct (head (omap f l)) as [b|].
  - destruct IH as (x & ? & ?). exists x. split; [by apply elem_of_cons; right|done].
  - intros x Hx. apply elem_of_cons in Hx as [->|?]; [done|by apply IH].
Qed.

Lemma protected_of_spec path root :
  match protected_of path root with
  | Some (protected, name) =>
      name ∈ PROTECTED_METADATA_PATH_NAMES ∧ join_descendant root name = Ok protected ∧
      uri_starts_with path protected = true
  | None => ∀ name protected, name ∈ PROTECTED_METADATA_PATH_NAMES →
      join_descendant root name = Ok protected → uri_starts_with path protected = false
  end.
Proof.
  unfold protected_of.
  match goal with |- context [head (omap ?f ?l)] => pose proof (head_omap_spec f l) as Hs end.
  destruct (head _) as [[protected name]|].
  - destruct Hs as (n & Hin & Hf). destruct (join_descendant root n) as [q|] eqn:E; [|done].
    destruct (uri_starts_with path q) eqn:Es; [|done]. by simplify_eq.
  - intros name protected Hin E. specialize (Hs name Hin). simpl in Hs. rewrite E in Hs.
    by destruct (uri_starts_with path protected).
Qed.

Lemma can_write_eq a : can_write a = true ↔ a = Write.
Proof. unfold can_write. apply bool_decide_eq_true. Qed.

(** No denial of a metadata write: the path lies in no metadata directory, or a write entry
    inside one of them contains it. *)
Lemma metadata_write_denial_none path ctx pol :
  kind pol = Restricted → metadata_write_denial path ctx pol = None →
  (∀ protected name, metadata_directory ctx pol protected name → uri_starts_with path protected = false) ∨
  ∃ protected name grant, metadata_directory ctx pol protected name ∧
    (grant, Write) ∈ resolved_entries ctx pol ∧
    uri_starts_with path grant = true ∧ uri_starts_with grant protected = true.
Proof.
  intros Hk. unfold metadata_write_denial, is_restricted. rewrite Hk, bool_decide_true by done. simpl.
  match goal with |- context [head (omap ?f ?l)] => pose proof (head_omap_spec f l) as Hs end.
  destruct (head _) as [[protected name]|].
  - destruct Hs as ([root a] & Hin & Hf). simpl in Hf.
    apply list_elem_of_filter in Hin as [Ha Hin]. simpl in Ha. apply Is_true_true, can_write_eq in Ha as ->.
    pose proof (protected_of_spec path root) as Hp. rewrite Hf in Hp. destruct Hp as (Hn & Hj & Hsw).
    destruct (existsb _ _) eqn:Ee; [intros _; right|done].
    apply existsb_exists in Ee as ([grant a] & Hg & Hc). simpl in Hc.
    rewrite !andb_true_iff, can_write_eq in Hc. destruct Hc as [[-> ?] ?].
    exists protected, name, grant. split; [split; [done|by exists root]|].
    split; [by apply list_elem_of_In|done].
  - intros _. left. intros protected name (Hn & root & Hin & Hj).
    assert (Hp : protected_of path root = None).
    { apply (Hs (root, Write)). apply list_elem_of_filter. done. }
    pose proof (protected_of_spec path root) as Hx. rewrite Hp in Hx. by apply (Hx name).
Qed.

(** What a write to workspace metadata takes. When a policy that does not open the whole
    disk lets a path be written, its access is [Write], and the path lies in no [.git],
    [.agents] or [.codex] directory of a writable root unless a write entry inside such a
    directory contains it. *)
Theorem metadata_write_needs_grant path ctx pol :
  kind pol = Restricted → has_full_disk_write_access_with_context ctx pol = false →
  can_write_path path ctx pol = true →
  resolve_access path ctx pol = Write ∧
  ((∀ protected name, metadata_directory ctx pol protected name → uri_starts_with path protected = false) ∨
   ∃ protected name grant, metadata_directory ctx pol protected name ∧
     (grant, Write) ∈ resolved_entries ctx pol ∧
     uri_starts_with path grant = true ∧ uri_starts_with grant protected = true).
Proof.
  intros Hk Hf Hw. unfold can_write_path in Hw. rewrite Hf in Hw.
  destruct (can_write (resolve_access path ctx pol)) eqn:Ha; [|done]. simpl in Hw. bool_props.
  apply can_write_eq in Ha. split; [done|]. by apply metadata_write_denial_none.
Qed.
End Metadata.

Definition repo_entry : FileSystemSandboxEntry := new_entry (Path (uri "file:///repo")) Write.
Definition worktree_entry : FileSystemSandboxEntry := new_entry (Path (uri "file:///repo/.codex/w")) Write.

Lemma metadata_write_needs_grant_witness :
  let pol := restricted [repo_entry; worktree_entry] in
  resolve_access (uri "file:///repo/.codex/w/f") (workspace_ctx []) pol = Write ∧
  ((∀ protected name, metadata_directory (workspace_ctx []) pol protected name →
      uri_starts_with (uri "file:///repo/.codex/w/f") protected = false) ∨
   ∃ protected name grant, metadata_directory (workspace_ctx []) pol protected name ∧
     (grant, Write) ∈ resolved_entries (workspace_ctx []) pol ∧
     uri_starts_with (uri "file:///repo/.codex/w/f") grant = true ∧ uri_starts_with grant protected = true).
Proof.
  intros pol. apply (metadata_write_needs_grant (uri "file:///repo/.codex/w/f") (workspace_ctx []) pol);
    vm_compute; reflexivity.
Defined.

(** The protection of metadata depends on the order of the entries. With write entries
    for a repository and for a worktree below its [.codex] directory, the worktree's own
    [.git] directory is writable when the repository comes first, and protected when the
    worktree comes first: only the first root whose metadata contains the path is
    examined. *)
Theorem metadata_protection_depends_on_order :
  can_write_path (uri "file:///repo/.codex/w/.git/hooks/pre-commit") (workspace_ctx [])
    (restricted [repo_entry; worktree_entry]) = true ∧
  can_write_path (uri "file:///repo/.codex/w/.git/hooks/pre-commit") (workspace_ctx [])
    (restricted [worktree_entry; repo_entry]) = false.
Proof. split; vm_compute; reflexivity. Qed.
