(* ===== verification/PermissionsDenyFacts.v ===== *)
(** The runtime matcher for read denials: what it denies, entry by entry, and that
    replacing the allow side of a policy keeps every denial. *)
From stdpp Require Import base list sets numbers strings.
From S2P Require Import Prelude RustStr PathConv Utf8Stream UrlLib PathUri PathUriFacts UrlModel LegacyPath Permissions PermissionsDeny PermissionsRoots PermissionsSafety.

Section DenyFacts.
Context `{UL : UrlLib} `{GL : GlobLib}.
Implicit Types (path root : PathUri) (e : FileSystemSandboxEntry) (pol existing : FileSystemSandboxPolicy)
  (ctx : FileSystemSandboxPolicyContext) (c : PathConvention).

(** Whether a deny glob denies a path: it matches, or it cannot be resolved or compiled. *)
Definition glob_denies ctx c path e : bool :=
  match deny_read_glob ctx e with
  | None => false
  | Some (Err _) => true
  | Some (Ok pattern) =>
      match build_glob_matcher pattern c with
      | Ok matcher => matcher (glob_candidate c path)
      | Err _ => true
      end
  end.

(** The roots of an entry in a context, with its access. *)
Definition resolved_entry ctx e : list (PathUri * FileSystemAccessMode) :=
  (λ p, (p, access e)) <$>
    filter (λ p, bool_decide (infer_path_convention p = infer_path_convention (cwd ctx)))
      (entry_roots ctx (entry_path e)).

(** Whether one of the roots of a denied entry, other than the root of the file system,
    contains a path. *)
Definition root_denies ctx path e : bool :=
  existsb (λ ra, uri_starts_with path ra.1
                 && negb match file_system_root ctx with
                         | Some fs_root => same_location ra.1 fs_root
                         | None => false
                         end) (resolved_entry ctx e).

Definition entry_denies ctx c path e : bool :=
  bool_decide (access e = Deny) && (root_denies ctx path e || glob_denies ctx c path e).

Lemma collect_results_spec {A E} (l : list (Result A E)) :
  match collect_results id l with
  | Ok xs => l = Ok <$> xs
  | Err err => Err err ∈ l
  end.
Proof.
  induction l as [|[x|err] l IH]; simpl; [done| |by left].
  destruct (collect_results id l) as [xs|err]; simpl; [by rewrite IH|by right].
Qed.

Lemma compile_fail_closed c ps :
  ∃ ms invalid, compile_patterns c FailClosed ps = Ok (ms, invalid) ∧
    (invalid = true ↔ ∃ p err, p ∈ ps ∧ build_glob_matcher p c = Err err) ∧
    ∀ cand, existsb (λ m, m cand) ms = true ↔
      ∃ p m, p ∈ ps ∧ build_glob_matcher p c = Ok m ∧ m cand = true.
Proof.
  induction ps as [|p ps (ms & inv & E & Hinv & Hms)]; simpl.
  - exists [], false. set_solver.
  - rewrite E. simpl. destruct (build_glob_matcher p c) as [m|err] eqn:Eb.
    + exists (m :: ms), inv. split; [done|]. split.
      * rewrite Hinv. split; [set_solver|]. intros (q & er & Hq & Hb).
        apply elem_of_cons in Hq as [->|?]; [congruence|eauto].
      * intros cand. simpl. rewrite orb_true_iff, Hms. split.
        -- intros [?|(q & m' & ? & ? & ?)]; [exists p, m|exists q, m']; set_solver.
        -- intros (q & m' & Hq & Hb & ?). apply elem_of_cons in Hq as [->|?]; [left; congruence|right; eauto].
    + exists ms, true. split; [done|]. split.
      * split; [|done]. intros _. exists p, err. set_solver.
      * intros cand. rewrite Hms. split; [set_solver|]. intros (q & m' & Hq & Hb & ?).
        apply elem_of_cons in Hq as [->|?]; [congruence|eauto].
Qed.

Lemma elem_of_deny_globs ctx pol r :
  r ∈ omap (deny_read_glob ctx) (filter (λ e, bool_decide (access e = Deny)) (entries pol)) ↔
  ∃ e, e ∈ entries pol ∧ access e = Deny ∧ deny_read_glob ctx e = Some r.
Proof.
  rewrite list_elem_of_omap. setoid_rewrite list_elem_of_filter. setoid_rewrite bool_decide_spec.
  naive_solver.
Qed.

Lemma elem_of_resolved ctx pol ra :
  ra ∈ resolved_entries ctx pol ↔ ∃ e, e ∈ entries pol ∧ ra ∈ resolved_entry ctx e.
Proof.
  change (resolved_entries ctx pol) with (entries pol ≫= resolved_entry ctx).
  rewrite list_elem_of_bind. naive_solver.
Qed.

Lemma resolved_entry_access ctx e ra : ra ∈ resolved_entry ctx e → ra.2 = access e.
Proof. unfold resolved_entry. rewrite list_elem_of_fmap. by intros (? & -> & _). Qed.

Lemma denied_roots_spec ctx pol path :
  existsb (uri_starts_with path) (denied_roots_of ctx pol) = true ↔
  ∃ e, e ∈ entries pol ∧ access e = Deny ∧ root_denies ctx path e = true.
Proof.
  rewrite existsb_exists. unfold denied_roots_of, root_denies. split.
  - intros (p & Hp%list_elem_of_In & Hs). apply list_elem_of_fmap in Hp as ([q a] & -> & Hf).
    apply list_elem_of_filter in Hf as [Ha Hr]. apply Is_true_true, andb_true_iff in Ha as [Ha Hn].
    apply bool_decide_eq_true in Ha. apply elem_of_resolved in Hr as (e & He & Hin).
    pose proof (resolved_entry_access _ _ _ Hin) as Hacc. simpl in *. exists e.
    split_and!; [done|congruence|]. apply existsb_exists. exists (q, a).
    split; [by apply list_elem_of_In|]. apply andb_true_iff. done.
  - intros (e & He & Hacc & Hx). apply existsb_exists in Hx as ([q a] & Hin%list_elem_of_In & Hc).
    apply andb_true_iff in Hc as [Hs Hn]. pose proof (resolved_entry_access _ _ _ Hin) as Ha. simpl in *.
    exists q. split; [|done]. apply list_elem_of_In, list_elem_of_fmap. exists (q, a). split; [done|].
    apply list_elem_of_filter. split; [|apply elem_of_resolved; eauto].
    apply Is_true_true, andb_true_iff. split; [apply bool_decide_eq_true; simpl; congruence|done].
Qed.

Lemma glob_denies_spec ctx c path pol :
  (∃ e, e ∈ entries pol ∧ access e = Deny ∧ glob_denies ctx c path e = true) ↔
  match deny_read_globs ctx pol with
  | Err _ => True
  | Ok ps => (∃ p err, p ∈ ps ∧ build_glob_matcher p c = Err err) ∨
             ∃ p m, p ∈ ps ∧ build_glob_matcher p c = Ok m ∧ m (glob_candidate c path) = true
  end.
Proof.
  unfold deny_read_globs.
  pose proof (collect_results_spec
    (omap (deny_read_glob ctx) (filter (λ e, bool_decide (access e = Deny)) (entries pol)))) as Hc.
  destruct (collect_results id _) as [ps|err].
  - assert (Hps : ∀ p, p ∈ ps ↔ ∃ e, e ∈ entries pol ∧ access e = Deny ∧ deny_read_glob ctx e = Some (Ok p)).
    { intros p. rewrite <- (elem_of_deny_globs ctx pol (Ok p)), Hc, list_elem_of_fmap. naive_solver. }
    split.
    + intros (e & He & Ha & Hg). unfold glob_denies in Hg.
      destruct (deny_read_glob ctx e) as [[p|err]|] eqn:Eg; [| |done].
      * assert (Hp : p ∈ ps) by (apply Hps; eauto).
        destruct (build_glob_matcher p c) as [m|err] eqn:Eb; [right; exists p, m|left; exists p, err]; done.
      * exfalso. assert (Hin : Err err ∈ Ok (E:=DenyReadError) <$> ps)
          by (rewrite <- Hc; apply elem_of_deny_globs; eauto).
        by apply list_elem_of_fmap in Hin as (? & ? & _).
    + unfold glob_denies. intros [(p & err & Hp & Hb)|(p & m & Hp & Hb & Hm)];
        apply Hps in Hp as (e & ? & ? & Hg); exists e; rewrite Hg, Hb; done.
  - apply elem_of_deny_globs in Hc as (e & ? & ? & Hg). split; [done|]. intros _. exists e.
    unfold glob_denies. by rewrite Hg.
Qed.

(** What the matcher of a policy denies. *)
Lemma read_denied_spec ctx pol path c :
  infer_path_convention (cwd ctx) = Some c →
  read_denied pol ctx path =
    existsb (λ e, bool_decide (access e = Deny)) (entries pol)
    && (negb (comparable_path path ctx c) || existsb (entry_denies ctx c path) (entries pol)).
Proof.
  intros Hc. unfold read_denied, from_context.
  destruct (existsb _ (entries pol)) eqn:Ed; [|done]. cbn [andb]. unfold prepare_deny_read_matcher. rewrite Hc.
  assert (Hspec : existsb (entry_denies ctx c path) (entries pol) = true ↔
    existsb (uri_starts_with path) (denied_roots_of ctx pol) = true ∨
    ∃ e, e ∈ entries pol ∧ access e = Deny ∧ glob_denies ctx c path e = true).
  { rewrite denied_roots_spec, existsb_exists. unfold entry_denies.
    setoid_rewrite <- list_elem_of_In. setoid_rewrite andb_true_iff. setoid_rewrite orb_true_iff.
    setoid_rewrite bool_decide_eq_true. naive_solver. }
  rewrite glob_denies_spec in Hspec. apply eq_true_iff_eq. rewrite orb_true_iff, Hspec.
  unfold matches_prepared_read_deny. rewrite Hc.
  destruct (deny_read_globs ctx pol) as [ps|err].
  - destruct (compile_fail_closed c ps) as (ms & inv & -> & Hinv & Hms). simpl.
    destruct (comparable_path path ctx c); simpl; [|by split; [left|]]. destruct inv.
    + split; [|done]. intros _. right; right; left. by apply Hinv.
    + rewrite orb_true_iff, Hms. split; [tauto|]. intros [?|[?|[?|?]]]; [done|by left| |by right].
      exfalso. by assert (false = true) by by apply Hinv.
  - simpl. destruct (comparable_path path ctx c); simpl; naive_solver.
Qed.

(** What the runtime read-deny matcher of a policy denies. A policy without denials has
    no matcher. Otherwise a read is denied exactly when the working directory has no path
    convention, when the path cannot be compared with it, or when some denied entry denies
    the path: one of its roots contains it, or its glob matches it or cannot be resolved or
    compiled. *)
Theorem read_denied_exact ctx pol path :
  read_denied pol ctx path = true ↔
  (∃ e, e ∈ entries pol ∧ access e = Deny) ∧
  match infer_path_convention (cwd ctx) with
  | None => True
  | Some c => comparable_path path ctx c = false ∨ ∃ e, e ∈ entries pol ∧ entry_denies ctx c path e = true
  end.
Proof.
  assert (Hany : existsb (λ e, bool_decide (access e = Deny)) (entries pol) = true ↔
    ∃ e, e ∈ entries pol ∧ access e = Deny).
  { rewrite existsb_exists. setoid_rewrite <- list_elem_of_In. by setoid_rewrite bool_decide_eq_true. }
  destruct (infer_path_convention (cwd ctx)) as [c|] eqn:Hc.
  - rewrite (read_denied_spec ctx pol path c), andb_true_iff, orb_true_iff, negb_true_iff, Hany by done.
    rewrite existsb_exists. by setoid_rewrite <- list_elem_of_In.
  - unfold read_denied, from_context, prepare_deny_read_matcher, matches_prepared_read_deny.
    rewrite Hc, <- Hany. destruct (existsb _ _); [|by split; [|intros []]]. by split.
Qed.

(** ** Preserving denials *)

Lemma push_new_incl es e x : x ∈ es → x ∈ push_new es e.
Proof. unfold push_new. destruct (contains_entry es e); [done|]. rewrite elem_of_app. auto. Qed.

Lemma push_all_incl l es x : x ∈ es → x ∈ foldl push_new es l.
Proof. revert es. induction l as [|e l IH]; [done|]. intros es Hx. by apply IH, push_new_incl. Qed.

Lemma entry_eqb_refl e : entry_eqb e e = true.
Proof.
  unfold entry_eqb. rewrite !bool_decide_true by done. rewrite !andb_true_r.
  unfold fs_path_eqb. destruct (entry_path e); [apply uri_eqb_refl|by apply bool_decide_true..].
Qed.

(** Every entry of the list is in the result, up to the equality of entries. *)
Lemma push_all_contains l es e : e ∈ l → ∃ e', e' ∈ foldl push_new es l ∧ entry_eqb e' e = true.
Proof.
  revert es. induction l as [|x l IH]; intros es; [set_solver|].
  rewrite elem_of_cons. intros [->|?]; [|by apply IH]. simpl.
  assert (Hx : ∃ e', e' ∈ push_new es x ∧ entry_eqb e' x = true).
  { unfold push_new. destruct (contains_entry es x) eqn:E.
    - apply existsb_exists in E as (e' & Hin%list_elem_of_In & ?). eauto.
    - exists x. split; [rewrite elem_of_app; set_solver|apply entry_eqb_refl]. }
  destruct Hx as (e' & Hin & ?). exists e'. split; [by apply push_all_incl|done].
Qed.

(** Equal entries deny the same paths of a POSIX executor. *)
Lemma entry_denies_eqb ctx path e e' :
  infer_path_convention (cwd ctx) = Some Posix → entry_eqb e' e = true →
  access e' = access e ∧ entry_denies ctx Posix path e' = entry_denies ctx Posix path e.
Proof.
  unfold entry_eqb. rewrite !andb_true_iff, !bool_decide_eq_true. intros Hc [[Hp Ha] _]. split; [done|].
  unfold entry_denies, root_denies, glob_denies, resolved_entry, deny_read_glob. rewrite Ha, Hc.
  destruct (entry_path e') as [p'|g'|v'], (entry_path e) as [p|g|v]; try done; simpl in Hp.
  2,3: by apply bool_decide_eq_true in Hp as ->.
  destruct (decide (infer_path_convention p' = Some Posix)) as [Hp'|Hp'].
  - rewrite posix_eqb in Hp by done. apply bool_decide_eq_true in Hp. by destruct p', p; simpl in Hp; subst.
  - destruct (decide (infer_path_convention p = Some Posix)) as [Hq|Hq].
    { rewrite uri_eqb_sym, posix_eqb in Hp by done. apply bool_decide_eq_true in Hp.
      by destruct p', p; simpl in Hp; subst. }
    cbn [entry_roots]. unfold filter, list_filter.
    by rewrite !decide_False by (rewrite bool_decide_spec; congruence).
Qed.

Lemma deny_entries_elem pol e : e ∈ deny_entries pol ↔ e ∈ entries pol ∧ access e = Deny.
Proof. unfold deny_entries. rewrite list_elem_of_filter, bool_decide_spec. naive_solver. Qed.

(** The policy with its denials restored holds every denied entry of the other one. *)
Lemma preserve_contains existing pol e :
  kind pol ≠ ExternalSandbox → e ∈ entries existing → access e = Deny →
  ∃ e', e' ∈ entries (preserve_deny_read_restrictions_from existing pol) ∧ entry_eqb e' e = true.
Proof.
  intros Hk He Ha. unfold preserve_deny_read_restrictions_from.
  assert (Hany : existsb (λ e, bool_decide (access e = Deny)) (entries existing) = true).
  { apply existsb_exists. exists e. split; [by apply list_elem_of_In|by apply bool_decide_eq_true]. }
  rewrite Hany, andb_true_r.
  set (pol0 := if bool_decide (kind pol = Unrestricted) then _ else pol).
  assert (Hr : is_restricted pol0 = true).
  { unfold pol0, is_restricted. apply bool_decide_eq_true. case_bool_decide; [done|]. by destruct (kind pol). }
  rewrite Hr. simpl. apply push_all_contains, deny_entries_elem. done.
Qed.

(** C33: Replacing the allow side of a policy keeps its read denials: on a POSIX executor,
    every read that the matcher of the existing policy denies is denied by the matcher of
    the new policy after [preserve_deny_read_restrictions_from], unless the new policy
    leaves enforcement to an external sandbox. *)
Theorem preserved_denials_still_deny existing pol ctx path :
  infer_path_convention (cwd ctx) = Some Posix → kind pol ≠ ExternalSandbox →
  read_denied existing ctx path = true →
  read_denied (preserve_deny_read_restrictions_from existing pol) ctx path = true.
Proof.
  intros Hc Hk. rewrite !(read_denied_spec ctx _ path Posix) by done. rewrite !andb_true_iff, !orb_true_iff.
  rewrite !existsb_exists. intros [(d & Hd & Hda) Hor]. apply list_elem_of_In in Hd.
  apply bool_decide_eq_true in Hda. split.
  - destruct (preserve_contains existing pol d Hk Hd Hda) as (d' & Hin & He).
    exists d'. split; [by apply list_elem_of_In|]. apply bool_decide_eq_true.
    destruct (entry_denies_eqb ctx path d d' Hc He) as [-> _]. done.
  - destruct Hor as [?|(e & He & Hden)]; [by left|right]. apply list_elem_of_In in He.
    assert (Ha : access e = Deny).
    { unfold entry_denies in Hden. apply andb_true_iff in Hden as [Hx _]. by apply bool_decide_eq_true in Hx. }
    destruct (preserve_contains existing pol e Hk He Ha) as (e' & Hin & Heq).
    exists e'. split; [by apply list_elem_of_In|].
    destruct (entry_denies_eqb ctx path e e' Hc Heq) as [_ ->]. done.
Qed.
End DenyFacts.

(** A glob library whose patterns match themselves only. *)
#[local] Instance literal_globs : GlobLib := {|
  glob_build := λ pattern _ _, Ok (λ cand, bool_decide (cand = utf8 pattern));
|}.

Lemma preserved_denials_still_deny_witness :
  read_denied (preserve_deny_read_restrictions_from denied_src unrestricted) (workspace_ctx [])
    (uri "file:///ws/secret/key") = true.
Proof.
  apply (preserved_denials_still_deny denied_src unrestricted (workspace_ctx []) (uri "file:///ws/secret/key"));
    [vm_compute; reflexivity|done|vm_compute; reflexivity].
Defined.
