(* ===== verification/HostModel.v ===== *)
(** An executable host for the policies that look at local paths: a POSIX host whose
    absolute paths are lists of names, with a file system of files and directories. *)
From stdpp Require Import base list numbers strings.
From S2P Require Import Prelude RustStr PathConv Utf8Stream UrlLib PathUri PathUriFacts UrlModel LegacyPath Permissions PermissionsRoots.

(** Names resolved lexically against a directory. *)
Definition name_step (acc : list str) (c : str) : list str :=
  if bool_decide (c = []) || bool_decide (c = dot) then acc
  else if bool_decide (c = dotdot) then removelast acc
  else acc ++ [c].
Definition resolve_names (path : str) (base : list str) : list str :=
  foldl name_step (if starts_with path [47%N] then [] else base) (split_char 47 path).

Definition names_uri (names : list str) : PathUri :=
  mkPathUri (mkFileUrl [] (join [47%N] (percent_encode ∘ utf8 <$> names)) eq_refl).

Definition utf8_text (bs : list byte) : option str :=
  match from_utf8 bs with
  | Ok t => Some t
  | Err _ => None
  end.

(** A host with the given directories and files with contents. *)
Definition memory_host (dirs : list (list str)) (files : list (list str * str)) : LocalHost := {|
  AbsPath := list str;
  native := Posix;
  from_abs_path := names_uri;
  to_abs_path := λ p, match posix_segments p with
                      | Some segs => mapM utf8_text segs
                      | None => None
                      end;
  abs_join := λ a s, resolve_names s a;
  resolve_path_against_base := resolve_names;
  abs_parent := λ a, match a with
                     | [] => None
                     | _ => Some (removelast a)
                     end;
  abs_file_name := last;
  fs_is_file := λ a, existsb (λ f, bool_decide (f.1 = a)) files;
  fs_is_dir := λ a, bool_decide (a ∈ dirs);
  fs_exists := λ a, bool_decide (a ∈ dirs) || existsb (λ f, bool_decide (f.1 = a)) files;
  fs_read_to_string := λ a, (λ nf, nf.2.2) <$> list_find (λ f, f.1 = a) files;
|}.

(** A URI of the executable URL library without an encoded null byte is well formed. *)
Definition wf_check (p : PathUri) : bool := negb (contains_char (decoded_path_bytes p) 0).

Lemma wf_check_ok p : wf_check p = true → wf_uri p.
Proof.
  unfold wf_check. rewrite negb_true_iff, contains_char_false. intros H0.
  split; [apply bare_file|]. intros Hx. by exfalso.
Qed.
