(* ===== verification/PathUriSafety.v ===== *)
(** Joining native path text to a POSIX [PathUri]: the segments of the result are those of
    a lexical normalizer that never leaves the root. *)
From stdpp Require Import base list sets numbers strings.
From S2P Require Import Prelude RustStr PathConv Utf8Stream UrlLib PathUri PathUriFacts UrlModel PermissionsSafety HostModel.

(** * The normalizer *)

(** One component of path text applied to the segments so far. *)
Definition norm_step (acc : list (list byte)) (c : str) : list (list byte) :=
  if bool_decide (c = []) || bool_decide (c = dot) then acc
  else if bool_decide (c = dotdot) then removelast acc
  else acc ++ [utf8 c].

(** The segments that [path] names below [base]. *)
Definition normalize_below (base : list (list byte)) (path : str) : list (list byte) :=
  foldl norm_step base (split_char 47 path).

(** A component that looks like a Windows drive. *)
Definition drive_name (s : str) : bool :=
  match s with
  | [d; c] => is_ascii_alphabetic d && (c =? 58)%N
  | _ => false
  end.

Definition plain_char (c : char) : bool :=
  is_scalar c && negb ((c =? 0) || (c =? 9) || (c =? 10) || (c =? 13) || (c =? 124))%N.

(** Text without control characters that the URL parser drops, bars and drive names. *)
Definition plain_path (path : str) : bool :=
  forallb plain_char path && forallb (λ c, negb (drive_name c)) (split_char 47 path).

(** * Encoded and decoded segments *)

Lemma utf8_all_ascii s : Forall (λ b, (b < 128)%N) (utf8 s) → utf8 s = s.
Proof.
  intros Hf. apply utf8_ascii. induction s as [|c s IH]; [done|].
  change (c :: s) with ([c] ++ s) in Hf. rewrite utf8_app, Forall_app in Hf. destruct Hf as [Hc Hs].
  constructor; [|by apply IH]. unfold utf8 in Hc. simpl in Hc. rewrite app_nil_r in Hc.
  unfold encode in Hc. destruct (ltb_case c 128) as [[_ ?]|[E ?]]; [done|]. rewrite E in Hc.
  destruct (ltb_case c 2048) as [[E2 ?]|[E2 ?]]; rewrite E2 in Hc.
  - apply Forall_cons in Hc as [? _]. lia.
  - destruct (ltb_case c 65536) as [[E3 ?]|[E3 ?]]; rewrite E3 in Hc; apply Forall_cons in Hc as [? _]; lia.
Qed.

Lemma ascii_alphabetic_lt d : is_ascii_alphabetic d = true → (d < 128)%N ∧ d ≠ 37%N.
Proof. unfold is_ascii_alphabetic. rewrite orb_true_iff, !andb_true_iff, !N.leb_le. lia. Qed.

Section Join.
Context `{UL : UrlLib} `{!UrlLaws}.
Implicit Types (p q : PathUri) (u : Url) (raw segs : list str) (acc : list (list byte)).

Lemma drive_segment_decodes enc :
  is_windows_drive_uri_segment enc = true →
  ∃ d, decode_binary (utf8 enc) = [d; 58%N] ∧ is_ascii_alphabetic d = true.
Proof.
  destruct enc as [|d [|c [|x [|a [|??]]]]]; try done; simpl; intros Hd; exists d.
  - apply andb_true_iff in Hd as [Hd Hc]. apply N.eqb_eq in Hc as ->. split; [|done].
    apply ascii_alphabetic_lt in Hd as [? ?].
    rewrite utf8_ascii by (repeat constructor; done). apply law_decode_plain.
    rewrite !elem_of_cons, elem_of_nil. naive_solver.
  - rewrite !andb_true_iff, !orb_true_iff, !N.eqb_eq in Hd. destruct Hd as [[[Hd ->] ->] Ha].
    split; [|done]. apply ascii_alphabetic_lt in Hd as [? ?].
    rewrite utf8_ascii by (repeat constructor; [done..|naive_solver lia]). by apply law_decode_colon.
Qed.

Lemma plain_enc_not_drive enc c :
  decode_binary (utf8 enc) = utf8 c → drive_name c = false → is_windows_drive_uri_segment enc = false.
Proof.
  intros E Hd. destruct (is_windows_drive_uri_segment enc) eqn:Hw; [exfalso|done].
  apply drive_segment_decodes in Hw as (d & Hdec & Ha). rewrite E in Hdec.
  rewrite utf8_all_ascii in Hdec; [by subst; simpl in Hd; rewrite Ha in Hd|].
  rewrite Hdec. apply ascii_alphabetic_lt in Ha as [? _]. repeat constructor; done.
Qed.

(** * Paths in normal form *)

(** The segments of a URL in normal form: none is empty, except that the root has one. *)
Definition raw_segs raw : list str :=
  match raw with
  | [] => [[]]
  | _ => raw
  end.

Lemma nonempty_raw raw : Forall (λ s, s ≠ []) raw → nonempty_segments raw = raw.
Proof.
  induction 1 as [|s raw Hs _ IH]; [done|]. unfold nonempty_segments in *. rewrite filter_cons.
  destruct s; [done|]. simpl. by rewrite IH.
Qed.

Lemma nonempty_raw_segs raw : Forall (λ s, s ≠ []) raw → nonempty_segments (raw_segs raw) = raw.
Proof. destruct raw; [done|]. apply nonempty_raw. Qed.

Lemma push_raw enc raw : Forall (λ s, s ≠ []) raw → push_segment enc (raw_segs raw) = raw ++ [enc].
Proof.
  intros Hr. unfold push_segment, raw_segs. destruct raw as [|s raw]; [done|].
  rewrite bool_decide_false; [done|]. intros [= -> _]. by apply Forall_cons in Hr as [? _].
Qed.

Lemma pop_raw x raw : pop_segment (raw_segs (raw ++ [x])) = raw_segs raw.
Proof.
  destruct raw as [|s raw]; [done|].
  change (raw_segs ((s :: raw) ++ [x])) with ((s :: raw) ++ [x]). unfold pop_segment.
  destruct ((s :: raw) ++ [x]) as [|a [|b l]] eqn:E; [done|by destruct raw|].
  rewrite <- E. by rewrite removelast_snoc.
Qed.

(** A URL under construction, the number of its segments and their decoded bytes. *)
Definition in_form u (depth : nat) acc : Prop :=
  ∃ raw, clean_url u (raw_segs raw) ∧ Forall (λ s, s ≠ []) raw ∧ depth = length raw ∧
    acc = (decode_binary ∘ utf8) <$> raw ∧ starts_with_drive_segment raw = false ∧
    Forall slash_free raw.

Lemma in_form_push u depth acc c :
  in_form u depth acc → plain_segment c = true → c ≠ [] → 0%N ∉ c → 47%N ∉ c →
  drive_name c = false → in_form (segments_push c u) (S depth) (acc ++ [utf8 c]).
Proof.
  intros (raw & (Hu & Hh & Hs & Hn) & Hne & -> & -> & Hd & Hf) Hc Hc0 H0 H47 Hdr.
  destruct (law_push u (raw_segs raw) c Hu Hs Hc) as (enc & [Ha Hb] & Hs' & Hdec & Hnil & H47').
  rewrite push_raw in Hs' by done. exists (raw ++ [enc]).
  assert (Hraw : raw_segs (raw ++ [enc]) = raw ++ [enc]) by by destruct raw.
  assert (Hnf : nul_free enc). { unfold nul_free. rewrite Hdec. by rewrite utf8_ascii_elem. }
  assert (Hsf : slash_free enc). { unfold slash_free. rewrite Hdec. by rewrite utf8_ascii_elem. }
  split_and!.
  - rewrite Hraw. split_and!; [by apply Hb|by rewrite Ha|done|]. apply Forall_app. split; [|by constructor].
    destruct raw; [constructor|exact Hn].
  - apply Forall_app. split; [done|]. constructor; [|done]. intros E. apply Hc0. by apply Hnil.
  - rewrite length_app. simpl. lia.
  - rewrite fmap_app. simpl. by rewrite Hdec.
  - unfold starts_with_drive_segment in *. rewrite nonempty_segments_app.
    destruct (nonempty_segments raw); [|done]. simpl. destruct enc as [|e enc]; [done|].
    exact (plain_enc_not_drive (e :: enc) c Hdec Hdr).
  - apply Forall_app. split; [done|]. by constructor.
Qed.

Lemma in_form_pop u depth acc :
  in_form u depth acc → 0 < depth → in_form (segments_pop u) (depth - 1) (removelast acc).
Proof.
  intros (raw & Hc & Hne & -> & -> & Hd & Hf) Hlt.
  destruct (exists_last (l:=raw)) as (raw' & x & ->); [by destruct raw; [simpl in Hlt; lia|]|].
  apply Forall_app in Hne as [Hne _]. apply Forall_app in Hf as [Hf _]. exists raw'. split_and!.
  - rewrite <- (pop_raw x). by apply clean_pop.
  - done.
  - rewrite length_app. simpl. lia.
  - rewrite fmap_app. cbn [fmap list_fmap]. by rewrite removelast_snoc.
  - apply (drive_segment_prefix raw' (raw' ++ [x])); [|done].
    rewrite nonempty_segments_app. by apply prefix_app_r.
  - done.
Qed.

Lemma plain_char_true x :
  plain_char x = true ↔ is_scalar x = true ∧ x ≠ 0%N ∧ x ≠ 9%N ∧ x ≠ 10%N ∧ x ≠ 13%N ∧ x ≠ 124%N.
Proof. unfold plain_char. rewrite andb_true_iff, negb_true_iff, !orb_false_iff, !N.eqb_neq. naive_solver. Qed.

(** A component that a plain path may hold. *)
Definition plain_component (c : str) : bool :=
  forallb plain_char c && negb (contains_char c 47) && negb (drive_name c).

Lemma plain_component_segment c :
  plain_component c = true → c ≠ dot → c ≠ dotdot →
  plain_segment c = true ∧ (0%N ∉ c) ∧ (47%N ∉ c) ∧ drive_name c = false.
Proof.
  unfold plain_component. rewrite !andb_true_iff, !negb_true_iff, contains_char_false.
  intros [[Hall H47] Hdr] Hd Hdd. split_and!; try done.
  - unfold plain_segment. rewrite !bool_decide_false by done. simpl. apply forallb_forall.
    intros x Hx. eapply forallb_forall in Hall; [|done]. apply plain_char_true in Hall.
    rewrite andb_true_iff, negb_true_iff, !orb_false_iff, !N.eqb_neq. naive_solver.
  - intros Hx%list_elem_of_In. eapply forallb_forall in Hall; [|done]. apply plain_char_true in Hall. naive_solver.
Qed.

Lemma in_form_component u depth acc c :
  in_form u depth acc → plain_component c = true →
  in_form (join_component 0 (u, depth) c).1 (join_component 0 (u, depth) c).2 (norm_step acc c).
Proof.
  intros Hf Hc. unfold join_component, norm_step.
  destruct (bool_decide (c = []) || bool_decide (c = dot)) eqn:E1; [done|]. bool_props.
  case_bool_decide as E2; [|by apply in_form_push; destruct (plain_component_segment c) as (?&?&?&?)].
  destruct (0 <? depth) eqn:E3; bool_props; [by apply in_form_pop|]. simpl.
  destruct Hf as (raw & ? & ? & -> & -> & ? & ?). destruct raw; [|simpl in E3; lia]. by exists [].
Qed.

Lemma in_form_components cs u depth acc :
  in_form u depth acc → Forall (λ c, plain_component c = true) cs →
  let st := foldl (join_component 0) (u, depth) cs in
  in_form st.1 st.2 (foldl norm_step acc cs).
Proof.
  intros Hf Hcs. revert u depth acc Hf. induction Hcs as [|c cs Hc _ IH]; intros u depth acc Hf; [done|].
  cbn [foldl]. pose proof (in_form_component u depth acc c Hf Hc) as Hst.
  destruct (join_component 0 (u, depth) c) as [u' d']. by apply IH.
Qed.

Lemma plain_path_components path :
  plain_path path = true → Forall (λ c, plain_component c = true) (split_char 47 path).
Proof.
  unfold plain_path. rewrite andb_true_iff. intros [Hc Hd]. apply Forall_forall. intros c Hin.
  pose proof (split_char_Forall 47 path) as H47. rewrite Forall_forall in H47.
  unfold plain_component. rewrite !andb_true_iff, negb_true_iff, contains_char_false. split_and!.
  - apply forallb_forall. intros x Hx. eapply forallb_forall in Hc; [done|].
    rewrite <- (join_split_char 47 path). apply list_elem_of_In in Hx. apply list_elem_of_In.
    clear -Hin Hx. revert Hin. generalize (split_char 47 path). intros l.
    induction l as [|s l IH]; [set_solver|]. intros Hin. destruct l as [|s' l]; [set_solver|].
    simpl. rewrite elem_of_app. set_solver.
  - by apply H47.
  - eapply forallb_forall in Hd; [done|]. by apply list_elem_of_In.
Qed.

(** ** Turning the URL into a URI *)

Lemma leading_drive (t : str) :
  match split_char 47 (trim_start_matches (N.eqb 47) t) with
  | drive :: _ => drive
  | [] => []
  end = default [] (head (nonempty_segments (split_char 47 t))).
Proof.
  induction t as [|c t IH]; [done|]. cbn [trim_start_matches split_char].
  rewrite (N.eqb_sym c 47). destruct (N.eqb_spec 47 c) as [<-|Hc].
  - rewrite IH. done.
  - cbn [split_char]. destruct (N.eqb_spec c 47); [congruence|]. by destruct (split_char 47 t).
Qed.

Lemma try_from_clean u segs :
  clean_url u segs → starts_with_drive_segment segs = false → try_from_url u = Ok (mkPathUri u).
Proof.
  intros Hc Hd. pose proof Hc as (Hu & Hh & Hs & Hn). pose proof Hu as (Hsch & Hun & Hpw & Hpo & Hq & Hfr).
  unfold try_from_url, validate_file_url, validate_common_known_uri.
  rewrite Hsch, Hun, Hpw, Hpo, Hq, Hfr. rewrite bool_decide_true by done.
  rewrite !(bool_decide_false (is_Some None)) by by intros []. simpl.
  rewrite (proj2 (contains_char_false _ 0)).
  2: { intros H0. apply (decoded_path_elem u segs 0) in H0 as (s & Hin & H0); [|done..].
       rewrite Forall_forall in Hn. by apply (Hn s). }
  simpl. unfold without_localhost_authority. rewrite Hh, bool_decide_false by done.
  unfold with_normalized_windows_drive_letter. rewrite Hh, bool_decide_false by by intros [].
  do 2 f_equal. destruct (law_segments u Hu) as (p & Hp & Hs'). simplify_eq.
  destruct (trim_start_matches _ (url_path u)) as [|d tail] eqn:Et; [done|].
  pose proof (leading_drive (url_path u)) as Hl. rewrite Et in Hl.
  destruct (split_char 47 (d :: tail)) as [|drive l]; [done|]. rewrite Hl, Hp.
  change (split_char 47 (47%N :: p)) with ([] :: split_char 47 p).
  change (nonempty_segments ([] :: ?l)) with (nonempty_segments l).
  unfold starts_with_drive_segment in Hd. by destruct (nonempty_segments _); simpl in *; rewrite ?Hd.
Qed.

Lemma in_form_uri u depth acc :
  in_form u depth acc →
  try_from_url u = Ok (mkPathUri u) ∧ wf_uri (mkPathUri u) ∧ posix_segments (mkPathUri u) = Some acc.
Proof.
  intros (raw & Hc & Hne & _ & -> & Hd & Hf).
  assert (Hd' : starts_with_drive_segment (raw_segs raw) = false)
    by (unfold starts_with_drive_segment in *; rewrite nonempty_raw_segs by done; by rewrite nonempty_raw in Hd).
  split_and!; [by eapply try_from_clean|by eapply clean_wf|].
  rewrite (clean_posix_segments u (raw_segs raw)); rewrite ?nonempty_raw_segs by done; done.
Qed.

(** ** Relative text *)

(** The path of the URI has no empty segment, apart from a trailing separator. *)
Definition canonical_uri p : bool :=
  match url_path_segments (url_of p) with
  | Some segs => bool_decide (segs = [[]]) || forallb (λ s, negb (is_empty s)) (pop_empty_segment segs)
  | None => false
  end.

Lemma canonical_in_form p sp :
  wf_uri p → posix_segments p = Some sp → canonical_uri p = true →
  in_form (segments_pop_if_empty (url_of p)) (length sp) sp ∧
  length (nonempty_segments (default [] (url_path_segments (url_of p)))) = length sp.
Proof.
  intros Hwf Hp Hcan. destruct (posix_clean p sp Hwf Hp) as (segs & Hc & Hd & Hf & ->).
  pose proof (clean_pop_if_empty _ _ Hc) as Hc'. rewrite length_fmap.
  pose proof Hc as (_ & _ & Hs & _). unfold canonical_uri in Hcan. rewrite Hs in *. split; [|done].
  rewrite orb_true_iff, bool_decide_eq_true in Hcan.
  exists (nonempty_segments segs).
  assert (Hne : Forall (λ s, s ≠ []) (nonempty_segments segs)).
  { apply Forall_forall. intros s Hin. unfold nonempty_segments in Hin.
    apply list_elem_of_filter in Hin as [Hx _]. by intros ->. }
  split_and!; try done; [|unfold starts_with_drive_segment in *; by rewrite nonempty_raw].
  replace (raw_segs (nonempty_segments segs)) with (pop_empty_segment segs); [done|].
  destruct Hcan as [->|Hall]; [done|]. rewrite <- (pop_empty_nonempty segs).
  rewrite nonempty_raw.
  - destruct (pop_empty_segment segs) eqn:E; [exfalso|done].
    destruct (bare_path _ (proj1 Hc)) as (segs' & Hs' & _ & Hn & _). simplify_eq.
    destruct segs as [|x [|y segs]]; [done..|]. unfold pop_empty_segment in E.
    case_bool_decide; [|done]. by destruct segs.
  - apply Forall_forall. intros s Hin ->. apply list_elem_of_In in Hin.
    by eapply (forallb_forall (λ s : str, negb (is_empty s))) in Hall; [|done].
Qed.

(** Relative text names the segments that the normalizer finds below the base. *)
Lemma join_posix_relative p sp path :
  wf_uri p → posix_segments p = Some sp → canonical_uri p = true →
  plain_path path = true → starts_with path [47%N] = false →
  ∃ q, uri_join p path = Ok q ∧ wf_uri q ∧ posix_segments q = Some (normalize_below sp path).
Proof.
  intros Hwf Hp Hcan Hpath Hrel. unfold uri_join.
  assert (H0 : contains_char path 0 = false).
  { apply contains_char_false. unfold plain_path in Hpath. apply andb_true_iff in Hpath as [Hall _].
    intros Hx%list_elem_of_In. eapply forallb_forall in Hall; [|done].
    apply plain_char_true in Hall. naive_solver. }
  rewrite H0. destruct path as [|c path]; [exists p; naive_solver|]. cbn [is_empty].
  pose proof (posix_segments_inv p sp Hp) as (-> & Hop & _ & _).
  unfold from_absolute_native_path, parse_posix_path.
  rewrite (proj2 (strip_prefix_None _ _)); [|intros Hx%starts_with_true; congruence].
  rewrite (bool_decide_false (Posix = Windows)) by done. unfold join_relative.
  rewrite Hop, (bool_decide_false (is_Some None)) by by intros [].
  rewrite (bool_decide_false (Posix = Windows)) by done. cbn [andb anchor_depth].
  destruct (canonical_in_form p sp Hwf Hp Hcan) as [Hform ->].
  pose proof (in_form_components (split_char 47 (c :: path)) _ _ _ Hform) as Hst.
  specialize (Hst (plain_path_components _ Hpath)). cbv zeta in Hst.
  destruct (in_form_uri _ _ _ Hst) as (-> & ? & ?). eauto.
Qed.

(** ** Absolute text *)

Lemma normalize_segments_spec cs acc tr :
  Forall (λ c, plain_component c = true) cs →
  Forall (λ c, plain_component c = true ∧ c ≠ [] ∧ c ≠ dot ∧ c ≠ dotdot) acc →
  ∃ acc' tr', normalize_segments 0 (length acc) acc tr cs = (acc', length acc', tr') ∧
    Forall (λ c, plain_component c = true ∧ c ≠ [] ∧ c ≠ dot ∧ c ≠ dotdot) acc' ∧
    utf8 <$> acc' = foldl norm_step (utf8 <$> acc) cs.
Proof.
  intros Hcs. revert acc tr. induction Hcs as [|c cs Hc _ IH]; intros acc tr Hacc; [eauto|].
  cbn [normalize_segments foldl]. unfold norm_step at 2.
  destruct (decide (c = [])) as [->|E1]; [by apply IH|].
  rewrite (bool_decide_false (c = [])) by done.
  destruct (decide (c = dot)) as [->|E2]; [by apply IH|].
  rewrite (bool_decide_false (c = dot)) by done. cbn [orb].
  destruct (decide (c = dotdot)) as [->|E3].
  - rewrite bool_decide_true by done. destruct acc as [|x acc _] using rev_ind; [by apply IH|].
    rewrite length_app. simpl (_ + length [x]).
    destruct (Nat.ltb_spec 0 (length acc + 1)); [|lia]. rewrite removelast_snoc.
    rewrite fmap_app. cbn [fmap list_fmap]. rewrite removelast_snoc.
    replace (length acc + 1 - 1) with (length acc) by lia.
    apply IH. by apply Forall_app in Hacc as [? _].
  - rewrite bool_decide_false by done. replace (S (length acc)) with (length (acc ++ [c]))
      by (rewrite length_app; simpl; lia).
    destruct (IH (acc ++ [c]) false) as (acc' & tr' & ? & ? & E).
    + apply Forall_app. split; [done|]. by constructor.
    + exists acc', tr'. rewrite fmap_app in E. done.
Qed.

Lemma in_form_pushes cs u depth acc :
  in_form u depth acc →
  Forall (λ c, plain_component c = true ∧ c ≠ [] ∧ c ≠ dot ∧ c ≠ dotdot) cs →
  in_form (foldl (λ u s, segments_push s u) u cs) (depth + length cs) (acc ++ (utf8 <$> cs)).
Proof.
  intros Hf Hcs. revert u depth acc Hf.
  induction Hcs as [|c cs (Hc & Hne & Hd & Hdd) _ IH]; intros u depth acc Hf; simpl.
  - by rewrite Nat.add_0_r, app_nil_r.
  - replace (depth + S (length cs)) with (S depth + length cs) by lia.
    rewrite (cons_middle (utf8 c)), app_assoc. apply IH.
    destruct (plain_component_segment c) as (?&?&?&?); [done..|]. by apply in_form_push.
Qed.

(** A trailing separator leaves an empty last segment. *)
Lemma trailing_push u depth acc :
  in_form u depth acc →
  ∃ segs, clean_url (segments_push [] u) segs ∧ starts_with_drive_segment segs = false ∧
    Forall slash_free (nonempty_segments segs) ∧
    acc = (decode_binary ∘ utf8) <$> nonempty_segments segs.
Proof.
  intros (raw & (Hu & Hh & Hs & Hn) & Hne & _ & -> & Hd & Hf).
  destruct (law_push u (raw_segs raw) [] Hu Hs) as (enc & [Ha Hb] & Hs' & Hdec & Hnil & H47'); [done|].
  assert (enc = []) as -> by by apply Hnil. rewrite push_raw in Hs' by done.
  assert (Hns : nonempty_segments (raw ++ [[]]) = raw).
  { rewrite nonempty_segments_app, nonempty_raw by done. simpl. by rewrite app_nil_r. }
  exists (raw ++ [[]]). unfold starts_with_drive_segment in *. rewrite Hns.
  rewrite nonempty_raw in Hd by done. split_and!; try done.
  split_and!; [by apply Hb|by rewrite Ha|done|]. apply Forall_app. split.
  - destruct raw; [constructor|exact Hn].
  - constructor; [apply nul_free_nil|done].
Qed.

Lemma clear_in_form : ∃ u, url_parse (lit "file:///") = Ok u ∧ in_form (segments_clear u) 0 [].
Proof.
  destruct law_root as (u & Hp & Hu & Hh & _). exists u. split; [done|].
  destruct (law_clear u) as [[Ha Hb] Hs]. exists []. split_and!; try done.
  split_and!; [by apply Hb|by rewrite Ha|by apply Hs|]. constructor; [apply nul_free_nil|done].
Qed.

(** Absolute text replaces the base: the normalizer starts from the root. *)
Lemma join_posix_absolute p path :
  infer_path_convention p = Some Posix → plain_path (47%N :: path) = true →
  ∃ q, uri_join p (47%N :: path) = Ok q ∧ wf_uri q ∧ posix_segments q = Some (normalize_below [] path).
Proof.
  intros Hcv Hpath. unfold uri_join.
  assert (H0 : (0%N ∉ path) ∧ contains_char (47%N :: path) 0 = false).
  { rewrite contains_char_false. unfold plain_path in Hpath. apply andb_true_iff in Hpath as [Hall _].
    split; intros Hx%list_elem_of_In; (eapply forallb_forall in Hall; [|first [exact Hx|by right]]);
      apply plain_char_true in Hall; naive_solver. }
  destruct H0 as [H0 ->]. cbn [is_empty]. rewrite Hcv.
  unfold from_absolute_native_path, parse_posix_path.
  change (strip_prefix (47%N :: path) [47%N]) with (Some path). cbv iota beta.
  rewrite (proj2 (contains_char_false path 0)) by done.
  apply plain_path_components in Hpath. change (split_char 47 (47%N :: path)) with ([] :: split_char 47 path) in Hpath.
  apply Forall_cons in Hpath as [_ Hcs]. unfold path_uri_from_segments.
  destruct clear_in_form as (u & -> & Hform). cbv beta iota zeta.
  destruct (normalize_segments_spec (split_char 47 path) [] false) as (acc & tr & E & Hacc & Hnorm); [done..|].
  cbn [length anchor_depth] in *. rewrite E. cbn [orb andb]. rewrite (bool_decide_false (Posix = Windows)) by done.
  cbn [andb]. rewrite orb_false_r.
  pose proof (in_form_pushes acc _ _ _ Hform Hacc) as Hf. rewrite Hnorm in Hf. simpl in Hf.
  destruct tr.
  - destruct (trailing_push _ _ _ Hf) as (segs & Hc & Hd & Hsf & Hn). rewrite foldl_app. simpl.
    rewrite (try_from_clean _ segs) by done. rewrite (clean_convention _ segs), Hd by done.
    cbn [url_of]. pose proof Hc as (_ & -> & _).
    rewrite bool_decide_false, bool_decide_true by done. simpl.
    eexists. split; [done|]. split; [by eapply clean_wf|].
    rewrite (clean_posix_segments _ segs) by done. by rewrite <- Hn.
  - destruct (in_form_uri _ _ _ Hf) as (-> & Hwf & Hps).
    pose proof (posix_segments_inv _ _ Hps) as (-> & _ & -> & _).
    rewrite bool_decide_false, bool_decide_true by done. simpl. eauto.
Qed.
End Join.

(** The claims about [PathUri]: equality and hashing, containment on POSIX paths, and joins. *)

Section Claims.
Context `{UL : UrlLib} `{!UrlLaws}.
Implicit Types (p q r base : PathUri).

(** Equality of path URIs is an equivalence relation that agrees with hashing: two URIs
    are equal exactly when they feed the same data to a hasher. *)
Theorem uri_equality_agrees_with_hash p q r :
  uri_eqb p p = true ∧ uri_eqb p q = uri_eqb q p ∧
  (uri_eqb p q && uri_eqb q r = true → uri_eqb p r = true) ∧
  (uri_eqb p q = true ↔ hash_input p = hash_input q).
Proof.
  split_and!; [apply uri_eqb_refl|apply uri_eqb_sym| |apply uri_eqb_hash_input].
  rewrite andb_true_iff, !uri_eqb_hash_input. by intros [-> ->].
Qed.

(** Containment of unambiguous POSIX paths is the prefix order on decoded segments, the
    lexical depth is the number of segments, and of two roots that contain the same path
    the shallower one contains the deeper one. *)
Theorem posix_containment_is_prefix p q sp sq :
  posix_segments p = Some sp → posix_segments q = Some sq →
  uri_starts_with p q = bool_decide (sq `prefix_of` sp) ∧ lexical_depth p = Some (length sp) ∧
  (∀ base sb, posix_segments base = Some sb → uri_starts_with base p = true → uri_starts_with base q = true →
     length sp ≤ length sq → uri_starts_with q p = true).
Proof.
  intros Hp Hq. split_and!.
  - by apply posix_starts_with.
  - rewrite posix_segments_depth, Hp; [done|]. by apply posix_segments_inv in Hp as (? & _).
  - intros base sb Hb H1 H2 Hle. rewrite (posix_starts_with base p sb sp) in H1 by done.
    rewrite (posix_starts_with base q sb sq) in H2 by done. bool_props.
    rewrite (posix_starts_with q p sq sp) by done. apply bool_decide_eq_true.
    destruct (prefix_weak_total sp sq sb); [done..|]. by rewrite (prefix_length_eq sq sp).
Qed.

(** Joining plain text to a POSIX path resolves it lexically. Relative text is applied to
    the segments of the base and absolute text to the root: empty and [.] components are
    dropped, [..] removes one segment and never leaves the root, and any other component
    is appended; the result is again an unambiguous POSIX path. *)
Theorem join_resolves_lexically p sp path :
  wf_uri p → posix_segments p = Some sp → canonical_uri p = true → plain_path path = true →
  ∃ q, uri_join p path = Ok q ∧ wf_uri q ∧
    posix_segments q = Some (normalize_below (if starts_with path [47%N] then [] else sp) path).
Proof.
  intros Hwf Hp Hcan Hpath. destruct (starts_with path [47%N]) eqn:E; [|by apply join_posix_relative].
  apply starts_with_true in E as [rest ->].
  destruct (join_posix_absolute p rest) as (q & Hq & Hw & Hs); [by apply posix_segments_inv in Hp as (? & _)|done|].
  exists q. done.
Qed.
End Claims.

Lemma posix_containment_is_prefix_witness :
  uri_starts_with (uri "file:///a/b%20c/d") (uri "file:///a/%62 c") =
    bool_decide ([lit "a"; lit "b c"] `prefix_of` [lit "a"; lit "b c"; lit "d"]) ∧
  lexical_depth (uri "file:///a/b%20c/d") = Some 3 ∧
  (∀ base sb, posix_segments base = Some sb → uri_starts_with base (uri "file:///a/b%20c/d") = true →
     uri_starts_with base (uri "file:///a/%62 c") = true → 3 ≤ 2 →
     uri_starts_with (uri "file:///a/%62 c") (uri "file:///a/b%20c/d") = true).
Proof.
  apply (posix_containment_is_prefix (uri "file:///a/b%20c/d") (uri "file:///a/%62 c")
           [lit "a"; lit "b c"; lit "d"] [lit "a"; lit "b c"]); vm_compute; reflexivity.
Defined.

Lemma join_resolves_lexically_witness :
  ∃ q, uri_join (uri "file:///ws/src") (lit "../docs/./a b") = Ok q ∧ wf_uri q ∧
    posix_segments q = Some (normalize_below [lit "ws"; lit "src"] (lit "../docs/./a b")).
Proof.
  apply (join_resolves_lexically (uri "file:///ws/src") [lit "ws"; lit "src"] (lit "../docs/./a b"));
    [apply wf_check_ok; vm_compute; reflexivity|vm_compute; reflexivity..].
Defined.

(** Equal Windows paths are not interchangeable in containment: two spellings of a path
    with a byte that is not UTF-8 are equal and hash alike, and a root contains one of them
    but not the other, since equality compares decoded bytes and containment falls back to
    the spelling of the segments. *)
Theorem equal_paths_contain_differently :
  let p := uri "file:///C:/%E9a/x" in
  let q := uri "file:///C:/%E9%61/x" in
  let base := uri "file:///C:/%E9a" in
  uri_eqb p q = true ∧ uri_starts_with p base = true ∧ uri_starts_with q base = false.
Proof. split_and!; vm_compute; reflexivity. Qed.
