(* ===== verification/PermissionsRootsFacts.v ===== *)
(** Replacing workspace-root symbols by concrete roots: it keeps the access of every path as
    long as the symbols stay below their roots, and what it does otherwise. *)
From stdpp Require Import base list sets numbers strings.
From S2P Require Import Prelude RustStr PathConv Utf8Stream UrlLib PathUri PathUriFacts UrlModel LegacyPath Permissions PermissionsDeny PermissionsRoots PermissionsSafety PermissionsDenyFacts HostModel.

Section Materialize.
Context `{UL : UrlLib}.
Implicit Types (path root : PathUri) (e : FileSystemSandboxEntry) (pol : FileSystemSandboxPolicy)
  (ctx : FileSystemSandboxPolicyContext) (roots : list PathUri).

(** Every workspace-root entry resolves below each of the roots. *)
Definition in_scope roots e : bool :=
  match workspace_subpath (entry_path e) with
  | None => true
  | Some (subpath, is_glob) => forallb (λ root, bool_decide (is_Some (materialized_path subpath is_glob root))) roots
  end.

Lemma scoped_join root subpath p :
  resolve_scoped_workspace_path root subpath = Some p → uri_join root subpath = Ok p ∧ uri_starts_with p root = true.
Proof.
  unfold resolve_scoped_workspace_path. destruct (infer_path_convention root); [|done].
  destruct (_ || _); [done|]. destruct (uri_join root subpath) as [q|]; [|done].
  destruct (uri_starts_with q root) eqn:E; [|done]. by intros [= ->].
Qed.

Lemma resolved_entry_eq ctx p a b : resolved_entry ctx (mkEntry p a b) = resolved_entry ctx (mkEntry p a None).
Proof. done. Qed.

(** The materialized entries of one symbol resolve to what the symbol resolves to. *)
Lemma materialize_resolved ctx e subpath is_glob roots es :
  workspace_roots ctx = roots → workspace_subpath (entry_path e) = Some (subpath, is_glob) →
  in_scope roots e = true → es = omap (materialize_at e subpath is_glob) roots →
  es ≫= resolved_entry ctx = resolved_entry ctx e.
Proof.
  intros Hr Hw Hs ->. unfold in_scope in Hs. rewrite Hw in Hs.
  destruct (entry_path e) as [p|g|v] eqn:Ep; [done| |].
  - cbn [workspace_subpath] in Hw. destruct (strip_prefix g PROJECT_ROOTS_GLOB_PATTERN_PREFIX) as [s|]; simplify_eq. unfold resolved_entry at 2. rewrite Ep. simpl.
    revert Hs. generalize (workspace_roots ctx) as l. intros l. induction l as [|root l IH]; [done|]. simpl.
    intros [Hp Hs]%andb_true_iff. apply bool_decide_eq_true in Hp as [p Hp].
    unfold materialize_at at 1. rewrite Hp. simpl. by apply IH.
  - destruct v as [| |sub| | |]; try done. simpl in Hw. simplify_eq.
    unfold resolved_entry at 2. rewrite Ep. simpl.
    assert (Hgen : ∀ l, forallb (λ root, bool_decide (is_Some (materialized_path subpath false root))) l = true →
      omap (materialize_at e subpath false) l ≫= resolved_entry ctx =
      (λ p, (p, access e)) <$>
        filter (λ p, bool_decide (infer_path_convention p = infer_path_convention (cwd ctx)))
          (root ← l; match subpath with Some subpath => ok_uris (uri_join root subpath) | None => [root] end)).
    { induction l as [|root l IH]; [done|]. cbn [forallb]. intros [Hp Hl]%andb_true_iff.
      apply bool_decide_eq_true in Hp as [p Hp].
      change (omap ?f (root :: l)) with (match f root with Some b => b :: omap f l | None => omap f l end).
      unfold materialize_at at 1. rewrite Hp, !bind_cons, filter_app, fmap_app, <- IH by done.
      f_equal. unfold resolved_entry. simpl. do 2 f_equal.
      unfold materialized_path in Hp. simpl in Hp. destruct subpath as [sub|]; [|by simplify_eq].
      apply scoped_join in Hp as [-> _]. done. }
    by apply Hgen.
Qed.

Lemma materialize_entries_resolved ctx roots es es' :
  workspace_roots ctx = roots → forallb (in_scope roots) es = true →
  materialize_entries roots es = Some es' → es' ≫= resolved_entry ctx = es ≫= resolved_entry ctx.
Proof.
  intros Hr. revert es'. induction es as [|e es IH]; intros es' Hs Hm; [by simplify_eq/=|].
  cbn [forallb materialize_entries] in *. rewrite bind_cons.
  apply andb_true_iff in Hs as [He Hs]. destruct (workspace_subpath (entry_path e)) as [[sub g]|] eqn:Hw.
  - destruct (home_relative_denial roots e sub); [done|].
    apply fmap_Some in Hm as (es0 & Hm & ->). rewrite bind_app, (IH es0) by done. f_equal.
    by eapply materialize_resolved.
  - apply fmap_Some in Hm as (es0 & Hm & ->). by rewrite bind_cons, (IH es0).
Qed.

(** Replacing workspace-root symbols by the roots of the executor does not change what a
    policy allows: when every symbolic entry resolves below each root, the materialized
    policy gives every path the same access. *)
Theorem materialize_keeps_access roots pol pol' ctx path :
  workspace_roots ctx = roots → forallb (in_scope roots) (entries pol) = true →
  try_materialize_project_roots_with_path_uris roots pol = Some pol' →
  resolve_access path ctx pol' = resolve_access path ctx pol ∧
  metadata_write_denial path ctx pol' = metadata_write_denial path ctx pol.
Proof.
  intros Hr Hs Hm. apply fmap_Some in Hm as (es & Hm & ->).
  assert (E : resolved_entries ctx (set_entries es pol) = resolved_entries ctx pol)
    by exact (materialize_entries_resolved ctx roots (entries pol) es Hr Hs Hm).
  unfold resolve_access, metadata_write_denial, is_restricted. by rewrite E.
Qed.

(** Without such symbols left, the grants of a materialized policy that came from them lie
    below the roots. *)
Lemma materialize_at_below e subpath is_glob root e' p :
  materialize_at e subpath is_glob root = Some e' → entry_path e' = Path p → uri_starts_with p root = true.
Proof.
  unfold materialize_at. destruct (materialized_path subpath is_glob root) as [q|] eqn:Hq.
  - intros [= <-]. simpl. destruct is_glob; [done|]. intros [= ->].
    unfold materialized_path in Hq. simpl in Hq. destruct subpath as [sub|].
    + by apply scoped_join in Hq as [_ ?].
    + simplify_eq. apply uri_starts_with_refl.
  - destruct (can_write (access e)); [done|]. intros [= <-] [= ->]. apply uri_starts_with_refl.
Qed.
End Materialize.

Definition symbolic_policy : FileSystemSandboxPolicy :=
  restricted [new_entry (Special Root) Read; new_entry (Special (ProjectRoots None)) Write;
              new_entry (Special (ProjectRoots (Some (lit "docs/private")))) Deny].

Definition project_ctx : FileSystemSandboxPolicyContext := workspace_ctx [uri "file:///ws"; uri "file:///lib"].

Lemma materialize_keeps_access_witness :
  ∃ pol', try_materialize_project_roots_with_path_uris (workspace_roots project_ctx) symbolic_policy = Some pol' ∧
    resolve_access (uri "file:///lib/docs/private/a") project_ctx pol' =
      resolve_access (uri "file:///lib/docs/private/a") project_ctx symbolic_policy ∧
    metadata_write_denial (uri "file:///lib/docs/private/a") project_ctx pol' =
      metadata_write_denial (uri "file:///lib/docs/private/a") project_ctx symbolic_policy.
Proof.
  destruct (try_materialize_project_roots_with_path_uris (workspace_roots project_ctx) symbolic_policy)
    as [pol'|] eqn:E.
  - exists pol'. split; [reflexivity|].
    apply (materialize_keeps_access (workspace_roots project_ctx) symbolic_policy pol' project_ctx
             (uri "file:///lib/docs/private/a")); [reflexivity|vm_compute; reflexivity|exact E].
  - exfalso. assert (Hx : bool_decide (is_Some (try_materialize_project_roots_with_path_uris
      (workspace_roots project_ctx) symbolic_policy)) = true) by (vm_compute; reflexivity).
    rewrite E in Hx. apply bool_decide_eq_true in Hx as [? Hx]. discriminate Hx.
Defined.

Definition escaping_denial : FileSystemSandboxPolicy :=
  restricted [new_entry (Special Root) Read; new_entry (Special (ProjectRoots (Some (lit "../secret")))) Deny].

(** A denial that leaves the workspace is lost when the workspace roots are made
    concrete: the policy that denies [:workspace_roots/../secret] denies reading below
    [/secret], and its materialization denies the workspace itself and lets [/secret] be
    read. *)
Theorem escaping_denial_is_lost :
  let ctx := workspace_ctx [uri "file:///ws"] in
  let pol' := materialize_project_roots_with_path_uris [uri "file:///ws"] escaping_denial in
  resolve_access (uri "file:///secret/key") ctx escaping_denial = Deny ∧
  resolve_access (uri "file:///secret/key") ctx pol' = Read ∧
  resolve_access (uri "file:///ws/main.rs") ctx escaping_denial = Read ∧
  resolve_access (uri "file:///ws/main.rs") ctx pol' = Deny.
Proof. split_and!; vm_compute; reflexivity. Qed.

(** Legacy sandbox policies: projecting one to a filesystem policy and back gives it again. *)

Section Legacy.
Context `{UL : UrlLib} `{LH : !LocalHost}.
Implicit Types (es : list FileSystemSandboxEntry) (e : FileSystemSandboxEntry) (roots : list AbsPath).

(** A legacy policy as it comes back: the working directory is not listed as a root, and
    no root is listed twice. *)
Definition normal_legacy (cwd : option AbsPath) (sp : SandboxPolicy) : SandboxPolicy :=
  match sp with
  | WorkspaceWrite roots net ex_tmp ex_slash =>
      WorkspaceWrite (dedup_paths [] (filter (λ r, negb (bool_decide (cwd = Some r))) roots)) net ex_tmp ex_slash
  | _ => sp
  end.

(** ** The defaults only add read entries *)

Definition adds_reads es es' : Prop := ∃ l, es' = es ++ l ∧ Forall (λ e, access e = Read) l.

#[local] Instance adds_reads_preorder : PreOrder adds_reads.
Proof.
  split.
  - intros es. exists []. by rewrite app_nil_r.
  - intros a b c (l & -> & Hl) (l' & -> & Hl'). exists (l ++ l'). rewrite app_assoc. by rewrite Forall_app.
Qed.

Lemma append_default_reads es p : adds_reads es (append_default_read_only_entry_if_no_explicit_rule es p).
Proof.
  unfold append_default_read_only_entry_if_no_explicit_rule. destruct (existsb _ es); [reflexivity|].
  eexists. split; [done|]. by constructor.
Qed.

Lemma foldl_adds_reads {A} (f : list FileSystemSandboxEntry → A → list FileSystemSandboxEntry) l es :
  (∀ es x, adds_reads es (f es x)) → adds_reads es (foldl f es l).
Proof.
  intros Hf. revert es. induction l as [|x l IH]; intros es; [reflexivity|].
  simpl. etrans; [apply Hf|apply IH].
Qed.

Lemma append_default_paths_reads b es r : adds_reads es (append_default_paths b es r).
Proof. apply foldl_adds_reads. intros. apply append_default_reads. Qed.

Lemma legacy_entries roots net ex_tmp ex_slash cwd :
  adds_reads (workspace_grants roots ex_tmp ex_slash)
    (entries (from_legacy_sandbox_policy_for_cwd (WorkspaceWrite roots net ex_tmp ex_slash) cwd)).
Proof.
  cbn [from_legacy_sandbox_policy_for_cwd from_sandbox_policy entries set_entries].
  etrans; [|apply foldl_adds_reads; intros; apply append_default_paths_reads].
  etrans; [|destruct cwd; [apply append_default_paths_reads|reflexivity]].
  unfold workspace_write. cbn [entries restricted].
  etrans; [|apply foldl_adds_reads; intros; apply append_default_paths_reads].
  apply foldl_adds_reads. intros. apply append_default_reads.
Qed.

(** ** The scan *)

Lemma scan_read cwd s e : access e = Read → scan_entry cwd s e = Ok s.
Proof.
  intros Ha. unfold scan_entry. rewrite Ha. destruct (entry_path e) as [| |[| |[sub|]| | |]]; try done.
  by destruct cwd.
Qed.

Lemma scan_app cwd es es' s :
  scan_entries cwd s (es ++ es') = res_bind (λ s, scan_entries cwd s es') (scan_entries cwd s es).
Proof.
  revert s. induction es as [|e es IH]; intros s; [done|]. simpl.
  destruct (scan_entry cwd s e); [apply IH|done].
Qed.

Lemma scan_reads cwd s l : Forall (λ e, access e = Read) l → scan_entries cwd s l = Ok s.
Proof. induction 1 as [|e l Ha _ IH]; [done|]. simpl. by rewrite scan_read. Qed.

Lemma scan_roots cwd roots s :
  (∀ r, r ∈ roots → to_abs_path (from_abs_path r) = Some r) → workspace_root_writable s = true →
  scan_entries cwd s ((λ p, new_entry (Path (from_abs_path p)) Write) <$> roots) =
    Ok (mkScan true (writable_root_paths s ++ filter (λ r, negb (bool_decide (cwd = Some r))) roots)
          (tmpdir_writable s) (slash_tmp_writable s) (unbridgeable_root_write s)).
Proof.
  revert s. induction roots as [|r roots IH]; intros s Hrt Hs.
  - simpl. rewrite app_nil_r, <- Hs. by destruct s.
  - rewrite fmap_cons. cbn [scan_entries]. unfold scan_entry. cbn [entry_path access new_entry].
    rewrite (Hrt r) by set_solver. change (can_write Write) with true. cbn [res_bind ok_or].
    rewrite IH; [|set_solver|unfold scan_root_path; by case_bool_decide].
    unfold scan_root_path. rewrite filter_cons. case_bool_decide; simpl; [done|].
    by rewrite <- app_assoc.
Qed.

Lemma scan_grants cwd roots ex_tmp ex_slash :
  (∀ r, r ∈ roots → to_abs_path (from_abs_path r) = Some r) →
  scan_entries cwd (mkScan false [] false false false) (workspace_grants roots ex_tmp ex_slash) =
    Ok (mkScan true (filter (λ r, negb (bool_decide (cwd = Some r))) roots) (negb ex_tmp) (negb ex_slash) false).
Proof.
  intros Hrt. unfold workspace_grants. rewrite !scan_app.
  remember ((λ p, new_entry (Path (from_abs_path p)) Write) <$> roots) as rs eqn:Hrs.
  destruct ex_tmp, ex_slash; simpl; by rewrite Hrs, scan_roots.
Qed.

(** No default gives write access to the whole disk. *)
Lemma legacy_no_root_write roots net ex_tmp ex_slash cwd c :
  has_full_disk_write_access_for_convention c
    (from_legacy_sandbox_policy_for_cwd (WorkspaceWrite roots net ex_tmp ex_slash) cwd) = false.
Proof.
  unfold has_full_disk_write_access_for_convention. cbn [kind from_legacy_sandbox_policy_for_cwd set_entries].
  destruct c as [c|]; [|done]. apply andb_false_iff. left. unfold has_root_access. apply andb_false_iff. right.
  destruct (legacy_entries roots net ex_tmp ex_slash cwd) as (l & El & Hl).
  cbn [from_legacy_sandbox_policy_for_cwd] in El. rewrite El, existsb_app. apply orb_false_iff. split.
  - unfold workspace_grants. rewrite !existsb_app. clear. destruct ex_slash, ex_tmp; by induction roots.
  - apply not_true_iff_false. intros (e & He & Hx)%existsb_exists. apply andb_true_iff in Hx as [_ Hw].
    rewrite Forall_forall in Hl. apply list_elem_of_In, Hl in He. by rewrite He in Hw.
Qed.

(** A legacy sandbox policy survives the way to a filesystem policy and back: projecting
    it for a working directory and projecting the result back, with the network policy it
    implies, gives the same policy, without a root that is the working directory and
    without repeated roots. The writable roots must be paths that the host can read back
    from a URI. *)
Theorem legacy_policy_round_trip sp cwd :
  match sp with
  | WorkspaceWrite roots _ _ _ => ∀ r, r ∈ roots → to_abs_path (from_abs_path r) = Some r
  | _ => True
  end →
  to_legacy_sandbox_policy (network_from_sandbox_policy sp) cwd (from_legacy_sandbox_policy_for_cwd sp cwd) =
    Ok (normal_legacy cwd sp).
Proof.
  destruct sp as [|net|net|roots net ex_tmp ex_slash]; intros Hrt.
  - done.
  - unfold to_legacy_sandbox_policy. simpl. rewrite andb_false_r. by destruct net.
  - by destruct net.
  - unfold to_legacy_sandbox_policy.
    rewrite legacy_no_root_write.
    change (kind (from_legacy_sandbox_policy_for_cwd (WorkspaceWrite roots net ex_tmp ex_slash) cwd)) with Restricted.
    destruct (legacy_entries roots net ex_tmp ex_slash cwd) as (l & -> & Hl).
    rewrite scan_app, scan_grants by done. cbn [res_bind]. rewrite scan_reads by done. cbn [res_bind].
    unfold normal_legacy. simpl. rewrite !negb_involutive. by destruct net.
Qed.
End Legacy.

Lemma legacy_policy_round_trip_witness :
  let H := memory_host [[lit "ws"; lit ".git"]] [] in
  let sp := WorkspaceWrite [[lit "data"]; [lit "ws"]; [lit "data"]] true false true in
  to_legacy_sandbox_policy (network_from_sandbox_policy sp) (Some [lit "ws"])
    (from_legacy_sandbox_policy_for_cwd sp (Some [lit "ws"])) = Ok (normal_legacy (Some [lit "ws"]) sp).
Proof.
  intros H sp. apply (legacy_policy_round_trip sp (Some [lit "ws"])).
  intros r Hr. apply list_elem_of_In in Hr.
  destruct Hr as [<- | [<- | [<- | []]]]; vm_compute; reflexivity.
Defined.
