(* ===== verification/PermissionsPosix.v ===== *)
(** Policies on a POSIX executor, where roots are lists of decoded segments: full-disk write
    access means what it says, and what the built-in workspace policy allows. *)
From stdpp Require Import base list sets numbers strings.
From S2P Require Import Prelude RustStr PathConv Utf8Stream UrlLib PathUri PathUriFacts UrlModel LegacyPath Permissions PermissionsDeny PermissionsRoots PermissionsSafety PermissionsDenyFacts HostModel PathUriSafety.

Lemma from_utf8_loop_sound fuel bs pos t : from_utf8_loop fuel bs pos = Ok t → utf8 t = bs.
Proof.
  revert bs pos t. induction fuel as [|fuel IH]; intros bs pos t; simpl.
  - destruct bs; [|done]. by intros [= <-].
  - destruct bs as [|b bs]; [by intros [= <-]|].
    destruct (decode (b :: bs)) as [c rest| |] eqn:Ed; [|done..].
    destruct (from_utf8_loop fuel rest _) as [s|] eqn:El; [|done]. simpl. intros [= <-].
    apply decode_sound in Ed as [Ed _]. rewrite Ed. apply IH in El as <-.
    change (c :: s) with ([c] ++ s). rewrite utf8_app. unfold utf8 at 1. simpl. by rewrite app_nil_r.
Qed.

Section Decided.
Context `{UL : UrlLib}.
Implicit Types (path root : PathUri) (pol : FileSystemSandboxPolicy) (ctx : FileSystemSandboxPolicyContext).

Lemma access_rank_inj a b : access_rank a = access_rank b → a = b.
Proof. by destruct a, b. Qed.

Lemma decided_unique ctx pol path a b : decided ctx pol path a → decided ctx pol path b → a = b.
Proof.
  intros (r & d & Hr & Hmax) (r' & d' & Hr' & Hmax'). apply access_rank_inj.
  pose proof (Hmax _ _ _ Hr'). pose proof (Hmax' _ _ _ Hr). lia.
Qed.

Lemma resolve_access_decided path ctx pol a :
  kind pol = Restricted → evaluable path ctx pol = true → decided ctx pol path a →
  resolve_access path ctx pol = a.
Proof.
  intros Hk He Ha. destruct (resolve_access_evaluable path ctx pol Hk He) as [[_ Hd]|[Hno _]].
  - by apply (decided_unique ctx pol path).
  - destruct Ha as (r & d & Hr & _). by apply Hno in Hr.
Qed.

(** The resolved entries of a policy, as segments. *)
Definition entries_are ctx pol (L : list (list (list byte) * FileSystemAccessMode)) : Prop :=
  Forall2 (λ ra sa, posix_segments ra.1 = Some sa.1 ∧ ra.2 = sa.2) (resolved_entries ctx pol) L.

Lemma resolve_by_segments ctx pol path sp sc L s a :
  kind pol = Restricted → posix_segments (cwd ctx) = Some sc → posix_segments path = Some sp →
  entries_are ctx pol L → (s, a) ∈ L → s `prefix_of` sp →
  (∀ s' a', (s', a') ∈ L → s' `prefix_of` sp →
     length s' < length s ∨ (length s' = length s ∧ access_rank a' ≤ access_rank a)) →
  resolve_access path ctx pol = a.
Proof.
  intros Hk Hc Hp HL Hin Hpre Hmax.
  pose proof (posix_segments_inv _ _ Hc) as (Hcc & _). pose proof (posix_segments_inv _ _ Hp) as (Hpc & _).
  assert (Hd : ∀ p q, posix_segments p = Some q → lexical_depth p = Some (length q)).
  { intros p q Hq. rewrite posix_segments_depth; [by rewrite Hq|]. by apply posix_segments_inv in Hq as (? & _). }
  assert (Hfw : ∀ ra, ra ∈ resolved_entries ctx pol → ∃ s, posix_segments ra.1 = Some s ∧ (s, ra.2) ∈ L).
  { intros ra Hra. apply list_elem_of_lookup in Hra as [i Hi].
    destruct (Forall2_lookup_l _ _ _ _ _ HL Hi) as ([q b] & Hi' & Hq & Hb). simpl in *.
    exists q. split; [done|]. rewrite Hb. by eapply list_elem_of_lookup_2. }
  apply resolve_access_decided; [done| |].
  - unfold evaluable, comparable_path. rewrite Hcc, Hpc, (Hd _ _ Hp), (Hd _ _ Hc).
    rewrite !bool_decide_true by eauto. simpl. apply forallb_forall. intros ra Hra%list_elem_of_In.
    destruct (Hfw ra Hra) as (q & Hq & _). rewrite (Hd _ _ Hq), bool_decide_true by eauto. done.
  - apply list_elem_of_lookup in Hin as [i Hi].
    destruct (Forall2_lookup_r _ _ _ _ _ HL Hi) as ([r b] & Hi' & Hr & Hb). simpl in *. subst b.
    exists r, (length s). split.
    + split_and!; [by eapply list_elem_of_lookup_2|by apply Hd|].
      rewrite (posix_starts_with path r sp s) by done. by apply bool_decide_eq_true.
    + intros r' a' d' (Hin' & Hd' & Hs'). destruct (Hfw _ Hin') as (s' & Hr' & HinL). simpl in *.
      rewrite (Hd _ _ Hr') in Hd'. simplify_eq. rewrite (posix_starts_with path r' sp s') in Hs' by done.
      apply bool_decide_eq_true in Hs'. by apply Hmax.
Qed.
End Decided.

(** * The built-in workspace policy *)

Section Workspace.
Context `{UL : UrlLib} `{!UrlLaws} `{LH : !LocalHost}.
Implicit Types (path root : PathUri) (pol : FileSystemSandboxPolicy) (ctx : FileSystemSandboxPolicyContext).

(** A path that lies in one of the metadata directories of a root, as segments. *)
Definition in_metadata (sw sp : list (list byte)) : bool :=
  existsb (λ name, bool_decide ((sw ++ [utf8 name]) `prefix_of` sp)) PROTECTED_METADATA_PATH_NAMES.

Definition slash_tmp : list (list byte) := [utf8 (lit "tmp")].

Definition workspace_entries (w root : PathUri) (tmp : list PathUri) (metas : list PathUri)
    : list (PathUri * FileSystemAccessMode) :=
  (root, Read) :: (w, Write) :: ((λ t, (t, Write)) <$> tmp) ++ ((λ m, (m, Read)) <$> metas).

Lemma file_system_root_posix ctx sc :
  wf_uri (cwd ctx) → posix_segments (cwd ctx) = Some sc →
  ∃ r, file_system_root ctx = Some r ∧ wf_uri r ∧ posix_segments r = Some [].
Proof.
  intros Hwf Hc. destruct (ancestors_posix _ _ Hwf Hc) as (r & Hr & Hwr & Hrs & _).
  exists r. split; [|done]. unfold file_system_root.
  pose proof (posix_segments_inv _ _ Hc) as (Hcc & _). rewrite posix_segments_depth, Hc by done. done.
Qed.

Lemma protected_names name :
  name ∈ PROTECTED_METADATA_PATH_NAMES → name = lit ".git" ∨ name = lit ".agents" ∨ name = lit ".codex".
Proof. unfold PROTECTED_METADATA_PATH_NAMES. rewrite !elem_of_cons, elem_of_nil. naive_solver. Qed.

Lemma join_name w sw name :
  wf_uri w → posix_segments w = Some sw → canonical_uri w = true →
  name ∈ PROTECTED_METADATA_PATH_NAMES →
  ∃ q, uri_join w name = Ok q ∧ posix_segments q = Some (sw ++ [utf8 name]).
Proof.
  intros Hwf Hw Hcan Hn. destruct (join_posix_relative w sw name) as (q & Hq & _ & Hs); try done.
  - by destruct (protected_names name Hn) as [-> | [-> | -> ]].
  - by destruct (protected_names name Hn) as [-> | [-> | -> ]].
  - exists q. split; [done|]. rewrite Hs. f_equal. by destruct (protected_names name Hn) as [-> | [-> | -> ]].
Qed.

Lemma posix_same_convention ctx sc p s :
  posix_segments (cwd ctx) = Some sc → posix_segments p = Some s →
  Is_true (bool_decide (infer_path_convention p = infer_path_convention (cwd ctx))).
Proof.
  intros (Hc & _)%posix_segments_inv (Hp & _)%posix_segments_inv. apply bool_decide_spec. congruence.
Qed.

Lemma workspace_write_list ex_tmp ex_slash :
  entries (workspace_write [] ex_tmp ex_slash) =
    new_entry (Special Root) Read :: new_entry (Special (ProjectRoots None)) Write
    :: (if ex_slash then [] else [new_entry (Special SlashTmp) Write])
    ++ (if ex_tmp then [] else [new_entry (Special Tmpdir) Write])
    ++ [skip_missing_path (Special (ProjectRoots (Some (lit ".git")))) Read;
        skip_missing_path (Special (ProjectRoots (Some (lit ".agents")))) Read;
        skip_missing_path (Special (ProjectRoots (Some (lit ".codex")))) Read].
Proof. by destruct ex_tmp, ex_slash. Qed.

(** The entries of the policy, without temporary directories of the environment. *)
Lemma workspace_write_entries ctx w sw sc ex_tmp ex_slash :
  wf_uri (cwd ctx) → posix_segments (cwd ctx) = Some sc →
  workspace_roots ctx = [w] → wf_uri w → posix_segments w = Some sw → canonical_uri w = true →
  default [] (temporary_directories ctx) = [] →
  entries_are ctx (workspace_write [] ex_tmp ex_slash)
    (([], Read) :: (sw, Write) :: (if ex_slash then [] else [(slash_tmp, Write)])
     ++ ((λ name, (sw ++ [utf8 name], Read)) <$> PROTECTED_METADATA_PATH_NAMES)).
Proof.
  intros Hwc Hc Hr Hww Hw Hcan Htmp.
  destruct (file_system_root_posix ctx sc) as (r & Hroot & _ & Hrs); [done..|].
  pose proof (posix_segments_inv _ _ Hc) as (Hcc & _).
  destruct (join_posix_absolute (cwd ctx) (lit "tmp")) as (t & Ht & _ & Hts); [done..|].
  change (47%N :: lit "tmp") with (lit "/tmp") in Ht. change (normalize_below [] (lit "tmp")) with slash_tmp in Hts.
  assert (Hg : ∀ i name, PROTECTED_METADATA_PATH_NAMES !! i = Some name → name ∈ PROTECTED_METADATA_PATH_NAMES)
    by (intros; by eapply list_elem_of_lookup_2).
  destruct (join_name w sw _ Hww Hw Hcan (Hg 0 _ eq_refl)) as (qg & Eg & Sg).
  destruct (join_name w sw _ Hww Hw Hcan (Hg 1 _ eq_refl)) as (qa & Ea & Sa).
  destruct (join_name w sw _ Hww Hw Hcan (Hg 2 _ eq_refl)) as (qc & Ec & Sc).
  unfold entries_are.
  change (resolved_entries ctx ?p) with (entries p ≫= resolved_entry ctx).
  assert (Hone : ∀ p s a b fp, entry_roots ctx fp = [p] → posix_segments p = Some s →
    resolved_entry ctx (mkEntry fp a b) = [(p, a)]).
  { intros p s a b fp Hp Hs. unfold resolved_entry. simpl. rewrite Hp. unfold filter, list_filter.
    by rewrite decide_True by by eapply posix_same_convention. }
  assert (H1 : entry_roots ctx (Special Root) = [r]) by (simpl; by rewrite Hroot).
  assert (H2 : entry_roots ctx (Special (ProjectRoots None)) = [w]) by (simpl; by rewrite Hr).
  assert (H3 : entry_roots ctx (Special SlashTmp) = [t]).
  { cbn [entry_roots]. rewrite bool_decide_true, Ht by done. done. }
  assert (H4 : resolved_entry ctx (mkEntry (Special Tmpdir) Write None) = []).
  { unfold resolved_entry. simpl. by rewrite Htmp. }
  assert (Hm : ∀ name q, uri_join w name = Ok q → entry_roots ctx (Special (ProjectRoots (Some name))) = [q]).
  { intros name q Hq. cbn [entry_roots]. rewrite Hr. simpl. by rewrite Hq. }
  assert (E : entries (workspace_write [] ex_tmp ex_slash) ≫= resolved_entry ctx =
    (r, Read) :: (w, Write) :: (if ex_slash then [] else [(t, Write)]) ++ [(qg, Read); (qa, Read); (qc, Read)]).
  { rewrite workspace_write_list. unfold new_entry, skip_missing_path.
    rewrite !bind_cons, !bind_app, (Hone r [] Read None (Special Root)),
      (Hone w sw Write None (Special (ProjectRoots None))) by done.
    rewrite !bind_cons, (Hone qg _ Read (Some Skip) _ (Hm _ _ Eg) Sg),
      (Hone qa _ Read (Some Skip) _ (Hm _ _ Ea) Sa), (Hone qc _ Read (Some Skip) _ (Hm _ _ Ec) Sc).
    destruct ex_tmp, ex_slash; cbn [negb]; rewrite ?bind_cons, ?H4;
      rewrite ?(Hone t _ Write None (Special SlashTmp) H3 Hts); done. }
  rewrite E. destruct ex_slash; repeat constructor; done.
Qed.

Lemma prefix_snoc_disjoint (sw sp : list (list byte)) x y :
  (sw ++ [x]) `prefix_of` sp → (sw ++ [y]) `prefix_of` sp → x = y.
Proof.
  intros [k ->] [k' E]. rewrite <- !app_assoc in E. apply app_inv_head in E. by injection E.
Qed.

End Workspace.

(** * Full-disk write access *)

Section FullDisk.
Context `{UL : UrlLib} `{!UrlLaws}.
Implicit Types (path root p q : PathUri) (e : FileSystemSandboxEntry) (pol : FileSystemSandboxPolicy)
  (ctx : FileSystemSandboxPolicyContext).

(** The paths that the policy names are well formed. *)
Definition wf_policy pol : Prop :=
  Forall (λ e, match entry_path e with Path p => wf_uri p | _ => True end) (entries pol).

Lemma decode_uri_path_sound s t : 37%N ∉ t → decode_uri_path s = t → Forall (λ c, (c < 128)%N) t →
  decode_binary (utf8 s) = utf8 t.
Proof.
  intros H37. unfold decode_uri_path. rewrite law_decode.
  destruct (from_utf8 (decode_binary (utf8 s))) as [t'|] eqn:E; simpl; intros -> Ht.
  - symmetry. by eapply from_utf8_loop_sound.
  - rewrite law_decode_plain; [done|]. by rewrite utf8_ascii.
Qed.

(** The two spellings of [/tmp] in a policy. *)
Lemma slash_tmp_segments p :
  special_path_matches_path_uri SlashTmp p = true → posix_segments p = Some slash_tmp.
Proof.
  simpl. rewrite !andb_true_iff, !bool_decide_eq_true. intros [[Hc Hd] Hb].
  destruct (posix_depth_segments p 1 Hc Hd) as (sp & Hs & Hl). rewrite Hs. f_equal.
  pose proof (posix_segments_inv p sp Hs) as (_ & Ho & _ & segs & Hcs & ->).
  unfold basename in Hb. rewrite Ho, bool_decide_false in Hb by by intros [].
  unfold containment_path_segments in Hcs. destruct (url_path_segments (url_of p)) as [raw|]; [|done].
  destruct (existsb _ _); [done|]. simplify_eq. rewrite length_fmap in Hl.
  destruct (nonempty_segments raw) as [|x [|??]]; simplify_eq/=. unfold slash_tmp. f_equal.
  apply decode_uri_path_sound; [|done|repeat constructor; done].
  by vm_compute; set_solver.
Qed.

Lemma slash_tmp_root ctx :
  infer_path_convention (cwd ctx) = Some Posix →
  ∃ t, entry_roots ctx (Special SlashTmp) = [t] ∧ posix_segments t = Some slash_tmp.
Proof.
  intros Hc. destruct (join_posix_absolute (cwd ctx) (lit "tmp")) as (t & Ht & _ & Hts); [done..|].
  exists t. split; [|done]. cbn [entry_roots]. rewrite bool_decide_true by done.
  change (lit "/tmp") with (47%N :: lit "tmp"). by rewrite Ht.
Qed.

(** A posix path resolved from a policy entry. *)
Lemma covers_intro ctx pol path sp e root sr :
  infer_path_convention (cwd ctx) = Some Posix → posix_segments path = Some sp →
  e ∈ entries pol → root ∈ entry_roots ctx (entry_path e) → posix_segments root = Some sr →
  sr `prefix_of` sp → covers ctx pol path root (access e) (length sr).
Proof.
  intros Hc Hp He Hr Hs Hpre. pose proof (posix_segments_inv _ _ Hs) as (Hrc & _). split_and!.
  - apply elem_of_resolved. exists e. split; [done|]. unfold resolved_entry. apply list_elem_of_fmap.
    exists root. split; [done|]. apply list_elem_of_filter. split; [|done]. apply bool_decide_spec. congruence.
  - by rewrite posix_segments_depth, Hs.
  - rewrite (posix_starts_with path root sp sr) by done. by apply bool_decide_eq_true.
Qed.

Lemma covers_elim ctx pol path root a d :
  covers ctx pol path root a d → ∃ e, e ∈ entries pol ∧ access e = a ∧ root ∈ entry_roots ctx (entry_path e).
Proof.
  intros (Hin & _). apply elem_of_resolved in Hin as (e & He & Hr). exists e.
  unfold resolved_entry in Hr. apply list_elem_of_fmap in Hr as (p & [= -> ->] & Hp).
  by apply list_elem_of_filter in Hp as [_ ?].
Qed.

(** The root of a POSIX file system, as a path or as a symbol. *)
Lemma root_path_segments p :
  wf_uri p → infer_path_convention p = Some Posix → special_path_matches_path_uri Root p = true →
  posix_segments p = Some [].
Proof.
  intros Hwf Hc Hm. cbn in Hm. apply andb_true_iff in Hm as [Hd Hpar].
  apply bool_decide_eq_true in Hd as [n Hd]. apply negb_true_iff, bool_decide_eq_false in Hpar.
  destruct (posix_depth_segments p n Hc Hd) as (sp & Hs & _).
  pose proof (parent_posix p sp Hwf Hs) as Hx. destruct (parent p); [exfalso; eauto|]. by subst.
Qed.

(** The segments of a location that a symbol and a path both name. *)
Lemma special_location ctx sc v p :
  wf_uri (cwd ctx) → posix_segments (cwd ctx) = Some sc → wf_uri p → infer_path_convention p = Some Posix →
  special_path_matches_path_uri v p = true →
  ∃ r s, entry_roots ctx (Special v) = [r] ∧ posix_segments r = Some s ∧ posix_segments p = Some s.
Proof.
  intros Hwc Hc Hwf Hp Hm. pose proof (posix_segments_inv _ _ Hc) as (Hcc & _). destruct v; try done.
  - destruct (file_system_root_posix ctx sc Hwc Hc) as (r & Hroot & _ & Hrs).
    exists r, []. split_and!; [by cbn; rewrite Hroot|done|by apply root_path_segments].
  - destruct (slash_tmp_root ctx Hcc) as (t & Ht & Hts). exists t, slash_tmp.
    split_and!; [done..|by apply slash_tmp_segments].
Qed.

Lemma special_share_eq v w : special_paths_share_target v w = true → v = w.
Proof.
  destruct v, w; try done; simpl; rewrite ?andb_true_iff, ?bool_decide_eq_true; [by intros ->|].
  by intros [-> ->].
Qed.

(** An entry with a same-target write override has, at each of its roots, a write entry
    for the same segments. *)
Lemma override_covers ctx pol path sp sc e root sr :
  wf_uri (cwd ctx) → posix_segments (cwd ctx) = Some sc → wf_policy pol → posix_segments path = Some sp →
  e ∈ entries pol → root ∈ entry_roots ctx (entry_path e) → posix_segments root = Some sr → sr `prefix_of` sp →
  has_same_target_write_override e Posix pol = true →
  ∃ root', covers ctx pol path root' Write (length sr).
Proof.
  intros Hwc Hc Hwf Hp He Hr Hs Hpre Ho. pose proof (posix_segments_inv _ _ Hc) as (Hcc & _).
  apply existsb_exists in Ho as (cand & Hcand & Hx). rewrite !andb_true_iff, can_write_eq in Hx.
  destruct Hx as [[Hw _] Hsh]. apply list_elem_of_In in Hcand.
  assert (Hgo : ∀ root', root' ∈ entry_roots ctx (entry_path cand) → posix_segments root' = Some sr →
    ∃ root', covers ctx pol path root' Write (length sr)).
  { intros root' Hr' Hs'. exists root'. rewrite <- Hw. by eapply covers_intro. }
  pose proof (posix_segments_inv _ _ Hs) as (Hrc & _).
  unfold wf_policy in Hwf. rewrite Forall_forall in Hwf. pose proof (Hwf e He) as Hwe. pose proof (Hwf cand Hcand) as Hwcand.
  unfold file_system_paths_share_target in Hsh.
  destruct (entry_path cand) as [q|g|v] eqn:Eq, (entry_path e) as [p|g'|v'] eqn:Ee; try done.
  - cbn in Hr. apply list_elem_of_singleton in Hr as ->. apply (Hgo p); [|done].
    rewrite uri_eqb_sym, posix_eqb in Hsh by done. apply bool_decide_eq_true in Hsh. cbn.
    apply list_elem_of_singleton. by destruct p, q; simpl in Hsh; subst.
  - apply andb_true_iff in Hsh as [Hqc Hm]. apply bool_decide_eq_true in Hqc.
    destruct (special_location ctx sc v' q) as (r & s & Hroots & Hrs & Hqs); [done..|].
    rewrite Hroots in Hr. apply list_elem_of_singleton in Hr as ->. simplify_eq.
    apply (Hgo q); [by apply list_elem_of_singleton|done].
  - by apply elem_of_nil in Hr.
  - apply andb_true_iff in Hsh as [Hqc Hm]. apply bool_decide_eq_true in Hqc.
    destruct (special_location ctx sc v p) as (r & s & Hroots & Hrs & Hqs); [done..|].
    apply list_elem_of_singleton in Hr as ->. simplify_eq.
    apply (Hgo r); [rewrite Hroots; by apply list_elem_of_singleton|done].
  - apply special_share_eq in Hsh as ->. by apply (Hgo root).
Qed.

(** Nothing overrides a denial. *)
Lemma deny_no_override pol e : access e = Deny → has_same_target_write_override e Posix pol = false.
Proof.
  intros Ha. destruct (has_same_target_write_override e Posix pol) eqn:E; [exfalso|done].
  apply existsb_exists in E as (c & _ & Hx). rewrite !andb_true_iff, can_write_eq, Nat.ltb_lt in Hx.
  destruct Hx as [[Hw Hlt] _]. rewrite Ha, Hw in Hlt. simpl in Hlt. lia.
Qed.

(** An entry that does not narrow write access has, at each of its roots, a write entry for
    the same segments. *)
Lemma not_narrowing_covers ctx pol path sp sc e root sr :
  wf_uri (cwd ctx) → posix_segments (cwd ctx) = Some sc → wf_policy pol → posix_segments path = Some sp →
  (∃ r, covers ctx pol path r Write 0) →
  e ∈ entries pol → root ∈ entry_roots ctx (entry_path e) → posix_segments root = Some sr → sr `prefix_of` sp →
  narrows_write Posix pol e = false → access e ≠ Write →
  access e ≠ Deny ∧ ∃ root', covers ctx pol path root' Write (length sr).
Proof.
  intros Hwc Hc Hwf Hp [r0 Hr0] He Hr Hs Hpre Hn Ha. unfold narrows_write in Hn.
  destruct (can_write (access e)) eqn:Hcw; [by apply can_write_eq in Hcw|].
  assert (Hov : has_same_target_write_override e Posix pol = true →
    access e ≠ Deny ∧ ∃ root', covers ctx pol path root' Write (length sr)).
  { intros Ho. split; [|by eapply override_covers]. intros Hd. by rewrite deny_no_override in Ho. }
  destruct (entry_path e) as [p|g|v] eqn:Ee; [by apply Hov, negb_false_iff|done|].
  destruct v; try (by apply Hov, negb_false_iff); try (by cbn in Hr; apply elem_of_nil in Hr).
  cbn in Hr. apply bool_decide_eq_false in Hn. split; [done|].
  destruct (file_system_root_posix ctx sc Hwc Hc) as (r & Hroot & _ & Hrs).
  rewrite Hroot in Hr. apply list_elem_of_singleton in Hr as ->. simplify_eq. by exists r0.
Qed.

(** Full-disk write access means that every path can be written: on a POSIX executor,
    when a restricted policy reports full-disk write access, every path that can be
    evaluated has [Write] access and can be written, metadata included. *)
Theorem full_disk_write_is_total ctx pol path sc :
  wf_uri (cwd ctx) → posix_segments (cwd ctx) = Some sc → wf_policy pol → kind pol = Restricted →
  has_full_disk_write_access_with_context ctx pol = true → evaluable path ctx pol = true →
  resolve_access path ctx pol = Write ∧ can_write_path path ctx pol = true.
Proof.
  intros Hwc Hc Hwf Hk Hf He. pose proof (posix_segments_inv _ _ Hc) as (Hcc & _).
  assert (Hp : ∃ sp, posix_segments path = Some sp).
  { pose proof He as He'. unfold evaluable in He'. rewrite Hcc in He'. apply andb_true_iff in He' as [Hcmp _].
    unfold comparable_path in Hcmp. rewrite !andb_true_iff, !bool_decide_eq_true in Hcmp.
    destruct Hcmp as [[Hpc [n Hn]] _]. destruct (posix_depth_segments path n) as (sp & ? & _); eauto. }
  destruct Hp as [sp Hp]. pose proof Hf as Hfull.
  unfold has_full_disk_write_access_with_context, has_full_disk_write_access_for_convention in Hf.
  rewrite Hk, Hcc in Hf. apply andb_true_iff in Hf as [Hroot Hnar]. apply negb_true_iff in Hnar.
  unfold has_root_access, has_write_narrowing_entries, is_restricted in *. rewrite Hk in *. simpl in *.
  assert (Hr0 : ∃ r, covers ctx pol path r Write 0).
  { apply existsb_exists in Hroot as (e & Hin & Hx). apply andb_true_iff in Hx as [Hsp Hw].
    apply can_write_eq in Hw. unfold is_special in Hsp. destruct (entry_path e) as [| |v] eqn:Ee; try done.
    apply bool_decide_eq_true in Hsp as ->.
    destruct (file_system_root_posix ctx sc Hwc Hc) as (r & Hr & _ & Hrs). exists r.
    rewrite <- Hw. apply (covers_intro ctx pol path sp e r []); try done; [by apply list_elem_of_In| |apply prefix_nil].
    rewrite Ee. cbn. rewrite Hr. by apply list_elem_of_singleton. }
  assert (Hres : resolve_access path ctx pol = Write).
  { destruct (resolve_access_evaluable path ctx pol Hk He) as [[_ (root & d & Hcov & Hmax)]|[Hno _]];
      [|by destruct Hr0 as [r Hr0]; apply Hno in Hr0].
    destruct (decide (resolve_access path ctx pol = Write)) as [|Hne]; [done|exfalso].
    destruct (covers_posix _ _ _ _ _ _ Hcc He Hcov) as (sp' & sr & Hsp' & Hsr & Hpre & <-). simplify_eq.
    destruct (covers_elim _ _ _ _ _ _ Hcov) as (e & Hin & Ha & Hr). rewrite <- Ha in Hne.
    destruct (not_narrowing_covers ctx pol path sp sc e root sr) as (Hnd & root' & Hw); try done.
    { destruct (narrows_write Posix pol e) eqn:En; [|done]. apply not_true_iff_false in Hnar.
      exfalso. apply Hnar, existsb_exists. exists e. split; [by apply list_elem_of_In|done]. }
    apply Hmax in Hw. rewrite <- Ha in Hw. destruct (access e); simpl in Hw; [lia|done..]. }
  split; [done|]. unfold can_write_path. rewrite Hres, Hfull. done.
Qed.
End FullDisk.

Definition open_policy : FileSystemSandboxPolicy :=
  restricted [new_entry (Special Root) Write; new_entry (Special SlashTmp) Read;
              new_entry (Path (uri "file:///tmp")) Write].

Lemma full_disk_write_is_total_witness :
  resolve_access (uri "file:///tmp/.git/x") (workspace_ctx []) open_policy = Write ∧
  can_write_path (uri "file:///tmp/.git/x") (workspace_ctx []) open_policy = true.
Proof.
  apply (full_disk_write_is_total (workspace_ctx []) open_policy (uri "file:///tmp/.git/x") [lit "ws"]);
    [apply wf_check_ok; vm_compute; reflexivity|vm_compute; reflexivity| |vm_compute; reflexivity..].
  repeat constructor. apply wf_check_ok. vm_compute. reflexivity.
Defined.

