(* ===== verification/PolicyTransforms.v ===== *)
(** Permission profiles ([protocol/src/models.rs]) and the transforms of
    [sandboxing/src/policy_transforms.rs]: normalizing, materializing, merging and
    intersecting additional permissions, and the effective policy of a command. *)
From stdpp Require Import base list numbers strings.
From S2P Require Import Prelude RustStr PathConv Utf8Stream UrlLib PathUri LegacyPath Permissions PermissionsDeny PermissionsRoots.

(** [NonZeroUsize::new]. *)
Definition non_zero (n : nat) : option positive :=
  match n with
  | 0 => None
  | S _ => Some (Pos.of_nat n)
  end.

Record NetworkPermissions : Type := mkNetPerms { net_enabled : option bool }.
Definition net_perms_empty (n : NetworkPermissions) : bool := bool_decide (net_enabled n = None).

Inductive SandboxEnforcement : Type := EnforceManaged | EnforceDisabled | EnforceExternal.
#[export] Instance SandboxEnforcement_eq_dec : EqDecision SandboxEnforcement.
Proof. solve_decision. Defined.

Inductive GlobScanDepth : Type := Bounded (depth : nat) | Unbounded.

Section Transforms.
Context `{UL : UrlLib} `{GL : GlobLib}.
Implicit Types (e : FileSystemSandboxEntry) (es : list FileSystemSandboxEntry) (pol : FileSystemSandboxPolicy)
  (ctx : FileSystemSandboxPolicyContext).

Record FileSystemPermissions : Type := mkFsPerms {
  perm_entries : list FileSystemSandboxEntry;
  perm_glob_depth : option positive;
}.
Definition fs_perms_empty (f : FileSystemPermissions) : bool := is_empty (perm_entries f).

Record AdditionalPermissionProfile : Type := mkAdditional {
  network : option NetworkPermissions;
  file_system : option FileSystemPermissions;
}.
Definition additional_empty (a : AdditionalPermissionProfile) : bool :=
  negb (bool_decide (is_Some (network a))) && negb (bool_decide (is_Some (file_system a))).

Definition option_filter {A} (f : A → bool) (o : option A) : option A :=
  match o with
  | Some a => if f a then Some a else None
  | None => None
  end.

(** ** Normalization and materialization *)

Inductive TransformError : Type :=
| GlobGrant
| PathMismatch (path cwd : PathUri)
| UnresolvedPath (cwd : PathUri).

(** The loop that rejects granting globs and drops duplicates. *)
Fixpoint normalize_entries (acc es : list FileSystemSandboxEntry)
    : Result (list FileSystemSandboxEntry) TransformError :=
  match es with
  | [] => Ok acc
  | e :: es =>
      match entry_path e with
      | GlobPattern _ =>
          if negb (bool_decide (access e = Deny)) then Err GlobGrant
          else normalize_entries (push_new acc e) es
      | _ => normalize_entries (push_new acc e) es
      end
  end.

Definition normalize_additional_permissions (a : AdditionalPermissionProfile)
    : Result AdditionalPermissionProfile TransformError :=
  let net := option_filter (λ n, negb (net_perms_empty n)) (network a) in
  let? fs := match file_system a with
             | Some f =>
                 let? es := normalize_entries [] (perm_entries f) in
                 let f := mkFsPerms es (perm_glob_depth f) in
                 Ok (if negb (fs_perms_empty f) then Some f else None)
             | None => Ok None
             end in
  Ok (mkAdditional net fs).

(** A concrete path that belongs to the executor. *)
Definition matches_executor ctx e : Result unit TransformError :=
  match entry_path e with
  | Path path =>
      if bool_decide (infer_path_convention path = None)
         || negb (bool_decide (infer_path_convention path = infer_path_convention (cwd ctx)))
         || negb (is_ok (uri_join path dot))
      then Err (PathMismatch path (cwd ctx)) else Ok tt
  | _ => Ok tt
  end.

Definition normalize_additional_permissions_with_context (a : AdditionalPermissionProfile) ctx
    : Result AdditionalPermissionProfile TransformError :=
  let? normalized := normalize_additional_permissions a in
  let? _ := match file_system normalized with
            | Some f => collect_results (matches_executor ctx) (perm_entries f)
            | None => Ok []
            end in
  Ok normalized.

Definition is_root_entry e : bool := is_special Root e.

Definition resolve_permission_path (p : FileSystemPath) ctx : option PathUri :=
  match p with
  | Path path => Some path
  | GlobPattern _ => None
  | Special value =>
      match value with
      | Root => file_system_root ctx
      | ProjectRoots subpath =>
          match workspace_roots ctx with
          | [] => None
          | root :: _ =>
              match subpath with
              | Some subpath => match uri_join root subpath with
                                | Ok p => Some p
                                | Err _ => None
                                end
              | None => Some root
              end
          end
      | Tmpdir => match temporary_directories ctx with
                  | Some dirs => head dirs
                  | None => None
                  end
      | SlashTmp =>
          if bool_decide (infer_path_convention (cwd ctx) = Some Posix)
          then match uri_join (cwd ctx) (lit "/tmp") with
               | Ok p => Some p
               | Err _ => None
               end
          else None
      | Minimal | Unknown _ _ => None
      end
  end.

Definition materialized_path_entry e (path : PathUri) : FileSystemSandboxEntry :=
  mkEntry (Path path) (access e) (missing_path_behavior e).

Definition with_workspace_roots (roots : list PathUri) ctx : FileSystemSandboxPolicyContext :=
  mkContext (cwd ctx) roots (user_home_dir ctx) (temporary_directories ctx).

Definition glob_suffix_of_home (is_windows : bool) (pattern : str) : option str :=
  match strip_prefix pattern (lit "~/") with
  | Some suffix => Some suffix
  | None =>
      if bool_decide (pattern = lit "~") then Some []
      else if is_windows then strip_prefix pattern (lit "~\") else None
  end.

Definition materialize_cwd_dependent_entry e ctx : option FileSystemSandboxEntry :=
  match entry_path e with
  | GlobPattern pattern =>
      let is_windows := bool_decide (infer_path_convention (cwd ctx) = Some Windows) in
      let rooted :=
        match glob_suffix_of_home is_windows pattern with
        | Some suffix => (λ home, (home, trim_separators is_windows suffix)) <$> user_home_dir ctx
        | None => Some (cwd ctx, pattern)
        end in
      match rooted with
      | None => None
      | Some (root, pattern) =>
          match uri_join root pattern with
          | Ok path => Some (mkEntry (GlobPattern (inferred_native_path_string path)) (access e)
                               (missing_path_behavior e))
          | Err _ => None
          end
      end
  | Path _ | Special _ => Some e
  end.

(** The concrete entries of a workspace-root symbol; an unresolved denial fails. *)
Fixpoint materialize_roots e ctx (roots : list PathUri) : option (list FileSystemSandboxEntry) :=
  match roots with
  | [] => Some []
  | root :: roots =>
      match resolve_permission_path (entry_path e) (with_workspace_roots [root] ctx) with
      | Some path => cons (materialized_path_entry e path) <$> materialize_roots e ctx roots
      | None => if bool_decide (access e = Deny) then None else materialize_roots e ctx roots
      end
  end.

(** One entry in a context: [None] is the failure of the whole list. *)
Definition materialize_entry_in e ctx : option (list FileSystemSandboxEntry) :=
  let deny := bool_decide (access e = Deny) in
  match entry_path e with
  | Special (ProjectRoots _) =>
      match materialize_roots e ctx (workspace_roots ctx) with
      | None => None
      | Some resolved => if deny && is_empty resolved then None else Some resolved
      end
  | Special Tmpdir =>
      match temporary_directories ctx with
      | None => if deny then None else Some [e]
      | Some dirs => Some (materialized_path_entry e <$> dirs)
      end
  | Special Root =>
      match resolve_permission_path (entry_path e) ctx with
      | None => None
      | Some _ => Some [e]
      end
  | _ =>
      match materialize_cwd_dependent_entry e ctx with
      | None => if deny then None else Some []
      | Some e' => Some [e']
      end
  end.

Fixpoint materialize_context_dependent_entries es ctx : option (list FileSystemSandboxEntry) :=
  match es with
  | [] => Some []
  | e :: es =>
      match materialize_entry_in e ctx with
      | None => None
      | Some l => app l <$> materialize_context_dependent_entries es ctx
      end
  end.

Definition materialize_additional_permissions_with_context (a : AdditionalPermissionProfile) ctx
    : Result AdditionalPermissionProfile TransformError :=
  let? fs := match file_system a with
             | Some f =>
                 let? es := ok_or (materialize_context_dependent_entries (perm_entries f) ctx)
                              (UnresolvedPath (cwd ctx)) in
                 Ok (Some (mkFsPerms es (perm_glob_depth f)))
             | None => Ok None
             end in
  normalize_additional_permissions_with_context (mkAdditional (network a) fs) ctx.

(** ** Merging *)

Definition is_deny_glob e : bool :=
  bool_decide (access e = Deny) && match entry_path e with GlobPattern _ => true | _ => false end.

Definition effective_glob_scan_depth es (depth : option nat) : option GlobScanDepth :=
  if existsb is_deny_glob es
  then Some match depth with
            | Some d => Bounded d
            | None => Unbounded
            end
  else None.

Definition merge_glob_scan_max_depth left (left_depth : option nat) right (right_depth : option nat) : option nat :=
  match effective_glob_scan_depth left left_depth, effective_glob_scan_depth right right_depth with
  | Some Unbounded, _ | _, Some Unbounded => None
  | Some (Bounded l), Some (Bounded r) => Some (Nat.max l r)
  | Some (Bounded d), None | None, Some (Bounded d) => Some d
  | None, None => None
  end.

Definition merge_permission_entries (base permissions : list FileSystemSandboxEntry)
    : list FileSystemSandboxEntry := foldl push_new [] (base ++ permissions).

Definition pos_nat (o : option positive) : option nat := Pos.to_nat <$> o.

Definition net_enabled_true (n : option NetworkPermissions) : bool :=
  match n with
  | Some (mkNetPerms (Some true)) => true
  | _ => false
  end.

Definition merge_permission_profiles (base permissions : option AdditionalPermissionProfile)
    : option AdditionalPermissionProfile :=
  match permissions with
  | None => base
  | Some permissions =>
      match base with
      | Some base =>
          let net := if net_enabled_true (network base) || net_enabled_true (network permissions)
                     then Some (mkNetPerms (Some true)) else None in
          let fs :=
            match file_system base, file_system permissions with
            | Some b, Some p =>
                option_filter (λ f, negb (fs_perms_empty f))
                  (Some (mkFsPerms (merge_permission_entries (perm_entries b) (perm_entries p))
                    (merge_glob_scan_max_depth (perm_entries b) (pos_nat (perm_glob_depth b))
                       (perm_entries p) (pos_nat (perm_glob_depth p)) ≫= non_zero)))
            | Some b, None => Some b
            | None, Some p => Some p
            | None, None => None
            end in
          option_filter (λ a, negb (additional_empty a)) (Some (mkAdditional net fs))
      | None => option_filter (λ a, negb (additional_empty a)) (Some permissions)
      end
  end.

(** ** Intersecting a grant with a request *)

Definition access_covers (requested granted : FileSystemAccessMode) : bool :=
  match granted with
  | Read => can_read requested
  | Write => can_write requested
  | Deny => false
  end.

Definition paths_overlap (left right : PathUri) : bool := default true (overlaps left right).

(** The directory that a glob pattern is certain to lie in. *)
Definition is_static_stop (c : char) : bool := existsb (N.eqb c) (lit "*?[]").
Definition glob_static_prefix_path (pattern : str) ctx : option PathUri :=
  let is_windows := bool_decide (infer_path_convention (cwd ctx) = Some Windows) in
  let prefix := take_until is_static_stop pattern in
  let has_wildcard := length prefix <? length pattern in
  if has_wildcard && is_empty prefix then None
  else
    let wildcard_in_segment :=
      has_wildcard && negb (ends_with prefix [47%N] || (is_windows && ends_with prefix [92%N])) in
    match uri_join (cwd ctx) prefix with
    | Err _ => None
    | Ok p => if wildcard_in_segment then parent p else Some p
    end.

Definition granted_file_system_entry_within_request (requested : FileSystemPermissions)
    (requested_policy : FileSystemSandboxPolicy) (requested_read_deny_matcher : option PreparedReadDenyMatcher)
    ctx (granted : FileSystemSandboxEntry) : bool :=
  if negb (can_read (access granted))
     || (is_special SlashTmp granted && negb (bool_decide (infer_path_convention (cwd ctx) = Some Posix)))
  then false
  else if bool_decide (infer_path_convention (cwd ctx) = Some Windows) && is_root_entry granted
          && negb (existsb (λ r, is_root_entry r && access_covers (access r) (access granted))
                     (perm_entries requested))
  then false
  else
    match resolve_permission_path (entry_path granted) ctx with
    | Some path =>
        if negb (bool_decide (infer_path_convention path = infer_path_convention (cwd ctx)))
           || match requested_read_deny_matcher with
              | Some m => matches_prepared_read_deny path ctx m
              | None => false
              end
        then false
        else access_covers (resolve_access path ctx requested_policy) (access granted)
    | None =>
        existsb (λ r, access_covers (access r) (access granted) && fs_path_eqb (entry_path r) (entry_path granted))
          (perm_entries requested)
    end.

Definition deny_entry_constrains_accepted_grant (deny_entry : FileSystemSandboxEntry)
    (accepted : list FileSystemSandboxEntry) ctx : bool :=
  existsb (λ e,
    if is_root_entry e then true
    else match resolve_permission_path (entry_path e) ctx with
         | None => true
         | Some grant_path =>
             match entry_path deny_entry with
             | GlobPattern pattern =>
                 match glob_static_prefix_path pattern ctx with
                 | None => true
                 | Some prefix => paths_overlap prefix grant_path
                 end
             | p =>
                 match resolve_permission_path p ctx with
                 | None => true
                 | Some deny_path => paths_overlap deny_path grant_path
                 end
             end
         end) (filter (λ e, can_read (access e)) accepted).

(** The denials that matter for the accepted grants, and the output with them pushed. *)
Definition retained_denies source accepted ctx : list FileSystemSandboxEntry :=
  filter (λ e, deny_entry_constrains_accepted_grant e accepted ctx)
    (filter (λ e, bool_decide (access e = Deny)) source).
Definition retain_constraining_deny_entries source accepted ctx (output : list FileSystemSandboxEntry)
    : list FileSystemSandboxEntry * list FileSystemSandboxEntry :=
  let retained := retained_denies source accepted ctx in
  (foldl push_new output retained, retained).

Definition default_fs_perms : FileSystemPermissions := mkFsPerms [] None.

(** The file system part: [None] when an entry cannot be resolved. *)
Definition intersect_file_system (requested : FileSystemPermissions) (granted : option FileSystemPermissions) ctx
    : option FileSystemPermissions :=
  let granted := default default_fs_perms granted in
  match materialize_context_dependent_entries (perm_entries requested) ctx,
        materialize_context_dependent_entries (perm_entries granted) ctx with
  | Some requested_entries, Some granted_entries =>
      let requested_policy := restricted requested_entries in
      let matcher := from_context requested_policy ctx in
      let accepted := foldl push_new []
        (filter (granted_file_system_entry_within_request requested requested_policy matcher ctx) granted_entries) in
      let '(es, requested_retained) := retain_constraining_deny_entries requested_entries accepted ctx accepted in
      let '(es, granted_retained) := retain_constraining_deny_entries granted_entries accepted ctx es in
      Some (mkFsPerms es
        (merge_glob_scan_max_depth requested_retained (pos_nat (perm_glob_depth requested))
           granted_retained (pos_nat (perm_glob_depth granted)) ≫= non_zero))
  | _, _ => None
  end.

Definition intersect_permission_profiles_with_context (requested granted : AdditionalPermissionProfile) ctx
    : AdditionalPermissionProfile :=
  let fs := option_filter (λ f, negb (fs_perms_empty f))
              match file_system requested with
              | Some r => intersect_file_system r (file_system granted) ctx
              | None => None
              end in
  let net := if net_enabled_true (network requested) && net_enabled_true (network granted)
             then Some (mkNetPerms (Some true)) else None in
  mkAdditional net fs.

(** ** Effective policies *)

Definition merge_file_system_policy_with_additional_permissions pol (f : FileSystemPermissions)
    : FileSystemSandboxPolicy :=
  match kind pol with
  | Restricted =>
      mkPolicy Restricted
        (merge_glob_scan_max_depth (entries pol) (glob_scan_max_depth pol) (perm_entries f)
           (pos_nat (perm_glob_depth f)))
        (foldl push_new (entries pol) (perm_entries f))
  | Unrestricted | ExternalSandbox => pol
  end.

Definition effective_file_system_sandbox_policy pol (a : option AdditionalPermissionProfile)
    : FileSystemSandboxPolicy :=
  match a with
  | None => pol
  | Some a =>
      match file_system a with
      | None => pol
      | Some f => if fs_perms_empty f then pol else merge_file_system_policy_with_additional_permissions pol f
      end
  end.

Definition merge_network_access (base : bool) (a : AdditionalPermissionProfile) : bool :=
  base || match network a with
          | Some n => default false (net_enabled n)
          | None => false
          end.

Definition effective_network_sandbox_policy (n : NetworkSandboxPolicy) (a : option AdditionalPermissionProfile)
    : NetworkSandboxPolicy :=
  match a with
  | Some a => if merge_network_access (is_enabled n) a then NetEnabled else NetRestricted
  | None => n
  end.

(** ** Permission profiles ([models.rs]) *)

Inductive ManagedFileSystemPermissions : Type :=
| ManagedRestricted (es : list FileSystemSandboxEntry) (depth : option positive)
| ManagedUnrestricted.

Inductive PermissionProfile : Type :=
| Managed (fs : ManagedFileSystemPermissions) (net : NetworkSandboxPolicy)
| Disabled
| External (net : NetworkSandboxPolicy).

(** [None] is the branch for external policies, which the callers exclude. *)
Definition managed_from_sandbox_policy pol : option ManagedFileSystemPermissions :=
  match kind pol with
  | Restricted => Some (ManagedRestricted (entries pol) (glob_scan_max_depth pol ≫= non_zero))
  | Unrestricted => Some ManagedUnrestricted
  | ExternalSandbox => None
  end.

Definition to_sandbox_policy (m : ManagedFileSystemPermissions) : FileSystemSandboxPolicy :=
  match m with
  | ManagedRestricted es depth => mkPolicy Restricted (pos_nat depth) es
  | ManagedUnrestricted => unrestricted
  end.

Definition from_runtime_permissions_with_enforcement (enforcement : SandboxEnforcement) pol
    (n : NetworkSandboxPolicy) : option PermissionProfile :=
  match kind pol with
  | ExternalSandbox => Some (External n)
  | Unrestricted =>
      if bool_decide (enforcement = EnforceDisabled) then Some Disabled
      else (λ m, Managed m n) <$> managed_from_sandbox_policy pol
  | Restricted => (λ m, Managed m n) <$> managed_from_sandbox_policy pol
  end.

Definition from_runtime_permissions pol (n : NetworkSandboxPolicy) : option PermissionProfile :=
  from_runtime_permissions_with_enforcement
    match kind pol with
    | Restricted | Unrestricted => EnforceManaged
    | ExternalSandbox => EnforceExternal
    end pol n.

Definition enforcement (p : PermissionProfile) : SandboxEnforcement :=
  match p with
  | Managed _ _ => EnforceManaged
  | Disabled => EnforceDisabled
  | External _ => EnforceExternal
  end.

Definition file_system_sandbox_policy (p : PermissionProfile) : FileSystemSandboxPolicy :=
  match p with
  | Managed m _ => to_sandbox_policy m
  | Disabled => unrestricted
  | External _ => external_sandbox
  end.

Definition network_sandbox_policy (p : PermissionProfile) : NetworkSandboxPolicy :=
  match p with
  | Managed _ n | External n => n
  | Disabled => NetEnabled
  end.

Definition to_runtime_permissions (p : PermissionProfile) : FileSystemSandboxPolicy * NetworkSandboxPolicy :=
  (file_system_sandbox_policy p, network_sandbox_policy p).

Definition intersect_with_read_only (p : PermissionProfile) : option PermissionProfile :=
  let pol := file_system_sandbox_policy p in
  match kind pol with
  | Restricted =>
      from_runtime_permissions
        (set_entries ((λ e, mkEntry (entry_path e) (if bool_decide (access e = Deny) then Deny else Read)
                              (missing_path_behavior e)) <$> entries pol) pol) NetRestricted
  | Unrestricted => from_runtime_permissions read_only NetRestricted
  | ExternalSandbox => None
  end.

Definition effective_permission_profile (p : PermissionProfile) (a : option AdditionalPermissionProfile)
    : option PermissionProfile :=
  let '(pol, n) := to_runtime_permissions p in
  from_runtime_permissions_with_enforcement (enforcement p)
    (effective_file_system_sandbox_policy pol a) (effective_network_sandbox_policy n a).

Definition should_require_platform_sandbox (native : PathConvention) pol (n : NetworkSandboxPolicy)
    (has_managed_network_requirements : bool) : bool :=
  if has_managed_network_requirements then true
  else if negb (is_enabled n) then negb (bool_decide (kind pol = ExternalSandbox))
  else match kind pol with
       | Restricted => negb (has_full_disk_write_access_for_convention (Some native) pol)
       | Unrestricted | ExternalSandbox => false
       end.
End Transforms.
