(* ===== verification/PolicyTransformsFacts.v ===== *)
(** Intersecting a grant with a request: what is granted lies within the request, and no
    path that the request denies becomes readable. *)
From stdpp Require Import base list sets numbers strings.
From S2P Require Import Prelude RustStr PathConv Utf8Stream UrlLib PathUri PathUriFacts UrlModel LegacyPath Permissions PermissionsDeny PermissionsRoots PermissionsSafety PermissionsDenyFacts HostModel PermissionsPosix PolicyTransforms.

Section Intersect.
Context `{UL : UrlLib} `{!UrlLaws} `{GL : GlobLib}.
Implicit Types (e : FileSystemSandboxEntry) (es : list FileSystemSandboxEntry) (pol : FileSystemSandboxPolicy)
  (ctx : FileSystemSandboxPolicyContext) (p q root : PathUri).

(** * Materialized entries *)

(** An entry whose roots are what [resolve_permission_path] gives. *)
Definition materialized ctx e : Prop :=
  ∀ root, root ∈ entry_roots ctx (entry_path e) → resolve_permission_path (entry_path e) ctx = Some root.

Lemma materialized_path_ok ctx e p : materialized ctx (materialized_path_entry e p).
Proof. intros root Hr. cbn in *. by apply list_elem_of_singleton in Hr as ->. Qed.

Lemma materialize_roots_ok ctx e roots l :
  materialize_roots e ctx roots = Some l → Forall (materialized ctx) l.
Proof.
  revert l. induction roots as [|r roots IH]; intros l; simpl; [by intros [= <-]|].
  destruct (resolve_permission_path _ _) as [p|].
  - intros (l' & Hl & ->)%fmap_Some. constructor; [apply materialized_path_ok|auto].
  - case_bool_decide; [done|]. apply IH.
Qed.

Lemma materialize_entry_ok ctx e l : materialize_entry_in e ctx = Some l → Forall (materialized ctx) l.
Proof.
  unfold materialize_entry_in. destruct (entry_path e) as [p|g|v] eqn:Ee.
  - unfold materialize_cwd_dependent_entry. rewrite Ee. intros [= <-]. constructor; [|done].
    intros root. rewrite Ee. cbn. by intros ->%list_elem_of_singleton.
  - destruct (materialize_cwd_dependent_entry e ctx) as [e'|] eqn:Em.
    + intros [= <-]. constructor; [|done]. unfold materialize_cwd_dependent_entry in Em. rewrite Ee in Em.
      intros root. repeat case_match; simplify_eq; cbn; by rewrite elem_of_nil.
    + case_bool_decide; [done|]. by intros [= <-].
  - destruct v as [| |sub| | |].
    + destruct (resolve_permission_path _ ctx) eqn:Er; [|done]. intros [= <-]. constructor; [|done].
      intros root. rewrite Ee. cbn in *. rewrite Er. by intros ->%list_elem_of_singleton.
    + unfold materialize_cwd_dependent_entry. rewrite Ee. intros [= <-]. constructor; [|done].
      intros root. rewrite Ee. cbn. by rewrite elem_of_nil.
    + destruct (materialize_roots e ctx _) as [l'|] eqn:Em; [|done]. destruct (_ && _); [done|].
      intros [= <-]. by eapply materialize_roots_ok.
    + destruct (temporary_directories ctx) as [dirs|] eqn:Et.
      * intros [= <-]. apply Forall_forall. intros x (d & -> & _)%list_elem_of_fmap. apply materialized_path_ok.
      * case_bool_decide; [done|]. intros [= <-]. constructor; [|done]. intros root. rewrite Ee. cbn.
        rewrite Et. cbn. by rewrite elem_of_nil.
    + unfold materialize_cwd_dependent_entry. rewrite Ee. intros [= <-]. constructor; [|done].
      intros root. rewrite Ee. cbn [entry_roots resolve_permission_path]. case_bool_decide; [|by rewrite elem_of_nil].
      destruct (uri_join (cwd ctx) (lit "/tmp")); cbn; [by intros ->%list_elem_of_singleton|by rewrite elem_of_nil].
    + unfold materialize_cwd_dependent_entry. rewrite Ee. intros [= <-]. constructor; [|done].
      intros root. rewrite Ee. cbn. by rewrite elem_of_nil.
Qed.

Lemma materialize_all_ok ctx es l :
  materialize_context_dependent_entries es ctx = Some l → Forall (materialized ctx) l.
Proof.
  revert l. induction es as [|e es IH]; intros l; simpl; [by intros [= <-]|].
  destruct (materialize_entry_in e ctx) as [l1|] eqn:E1; [|done].
  intros (l2 & H2 & ->)%fmap_Some. apply Forall_app. split; [by eapply materialize_entry_ok|auto].
Qed.

(** * The entries of an intersection *)

Lemma push_new_elem es e x : x ∈ push_new es e → x ∈ es ∨ x = e.
Proof. unfold push_new. destruct (contains_entry es e); [by left|]. rewrite elem_of_app. set_solver. Qed.

Lemma push_all_elem l es x : x ∈ foldl push_new es l → x ∈ es ∨ x ∈ l.
Proof.
  revert es. induction l as [|e l IH]; intros es; simpl; [by left|].
  intros [Hx|Hx]%IH; [apply push_new_elem in Hx as [?| ->]|]; set_solver.
Qed.

Lemma retained_deny source accepted ctx e : e ∈ retained_denies source accepted ctx → access e = Deny.
Proof.
  unfold retained_denies. rewrite !list_elem_of_filter. intros (_ & Ha & _). by apply bool_decide_unpack in Ha.
Qed.

(** The pieces of an intersection: what it accepts from the grant, and its entries. *)
Record intersection_parts (r : FileSystemPermissions) (g : option FileSystemPermissions) ctx
    (f : FileSystemPermissions) (req granted accepted : list FileSystemSandboxEntry) : Prop := {
  ip_req : materialize_context_dependent_entries (perm_entries r) ctx = Some req;
  ip_granted : materialize_context_dependent_entries (perm_entries (default default_fs_perms g)) ctx = Some granted;
  ip_accepted e : e ∈ accepted → e ∈ granted ∧
    granted_file_system_entry_within_request r (restricted req) (from_context (restricted req) ctx) ctx e = true;
  ip_grants e : e ∈ perm_entries f → access e ≠ Deny → e ∈ accepted;
  ip_denies e : e ∈ req → access e = Deny → deny_entry_constrains_accepted_grant e accepted ctx = true →
    ∃ e', e' ∈ perm_entries f ∧ entry_eqb e' e = true;
}.

Lemma intersect_parts r g ctx f :
  intersect_file_system r g ctx = Some f → ∃ req granted accepted, intersection_parts r g ctx f req granted accepted.
Proof.
  unfold intersect_file_system.
  destruct (materialize_context_dependent_entries (perm_entries r) ctx) as [req|] eqn:Er; [|done].
  destruct (materialize_context_dependent_entries (perm_entries (default _ g)) ctx) as [granted|] eqn:Eg; [|done].
  unfold retain_constraining_deny_entries. cbn beta iota zeta.
  set (within := granted_file_system_entry_within_request r _ _ ctx). set (acc := foldl push_new [] _).
  intros [= <-]. exists req, granted, acc. split; [done|done|..]; cbn [perm_entries].
  - intros e [He|He]%push_all_elem; [by apply elem_of_nil in He|].
    apply list_elem_of_filter in He as [Hw ?]. split; [done|by apply Is_true_eq_true].
  - intros e [[He|He]%push_all_elem|He]%push_all_elem Ha; [exact He|exfalso..];
      by apply Ha, (retained_deny _ _ _ _ He).
  - intros e He Ha Hc. destruct (push_all_contains (retained_denies req acc ctx) acc e) as (e' & Hin & Heq).
    + unfold retained_denies. rewrite !list_elem_of_filter. split_and!; [by apply Is_true_true| |done].
      by apply bool_decide_spec.
    + exists e'. split; [|done]. by apply push_all_incl.
Qed.

(** * Denials of the request *)

(** A grant inside a denied root of the request is not accepted. *)
Lemma accepted_not_denied r req ctx e root D :
  infer_path_convention (cwd ctx) = Some Posix → is_Some (lexical_depth (cwd ctx)) →
  granted_file_system_entry_within_request r (restricted req) (from_context (restricted req) ctx) ctx e = true →
  resolve_permission_path (entry_path e) ctx = Some root → infer_path_convention root = Some Posix →
  is_Some (lexical_depth root) →
  D ∈ denied_roots_of ctx (restricted req) → uri_starts_with root D = false.
Proof.
  intros Hc Hcd Hw Hp Hrc Hrd HD. destruct (uri_starts_with root D) eqn:E; [exfalso|done].
  assert (Hden : match from_context (restricted req) ctx with
                 | Some m => matches_prepared_read_deny root ctx m
                 | None => false
                 end = true).
  { change (read_denied (restricted req) ctx root = true). rewrite (read_denied_spec ctx _ root Posix) by done.
    assert (Hex : existsb (uri_starts_with root) (denied_roots_of ctx (restricted req)) = true)
      by (apply existsb_exists; exists D; split; [by apply list_elem_of_In|done]).
    apply denied_roots_spec in Hex as (d & Hd & Ha & Hrd'). apply andb_true_iff. split.
    - apply existsb_exists. exists d. split; [by apply list_elem_of_In|by apply bool_decide_eq_true].
    - apply orb_true_iff. right. apply existsb_exists. exists d. split; [by apply list_elem_of_In|].
      unfold entry_denies. rewrite Ha, Hrd'. done. }
  unfold granted_file_system_entry_within_request in Hw. destruct (negb _ || _); [done|].
  destruct (_ && _ && _); [done|]. rewrite Hp, Hden, orb_true_r in Hw. done.
Qed.

Lemma denied_root_entry ctx req D :
  D ∈ denied_roots_of ctx (restricted req) →
  ∃ d, d ∈ req ∧ access d = Deny ∧ D ∈ entry_roots ctx (entry_path d) ∧
    infer_path_convention D = infer_path_convention (cwd ctx).
Proof.
  unfold denied_roots_of. rewrite list_elem_of_fmap. intros ([x a] & -> & Hf).
  apply list_elem_of_filter in Hf as [Ha Hr]. apply Is_true_true, andb_true_iff in Ha as [Ha _].
  apply bool_decide_eq_true in Ha. simpl in Ha. subst a. pose proof (resolved_convention _ _ _ _ Hr) as Hcv.
  apply elem_of_resolved in Hr as (d & Hd & Hin). exists d.
  pose proof (resolved_entry_access _ _ _ Hin) as Hacc. unfold resolved_entry in Hin.
  apply list_elem_of_fmap in Hin as (y & [= -> _] & Hy). apply list_elem_of_filter in Hy as [_ Hy]. done.
Qed.

Lemma overlap_below p q sp sq :
  posix_segments p = Some sp → posix_segments q = Some sq → sq `prefix_of` sp → paths_overlap p q = true.
Proof.
  intros Hp Hq Hpre. unfold paths_overlap, overlaps. destruct (uri_eqb p q); [done|].
  rewrite !posix_segments_depth by (by apply posix_segments_inv in Hp as (? & _); apply posix_segments_inv in Hq as (? & _)).
  rewrite Hp, Hq. simpl. rewrite (posix_starts_with p q sp sq) by done. by rewrite bool_decide_true.
Qed.

(** An entry of the policy that is equal to another one covers what the other one covers. *)
Lemma covers_eqb ctx pol path sp e e' D sD :
  infer_path_convention (cwd ctx) = Some Posix → posix_segments path = Some sp →
  e' ∈ entries pol → entry_eqb e' e = true → D ∈ entry_roots ctx (entry_path e) →
  posix_segments D = Some sD → sD `prefix_of` sp → covers ctx pol path D (access e) (length sD).
Proof.
  intros Hc Hp Hin Heq HD HDs Hpre. unfold entry_eqb in Heq.
  rewrite !andb_true_iff, !bool_decide_eq_true in Heq. destruct Heq as [[Hpe Hae] _].
  rewrite <- Hae. apply (covers_intro ctx pol path sp e' D sD); try done.
  destruct (entry_path e') as [p'|g'|v'], (entry_path e) as [p|g0|v]; try done; simpl in Hpe.
  - cbn in *. apply list_elem_of_singleton in HD as ->. apply list_elem_of_singleton.
    rewrite uri_eqb_sym, posix_eqb in Hpe by by apply posix_segments_inv in HDs as (? & _).
    apply bool_decide_eq_true in Hpe. by destruct p, p'; simpl in Hpe; subst.
  - by apply bool_decide_eq_true in Hpe as ->.
Qed.

(** C10: The intersection of a grant with a request gives no access to what the request
    denies: on a POSIX executor, when the request denies a root other than the root of the
    file system, every path below that root is denied by the intersection, whatever the
    grant says. *)
Theorem intersection_respects_denials r g ctx f req D path sD sp sc :
  posix_segments (cwd ctx) = Some sc →
  intersect_file_system r g ctx = Some f →
  materialize_context_dependent_entries (perm_entries r) ctx = Some req →
  D ∈ denied_roots_of ctx (restricted req) → posix_segments D = Some sD → posix_segments path = Some sp →
  uri_starts_with path D = true →
  resolve_access path ctx (restricted (perm_entries f)) = Deny.
Proof.
  intros Hc Hf Hreq HD HDs Hp Hs. pose proof (posix_segments_inv _ _ Hc) as (Hcc & _).
  destruct (decide (resolve_access path ctx (restricted (perm_entries f)) = Deny)) as [|Hne]; [done|exfalso].
  destruct (evaluable path ctx (restricted (perm_entries f))) eqn:He;
    [|by rewrite resolve_access_not_evaluable in Hne].
  destruct (resolve_access_evaluable path ctx (restricted (perm_entries f)) eq_refl He) as [[_ (root & d & Hcov & Hmax)]|[_ ?]]; [|done].
  set (a := resolve_access path ctx (restricted (perm_entries f))) in *.
  destruct (covers_posix _ _ _ _ _ _ Hcc He Hcov) as (sp' & sr & Hsp' & Hsr & Hpre & <-). simplify_eq.
  rewrite (posix_starts_with path D sp sD) in Hs by done. apply bool_decide_eq_true in Hs.
  destruct (covers_elim _ _ _ _ _ _ Hcov) as (e & Hin & Ha & Hroot).
  destruct (intersect_parts r g ctx f Hf) as (req' & granted & accepted & [Hr1 Hr2 Hr3 Hr4 Hr5]).
  assert (req' = req) as -> by congruence.
  assert (Hacc : e ∈ accepted) by (apply Hr4; [done|congruence]).
  destruct (Hr3 e Hacc) as [Hgr Hw].
  assert (Hres : resolve_permission_path (entry_path e) ctx = Some root).
  { pose proof (materialize_all_ok _ _ _ Hr2) as Hm. rewrite Forall_forall in Hm. by apply (Hm e). }
  assert (Hrc : infer_path_convention root = Some Posix) by by apply posix_segments_inv in Hsr as (? & _).
  assert (Hnd : uri_starts_with root D = false).
  { apply (accepted_not_denied r req ctx e root D); try done.
    - rewrite posix_segments_depth, Hc by done. eauto.
    - rewrite posix_segments_depth, Hsr by done. eauto. }
  rewrite (posix_starts_with root D sr sD) in Hnd by done. apply bool_decide_eq_false in Hnd.
  assert (HrD : sr `prefix_of` sD) by (destruct (prefix_weak_total sD sr sp); done).
  destruct (denied_root_entry ctx req D HD) as (de & Hde & Hda & HDr & _).
  destruct (Hr5 de Hde Hda) as (de' & Hin' & Heq).
  { apply existsb_exists. exists e. split.
    - apply list_elem_of_In, list_elem_of_filter. split; [|done]. apply Is_true_true.
      unfold can_read. rewrite Ha. by rewrite bool_decide_false.
    - destruct (is_root_entry e); [done|]. rewrite Hres.
      assert (HDm : resolve_permission_path (entry_path de) ctx = Some D).
      { pose proof (materialize_all_ok _ _ _ Hr1) as Hm. rewrite Forall_forall in Hm. by apply (Hm de). }
      destruct (entry_path de) as [p|pat|v]; [|by cbn in HDr; apply elem_of_nil in HDr|];
        rewrite HDm; by apply (overlap_below D root sD sr). }
  assert (HcovD : covers ctx (restricted (perm_entries f)) path D (access de) (length sD))
    by by eapply covers_eqb.
  rewrite Hda in HcovD. apply Hmax in HcovD.
  assert (length sr < length sD).
  { destruct (decide (length sr = length sD)) as [El|]; [|by apply prefix_length in HrD; lia].
    exfalso. apply Hnd. by rewrite (prefix_length_eq sr sD) by (done || lia). }
  lia.
Qed.

End Intersect.

(** * Concrete intersections *)

#[local] Instance literal_globs : GlobLib := {|
  glob_build := λ pattern _ _, Ok (λ cand, bool_decide (cand = utf8 pattern));
|}.

Definition requested_perms : FileSystemPermissions :=
  mkFsPerms [new_entry (Path (uri "file:///data")) Write; new_entry (Path (uri "file:///data/keys")) Deny] None.
Definition granted_perms : FileSystemPermissions :=
  mkFsPerms [new_entry (Path (uri "file:///data")) Write; new_entry (Path (uri "file:///data/keys/pub")) Read;
             new_entry (Path (uri "file:///etc")) Read] None.

(** The entries of an intersection, for evaluation. *)
Definition intersection_entries (r g : FileSystemPermissions) : list FileSystemSandboxEntry :=
  match intersect_file_system r (Some g) (workspace_ctx []) with
  | Some f => perm_entries f
  | None => []
  end.

Lemma intersection_respects_denials_witness :
  ∃ f, intersect_file_system requested_perms (Some granted_perms) (workspace_ctx []) = Some f ∧
    resolve_access (uri "file:///data/keys/pub/a") (workspace_ctx []) (restricted (perm_entries f)) = Deny.
Proof.
  destruct (intersect_file_system requested_perms (Some granted_perms) (workspace_ctx [])) as [f|] eqn:E.
  - exists f. split; [reflexivity|].
    apply (intersection_respects_denials requested_perms (Some granted_perms) (workspace_ctx []) f
             (perm_entries requested_perms) (uri "file:///data/keys") (uri "file:///data/keys/pub/a")
             [lit "data"; lit "keys"] [lit "data"; lit "keys"; lit "pub"; lit "a"] [lit "ws"]);
      [vm_compute; reflexivity|exact E|reflexivity| |vm_compute; reflexivity..].
    apply (bool_decide_unpack _). vm_compute. exact I.
  - exfalso. assert (Hx : bool_decide (is_Some (intersect_file_system requested_perms (Some granted_perms)
      (workspace_ctx []))) = true) by (vm_compute; reflexivity).
    rewrite E in Hx. apply bool_decide_eq_true in Hx as [? Hx]. discriminate Hx.
Defined.


Definition carved_request : FileSystemPermissions :=
  mkFsPerms [new_entry (Path (uri "file:///data")) Write; new_entry (Path (uri "file:///data/ro")) Read] None.
Definition broad_grant : FileSystemPermissions :=
  mkFsPerms [new_entry (Path (uri "file:///data")) Write] None.

(** An intersection can exceed the request: a request for write access to a directory
    with a read-only part, met by a grant for the whole directory, intersects to write
    access for that part too. Only denials of the request are carried over. *)
Theorem intersection_forgets_read_only_parts :
  let result := restricted (intersection_entries carved_request broad_grant) in
  resolve_access (uri "file:///data/ro/f") (workspace_ctx []) (restricted (perm_entries carved_request)) = Read ∧
  resolve_access (uri "file:///data/ro/f") (workspace_ctx []) result = Write.
Proof. split; vm_compute; reflexivity. Qed.
