(* ===== verification/ShellSyntax.v ===== *)
(** Shells and their scripts: [shell_detect.rs] (the kind of a shell from its path) and
    [bash.rs] (the commands of a script) of [codex-shell-command].

    A syntax tree of tree-sitter is a value of [Node]; the parser itself is the class
    [BashParser]. Paths are those of a Unix host. *)
From stdpp Require Import base list numbers strings.
From S2P Require Import Prelude RustStr.

(** * Syntax trees *)

(** [tree_sitter::Node]: kind, whether it is named, its byte range and its children. *)
Inductive Node : Type :=
| mkNode (node_kind : str) (named : bool) (start stop : N) (kids : list Node).

Definition node_kind (n : Node) : str := let 'mkNode k _ _ _ _ := n in k.
Definition is_named (n : Node) : bool := let 'mkNode _ b _ _ _ := n in b.
Definition start_byte (n : Node) : N := let 'mkNode _ _ a _ _ := n in a.
Definition end_byte (n : Node) : N := let 'mkNode _ _ _ b _ := n in b.
Definition children (n : Node) : list Node := let 'mkNode _ _ _ _ l := n in l.
Definition named_children (n : Node) : list Node := filter is_named (children n).

Definition has_kind (k : string) (n : Node) : bool := bool_decide (node_kind n = lit k).
Definition kind_in (ks : list string) (n : Node) : bool := existsb (λ k, has_kind k n) ks.

(** The bytes [a..b] of a source, when they are whole characters. *)
Definition byte_slice (src : str) (a b : N) : option str :=
  '(_, rest) ← split_at_byte src a;
  '(text, _) ← split_at_byte rest (b - a);
  Some text.

(** [utf8_text]. *)
Definition utf8_text (src : str) (n : Node) : option str := byte_slice src (start_byte n) (end_byte n).

Record Tree : Type := mkTree { root_node : Node; has_error : bool }.

(** * Walking a tree with an explicit stack

    The loops [while let Some(node) = stack.pop()] of the sources: a visit returns from the
    function, goes on with the children pushed, or goes on without them. *)
Inductive Visit (S R : Type) : Type :=
| Return (r : R)
| Push (s : S)
| Leave (s : S).
Arguments Return {S R} r.
Arguments Push {S R} s.
Arguments Leave {S R} s.

Fixpoint node_size (n : Node) : nat :=
  let 'mkNode _ _ _ _ kids := n in S (sum_list_with node_size kids).

Section Walk.
Context {S R : Type} (visit : S → Node → Visit S R) (pushed : Node → list Node).

(** [pushed] lists the pushed children, the last one pushed first. *)
Fixpoint walk (fuel : nat) (s : S) (stack : list Node) : option (R + S) :=
  match stack with
  | [] => Some (inr s)
  | n :: stack =>
      match fuel with
      | 0 => None
      | Datatypes.S fuel =>
          match visit s n with
          | Return r => Some (inl r)
          | Push s => walk fuel s (pushed n ++ stack)
          | Leave s => walk fuel s stack
          end
      end
  end.

(** A node is visited at most once. *)
Definition walk_tree (s : S) (root : Node) : option (R + S) := walk (node_size root) s [root].
End Walk.

(** * The kind of a shell *)

Inductive ShellType : Type := Zsh | Bash | PowerShell | Sh | Cmd.
#[export] Instance ShellType_eq_dec : EqDecision ShellType.
Proof. solve_decision. Defined.

Definition SLASH : char := 47%N.
Definition DOT : char := 46%N.

(** [std::path::Component] and [Path::components] on Unix. *)
Inductive Component : Type := RootDir | CurDir | ParentDir | Normal (name : str).
#[export] Instance Component_eq_dec : EqDecision Component.
Proof. solve_decision. Defined.

Definition component (s : str) : list Component :=
  if is_empty s || bool_decide (s = [DOT]) then []
  else if bool_decide (s = [DOT; DOT]) then [ParentDir] else [Normal s].

Definition components (path : str) : list Component :=
  let segments := split_char SLASH path in
  (if starts_with path [SLASH] then [RootDir]
   else if bool_decide (head segments = Some [DOT]) then [CurDir] else [])
  ++ concat (component <$> segments).

Definition path_eqb (p q : str) : bool := bool_decide (components p = components q).

Definition file_name (path : str) : option str :=
  match last (components path) with
  | Some (Normal name) => Some name
  | _ => None
  end.

Definition file_stem (path : str) : option str :=
  name ← file_name path;
  match rsplit_once name DOT with
  | Some (before, _) => Some (if is_empty before then name else before)
  | None => Some name
  end.

Definition shell_of_name (name : str) : option ShellType :=
  if bool_decide (name = lit "zsh") then Some Zsh
  else if bool_decide (name = lit "sh") then Some Sh
  else if bool_decide (name = lit "cmd") then Some Cmd
  else if bool_decide (name = lit "bash") then Some Bash
  else if bool_decide (name = lit "pwsh") then Some PowerShell
  else if bool_decide (name = lit "powershell") then Some PowerShell
  else None.

(** The recursion ends because a stem that is another path is shorter. *)
Fixpoint detect_shell_loop (fuel : nat) (path : str) : option ShellType :=
  match shell_of_name path with
  | Some t => Some t
  | None =>
      match file_stem path, fuel with
      | Some name, S fuel => if path_eqb name path then None else detect_shell_loop fuel name
      | _, _ => None
      end
  end.
Definition detect_shell_type (path : str) : option ShellType := detect_shell_loop (length path) path.

(** * The commands of a script ([bash.rs]) *)

(** [try_parse_shell]: the Bash grammar of tree-sitter. *)
Class BashParser : Type := try_parse_shell : str → option Tree.

Definition ALLOWED_KINDS : list string :=
  ["program"; "list"; "pipeline"; "command"; "command_name"; "word"; "string"; "string_content";
   "raw_string"; "number"; "concatenation"].
Definition ALLOWED_PUNCT_TOKENS : list str :=
  [lit "&&"; lit "||"; lit ";"; lit "|"; [34%N]; [39%N]].

Definition QUOTE : char := 34%N.
Definition BACKSLASH : char := 92%N.
Definition BACKTICK : char := 96%N.

(** Characters that make a word more than its spelling. *)
Definition EXPANSION_CHARS : str := lit "{}*?[]\~^#$`".

Definition is_literal_text (word : str) : bool :=
  negb (starts_with word (lit "=")) && negb (existsb (contains_char EXPANSION_CHARS) word).

Definition is_literal_word_or_number (src : str) (n : Node) : bool :=
  kind_in ["word"; "number"] n && is_empty (named_children n)
  && match utf8_text src n with
     | Some word => is_literal_text word
     | None => false
     end.

(** [windows(2)] of the bytes; the characters looked for are single bytes. *)
Fixpoint has_escape (s : str) : bool :=
  match s with
  | c :: (d :: _) as s' =>
      ((c =? BACKSLASH)%N && contains_char [36; BACKTICK; QUOTE; BACKSLASH; LF]%N d) || has_escape s'
  | _ => false
  end.

Definition unquote (quote : char) (raw : str) : option str :=
  text ← strip_prefix raw [quote];
  strip_suffix text [quote].

Definition parse_double_quoted_string (src : str) (n : Node) : option str :=
  if negb (has_kind "string" n) then None
  else if negb (forallb (has_kind "string_content") (named_children n)) then None
  else raw ← utf8_text src n;
       stripped ← unquote QUOTE raw;
       if has_escape stripped then None else Some stripped.

Definition parse_raw_string (src : str) (n : Node) : option str :=
  if negb (has_kind "raw_string" n) then None
  else raw ← utf8_text src n; unquote 39%N raw.

(** A part of a concatenated argument. *)
Definition plain_part (src : str) (n : Node) : option str :=
  if kind_in ["word"; "number"] n then utf8_text src n
  else if has_kind "string" n then parse_double_quoted_string src n
  else if has_kind "raw_string" n then parse_raw_string src n
  else None.

Definition nonempty_word (s : str) : option str := if is_empty s then None else Some s.

(** The word of one child of a command. *)
Definition plain_word (src : str) (n : Node) : option str :=
  if has_kind "command_name" n then
    word_node ← head (named_children n);
    if has_kind "word" word_node then utf8_text src word_node else None
  else if has_kind "concatenation" n then
    parts ← mapM (plain_part src) (named_children n);
    nonempty_word (concat parts)
  else plain_part src n.

Definition parse_plain_command_from_node (src : str) (cmd : Node) : option (list str) :=
  if negb (has_kind "command" cmd) then None else mapM (plain_word src) (named_children cmd).

(** The checks on one node of a sequence of plain commands. *)
Definition check_word_only (src : str) (commands : list Node) (n : Node) : Visit (list Node) unit :=
  if is_named n then
    if negb (kind_in ALLOWED_KINDS n) then Return tt
    else if kind_in ["word"; "number"] n && negb (is_literal_word_or_number src n) then Return tt
    else Push (if has_kind "command" n then commands ++ [n] else commands)
  else
    let k := node_kind n in
    let allowed := bool_decide (k ∈ ALLOWED_PUNCT_TOKENS) in
    if existsb (contains_char (lit "&;|")) k && negb allowed then Return tt
    else if negb (allowed || is_empty (trim k)) then Return tt
    else Push commands.

(** [sort_by_key(Node::start_byte)], stable. *)
Fixpoint insert_node (n : Node) (l : list Node) : list Node :=
  match l with
  | [] => [n]
  | m :: l' => if (start_byte n <=? start_byte m)%N then n :: l else m :: insert_node n l'
  end.
Definition sort_nodes (l : list Node) : list Node := foldr insert_node [] l.

Definition try_parse_word_only_commands_sequence (tree : Tree) (src : str) : option (list (list str)) :=
  if has_error tree then None
  else match walk_tree (check_word_only src) (λ n, reverse (children n)) [] (root_node tree) with
       | Some (inr commands) => mapM (parse_plain_command_from_node src) (sort_nodes commands)
       | _ => None
       end.

(** A word whose value is known, nested concatenations included. *)
Fixpoint parse_literal_shell_word (src : str) (n : Node) : option str :=
  let 'mkNode _ _ _ _ kids := n in
  let fix parts (l : list Node) : option str :=
    match l with
    | [] => Some []
    | p :: l =>
        if is_named p then
          w ← parse_literal_shell_word src p;
          rest ← parts l;
          Some (w ++ rest)
        else parts l
    end in
  if kind_in ["word"; "number"] n then
    (if is_literal_word_or_number src n then utf8_text src n else None)
  else if has_kind "string" n then parse_double_quoted_string src n
  else if has_kind "raw_string" n then parse_raw_string src n
  else if has_kind "concatenation" n then text ← parts kids; nonempty_word text
  else None.

(** The loop over the children of a command; [None] is a return without a command. *)
Fixpoint literal_words (src : str) (words : list str) (found : bool) (kids : list Node)
    : option (list str * bool) :=
  match kids with
  | [] => Some (words, found)
  | child :: kids =>
      if has_kind "command_name" child then
        name_node ← head (named_children child);
        name ← parse_literal_shell_word src name_node;
        literal_words src (words ++ [name]) true kids
      else if found then
        match parse_literal_shell_word src child with
        | Some word => literal_words src (words ++ [word]) found kids
        | None => literal_words src words found kids
        end
      else literal_words src words found kids
  end.

Definition parse_literal_command_from_node (src : str) (cmd : Node) : option (list str) :=
  if negb (has_kind "command" cmd) then None
  else match literal_words src [] false (named_children cmd) with
       | Some (words, true) => Some words
       | _ => None
       end.

Definition collect_literal (src : str) (commands : list (list str)) (n : Node)
    : Visit (list (list str)) unit :=
  Push (match parse_literal_command_from_node src n with
        | Some command => commands ++ [command]
        | None => commands
        end).

Section Scripts.
Context `{BashParser}.

Definition parse_shell_script_into_commands (script : str) : option (list (list str)) :=
  tree ← try_parse_shell script;
  try_parse_word_only_commands_sequence tree script.

Definition extract_bash_command (command : list str) : option (str * str) :=
  match command with
  | [shell; flag; script] =>
      if negb (bool_decide (flag ∈ [lit "-lc"; lit "-c"]))
         || negb (bool_decide (detect_shell_type shell ∈ [Some Zsh; Some Bash; Some Sh]))
      then None else Some (shell, script)
  | _ => None
  end.

Definition parse_shell_lc_plain_commands (command : list str) : option (list (list str)) :=
  '(_, script) ← extract_bash_command command;
  parse_shell_script_into_commands script.

Definition parse_shell_lc_literal_commands (command : list str) : option (list (list str)) :=
  '(_, script) ← extract_bash_command command;
  tree ← try_parse_shell script;
  if has_error tree then None
  else match walk_tree (collect_literal script) (λ n, reverse (named_children n)) [] (root_node tree) with
       | Some (inr commands) => Some commands
       | _ => None
       end.
End Scripts.
