(* ===== verification/PowerShellSyntax.v ===== *)
(** PowerShell invocations and scripts: [powershell.rs] and
    [command_safety/powershell_tree_sitter.rs] of [codex-shell-command].

    A literal script is lowered to the words of its commands; everything else fails. The
    PowerShell grammar of tree-sitter is the class [PowerShellParser]. *)
From stdpp Require Import base list numbers strings.
From S2P Require Import Prelude RustStr ShellSyntax.

(** * Lowering a script *)

(** The error messages. *)
Inductive LowerError : Type :=
| UnicodeSyntaxAlias
| NoTree
| TreeHasErrors
| RequiresDirective
| UnrecognizedNode (kind : str)
| NoCommandNodes
| CommandNotUtf8
| SourceOutsideCommands
| UsingDeclaration
| EmptyLoweredWord
| AdjacentElements
| EmptyWord
| NoWords
| UnterminatedSingleQuote
| ExpandableString
| TrailingEscape
| VersionDependentEscape
| UnicodeEscape
| UnterminatedDoubleQuote
| StructuralBareCharacter (c : char)
| EmptyBareWord
| AttachedParameterValue
| NonCanonicalNumber.

(** [tree_sitter_powershell]. *)
Class PowerShellParser : Type := parse_powershell : str → option Tree.

Definition SINGLE_QUOTE : char := 39%N.
Definition HASH : char := 35%N.

(** Typographic quotes and dashes. *)
Definition UNICODE_ALIASES : list char := [8216; 8217; 8220; 8221; 8211; 8212; 8213]%N.

Definition is_rejected_bare_character (c : char) : bool :=
  contains_char (lit "$@'(){}[];|&><,") c || (c =? QUOTE)%N.

Definition is_inline_parameter_token_separator (c : char) : bool :=
  is_whitespace c || contains_char (lit "|&;#><(){}") c.

Definition is_rejected_inline_parameter_character (c : char) : bool :=
  is_whitespace c || is_rejected_bare_character c || (c =? BACKTICK)%N || (c =? HASH)%N.

(** [push_inline_parameter_equals] on one token: the position of the [=] to mask, in
    characters from the start of the token. *)
Definition inline_parameter_equals (token : str) : option nat :=
  if starts_with token (lit "--") && forallb (λ c, negb (is_rejected_inline_parameter_character c)) token then
    match find token (lit "=") with
    | Some i => if (2 <? i) && (i + 1 <? length token) then Some i else None
    | None => None
    end
  else None.

Definition mask_token (token : str) : str :=
  match inline_parameter_equals token with
  | Some i => <[i := 32%N]> token
  | None => token
  end.

(** [inline_double_dash_parameter_equals] and the loop that masks its positions: the tokens
    between separators, with the [=] of a literal [--flag=value] replaced by a space. The
    replacement is one byte for one byte, so that ranges stay valid. *)
Fixpoint mask_equals (token script : str) : str :=
  match script with
  | [] => mask_token token
  | c :: script =>
      if is_inline_parameter_token_separator c then mask_token token ++ c :: mask_equals [] script
      else mask_equals (token ++ [c]) script
  end.
Definition masked_source (script : str) : str := mask_equals [] script.

(** ** The syntax tree *)

Definition ALLOWED_NAMED_KINDS : list string :=
  ["program"; "statement_list"; "pipeline"; "pipeline_chain"; "pipeline_chain_tail"; "command";
   "command_name"; "command_elements"; "command_argument_sep"; "command_parameter"; "generic_token";
   "array_literal_expression"; "unary_expression"; "string_literal"; "verbatim_string_characters";
   "expandable_string_literal"; "integer_literal"; "decimal_integer_literal"; "comment";
   "empty_statement"; "expression_with_unary_operator"].

Definition is_allowed_named_kind (n : Node) : bool := kind_in ALLOWED_NAMED_KINDS n.

Definition last_first (n : Node) : list Node := reverse (named_children n).

Definition is_requires_comment (script : str) (n : Node) : bool :=
  has_kind "comment" n
  && match utf8_text script n with
     | Some comment => starts_with (to_ascii_lowercase (trim_start comment)) (lit "#requires")
     | None => false
     end.

Definition has_requires_directive (script : str) (root : Node) : bool :=
  match walk_tree (λ (_ : unit) n, if is_requires_comment script n then Return tt else Push tt)
          last_first tt root with
  | Some (inr _) => false
  | _ => true
  end.

Definition first_unrecognized_named_kind (root : Node) : option str :=
  match walk_tree (λ (_ : unit) n,
            if is_named n && negb (is_allowed_named_kind n) then Return (node_kind n) else Push tt)
          last_first tt root with
  | Some (inl kind) => Some kind
  | _ => None
  end.

(** Here the children are pushed so that the first one is visited first. *)
Definition collect_command_nodes (root : Node) : list Node :=
  match walk_tree (R := unit) (λ commands n,
            if has_kind "command" n then Leave (commands ++ [n]) else Push commands)
          named_children [] root with
  | Some (inr commands) => commands
  | _ => []
  end.

(** ** The source outside the commands *)

(** The text up to and including the first occurrence of a pattern, and what follows. *)
Definition split_after (s pat : str) : option (str * str) :=
  match find s pat with
  | Some i => Some (take (i + length pat) s, drop (i + length pat) s)
  | None => None
  end.

(** [script[next..].find(['\r', '\n'])]: the rest of the line and what follows it. *)
Fixpoint split_line (s : str) : str * str :=
  match s with
  | [] => ([], [])
  | c :: s' =>
      if (c =? LF)%N || (c =? CR)%N then ([], s)
      else let (line, rest) := split_line s' in (c :: line, rest)
  end.

(** The variables of [source_is_covered_by_commands]: [scan_rest] is the source from byte
    [scan_index] on, [scan_prev] the character before it, and [scan_ranges] the command ranges
    not passed yet. *)
Record Scan : Type := mkScan {
  scan_prev : option char;
  scan_index : N;
  scan_rest : str;
  scan_ranges : list (N * N);
  can_chain : bool;
  needs_command : bool;
  paren_depth : nat;
}.

Definition advance (text after : str) (c : Scan) : Scan :=
  mkScan (match last text with Some d => Some d | None => scan_prev c end)
    (scan_index c + byte_len text)%N after (scan_ranges c) (can_chain c) (needs_command c) (paren_depth c).
Definition set_flags (chain needs : bool) (c : Scan) : Scan :=
  mkScan (scan_prev c) (scan_index c) (scan_rest c) (scan_ranges c) chain needs (paren_depth c).
Definition set_depth (d : nat) (c : Scan) : Scan :=
  mkScan (scan_prev c) (scan_index c) (scan_rest c) (scan_ranges c) (can_chain c) (needs_command c) d.

Definition after_boundary (c : Scan) : bool :=
  match scan_prev c with
  | None => true
  | Some d => is_whitespace d || (d =? 59)%N
  end.

(** A character outside the commands; [None] is a return of [false]. *)
Definition scan_separator (ch : char) (tail : str) (c : Scan) : option Scan :=
  let past := advance [ch] tail c in
  if (ch =? CR)%N || (ch =? LF)%N then Some (set_flags false (needs_command c) past)
  else if is_whitespace ch then Some past
  else if (ch =? 59)%N then (if needs_command c then None else Some (set_flags false (needs_command c) past))
  else if (ch =? 40)%N && negb (can_chain c) then Some (set_depth (S (paren_depth c)) past)
  else if (ch =? 41)%N && (0 <? paren_depth c) && negb (needs_command c)
  then Some (set_depth (paren_depth c - 1) past)
  else if (ch =? 124)%N && can_chain c then
    match tail with
    | 124%N :: tail' => Some (set_flags false true (advance [ch; 124%N] tail' c))
    | _ => Some (set_flags false true past)
    end
  else if (ch =? 38)%N && can_chain c && starts_with tail [38%N] then
    Some (set_flags false true (advance [ch; 38%N] (drop 1 tail) c))
  else if (ch =? HASH)%N && negb (needs_command c) then
    if negb (after_boundary c) then None
    else let (line, after) := split_line tail in Some (advance (ch :: line) after c)
  else if (ch =? 60)%N && starts_with tail [HASH] && negb (needs_command c) && after_boundary c then
    '(text, after) ← split_after tail (lit "#>");
    Some (advance (ch :: text) after c)
  else None.

Definition scan_step (ch : char) (tail : str) (c : Scan) : option Scan :=
  match scan_ranges c with
  | (start, stop) :: ranges =>
      if (scan_index c =? start)%N then
        '(text, after) ← split_at_byte (scan_rest c) (stop - start);
        Some (mkScan (match last text with Some d => Some d | None => scan_prev c end) stop after ranges
                true false (paren_depth c))
      else scan_separator ch tail c
  | [] => scan_separator ch tail c
  end.

(** Every iteration consumes a character or a range. *)
Fixpoint scan_loop (fuel : nat) (c : Scan) : bool :=
  match scan_rest c with
  | [] => is_empty (scan_ranges c) && negb (needs_command c) && (paren_depth c =? 0)
  | ch :: tail =>
      match fuel with
      | 0 => false
      | S fuel =>
          match scan_step ch tail c with
          | Some c' => scan_loop fuel c'
          | None => false
          end
      end
  end.

Definition source_is_covered_by_commands (script : str) (ranges : list (N * N)) : bool :=
  scan_loop (length script + length ranges) (mkScan None 0 script ranges false false 0).

(** ** The words of a command *)

Definition decode_backtick_escape (c : char) : char :=
  match c with
  | 48 => 0 | 97 => 7 | 98 => 8 | 102 => 12 | 110 => 10 | 114 => 13 | 116 => 9 | 118 => 11
  | other => other
  end%N.

(** Parsing from behind the opening quote: the value and the rest behind the closing one. *)
Fixpoint parse_single_quoted (chars value : str) : Result (str * str) LowerError :=
  match chars with
  | [] => Err UnterminatedSingleQuote
  | c :: chars' =>
      if (c =? SINGLE_QUOTE)%N then
        match chars' with
        | d :: chars'' =>
            if (d =? SINGLE_QUOTE)%N then parse_single_quoted chars'' (value ++ [SINGLE_QUOTE])
            else Ok (value, chars')
        | [] => Ok (value, chars')
        end
      else parse_single_quoted chars' (value ++ [c])
  end.

Fixpoint parse_double_quoted (chars value : str) : Result (str * str) LowerError :=
  match chars with
  | [] => Err UnterminatedDoubleQuote
  | c :: chars' =>
      if (c =? QUOTE)%N then Ok (value, chars')
      else if (c =? 36)%N then Err ExpandableString
      else if (c =? BACKTICK)%N then
        match chars' with
        | [] => Err TrailingEscape
        | escaped :: chars'' =>
            if (escaped =? 101)%N then Err VersionDependentEscape
            else if (escaped =? 117)%N && bool_decide (head chars'' = Some 123%N) then Err UnicodeEscape
            else parse_double_quoted chars'' (value ++ [decode_backtick_escape escaped])
        end
      else parse_double_quoted chars' (value ++ [c])
  end.

(** The end of a bare word: an empty one is an error. *)
Definition bare_word_done (value rest : str) : Result (str * str) LowerError :=
  if is_empty value then Err EmptyBareWord else Ok (value, rest).

Fixpoint parse_bare_word (chars value : str) : Result (str * str) LowerError :=
  match chars with
  | [] => bare_word_done value []
  | c :: chars' =>
      if is_whitespace c then bare_word_done value chars
      else if (c =? BACKTICK)%N then
        match chars' with
        | [] => Err TrailingEscape
        | escaped :: chars'' =>
            if (escaped =? 101)%N then Err VersionDependentEscape
            else parse_bare_word chars'' (value ++ [decode_backtick_escape escaped])
        end
      else if is_rejected_bare_character c then Err (StructuralBareCharacter c)
      else parse_bare_word chars' (value ++ [c])
  end.

Definition reject_unsupported_bare_word (word : str) : Result unit LowerError :=
  if starts_with word (lit "-") && negb (starts_with word (lit "--")) && contains_char word 58%N
  then Err AttachedParameterValue
  else if match word with c :: _ => is_ascii_digit c | [] => false end
          && negb (bool_decide (word = lit "0")
                   || (negb (starts_with word (lit "0")) && forallb is_ascii_digit word))
  then Err NonCanonicalNumber
  else Ok tt.

(** One word that starts at a character that is neither whitespace nor [#]. *)
Definition parse_word (c : char) (tail : str) : Result (str * str) LowerError :=
  if (c =? SINGLE_QUOTE)%N then parse_single_quoted tail []
  else if (c =? QUOTE)%N then parse_double_quoted tail []
  else parse_bare_word (c :: tail) [].

Definition is_bare_start (c : char) : bool := negb ((c =? SINGLE_QUOTE)%N || (c =? QUOTE)%N).

Definition word_ends (rest : str) : bool :=
  match rest with
  | [] => true
  | c :: _ => is_whitespace c || (c =? HASH)%N
  end.

(** Every iteration consumes a character. *)
Fixpoint lower_words (fuel : nat) (chars : str) (words : list str) : Result (list str) LowerError :=
  match trim_start chars with
  | [] => Ok words
  | c :: tail =>
      if (c =? HASH)%N then Ok words
      else match fuel with
           | 0 => Err NoWords
           | S fuel =>
               match parse_word c tail with
               | Err e => Err e
               | Ok (word, rest) =>
                   if negb (word_ends rest) then Err AdjacentElements
                   else if is_empty word then Err EmptyWord
                   else let? _ := if is_bare_start c then reject_unsupported_bare_word word else Ok tt in
                        lower_words fuel rest (words ++ [word])
               end
           end
  end.

Definition lower_command_text (text : str) : Result (list str) LowerError :=
  let chars := trim text in
  let? words := lower_words (length chars) chars [] in
  if is_empty words then Err NoWords else Ok words.

(** The words of the commands, in order; the first failure ends the loop. *)
Fixpoint lower_nodes (script : str) (nodes : list Node) : Result (list (list str)) LowerError :=
  match nodes with
  | [] => Ok []
  | n :: nodes =>
      match utf8_text script n with
      | None => Err CommandNotUtf8
      | Some text =>
          let? words := lower_command_text text in
          let? rest := lower_nodes script nodes in
          Ok (words :: rest)
      end
  end.

Definition is_using (command : list str) : bool :=
  match command with
  | word :: _ => bool_decide (to_ascii_lowercase word = lit "using")
  | [] => false
  end.

(** The part of [lower_with_tree_sitter] behind the parser. *)
Definition lower_tree (script : str) (tree : Tree) : Result (list (list str)) LowerError :=
  let root := root_node tree in
  if has_error tree then Err TreeHasErrors
  else if has_requires_directive script root then Err RequiresDirective
  else match first_unrecognized_named_kind root with
       | Some kind => Err (UnrecognizedNode kind)
       | None =>
           let nodes := collect_command_nodes root in
           if is_empty nodes then Err NoCommandNodes
           else
             let? commands := lower_nodes script nodes in
             if negb (source_is_covered_by_commands script ((λ n, (start_byte n, end_byte n)) <$> nodes))
             then Err SourceOutsideCommands
             else if existsb is_using commands then Err UsingDeclaration
             else if existsb (λ command, is_empty command || existsb is_empty command) commands
             then Err EmptyLoweredWord
             else Ok commands
       end.

(** * Invocations *)

Definition POWERSHELL_FLAGS : list str := [lit "-nologo"; lit "-noprofile"; lit "-command"; lit "-c"].

Definition UTF8_OUTPUT_PREFIX : str :=
  lit "try { [Console]::OutputEncoding=[System.Text.Encoding]::UTF8 } catch {}" ++ [LF].

Definition is_command_flag (flag : str) : bool :=
  bool_decide (to_ascii_lowercase flag ∈ [lit "-command"; lit "-c"]).

(** The loop over the arguments, while another one follows. *)
Fixpoint find_script (args : list str) : option str :=
  match args with
  | flag :: (script :: _) as args' =>
      if negb (bool_decide (to_ascii_lowercase flag ∈ POWERSHELL_FLAGS)) then None
      else if is_command_flag flag then Some script
      else find_script args'
  | _ => None
  end.

Definition extract_powershell_command (command : list str) : option (str * str) :=
  if length command <? 3 then None
  else match command with
       | shell :: args =>
           if negb (bool_decide (detect_shell_type shell = Some PowerShell)) then None
           else pair shell <$> find_script args
       | [] => None
       end.

Definition prefix_powershell_script_with_utf8 (command : list str) : list str :=
  match extract_powershell_command command with
  | None => command
  | Some (_, script) =>
      let script :=
        if starts_with (trim_start script) UTF8_OUTPUT_PREFIX then script else UTF8_OUTPUT_PREFIX ++ script in
      take (length command - 1) command ++ [script]
  end.

Section Lowering.
Context `{PowerShellParser}.

Definition lower_with_tree_sitter (script : str) : Result (list (list str)) LowerError :=
  if existsb (λ c, bool_decide (c ∈ UNICODE_ALIASES)) script then Err UnicodeSyntaxAlias
  else match parse_powershell (masked_source script) with
       | None => Err NoTree
       | Some tree => lower_tree script tree
       end.

Definition try_parse_powershell_commands (script : str) : option (list (list str)) :=
  match lower_with_tree_sitter script with
  | Ok commands => Some commands
  | Err _ => None
  end.

Definition parse_powershell_command_into_plain_commands (command : list str) : option (list (list str)) :=
  '(_, script) ← extract_powershell_command command;
  try_parse_powershell_commands script.

Definition parse_powershell_script_into_plain_commands (script : str) : option (list (list str)) :=
  try_parse_powershell_commands script.
End Lowering.
