(* ===== verification/ShellSyntaxFacts.v ===== *)
(** Facts on shells and scripts: the stack loops of the sources visit every node once, the
    detection of a shell ends, and the plain commands of a script are all of its commands. *)
From stdpp Require Import base list sets numbers strings sorting.
From S2P Require Import Prelude RustStr ShellSyntax.

(** * Trees *)

Lemma Node_nested_ind (P : Node → Prop) :
  (∀ k b s e kids, Forall P kids → P (mkNode k b s e kids)) → ∀ n, P n.
Proof.
  intros H. fix IH 1. intros [k b s e kids]. apply H.
  induction kids as [|n kids IHk]; constructor; [apply IH|apply IHk].
Qed.

(** All nodes below a node, itself included, and those reached through named nodes. *)
Fixpoint all_nodes (n : Node) : list Node :=
  let 'mkNode _ _ _ _ kids := n in n :: concat (all_nodes <$> kids).
Fixpoint named_nodes (n : Node) : list Node :=
  let 'mkNode _ _ _ _ kids := n in
  n :: concat ((λ k, if is_named k then named_nodes k else []) <$> kids).

Lemma all_nodes_eq n : all_nodes n = n :: concat (all_nodes <$> children n).
Proof. by destruct n. Qed.

Lemma concat_filter_named {X} (f : Node → list X) l :
  concat ((λ k, if is_named k then f k else []) <$> l) = concat (f <$> filter is_named l).
Proof.
  induction l as [|k l IH]; [done|]. csimpl. rewrite filter_cons, IH.
  case_decide as Hk; [by rewrite (Is_true_true_1 _ Hk)|]. by destruct (is_named k).
Qed.

Lemma named_nodes_eq n : named_nodes n = n :: concat (named_nodes <$> named_children n).
Proof. destruct n as [k b s e kids]. simpl. by rewrite concat_filter_named. Qed.

Lemma node_size_eq n : node_size n = S (sum_list_with node_size (children n)).
Proof. by destruct n. Qed.

Lemma sum_list_with_perm {X} (f : X → nat) l k : l ≡ₚ k → sum_list_with f l = sum_list_with f k.
Proof. induction 1; simpl; lia. Qed.

Lemma sum_list_with_filter {X} (f : X → nat) (p : X → bool) l :
  sum_list_with f (filter p l) ≤ sum_list_with f l.
Proof. induction l as [|x l IH]; [done|]. rewrite filter_cons. case_decide; simpl; lia. Qed.

Lemma named_size n : sum_list_with node_size (named_children n) < node_size n.
Proof. rewrite node_size_eq. unfold named_children. pose proof (sum_list_with_filter node_size is_named (children n)). lia. Qed.

Lemma children_size n : sum_list_with node_size (children n) < node_size n.
Proof. rewrite node_size_eq. lia. Qed.

(** * The stack loops *)

Section Walk.
Context {S R : Type} (visit : S → Node → Visit S R) (pushed : Node → list Node).
Hypothesis pushed_size : ∀ n, sum_list_with node_size (pushed n) < node_size n.

(** A loop that only pushes: [check] decides whether it goes on, [step] updates the state.
    It visits the nodes below the stack in some order, all of them when no check fails. *)
Section Pushing.
Context (check : Node → bool) (step : S → Node → S) (result : Node → R) (subs : Node → list Node).
Hypothesis visit_eq : ∀ s n, visit s n = if check n then Push (step s n) else Return (result n).
Hypothesis subs_eq : ∀ n, subs n ≡ₚ n :: concat (subs <$> pushed n).

Lemma walk_pushes fuel s stack :
  sum_list_with node_size stack ≤ fuel →
  if forallb check (concat (subs <$> stack))
  then ∃ order, order ≡ₚ concat (subs <$> stack) ∧ walk visit pushed fuel s stack = Some (inr (foldl step s order))
  else ∃ n, n ∈ concat (subs <$> stack) ∧ check n = false ∧ walk visit pushed fuel s stack = Some (inl (result n)).
Proof.
  revert s stack. induction fuel as [|fuel IH]; intros s [|n stack] Hf; csimpl.
  1,3: by exists [].
  { pose proof (node_size_eq n). simpl in Hf. lia. }
  rewrite visit_eq. simpl in Hf.
  assert (Hperm : subs n ++ concat (subs <$> stack) ≡ₚ n :: concat (subs <$> pushed n ++ stack)).
  { by rewrite subs_eq, fmap_app, concat_app. }
  assert (Hall : forallb check (subs n ++ concat (subs <$> stack)) =
    check n && forallb check (concat (subs <$> pushed n ++ stack))).
  { change (check n && _) with (forallb check (n :: concat (subs <$> pushed n ++ stack))).
    apply eq_bool_prop_intro. rewrite !forallb_True. by rewrite Hperm. }
  rewrite Hall. destruct (check n) eqn:Hc; simpl.
  - specialize (IH (step s n) (pushed n ++ stack)).
    rewrite sum_list_with_app in IH. specialize (IH ltac:(pose proof (pushed_size n); lia)).
    destruct (forallb check (concat (subs <$> pushed n ++ stack))).
    + destruct IH as (order & Ho & ->). exists (n :: order). split; [|done]. by rewrite Ho, Hperm.
    + destruct IH as (m & Hm & Hcm & ->). exists m. split; [|done]. rewrite Hperm. by right.
  - exists n. split; [|done]. rewrite Hperm. by left.
Qed.

Lemma walk_tree_pushes s root :
  if forallb check (subs root)
  then ∃ order, order ≡ₚ subs root ∧ walk_tree visit pushed s root = Some (inr (foldl step s order))
  else ∃ n, n ∈ subs root ∧ check n = false ∧ walk_tree visit pushed s root = Some (inl (result n)).
Proof.
  pose proof (walk_pushes (node_size root) s [root]) as H. csimpl in H. rewrite app_nil_r in H.
  apply H. lia.
Qed.
End Pushing.

(** A loop that collects the nodes of a kind without descending into them. *)
Lemma walk_collects (stop : Node → bool) (top : Node → list Node) (add : S → Node → S) :
  (∀ s n, visit s n = if stop n then Leave (add s n) else Push s) →
  (∀ n, top n = if stop n then [n] else concat (top <$> pushed n)) →
  ∀ fuel s stack, sum_list_with node_size stack ≤ fuel →
    walk visit pushed fuel s stack = Some (inr (foldl add s (concat (top <$> stack)))).
Proof.
  intros Hvisit Htop. induction fuel as [|fuel IH]; intros s [|n stack] Hf; try done.
  { pose proof (node_size_eq n). simpl in Hf. lia. }
  csimpl. rewrite Hvisit, Htop. simpl in Hf. destruct (stop n).
  - rewrite IH by (pose proof (node_size_eq n); lia). done.
  - rewrite IH; [by rewrite fmap_app, concat_app|].
    rewrite sum_list_with_app. pose proof (pushed_size n). lia.
Qed.
End Walk.

Lemma foldl_append {X Y} (f : X → list Y) l acc : foldl (λ s x, s ++ f x) acc l = acc ++ concat (f <$> l).
Proof.
  revert acc. induction l as [|x l IH]; intros acc; csimpl; [by rewrite app_nil_r|].
  by rewrite IH, app_assoc.
Qed.

Lemma concat_fmap_filter {X} (p : X → bool) (l : list X) :
  concat ((λ x, if p x then [x] else []) <$> l) = filter p l.
Proof.
  induction l as [|x l IH]; [done|]. csimpl. rewrite filter_cons, IH.
  case_decide as Hp; [by rewrite (Is_true_true_1 _ Hp)|]. by destruct (p x).
Qed.

Lemma elem_of_concat {X} (x : X) ls : x ∈ concat ls ↔ ∃ l, l ∈ ls ∧ x ∈ l.
Proof. rewrite list_elem_of_In, in_concat. by setoid_rewrite <- list_elem_of_In. Qed.

Lemma concat_fmap_perm {X Y} (f : X → list Y) l k : l ≡ₚ k → concat (f <$> l) ≡ₚ concat (f <$> k).
Proof.
  induction 1; csimpl; [done|by f_equiv| |by etrans].
  by rewrite !(assoc_L (++)), (comm (++) (f y)).
Qed.

Lemma all_nodes_pushed n : all_nodes n ≡ₚ n :: concat (all_nodes <$> reverse (children n)).
Proof. rewrite all_nodes_eq. f_equiv. apply concat_fmap_perm. by rewrite reverse_Permutation. Qed.

Lemma named_nodes_pushed n : named_nodes n ≡ₚ n :: concat (named_nodes <$> reverse (named_children n)).
Proof. rewrite named_nodes_eq. f_equiv. apply concat_fmap_perm. by rewrite reverse_Permutation. Qed.

Lemma reverse_size n l : sum_list_with node_size l < n → sum_list_with node_size (reverse l) < n.
Proof. by rewrite (sum_list_with_perm node_size (reverse l) l) by apply reverse_Permutation. Qed.

(** * Plain commands *)

(** What a node of a sequence of plain commands may be. *)
Definition plain_node (src : str) (n : Node) : bool :=
  if is_named n then
    kind_in ALLOWED_KINDS n && negb (kind_in ["word"; "number"] n && negb (is_literal_word_or_number src n))
  else
    bool_decide (node_kind n ∈ ALLOWED_PUNCT_TOKENS)
    || (negb (existsb (contains_char (lit "&;|")) (node_kind n)) && is_empty (trim (node_kind n))).

Definition is_command_node (n : Node) : bool := is_named n && has_kind "command" n.

Lemma check_word_only_eq src commands n :
  check_word_only src commands n =
  if plain_node src n then Push (commands ++ if is_command_node n then [n] else []) else Return tt.
Proof.
  unfold check_word_only, plain_node, is_command_node. destruct (is_named n); cbn [andb].
  - destruct (kind_in ALLOWED_KINDS n); cbn [andb negb]; [|done].
    destruct (kind_in ["word"; "number"] n && _); cbn [andb negb]; [done|].
    destruct (has_kind "command" n); by rewrite ?app_nil_r.
  - destruct (bool_decide _), (existsb _ _), (is_empty _); simpl; by rewrite ?app_nil_r.
Qed.

Definition start_le (n m : Node) : Prop := (start_byte n <= start_byte m)%N.

Lemma insert_node_perm n l : insert_node n l ≡ₚ n :: l.
Proof.
  induction l as [|m l IH]; [done|]. simpl. case_match; [done|]. rewrite IH. by apply Permutation_swap.
Qed.

Lemma sort_nodes_perm l : sort_nodes l ≡ₚ l.
Proof. induction l as [|n l IH]; [done|]. simpl. by rewrite insert_node_perm, IH. Qed.

Lemma insert_node_sorted n l : StronglySorted start_le l → StronglySorted start_le (insert_node n l).
Proof.
  induction 1 as [|m l Hs IH Hall]; simpl; [repeat constructor|].
  destruct (N.leb_spec (start_byte n) (start_byte m)) as [Hle|Hlt].
  - constructor; [by constructor|]. constructor; [done|].
    eapply Forall_impl; [exact Hall|]. unfold start_le. intros x Hx. lia.
  - constructor; [done|]. rewrite insert_node_perm. constructor; [unfold start_le; lia|done].
Qed.

Lemma sort_nodes_sorted l : StronglySorted start_le (sort_nodes l).
Proof. induction l as [|n l IH]; [constructor|]. by apply insert_node_sorted. Qed.

(** What the splitting returns, in terms of the nodes of the tree. *)
Lemma word_only_eq tree src :
  ∃ nodes, nodes ≡ₚ filter is_command_node (all_nodes (root_node tree)) ∧ StronglySorted start_le nodes ∧
    try_parse_word_only_commands_sequence tree src =
    if negb (has_error tree) && forallb (plain_node src) (all_nodes (root_node tree))
    then mapM (parse_plain_command_from_node src) nodes else None.
Proof.
  unfold try_parse_word_only_commands_sequence.
  pose proof (walk_tree_pushes (check_word_only src) (λ n, reverse (children n))
    (λ n, reverse_size _ _ (children_size n)) (plain_node src)
    (λ s n, s ++ if is_command_node n then [n] else []) (λ _, tt) all_nodes
    (check_word_only_eq src) all_nodes_pushed [] (root_node tree)) as Hw.
  destruct (forallb (plain_node src) (all_nodes (root_node tree))) eqn:Hall.
  - destruct Hw as (order & Ho & ->). rewrite foldl_append, concat_fmap_filter.
    exists (sort_nodes (filter is_command_node order)).
    split; [by rewrite sort_nodes_perm, Ho|]. split; [apply sort_nodes_sorted|]. by destruct (has_error tree).
  - destruct Hw as (n & _ & _ & ->). eexists (sort_nodes _). split; [apply sort_nodes_perm|].
    split; [apply sort_nodes_sorted|]. by destruct (has_error tree).
Qed.


(** * Literal commands *)

Lemma collect_literal_eq src commands n :
  collect_literal src commands n =
  Push (commands ++ option_list (parse_literal_command_from_node src n)).
Proof. unfold collect_literal. by case_match; simpl; rewrite ?app_nil_r. Qed.

(** Every command node reached through named nodes contributes its literal words, however
    deep it is nested in control flow, substitutions or strings. *)
Lemma literal_commands_spec `{BashParser} command shell script tree :
  extract_bash_command command = Some (shell, script) → try_parse_shell script = Some tree →
  has_error tree = false →
  ∃ commands, parse_shell_lc_literal_commands command = Some commands ∧
    ∀ ws, ws ∈ commands ↔ ∃ n, n ∈ named_nodes (root_node tree) ∧ parse_literal_command_from_node script n = Some ws.
Proof.
  intros He Hp Hno. unfold parse_shell_lc_literal_commands. rewrite He. simpl. rewrite Hp. simpl. rewrite Hno.
  pose proof (walk_tree_pushes (collect_literal script) (λ n, reverse (named_children n))
    (λ n, reverse_size _ _ (named_size n)) (λ _, true)
    (λ s n, s ++ option_list (parse_literal_command_from_node script n)) (λ _, tt) named_nodes
    (collect_literal_eq script) named_nodes_pushed [] (root_node tree)) as Hw.
  rewrite (proj2 (forallb_forall _ _)) in Hw by done. destruct Hw as (order & Ho & ->).
  eexists. split; [done|]. rewrite foldl_append. intros ws. simpl.
  rewrite elem_of_concat. setoid_rewrite list_elem_of_fmap. split.
  - intros (l & (n & -> & Hn) & Hl). destruct (parse_literal_command_from_node script n) as [w|] eqn:E; [|by apply elem_of_nil in Hl].
    apply list_elem_of_singleton in Hl as ->. exists n. by rewrite <- Ho.
  - intros (n & Hn & Hws). exists [ws]. split; [|by left]. exists n. rewrite Hws. split; [done|]. by rewrite Ho.
Qed.

(** * Detecting a shell *)

Lemma join_segment sep ls w :
  sep ≠ [] → w ∈ ls → join sep ls = w ∨ length w < length (join sep ls).
Proof.
  intros Hsep. assert (0 < length sep) by (destruct sep; simpl; [done|lia]).
  induction ls as [|l ls IH]; [by intros ?%elem_of_nil|]. intros [->|Hw]%elem_of_cons.
  - destruct ls; simpl; [by left|]. right. rewrite !length_app. lia.
  - destruct ls as [|l' ls]; [by apply elem_of_nil in Hw|]. right.
    change (length w < length (l ++ sep ++ join sep (l' :: ls))). rewrite !length_app.
    destruct (IH Hw) as [<-|]; lia.
Qed.

Lemma component_name s name : Normal name ∈ component s → name = s.
Proof.
  unfold component. repeat case_match; try by intros ?%elem_of_nil.
  all: intros H1%list_elem_of_singleton; by simplify_eq.
Qed.

Lemma file_name_segment path name : file_name path = Some name → name = path ∨ length name < length path.
Proof.
  unfold file_name. destruct (last (components path)) as [[]|] eqn:E; try done. intros [= ->].
  apply last_Some_elem_of in E. unfold components in E.
  apply elem_of_app in E as [E|E].
  { repeat case_match; first [by apply elem_of_nil in E|by apply list_elem_of_singleton in E]. }
  apply elem_of_concat in E as (l & (s & -> & Hs)%list_elem_of_fmap & Hn). apply component_name in Hn as ->.
  destruct (join_segment [SLASH] (split_char SLASH path) s) as [Hj|Hj]; try done; rewrite join_split_char in Hj;
    [by left|by right].
Qed.

Lemma rsplit_once_length s c a b : rsplit_once s c = Some (a, b) → length a < length s.
Proof.
  unfold rsplit_once. destruct (split_once (reverse s) c) as [[x y]|] eqn:E; [|done]. intros [= <- <-].
  rewrite length_reverse, <- (length_reverse s). revert x y E.
  induction (reverse s) as [|d t IH]; intros x y; simpl; [done|].
  case_match; [intros [= <- <-]; lia|].
  destruct (split_once t c) as [[]|]; [|done]. intros [= <- <-]. specialize (IH _ _ eq_refl). lia.
Qed.

(** A stem is shorter than the path it was taken from, or that path. *)
Lemma file_stem_shorter path stem : file_stem path = Some stem → stem = path ∨ length stem < length path.
Proof.
  unfold file_stem. destruct (file_name path) as [name|] eqn:E; [|done]. simpl.
  apply file_name_segment in E. destruct (rsplit_once name DOT) as [[a b]|] eqn:Er; [|by intros [= <-]].
  apply rsplit_once_length in Er. case_match; intros [= <-]; [done|]. right. destruct E as [<-|]; lia.
Qed.

Lemma detect_shell_fuel fuel path :
  length path ≤ fuel → detect_shell_loop fuel path = detect_shell_type path.
Proof.
  unfold detect_shell_type. remember (length path) as m eqn:Hm. revert path Hm fuel.
  induction (lt_wf m) as [m _ IH]. intros path -> fuel Hle.
  destruct fuel as [|fuel], (length path) as [|k] eqn:Hlen; try lia; [done| |].
  - apply nil_length_inv in Hlen as ->. done.
  - simpl. case_match; [done|]. destruct (file_stem path) as [stem|] eqn:Es; [|done].
    case_match eqn:Heq; [done|]. apply file_stem_shorter in Es as [->|Hlt].
    { unfold path_eqb in Heq. by rewrite bool_decide_eq_true_2 in Heq. }
    rewrite (IH (length stem)) by lia. symmetry. apply (IH (length stem)); lia.
Qed.

(** * Example: a tree for [ls -l && pwd] *)

Definition leaf (kind : string) (a b : N) : Node := mkNode (lit kind) true a b [].

Definition sample_script : str := lit "ls -l && pwd".

Definition sample_tree : Tree :=
  mkTree (mkNode (lit "program") true 0 12 [mkNode (lit "list") true 0 12
    [mkNode (lit "command") true 0 5
       [mkNode (lit "command_name") true 0 2 [leaf "word" 0 2]; leaf "word" 3 5];
     mkNode (lit "&&") false 6 8 [];
     mkNode (lit "command") true 9 12 [mkNode (lit "command_name") true 9 12 [leaf "word" 9 12]]]]) false.

