(* ===== verification/DangerousCommand.v ===== *)
(** Commands that must not run without approval: [command_safety/is_dangerous_command.rs]
    and [command_safety/windows_dangerous_commands.rs] of [codex-shell-command].

    The crates [shlex] and [url] and the regular expression for URLs in scripts are the
    class [CommandLibs]. *)
From stdpp Require Import base list numbers strings relations.
From S2P Require Import Prelude RustStr PathConv UrlLib ShellSyntax ShellSyntaxFacts.

Class CommandLibs : Type := {
  (** [shlex::split] and [shlex::try_join]. *)
  shlex_split : str → option (list str);
  shlex_try_join : list str → option str;
  (** The first group of the expression of [looks_like_url], when it matches. *)
  url_in_punctuation : str → option str;
  (** The scheme of a text that [Url::parse] accepts. *)
  url_scheme_of : str → option str;
}.

Inductive DangerousCommandMatch : Type := ForcedRm | Other.
#[export] Instance DangerousCommandMatch_eq_dec : EqDecision DangerousCommandMatch.
Proof. solve_decision. Defined.

(** [DangerousCommandPlatform] has the two constructors of [PathConvention]. *)
Abbreviation DangerousCommandPlatform := PathConvention.

Definition MAX_DANGEROUS_COMMAND_WRAPPER_DEPTH : nat := 8.

(** * Names of executables *)

(** [rsplit(separators).next()], when it is not empty. *)
Definition last_name (f : char → bool) (raw : str) : option str :=
  name ← last (split_by f raw);
  if is_empty name then None else Some name.

(** A drive prefix is dropped. *)
Definition without_drive (name : str) : str :=
  match name with
  | drive :: 58%N :: rest => if is_ascii_alphabetic drive then rest else name
  | _ => name
  end.

Definition EXECUTABLE_SUFFIXES : list str := [lit ".exe"; lit ".cmd"; lit ".bat"; lit ".com"].

Definition executable_name_lookup_key (raw : str) (platform : DangerousCommandPlatform) : option str :=
  match platform with
  | Posix => last_name (is_separator Posix) raw
  | Windows =>
      name ← last_name (is_separator Windows) raw;
      let name := to_ascii_lowercase (without_drive name) in
      match head (omap (strip_suffix name) EXECUTABLE_SUFFIXES) with
      | Some stripped => Some stripped
      | None => if is_empty name then None else Some name
      end
  end.

Definition executable_basename (exe : str) : option str :=
  name ← last_name (is_separator Windows) exe;
  let name := without_drive name in
  if is_empty name then None else Some (to_ascii_lowercase name).

(** * POSIX rules *)

Fixpoint take_before (stop : str) (args : list str) : list str :=
  match args with
  | [] => []
  | a :: args => if bool_decide (a = stop) then [] else a :: take_before stop args
  end.

Definition is_force_option (arg : str) : bool :=
  bool_decide (arg = lit "--force")
  || match strip_prefix arg (lit "-") with
     | Some flags => negb (starts_with flags (lit "-")) && contains_char flags 102%N
     | None => false
     end.

Definition rm_args_include_force_option (args : list str) : bool :=
  existsb is_force_option (take_before (lit "--") args).

(** An argument of [env] in front of the command. *)
Definition is_env_assignment (arg : str) : bool :=
  bool_decide (arg ∈ [lit "-i"; lit "--ignore-environment"])
  || match split_once arg 61%N with
     | Some (name, _) => negb (is_empty name) && negb (starts_with name (lit "-"))
     | None => false
     end.

Fixpoint skip_env_arguments (args : list str) : list str :=
  match args with
  | [] => []
  | a :: args' =>
      if bool_decide (a = lit "--") then args'
      else if is_env_assignment a then skip_env_arguments args' else args
  end.

(** The shell command of a [trap] action. *)
Definition trap_command (args : list str) : option (list str) :=
  let args := match args with
              | a :: args' => if bool_decide (a = lit "--") then args' else args
              | [] => []
              end in
  action ← head args;
  if starts_with action (lit "-") then None else Some [lit "sh"; lit "-c"; action].

(** * Windows rules *)

Section Windows.
Context `{CommandLibs}.

(** [eq_ignore_ascii_case] with a lower-case name. *)
Definition is_name (names : list string) (s : str) : bool :=
  existsb (λ n, eq_ignore_ascii_case s (lit n)) names.
Definition equals_one (names : list string) (s : str) : bool := existsb (λ n, bool_decide (s = lit n)) names.

Definition looks_like_url (token : str) : bool :=
  let lowercase_token := to_ascii_lowercase token in
  let urlish :=
    match find lowercase_token (lit "https://") with
    | Some i => drop i token
    | None =>
        match find lowercase_token (lit "http://") with
        | Some i => drop i token
        | None => token
        end
    end in
  let candidate := default urlish (url_in_punctuation urlish) in
  match url_scheme_of candidate with
  | Some scheme => bool_decide (scheme ∈ [lit "http"; lit "https"])
  | None => false
  end.

Definition args_have_url (args : list str) : bool := existsb looks_like_url args.

Definition is_powershell_executable (exe : str) : bool :=
  match executable_basename exe with
  | Some name => equals_one ["powershell"; "powershell.exe"; "pwsh"; "pwsh.exe"] name
  | None => false
  end.

Definition is_browser_executable (name : str) : bool :=
  equals_one ["chrome"; "chrome.exe"; "msedge"; "msedge.exe"; "firefox"; "firefox.exe"; "iexplore";
              "iexplore.exe"] name.

Definition DELETE_CMDLETS : list string := ["remove-item"; "ri"; "rm"; "del"; "erase"; "rd"; "rmdir"].
(** [; | &], line feed, carriage return, tab. *)
Definition SEG_SEPS : list char := [59; 124; 38; 10; 13; 9]%N.
Definition SOFT_SEPS : list char := lit "{}()[],;".

(** The segments so far: those that are closed and the current one. *)
Definition Segments : Type := list (list str) * list str.

Definition push_trimmed (s : str) (segs : Segments) : Segments :=
  let t := trim s in
  if is_empty t then segs else (segs.1, segs.2 ++ [t]).

Definition close_segment (segs : Segments) : Segments :=
  if is_empty segs.2 then segs else (segs.1 ++ [segs.2], []).

Fixpoint segment_token (cur : str) (tok : str) (segs : Segments) : Segments :=
  match tok with
  | [] => push_trimmed cur segs
  | c :: tok =>
      if bool_decide (c ∈ SEG_SEPS) then segment_token [] tok (close_segment (push_trimmed cur segs))
      else segment_token (cur ++ [c]) tok segs
  end.

Definition command_segments (tokens : list str) : list (list str) :=
  let segs := foldl (λ segs tok, segment_token [] tok segs) ([], []) tokens in
  segs.1 ++ [segs.2].

Definition segment_atoms (seg : list str) : list str :=
  filter (λ a, negb (is_empty a))
    (trim <$> concat (split_by (λ c, bool_decide (c ∈ SOFT_SEPS)) <$> seg)).

Definition is_force_atom (a : str) : bool :=
  eq_ignore_ascii_case a (lit "-force") || bool_decide (to_ascii_lowercase (take 7 a) = lit "-force:").

Definition has_force_delete_cmdlet (tokens : list str) : bool :=
  existsb (λ seg,
    let atoms := segment_atoms seg in
    existsb (is_name DELETE_CMDLETS) atoms && existsb is_force_atom atoms) (command_segments tokens).

Definition trim_quotes (t : str) : str :=
  let trim_matches c s := trim_end_matches (N.eqb c) (trim_start_matches (N.eqb c) s) in
  to_ascii_lowercase (trim_matches 34%N (trim_matches 39%N t)).

Definition is_dangerous_powershell_words (words : list str) : bool :=
  let tokens_lc := trim_quotes <$> words in
  let has_url := args_have_url words in
  (has_url
   && existsb (λ t, equals_one ["start-process"; "start"; "saps"; "invoke-item"; "ii"] t
                    || contains_str t (lit "start-process") || contains_str t (lit "invoke-item")) tokens_lc)
  || (has_url
      && existsb (λ t, contains_str t (lit "shellexecute") || contains_str t (lit "shell.application")) tokens_lc)
  || match tokens_lc with
     | first :: _ =>
         (bool_decide (first = lit "rundll32")
          && existsb (λ t, contains_str t (lit "url.dll,fileprotocolhandler")) tokens_lc && has_url)
         || (bool_decide (first = lit "mshta") && has_url)
         || (is_browser_executable first && has_url)
         || (equals_one ["explorer"; "explorer.exe"] first && has_url)
     | [] => false
     end
  || has_force_delete_cmdlet tokens_lc.

(** The tokens of the script of an invocation. *)
Fixpoint parse_powershell_invocation (args : list str) : option (list str) :=
  match args with
  | [] => None
  | arg :: args' =>
      let lower := to_ascii_lowercase arg in
      if equals_one ["-command"; "/command"; "-c"] lower then
        match args' with
        | [script] => shlex_split script
        | _ => None
        end
      else if starts_with lower (lit "-command:") || starts_with lower (lit "/command:") then
        if negb (is_empty args') then None
        else '(_, script) ← split_once arg 58%N; shlex_split script
      else if starts_with lower (lit "-") then parse_powershell_invocation args'
      else Some args
  end.

Definition is_dangerous_powershell (command : list str) : bool :=
  match command with
  | exe :: rest =>
      is_powershell_executable exe
      && match parse_powershell_invocation rest with
         | Some tokens => is_dangerous_powershell_words tokens
         | None => false
         end
  | [] => false
  end.

(** Splitting at the operators [&], [&&], [|] and [||]. *)
Fixpoint split_operators (cur : str) (token : str) : list str :=
  let flush := if is_empty cur then [] else [cur] in
  match token with
  | [] => flush
  | c :: token' =>
      if (c =? 38)%N || (c =? 124)%N then
        match token' with
        | d :: token'' =>
            if (d =? c)%N then flush ++ [c; d] :: split_operators [] token''
            else flush ++ [c] :: split_operators [] token'
        | [] => flush ++ [[c]]
        end
      else split_operators (cur ++ [c]) token'
  end.
Definition split_embedded_cmd_operators (token : str) : list str :=
  filter (λ s, negb (is_empty (trim s))) (split_operators [] token).

(** [slice::split]. *)
Fixpoint split_list (f : str → bool) (l : list str) : list (list str) :=
  match l with
  | [] => [[]]
  | x :: l =>
      if f x then [] :: split_list f l
      else match split_list f l with
           | [] => [[x]]
           | seg :: segs => (x :: seg) :: segs
           end
  end.

(** The arguments behind [/c]; [None] for an unknown token in front of it. *)
Fixpoint cmd_body (args : list str) : option (list str) :=
  match args with
  | [] => Some []
  | arg :: args =>
      let lower := to_ascii_lowercase arg in
      if equals_one ["/c"; "/r"; "-c"] lower then Some args
      else if starts_with lower (lit "/") then cmd_body args
      else None
  end.

Definition has_flag_cmd (flag : string) (args : list str) : bool := existsb (is_name [flag]) args.

Definition is_dangerous_cmd_segment (segment : list str) : bool :=
  match segment with
  | [] => false
  | cmd :: _ =>
      (is_name ["start"] cmd && args_have_url segment)
      || (is_name ["del"; "erase"] cmd && has_flag_cmd "/f" segment)
      || (is_name ["rd"; "rmdir"] cmd && has_flag_cmd "/s" segment && has_flag_cmd "/q" segment)
  end.

Definition CMD_SEPARATORS : list str := [lit "&"; lit "&&"; lit "|"; lit "||"].

Definition is_dangerous_cmd (command : list str) : bool :=
  match command with
  | [] => false
  | exe :: rest =>
      match executable_basename exe with
      | None => false
      | Some base =>
          if negb (equals_one ["cmd"; "cmd.exe"] base) then false
          else match cmd_body rest with
               | None | Some [] => false
               | Some remaining =>
                   let cmd_tokens :=
                     match remaining with
                     | [only] => default [only] (shlex_split only)
                     | _ => remaining
                     end in
                   let tokens := concat (split_embedded_cmd_operators <$> cmd_tokens) in
                   existsb is_dangerous_cmd_segment
                     (split_list (λ t, bool_decide (t ∈ CMD_SEPARATORS)) tokens)
               end
      end
  end.

Definition is_direct_gui_launch (command : list str) : bool :=
  match command with
  | [] => false
  | exe :: rest =>
      match executable_basename exe with
      | None => false
      | Some base =>
          (equals_one ["explorer"; "explorer.exe"] base && args_have_url rest)
          || (equals_one ["mshta"; "mshta.exe"] base && args_have_url rest)
          || (equals_one ["rundll32"; "rundll32.exe"] base
              && existsb (λ t, contains_str (to_ascii_lowercase t) (lit "url.dll,fileprotocolhandler")) rest
              && args_have_url rest)
          || (is_browser_executable base && args_have_url rest)
      end
  end.

Definition is_dangerous_command_windows (command : list str) : bool :=
  is_dangerous_powershell command || is_dangerous_cmd command || is_direct_gui_launch command.

Definition dangerous_powershell_words_match (command : list str) (platform : DangerousCommandPlatform)
    : option DangerousCommandMatch :=
  match platform with
  | Windows => if is_dangerous_powershell_words command then Some Other else None
  | Posix => None
  end.
End Windows.

(** * The classifier *)

Section Match.
Context `{CommandLibs} `{BashParser}.

(** [dangerous_command_match_for_exec], with the recursive call one wrapper deeper. *)
Definition dangerous_command_match_for_exec (deeper : list str → option DangerousCommandMatch)
    (command : list str) (platform : DangerousCommandPlatform) : option DangerousCommandMatch :=
  match command with
  | [] => None
  | program :: args =>
      match executable_name_lookup_key program platform with
      | None => None
      | Some name =>
          if bool_decide (name = lit "rm") && rm_args_include_force_option args then Some ForcedRm
          else if bool_decide (name = lit "sudo") then deeper args
          else if bool_decide (name = lit "env") then deeper (skip_env_arguments args)
          else if bool_decide (name = lit "trap") then trap_command args ≫= deeper
          else None
      end
  end.

(** [dangerous_command_match_with_depth]; [remaining] is the number of wrappers that may still
    be looked through, 0 when the depth exceeds the maximum. *)
Fixpoint dangerous_command_match_with_depth (remaining : nat) (command : list str)
    (platform : DangerousCommandPlatform) : option DangerousCommandMatch :=
  match remaining with
  | 0 => Some Other
  | S remaining =>
      let deeper c := dangerous_command_match_with_depth remaining c platform in
      match dangerous_command_match_for_exec deeper command platform with
      | Some m => Some m
      | None =>
          match parse_shell_lc_literal_commands command ≫= (λ commands, head (omap deeper commands)) with
          | Some m => Some m
          | None =>
              match platform with
              | Windows => if is_dangerous_command_windows command then Some Other else None
              | Posix => None
              end
          end
      end
  end.

Definition dangerous_command_match_for_platform (command : list str) (platform : DangerousCommandPlatform)
    : option DangerousCommandMatch :=
  dangerous_command_match_with_depth (S MAX_DANGEROUS_COMMAND_WRAPPER_DEPTH) command platform.
End Match.

(** What the classifier of dangerous commands finds: exactly the dangerous commands behind
    wrappers and in scripts, and every nesting that is too deep to look through. *)

Section Facts.
Context `{CommandLibs} `{BashParser}.

(** One wrapper removed: the command that [sudo] or [env] runs, the script of a [trap]
    action, and every literal command of a shell script. *)
Inductive unwraps (platform : DangerousCommandPlatform) : list str → list str → Prop :=
| unwraps_sudo program args :
    executable_name_lookup_key program platform = Some (lit "sudo") →
    unwraps platform (program :: args) args
| unwraps_env program args :
    executable_name_lookup_key program platform = Some (lit "env") →
    unwraps platform (program :: args) (skip_env_arguments args)
| unwraps_trap program args command :
    executable_name_lookup_key program platform = Some (lit "trap") → trap_command args = Some command →
    unwraps platform (program :: args) command
| unwraps_script command commands inner :
    parse_shell_lc_literal_commands command = Some commands → inner ∈ commands →
    unwraps platform command inner.

Definition is_forced_rm (platform : DangerousCommandPlatform) (command : list str) : bool :=
  match command with
  | program :: args =>
      bool_decide (executable_name_lookup_key program platform = Some (lit "rm"))
      && rm_args_include_force_option args
  | [] => false
  end.

(** A command that is dangerous by itself. *)
Definition flagged (platform : DangerousCommandPlatform) (command : list str) : bool :=
  is_forced_rm platform command
  || match platform with
     | Windows => is_dangerous_command_windows command
     | Posix => false
     end.

Lemma head_omap_is_Some {X Y} (f : X → option Y) l : is_Some (head (omap f l)) ↔ ∃ x, x ∈ l ∧ is_Some (f x).
Proof.
  induction l as [|x l IH]; simpl.
  - split; [by intros []|by intros (x & ?%elem_of_nil & _)].
  - destruct (f x) as [y|] eqn:E; simpl; [split; [exists x; split; [left|by rewrite E]|done]|].
    rewrite IH. split; [intros (z & ? & ?); exists z; by split; [right|]|].
    intros (z & [->|?]%elem_of_cons & Hz); [rewrite E in Hz; by destruct Hz|by exists z].
Qed.

Lemma head_omap_Some {X Y} (f : X → option Y) l y : head (omap f l) = Some y → ∃ x, x ∈ l ∧ f x = Some y.
Proof.
  induction l as [|x l IH]; simpl; [done|]. destruct (f x) as [z|] eqn:E; simpl.
  - intros [= ->]. exists x. by split; [left|].
  - intros (x' & ? & ?)%IH. exists x'. by split; [right|].
Qed.

(** The names of the wrappers are different. *)
Lemma exec_match_eq deeper program args platform :
  dangerous_command_match_for_exec deeper (program :: args) platform =
  if is_forced_rm platform (program :: args) then Some ForcedRm
  else if bool_decide (executable_name_lookup_key program platform = Some (lit "sudo")) then deeper args
  else if bool_decide (executable_name_lookup_key program platform = Some (lit "env"))
  then deeper (skip_env_arguments args)
  else if bool_decide (executable_name_lookup_key program platform = Some (lit "trap"))
  then trap_command args ≫= deeper
  else None.
Proof.
  unfold dangerous_command_match_for_exec, is_forced_rm.
  destruct (executable_name_lookup_key program platform) as [name|]; [|done].
  assert (Hs : ∀ s, bool_decide (Some name = Some s) = bool_decide (name = s)).
  { intros s. apply bool_decide_ext. split; congruence. }
  by rewrite !Hs.
Qed.

(** What the command itself and the wrapper it names give. *)
Lemma exec_match_step deeper command platform :
  is_Some (dangerous_command_match_for_exec deeper command platform) →
  is_forced_rm platform command = true ∨ ∃ inner, unwraps platform command inner ∧ is_Some (deeper inner).
Proof.
  destruct command as [|program args]; [by intros []|]. rewrite exec_match_eq.
  destruct (is_forced_rm platform (program :: args)); [by left|]. intros Hs. right.
  repeat case_bool_decide; [eexists; split; [by eapply unwraps_sudo|done]|
    eexists; split; [by eapply unwraps_env|done]| |by destruct Hs].
  destruct (trap_command args) as [c|] eqn:E; [|by destruct Hs]. exists c. split; [by eapply unwraps_trap|done].
Qed.

Lemma wrapper_match deeper program args platform name inner :
  executable_name_lookup_key program platform = Some name → is_Some (deeper inner) →
  (name = lit "sudo" ∧ inner = args) ∨ (name = lit "env" ∧ inner = skip_env_arguments args) ∨
    (name = lit "trap" ∧ trap_command args = Some inner) →
  is_Some (dangerous_command_match_for_exec deeper (program :: args) platform).
Proof.
  intros Hn Hd Hw. unfold dangerous_command_match_for_exec. rewrite Hn.
  destruct Hw as [[-> ->]|[[-> ->]|[-> Ht]]]; [done|done|]. simpl. by rewrite Ht.
Qed.

(** One step of the classifier: the command itself, or a command one wrapper deeper. *)
Lemma match_step remaining command platform :
  is_Some (dangerous_command_match_with_depth (S remaining) command platform) ↔
  flagged platform command = true ∨
  ∃ inner, unwraps platform command inner ∧
    is_Some (dangerous_command_match_with_depth remaining inner platform).
Proof.
  cbn [dangerous_command_match_with_depth]. set (deeper c := dangerous_command_match_with_depth remaining c platform).
  set (script := parse_shell_lc_literal_commands command ≫= _).
  assert (Hscript : is_Some script ↔ ∃ commands inner, parse_shell_lc_literal_commands command = Some commands ∧
    inner ∈ commands ∧ is_Some (deeper inner)).
  { unfold script. destruct (parse_shell_lc_literal_commands command) as [cs|]; simpl.
    - rewrite head_omap_is_Some. split; [intros (c & ? & ?); by exists cs, c|by intros (? & c & [= <-] & ? & ?); exists c].
    - split; [by intros []|by intros (? & ? & ? & _)]. }
  unfold flagged. split.
  - destruct (dangerous_command_match_for_exec deeper command platform) as [m|] eqn:E.
    { intros _. destruct (exec_match_step deeper command platform) as [->|?]; [by rewrite E|by left|by right]. }
    destruct script as [m|] eqn:Es.
    { intros _. right. destruct (proj1 Hscript) as (cs & c & ? & ? & ?); [done|]. exists c.
      split; [by eapply unwraps_script|done]. }
    destruct platform; [by intros []|]. destruct (is_dangerous_command_windows command); [|by intros []].
    left. apply orb_true_r.
  - intros [[Hf|Hw]%orb_true_iff|(inner & Hu & Hd)].
    + destruct command as [|program args]; [done|]. rewrite exec_match_eq. by rewrite Hf.
    + destruct (dangerous_command_match_for_exec _ _ _); [done|]. destruct script; [done|].
      destruct platform; [done|]. by rewrite Hw.
    + assert (is_Some (dangerous_command_match_for_exec deeper command platform) ∨ is_Some script) as [[m ->]|[m ->]].
      { inversion Hu; subst; [left..|right; apply Hscript; by eauto 10];
          eapply wrapper_match; [done|exact Hd|by eauto 10..]. }
      all: by repeat case_match.
Qed.

(** Looking through [remaining] wrappers. *)
Lemma match_within remaining command platform :
  is_Some (dangerous_command_match_with_depth remaining command platform) ↔
  (∃ k inner, k < remaining ∧ nsteps (unwraps platform) k command inner ∧ flagged platform inner = true) ∨
  (∃ inner, nsteps (unwraps platform) remaining command inner).
Proof.
  revert command. induction remaining as [|r IH]; intros command.
  { split; [intros _; right; exists command; constructor|done]. }
  rewrite match_step. setoid_rewrite IH. split.
  - intros [Hf|(inner & Hu & [(k & last & Hk & Hs & Hf)|(last & Hs)])].
    + left. exists 0, command. split; [lia|]. split; [constructor|done].
    + left. exists (S k), last. split; [lia|]. split; [by econstructor|done].
    + right. exists last. by econstructor.
  - intros [(k & last & Hk & Hs & Hf)|(last & Hs)].
    + destruct Hs as [|k c c' last Hu Hs]; [by left|]. right. exists c'. split; [done|]. left.
      exists k, last. split; [lia|done].
    + inversion Hs as [|? ? c' ? Hu Hs']; subst. right. exists c'. split; [done|]. right. by exists last.
Qed.

Lemma nsteps_prefix {A} (R : relation A) k m x y : m ≤ k → nsteps R k x y → ∃ z, nsteps R m x z.
Proof.
  intros Hle Hs. replace k with (m + (k - m)) in Hs by lia. apply nsteps_add_inv in Hs as (z & ? & _). by exists z.
Qed.


(** A match that names a forced [rm] is one. *)
Lemma forced_rm_found remaining command platform :
  dangerous_command_match_with_depth remaining command platform = Some ForcedRm →
  ∃ inner, rtc (unwraps platform) command inner ∧ is_forced_rm platform inner = true.
Proof.
  revert command. induction remaining as [|r IH]; intros command; [done|].
  cbn [dangerous_command_match_with_depth].
  assert (Hdeep : ∀ inner, unwraps platform command inner →
    dangerous_command_match_with_depth r inner platform = Some ForcedRm →
    ∃ last, rtc (unwraps platform) command last ∧ is_forced_rm platform last = true).
  { intros inner Hu (last & ? & ?)%IH. exists last. split; [by eapply rtc_l|done]. }
  destruct (dangerous_command_match_for_exec _ command platform) as [m|] eqn:E.
  - intros [= ->]. destruct command as [|program args]; [done|]. rewrite exec_match_eq in E.
    destruct (is_forced_rm platform (program :: args)) eqn:Ef; [by exists (program :: args); split; [reflexivity|]|].
    repeat case_bool_decide; [by eapply Hdeep; [eapply unwraps_sudo|]|by eapply Hdeep; [eapply unwraps_env|]| |done].
    destruct (trap_command args) as [c|] eqn:Et; [|done]. by eapply Hdeep; [eapply unwraps_trap|].
  - destruct (parse_shell_lc_literal_commands command) as [cs|] eqn:Es; simpl; [|by repeat case_match].
    destruct (head _) as [m|] eqn:Eh; [|by repeat case_match]. intros [= ->].
    apply head_omap_Some in Eh as (c & Hc & Hm). by eapply Hdeep; [eapply unwraps_script|].
Qed.
End Facts.
