(* ===== verification/PowerShellSyntaxFacts.v ===== *)
(** Facts on PowerShell scripts: a script that is lowered consists of the lowered commands
    and separators, and quoting is undone exactly. *)
From stdpp Require Import base list sets numbers strings.
From S2P Require Import Prelude RustStr ShellSyntax PowerShellSyntax.

(** * Quoted words *)

Fixpoint double_quotes (w : str) : str :=
  match w with
  | [] => []
  | c :: w => if (c =? SINGLE_QUOTE)%N then SINGLE_QUOTE :: SINGLE_QUOTE :: double_quotes w else c :: double_quotes w
  end.

(** A word in single quotes, as PowerShell writes it. *)
Definition single_quoted (w : str) : str := SINGLE_QUOTE :: double_quotes w ++ [SINGLE_QUOTE].

Lemma parse_single_quoted_word w v rest :
  head rest ≠ Some SINGLE_QUOTE →
  parse_single_quoted (double_quotes w ++ SINGLE_QUOTE :: rest) v = Ok (v ++ w, rest).
Proof.
  intros Hrest. revert v. induction w as [|c w IH]; intros v; simpl.
  - rewrite app_nil_r. destruct rest as [|d rest]; [done|].
    destruct (N.eqb_spec d SINGLE_QUOTE) as [->|]; [done|done].
  - destruct (N.eqb_spec c SINGLE_QUOTE) as [->|Hc]; simpl.
    + by rewrite IH, <- app_assoc.
    + destruct (N.eqb_spec c SINGLE_QUOTE) as [->|_]; [done|]. by rewrite IH, <- app_assoc.
Qed.

(** The text of a command of quoted words. *)
Definition quoted_command (words : list str) : str := join [32%N] (single_quoted <$> words).

Lemma quoted_cons w words :
  quoted_command (w :: words) =
  SINGLE_QUOTE :: double_quotes w ++ SINGLE_QUOTE :: (if is_empty words then [] else 32%N :: quoted_command words).
Proof.
  unfold quoted_command. destruct words as [|w' words]; csimpl; [done|].
  unfold single_quoted at 1. simpl. by rewrite <- app_assoc.
Qed.

Lemma lower_words_space fuel text words : lower_words fuel (32%N :: text) words = lower_words fuel text words.
Proof. by destruct fuel. Qed.

Lemma lower_words_quoted fuel c tail acc word rest :
  is_whitespace c = false → (c =? HASH)%N = false → is_bare_start c = false →
  parse_word c tail = Ok (word, rest) → word_ends rest = true → word ≠ [] →
  lower_words (S fuel) (c :: tail) acc = lower_words fuel rest (acc ++ [word]).
Proof.
  intros Hc Hh Hb Hp He Hw. cbn [lower_words]. rewrite trim_start_id by done. rewrite Hh, Hp, He, Hb.
  by destruct word.
Qed.

Lemma lower_quoted fuel words acc :
  Forall (λ w, w ≠ []) words → length (quoted_command words) ≤ fuel →
  lower_words fuel (quoted_command words) acc = Ok (acc ++ words).
Proof.
  intros Hne. revert fuel acc. induction Hne as [|w words Hw Hne IH]; intros fuel acc Hf.
  { rewrite app_nil_r. by destruct fuel. }
  rewrite quoted_cons in *. destruct fuel as [|fuel]; [simpl in Hf; lia|].
  set (rest := if is_empty words then [] else 32%N :: quoted_command words) in *.
  rewrite (lower_words_quoted fuel _ _ acc w rest); [|done..| |unfold rest; by case_match|done]; last first.
  { change (parse_word SINGLE_QUOTE ?t) with (parse_single_quoted t []).
    rewrite parse_single_quoted_word; [done|]. unfold rest. by case_match. }
  replace (acc ++ w :: words) with ((acc ++ [w]) ++ words) by (by rewrite <- app_assoc).
  rewrite <- (IH fuel); last first.
  { rewrite length_cons, length_app in Hf. unfold rest in Hf. destruct words; simpl in Hf |- *; lia. }
  unfold rest. destruct words as [|w' words]; [by destruct fuel|]. apply lower_words_space.
Qed.

Lemma quoted_command_last words : words ≠ [] → ∃ t, quoted_command words = t ++ [SINGLE_QUOTE].
Proof.
  induction words as [|w words IH]; intros Hne; [done|]. rewrite quoted_cons. destruct words as [|w' words].
  - by exists (SINGLE_QUOTE :: double_quotes w).
  - destruct IH as [t ->]; [done|]. simpl. exists (SINGLE_QUOTE :: double_quotes w ++ SINGLE_QUOTE :: 32%N :: t).
    simpl. by rewrite <- app_assoc.
Qed.

Lemma quoted_command_trim words : words ≠ [] → trim (quoted_command words) = quoted_command words.
Proof.
  intros Hne. apply trim_id.
  - destruct words as [|w words]; [done|]. by rewrite quoted_cons.
  - destruct (quoted_command_last words Hne) as [t ->]. unfold no_trailing_ws. by rewrite last_snoc.
Qed.

(** Lowering undoes quoting: any words, in single quotes with the quotes inside doubled, are
    lowered to themselves. *)
Lemma lower_quoted_command words :
  words ≠ [] → Forall (λ w, w ≠ []) words → lower_command_text (quoted_command words) = Ok words.
Proof.
  intros Hne Hall. unfold lower_command_text. rewrite quoted_command_trim, lower_quoted by done. simpl.
  by destruct words.
Qed.

(** * The source of a lowered script *)

(** What may stand between the commands: spaces and line ends, [;], parentheses, [|], [||],
    [&&], a comment up to the end of its line, and a block comment. *)
Inductive separator : str → Prop :=
| sep_space c : is_whitespace c = true → separator [c]
| sep_punctuation c : c ∈ [59; 40; 41; 124]%N → separator [c]
| sep_or : separator [124; 124]%N
| sep_and : separator [38; 38]%N
| sep_line_comment line : Forall (λ c, c ≠ LF ∧ c ≠ CR) line → separator (HASH :: line)
| sep_block_comment body text : body = HASH :: text → (∃ t, body = t ++ lit "#>") → separator (60%N :: body).

Inductive Piece : Type :=
| CommandText (text : str)
| Separator (text : str).
Definition piece_text (p : Piece) : str :=
  match p with
  | CommandText t | Separator t => t
  end.
Definition command_texts (ps : list Piece) : list str :=
  omap (λ p, match p with CommandText t => Some t | Separator _ => None end) ps.

(** Pieces from a byte offset on, with the ranges of the commands among them. *)
Inductive laid_out : N → list Piece → list (N * N) → Prop :=
| laid_nil i : laid_out i [] []
| laid_command i t ps rs :
    laid_out (i + byte_len t) ps rs → laid_out i (CommandText t :: ps) ((i, (i + byte_len t)%N) :: rs)
| laid_separator i t ps rs :
    separator t → laid_out (i + byte_len t) ps rs → laid_out i (Separator t :: ps) rs.

Lemma split_line_spec s line rest :
  split_line s = (line, rest) → s = line ++ rest ∧ Forall (λ c, c ≠ LF ∧ c ≠ CR) line.
Proof.
  revert line rest. induction s as [|c s IH]; intros line rest; simpl; [by intros [= <- <-]|].
  destruct (N.eqb_spec c LF); simpl; [by intros [= <- <-]|].
  destruct (N.eqb_spec c CR); simpl; [by intros [= <- <-]|].
  destruct (split_line s) as [l r]. intros [= <- <-]. destruct (IH l r eq_refl) as [-> ?]. by split; [|constructor].
Qed.

Lemma split_after_spec s pat a b : split_after s pat = Some (a, b) → s = a ++ b ∧ ∃ t, a = t ++ pat.
Proof.
  unfold split_after. destruct (find s pat) as [i|] eqn:E; [|done]. intros [= <- <-].
  split; [by rewrite take_drop|]. apply find_Some in E as (x & y & -> & <- & _). exists x.
  rewrite app_assoc, take_app_le by (rewrite length_app; lia). apply take_ge. rewrite length_app. lia.
Qed.

Lemma split_at_byte_spec s n a b : split_at_byte s n = Some (a, b) → s = a ++ b ∧ byte_len a = n.
Proof.
  revert n a b. induction s as [|c s IH]; intros n a b; simpl.
  - destruct (N.eqb_spec n 0) as [->|]; [|done]. by intros [= <- <-].
  - destruct (N.eqb_spec n 0) as [->|]; [by intros [= <- <-]|].
    destruct (N.leb_spec (N.of_nat (len_utf8 c)) n); [|done].
    destruct (split_at_byte s _) as [[x y]|] eqn:E; [|done]. intros [= <- <-].
    apply IH in E as [-> Hx]. split; [done|]. rewrite byte_len_cons. lia.
Qed.

(** A separator [t] was consumed and the scan goes on behind it. *)
Definition consumed (t : str) (ch : char) (tail : str) (c c' : Scan) : Prop :=
  separator t ∧ ch :: tail = t ++ scan_rest c' ∧ scan_index c' = (scan_index c + byte_len t)%N ∧
  scan_ranges c' = scan_ranges c.

Lemma consume_char ch tail c c' :
  separator [ch] → scan_rest c' = tail → scan_index c' = (scan_index c + byte_len [ch])%N →
  scan_ranges c' = scan_ranges c → ∃ t, consumed t ch tail c c'.
Proof. intros. subst tail. by exists [ch]. Qed.

Lemma punctuation ch : ch ∈ [59; 40; 41; 124]%N → separator [ch].
Proof. apply sep_punctuation. Qed.

Lemma scan_pipe tail c c' :
  match tail with
  | 124%N :: tail' => Some (set_flags false true (advance [124; 124]%N tail' c))
  | _ => Some (set_flags false true (advance [124%N] tail c))
  end = Some c' → ∃ t, consumed t 124%N tail c c'.
Proof.
  destruct (decide (head tail = Some 124%N)) as [Hh|Hh].
  - destruct tail as [|d tail]; [done|]. injection Hh as ->. intros [= <-]. exists [124; 124]%N.
    repeat split. constructor.
  - intros Heq. assert (c' = set_flags false true (advance [124%N] tail c)) as ->.
    { destruct tail as [|d tail]; [congruence|]. repeat case_match; simplify_eq; done. }
    apply consume_char; [apply punctuation; set_solver|done..].
Qed.

Lemma scan_comment line after c : Forall (λ d, d ≠ LF ∧ d ≠ CR) line →
  ∃ t, consumed t HASH (line ++ after) c (advance (HASH :: line) after c).
Proof. intros Hl. exists (HASH :: line). repeat split. by constructor. Qed.

Lemma scan_block tail text after c :
  starts_with tail [HASH] = true → split_after tail (lit "#>") = Some (text, after) →
  ∃ t, consumed t 60%N tail c (advance (60%N :: text) after c).
Proof.
  intros [t Ht]%starts_with_true (-> & x & Hx)%split_after_spec. exists (60%N :: text). repeat split.
  destruct text as [|d text]; [by destruct x|]. injection Ht as -> _. eapply sep_block_comment; [done|by exists x].
Qed.

Lemma scan_separator_spec ch tail c c' :
  scan_separator ch tail c = Some c' → ∃ t, consumed t ch tail c c'.
Proof.
  unfold scan_separator.
  destruct (is_whitespace ch) eqn:Hw.
  { case_match; intros [= <-]; (apply consume_char; [by constructor|done..]). }
  destruct ((ch =? CR)%N || _) eqn:Hn.
  { apply orb_true_iff in Hn as [->%N.eqb_eq| ->%N.eqb_eq]; discriminate Hw. }
  destruct (N.eqb_spec ch 59) as [->|]; simpl.
  { case_match; intros [= <-]. apply consume_char; [apply punctuation; set_solver|done..]. }
  destruct (N.eqb_spec ch 40) as [->|]; simpl; [destruct (can_chain c); simpl; [done|]|].
  { intros [= <-]. apply consume_char; [apply punctuation; set_solver|done..]. }
  destruct (N.eqb_spec ch 41) as [->|]; simpl.
  { case_match; [|done]. intros [= <-]. apply consume_char; [apply punctuation; set_solver|done..]. }
  destruct (N.eqb_spec ch 124) as [->|]; simpl; [destruct (can_chain c); simpl; [apply scan_pipe|done]|].
  destruct (N.eqb_spec ch 38) as [->|]; simpl; [destruct (can_chain c); simpl; [|done]|].
  { destruct (starts_with tail [38%N]) eqn:E; [|done]. apply starts_with_true in E as [t ->]. intros [= <-].
    exists [38; 38]%N. repeat split. constructor. }
  destruct (N.eqb_spec ch HASH) as [->|]; simpl; [destruct (needs_command c); simpl; [done|]|].
  { case_match; [done|]. destruct (split_line tail) as [line after] eqn:E. apply split_line_spec in E as [-> Hl].
    intros [= <-]. by apply scan_comment. }
  destruct (N.eqb_spec ch 60) as [->|]; simpl; [|done].
  destruct (starts_with tail [HASH]) eqn:E; simpl; [|done]. case_match; [|done].
  destruct (split_after tail (lit "#>")) as [[text after]|] eqn:Es; [|done]. intros [= <-]. by apply scan_block.
Qed.

Lemma scan_loop_spec fuel c :
  Forall (λ r, r.1 <= r.2)%N (scan_ranges c) → scan_loop fuel c = true →
  ∃ ps, scan_rest c = concat (piece_text <$> ps) ∧ laid_out (scan_index c) ps (scan_ranges c).
Proof.
  revert c. induction fuel as [|fuel IH]; intros c Hr; simpl.
  - destruct (scan_rest c); [|done]. destruct (scan_ranges c); [|done]. intros _. exists []. by split; [|constructor].
  - destruct (scan_rest c) as [|ch tail] eqn:Erest.
    { destruct (scan_ranges c); [|done]. intros _. exists []. by split; [|constructor]. }
    destruct (scan_step ch tail c) as [c'|] eqn:E; [|done]. intros Hloop.
    assert (Hsep : scan_separator ch tail c = Some c' →
      ∃ ps, ch :: tail = concat (piece_text <$> ps) ∧ laid_out (scan_index c) ps (scan_ranges c)).
    { intros (t & Ht & Htext & Hi & Hrs)%scan_separator_spec. destruct (IH c') as (ps & Hps & Hl); [by rewrite Hrs|done|].
      exists (Separator t :: ps). split; [by rewrite Htext, Hps|]. constructor; [done|]. by rewrite <- Hi, <- Hrs. }
    unfold scan_step in E. destruct (scan_ranges c) as [|[start stop] rs] eqn:Ers; [by apply Hsep|].
    destruct (N.eqb_spec (scan_index c) start) as [Hstart|]; [|by apply Hsep].
    rewrite Erest in E. destruct (split_at_byte (ch :: tail) (stop - start)) as [[text after]|] eqn:Es; [|done].
    apply split_at_byte_spec in Es as [Htext Hlen]. injection E as <-.
    apply Forall_cons in Hr as [Hle Hr]. simpl in Hle.
    apply IH in Hloop as (ps & Hps & Hl); [|done]. simpl in Hps, Hl.
    exists (CommandText text :: ps). split; [by rewrite Htext, Hps|].
    replace stop with (scan_index c + byte_len text)%N in * by lia. rewrite <- Hstart. by constructor.
Qed.

Lemma byte_slice_app a t b : byte_slice (a ++ t ++ b) (byte_len a) (byte_len a + byte_len t) = Some t.
Proof.
  unfold byte_slice. rewrite split_at_byte_app. simpl.
  replace (byte_len a + byte_len t - byte_len a)%N with (byte_len t) by lia. by rewrite split_at_byte_app.
Qed.

(** The ranges of laid out pieces select the texts of the commands. *)
Lemma laid_out_slices i ps rs pre :
  laid_out i ps rs → byte_len pre = i →
  Forall2 (λ r t, byte_slice (pre ++ concat (piece_text <$> ps)) r.1 r.2 = Some t) rs (command_texts ps).
Proof.
  intros Hl. revert pre. induction Hl as [i|i t ps rs Hl IH|i t ps rs Ht Hl IH]; intros pre Hpre; csimpl.
  - constructor.
  - constructor; [simpl; rewrite <- Hpre; apply byte_slice_app|].
    rewrite app_assoc. apply IH. rewrite byte_len_app. lia.
  - rewrite app_assoc. apply IH. rewrite byte_len_app. lia.
Qed.

Lemma lower_nodes_spec script nodes cmds :
  lower_nodes script nodes = Ok cmds →
  Forall2 (λ n cmd, ∃ text, utf8_text script n = Some text ∧ lower_command_text text = Ok cmd) nodes cmds.
Proof.
  revert cmds. induction nodes as [|n nodes IH]; intros cmds; simpl; [intros [= <-]; constructor|].
  destruct (utf8_text script n) as [text|] eqn:Et; [|done].
  destruct (lower_command_text text) as [words|] eqn:El; simpl; [|done].
  destruct (lower_nodes script nodes) as [rest|]; simpl; [|done]. intros [= <-].
  constructor; [by exists text|by apply IH].
Qed.

(** A command with words has a range that is not empty. *)
Lemma lowered_node_range script n text cmd :
  utf8_text script n = Some text → lower_command_text text = Ok cmd → (start_byte n <= end_byte n)%N.
Proof.
  unfold utf8_text, byte_slice. intros Ht Hl. destruct (split_at_byte script _) as [[a rest]|]; [|done]. simpl in Ht.
  destruct (N.le_gt_cases (start_byte n) (end_byte n)) as [?|Hlt]; [done|].
  replace (end_byte n - start_byte n)%N with 0%N in Ht by lia.
  assert (text = []) as -> by (destruct rest; simpl in Ht; congruence). discriminate Hl.
Qed.

Lemma lower_tree_Ok script tree commands :
  lower_tree script tree = Ok commands →
  ∃ nodes, lower_nodes script nodes = Ok commands ∧
    source_is_covered_by_commands script ((λ n, (start_byte n, end_byte n)) <$> nodes) = true ∧
    Forall (λ command, command ≠ [] ∧ Forall (λ w, w ≠ []) command) commands.
Proof.
  unfold lower_tree. destruct (has_error tree); [done|]. destruct (has_requires_directive _ _); [done|].
  destruct (first_unrecognized_named_kind _); [done|]. destruct (is_empty (collect_command_nodes _)); [done|].
  destruct (lower_nodes script _) as [cmds|] eqn:El; simpl; [|done].
  destruct (source_is_covered_by_commands _ _) eqn:Ec; simpl; [|done]. destruct (existsb is_using cmds); [done|].
  destruct (existsb _ cmds) eqn:Ee; [done|]. intros [= <-]. eexists. split_and!; [done..|].
  apply Forall_forall. intros cmd Hin%list_elem_of_In.
  assert (Hc : is_empty cmd || existsb is_empty cmd = false).
  { destruct (is_empty cmd || _) eqn:E; [|done]. rewrite <- Ee. symmetry. apply existsb_exists. by exists cmd. }
  apply orb_false_iff in Hc as [Hc Hw]. split; [by intros ->|]. apply Forall_forall. intros w Hin' ->.
  rewrite <- Hw in *. assert (existsb is_empty cmd = true); [|congruence]. apply existsb_exists. exists [].
  split; [by apply list_elem_of_In|done].
Qed.

Lemma lowered_ranges script nodes (cmds : list (list str)) :
  Forall2 (λ n cmd, ∃ text, utf8_text script n = Some text ∧ lower_command_text text = Ok cmd) nodes cmds →
  Forall (λ r, r.1 <= r.2)%N ((λ n, (start_byte n, end_byte n)) <$> nodes).
Proof.
  induction 1 as [|n cmd nodes cmds (text & ? & ?) _ IH]; csimpl; constructor; [|done].
  by eapply lowered_node_range.
Qed.

Lemma laid_out_separators i ps rs :
  laid_out i ps rs → Forall (λ p, match p with Separator t => separator t | CommandText _ => True end) ps.
Proof. by induction 1; constructor. Qed.

Lemma lowered_texts script nodes (cmds : list (list str)) texts :
  Forall2 (λ n cmd, ∃ text, utf8_text script n = Some text ∧ lower_command_text text = Ok cmd) nodes cmds →
  Forall2 (λ n t, utf8_text script n = Some t) nodes texts →
  Forall2 (λ text command, lower_command_text text = Ok command) texts cmds.
Proof.
  intros Hn. revert texts. induction Hn as [|n cmd nodes cmds (text & Ht & Hl) _ IH]; intros texts Hs;
    inversion Hs; subst; constructor; [congruence|by apply IH].
Qed.

(** Nothing of a lowered PowerShell script is dropped: the script is the concatenation of
    the texts of its commands and of separators between them (spaces, [;], parentheses, [|],
    [||], [&&] and comments), and the result is the words of these commands in their order,
    none of them empty. *)
Theorem lowered_script_complete `{PowerShellParser} script commands :
  try_parse_powershell_commands script = Some commands →
  ∃ pieces, script = concat (piece_text <$> pieces) ∧
    Forall (λ p, match p with Separator t => separator t | CommandText _ => True end) pieces ∧
    Forall2 (λ text command, lower_command_text text = Ok command) (command_texts pieces) commands ∧
    Forall (λ command, command ≠ [] ∧ Forall (λ w, w ≠ []) command) commands.
Proof.
  unfold try_parse_powershell_commands, lower_with_tree_sitter. destruct (existsb _ script); [done|].
  destruct (parse_powershell _) as [tree|]; [|done].
  destruct (lower_tree script tree) as [cmds|] eqn:El; [|done]. intros [= ->].
  apply lower_tree_Ok in El as (nodes & Hn%lower_nodes_spec & Hc & Hne).
  apply scan_loop_spec in Hc as (ps & Hps & Hl); [|by eapply lowered_ranges]. simpl in *.
  exists ps. split_and!; [done|by eapply laid_out_separators| |done].
  apply (laid_out_slices 0 ps _ []) in Hl; [|done]. simpl in Hl. rewrite <- Hps in Hl.
  apply Forall2_fmap_l in Hl. by eapply lowered_texts.
Qed.

(** * Invocations *)

(** Only the word after [-Command] is taken for the script, whatever follows it; the prefixed
    command line then has the script twice and lacks the last of the words that follow. *)
Lemma trailing_arguments_ignored shell script extra :
  detect_shell_type shell = Some PowerShell →
  let command := [shell; lit "-Command"; script] ++ extra in
  extract_powershell_command command = Some (shell, script) ∧
  (∀ middle dropped, extra = middle ++ [dropped] →
     ∃ prefixed, prefix_powershell_script_with_utf8 command = [shell; lit "-Command"; script] ++ middle ++ [prefixed] ∧
       script `suffix_of` prefixed).
Proof.
  intros Hs command.
  assert (He : extract_powershell_command command = Some (shell, script)).
  { unfold extract_powershell_command, command. cbn [length app]. rewrite (proj2 (Nat.ltb_ge _ _)) by (simpl; lia).
    rewrite Hs, bool_decide_true by done. reflexivity. }
  split; [exact He|]. intros middle dropped ->. unfold prefix_powershell_script_with_utf8. rewrite He.
  assert (Ht : take (length command - 1) command = [shell; lit "-Command"; script] ++ middle).
  { unfold command. rewrite app_assoc. apply take_app_length'. rewrite !length_app. simpl. lia. }
  rewrite Ht. eexists. split; [by rewrite <- app_assoc|]. case_match; [done|by exists UTF8_OUTPUT_PREFIX].
Qed.

(** * Example: a tree for [Get-Date; ls] *)

Definition pwsh_script : str := lit "Get-Date; ls".
Definition pwsh_command (a b : N) : Node :=
  mkNode (lit "pipeline") true a b [mkNode (lit "pipeline_chain") true a b
    [mkNode (lit "command") true a b [mkNode (lit "command_name") true a b []]]].
#[local] Instance one_script : PowerShellParser := λ script,
  if bool_decide (script = pwsh_script)
  then Some (mkTree (mkNode (lit "program") true 0 12
         [mkNode (lit "statement_list") true 0 12 [pwsh_command 0 8; pwsh_command 10 12]]) false)
  else None.

Lemma lowered_script_complete_witness :
  ∃ pieces, pwsh_script = concat (piece_text <$> pieces) ∧ length (command_texts pieces) = 2.
Proof.
  destruct (lowered_script_complete pwsh_script [[lit "Get-Date"]; [lit "ls"]]) as (ps & Hs & _ & Ht & _);
    [vm_compute; reflexivity|].
  exists ps. split; [exact Hs|]. by apply Forall2_length in Ht.
Defined.
