(* ===== verification/ExecApproval.v ===== *)
(** Whether a command may run: [exec_policy.rs], [exec_policy/model_policy.rs] and
    [exec_policy/executable_identity.rs] of [codex-core], with the approval settings of
    [codex-protocol] they read.

    A command line is split into the commands a shell would run; each is judged by the
    rules of the policy, or by the classifier of dangerous commands when no rule matches. *)
From stdpp Require Import base list numbers strings gmap.
From S2P Require Import Prelude RustStr PathConv ExecRule ExecPolicy UrlLib PathUri Permissions PolicyTransforms ShellSyntax PowerShellSyntax DangerousCommand.

(** * Approval settings *)

Record GranularApprovalConfig : Type := mkGranular {
  sandbox_approval : bool;
  rules_approval : bool;
  skill_approval : bool;
  request_permissions : bool;
  mcp_elicitations : bool;
}.

#[export] Instance GranularApprovalConfig_eq_dec : EqDecision GranularApprovalConfig.
Proof. solve_decision. Defined.

Inductive AskForApproval : Type :=
| UnlessTrusted
| OnRequest
| Granular (config : GranularApprovalConfig)
| Never.
#[export] Instance AskForApproval_eq_dec : EqDecision AskForApproval.
Proof. solve_decision. Defined.

Inductive SandboxPermissions : Type := UseDefault | RequireEscalated | WithAdditionalPermissions.

Definition requires_escalated_permissions (s : SandboxPermissions) : bool :=
  match s with RequireEscalated => true | _ => false end.
Definition requests_sandbox_override (s : SandboxPermissions) : bool :=
  match s with UseDefault => false | _ => true end.

Inductive WindowsSandboxLevel : Type := LevelDisabled | RestrictedToken | Elevated.
#[export] Instance WindowsSandboxLevel_eq_dec : EqDecision WindowsSandboxLevel.
Proof. solve_decision. Defined.

(** [ExecPolicyAmendment] is the prefix it proposes. *)
Abbreviation ExecPolicyAmendment := (list str).

Inductive ExecApprovalRequirement : Type :=
| Exec_Skip (bypass_sandbox : bool) (proposed_execpolicy_amendment : option ExecPolicyAmendment)
| Exec_NeedsApproval (reason : option str) (proposed_execpolicy_amendment : option ExecPolicyAmendment)
| Exec_Forbidden (reason : str).

Inductive ExecPolicyCommandOrigin : Type := GenericOrigin | PowerShellOrigin.

Inductive AllowPrefixRules : Type := Honor | IgnoreForCyberModel.
#[export] Instance AllowPrefixRules_eq_dec : EqDecision AllowPrefixRules.
Proof. solve_decision. Defined.

Record ExecPolicyCommands : Type := mkCommands {
  commands : list (list str);
  command_origin : ExecPolicyCommandOrigin;
}.

Definition PROMPT_CONFLICT_REASON : str :=
  lit "approval required by policy, but AskForApproval is set to Never".
Definition REJECT_SANDBOX_APPROVAL_REASON : str :=
  lit "approval required by policy, but AskForApproval::Granular.sandbox_approval is false".
Definition REJECT_RULES_APPROVAL_REASON : str :=
  lit "approval required by policy rule, but AskForApproval::Granular.rules is false".

(** Prefixes that are never suggested as rules: shells, interpreters and the like. *)
Definition BANNED_PREFIX_SUGGESTIONS : list (list str) :=
  [[lit "/bin/bash"]; [lit "/bin/bash"; lit "-c"]; [lit "/bin/bash"; lit "-lc"]; [lit "/bin/sh"];
   [lit "/bin/sh"; lit "-c"]; [lit "/bin/sh"; lit "-lc"]; [lit "/bin/zsh"]; [lit "/bin/zsh"; lit "-c"];
   [lit "/bin/zsh"; lit "-lc"]; [lit "Rscript"]; [lit "bash"]; [lit "bash"; lit "-c"];
   [lit "bash"; lit "-lc"]; [lit "bun"]; [lit "bun"; lit "-e"]; [lit "bun"; lit "run"]; [lit "cmd"];
   [lit "cmd"; lit "/c"]; [lit "cmd"; lit "/k"]; [lit "cmd.exe"]; [lit "cmd.exe"; lit "/c"];
   [lit "cmd.exe"; lit "/k"]; [lit "dash"]; [lit "dash"; lit "-c"]; [lit "deno"]; [lit "deno"; lit "eval"];
   [lit "env"]; [lit "fish"]; [lit "fish"; lit "-c"]; [lit "git"]; [lit "julia"]; [lit "julia"; lit "-e"];
   [lit "ksh"]; [lit "ksh"; lit "-c"]; [lit "lua"]; [lit "lua"; lit "-e"]; [lit "node"];
   [lit "node"; lit "-e"]; [lit "nodejs"]; [lit "nodejs"; lit "-e"]; [lit "npm"; lit "run"];
   [lit "osascript"]; [lit "perl"]; [lit "perl"; lit "-e"]; [lit "php"]; [lit "php"; lit "-r"];
   [lit "pnpm"; lit "run"]; [lit "powershell"]; [lit "powershell"; lit "-Command"];
   [lit "powershell"; lit "-EncodedCommand"]; [lit "powershell"; lit "-File"]; [lit "powershell"; lit "-c"];
   [lit "powershell.exe"]; [lit "powershell.exe"; lit "-Command"];
   [lit "powershell.exe"; lit "-EncodedCommand"]; [lit "powershell.exe"; lit "-File"];
   [lit "powershell.exe"; lit "-c"]; [lit "pwsh"]; [lit "pwsh"; lit "-Command"];
   [lit "pwsh"; lit "-EncodedCommand"]; [lit "pwsh"; lit "-File"]; [lit "pwsh"; lit "-c"];
   [lit "pwsh"; lit "-e"]; [lit "pwsh"; lit "-ec"]; [lit "pwsh"; lit "-f"]; [lit "py"];
   [lit "py"; lit "-3"]; [lit "pypy"]; [lit "pypy3"]; [lit "python"]; [lit "python"; lit "-"];
   [lit "python"; lit "-c"]; [lit "python3"]; [lit "python3"; lit "-"]; [lit "python3"; lit "-c"];
   [lit "pythonw"]; [lit "pyw"]; [lit "rm"]; [lit "ruby"]; [lit "ruby"; lit "-e"]; [lit "sh"];
   [lit "sh"; lit "-c"]; [lit "sh"; lit "-lc"]; [lit "sudo"]; [lit "yarn"; lit "run"]; [lit "zsh"];
   [lit "zsh"; lit "-c"]; [lit "zsh"; lit "-lc"]].

(** Why a prompt may not be shown, when the settings disallow it. *)
Definition prompt_is_rejected_by_policy (approval_policy : AskForApproval) (prompt_is_rule : bool)
    : option str :=
  match approval_policy with
  | Never => Some PROMPT_CONFLICT_REASON
  | OnRequest | UnlessTrusted => None
  | Granular config =>
      if prompt_is_rule then
        if negb (rules_approval config) then Some REJECT_RULES_APPROVAL_REASON else None
      else if negb (sandbox_approval config) then Some REJECT_SANDBOX_APPROVAL_REASON
      else None
  end.

Definition is_policy_match {A} (m : RuleMatch A) : bool :=
  match m with
  | PrefixRuleMatch _ _ _ _ => true
  | HeuristicsRuleMatch _ _ => false
  end.

(** [Iterator::max_by_key]: the last of the elements with the greatest key. *)
Fixpoint max_by_len {X} (best : nat * X) (l : list (nat * X)) : X :=
  match l with
  | [] => best.2
  | x :: l => max_by_len (if best.1 <=? x.1 then x else best) l
  end.
Definition longest {X} (l : list (nat * X)) : option X :=
  match l with
  | [] => None
  | x :: l => Some (max_by_len x l)
  end.

Section Approval.
Context {A : Type} `{AP : AbsolutePathBuf A} `{UL : UrlLib}.
Context `{CL : CommandLibs} `{BP : BashParser} `{PP : PowerShellParser}.
Implicit Types (p : ExecPolicy.Policy A) (command : list str) (platform : DangerousCommandPlatform)
  (ev : Evaluation A) (ms : list (RuleMatch A)).

Record UnmatchedCommandContext : Type := mkUnmatched {
  u_approval_policy : AskForApproval;
  u_permission_profile : PermissionProfile;
  u_windows_sandbox_level : WindowsSandboxLevel;
  u_sandbox_permissions : SandboxPermissions;
  u_command_origin : ExecPolicyCommandOrigin;
}.

Record ExecApprovalRequest : Type := mkRequest {
  req_command : list str;
  approval_policy : AskForApproval;
  permission_profile : PermissionProfile;
  environment_policy : option (ExecPolicy.Policy A);
  windows_sandbox_level : WindowsSandboxLevel;
  sandbox_permissions : SandboxPermissions;
  prefix_rule : option (list str);
  allow_prefix_rules : AllowPrefixRules;
}.

(** [PathConvention::native()]. *)
Definition native_convention : PathConvention := if is_windows A then Windows else Posix.

(** * Commands that no rule matches *)

Definition dangerous_command_match_for_origin command (origin : ExecPolicyCommandOrigin) platform
    : option DangerousCommandMatch :=
  match origin with
  | GenericOrigin => dangerous_command_match_for_platform command platform
  | PowerShellOrigin => dangerous_powershell_words_match command platform
  end.

Definition dangerous_command_match_for_heuristics ev (d : Decision) (origin : ExecPolicyCommandOrigin)
    platform : option DangerousCommandMatch :=
  head (omap (λ m,
    match m with
    | HeuristicsRuleMatch command matched_decision =>
        if bool_decide (matched_decision = d)
        then dangerous_command_match_for_origin command origin platform else None
    | PrefixRuleMatch _ _ _ _ => None
    end) (matched_rules ev)).

Definition profile_has_managed_filesystem_restrictions (profile : PermissionProfile) : bool :=
  let pol := file_system_sandbox_policy profile in
  match profile with Managed _ _ => true | _ => false end
  && bool_decide (kind pol = Restricted)
  && negb (has_full_disk_write_access_for_convention (Some native_convention) pol).

Definition render_decision_for_unmatched_command_for_platform command (ctx : UnmatchedCommandContext)
    platform : Decision :=
  let dangerous := dangerous_command_match_for_origin command (u_command_origin ctx) platform in
  let pol := file_system_sandbox_policy (u_permission_profile ctx) in
  let unenforced :=
    is_windows A && bool_decide (u_windows_sandbox_level ctx = LevelDisabled)
    && profile_has_managed_filesystem_restrictions (u_permission_profile ctx) in
  if bool_decide (is_Some dangerous) || unenforced then
    match u_approval_policy ctx with
    | Never => Forbidden
    | OnRequest | UnlessTrusted | Granular _ => Prompt
    end
  else
    match u_approval_policy ctx with
    | Never => Allow
    | UnlessTrusted => Prompt
    | OnRequest | Granular _ =>
        match kind pol with
        | Unrestricted | ExternalSandbox => Allow
        | Restricted => if requests_sandbox_override (u_sandbox_permissions ctx) then Prompt else Allow
        end
    end.

(** * The commands of a command line *)

Definition commands_for_exec_policy_for_platform command platform : ExecPolicyCommands :=
  match nonempty (parse_shell_lc_plain_commands command) with
  | Some commands => mkCommands commands GenericOrigin
  | None =>
      match platform, nonempty (parse_powershell_command_into_plain_commands command) with
      | Windows, Some commands => mkCommands commands PowerShellOrigin
      | _, _ => mkCommands [command] GenericOrigin
      end
  end.

(** * Amendments *)

Definition is_prompt_rule (m : RuleMatch A) : bool :=
  is_policy_match m && bool_decide (match_decision m = Prompt).

(** The first command that the heuristics gave the decision [d]. *)
Definition first_heuristic (d : Decision) ms : option ExecPolicyAmendment :=
  head (omap (λ m,
    match m with
    | HeuristicsRuleMatch command d' => if bool_decide (d' = d) then Some command else None
    | PrefixRuleMatch _ _ _ _ => None
    end) ms).

Definition try_derive_execpolicy_amendment_for_prompt_rules ms : option ExecPolicyAmendment :=
  if existsb is_prompt_rule ms then None else first_heuristic Prompt ms.

Definition try_derive_execpolicy_amendment_for_allow_rules ms : option ExecPolicyAmendment :=
  if existsb is_policy_match ms then None else first_heuristic Allow ms.

(** [add_prefix_rule] cannot meet Starlark. *)
Definition add_allow_rule (prefix : list str) p : option (ExecPolicy.Policy A) :=
  match add_prefix_rule (SE := unit) prefix Allow p with
  | Ok p' => Some p'
  | Err _ => None
  end.

Definition allows (fallback : list str → Decision) (options : MatchOptions) p command : bool :=
  match check_with_options p command fallback options with
  | Some ev => bool_decide (eval_decision ev = Allow)
  | None => false
  end.

Definition prefix_rule_would_approve_all_commands p (prefix : list str) (cmds : list (list str))
    (fallback : list str → Decision) (options : MatchOptions) : bool :=
  match add_allow_rule prefix p with
  | None => false
  | Some p' => forallb (allows fallback options p') cmds
  end.

Definition derive_requested_execpolicy_amendment_from_prefix_rule (prefix_rule : option (list str)) ms p
    (cmds : list (list str)) (fallback : list str → Decision) (options : MatchOptions)
    : option ExecPolicyAmendment :=
  prefix ← prefix_rule;
  if is_empty prefix then None
  else if bool_decide (prefix ∈ BANNED_PREFIX_SUGGESTIONS) then None
  else if existsb is_policy_match ms then None
  else if prefix_rule_would_approve_all_commands p prefix cmds fallback options then Some prefix
  else None.

(** * Reasons *)

Definition render_shlex_command (args : list str) : str := default (join (lit " ") args) (shlex_try_join args).

Definition quoted (s : str) : str := lit "`" ++ s ++ lit "`".

Definition derive_prompt_reason command ev : option str :=
  let rendered := render_shlex_command command in
  let prompts := omap (λ m,
    match m with
    | PrefixRuleMatch prefix Prompt _ justification => Some (length prefix, justification)
    | _ => None
    end) (matched_rules ev) in
  (λ justification,
     match justification with
     | Some j => quoted rendered ++ lit " requires approval: " ++ j
     | None => quoted rendered ++ lit " requires approval by policy"
     end) <$> longest prompts.

Definition dangerous_command_rejection_reason (m : DangerousCommandMatch) : str :=
  match m with
  | ForcedRm => lit "rm -f style commands are not permitted. Use a safer approach"
  | Other => lit "blocked by policy"
  end.

Definition derive_forbidden_reason command ev (dangerous : option DangerousCommandMatch) : str :=
  let rendered := render_shlex_command command in
  let forbidden := omap (λ m,
    match m with
    | PrefixRuleMatch prefix Forbidden _ justification => Some (length prefix, (prefix, justification))
    | _ => None
    end) (matched_rules ev) in
  quoted rendered ++ lit " rejected: " ++
  match longest forbidden with
  | Some (_, Some justification) => justification
  | Some (prefix, None) => lit "policy forbids commands starting with " ++ quoted (render_shlex_command prefix)
  | None =>
      match dangerous with
      | Some m => dangerous_command_rejection_reason m
      | None => lit "blocked by policy"
      end
  end.

Definition derive_rejected_prompt_reason (fallback_reason : str) (dangerous : option DangerousCommandMatch)
    : str :=
  match dangerous with
  | Some ForcedRm => dangerous_command_rejection_reason ForcedRm
  | Some Other | None => fallback_reason
  end.

(** * The policy of a request *)

Definition current_for_prefix_rules p (allow : AllowPrefixRules) : ExecPolicy.Policy A :=
  match allow with
  | Honor => p
  | IgnoreForCyberModel =>
      ExecPolicy.mkPolicy
        (foldl (λ m e, mm_insert e.1 e.2 m) ∅
           (e ← map_to_list (rules_by_program p);
            pair e.1 <$> filter (λ r, rule_decision r ≠ Allow) e.2))
        (network_rules p) (host_executables_by_name p)
  end.

Definition current_for_environment p (environment : option (ExecPolicy.Policy A)) (allow : AllowPrefixRules)
    : ExecPolicy.Policy A :=
  let policy := current_for_prefix_rules p allow in
  match environment with
  | Some environment => merge_overlay policy environment
  | None => policy
  end.

(** * The requirement *)

Definition MATCH_OPTIONS : MatchOptions := mkMatchOptions true.

Definition exec_policy_fallback (req : ExecApprovalRequest) (origin : ExecPolicyCommandOrigin) platform
    command : Decision :=
  render_decision_for_unmatched_command_for_platform command
    (mkUnmatched (approval_policy req) (permission_profile req) (windows_sandbox_level req)
       (sandbox_permissions req) origin) platform.

Definition is_allow_rule (m : RuleMatch A) : bool :=
  is_policy_match m && bool_decide (match_decision m = Allow).

(** The answer for an evaluated command line. *)
Definition requirement_of (exec_policy : ExecPolicy.Policy A) (req : ExecApprovalRequest)
    (parsed : ExecPolicyCommands) platform ev : ExecApprovalRequirement :=
  let fallback := exec_policy_fallback req (command_origin parsed) platform in
  let auto := bool_decide (allow_prefix_rules req = Honor) in
  let dangerous d := dangerous_command_match_for_heuristics ev d (command_origin parsed) platform in
  let requested :=
    if auto then derive_requested_execpolicy_amendment_from_prefix_rule (prefix_rule req) (matched_rules ev)
                   exec_policy (commands parsed) fallback MATCH_OPTIONS
    else None in
  match eval_decision ev with
  | Forbidden => Exec_Forbidden (derive_forbidden_reason (req_command req) ev (dangerous Forbidden))
  | Prompt =>
      let prompt_is_rule := existsb is_prompt_rule (matched_rules ev) in
      match prompt_is_rejected_by_policy (approval_policy req) prompt_is_rule with
      | Some reason =>
          if prompt_is_rule then Exec_Forbidden reason
          else Exec_Forbidden (derive_rejected_prompt_reason reason (dangerous Prompt))
      | None =>
          Exec_NeedsApproval (derive_prompt_reason (req_command req) ev)
            (match requested with
             | Some amendment => Some amendment
             | None => if auto then try_derive_execpolicy_amendment_for_prompt_rules (matched_rules ev)
                       else None
             end)
      end
  | Allow =>
      Exec_Skip
        (forallb (λ command,
           existsb is_allow_rule (matches_for_command_with_options exec_policy command None MATCH_OPTIONS))
           (commands parsed))
        (if auto then try_derive_execpolicy_amendment_for_allow_rules (matched_rules ev) else None)
  end.

(** [None] is the panic of an evaluation without commands. *)
Definition create_exec_approval_requirement_for_parsed_commands p (req : ExecApprovalRequest)
    (parsed : ExecPolicyCommands) platform : option ExecApprovalRequirement :=
  let exec_policy := current_for_environment p (environment_policy req) (allow_prefix_rules req) in
  requirement_of exec_policy req parsed platform
    <$> check_multiple_with_options exec_policy (commands parsed)
          (exec_policy_fallback req (command_origin parsed) platform) MATCH_OPTIONS.

Definition create_exec_approval_requirement_for_command_platform p (req : ExecApprovalRequest) platform
    : option ExecApprovalRequirement :=
  create_exec_approval_requirement_for_parsed_commands p req
    (commands_for_exec_policy_for_platform (req_command req) platform) platform.

(** * The identity of the shell *)

Inductive UnifiedExecShellMode : Type := Direct | ZshFork (shell_zsh_path main_execve_wrapper_exe : A).

(** [Path::parent] compared with a literal path, on Unix. *)
Definition parent_is (path directory : str) : bool :=
  match last (components path) with
  | Some (Normal _ | CurDir | ParentDir) =>
      bool_decide (take (length (components path) - 1) (components path) = components directory)
  | _ => false
  end.

(** The words that approve a shell: all of them for the configured shell, a system shell
    and the zsh fork; only the executable for any other. *)
Definition shell_approval_command command (configured_shell_path : str) (mode : UnifiedExecShellMode)
    : list str :=
  match command with
  | [] => []
  | executable :: _ =>
      if path_eqb executable configured_shell_path
         || (parent_is executable (lit "/bin") || parent_is executable (lit "/usr/bin"))
         || match mode with ZshFork _ _ => true | Direct => false end
      then command else [executable]
  end.

Definition with_command (req : ExecApprovalRequest) command : ExecApprovalRequest :=
  mkRequest command (approval_policy req) (permission_profile req) (environment_policy req)
    (windows_sandbox_level req) (sandbox_permissions req) (prefix_rule req) (allow_prefix_rules req).

(** The apparent commands of a shell that is not trusted. *)
Definition untrusted_shell_commands command platform : ExecPolicyCommands :=
  match platform, extract_powershell_command command with
  | Windows, Some (_, script) =>
      mkCommands (default [command] (parse_powershell_script_into_plain_commands script)) PowerShellOrigin
  | _, _ => commands_for_exec_policy_for_platform command platform
  end.

Definition create_exec_approval_requirement_for_shell p (req : ExecApprovalRequest)
    (configured_shell_path : str) (mode : UnifiedExecShellMode) platform : option ExecApprovalRequirement :=
  let command := req_command req in
  let executable := shell_approval_command command configured_shell_path mode in
  if length executable =? length command then
    create_exec_approval_requirement_for_command_platform p req platform
  else
    let parsed := untrusted_shell_commands command platform in
    create_exec_approval_requirement_for_parsed_commands p (with_command req executable)
      (mkCommands (executable :: commands parsed) (command_origin parsed)) platform.
End Approval.
