(* ===== verification/ExecApprovalFacts.v ===== *)
(** What the approval of commands guarantees: a command line runs without approval only when
    every command in it is allowed, dangerous commands are never waved through, and an
    accepted amendment has the effect it was proposed for. *)
From stdpp Require Import base list sets numbers strings gmap.
From S2P Require Import Prelude RustStr PathConv ExecRule ExecPolicy ExecPolicyFacts UrlLib PathUri Permissions PolicyTransforms ShellSyntax PowerShellSyntax DangerousCommand ExecApproval.

(** * Policies with the same rules *)

Section Equivalence.
Context {A : Type} `{AP : AbsolutePathBuf A}.
Implicit Types (p q : ExecPolicy.Policy A) (c : list str).

(** The same rules for every program, in any order. *)
Definition policy_equiv p q : Prop :=
  (∀ k, get_vec (rules_by_program p) k ≡ₚ get_vec (rules_by_program q) k) ∧
  host_executables_by_name p = host_executables_by_name q.

#[export] Instance policy_equivalence : Equivalence policy_equiv.
Proof.
  split.
  - by split.
  - intros p q [H1 H2]. split; [by intros k; symmetry|done].
  - intros p q r [H1 H2] [H3 H4]. split; [intros k; by rewrite (H1 k)|by rewrite H2].
Qed.

Lemma host_matches_get_vec p c :
  match_host_executable_rules p c =
  match head c ≫= (λ first, match abs_try_from first with Ok program => Some program | Err _ => None end) with
  | None => []
  | Some program =>
      match executable_path_lookup_key program with
      | None => []
      | Some basename =>
          if match host_executables_by_name p !! basename with
             | Some paths => negb (existsb (λ path, bool_decide (path = program)) paths)
             | None => false
             end
          then []
          else (λ m, with_resolved_program m program)
                 <$> omap (λ r, rule_matches r (basename :: drop 1 c)) (get_vec (rules_by_program p) basename)
      end
  end.
Proof.
  unfold match_host_executable_rules, get_vec. destruct (head c) as [first|]; [|done]. simpl.
  destruct (abs_try_from first) as [program|]; [|done]. destruct (executable_path_lookup_key program) as [k|]; [|done].
  destruct (rules_by_program p !! k) eqn:E; simpl; [done|]. by case_match.
Qed.

(** The rules for the command as it is written, or else those for its executable. *)
Lemma derived_cases p c :
  rule_derived_matches p c MATCH_OPTIONS =
  match default [] (match_exact_rules p c) with
  | [] => match_host_executable_rules p c
  | ms => ms
  end.
Proof.
  unfold rule_derived_matches, MATCH_OPTIONS. destruct (match_exact_rules p c) as [[|m ms]|]; simpl; [|done|];
    by destruct (match_host_executable_rules p c).
Qed.

#[export] Instance rule_derived_matches_proper :
  Proper (policy_equiv ==> eq ==> eq ==> (≡ₚ)) (rule_derived_matches (A := A)).
Proof.
  intros p q [Hk Hh] ? c -> ? o ->. unfold rule_derived_matches.
  assert (He : default [] (match_exact_rules p c) ≡ₚ default [] (match_exact_rules q c)).
  { unfold match_exact_rules. destruct (head c) as [k|]; [|done]. simpl. by rewrite (Hk k). }
  assert (Hm : match_host_executable_rules p c ≡ₚ match_host_executable_rules q c).
  { rewrite !host_matches_get_vec, Hh. destruct (_ ≫= _) as [program|]; [|done].
    destruct (executable_path_lookup_key program) as [k|]; [|done].
    destruct (match _ !! k with Some _ => _ | None => _ end); [done|]. by rewrite (Hk k). }
  assert (Hn : ∀ l : list (RuleMatch A), default [] (if is_empty l then None else Some l) = l) by by intros [].
  destruct (match_exact_rules p c) as [[|x l]|] eqn:Ep, (match_exact_rules q c) as [[|y l']|] eqn:Eq;
    simpl in *; try done; try (by apply Permutation_nil_cons in He);
    try (by symmetry in He; apply Permutation_nil_cons in He).
  all: destruct (resolve_host_executables o); [|done]; by rewrite !Hn.
Qed.

Lemma decisions_max_proper ds ds' : ds ≡ₚ ds' → decisions_max ds = decisions_max ds'.
Proof.
  intros Hp. destruct (decisions_max ds) as [m|] eqn:E.
  - symmetry. apply decisions_max_spec. apply decisions_max_spec in E as [Hin Hub].
    split; [by rewrite <- Hp|]. intros d Hd. apply Hub. by rewrite Hp.
  - apply decisions_max_None in E as ->. apply Permutation_nil_l in Hp. by subst.
Qed.

(** * The verdict on one command *)

(** The strictest rule that matches the command, or the heuristics when none does. *)
Definition verdict (fallback : list str → Decision) p c : Decision :=
  default (fallback c) (decisions_max (match_decision <$> rule_derived_matches p c MATCH_OPTIONS)).

#[export] Instance verdict_proper fallback : Proper (policy_equiv ==> eq ==> eq) (verdict fallback).
Proof.
  intros p q Hpq ? c ->. unfold verdict. f_equal. apply decisions_max_proper. by rewrite Hpq.
Qed.

Lemma evaluation_verdict fallback p c :
  eval_decision (evaluation_of (rule_derived_matches p c MATCH_OPTIONS) c fallback) = verdict fallback p c.
Proof. unfold evaluation_of, verdict. by destruct (decisions_max _). Qed.

Lemma allows_verdict fallback p c :
  allows fallback MATCH_OPTIONS p c = bool_decide (verdict fallback p c = Allow).
Proof. unfold allows. by rewrite check_evaluation, evaluation_verdict. Qed.

(** All matches of the commands, in order. *)
Definition all_matches (fallback : list str → Decision) p (cs : list (list str)) : list (RuleMatch A) :=
  c ← cs; matches_for_command_with_options p c (Some fallback) MATCH_OPTIONS.

Lemma check_multiple_verdicts fallback p cs :
  check_multiple_with_options p cs fallback MATCH_OPTIONS
  = (d ← decisions_max (verdict fallback p <$> cs); Some (mkEvaluation d (all_matches fallback p cs))).
Proof.
  destruct (check_multiple_strictest p cs fallback MATCH_OPTIONS) as (evs & Hevs & _ & ->).
  assert (eval_decision <$> evs = verdict fallback p <$> cs ∧ evs ≫= matched_rules = all_matches fallback p cs)
    as [-> ->]; [|done].
  unfold all_matches. induction Hevs as [|c ev cs evs Hc _ [IH1 IH2]]; [done|]. rewrite !fmap_cons, !bind_cons, IH1, IH2.
  pose proof Hc as Hc'. rewrite check_evaluation in Hc'. injection Hc' as <-. rewrite evaluation_verdict.
  split; [done|]. by apply from_matches_max in Hc as [-> _].
Qed.

Lemma elem_of_all_matches fallback p cs m :
  m ∈ all_matches fallback p cs ↔
  ∃ c, c ∈ cs ∧ (m ∈ rule_derived_matches p c MATCH_OPTIONS ∨
    (rule_derived_matches p c MATCH_OPTIONS = [] ∧ m = HeuristicsRuleMatch c (fallback c))).
Proof.
  unfold all_matches. rewrite list_elem_of_bind. unfold matches_for_command_with_options.
  split; intros (c & H1 & H2); exists c.
  - split; [done|]. destruct (rule_derived_matches p c MATCH_OPTIONS) as [|x l]; simpl in *; [right|by left].
    split; [done|]. by apply list_elem_of_singleton in H1.
  - split; [|done]. destruct H2 as [H2|[-> ->]]; [|by left].
    by destruct (rule_derived_matches p c MATCH_OPTIONS) as [|x l]; [by apply not_elem_of_nil in H2|].
Qed.
End Equivalence.

(** * What a requirement means *)

(** Whether a prompt may be shown; prompts that a rule asks for have their own setting. *)
Definition may_prompt (approval_policy : AskForApproval) (by_rule : Prop) : Prop :=
  match approval_policy with
  | Never => False
  | OnRequest | UnlessTrusted => True
  | Granular config => (by_rule ∧ rules_approval config = true) ∨ (¬ by_rule ∧ sandbox_approval config = true)
  end.

Lemma prompt_rejection approval_policy (by_rule : bool) :
  prompt_is_rejected_by_policy approval_policy by_rule = None ↔ may_prompt approval_policy (by_rule = true).
Proof.
  unfold prompt_is_rejected_by_policy, may_prompt. destruct approval_policy as [| |[s r ? ? ?]|]; [done..| |done].
  simpl. by destruct by_rule, r, s; simpl; naive_solver.
Qed.

Section Requirement.
Context {A : Type} `{AP : AbsolutePathBuf A} `{UL : UrlLib}.
Context `{CL : CommandLibs} `{BP : BashParser} `{PP : PowerShellParser}.
Implicit Types (p q : ExecPolicy.Policy A) (c command : list str) (platform : DangerousCommandPlatform)
  (req : ExecApprovalRequest (A := A)) (cs : list (list str)).

(** The policy that a request is judged by. *)
Definition request_policy p req : ExecPolicy.Policy A :=
  current_for_environment p (environment_policy req) (allow_prefix_rules req).

(** The meaning of an answer for a list of commands, each with its verdict. *)
Definition requirement_means q (judge : list str → Decision) (settings : AskForApproval) cs
    (r : ExecApprovalRequirement) : Prop :=
  let rule_prompts := ∃ c m, c ∈ cs ∧ m ∈ rule_derived_matches q c MATCH_OPTIONS ∧ match_decision m = Prompt in
  match r with
  | Exec_Skip bypass _ =>
      (∀ c, c ∈ cs → judge c = Allow) ∧
      (bypass = true ↔ ∀ c, c ∈ cs → rule_derived_matches q c MATCH_OPTIONS ≠ [])
  | Exec_NeedsApproval _ _ =>
      (∀ c, c ∈ cs → judge c ≠ Forbidden) ∧ (∃ c, c ∈ cs ∧ judge c = Prompt) ∧ may_prompt settings rule_prompts
  | Exec_Forbidden _ =>
      (∃ c, c ∈ cs ∧ judge c = Forbidden) ∨
      ((∀ c, c ∈ cs → judge c ≠ Forbidden) ∧ (∃ c, c ∈ cs ∧ judge c = Prompt) ∧
       ¬ may_prompt settings rule_prompts)
  end.

Lemma existsb_prompt_rule fallback q cs :
  existsb is_prompt_rule (all_matches fallback q cs) = true ↔
  ∃ c m, c ∈ cs ∧ m ∈ rule_derived_matches q c MATCH_OPTIONS ∧ match_decision m = Prompt.
Proof.
  rewrite existsb_exists. unfold is_prompt_rule. split.
  - intros (m & Hm%list_elem_of_In & [Hp Hd%bool_decide_eq_true]%andb_true_iff).
    apply elem_of_all_matches in Hm as (c & Hc & [Hm|[_ ->]]); [by exists c, m|done].
  - intros (c & m & Hc & Hm & Hd). exists m. rewrite <- list_elem_of_In. split.
    + apply elem_of_all_matches. exists c. by split; [|left].
    + apply derived_is_prefix_match in Hm as (? & ? & ? & ? & ->). simpl in *. by rewrite bool_decide_true.
Qed.

Lemma may_prompt_iff settings (P Q : Prop) : (P ↔ Q) → may_prompt settings P ↔ may_prompt settings Q.
Proof. intros HPQ. destruct settings; simpl; naive_solver. Qed.

Lemma verdict_rule_le fallback q c m :
  m ∈ rule_derived_matches q c MATCH_OPTIONS → decision_le (match_decision m) (verdict fallback q c).
Proof.
  intros Hm. unfold verdict. destruct (decisions_max _) as [d|] eqn:E.
  - apply decisions_max_spec in E as [_ Hub]. by apply Hub, list_elem_of_fmap_2.
  - apply decisions_max_None, fmap_nil_inv in E. rewrite E in Hm. by apply not_elem_of_nil in Hm.
Qed.

Lemma allow_rule_matches fallback q c :
  verdict fallback q c = Allow →
  existsb is_allow_rule (matches_for_command_with_options q c None MATCH_OPTIONS) = true ↔
  rule_derived_matches q c MATCH_OPTIONS ≠ [].
Proof.
  intros Hv. unfold matches_for_command_with_options. pose proof (verdict_rule_le fallback q c) as Hle.
  pose proof (derived_is_prefix_match q c MATCH_OPTIONS) as Hp. rewrite Hv in Hle.
  destruct (rule_derived_matches q c MATCH_OPTIONS) as [|m ms]; [done|]. split; [done|intros _]. simpl.
  destruct (Hp m) as (pre & d & prog & j & ->); [by left|]. specialize (Hle (PrefixRuleMatch pre d prog j)).
  unfold is_allow_rule. simpl in *. rewrite bool_decide_true; [done|].
  destruct d; [done|exfalso..]; unfold decision_le in Hle; simpl in Hle;
    specialize (Hle (list_elem_of_here _ _)); lia.
Qed.

(** An answer is given for every list of commands, and means what it says. *)
Lemma requirement_exact p req parsed platform :
  commands parsed ≠ [] →
  let judge := verdict (exec_policy_fallback req (command_origin parsed) platform) (request_policy p req) in
  ∃ r, create_exec_approval_requirement_for_parsed_commands p req parsed platform = Some r ∧
    requirement_means (request_policy p req) judge (approval_policy req) (commands parsed) r.
Proof.
  intros Hne judge. unfold create_exec_approval_requirement_for_parsed_commands.
  fold (request_policy p req). set (q := request_policy p req) in *.
  rewrite check_multiple_verdicts. fold judge.
  destruct (decisions_max (judge <$> commands parsed)) as [d|] eqn:E.
  2:{ by apply decisions_max_None, fmap_nil_inv in E. }
  eexists. split; [reflexivity|]. apply decisions_max_spec in E as [(c0 & -> & Hc0)%list_elem_of_fmap Hub].
  assert (Hle : ∀ c, c ∈ commands parsed → decision_le (judge c) (judge c0)).
  { intros c Hc. by apply Hub, list_elem_of_fmap_2. }
  unfold requirement_of. cbn [eval_decision matched_rules]. destruct (judge c0) eqn:Ed.
  - assert (Hallow : ∀ c, c ∈ commands parsed → judge c = Allow).
    { intros c Hc. specialize (Hle c Hc). unfold decision_le in Hle. destruct (judge c); simpl in Hle; [done|lia..]. }
    split; [done|]. rewrite forallb_forall. setoid_rewrite <- list_elem_of_In. apply forall_proper. intros c.
    split; intros Hall Hc; apply (allow_rule_matches _ _ _ (Hallow c Hc)); by apply Hall.
  - assert (Hnf : ∀ c, c ∈ commands parsed → judge c ≠ Forbidden).
    { intros c Hc Hf. specialize (Hle c Hc). rewrite Hf in Hle. unfold decision_le in Hle. simpl in Hle. lia. }
    set (by_rule := existsb is_prompt_rule _).
    assert (Hmp : prompt_is_rejected_by_policy (approval_policy req) by_rule = None ↔
      may_prompt (approval_policy req) (∃ c m, c ∈ commands parsed ∧
        m ∈ rule_derived_matches q c MATCH_OPTIONS ∧ match_decision m = Prompt)).
    { rewrite prompt_rejection. apply may_prompt_iff, existsb_prompt_rule. }
    destruct (prompt_is_rejected_by_policy _ by_rule) as [reason|] eqn:Er.
    + assert (¬ may_prompt (approval_policy req) (∃ c m, c ∈ commands parsed ∧
        m ∈ rule_derived_matches q c MATCH_OPTIONS ∧ match_decision m = Prompt)) by (intros ?%Hmp; done).
      destruct by_rule; right; (split; [done|]); (split; [by exists c0|done]).
    + split; [done|]. split; [by exists c0|by apply Hmp].
  - left. by exists c0.
Qed.

Lemma commands_for_exec_policy_nonempty command platform :
  commands (commands_for_exec_policy_for_platform command platform) ≠ [].
Proof.
  unfold commands_for_exec_policy_for_platform, nonempty.
  destruct (parse_shell_lc_plain_commands command) as [[|c cs]|]; [|done|];
    destruct platform, (parse_powershell_command_into_plain_commands command) as [[|]|]; done.
Qed.

(** ** Adding an allow rule *)

Lemma add_allow_rule_eq a p p' :
  add_allow_rule a p = Some p' →
  ∃ t rest, a = t :: rest ∧
    p' = ExecPolicy.mkPolicy
           (mm_insert t (mkPrefixRule (mkPattern t (Single <$> rest)) Allow None) (rules_by_program p))
           (network_rules p) (host_executables_by_name p).
Proof. destruct a as [|t rest]; [done|]. intros [= <-]. by exists t, rest. Qed.

(** The matches of the rules of one program, with the new rule among them. *)
Lemma inserted_matches p t rest k c m :
  let r := mkPrefixRule (mkPattern t (Single <$> rest)) Allow None in
  m ∈ omap (λ r, rule_matches (A := A) r c) (get_vec (mm_insert t r (rules_by_program p)) k) ↔
  m ∈ omap (λ r, rule_matches r c) (get_vec (rules_by_program p) k) ∨
  (k = t ∧ (t :: rest) `prefix_of` c ∧ m = PrefixRuleMatch (t :: rest) Allow None None).
Proof.
  intros r. rewrite get_vec_insert, omap_app, elem_of_app. case_decide as Hk; simpl;
    [|split; [intros [?|?%not_elem_of_nil]; naive_solver|naive_solver]].
  unfold r. rewrite literal_rule_matches. case_decide as Hp; simpl.
  - rewrite list_elem_of_singleton. naive_solver.
  - split; [intros [?|?%not_elem_of_nil]; naive_solver|naive_solver].
Qed.

Lemma host_matches_program p c :
  (∃ k c' program, ∀ q, host_executables_by_name q = host_executables_by_name p →
     match_host_executable_rules q c =
       (λ m, with_resolved_program m program) <$> omap (λ r, rule_matches r c') (get_vec (rules_by_program q) k)) ∨
  (∀ q, host_executables_by_name q = host_executables_by_name p → match_host_executable_rules q c = []).
Proof.
  setoid_rewrite host_matches_get_vec. destruct (_ ≫= _) as [program|]; [|by right].
  destruct (executable_path_lookup_key program) as [k|]; [|by right].
  destruct (match host_executables_by_name p !! k with
            | Some paths => negb (existsb (λ path, bool_decide (path = program)) paths)
            | None => false
            end) eqn:E.
  - right. intros q ->. by rewrite E.
  - left. eexists k, _, program. intros q ->. by rewrite E.
Qed.

Lemma add_allow_exact a p p' c m :
  add_allow_rule a p = Some p' →
  m ∈ default [] (match_exact_rules p' c) ↔
  m ∈ default [] (match_exact_rules p c) ∨ (a `prefix_of` c ∧ m = PrefixRuleMatch a Allow None None).
Proof.
  intros (t & rest & -> & ->)%add_allow_rule_eq. unfold match_exact_rules. destruct c as [|k c]; simpl.
  - rewrite elem_of_nil. split; [done|]. intros [?|[?%prefix_nil_not _]]; done.
  - rewrite inserted_matches. split; [naive_solver|]. intros [?|[Hpre ->]]; [by left|right].
    split; [by apply prefix_cons_inv_1 in Hpre|done].
Qed.

Lemma add_allow_host a p p' c :
  add_allow_rule a p = Some p' →
  (∀ m, m ∈ match_host_executable_rules p c → m ∈ match_host_executable_rules p' c) ∧
  (∀ m, m ∈ match_host_executable_rules p' c → m ∈ match_host_executable_rules p c ∨ match_decision m = Allow).
Proof.
  intros (t & rest & -> & ->)%add_allow_rule_eq.
  destruct (host_matches_program p c) as [(k & c' & program & Hq)|Hq]; rewrite !Hq by done; [|split; [done|by left]].
  cbn [rules_by_program]. setoid_rewrite list_elem_of_fmap. setoid_rewrite inserted_matches.
  split; [naive_solver|]. intros m (m' & -> & [?|(_ & _ & ->)]); [left; by exists m'|by right].
Qed.

(** The rules that match afterwards matched before, or are the new rule; no match is lost
    altogether, and a command with the prefix is matched. *)
Lemma add_allow_matches a p p' c :
  add_allow_rule a p = Some p' →
  (∀ m, m ∈ rule_derived_matches p' c MATCH_OPTIONS →
     m ∈ rule_derived_matches p c MATCH_OPTIONS ∨ match_decision m = Allow) ∧
  (rule_derived_matches p' c MATCH_OPTIONS = [] → rule_derived_matches p c MATCH_OPTIONS = [] ∧ ¬ a `prefix_of` c) ∧
  ((∃ m, m ∈ rule_derived_matches p c MATCH_OPTIONS ∧ match_decision m = Allow) ∨ a `prefix_of` c →
   ∃ m, m ∈ rule_derived_matches p' c MATCH_OPTIONS ∧ match_decision m = Allow).
Proof.
  intros Ha. pose proof (λ m, add_allow_exact a p p' c m Ha) as Hexact.
  destruct (add_allow_host a p p' c Ha) as [Hh1 Hh2]. rewrite !derived_cases. revert Hexact.
  destruct (default [] (match_exact_rules p' c)) as [|e' es'], (default [] (match_exact_rules p c)) as [|e es]; intros Hexact.
  - assert (Hnot : ¬ a `prefix_of` c) by (intros Hpre; eapply not_elem_of_nil, Hexact; by right).
    split; [exact Hh2|]. split; [|by intros [(m & Hm & Hd)|?]; [exists m; split; [by apply Hh1|done]|]].
    intros Hn. split; [apply elem_of_nil_inv; intros m Hm; apply Hh1 in Hm; rewrite Hn in Hm; by apply elem_of_nil in Hm|done].
  - exfalso. eapply not_elem_of_nil, Hexact. left. by left.
  - split; [|split; [done|]].
    + intros m [?%not_elem_of_nil|[_ ->]]%Hexact; [done|by right].
    + intros _. exists e'. split; [by left|].
      by destruct (proj1 (Hexact e') (list_elem_of_here _ _)) as [?%not_elem_of_nil|[_ ->]].
  - split; [|split; [done|]].
    + intros m [?|[_ ->]]%Hexact; [by left|by right].
    + intros [(m & Hm & Hd)|Hpre]; [exists m; split; [by apply Hexact; left|done]|].
      eexists. split; [apply Hexact; right; split; [done|reflexivity]|done].
Qed.

(** Adding an allow rule makes no command stricter, and allows what no rule matched. *)
Lemma add_allow_verdict fallback a p p' c :
  add_allow_rule a p = Some p' →
  decision_le (verdict fallback p' c) (verdict fallback p c) ∧
  (a `prefix_of` c → rule_derived_matches p c MATCH_OPTIONS = [] → verdict fallback p' c = Allow).
Proof.
  intros Ha. destruct (add_allow_matches a p p' c Ha) as (Hin & Hnil & _). unfold verdict at 1 3.
  destruct (decisions_max (match_decision <$> rule_derived_matches p' c MATCH_OPTIONS)) as [d|] eqn:E; simpl.
  - apply decisions_max_spec in E as [(m & -> & Hm)%list_elem_of_fmap _]. split.
    + destruct (Hin m Hm) as [Hm'| ->]; [by apply verdict_rule_le|]. unfold decision_le. simpl. lia.
    + intros _ Hn. destruct (Hin m Hm) as [Hm'|?]; [|done]. rewrite Hn in Hm'. by apply not_elem_of_nil in Hm'.
  - apply decisions_max_None, fmap_nil_inv in E. destruct (Hnil E) as [Hp Hpre].
    split; [unfold verdict; rewrite Hp; unfold decision_le; simpl; lia|done].
Qed.
End Requirement.
