(* ===== verification/ExecApprovalSafety.v ===== *)
(** The guarantees of command approval: the meaning of every answer, dangerous commands,
    unfamiliar shells, accepted amendments, and models whose allow rules are ignored. *)
From stdpp Require Import base list sets numbers strings gmap.
From S2P Require Import Prelude RustStr PathConv ExecRule ExecPolicy ExecPolicyFacts UrlLib PathUri UrlModel Permissions PolicyTransforms ShellSyntax PowerShellSyntax DangerousCommand ExecApproval ExecApprovalFacts.

Section Safety.
Context {A : Type} `{AP : AbsolutePathBuf A} `{UL : UrlLib}.
Context `{CL : CommandLibs} `{BP : BashParser} `{PP : PowerShellParser}.
Implicit Types (p q : ExecPolicy.Policy A) (c command : list str) (platform : DangerousCommandPlatform)
  (req : ExecApprovalRequest (A := A)) (cs : list (list str)).

(** ** Amended and filtered policies *)

Lemma add_allow_overlay a p p' env :
  add_allow_rule a p = Some p' →
  ∃ q', add_allow_rule a (merge_overlay p env) = Some q' ∧ policy_equiv (merge_overlay p' env) q'.
Proof.
  intros (t & rest & -> & ->)%add_allow_rule_eq. eexists. split; [reflexivity|]. split; [|done].
  intros k. cbn [rules_by_program]. rewrite !get_vec_insert, !get_vec_overlay. cbn [rules_by_program].
  rewrite get_vec_insert, <- !app_assoc. f_equiv. apply Permutation_app_comm.
Qed.

Lemma add_allow_request_policy a p p' req :
  allow_prefix_rules req = Honor → add_allow_rule a p = Some p' →
  ∃ q', add_allow_rule a (request_policy p req) = Some q' ∧ policy_equiv (request_policy p' req) q'.
Proof.
  unfold request_policy, current_for_environment. intros -> Ha. simpl.
  destruct (environment_policy req) as [env|]; [by apply add_allow_overlay|by exists p'].
Qed.

Lemma filtered_rules p k :
  get_vec (rules_by_program (current_for_prefix_rules p IgnoreForCyberModel)) k
  = filter (λ r, rule_decision r ≠ Allow) (get_vec (rules_by_program p) k).
Proof.
  cbn [current_for_prefix_rules rules_by_program].
  assert (Hfold : ∀ es (m : gmap str (list PrefixRule)),
    foldl (λ m e, mm_insert e.1 e.2 m) m (e ← es; pair e.1 <$> filter (λ r, rule_decision r ≠ Allow) e.2)
    = foldl (λ m e, mm_insert_all e.1 e.2 m) m (prod_map id (filter (λ r, rule_decision r ≠ Allow)) <$> es)).
  { intros es. induction es as [|[k' rs] es IH]; intros m; [done|].
    rewrite bind_cons, foldl_app, fmap_cons, IH. simpl. f_equal. unfold mm_insert_all.
    generalize (filter (λ r, rule_decision r ≠ Allow) rs). intros l. revert m.
    induction l as [|r l IHl]; intros m; [done|]. apply IHl. }
  rewrite Hfold, get_vec_entries.
  - rewrite list_to_map_fmap, list_to_map_to_list, lookup_fmap. unfold get_vec. rewrite lookup_empty. simpl.
    by destruct (rules_by_program p !! k).
  - rewrite <- list_fmap_compose. apply NoDup_fst_map_to_list.
Qed.

(** ** The answers *)

(** C1: The answer to a command line is decided by the verdicts on the commands a shell would run:
    for every request there is an answer (the evaluation never panics); approval is skipped
    exactly when every command is allowed, and the sandbox bypassed exactly when moreover
    every command is matched by a rule; a forbidden command, or a prompt that the approval
    settings reject, forbids the command line; approval is asked for otherwise. *)
Theorem command_approval_exact p req platform :
  let parsed := commands_for_exec_policy_for_platform (req_command req) platform in
  let judge := verdict (exec_policy_fallback req (command_origin parsed) platform) (request_policy p req) in
  ∃ r, create_exec_approval_requirement_for_command_platform p req platform = Some r ∧
    requirement_means (request_policy p req) judge (approval_policy req) (commands parsed) r.
Proof. intros parsed. apply requirement_exact, commands_for_exec_policy_nonempty. Qed.

Lemma answer_means p req parsed platform r :
  commands parsed ≠ [] →
  create_exec_approval_requirement_for_parsed_commands p req parsed platform = Some r →
  requirement_means (request_policy p req)
    (verdict (exec_policy_fallback req (command_origin parsed) platform) (request_policy p req))
    (approval_policy req) (commands parsed) r.
Proof. intros Hne Hr. destruct (requirement_exact p req parsed platform Hne) as (r' & Hr' & Hm). by simplify_eq. Qed.

Lemma dangerous_verdict req origin platform q c :
  rule_derived_matches q c MATCH_OPTIONS = [] →
  is_Some (dangerous_command_match_for_origin c origin platform) →
  verdict (exec_policy_fallback req origin platform) q c
  = if decide (approval_policy req = Never) then Forbidden else Prompt.
Proof.
  intros Hn Hd. unfold verdict. rewrite Hn. simpl.
  unfold exec_policy_fallback, render_decision_for_unmatched_command_for_platform. cbn [u_command_origin u_approval_policy].
  rewrite bool_decide_true by done. simpl. by destruct (approval_policy req).
Qed.

(** C20: A dangerous command that no rule covers is never waved through: whatever else the command
    line contains and whatever the sandbox, the request is not answered with a skip; under
    the settings that never ask, the command line is forbidden. *)
Theorem dangerous_command_never_skipped p req platform c r :
  let parsed := commands_for_exec_policy_for_platform (req_command req) platform in
  c ∈ commands parsed →
  rule_derived_matches (request_policy p req) c MATCH_OPTIONS = [] →
  is_Some (dangerous_command_match_for_origin c (command_origin parsed) platform) →
  create_exec_approval_requirement_for_command_platform p req platform = Some r →
  (∀ bypass amendment, r ≠ Exec_Skip bypass amendment) ∧
  (approval_policy req = Never → ∃ reason, r = Exec_Forbidden reason).
Proof.
  intros parsed Hc Hn Hd Hm%answer_means; [|apply commands_for_exec_policy_nonempty]. fold parsed in Hm.
  pose proof (dangerous_verdict req _ _ _ _ Hn Hd) as Hv.
  destruct r as [b a|reason a|reason]; split; try done.
  - intros _ _ _. destruct Hm as [Hall _]. specialize (Hall c Hc). rewrite Hall in Hv. by destruct (decide _).
  - intros Hnever. destruct Hm as [Hall _]. specialize (Hall c Hc). rewrite Hall in Hv. by destruct (decide _).
  - intros Hnever. destruct Hm as (_ & _ & Hmay). by rewrite Hnever in Hmay.
  - by exists reason.
Qed.

(** ** Unfamiliar shells *)

(** An unfamiliar executable gains no trust from the script it is given: when the shell is
    neither the configured one nor a system shell, the command line is skipped only if the
    executable alone is allowed and every command of the script is, and the sandbox is
    bypassed only if a rule matches the executable alone. *)
Theorem unfamiliar_shell_gains_no_trust p req shell mode platform executable args bypass amendment :
  req_command req = executable :: args → args ≠ [] →
  shell_approval_command (req_command req) shell mode ≠ req_command req →
  create_exec_approval_requirement_for_shell p req shell mode platform = Some (Exec_Skip bypass amendment) →
  let parsed := untrusted_shell_commands (req_command req) platform in
  let judge := verdict (exec_policy_fallback req (command_origin parsed) platform) (request_policy p req) in
  judge [executable] = Allow ∧ (∀ c, c ∈ commands parsed → judge c = Allow) ∧
  (bypass = true → rule_derived_matches (request_policy p req) [executable] MATCH_OPTIONS ≠ []).
Proof.
  intros Hc Hargs Hs Hr parsed judge.
  assert (He : shell_approval_command (req_command req) shell mode = [executable]).
  { revert Hs. rewrite Hc. simpl. by destruct (_ || _). }
  unfold create_exec_approval_requirement_for_shell in Hr. rewrite He in Hr.
  rewrite (proj2 (Nat.eqb_neq _ _)) in Hr; [|rewrite Hc; simpl; by destruct args].
  apply answer_means in Hr; [|done]. cbn [command_origin commands] in Hr. destruct Hr as [Hall Hb].
  split; [apply Hall; by left|]. split; [intros c Hin; apply Hall; by right|].
  intros Hbypass. apply Hb; [done|by left].
Qed.

(** ** Accepted amendments *)

Lemma all_allowed_skip p req platform :
  let parsed := commands_for_exec_policy_for_platform (req_command req) platform in
  (∀ c, c ∈ commands parsed →
     verdict (exec_policy_fallback req (command_origin parsed) platform) (request_policy p req) c = Allow) →
  ∃ bypass amendment,
    create_exec_approval_requirement_for_command_platform p req platform = Some (Exec_Skip bypass amendment).
Proof.
  intros parsed Hall. destruct (requirement_exact p req parsed platform) as (r & Hr & Hm);
    [apply commands_for_exec_policy_nonempty|].
  destruct r as [b a|reason a|reason]; [by exists b, a|exfalso..].
  - destruct Hm as (_ & (c & Hc & Hp) & _). specialize (Hall c Hc). congruence.
  - destruct Hm as [(c & Hc & Hp)|(_ & (c & Hc & Hp) & _)]; specialize (Hall c Hc); congruence.
Qed.

Lemma first_heuristic_spec fallback q cs d a :
  first_heuristic d (all_matches fallback q cs) = Some a →
  a ∈ cs ∧ rule_derived_matches q a MATCH_OPTIONS = [] ∧ fallback a = d.
Proof.
  unfold first_heuristic. intros Hh. apply head_Some_elem_of in Hh.
  apply list_elem_of_omap in Hh as (m & (c & Hc & [Hm|[Hn ->]])%elem_of_all_matches & Ha).
  - apply derived_is_prefix_match in Hm as (? & ? & ? & ? & ->). done.
  - case_bool_decide; [|done]. injection Ha as ->. done.
Qed.

Lemma proposed_amendment_origin p req platform reason a :
  create_exec_approval_requirement_for_command_platform p req platform
    = Some (Exec_NeedsApproval reason (Some a)) →
  let parsed := commands_for_exec_policy_for_platform (req_command req) platform in
  let fallback := exec_policy_fallback req (command_origin parsed) platform in
  let q := request_policy p req in
  allow_prefix_rules req = Honor ∧
  ((prefix_rule req = Some a ∧ (a ∉ BANNED_PREFIX_SUGGESTIONS) ∧
    prefix_rule_would_approve_all_commands q a (commands parsed) fallback MATCH_OPTIONS = true) ∨
   (a ∈ commands parsed ∧ rule_derived_matches q a MATCH_OPTIONS = [] ∧ fallback a = Prompt)).
Proof.
  intros Hr parsed fallback q.
  unfold create_exec_approval_requirement_for_command_platform,
    create_exec_approval_requirement_for_parsed_commands in Hr.
  fold parsed fallback (request_policy p req) q in Hr. rewrite check_multiple_verdicts in Hr.
  apply fmap_Some in Hr as (ev & Hev & Hr). destruct (decisions_max _); [|done]. injection Hev as <-.
  unfold requirement_of in Hr. cbn [eval_decision matched_rules] in Hr. fold fallback in Hr.
  destruct d; [done| |done]. destruct (prompt_is_rejected_by_policy _ _); [by destruct (existsb _ _)|].
  injection Hr as _ Hr. case_bool_decide as Hauto; [|done]. split; [done|].
  destruct (derive_requested_execpolicy_amendment_from_prefix_rule _ _ _ _ _ _) as [a'|] eqn:Ed.
  - injection Hr as ->. left. unfold derive_requested_execpolicy_amendment_from_prefix_rule in Ed.
    destruct (prefix_rule req) as [prefix|]; [|done]. simpl in Ed.
    destruct (is_empty prefix); [done|]. case_bool_decide; [done|].
    destruct (existsb is_policy_match _); [done|]. by case_match; simplify_eq.
  - right. unfold try_derive_execpolicy_amendment_for_prompt_rules in Hr.
    destruct (existsb is_prompt_rule _); [done|]. by apply first_heuristic_spec.
Qed.


(** ** Ignored allow rules *)

Definition answer_amendment (r : ExecApprovalRequirement) : option ExecPolicyAmendment :=
  match r with
  | Exec_Skip _ a | Exec_NeedsApproval _ a => a
  | Exec_Forbidden _ => None
  end.

Lemma no_amendment p req parsed platform r :
  allow_prefix_rules req = IgnoreForCyberModel →
  create_exec_approval_requirement_for_parsed_commands p req parsed platform = Some r →
  answer_amendment r = None.
Proof.
  unfold create_exec_approval_requirement_for_parsed_commands. intros Hi (ev & _ & ->)%fmap_Some.
  unfold requirement_of. rewrite Hi. rewrite bool_decide_false by done.
  destruct (eval_decision ev); [done| |done].
  destruct (prompt_is_rejected_by_policy _ _); [by destruct (existsb is_prompt_rule _)|done].
Qed.

Lemma filtered_exact p c m :
  m ∈ default [] (match_exact_rules (current_for_prefix_rules p IgnoreForCyberModel) c) ↔
  m ∈ default [] (match_exact_rules p c) ∧ match_decision m ≠ Allow.
Proof.
  unfold match_exact_rules. destruct (head c) as [k|]; cbn [mbind option_bind default from_option id]; [|rewrite elem_of_nil; naive_solver].
  rewrite filtered_rules. rewrite !list_elem_of_omap. setoid_rewrite list_elem_of_filter. split.
  - intros (r & [Hd Hr] & Hm). split; [by exists r|]. by apply rule_matches_applies in Hm as [_ ->].
  - intros [(r & Hr & Hm) Hd]. exists r. split; [split; [|done]|done].
    by apply rule_matches_applies in Hm as [_ <-].
Qed.

Lemma filtered_no_allow p c m :
  m ∈ rule_derived_matches (current_for_prefix_rules p IgnoreForCyberModel) c MATCH_OPTIONS → match_decision m ≠ Allow.
Proof.
  rewrite derived_cases. destruct (default [] (match_exact_rules _ c)) as [|m0 ms] eqn:E.
  - destruct (host_matches_program p c) as [(k & c' & program & Hq)|Hq]; rewrite Hq by done;
      [|by intros ?%elem_of_nil]. rewrite filtered_rules.
    intros (m' & -> & (r & [Hd _]%list_elem_of_filter & Hm)%list_elem_of_omap)%list_elem_of_fmap.
    apply rule_matches_applies in Hm as [_ Hm]. by destruct m'; simpl in *; rewrite Hm.
  - rewrite <- E. intros Hm. by apply filtered_exact in Hm as [_ ?].
Qed.

(** For a model whose allow rules are ignored, no rule grants anything: no amendment is
    proposed, the sandbox is never bypassed, and a command line is skipped only if no rule
    matches its commands and the heuristics allow each; every stricter rule that names the
    command still applies. *)
Theorem ignored_allow_rules_grant_nothing p req platform r :
  allow_prefix_rules req = IgnoreForCyberModel → environment_policy req = None →
  create_exec_approval_requirement_for_command_platform p req platform = Some r →
  let parsed := commands_for_exec_policy_for_platform (req_command req) platform in
  let fallback := exec_policy_fallback req (command_origin parsed) platform in
  answer_amendment r = None ∧
  (∀ bypass amendment, r = Exec_Skip bypass amendment →
     bypass = false ∧ ∀ c, c ∈ commands parsed → fallback c = Allow) ∧
  (∀ c m, m ∈ default [] (match_exact_rules p c) → match_decision m ≠ Allow →
     decision_le (match_decision m) (verdict fallback (request_policy p req) c)).
Proof.
  intros Hi He Hr parsed fallback.
  assert (Hq : request_policy p req = current_for_prefix_rules p IgnoreForCyberModel).
  { unfold request_policy, current_for_environment. by rewrite He, Hi. }
  split; [by eapply no_amendment|]. split.
  - intros bypass amendment ->. apply answer_means in Hr; [|apply commands_for_exec_policy_nonempty].
    fold parsed fallback in Hr. rewrite Hq in Hr. destruct Hr as [Hall Hb].
    assert (Hnone : ∀ c, c ∈ commands parsed → rule_derived_matches (current_for_prefix_rules p IgnoreForCyberModel) c MATCH_OPTIONS = []).
    { intros c Hc. apply elem_of_nil_inv. intros m Hm. pose proof (filtered_no_allow _ _ _ Hm) as Hna.
      pose proof (verdict_rule_le fallback _ _ _ Hm) as Hle. rewrite (Hall c Hc) in Hle.
      unfold decision_le in Hle. destruct (match_decision m); simpl in Hle; [done|lia..]. }
    split.
    + destruct bypass; [|done]. exfalso. assert (commands parsed ≠ []) as Hne by apply commands_for_exec_policy_nonempty.
      destruct (commands parsed) as [|c cs] eqn:E; [done|]. apply (proj1 Hb eq_refl c); [by left|apply Hnone; by left].
    + intros c Hc. specialize (Hall c Hc). unfold verdict in Hall. by rewrite (Hnone c Hc) in Hall.
  - intros c m Hm Hd. rewrite Hq. apply verdict_rule_le. rewrite derived_cases.
    assert (Hin : m ∈ default [] (match_exact_rules (current_for_prefix_rules p IgnoreForCyberModel) c)) by by apply filtered_exact.
    revert Hin. by destruct (default [] (match_exact_rules (current_for_prefix_rules p IgnoreForCyberModel) c)); [intros ?%elem_of_nil|].
Qed.
End Safety.

(** * Examples *)

(** Libraries that split and join at spaces, and parsers that parse nothing. *)
#[local] Instance space_libs : CommandLibs := {|
  shlex_split s := Some (split_char 32%N s);
  shlex_try_join args := Some (join (lit " ") args);
  url_in_punctuation _ := None;
  url_scheme_of _ := None;
|}.
#[local] Instance no_bash : BashParser := λ _, None.
#[local] Instance no_powershell : PowerShellParser := λ _, None.

Definition sample_request (command : list str) (settings : AskForApproval) (allow : AllowPrefixRules)
    (prefix : option (list str)) : ExecApprovalRequest (A := str) :=
  mkRequest command settings Disabled None LevelDisabled UseDefault prefix allow.

Definition rm_request : ExecApprovalRequest (A := str) :=
  sample_request [lit "rm"; lit "-rf"; lit "x"] Never Honor None.

Lemma dangerous_command_never_skipped_witness :
  ∃ reason, create_exec_approval_requirement_for_command_platform (empty_policy (A := str)) rm_request Posix
    = Some (Exec_Forbidden reason).
Proof.
  destruct (create_exec_approval_requirement_for_command_platform (empty_policy (A := str)) rm_request Posix)
    as [r|] eqn:E; [|discriminate].
  destruct (dangerous_command_never_skipped empty_policy rm_request Posix [lit "rm"; lit "-rf"; lit "x"] r)
    as [_ H]; [by left|reflexivity|by eexists|exact E|].
  destruct (H eq_refl) as [reason ->]. by exists reason.
Defined.

(** [git] is matched by a rule that prompts; [make] by none. *)
Definition make_request (prefix : option (list str)) : ExecApprovalRequest (A := str) :=
  sample_request [lit "make"; lit "test"] UnlessTrusted Honor prefix.


Definition unfamiliar_request : ExecApprovalRequest (A := str) :=
  sample_request [lit "/tmp/bash"; lit "-lc"; lit "ls"] Never Honor None.

Lemma unfamiliar_shell_gains_no_trust_witness :
  exec_policy_fallback unfamiliar_request GenericOrigin Posix [lit "/tmp/bash"] = Allow.
Proof.
  refine (proj1 (unfamiliar_shell_gains_no_trust (empty_policy (A := str)) unfamiliar_request (lit "/bin/zsh") Direct
    Posix (lit "/tmp/bash") [lit "-lc"; lit "ls"] false (Some [lit "/tmp/bash"]) eq_refl _ _ _)); [done|done|reflexivity].
Defined.

Lemma ignored_allow_rules_grant_nothing_witness :
  create_exec_approval_requirement_for_command_platform ls_policy
    (sample_request [lit "ls"] OnRequest IgnoreForCyberModel None) Posix = Some (Exec_Skip false None) ∧
  answer_amendment (Exec_Skip false None) = None.
Proof.
  split; [reflexivity|].
  refine (proj1 (ignored_allow_rules_grant_nothing ls_policy
    (sample_request [lit "ls"] OnRequest IgnoreForCyberModel None) Posix (Exec_Skip false None) eq_refl eq_refl _)).
  reflexivity.
Defined.
