(* ===== verification/ExecManager.v ===== *)
(** The policy of a session: loading the rules files of the configuration layers and
    updating the policy while commands run ([exec_policy.rs] of [codex-core]; the layers of
    [config_layer_source.rs] and [state.rs] of [codex-config]). *)
From stdpp Require Import base list numbers strings gmap sorting.
From S2P Require Import Prelude RustStr ExecRule ExecPolicy ExecPolicyParser ExecAmend ExecApproval.

(** * Configuration layers *)

Inductive ConfigLayerSource (P : Type) : Type :=
| PackagedDefaults (file : P)
| Mdm (domain key : str)
| System (file : P)
| EnterpriseManaged (id name : str)
| User (file : P) (profile : option str)
| Project (dot_codex_folder : P)
| SessionFlags
| LegacyManagedConfigTomlFromFile (file : P)
| LegacyManagedConfigTomlFromMdm.
Arguments PackagedDefaults {P} file.
Arguments Mdm {P} domain key.
Arguments System {P} file.
Arguments EnterpriseManaged {P} id name.
Arguments User {P} file profile.
Arguments Project {P} dot_codex_folder.
Arguments SessionFlags {P}.
Arguments LegacyManagedConfigTomlFromFile {P} file.
Arguments LegacyManagedConfigTomlFromMdm {P}.

(** An entry of a directory: its path, and whether it is a regular file. *)
Record DirEntry (P : Type) : Type := mkDirEntry { de_path : P; de_is_file : Result bool io_error }.
Arguments mkDirEntry {P} de_path de_is_file.
Arguments de_path {P} _.
Arguments de_is_file {P} _.

(** What loading uses of paths and of the file system. [path_extension] is the extension
    when it is valid Unicode; [path_le] is the order of [PathBuf]. *)
Class RulesFiles (P : Type) := {
  parent_dir : P → option P;
  path_join : P → str → P;
  path_extension : P → option str;
  path_le : P → P → bool;
  to_string_lossy : P → str;
  read_dir : P → Result (list (Result (DirEntry P) io_error)) io_error;
  read_to_string : P → Result str io_error;
}.

Definition RULES_DIR_NAME : str := lit "rules".
Definition RULE_EXTENSION : str := lit "rules".
Definition DEFAULT_POLICY_FILE : str := lit "default.rules".

Abbreviation RuleError A := (Error (StarlarkError A)).

Section Manager.
Context {A P : Type} `{AP : AbsolutePathBuf A} `{RT : PolicyRuntime A} `{RF : RulesFiles P}.

Record ConfigLayerEntry : Type := mkLayer {
  layer_name : ConfigLayerSource P;
  disabled_reason : option str;
}.

(** What the policy reads of [ConfigLayerStack]. *)
Record ConfigLayerStack : Type := mkStack {
  layers : list ConfigLayerEntry;
  requirements_exec_policy : option (ExecPolicy.Policy A);
  ignore_user_and_project_exec_policy_rules : bool;
}.

Definition is_disabled (l : ConfigLayerEntry) : bool := bool_decide (is_Some (disabled_reason l)).

Definition config_folder (l : ConfigLayerEntry) : option P :=
  match layer_name l with
  | System file | User file _ => parent_dir file
  | Project dot_codex_folder => Some dot_codex_folder
  | PackagedDefaults _ | Mdm _ _ | EnterpriseManaged _ _ | SessionFlags
  | LegacyManagedConfigTomlFromFile _ | LegacyManagedConfigTomlFromMdm => None
  end.

Definition layers_low_to_high (stack : ConfigLayerStack) : list ConfigLayerEntry :=
  filter (λ l, is_disabled l = false) (layers stack).

(** * Loading *)

Inductive ExecPolicyError : Type :=
| ReadDirError (dir : P) (source : io_error)
| ReadFileError (path : P) (source : io_error)
| ParsePolicyError (path : str) (source : RuleError A).

Fixpoint insert_path (x : P) (l : list P) : list P :=
  match l with
  | [] => [x]
  | y :: l => if path_le x y then x :: y :: l else y :: insert_path x l
  end.

(** The entries of the directory that are rules files, in the order of the directory. *)
Fixpoint rules_entries (dir : P) (entries : list (Result (DirEntry P) io_error))
    : Result (list P) ExecPolicyError :=
  match entries with
  | [] => Ok []
  | Err e :: _ => Err (ReadDirError dir e)
  | Ok entry :: entries =>
      match de_is_file entry with
      | Err e => Err (ReadDirError dir e)
      | Ok is_file =>
          let? paths := rules_entries dir entries in
          Ok (if bool_decide (path_extension (de_path entry) = Some RULE_EXTENSION) && is_file
              then de_path entry :: paths else paths)
      end
  end.

Definition collect_policy_files (dir : P) : Result (list P) ExecPolicyError :=
  match read_dir dir with
  | Err e => if bool_decide (io_kind e = NotFound) then Ok [] else Err (ReadDirError dir e)
  | Ok entries =>
      let? paths := rules_entries dir entries in
      Ok (foldr insert_path [] paths)
  end.

Definition is_user_or_project (l : ConfigLayerEntry) : bool :=
  match layer_name l with User _ _ | Project _ => true | _ => false end.

Fixpoint collect_layers (ignore : bool) (ls : list ConfigLayerEntry) : Result (list P) ExecPolicyError :=
  match ls with
  | [] => Ok []
  | l :: ls =>
      if ignore && is_user_or_project l then collect_layers ignore ls
      else
        let? paths := match config_folder l with
                      | Some folder => collect_policy_files (path_join folder RULES_DIR_NAME)
                      | None => Ok []
                      end in
        let? rest := collect_layers ignore ls in
        Ok (paths ++ rest)
  end.

Fixpoint parse_files (paths : list P) (b : PolicyBuilder A) : Result (PolicyBuilder A) ExecPolicyError :=
  match paths with
  | [] => Ok b
  | path :: paths =>
      let? contents := map_err (ReadFileError path) (read_to_string path) in
      match parse_policy (to_string_lossy path) contents b with
      | (b, Ok _) => parse_files paths b
      | (_, Err e) => Err (ParsePolicyError (to_string_lossy path) e)
      end
  end.

Definition load_exec_policy (stack : ConfigLayerStack) : Result (ExecPolicy.Policy A) ExecPolicyError :=
  let? paths := collect_layers (ignore_user_and_project_exec_policy_rules stack) (layers_low_to_high stack) in
  let? b := parse_files paths new_builder in
  Ok (match requirements_exec_policy stack with
      | None => build b
      | Some requirements => merge_overlay (build b) requirements
      end).

Definition load_exec_policy_with_warning (stack : ConfigLayerStack)
    : Result (ExecPolicy.Policy A * option ExecPolicyError) ExecPolicyError :=
  match load_exec_policy stack with
  | Ok policy => Ok (policy, None)
  | Err (ParsePolicyError path source) =>
      Ok (default empty_policy (requirements_exec_policy stack), Some (ParsePolicyError path source))
  | Err e => Err e
  end.

(** A child session may share its parent's policy. *)
Definition child_uses_parent_exec_policy `{EqDecision P} (policy_eqb : option (ExecPolicy.Policy A) → option (ExecPolicy.Policy A) → bool)
    (parent child : ConfigLayerStack) : bool :=
  let folders stack := omap config_folder (layers_low_to_high stack) in
  bool_decide (folders parent = folders child)
  && Bool.eqb (ignore_user_and_project_exec_policy_rules parent) (ignore_user_and_project_exec_policy_rules child)
  && policy_eqb (requirements_exec_policy parent) (requirements_exec_policy child).
End Manager.
Arguments ExecPolicyError A P {_}.
Arguments ConfigLayerEntry P : clear implicits.
Arguments ConfigLayerStack A P : clear implicits.

(** * Updating *)

Section Update.
Context {A P W : Type} `{AP : AbsolutePathBuf A} `{RT : PolicyRuntime A} `{RF : RulesFiles P}.
Context `{PF : PolicyFiles W P} `{JS : Json} (error_text : RuleError A → str).
Implicit Types (p : ExecPolicy.Policy A).

Inductive ExecPolicyUpdateError : Type :=
| AppendRuleError (path : P) (source : AmendError P JsonError)
| AddRuleError (source : RuleError A).

Definition default_policy_path (codex_home : P) : P :=
  path_join (path_join codex_home RULES_DIR_NAME) DEFAULT_POLICY_FILE.

(** The two kinds of updates. *)
Inductive Update : Type :=
| AppendAmendment (amendment : ExecPolicyAmendment)
| AppendNetworkRule (host : str) (protocol : NetworkRuleProtocol) (decision : Decision) (justification : option str).

(** The write to the rules file, in the blocking task. *)
Definition append_to_file (codex_home : P) (u : Update) (w : W) : W * Result unit ExecPolicyUpdateError :=
  let path := default_policy_path codex_home in
  let (w', r) :=
    match u with
    | AppendAmendment amendment => blocking_append_allow_prefix_rule path amendment w
    | AppendNetworkRule host protocol decision justification =>
        blocking_append_network_rule error_text path host protocol decision justification w
    end in
  (w', map_err (AppendRuleError path) r).

(** Whether the policy already allows the amendment by a rule; [None] is a panic. *)
Definition already_allowed p (amendment : ExecPolicyAmendment) : option bool :=
  (λ ev, bool_decide (eval_decision ev = Allow) && existsb is_allow_rule (matched_rules ev))
    <$> check_multiple_with_options p [amendment] (λ _, Forbidden) MATCH_OPTIONS.

(** The policy to store, from the policy that was loaded. *)
Definition updated_policy (u : Update) p : Result (ExecPolicy.Policy A) ExecPolicyUpdateError :=
  map_err AddRuleError
    match u with
    | AppendAmendment amendment =>
        if default false (already_allowed p amendment) then Ok p else add_prefix_rule amendment Allow p
    | AppendNetworkRule host protocol decision justification =>
        add_network_rule host protocol decision justification p
    end.

(** [append_amendment_and_update] and [append_network_rule_and_update], run alone. *)
Definition append_and_update (codex_home : P) (u : Update)
    : SE (W * ExecPolicy.Policy A) unit ExecPolicyUpdateError := λ '(w, p),
  match append_to_file codex_home u w with
  | (w, Err e) => ((w, p), Err e)
  | (w, Ok _) =>
      match updated_policy u p with
      | Ok p' => ((w, p'), Ok tt)
      | Err e => ((w, p), Err e)
      end
  end.

(** * Concurrent updates

    The updates of a session are tasks that share the policy and the rules file. An update
    waits for the only permit of [update_lock], appends to the file, loads the policy and
    stores the new one; the permit is returned when it ends, with or without an error. *)
Inductive TaskState : Type :=
| Waiting
| Locked
| Appended
| Loaded (current : ExecPolicy.Policy A)
| Finished (result : Result unit ExecPolicyUpdateError).

Record Session : Type := mkSession {
  tasks : list (Update * TaskState);
  permit : bool;
  world : W;
  policy : ExecPolicy.Policy A;
}.

(** Another moment at which a task is scheduled. *)
Inductive step (codex_home : P) : Session → Session → Prop :=
| step_acquire i u ts w p :
    ts !! i = Some (u, Waiting) →
    step codex_home (mkSession ts true w p) (mkSession (<[i:=(u, Locked)]> ts) false w p)
| step_append i u ts b w w' p :
    ts !! i = Some (u, Locked) → append_to_file codex_home u w = (w', Ok tt) →
    step codex_home (mkSession ts b w p) (mkSession (<[i:=(u, Appended)]> ts) b w' p)
| step_append_error i u ts b w w' p e :
    ts !! i = Some (u, Locked) → append_to_file codex_home u w = (w', Err e) →
    step codex_home (mkSession ts b w p) (mkSession (<[i:=(u, Finished (Err e))]> ts) true w' p)
| step_load i u ts b w p :
    ts !! i = Some (u, Appended) →
    step codex_home (mkSession ts b w p) (mkSession (<[i:=(u, Loaded p)]> ts) b w p)
| step_store i u ts b w p current p' :
    ts !! i = Some (u, Loaded current) → updated_policy u current = Ok p' →
    step codex_home (mkSession ts b w p) (mkSession (<[i:=(u, Finished (Ok tt))]> ts) true w p')
| step_store_error i u ts b w p current e :
    ts !! i = Some (u, Loaded current) → updated_policy u current = Err e →
    step codex_home (mkSession ts b w p) (mkSession (<[i:=(u, Finished (Err e))]> ts) true w p).

Definition start (updates : list Update) (w : W) p : Session :=
  mkSession ((λ u, (u, Waiting)) <$> updates) true w p.
End Update.
