(* ===== verification/ExecManagerFacts.v ===== *)
(** The policy of a session: requirements survive loading, and concurrent updates behave as
    if they ran one after the other, so that no accepted amendment is lost. *)
From stdpp Require Import base list sets relations numbers strings gmap.
From S2P Require Import Prelude RustStr PathConv ExecRule ExecPolicy ExecPolicyFacts ExecPolicyParser ExecPolicyParserFacts ExecAmend UrlLib ExecApproval ExecApprovalFacts ExecManager.

(** * Loading *)

Section Loading.
Context {A P : Type} `{AP : AbsolutePathBuf A} `{RT : PolicyRuntime A} `{RF : RulesFiles P}.
Implicit Types (stack : ConfigLayerStack A P).

Lemma overlay_exact (p q : ExecPolicy.Policy A) c m :
  m ∈ default [] (match_exact_rules q c) → m ∈ default [] (match_exact_rules (merge_overlay p q) c).
Proof.
  unfold match_exact_rules. destruct (head c) as [k|]; [|done]. cbn [mbind option_bind default from_option id].
  rewrite get_vec_overlay, omap_app, elem_of_app. by right.
Qed.

End Loading.

(** * Updates *)

Section Updates.
Context {A P W : Type} `{AP : AbsolutePathBuf A} `{RT : PolicyRuntime A} `{RF : RulesFiles P}.
Context `{PF : PolicyFiles W P} `{JS : Json} (error_text : RuleError A → str) (codex_home : P).
Implicit Types (p : ExecPolicy.Policy A) (u : Update).
Abbreviation UpdateResult := (Result unit (ExecPolicyUpdateError (A := A) (P := P))).
Abbreviation Store := (W * ExecPolicy.Policy A)%type.
Implicit Types (ts : list (Update * TaskState (A := A) (P := P))) (log : list (nat * (Update * UpdateResult)))
  (s : Session (A := A) (P := P) (W := W)).

(** The updates of the log, one after the other. *)
Inductive serial (s0 : Store) : list (nat * (Update * UpdateResult)) → Store → Prop :=
| serial_nil : serial s0 [] s0
| serial_snoc log now i u now' r :
    serial s0 log now → append_and_update error_text codex_home u now = (now', r) →
    serial s0 (log ++ [(i, (u, r))]) now'.

Definition idle (st : TaskState (A := A) (P := P)) : Prop := st = Waiting ∨ ∃ r, st = Finished r.

(** The log has exactly the updates that finished. *)
Definition logged ts log : Prop :=
  NoDup log.*1 ∧ ∀ i u r, ts !! i = Some (u, Finished r) ↔ (i, (u, r)) ∈ log.

(** How far the task with the permit has come since [base]. *)
Definition progress (base : Store) u (st : TaskState (A := A) (P := P)) (now : Store) : Prop :=
  match st with
  | Locked => now = base
  | Appended => append_to_file error_text codex_home u base.1 = (now.1, Ok tt) ∧ now.2 = base.2
  | Loaded current => append_to_file error_text codex_home u base.1 = (now.1, Ok tt) ∧ now.2 = base.2 ∧ current = base.2
  | Waiting | Finished _ => False
  end.

Definition serializable (s0 : Store) s : Prop :=
  ∃ log base, serial s0 log base ∧ logged (tasks s) log ∧
    if permit s then
      (world s, policy s) = base ∧ ∀ i u st, tasks s !! i = Some (u, st) → idle st
    else
      ∃ i u st, tasks s !! i = Some (u, st) ∧ progress base u st (world s, policy s) ∧
        ∀ j u' st', j ≠ i → tasks s !! j = Some (u', st') → idle st'.

Lemma logged_unfinished ts log i u u' st st' :
  logged ts log → ts !! i = Some (u', st') → (∀ r, st' ≠ Finished r) → (∀ r, st ≠ Finished r) →
  logged (<[i:=(u, st)]> ts) log.
Proof.
  intros [Hnd Hl] Hi Hst' Hst. split; [done|]. intros j u0 r. rewrite <- Hl.
  destruct (decide (j = i)) as [->|Hj]; [|by rewrite list_lookup_insert_ne].
  rewrite list_lookup_insert_eq by by eapply lookup_lt_Some. rewrite Hi. naive_solver.
Qed.

Lemma logged_finished ts log i u u' st' r :
  logged ts log → ts !! i = Some (u', st') → (∀ r, st' ≠ Finished r) →
  logged (<[i:=(u, Finished r)]> ts) (log ++ [(i, (u, r))]).
Proof.
  intros [Hnd Hl] Hi Hst'. split.
  - rewrite fmap_app. apply NoDup_app. split; [done|]. split; [|apply NoDup_singleton].
    intros j Hj Hji%list_elem_of_singleton. simpl in Hji. subst j. apply list_elem_of_fmap in Hj as ((? & u0 & r0) & -> & Hin).
    apply Hl in Hin. simpl in Hin. naive_solver.
  - intros j u0 r0. rewrite elem_of_app, <- Hl, list_elem_of_singleton.
    destruct (decide (j = i)) as [->|Hj]; [|rewrite list_lookup_insert_ne by done; naive_solver].
    rewrite list_lookup_insert_eq by by eapply lookup_lt_Some. rewrite Hi. naive_solver.
Qed.

(** A task inside its critical section holds the permit. *)
Lemma active_holds (s0 : Store) s i u st :
  serializable s0 s → tasks s !! i = Some (u, st) → ¬ idle st →
  ∃ log base, serial s0 log base ∧ logged (tasks s) log ∧ permit s = false ∧
    progress base u st (world s, policy s) ∧ ∀ j u' st', j ≠ i → tasks s !! j = Some (u', st') → idle st'.
Proof.
  intros (log & base & Hs & Hl & Hp) Hi Hact. exists log, base. destruct (permit s).
  - destruct Hp as [_ Hidle]. exfalso. by eapply Hact, Hidle.
  - destruct Hp as (i' & u' & st' & Hi' & Hpr & Hidle). assert (i = i') as <-.
    { destruct (decide (i = i')); [done|]. exfalso. eapply Hact, Hidle; [|done]. done. }
    rewrite Hi in Hi'. injection Hi' as <- <-. done.
Qed.

Lemma insert_idle ts i u st :
  idle st → (∀ j u' st', j ≠ i → ts !! j = Some (u', st') → idle st') →
  ∀ j u' st', <[i:=(u, st)]> ts !! j = Some (u', st') → idle st'.
Proof.
  intros Hst Ho j u' st' [(-> & [= <- <-] & _)|[Hj Hl]]%list_lookup_insert_Some; [done|]. by eapply Ho.
Qed.

Lemma insert_others ts i u st :
  (∀ j u' st', j ≠ i → ts !! j = Some (u', st') → idle st') →
  ∀ j u' st', j ≠ i → <[i:=(u, st)]> ts !! j = Some (u', st') → idle st'.
Proof. intros Ho j u' st' Hj. rewrite list_lookup_insert_ne by done. by apply Ho. Qed.

Lemma lookup_inserted ts i (x y : Update * TaskState (A := A) (P := P)) :
  ts !! i = Some x → <[i:=y]> ts !! i = Some y.
Proof. intros Hi. by rewrite list_lookup_insert_eq by by eapply lookup_lt_Some. Qed.

Lemma not_idle_locked : ¬ idle Locked. Proof. by intros [|[]]. Qed.
Lemma not_idle_appended : ¬ idle Appended. Proof. by intros [|[]]. Qed.
Lemma not_idle_loaded p : ¬ idle (Loaded p). Proof. by intros [|[]]. Qed.

Lemma serializable_step (s0 : Store) s s' :
  serializable s0 s → step error_text codex_home s s' → serializable s0 s'.
Proof.
  intros Hs Hstep. destruct Hstep as [i u ts w p Hi|i u ts b w w' p Hi Ha|i u ts b w w' p e Hi Ha|i u ts b w p Hi
    |i u ts b w p current p' Hi Hu|i u ts b w p current e Hi Hu].
  - destruct Hs as (log & base & Hser & Hl & Hp). simpl in Hp. destruct Hp as [<- Hidle]. exists log, (w, p). simpl.
    split; [done|]. split; [by eapply logged_unfinished|]. exists i, u, Locked.
    split; [by eapply lookup_inserted|]. split; [done|]. eapply insert_others. intros j u' st' _. apply Hidle.
  - destruct (active_holds _ _ _ _ _ Hs Hi not_idle_locked) as (log & [bw bp] & Hser & Hl & Hb & Hpr & Ho).
    simpl in *. subst b. injection Hpr as -> ->. exists log, (bw, bp). simpl. split; [done|].
    split; [by eapply logged_unfinished|]. exists i, u, Appended. split; [by eapply lookup_inserted|].
    split; [done|by eapply insert_others].
  - destruct (active_holds _ _ _ _ _ Hs Hi not_idle_locked) as (log & [bw bp] & Hser & Hl & Hb & Hpr & Ho).
    simpl in *. injection Hpr as -> ->. exists (log ++ [(i, (u, Err e))]), (w', bp). simpl.
    split; [eapply serial_snoc; [done|]; unfold append_and_update; by rewrite Ha|].
    split; [by eapply logged_finished|]. split; [done|]. apply insert_idle; [by right; eexists|done].
  - destruct (active_holds _ _ _ _ _ Hs Hi not_idle_appended) as (log & [bw bp] & Hser & Hl & Hb & Hpr & Ho).
    simpl in *. subst b. destruct Hpr as [Ha ->]. exists log, (bw, bp). simpl. split; [done|].
    split; [by eapply logged_unfinished|]. exists i, u, (Loaded bp). split; [by eapply lookup_inserted|].
    split; [done|by eapply insert_others].
  - destruct (active_holds _ _ _ _ _ Hs Hi (not_idle_loaded current)) as (log & [bw bp] & Hser & Hl & Hb & Hpr & Ho).
    simpl in *. destruct Hpr as (Ha & -> & ->). exists (log ++ [(i, (u, Ok tt))]), (w, p'). simpl.
    split; [eapply serial_snoc; [done|]; unfold append_and_update; by rewrite Ha, Hu|].
    split; [by eapply logged_finished|]. split; [done|]. apply insert_idle; [by right; eexists|done].
  - destruct (active_holds _ _ _ _ _ Hs Hi (not_idle_loaded current)) as (log & [bw bp] & Hser & Hl & Hb & Hpr & Ho).
    simpl in *. destruct Hpr as (Ha & -> & ->). exists (log ++ [(i, (u, Err e))]), (w, bp). simpl.
    split; [eapply serial_snoc; [done|]; unfold append_and_update; by rewrite Ha, Hu|].
    split; [by eapply logged_finished|]. split; [done|]. apply insert_idle; [by right; eexists|done].
Qed.

Lemma serializable_start updates w p : serializable (w, p) (start updates w p).
Proof.
  exists [], (w, p). split; [constructor|]. split.
  - split; [constructor|]. intros i u r. simpl. rewrite elem_of_nil, list_lookup_fmap.
    split; [|done]. by intros (? & _ & [=])%fmap_Some.
  - split; [done|]. intros i u st. simpl. rewrite list_lookup_fmap. intros (? & _ & [= -> ->])%fmap_Some. by left.
Qed.

Lemma reachable_serializable updates w p s :
  rtc (step error_text codex_home) (start updates w p) s → serializable (w, p) s.
Proof.
  intros Hr. pose proof (serializable_start updates w p) as H0. revert H0. generalize (w, p). intros s0.
  induction Hr as [|x y z Hxy _ IH]; intros Hx; [done|]. apply IH. by eapply serializable_step.
Qed.

(** ** Accepted amendments stay *)

Definition has_allow p (a : list str) : Prop :=
  ∃ m, m ∈ rule_derived_matches p a MATCH_OPTIONS ∧ match_decision m = Allow.

Lemma added_rule (a : list str) p p' :
  add_prefix_rule (SE := StarlarkError A) a Allow p = Ok p' → add_allow_rule a p = Some p'.
Proof. unfold add_allow_rule. destruct a; [done|]. by intros [= <-]. Qed.

Lemma network_rule_matches host protocol d j p p' c :
  add_network_rule (SE := StarlarkError A) host protocol d j p = Ok p' →
  rule_derived_matches p' c MATCH_OPTIONS = rule_derived_matches p c MATCH_OPTIONS.
Proof.
  unfold add_network_rule. destruct (normalize_network_rule_host host); [|done]. simpl.
  destruct (match j with Some _ => _ | None => _ end); [done|]. by intros [= <-].
Qed.

(** A policy update keeps what was allowed, and its own amendment is allowed. *)
Lemma updated_policy_allows u p p' :
  updated_policy (P := P) u p = Ok p' →
  (∀ a, has_allow p a → has_allow p' a) ∧ (∀ a, u = AppendAmendment a → has_allow p' a).
Proof.
  unfold updated_policy. destruct u as [a|host protocol d j].
  - destruct (default false (already_allowed p a)) eqn:Ealready.
    + intros [= <-]. split; [done|]. intros ? [= <-]. unfold already_allowed in Ealready.
      rewrite check_multiple_verdicts in Ealready. destruct (decisions_max _); [|done].
      cbn [mbind option_bind fmap option_fmap option_map default from_option id matched_rules eval_decision] in Ealready.
      apply andb_true_iff in Ealready as [_ Hex].
      apply existsb_exists in Hex as (m & Hm%list_elem_of_In & [Hp Hd%bool_decide_eq_true]%andb_true_iff).
      apply elem_of_all_matches in Hm as (c & ->%list_elem_of_singleton & [Hm|[_ ->]]); [by exists m|done].
    + destruct (add_prefix_rule a Allow p) as [q|] eqn:Eadd; [|done]. intros [= <-]. apply added_rule in Eadd.
      split; [intros a' Ha'|intros ? [= <-]]; eapply add_allow_matches; [done|by left|done|by right].
  - destruct (add_network_rule host protocol d j p) as [q|] eqn:Eadd; [|done]. intros [= <-].
    split; [|done]. intros a (m & Hm & Hd). exists m. by rewrite (network_rule_matches _ _ _ _ _ _ _ Eadd).
Qed.

Lemma append_and_update_allows u (now now' : Store) r :
  append_and_update error_text codex_home u now = (now', r) →
  (∀ a, has_allow now.2 a → has_allow now'.2 a) ∧ (∀ a, u = AppendAmendment a → r = Ok tt → has_allow now'.2 a).
Proof.
  destruct now as [w p]. unfold append_and_update. destruct (append_to_file _ _ u w) as [w' [[]|e]]; [|by intros [= <- <-]].
  destruct (updated_policy u p) as [p'|e] eqn:E; [|by intros [= <- <-]]. intros [= <- <-].
  apply updated_policy_allows in E as [? ?]. by split; [|intros; eauto].
Qed.

Lemma serial_allows (s0 : Store) log now i a :
  serial s0 log now → (i, (AppendAmendment a, Ok tt)) ∈ log → has_allow now.2 a.
Proof.
  intros Hs. induction Hs as [|log now j u now' r Hs IH Hu]; [by intros ?%elem_of_nil|].
  apply append_and_update_allows in Hu as [Hkeep Hnew]. intros [?|Hl%list_elem_of_singleton]%elem_of_app; [eauto|].
  injection Hl as -> <- <-. eauto.
Qed.

(** ** No update is stuck *)

Lemma waiting_enabled s i u :
  permit s = true → tasks s !! i = Some (u, Waiting) → ∃ s', step error_text codex_home s s'.
Proof. destruct s as [ts b w p]. simpl. intros ->. eexists. by eapply step_acquire. Qed.

Lemma active_enabled s i u st :
  tasks s !! i = Some (u, st) → ¬ idle st → ∃ s', step error_text codex_home s s'.
Proof.
  destruct s as [ts b w p]. simpl. intros Hi Hst. destruct st as [| | |current|r].
  - by destruct Hst; left.
  - destruct (append_to_file error_text codex_home u w) as [w' [[]|e]] eqn:E; eexists;
      [by eapply step_append|by eapply step_append_error].
  - eexists. by eapply step_load.
  - destruct (updated_policy (P := P) u current) eqn:E; eexists; [by eapply step_store|by eapply step_store_error].
  - destruct Hst. right. by eexists.
Qed.

End Updates.

(** * Examples: rules files in memory *)

#[local] Instance SampleRules : RulesFiles str := {|
  parent_dir _ := Some (lit "/h");
  path_join d n := d ++ lit "/" ++ n;
  path_extension _ := Some RULE_EXTENSION;
  path_le _ _ := true;
  to_string_lossy p := p;
  read_dir _ := Ok [Ok (mkDirEntry (lit "/h/rules/broken.rules") (Ok true))];
  read_to_string _ := Ok (lit "broken");
|}.

(** A user layer whose rules file does not parse, under the requirements [sample_policy]. *)
Definition broken_stack : ConfigLayerStack str str :=
  mkStack [mkLayer (User (lit "/h/config.toml") None) None] (Some sample_policy) false.


Definition sample_home : str := lit "/h".
Definition ls_update : Update := AppendAmendment [lit "ls"].
Definition after_append : gmap str str :=
  (append_to_file (A := str) (λ _, []) sample_home ls_update ∅).1.

