(* ===== verification/Approvals.v ===== *)
(** Asking for approval: [tools/approvals.rs], the approval cache of [tools/sandboxing.rs] and
    [command_canonicalization.rs] of [codex-core].

    Hooks, the automatic reviewer and the user are the class [Reviewers]; the encoding of
    cache keys is the class [KeyJson]. *)
From stdpp Require Import base list numbers strings gmap sets.
From S2P Require Import Prelude RustStr PathConv UrlLib PathUri UrlModel PolicyTransforms ShellSyntax PowerShellSyntax PowerShellSyntaxFacts ExecApproval.

(** * Decisions and errors *)

Inductive NetworkPolicyRuleAction : Type := NetAllow | NetDeny.
#[export] Instance NetworkPolicyRuleAction_eq_dec : EqDecision NetworkPolicyRuleAction.
Proof. solve_decision. Defined.

Inductive ReviewDecision : Type :=
| Approved
| ApprovedExecpolicyAmendment (amendment : ExecPolicyAmendment)
| ApprovedForSession
| ApprovedMcpPolicyAmendment
| NetworkPolicyAmendment (host : str) (action : NetworkPolicyRuleAction)
| Denied (rejection : str)
| TimedOut
| AbortTurn.
#[export] Instance ReviewDecision_eq_dec : EqDecision ReviewDecision.
Proof. solve_decision. Defined.

(** What a sandboxed command that was denied reports of the network policy. *)
Record NetworkPolicyDecisionPayload : Type := mkPayload {
  is_ask_from_decider : bool;
  payload_protocol : option str;
  payload_host : option str;
}.

(** [CodexErr], as far as tools look at it. *)
Inductive CodexErr : Type :=
| TurnAborted
| SandboxDenied (output : str) (network_policy_decision : option NetworkPolicyDecisionPayload)
| SandboxTimeout
| SandboxSignal (signal : Z)
| OtherCodexErr (text : str).

Inductive ToolError : Type := Rejected (reason : str) | Codex (e : CodexErr).

(** * The approval cache *)

(** [serde_json::to_string] of a key; [None] when it fails. *)
Class KeyJson (K : Type) : Type := key_json : K → option str.

Abbreviation ApprovalStore := (gmap str ReviewDecision).

Definition store_get {K} `{KeyJson K} (store : ApprovalStore) (key : K) : option ReviewDecision :=
  s ← key_json key; store !! s.

Definition store_put {K} `{KeyJson K} (key : K) (value : ReviewDecision) (store : ApprovalStore) : ApprovalStore :=
  match key_json key with
  | Some s => <[s := value]> store
  | None => store
  end.

(** The session: its cache and everything else. *)
Record Services (W : Type) : Type := mkServices { tool_approvals : ApprovalStore; outside : W }.
Arguments mkServices {W} tool_approvals outside.
Arguments tool_approvals {W} _.
Arguments outside {W} _.

Definition is_approved_for_session (d : option ReviewDecision) : bool := bool_decide (d = Some ApprovedForSession).

Definition with_cached_approval {W K} `{KeyJson K} (keys : list K)
    (fetch : Services W → Services W * ReviewDecision) (s : Services W) : Services W * ReviewDecision :=
  if is_empty keys then fetch s
  else if forallb (λ key, is_approved_for_session (store_get (tool_approvals s) key)) keys
  then (s, ApprovedForSession)
  else
    let (s, decision) := fetch s in
    (match decision with
     | ApprovedForSession =>
         mkServices (foldl (λ store key, store_put key ApprovedForSession store) (tool_approvals s) keys) (outside s)
     | _ => s
     end, decision).

(** * The key of a command *)

Definition CANONICAL_BASH_SCRIPT_PREFIX : str := lit "__codex_shell_script__".
Definition CANONICAL_POWERSHELL_SCRIPT_PREFIX : str := lit "__codex_powershell_script__".

Definition canonicalize_command_for_approval `{BashParser} (command : list str) : list str :=
  match parse_shell_lc_plain_commands command with
  | Some [single_command] => single_command
  | _ =>
      match extract_bash_command command with
      | Some (_, script) => [CANONICAL_BASH_SCRIPT_PREFIX; default [] (command !! 1); script]
      | None =>
          match extract_powershell_command command with
          | Some (_, script) => [CANONICAL_POWERSHELL_SCRIPT_PREFIX; script]
          | None => command
          end
      end
  end.

(** * Actions *)

Section Approvals.
Context `{UL : UrlLib} `{BP : BashParser} {W : Type}.

(** [UnifiedExecApprovalKey] and [ApplyPatchApprovalKey]; the key of a command comes with the
    fingerprint of its environment's policy. *)
Inductive ApprovalCacheKey : Type :=
| CommandKey (environment_id : str) (executable : option str) (command : list str) (cwd : PathUri) (tty : bool)
    (sandbox_permissions : SandboxPermissions) (additional_permissions : option AdditionalPermissionProfile)
    (policy_fingerprint : option str)
| PatchKey (environment_id : str) (path : PathUri).

(** The fields that approval looks at. *)
Inductive ApprovalAction : Type :=
| ActExecCommand (environment_id : str) (command : list str) (cwd : PathUri)
    (sandbox_permissions : SandboxPermissions) (additional_permissions : option AdditionalPermissionProfile)
    (justification : option str) (tty : bool) (proposed : option ExecPolicyAmendment)
| ActWriteStdin (id environment_id : str) (process_id : Z) (input : str) (cwd : PathUri)
    (sandbox_permissions : SandboxPermissions) (additional_permissions : option AdditionalPermissionProfile)
| ActExecve (environment_id : str) (command : list str) (cwd : PathUri)
    (additional_permissions : option AdditionalPermissionProfile)
| ActApplyPatch (environment_id : str) (files : list PathUri) (patch : str) (permissions_preapproved : bool)
| ActMcpToolCall (server tool_name : str)
| ActNetworkAccess (environment_id target host : str) (command : list str) (cwd : PathUri)
| ActRequestPermissions (reason : option str).

Record NetworkApprovalContext : Type := mkNetworkContext { nac_host : str; nac_protocol : str }.

Record ApprovalContext : Type := mkApprovalContext {
  ac_policy : AskForApproval;
  strict_auto_review : bool;
  approval_reason : option str;
  retry_reason : option str;
  network_approval_context : option NetworkApprovalContext;
}.

Inductive PermissionRequestDecision : Type := HookAllow | HookDeny (message : str).
Inductive ApprovalResolutionSource : Type := FromHook | FromGuardian | FromUser.

(** The other parties. [prompt_user] is the request to the client for the action, with the
    reason that is shown; [timeout_instructions] is the text for the model. *)
Class Reviewers : Type := {
  run_permission_request_hooks : ApprovalAction → Services W → Services W * option PermissionRequestDecision;
  request_guardian_approval : ApprovalAction → ApprovalContext → Services W → Services W * option ReviewDecision;
  prompt_user : ApprovalAction → option str → option NetworkApprovalContext → Services W → Services W * ReviewDecision;
  policy_fingerprint : str → option str;
  timeout_instructions : str;
}.

Context `{KJ : KeyJson ApprovalCacheKey} `{RV : Reviewers}.

Definition cache_keys (action : ApprovalAction) : list ApprovalCacheKey :=
  match action with
  | ActExecCommand environment_id command cwd sandbox_permissions additional_permissions _ tty _ =>
      [CommandKey environment_id (head command) (canonicalize_command_for_approval command) cwd tty
         sandbox_permissions additional_permissions (policy_fingerprint environment_id)]
  | ActApplyPatch environment_id files _ _ => PatchKey environment_id <$> files
  | ActWriteStdin _ _ _ _ _ _ _ | ActExecve _ _ _ _ | ActMcpToolCall _ _ | ActNetworkAccess _ _ _ _ _
  | ActRequestPermissions _ => []
  end.

Definition or_else {X} (a b : option X) : option X := match a with Some x => Some x | None => b end.

(** [None] is the unreachable branch. *)
Definition request_user_approval (action : ApprovalAction) (ctx : ApprovalContext) (s : Services W)
    : option (Services W * ReviewDecision) :=
  match action with
  | ActExecCommand _ _ _ _ _ justification _ _ =>
      let reason := or_else (retry_reason ctx) (or_else (approval_reason ctx) justification) in
      Some (with_cached_approval (cache_keys action)
              (prompt_user action reason (network_approval_context ctx)) s)
  | ActWriteStdin _ _ _ _ _ _ _ => Some (prompt_user action (approval_reason ctx) None s)
  | ActExecve _ _ _ _ => Some (prompt_user action None None s)
  | ActApplyPatch _ _ _ permissions_preapproved =>
      let reason := or_else (retry_reason ctx) (approval_reason ctx) in
      match reason with
      | None =>
          if permissions_preapproved then Some (s, Approved)
          else Some (with_cached_approval (cache_keys action) (prompt_user action None None) s)
      | Some _ => Some (prompt_user action reason None s)
      end
  | ActMcpToolCall _ _ => Some (prompt_user action None None s)
  | ActNetworkAccess _ _ _ _ _ =>
      Some (prompt_user action (approval_reason ctx) (network_approval_context ctx) s)
  | ActRequestPermissions _ => None
  end.

Definition request_reviewer_approval (action : ApprovalAction) (ctx : ApprovalContext) (s : Services W)
    : option (Services W * (ReviewDecision * ApprovalResolutionSource)) :=
  match request_guardian_approval action ctx s with
  | (s, Some decision) => Some (s, (decision, FromGuardian))
  | (s, None) => (λ '(s, decision), (s, (decision, FromUser))) <$> request_user_approval action ctx s
  end.

Definition denial_text (source : ApprovalResolutionSource) : str :=
  match source with
  | FromHook => lit "rejected by configuration"
  | FromGuardian => lit "automatic approval review denied the action"
  | FromUser => lit "rejected by user"
  end.

Definition into_tool_result (d : ReviewDecision) (source : ApprovalResolutionSource) : Result ReviewDecision ToolError :=
  match d with
  | ApprovedMcpPolicyAmendment => Err (Rejected (lit "Error while requesting approval"))
  | NetworkPolicyAmendment _ NetDeny => Err (Rejected (denial_text source))
  | Denied rejection => Err (Rejected rejection)
  | TimedOut => Err (Rejected timeout_instructions)
  | AbortTurn => Err (Codex TurnAborted)
  | decision => Ok decision
  end.

Definition is_mcp_tool_call (a : ApprovalAction) : bool := match a with ActMcpToolCall _ _ => true | _ => false end.
Definition is_network_approval (a : ApprovalAction) : bool :=
  match a with ActNetworkAccess _ _ _ _ _ => true | _ => false end.

(** Input to a process that exceeds its permissions and may not be prompted for. *)
Definition stdin_rejection (action : ApprovalAction) (ctx : ApprovalContext) : option str :=
  match action with
  | ActWriteStdin _ _ _ _ _ sandbox_permissions _ =>
      if requests_sandbox_override sandbox_permissions
         && negb (strict_auto_review ctx && bool_decide (ac_policy ctx = Never))
      then prompt_is_rejected_by_policy (ac_policy ctx) false
      else None
  | _ => None
  end.

Definition resolved (action : ApprovalAction) (d : ReviewDecision) (source : ApprovalResolutionSource)
    : Result ReviewDecision ToolError :=
  if is_mcp_tool_call action && bool_decide (d = ApprovedMcpPolicyAmendment) then Ok d
  else if is_network_approval action then
    match d, source with
    | NetworkPolicyAmendment _ NetDeny, _ => Ok d
    | AbortTurn, FromGuardian => Err (Rejected (lit "automatic approval review was cancelled"))
    | _, _ => into_tool_result d source
    end
  else into_tool_result d source.

Definition request_approval (action : ApprovalAction) (ctx : ApprovalContext) (s : Services W)
    : option (Services W * Result ReviewDecision ToolError) :=
  match stdin_rejection action ctx with
  | Some reason => Some (s, Err (Rejected reason))
  | None =>
      match run_permission_request_hooks action s with
      | (s, Some HookAllow) => Some (s, resolved action Approved FromHook)
      | (s, Some (HookDeny message)) => Some (s, resolved action (Denied message) FromHook)
      | (s, None) =>
          (λ '(s, (d, source)), (s, resolved action d source)) <$> request_reviewer_approval action ctx s
      end
  end.
End Approvals.
Arguments Reviewers {_} W.

(** Approvals are real: a cached approval repeats an earlier consent to the same key, and a
    granted request was granted by a hook, the reviewer or the user. *)

(** * The cache *)

Section Cache.
Context {W K : Type} `{KJ : KeyJson K}.
Implicit Types (s : Services W) (keys : list K) (store : ApprovalStore).

(** Whether a request with these keys reaches a reviewer. *)
Definition prompts keys s : bool :=
  is_empty keys || negb (forallb (λ key, is_approved_for_session (store_get (tool_approvals s) key)) keys).

(** A request that was answered: its keys, the answer, and whether someone was asked. *)
Record Entry : Type := mkEntry { e_keys : list K; e_decision : ReviewDecision; e_prompted : bool }.

(** The runs of a session: requests one after the other, with other work between them. *)
Inductive cached_run : list Entry → Services W → Prop :=
| run_start w : cached_run [] (mkServices ∅ w)
| run_outside log s w : cached_run log s → cached_run log (mkServices (tool_approvals s) w)
| run_request log s keys fetch s' d :
    cached_run log s → (∀ s, tool_approvals (fetch s).1 = tool_approvals s) →
    with_cached_approval keys fetch s = (s', d) →
    cached_run (log ++ [mkEntry keys d (prompts keys s)]) s'.

Definition consented (log : list Entry) (t : str) : Prop :=
  ∃ e key, e ∈ log ∧ e_prompted e = true ∧ e_decision e = ApprovedForSession ∧ key ∈ e_keys e ∧ key_json key = Some t.

Lemma consented_app log e t : consented log t → consented (log ++ [e]) t.
Proof. intros (e' & key & He & ?). exists e', key. split; [|done]. apply elem_of_app. by left. Qed.

Lemma put_all keys store t d :
  foldl (λ store key, store_put key ApprovedForSession store) store keys !! t = Some d →
  store !! t = Some d ∨ (d = ApprovedForSession ∧ ∃ key, key ∈ keys ∧ key_json key = Some t).
Proof.
  revert store. induction keys as [|key keys IH]; intros store; simpl; [by left|].
  intros [H|(-> & k & Hk & Ht)]%IH; [|right; split; [done|]; exists k; split; [by right|done]].
  unfold store_put in H. destruct (key_json key) as [t'|] eqn:E; [|by left].
  apply lookup_insert_Some in H as [[-> <-]|[_ H]]; [|by left]. right. split; [done|]. exists key. by split; [left|].
Qed.

Lemma cached_run_store log s t d :
  cached_run log s → tool_approvals s !! t = Some d → d = ApprovedForSession ∧ consented log t.
Proof.
  intros Hr. revert t d. induction Hr as [w|log s w _ IH|log s keys fetch s' d0 Hr IH Hf Hw]; intros t d.
  - simpl. by rewrite lookup_empty.
  - apply IH.
  - assert (Hold : tool_approvals s !! t = Some d →
      d = ApprovedForSession ∧ consented (log ++ [mkEntry keys d0 (prompts keys s)]) t).
    { intros [-> ?]%IH. split; [done|by apply consented_app]. }
    specialize (Hf s). revert Hw. unfold with_cached_approval, prompts in *. destruct (is_empty keys) eqn:Hne.
    { intros Hw. rewrite Hw in Hf. simpl in Hf. by rewrite Hf. }
    destruct (forallb _ keys); [by intros [= <- <-]|]. destruct (fetch s) as [s1 d1]. simpl in Hf.
    destruct d1; intros [= <- <-]; simpl; rewrite ?Hf; try done.
    intros [?|(-> & key & Hk & Ht)]%put_all; [by apply Hold|]. split; [done|].
    eexists _, key. split; [apply elem_of_app; right; by left|]. done.
Qed.

End Cache.

(** * Requests *)

Section Requests.
Context `{UL : UrlLib} `{BP : BashParser} {W : Type}.
Context {KJ : KeyJson ApprovalCacheKey} {RV : Reviewers W}.

(** Decisions that refuse the action. *)
Definition refuses (d : ReviewDecision) : Prop :=
  match d with
  | Denied _ | TimedOut | AbortTurn => True
  | _ => False
  end.

Lemma resolved_Ok action d source d' :
  resolved action d source = Ok d' →
  d' = d ∧ ¬ refuses d ∧ (is_network_approval action = false → ∀ host, d ≠ NetworkPolicyAmendment host NetDeny).
Proof.
  unfold resolved. destruct (is_mcp_tool_call action && _) eqn:E.
  - apply andb_true_iff in E as [_ E%bool_decide_eq_true]. intros [= <-]. subst d. simpl. naive_solver.
  - destruct (is_network_approval action), d as [| | | |host []| | |], source; simpl; intros [= <-]; naive_solver.
Qed.

(** Approval has a fixed precedence and cannot be granted by a refusal. A denying hook ends the
    request before anyone is asked, an allowing hook grants it; otherwise the automatic
    reviewer answers, and only if it does not, the user does. What is granted is the
    decision that was made, and it is neither a denial, a timeout nor an abort, nor, outside
    network requests, a rule that denies the host. *)
Theorem approval_precedence action ctx s s1 hook :
  stdin_rejection action ctx = None → run_permission_request_hooks action s = (s1, hook) →
  match hook with
  | Some (HookDeny message) => request_approval action ctx s = Some (s1, Err (Rejected message))
  | Some HookAllow => request_approval action ctx s = Some (s1, Ok Approved)
  | None =>
      ∀ s' d, request_approval action ctx s = Some (s', Ok d) →
        ¬ refuses d ∧ (is_network_approval action = false → ∀ host, d ≠ NetworkPolicyAmendment host NetDeny) ∧
        ∃ s2 answer, request_guardian_approval action ctx s1 = (s2, answer) ∧
          match answer with
          | Some d' => d' = d ∧ s' = s2
          | None => request_user_approval action ctx s2 = Some (s', d)
          end
  end.
Proof.
  intros Hstdin Hhook. unfold request_approval. rewrite Hstdin, Hhook. destruct hook as [[|message]|].
  - by destruct action.
  - by destruct action.
  - intros s' d (? & Hr & Hres)%fmap_Some. unfold request_reviewer_approval in Hr.
    destruct (request_guardian_approval action ctx s1) as [s2 [d'|]].
    + injection Hr as <-. injection Hres as -> Hd. symmetry in Hd. apply resolved_Ok in Hd as (-> & ? & ?).
      split; [done|]. split; [done|]. by exists s2, (Some d').
    + apply fmap_Some in Hr as ([s3 d'] & Hu & ->). injection Hres as -> Hd. symmetry in Hd.
      apply resolved_Ok in Hd as (-> & ? & ?). split; [done|]. split; [done|]. by exists s2, None.
Qed.

(** Every action that a tool prepares is answered; only permission requests take another way. *)
Lemma request_approval_answers action ctx s :
  (∀ reason, action ≠ ActRequestPermissions reason) → is_Some (request_approval action ctx s).
Proof.
  intros Ha. unfold request_approval, request_reviewer_approval. destruct (stdin_rejection action ctx); [done|].
  destruct (run_permission_request_hooks action s) as [s1 [[]|]]; [done..|].
  destruct (request_guardian_approval action ctx s1) as [s2 [d|]]; [done|]. rewrite !fmap_is_Some.
  destruct action; try done; [|by destruct (Ha reason)]. simpl. by repeat case_match.
Qed.

(** The key of a PowerShell command ignores what follows its script, so that consent to one
    command answers for another. *)
Lemma powershell_key_ignores_arguments environment shell script extra extra' cwd sp ap j j' tty a a' :
  detect_shell_type shell = Some PowerShell →
  cache_keys (ActExecCommand environment ([shell; lit "-Command"; script] ++ extra) cwd sp ap j tty a)
  = cache_keys (ActExecCommand environment ([shell; lit "-Command"; script] ++ extra') cwd sp ap j' tty a').
Proof.
  intros Hs.
  assert (Hb : ∀ extra, extract_bash_command ([shell; lit "-Command"; script] ++ extra) = None) by (by intros []).
  unfold cache_keys, canonicalize_command_for_approval, parse_shell_lc_plain_commands.
  rewrite !Hb. cbn [mbind option_bind].
  pose proof (proj1 (trailing_arguments_ignored shell script extra Hs)) as ->.
  by pose proof (proj1 (trailing_arguments_ignored shell script extra' Hs)) as ->.
Qed.
End Requests.

(** * Examples *)

#[local] Instance plain_keys : KeyJson str := Some.

Definition approve_all (s : Services unit) : Services unit * ReviewDecision := (s, ApprovedForSession).


#[local] Instance no_keys : KeyJson ApprovalCacheKey := λ _, None.
#[local] Instance no_parser : BashParser := λ _, None.

(** A hook that denies one tool; the user approves everything else. *)
#[local] Instance sample_reviewers : Reviewers unit := {|
  run_permission_request_hooks a s :=
    (s, match a with ActMcpToolCall _ _ => Some (HookDeny (lit "no")) | _ => None end);
  request_guardian_approval _ _ s := (s, None);
  prompt_user _ _ _ s := (s, Approved);
  policy_fingerprint _ := None;
  timeout_instructions := [];
|}.

Definition sample_context : ApprovalContext := mkApprovalContext OnRequest false None None None.

Lemma approval_precedence_witness :
  request_approval (ActMcpToolCall (lit "s") (lit "t")) sample_context (mkServices ∅ tt)
  = Some (mkServices ∅ tt, Err (Rejected (lit "no"))).
Proof.
  exact (approval_precedence (ActMcpToolCall (lit "s") (lit "t")) sample_context (mkServices ∅ tt) (mkServices ∅ tt)
    (Some (HookDeny (lit "no"))) eq_refl eq_refl).
Defined.
