(* ===== verification/ToolSandbox.v ===== *)
(** Whether and how a tool call is sandboxed: the selection of [sandboxing/src/manager.rs] and
    [protocol/src/sandbox.rs], the decisions of [tools/sandboxing.rs] of [codex-core] and the
    approval settings of the two runtimes, and the safety check of patches ([safety.rs]). *)
From stdpp Require Import base list numbers strings gmap.
From S2P Require Import Prelude RustStr PathConv Invocation UrlLib PathUri Permissions PolicyTransforms ExecApproval.

Inductive SandboxType : Type := NoSandbox | MacosSeatbelt | LinuxSeccomp | WindowsRestrictedToken | WindowsMxc.
#[export] Instance SandboxType_eq_dec : EqDecision SandboxType.
Proof. solve_decision. Defined.

Inductive SandboxablePreference : Type := Auto | Require | Forbid.

(** [cfg!(target_os)]. *)
Inductive TargetOs : Type := OsLinux | OsMacos | OsWindows | OsOther.
#[export] Instance TargetOs_eq_dec : EqDecision TargetOs.
Proof. solve_decision. Defined.

Definition native (os : TargetOs) : PathConvention := if bool_decide (os = OsWindows) then Windows else Posix.

Definition get_platform_sandbox (os : TargetOs) (windows_sandbox_enabled : bool) : option SandboxType :=
  match os with
  | OsMacos => Some MacosSeatbelt
  | OsLinux => Some LinuxSeccomp
  | OsWindows => if windows_sandbox_enabled then Some WindowsRestrictedToken else None
  | OsOther => None
  end.

Definition effective_windows_sandbox_type (t : SandboxType) (level : WindowsSandboxLevel) : SandboxType :=
  match t, level with
  | WindowsMxc, _ => WindowsMxc
  | _, LevelDisabled => NoSandbox
  | _, (RestrictedToken | Elevated) => WindowsRestrictedToken
  end.

Inductive SandboxOverride : Type := NoOverride | BypassSandboxFirstAttempt.

(** The entries of [action.changes()], in the order of the map. *)
Abbreviation Changes := (list (PathUri.PathUri * ApplyPatchFileChange PathUri.PathUri)).

Section Sandbox.
Context `{UL : UrlLib} (os : TargetOs).
Implicit Types (profile : PermissionProfile) (pol : FileSystemSandboxPolicy) (ctx : FileSystemSandboxPolicyContext).

Definition should_sandbox profile (pref : SandboxablePreference) (has_managed_network_requirements : bool) : bool :=
  match pref with
  | Forbid => false
  | Require => true
  | Auto =>
      let '(pol, net) := to_runtime_permissions profile in
      should_require_platform_sandbox (native os) pol net has_managed_network_requirements
  end.

Definition select_initial profile (pref : SandboxablePreference) (windows_sandbox_type : SandboxType)
    (has_managed_network_requirements : bool) : SandboxType :=
  if negb (should_sandbox profile pref has_managed_network_requirements) then NoSandbox
  else if bool_decide (os = OsWindows) && bool_decide (windows_sandbox_type = WindowsMxc) then WindowsMxc
  else default NoSandbox (get_platform_sandbox os (negb (bool_decide (windows_sandbox_type = NoSandbox)))).

(** * Approval without a rule *)

Definition default_exec_approval_requirement (policy : AskForApproval) pol : ExecApprovalRequirement :=
  let needs_approval :=
    match policy with
    | Never => false
    | OnRequest | Granular _ => bool_decide (kind pol = Restricted)
    | UnlessTrusted => true
    end in
  if needs_approval && match policy with Granular config => negb (sandbox_approval config) | _ => false end then
    Exec_Forbidden (lit "approval policy disallowed sandbox approval prompt")
  else if needs_approval then Exec_NeedsApproval None None
  else Exec_Skip false None.

(** * Sandbox overrides *)

Definition unsandboxed_execution_allowed pol : bool :=
  negb (has_denied_read_restrictions_for_convention (Some (native os)) pol).

Definition sandbox_override_for_first_attempt (sandbox_permissions : SandboxPermissions)
    (requirement : ExecApprovalRequirement) pol : SandboxOverride :=
  if negb (unsandboxed_execution_allowed pol) then NoOverride
  else match requirement with
       | Exec_Skip true _ => BypassSandboxFirstAttempt
       | _ => if requires_escalated_permissions sandbox_permissions then BypassSandboxFirstAttempt else NoOverride
       end.

Definition sandbox_permissions_preserving_denied_reads (sandbox_permissions : SandboxPermissions) pol
    : SandboxPermissions :=
  if requires_escalated_permissions sandbox_permissions && negb (unsandboxed_execution_allowed pol)
  then UseDefault else sandbox_permissions.

(** * What a tool may ask for *)

(** The defaults of [Approvable]. *)
Definition should_bypass_approval (policy : AskForApproval) (already_approved : bool) : bool :=
  already_approved || bool_decide (policy = Never).

Definition wants_no_sandbox_approval (policy : AskForApproval) : bool :=
  match policy with
  | UnlessTrusted => true
  | Never | OnRequest => false
  | Granular config => sandbox_approval config
  end.

(** The override of the [apply_patch] runtime. *)
Definition patch_wants_no_sandbox_approval (policy : AskForApproval) : bool :=
  match policy with
  | Never => false
  | Granular config => sandbox_approval config
  | OnRequest | UnlessTrusted => true
  end.

(** * Patches *)

Inductive SafetyCheck : Type := AutoApprove | AskUser | RejectPatch (reason : str).

Inductive PatchSandboxRoute : Type := ExecutorManaged | PlatformRoute (level : WindowsSandboxLevel).

Definition PATCH_REJECTED_OUTSIDE_PROJECT_REASON : str :=
  lit "writing outside of the project; rejected by user approval settings".
Definition PATCH_REJECTED_READ_ONLY_REASON : str :=
  lit "writing is blocked by read-only sandbox; rejected by user approval settings".

Definition is_write_patch_constrained_to_writable_paths (changes : Changes) pol ctx : bool :=
  if has_full_disk_write_access_with_context ctx pol then true
  else forallb (λ '(path, change),
    can_write_path path ctx pol
    && match change with
       | FileUpdate _ (Some dest) _ => can_write_path dest ctx pol
       | FileAdd _ | FileDelete _ | FileUpdate _ None _ => true
       end) changes.

Definition patch_rejection_reason profile pol ctx : str :=
  let has_no_writable_roots := negb (has_configured_writable_roots ctx pol) in
  match profile with
  | Managed _ _ =>
      if negb (has_full_disk_write_access_with_context ctx pol) && has_no_writable_roots
      then PATCH_REJECTED_READ_ONLY_REASON else PATCH_REJECTED_OUTSIDE_PROJECT_REASON
  | Disabled | External _ => PATCH_REJECTED_OUTSIDE_PROJECT_REASON
  end.

Definition rejects_sandbox_approval (policy : AskForApproval) : bool :=
  match policy with
  | Never => true
  | Granular config => negb (sandbox_approval config)
  | OnRequest | UnlessTrusted => false
  end.

Definition sandbox_available (route : PatchSandboxRoute) : bool :=
  match route with
  | ExecutorManaged => true
  | PlatformRoute level => bool_decide (is_Some (get_platform_sandbox os (negb (bool_decide (level = LevelDisabled)))))
  end.

Definition assess_patch_safety (changes : Changes) (policy : AskForApproval) profile pol ctx
    (route : PatchSandboxRoute) : SafetyCheck :=
  if is_empty changes then RejectPatch (lit "empty patch")
  else match policy with
       | UnlessTrusted => AskUser
       | Never | OnRequest | Granular _ =>
           if is_write_patch_constrained_to_writable_paths changes pol ctx
              && (match profile with Disabled | External _ => true | Managed _ _ => false end
                  || sandbox_available route)
           then AutoApprove
           else if rejects_sandbox_approval policy then RejectPatch (patch_rejection_reason profile pol ctx)
           else AskUser
       end.

(** [prepare_apply_patch]: whether the patch is approved automatically, and the requirement
    that its runtime reports; an error is answered to the model. *)
Definition prepare_apply_patch (changes : Changes) (policy : AskForApproval) profile pol ctx
    (route : PatchSandboxRoute) : Result (bool * ExecApprovalRequirement) str :=
  match assess_patch_safety changes policy profile pol ctx route with
  | AutoApprove => Ok (true, Exec_Skip false None)
  | AskUser => Ok (false, Exec_NeedsApproval None None)
  | RejectPatch reason => Err (lit "patch rejected: " ++ reason)
  end.
End Sandbox.
