(* ===== verification/Orchestrator.v ===== *)
(** Running a tool call: [tools/orchestrator.rs] of [codex-core]. Approval, the choice of a
    sandbox, the attempt, and after a denial by the sandbox a second attempt.

    Every question asked and every attempt made is recorded in a trace. *)
From stdpp Require Import base list numbers strings gmap.
From S2P Require Import Prelude RustStr PathConv UrlLib PathUri Permissions PolicyTransforms ExecApproval Approvals ToolSandbox.

Section Orchestrator.
Context `{UL : UrlLib} (os : TargetOs).

(** What the orchestrator asks a [ToolRuntime] about a request. A network approval spec is
    represented by the additional permissions of its trigger. *)
Record ToolRequest : Type := mkTool {
  t_exec_approval_requirement : option ExecApprovalRequirement;
  t_approval_action : Result ApprovalAction str;
  t_sandbox_permissions : SandboxPermissions;
  t_sandbox_preference : SandboxablePreference;
  t_escalate_on_failure : bool;
  t_should_bypass_approval : AskForApproval → bool → bool;
  t_wants_no_sandbox_approval : AskForApproval → bool;
  t_executor_managed : bool;
  t_network_approval_spec : option (option AdditionalPermissionProfile);
  t_sandbox_cwd : option PathUri;
}.

(** What it reads of the turn and its environment. *)
Record TurnSettings : Type := mkTurn {
  turn_approval_policy : AskForApproval;
  turn_strict_auto_review : bool;
  owner_network_policy : bool;
  controller_network_enabled : bool;
  turn_network : bool;
  environment_profile : PermissionProfile;
  profile_with_workspace_roots : PermissionProfile;
  environment_cwd : PathUri;
  config_windows_sandbox_type : SandboxType;
  config_windows_sandbox_level : WindowsSandboxLevel;
  codex_sandbox_exe : option str;
}.

(** The fields of [SandboxAttempt] that vary. *)
Record SandboxAttempt : Type := mkAttempt {
  sandbox : SandboxType;
  sandbox_requested : bool;
  attempt_permissions : PermissionProfile;
  enforce_managed_network : bool;
  attempt_cwd : PathUri;
  sandbox_exe : option str;
}.

Inductive Event : Type :=
| Asked (retry : bool) (answer : Result ReviewDecision ToolError)
| Attempted (attempt : SandboxAttempt) (failure : option ToolError).

(** The session and the runtime: asking for approval ([Approvals.request_approval]), network
    approvals around an attempt, and the attempt itself. *)
Context {W Out Active Deferred : Type}.
Context (ask : ApprovalAction → ApprovalContext → W → W * Result ReviewDecision ToolError)
  (begin_network_approval : bool → option (option AdditionalPermissionProfile) → W → W * Result (option Active) ToolError)
  (into_deferred : Active → option Deferred)
  (finish_deferred_network_approval : option Deferred → W → W * Result unit ToolError)
  (run_tool : SandboxAttempt → W → W * Result Out ToolError).
Implicit Types (t : ToolRequest) (turn : TurnSettings).

Definition State : Type := W * list Event.

Definition failure_of {X} (r : Result X ToolError) : option ToolError :=
  match r with Ok _ => None | Err e => Some e end.

(** [run_attempt]: an approval of network access is opened before the attempt and closed at
    once when the attempt fails. *)
Definition run_attempt (attempt : SandboxAttempt) (spec : option (option AdditionalPermissionProfile)) (s : State)
    : State * (Result Out ToolError * option Deferred) :=
  let (w, trace) := s in
  match begin_network_approval (enforce_managed_network attempt) spec w with
  | (w, Err e) => ((w, trace), (Err e, None))
  | (w, Ok active) =>
      let (w, result) := run_tool attempt w in
      let trace := trace ++ [Attempted attempt (failure_of result)] in
      match active with
      | None => ((w, trace), (result, None))
      | Some active =>
          let deferred := into_deferred active in
          match result with
          | Err _ =>
              match finish_deferred_network_approval deferred w with
              | (w, Err e) => ((w, trace), (Err e, None))
              | (w, Ok _) => ((w, trace), (result, None))
              end
          | Ok _ => ((w, trace), (result, deferred))
          end
      end
  end.

(** Preparing the action and asking; the answer itself is not looked at. *)
Definition request (t : ToolRequest) (turn : TurnSettings) (retry : bool) (reason retry_reason : option str)
    (network : option NetworkApprovalContext) (s : State) : State * Result unit ToolError :=
  match t_approval_action t with
  | Err e => (s, Err (Rejected (lit "could not prepare approval action: " ++ e)))
  | Ok action =>
      let (w, answer) := ask action (mkApprovalContext (turn_approval_policy turn) (turn_strict_auto_review turn)
                                       reason retry_reason network) s.1 in
      ((w, s.2 ++ [Asked retry answer]),
       match answer with Ok _ => Ok tt | Err e => Err e end)
  end.

(** ** Before the first attempt *)

Definition permissions t turn : PermissionProfile :=
  if t_executor_managed t then environment_profile turn else profile_with_workspace_roots turn.

Definition requirement t turn : ExecApprovalRequirement :=
  default (default_exec_approval_requirement (turn_approval_policy turn)
             (file_system_sandbox_policy (permissions t turn)))
    (t_exec_approval_requirement t).

(** Whether approval was asked for and given. *)
Definition approve t turn (s : State) : State * Result bool ToolError :=
  match requirement t turn with
  | Exec_Skip _ _ =>
      if turn_strict_auto_review turn then
        let (s, r) := request t turn false None None None s in
        (s, match r with Ok _ => Ok true | Err e => Err e end)
      else (s, Ok false)
  | Exec_Forbidden reason => (s, Err (Rejected reason))
  | Exec_NeedsApproval reason _ =>
      let (s, r) := request t turn false reason None None s in
      (s, match r with Ok _ => Ok true | Err e => Err e end)
  end.

Definition unsandboxed_allowed t turn : bool :=
  unsandboxed_execution_allowed os (file_system_sandbox_policy (permissions t turn)).

Definition managed_network_active t turn : bool :=
  if owner_network_policy turn then
    controller_network_enabled turn
    || ((bool_decide (is_Some (t_network_approval_spec t))
         || requires_escalated_permissions (t_sandbox_permissions t))
        && is_enabled (effective_network_sandbox_policy (network_sandbox_policy (environment_profile turn))
                         (mjoin (t_network_approval_spec t))))
  else turn_network turn.

Definition sandbox_needed t turn : bool :=
  should_sandbox os (permissions t turn) (t_sandbox_preference t) (managed_network_active t turn).

Definition first_sandbox_requested t turn : bool :=
  let override :=
    if unsandboxed_allowed t turn
    then sandbox_override_for_first_attempt os (t_sandbox_permissions t) (requirement t turn)
           (file_system_sandbox_policy (permissions t turn))
    else NoOverride in
  match override with
  | BypassSandboxFirstAttempt => false
  | NoOverride => sandbox_needed t turn
  end.

Definition attempt_with t turn (requested : bool) (exe : option str) : SandboxAttempt :=
  mkAttempt
    (if requested && negb (t_executor_managed t)
     then select_initial os (permissions t turn) (t_sandbox_preference t)
            (effective_windows_sandbox_type (config_windows_sandbox_type turn) (config_windows_sandbox_level turn))
            (managed_network_active t turn)
     else NoSandbox)
    requested (permissions t turn) (managed_network_active t turn)
    (default (environment_cwd turn) (t_sandbox_cwd t)) exe.

Definition initial_attempt t turn : SandboxAttempt :=
  attempt_with t turn (first_sandbox_requested t turn) (codex_sandbox_exe turn).

Definition retry_attempt t turn : SandboxAttempt :=
  attempt_with t turn (negb (unsandboxed_allowed t turn) && sandbox_needed t turn)
    (if unsandboxed_allowed t turn then None else codex_sandbox_exe turn).

(** ** After a denial *)

Definition network_approval_context_from_payload (payload : NetworkPolicyDecisionPayload)
    : option NetworkApprovalContext :=
  if negb (is_ask_from_decider payload) then None
  else
    protocol ← payload_protocol payload;
    host ← payload_host payload;
    if is_empty (trim host) then None else Some (mkNetworkContext (trim host) protocol).

Definition denial_network_context t turn (decision : option NetworkPolicyDecisionPayload)
    : option NetworkApprovalContext :=
  if managed_network_active t turn then decision ≫= network_approval_context_from_payload else None.

(** The conditions under which a denied call is given up. *)
Definition gives_up t turn (decision : option NetworkPolicyDecisionPayload) : bool :=
  let network := denial_network_context t turn decision in
  let policy := turn_approval_policy turn in
  (bool_decide (is_Some decision) && bool_decide (network = None))
  || negb (t_escalate_on_failure t)
  || (negb (t_wants_no_sandbox_approval t policy)
      && negb (bool_decide (policy = OnRequest) && bool_decide (is_Some network)
               && match default_exec_approval_requirement policy (file_system_sandbox_policy (permissions t turn)) with
                  | Exec_NeedsApproval _ _ => true
                  | _ => false
                  end))
  || (negb (unsandboxed_allowed t turn) && bool_decide (network = None)).

Definition retry_reason_text (network : option NetworkApprovalContext) : str :=
  match network with
  | Some ctx => lit "Network access to " ++ [34%N] ++ nac_host ctx ++ [34%N] ++ lit " is blocked by policy."
  | None => lit "command failed; retry without sandbox?"
  end.

Definition bypass_retry_approval t turn (already_approved : bool) (network : option NetworkApprovalContext) : bool :=
  negb (turn_strict_auto_review turn)
  && t_should_bypass_approval t (turn_approval_policy turn) already_approved
  && bool_decide (network = None).

Definition requirement_reason (r : ExecApprovalRequirement) : option str :=
  match r with Exec_NeedsApproval reason _ => reason | _ => None end.

Definition retry t turn (already_approved : bool) (decision : option NetworkPolicyDecisionPayload) (s : State)
    : State * Result (Out * option Deferred) ToolError :=
  let network := denial_network_context t turn decision in
  let (s, approval) :=
    if bypass_retry_approval t turn already_approved network then (s, Ok tt)
    else request t turn true (requirement_reason (requirement t turn)) (Some (retry_reason_text network)) network s in
  match approval with
  | Err e => (s, Err e)
  | Ok _ =>
      let '(s, (result, deferred)) := run_attempt (retry_attempt t turn) (t_network_approval_spec t) s in
      (s, match result with Ok output => Ok (output, deferred) | Err e => Err e end)
  end.

Definition run t turn (s : State) : State * Result (Out * option Deferred) ToolError :=
  match approve t turn s with
  | (s, Err e) => (s, Err e)
  | (s, Ok already_approved) =>
      let '(s, (result, deferred)) := run_attempt (initial_attempt t turn) (t_network_approval_spec t) s in
      match result with
      | Ok output => (s, Ok (output, deferred))
      | Err (Codex (SandboxDenied output decision)) =>
          if gives_up t turn decision then (s, Err (Codex (SandboxDenied output decision)))
          else retry t turn already_approved decision s
      | Err e => (s, Err e)
      end
  end.
End Orchestrator.
