(* ===== verification/OrchestratorFacts.v ===== *)
(** What a tool call cannot do: run without the consent it needs, leave the sandbox without
    a rule, an escalation or consent, or lose the denied reads of its policy. *)
From stdpp Require Import base list sets numbers strings gmap.
From S2P Require Import Prelude RustStr PathConv Invocation UrlLib PathUri UrlModel Permissions PermissionsSafety PolicyTransforms ExecApproval Approvals ToolSandbox Orchestrator.

Section Facts.
Context `{UL : UrlLib} (os : TargetOs) {W Out Active Deferred : Type}.
Context (ask : ApprovalAction → ApprovalContext → W → W * Result ReviewDecision ToolError)
  (begin_network_approval : bool → option (option AdditionalPermissionProfile) → W → W * Result (option Active) ToolError)
  (into_deferred : Active → option Deferred)
  (finish_deferred_network_approval : option Deferred → W → W * Result unit ToolError)
  (run_tool : SandboxAttempt → W → W * Result Out ToolError).
Implicit Types (t : ToolRequest) (turn : TurnSettings) (s : State (W := W)) (trace : list Event).
Abbreviation run_attempt :=
  (run_attempt begin_network_approval into_deferred finish_deferred_network_approval run_tool).
Abbreviation run := (run os ask begin_network_approval into_deferred finish_deferred_network_approval run_tool).
Abbreviation retry := (retry os ask begin_network_approval into_deferred finish_deferred_network_approval run_tool).

(** Whether the call may not start without consent. *)
Definition must_ask t turn : bool :=
  match requirement t turn with
  | Exec_NeedsApproval _ _ => true
  | Exec_Skip _ _ => turn_strict_auto_review turn
  | Exec_Forbidden _ => false
  end.

(** ** The trace of each part *)

Lemma run_attempt_trace attempt spec s :
  ∃ evs, (run_attempt attempt spec s).1.2 = s.2 ++ evs ∧ (evs = [] ∨ ∃ f, evs = [Attempted attempt f]).
Proof.
  destruct s as [w trace]. unfold Orchestrator.run_attempt. simpl.
  destruct (begin_network_approval _ spec w) as [w1 [active|e]]; [|exists []; rewrite app_nil_r; by split; [|left]].
  destruct (run_tool attempt w1) as [w2 result]. exists [Attempted attempt (failure_of result)].
  split; [|right; by eexists]. destruct active as [active|]; [|done]. destruct result; [done|].
  by destruct (finish_deferred_network_approval _ w2) as [w3 [|]].
Qed.

Lemma request_trace t turn is_retry reason retry_reason network s :
  let r := request ask t turn is_retry reason retry_reason network s in
  ∃ evs, r.1.2 = s.2 ++ evs ∧
    match r.2 with
    | Ok _ => ∃ d, evs = [Asked is_retry (Ok d)]
    | Err e => evs = [] ∨ evs = [Asked is_retry (Err e)]
    end.
Proof.
  unfold request. destruct (t_approval_action t) as [action|e].
  - destruct (ask action _ s.1) as [w [d|e]]; simpl; eexists; (split; [done|]); [by exists d|by right].
  - exists []. simpl. rewrite app_nil_r. split; [done|by left].
Qed.

Lemma approve_trace t turn s :
  let r := approve ask t turn s in
  ∃ evs, r.1.2 = s.2 ++ evs ∧
    match r.2 with
    | Ok already => already = must_ask t turn ∧ (∀ reason, requirement t turn ≠ Exec_Forbidden reason) ∧
                    (if already then ∃ d, evs = [Asked false (Ok d)] else evs = [])
    | Err e => (∀ a f, Attempted a f ∉ evs) ∧ (∀ reason, requirement t turn = Exec_Forbidden reason → evs = [])
    end.
Proof.
  assert (Hnot : ∀ evs e, evs = [] ∨ evs = [Asked false (Err e)] → ∀ a f, Attempted a f ∉ evs).
  { intros evs e [->| ->] a f; [apply not_elem_of_nil|]. by intros ?%list_elem_of_singleton. }
  unfold approve, must_ask. destruct (requirement t turn) as [b p|reason p|reason].
  - destruct (turn_strict_auto_review turn); [|exists []; rewrite app_nil_r; by repeat split].
    destruct (request_trace t turn false None None None s) as (evs & He & Hr). exists evs.
    destruct (request ask t turn false None None None s) as [s' [u|e]]; simpl in *; (split; [done|]).
    + by repeat split.
    + split; [by eapply Hnot|done].
  - destruct (request_trace t turn false reason None None s) as (evs & He & Hr). exists evs.
    destruct (request ask t turn false reason None None s) as [s' [u|e]]; simpl in *; (split; [done|]).
    + by repeat split.
    + split; [by eapply Hnot|done].
  - exists []. simpl. rewrite app_nil_r. split; [done|]. split; [|done]. intros a f. apply not_elem_of_nil.
Qed.

(** The second part of a call: the question for the retry, if any, and the retry. *)
Lemma retry_trace t turn already decision s :
  ∃ asked again, (retry t turn already decision s).1.2 = s.2 ++ asked ++ again ∧
    (∀ a f, Attempted a f ∉ asked) ∧ (again = [] ∨ ∃ f, again = [Attempted (retry_attempt os t turn) f]) ∧
    (again ≠ [] → (∃ d, asked = [Asked true (Ok d)]) ∨
       (asked = [] ∧ bypass_retry_approval t turn already (denial_network_context t turn decision) = true)).
Proof.
  unfold Orchestrator.retry. set (network := denial_network_context t turn decision).
  destruct (bypass_retry_approval t turn already network) eqn:Eb.
  - destruct (run_attempt_trace (retry_attempt os t turn) (t_network_approval_spec t) s) as (evs & He & Hevs).
    destruct (run_attempt _ _ s) as [s' [result deferred]]. simpl in *. exists [], evs.
    split; [done|]. split; [intros a f; apply not_elem_of_nil|]. split; [done|]. intros _. by right.
  - destruct (request_trace t turn true (requirement_reason (requirement t turn)) (Some (retry_reason_text network)) network s)
      as (asked & Ha & Hr).
    destruct (request _ _ _ _ _ _ _ s) as [s1 [u|e]]; simpl in *.
    + destruct Hr as [d ->].
      destruct (run_attempt_trace (retry_attempt os t turn) (t_network_approval_spec t) s1) as (evs & He & Hevs).
      destruct (run_attempt _ _ s1) as [s' [result deferred]]. simpl in *. exists [Asked true (Ok d)], evs.
      split; [by rewrite He, Ha, app_assoc|]. split; [intros a f; by intros ?%list_elem_of_singleton|].
      split; [done|]. intros _. left. by exists d.
    + exists asked, []. rewrite app_nil_r. split; [done|]. split; [|split; [by left|done]].
      intros a f. destruct Hr as [->| ->]; [apply not_elem_of_nil|by intros ?%list_elem_of_singleton].
Qed.

(** The trace of a call: the first question, the first attempt, the question for the retry,
    the retry. *)
Definition call_shape t turn trace : Prop :=
  ∃ first attempt asked again, trace = first ++ attempt ++ asked ++ again ∧
    (∀ reason, requirement t turn = Exec_Forbidden reason → trace = []) ∧
    (∀ a f, Attempted a f ∉ first) ∧ (∀ a f, Attempted a f ∉ asked) ∧
    (attempt = [] ∨ ∃ f, attempt = [Attempted (initial_attempt os t turn) f]) ∧
    (again = [] ∨ ∃ f, again = [Attempted (retry_attempt os t turn) f]) ∧
    (attempt ++ again ≠ [] → if must_ask t turn then ∃ d, first = [Asked false (Ok d)] else first = []) ∧
    (again ≠ [] → ∃ decision, gives_up os t turn decision = false ∧
       ((∃ d, asked = [Asked true (Ok d)]) ∨
        bypass_retry_approval t turn (must_ask t turn) (denial_network_context t turn decision) = true)).

Lemma run_trace t turn w : call_shape t turn (run t turn (w, [])).1.2.
Proof.
  unfold Orchestrator.run. destruct (approve_trace t turn (w, [])) as (first & Hf & Ha).
  destruct (approve ask t turn (w, [])) as [s [already|e]]; simpl in Hf, Ha.
  2:{ destruct Ha as [Hn Hforb]. exists first, [], [], []. rewrite !app_nil_r. simpl. rewrite Hf.
      split_and!; [done|done|done|intros a f; apply not_elem_of_nil|by left|by left|done|done]. }
  destruct Ha as (-> & Hnf & Hfirst).
  assert (Hn : ∀ a f, Attempted a f ∉ first).
  { intros a f. destruct (must_ask t turn); [destruct Hfirst as [d ->]; by intros ?%list_elem_of_singleton|].
    rewrite Hfirst. apply not_elem_of_nil. }
  destruct (run_attempt_trace (initial_attempt os t turn) (t_network_approval_spec t) s) as (attempt & Hat & Hattempt).
  destruct (run_attempt _ _ s) as [s1 [result deferred]]. simpl in Hat. rewrite Hf in Hat.
  assert (Hstop : call_shape t turn s1.2).
  { exists first, attempt, [], []. rewrite !app_nil_r. rewrite Hat.
    split_and!; [done|by intros reason ?%Hnf|done|intros a f; apply not_elem_of_nil|done|by left|done|done]. }
  destruct result as [out|[reason|[|output decision| | |]]]; try apply Hstop.
  destruct (gives_up os t turn decision) eqn:Eg; [apply Hstop|]. clear Hstop.
  destruct (retry_trace t turn (must_ask t turn) decision s1) as (asked & again & Hr & Hasked & Hagain & Hwhy).
  exists first, attempt, asked, again. rewrite Hr, Hat, <- app_assoc.
  split_and!; [done|by intros reason ?%Hnf|done|done|done|done|done|].
  intros Hne. exists decision. split; [done|]. destruct (Hwhy Hne) as [?|[_ ?]]; [by left|by right].
Qed.

(** An element that is not in the first part of a list is found in the rest. *)
Lemma app_split_notin {X} (x : X) l r pre post :
  x ∉ l → l ++ r = pre ++ x :: post → ∃ mid, pre = l ++ mid ∧ r = mid ++ x :: post.
Proof.
  revert pre. induction l as [|y l IH]; intros pre Hx Heq; [by exists pre|].
  apply not_elem_of_cons in Hx as [Hxy Hx]. destruct pre as [|z pre]; [by injection Heq as -> _|]. injection Heq as -> Heq.
  destruct (IH pre Hx Heq) as (mid & -> & ->). by exists mid.
Qed.

Definition is_attempt (e : Event) : bool := match e with Attempted _ _ => true | Asked _ _ => false end.

Lemma no_attempts l : (∀ a f, Attempted a f ∉ l) → filter is_attempt l = [].
Proof.
  intros Hl. apply elem_of_nil_inv. intros e [He Hin]%list_elem_of_filter. destruct e as [|a f]; [done|by apply (Hl a f)].
Qed.

(** The attempts of a call: the first one after the first question, the retry after the
    question for it. *)
Lemma attempt_position t turn trace pre a f post :
  call_shape t turn trace → trace = pre ++ Attempted a f :: post →
  ∃ first mid, pre = first ++ mid ∧ (if must_ask t turn then ∃ d, first = [Asked false (Ok d)] else first = []) ∧
    ((mid = [] ∧ a = initial_attempt os t turn) ∨
     (a = retry_attempt os t turn ∧ ∃ decision, gives_up os t turn decision = false ∧
        ((∃ d, Asked true (Ok d) ∈ mid) ∨
         bypass_retry_approval t turn (must_ask t turn) (denial_network_context t turn decision) = true))).
Proof.
  intros (first & attempt & asked & again & -> & _ & Hf & Has & Hat & Hag & Hfirst & Hwhy) Heq.
  apply app_split_notin in Heq as (mid & -> & Heq); [|apply Hf]. exists first, mid. split; [done|].
  assert (Hne : attempt ++ again ≠ []).
  { intros [-> ->]%app_nil. rewrite app_nil_r in Heq. simpl in Heq. apply (Has a f). rewrite Heq. apply elem_of_app. right. by left. }
  split; [by apply Hfirst|]. clear Hfirst.
  assert (Hlast : ∀ mid, asked ++ again = mid ++ Attempted a f :: post →
    a = retry_attempt os t turn ∧ mid = asked ∧ again ≠ []).
  { intros mid' Heq'. apply app_split_notin in Heq' as (m2 & -> & Heq'); [|apply Has].
    destruct Hag as [->|[g ->]]; [by destruct m2|]. destruct m2 as [|? []]; simplify_eq/=. by rewrite app_nil_r. }
  destruct Hat as [->|[g ->]].
  - right. destruct (Hlast mid Heq) as (-> & -> & Hagain). split; [done|].
    destruct (Hwhy Hagain) as (decision & ? & [[d ->]|?]); exists decision; (split; [done|]); [left; exists d; by left|by right].
  - destruct mid as [|x mid]; [left; injection Heq as <- _ _; done|right]. injection Heq as <- Heq.
    destruct (Hlast mid Heq) as (-> & -> & Hagain).
    split; [done|]. destruct (Hwhy Hagain) as (decision & ? & [[d ->]|?]); exists decision; (split; [done|]);
      [left; exists d; right; by left|by right].
Qed.

(** ** Guarantees *)

(** C15: No tool runs before the consent it needs: a forbidden call asks nothing and attempts
    nothing; when the requirement or the automatic review of the turn asks for approval, every
    attempt comes after a granted question; and a call makes at most two attempts. *)
Theorem consent_before_attempt t turn w :
  let trace := (run t turn (w, [])).1.2 in
  (∀ reason, requirement t turn = Exec_Forbidden reason → trace = []) ∧
  (∀ pre a f post, trace = pre ++ Attempted a f :: post → must_ask t turn = true → ∃ d, Asked false (Ok d) ∈ pre) ∧
  length (filter is_attempt trace) ≤ 2.
Proof.
  intros trace. pose proof (run_trace t turn w) as Hshape. fold trace in Hshape.
  split; [by destruct Hshape as (? & ? & ? & ? & _ & ? & _)|]. split.
  - intros pre a f post Heq Hask. destruct (attempt_position _ _ _ _ _ _ _ Hshape Heq) as (first & mid & -> & Hf & _).
    rewrite Hask in Hf. destruct Hf as [d ->]. exists d. by left.
  - destruct Hshape as (first & attempt & asked & again & -> & _ & Hf & Has & Hat & Hag & _).
    rewrite !filter_app, (no_attempts first), (no_attempts asked) by done. simpl.
    destruct Hat as [->|[? ->]], Hag as [->|[? ->]]; simpl; lia.
Qed.

Lemma first_attempt_unsandboxed t turn :
  sandbox_needed os t turn = true → first_sandbox_requested os t turn = false →
  unsandboxed_allowed os t turn = true ∧
  ((∃ p, requirement t turn = Exec_Skip true p) ∨ t_sandbox_permissions t = RequireEscalated).
Proof.
  unfold first_sandbox_requested. intros ->. destruct (unsandboxed_allowed os t turn) eqn:Hu; [|done].
  unfold sandbox_override_for_first_attempt. unfold unsandboxed_allowed in Hu. rewrite Hu. simpl.
  assert (Hesc : requires_escalated_permissions (t_sandbox_permissions t) = true → t_sandbox_permissions t = RequireEscalated).
  { by destruct (t_sandbox_permissions t). }
  destruct (requirement t turn) as [[] p|reason p|reason]; [intros _; split; [done|left; by exists p]|..];
    (destruct (requires_escalated_permissions (t_sandbox_permissions t)); [|done]);
    intros _; (split; [done|]); right; by apply Hesc.
Qed.

(** C4: The sandbox is left only for a reason. For a tool with the default rule for repeated
    questions, an attempt without the sandbox that the permissions call for is made only if
    no denied reads would be lost, and only if a rule of the policy or the request for
    escalation asks for it in the first attempt, or a question of this call was granted
    before; under automatic review, it was the question about the retry. *)
Theorem sandbox_left_only_for_a_reason t turn w pre a f post :
  t_should_bypass_approval t = should_bypass_approval → t_wants_no_sandbox_approval t Never = false →
  (run t turn (w, [])).1.2 = pre ++ Attempted a f :: post →
  sandbox_needed os t turn = true → sandbox_requested a = false →
  unsandboxed_allowed os t turn = true ∧
  ((a = initial_attempt os t turn ∧
    ((∃ p, requirement t turn = Exec_Skip true p) ∨ t_sandbox_permissions t = RequireEscalated)) ∨
   ∃ is_retry d, Asked is_retry (Ok d) ∈ pre ∧ (turn_strict_auto_review turn = true → is_retry = true)).
Proof.
  intros Hbypass Hnever Heq Hneed Hreq.
  destruct (attempt_position _ _ _ _ _ _ _ (run_trace t turn w) Heq) as (first & mid & -> & Hf & [[-> ->]|(-> & decision & Hg & Hwhy)]).
  { destruct (first_attempt_unsandboxed t turn Hneed Hreq) as [? ?]. split; [done|by left]. }
  simpl in Hreq. rewrite Hneed, andb_true_r in Hreq. apply negb_false_iff in Hreq. split; [done|]. right.
  destruct Hwhy as [[d Hd]|Hb]; [exists true, d; split; [apply elem_of_app; by right|done]|].
  unfold bypass_retry_approval in Hb. rewrite Hbypass in Hb. unfold should_bypass_approval in Hb.
  apply andb_true_iff in Hb as [[Hs Hb]%andb_true_iff Hnet]. apply negb_true_iff in Hs.
  destruct (must_ask t turn).
  - destruct Hf as [d ->]. exists false, d. split; [by left|by rewrite Hs].
  - simpl in Hb. apply bool_decide_eq_true in Hb. exfalso. revert Hg. unfold gives_up. rewrite Hb, Hnever. simpl.
    by rewrite orb_true_r.
Qed.

(** ** Patches *)

Definition patch_targets (changes : Changes) : list PathUri.PathUri :=
  '(path, change) ← changes;
  path :: match change with FileUpdate _ (Some dest) _ => [dest] | _ => [] end.

Lemma constrained_targets (changes : Changes) pol ctx :
  is_write_patch_constrained_to_writable_paths changes pol ctx = true ↔
  has_full_disk_write_access_with_context ctx pol = true ∨
  ∀ path, path ∈ patch_targets changes → can_write_path path ctx pol = true.
Proof.
  unfold is_write_patch_constrained_to_writable_paths. destruct (has_full_disk_write_access_with_context ctx pol); [naive_solver|].
  rewrite forallb_forall. setoid_rewrite <- list_elem_of_In. unfold patch_targets. split.
  - intros Hall. right. intros path ([p c] & Hp & Hc)%list_elem_of_bind. specialize (Hall _ Hc). simpl in Hall.
    apply andb_true_iff in Hall as [? Hd]. destruct c as [| |? [dest|] ?]; set_solver.
  - intros [|Hall]; [done|]. intros [p c] Hc. simpl. apply andb_true_iff. split.
    + apply Hall, list_elem_of_bind. exists (p, c). split; [by left|done].
    + destruct c as [| |? [dest|] ?]; [done|done| |done]. apply Hall, list_elem_of_bind.
      exists (p, FileUpdate unified_diff (Some dest) new_content). split; [right; by left|done].
Qed.

(** C29: A patch that runs without a question writes only where it may. It is approved
    automatically exactly when it is not empty, the settings do not ask about everything that is
    not trusted, every path it adds,
    deletes, updates or moves to is writable under the policy, and a sandbox will still
    confine it unless the profile has none; under settings that do not allow the question it
    is rejected instead of asked about. *)
Theorem automatic_patch_writes_only_writable (changes : Changes) policy profile pol ctx route :
  (prepare_apply_patch os changes policy profile pol ctx route = Ok (true, Exec_Skip false None) ↔
   changes ≠ [] ∧ policy ≠ UnlessTrusted ∧
   (has_full_disk_write_access_with_context ctx pol = true ∨
    ∀ path, path ∈ patch_targets changes → can_write_path path ctx pol = true) ∧
   (profile = Disabled ∨ (∃ net, profile = External net) ∨ sandbox_available os route = true)) ∧
  (∀ r, prepare_apply_patch os changes policy profile pol ctx route = Ok r →
     r = (true, Exec_Skip false None) ∨ (r = (false, Exec_NeedsApproval None None) ∧ rejects_sandbox_approval policy = false)).
Proof.
  unfold prepare_apply_patch, assess_patch_safety. rewrite <- constrained_targets. split.
  - destruct (is_empty changes) eqn:He; [destruct changes; [naive_solver|done]|].
    assert (Hc : changes ≠ []) by by destruct changes.
    destruct (rejects_sandbox_approval policy), policy, profile,
      (is_write_patch_constrained_to_writable_paths changes pol ctx), (sandbox_available os route); simpl; naive_solver.
  - intros r. destruct (is_empty changes); [done|].
    destruct (is_write_patch_constrained_to_writable_paths changes pol ctx && _).
    + destruct policy; intros [= <-]; [by right|by left..].
    + destruct (rejects_sandbox_approval policy) eqn:Er, policy; intros [= <-]; by right.
Qed.
End Facts.

(** * Examples: a call whose sandbox denies every attempt inside it *)

Definition sample_profile : PermissionProfile := Managed (ManagedRestricted [new_entry (Special Root) Read] None) NetRestricted.

Definition sample_tool (r : ExecApprovalRequirement) : ToolRequest :=
  mkTool (Some r) (Ok (ActMcpToolCall (lit "s") (lit "t"))) UseDefault Auto true should_bypass_approval
    wants_no_sandbox_approval false (Some None) None.

Definition sample_turn (policy : AskForApproval) : TurnSettings :=
  mkTurn policy false false false true sample_profile sample_profile (uri "file:///w") NoSandbox LevelDisabled None.

Definition network_denial : NetworkPolicyDecisionPayload := mkPayload true (Some (lit "https")) (Some (lit "example.com")).

Definition sample_run (r : ExecApprovalRequirement) (policy : AskForApproval) (denial : option NetworkPolicyDecisionPayload)
    : State (W := unit) * Result (unit * option unit) ToolError :=
  run OsLinux (λ _ _ w, (w, Ok Approved)) (λ _ _ w, (w, Ok (None : option unit))) (λ _, None)
    (λ _ w, (w, Ok tt))
    (λ a w, (w, if sandbox_requested a then Err (Codex (SandboxDenied [] denial)) else Ok tt))
    (sample_tool r) (sample_turn policy) (tt, []).

(** An allowed command runs outside the sandbox at once. *)
Lemma sandbox_left_only_for_a_reason_witness :
  unsandboxed_allowed OsLinux (sample_tool (Exec_Skip true None)) (sample_turn OnRequest) = true.
Proof.
  refine (proj1 (sandbox_left_only_for_a_reason OsLinux (λ _ _ w, (w, Ok Approved))
    (λ _ _ w, (w, Ok (None : option unit))) (λ _, (None : option unit)) (λ _ w, (w, Ok tt))
    (λ a w, (w, if sandbox_requested a then Err (Codex (SandboxDenied [] None)) else Ok tt))
    (sample_tool (Exec_Skip true None)) (sample_turn OnRequest) tt []
    (initial_attempt OsLinux (sample_tool (Exec_Skip true None)) (sample_turn OnRequest)) None [] eq_refl eq_refl _ _ _));
    reflexivity.
Defined.

(** Under [OnRequest] the retry after a blocked connection has no sandbox at all, although only
    network access was asked about. *)
Lemma network_consent_drops_sandbox :
  ∃ first second, (sample_run (Exec_Skip false None) OnRequest (Some network_denial)).1.2
    = [Attempted first (Some (Codex (SandboxDenied [] (Some network_denial)))); Asked true (Ok Approved);
       Attempted second None] ∧
    sandbox_requested first = true ∧ sandbox_requested second = false.
Proof. eexists _, _. split; [reflexivity|]. split; reflexivity. Qed.
