(* ===== verification/NetApproval.v ===== *)
(** Approval of network access while a command runs: [tools/network_approval.rs] of
    [codex-core], the service that answers the proxy about hosts on no list.

    Concurrent requests are tasks over the shared state of the service. Each lock section is
    one step; the answers of reviewers, the result of saving a rule, cancellation and clients
    that go away are chosen by the environment. *)
From stdpp Require Import base list numbers strings pretty gmap sets.
From S2P Require Import Prelude RustStr Truncate NetPolicy NetState UrlLib PathUri PolicyTransforms ExecApproval Approvals.

(** * Keys and decisions *)

Inductive NetworkApprovalProtocol : Type := ApprovalHttp | ApprovalHttps | ApprovalSocks5Tcp | ApprovalSocks5Udp.

Definition approval_protocol (p : NetworkProtocol) : NetworkApprovalProtocol :=
  match p with
  | Http => ApprovalHttp
  | HttpsConnect => ApprovalHttps
  | Socks5Tcp => ApprovalSocks5Tcp
  | Socks5Udp => ApprovalSocks5Udp
  end.

Definition protocol_key_label (p : NetworkApprovalProtocol) : str :=
  match p with
  | ApprovalHttp => lit "http"
  | ApprovalHttps => lit "https"
  | ApprovalSocks5Tcp => lit "socks5-tcp"
  | ApprovalSocks5Udp => lit "socks5-udp"
  end.

Record HostApprovalKey : Type := mkHostKey {
  hk_environment_id : str;
  hk_host : str;
  hk_protocol : str;
  hk_port : N;
}.
#[export] Instance HostApprovalKey_eq_dec : EqDecision HostApprovalKey.
Proof. solve_decision. Defined.
#[export] Program Instance HostApprovalKey_countable : Countable HostApprovalKey :=
  inj_countable' (λ k, (hk_environment_id k, hk_host k, hk_protocol k, hk_port k))
    (λ x, mkHostKey x.1.1.1 x.1.1.2 x.1.2 x.2) _.
Next Obligation. by intros []. Qed.

Record PendingHostApprovalKey : Type := mkPendingKey {
  pk_host : HostApprovalKey;
  pk_turn_id : str;
  pk_execution_id : option str;
}.
#[export] Instance PendingHostApprovalKey_eq_dec : EqDecision PendingHostApprovalKey.
Proof. solve_decision. Defined.
#[export] Program Instance PendingHostApprovalKey_countable : Countable PendingHostApprovalKey :=
  inj_countable' (λ k, (pk_host k, pk_turn_id k, pk_execution_id k)) (λ x, mkPendingKey x.1.1 x.1.2 x.2) _.
Next Obligation. by intros []. Qed.

Inductive PendingApprovalDecision : Type := AllowOnce | AllowForSession | DenyAccess.
#[export] Instance PendingApprovalDecision_eq_dec : EqDecision PendingApprovalDecision.
Proof. solve_decision. Defined.

Definition REASON_NOT_ALLOWED : str := lit "not_allowed".
Definition not_allowed : NetworkDecision := deny_with_source REASON_NOT_ALLOWED Decider.

Definition to_network_decision (d : PendingApprovalDecision) : NetworkDecision :=
  match d with
  | AllowOnce | AllowForSession => NetState.Allow
  | DenyAccess => not_allowed
  end.

Definition from_request (req : NetworkPolicyRequest) (environment_id : str) : HostApprovalKey :=
  mkHostKey environment_id (to_ascii_lowercase (pr_host req))
    (protocol_key_label (approval_protocol (pr_protocol req))) (pr_port req).

Definition format_network_target (protocol host : str) (port : N) : str :=
  protocol ++ lit "://" ++ host ++ lit ":" ++ lit (pretty port).

Definition policy_denial_message (key : HostApprovalKey) (req : NetworkPolicyRequest) : str :=
  lit "Network access to " ++ [34%N] ++ format_network_target (hk_protocol key) (pr_host req) (hk_port key)
  ++ [34%N] ++ lit " was blocked by policy.".

Definition allows_network_approval_flow (policy : AskForApproval) : bool := negb (bool_decide (policy = Never)).

Definition parse_network_policy_decision (value : str) : option NetworkPolicyDecision :=
  if bool_decide (value = lit "deny") then Some PolicyDeny
  else if bool_decide (value = lit "ask") then Some PolicyAsk
  else None.

Definition denied_network_policy_message (b : BlockedRequest) : option str :=
  match br_decision b ≫= parse_network_policy_decision with
  | None | Some PolicyAsk => None
  | Some PolicyDeny =>
    let host := trim (br_host b) in
    if is_empty host then Some (lit "Network access was blocked by policy.")
    else
      let reason s := bool_decide (br_reason b = lit s) in
      let detail :=
        if reason "denied" then lit "domain is explicitly denied by policy and cannot be approved from this prompt"
        else if reason "not_allowed" then lit "domain is not on the allowlist for the current sandbox mode"
        else if reason "not_allowed_local" then lit "local/private network addresses are blocked by the sandbox policy"
        else if reason "method_not_allowed" then lit "request method is blocked by the current network mode"
        else if reason "proxy_disabled" then lit "network proxy is disabled"
        else lit "request is blocked by network policy" in
      Some (lit "Network access to " ++ [34%N] ++ host ++ [34%N] ++ lit " was blocked: " ++ detail ++ lit ".")
  end.

(** Only a rule about the host that was asked about is saved. *)
Definition validated_network_policy_amendment_host (amendment_host approved_host : str) : option str :=
  if bool_decide (normalize_host amendment_host = normalize_host approved_host)
  then Some (normalize_host approved_host) else None.

Section Service.
Context `{UL : UrlLib}.

Definition permission_profile_allows_network_approval_flow (profile : PermissionProfile) : bool :=
  match profile with Managed _ _ => true | Disabled | External _ => false end.

(** * The state of the service *)

(** The environments of a turn, with the profile of each. *)
Definition Environments : Type := list (str * PermissionProfile).

(** Its cancellation token is identified by the registration id, which is a fresh UUID. What is
    only shown to reviewers is left out. *)
Record ActiveNetworkApprovalCall : Type := mkCall {
  registration_id : str;
  call_turn_id : str;
  call_environment_id : str;
  call_permission_profile : PermissionProfile;
  call_environments : Environments;
}.

(** [pending_host_approvals] holds pointers to shared cells; a cell is a number, and
    [decisions] has the cells that were set. [commit_lock] is whether the lock is free. *)
Record Service : Type := mkService {
  active_calls : gmap str ActiveNetworkApprovalCall;
  call_outcomes : gmap str str;
  cancelled : gset str;
  pending_host_approvals : gmap PendingHostApprovalKey nat;
  decisions : gmap nat PendingApprovalDecision;
  created : nat;
  commit_lock : bool;
  session_approved_hosts : gset HostApprovalKey;
  session_denied_hosts : gset HostApprovalKey;
}.
Implicit Types (s : Service) (call : ActiveNetworkApprovalCall) (key : HostApprovalKey).

Definition default_service : Service := mkService ∅ ∅ ∅ ∅ ∅ 0 true ∅ ∅.

Definition set_calls (calls : gmap str ActiveNetworkApprovalCall) (outcomes : gmap str str) (c : gset str) s : Service :=
  mkService calls outcomes c (pending_host_approvals s) (decisions s) (created s) (commit_lock s)
    (session_approved_hosts s) (session_denied_hosts s).
Definition set_pending (pending : gmap PendingHostApprovalKey nat) (ds : gmap nat PendingApprovalDecision)
    (n : nat) s : Service :=
  mkService (active_calls s) (call_outcomes s) (cancelled s) pending ds n (commit_lock s)
    (session_approved_hosts s) (session_denied_hosts s).
Definition set_lock (free : bool) s : Service :=
  mkService (active_calls s) (call_outcomes s) (cancelled s) (pending_host_approvals s) (decisions s) (created s)
    free (session_approved_hosts s) (session_denied_hosts s).
Definition set_hosts (approved denied : gset HostApprovalKey) s : Service :=
  mkService (active_calls s) (call_outcomes s) (cancelled s) (pending_host_approvals s) (decisions s) (created s)
    (commit_lock s) approved denied.

(** ** Calls and their outcomes *)

Definition register_call call s : Service :=
  set_calls (<[registration_id call := call]> (active_calls s)) (call_outcomes s) (cancelled s) s.

Definition cancel (registration : str) s : Service :=
  set_calls (active_calls s) (call_outcomes s) ({[registration]} ∪ cancelled s) s.

Definition store_call_outcome (registration outcome : str) s : Service :=
  match active_calls s !! registration with
  | None => s
  | Some _ => set_calls (active_calls s) (<[registration := outcome]> (call_outcomes s)) (cancelled s) s
  end.

Definition record_call_outcome (registration outcome : str) s : Service :=
  match active_calls s !! registration with
  | None => s
  | Some _ => cancel registration (store_call_outcome registration outcome s)
  end.

Definition record_call_outcome_if_absent (registration outcome : str) s : Service :=
  match active_calls s !! registration with
  | None => s
  | Some _ =>
      cancel registration
        (set_calls (active_calls s)
           (<[registration := default outcome (call_outcomes s !! registration)]> (call_outcomes s)) (cancelled s) s)
  end.

Definition remove_call (registration : str) s : Service * option str :=
  (set_calls (delete registration (active_calls s)) (delete registration (call_outcomes s)) (cancelled s) s,
   call_outcomes s !! registration).

(** ** Whose request is it? *)

Definition first_call s : option ActiveNetworkApprovalCall := snd <$> head (map_to_list (active_calls s)).

Definition resolve_single_active_call s : option ActiveNetworkApprovalCall :=
  if bool_decide (size (active_calls s) = 1) then first_call s else None.

Inductive ActiveNetworkApprovalAttribution : Type :=
| NoCall
| SingleCall (call : ActiveNetworkApprovalCall)
| AmbiguousCalls.

Definition resolve_active_call_attribution s : ActiveNetworkApprovalAttribution :=
  match size (active_calls s) with
  | 0 => NoCall
  | 1 => match first_call s with Some call => SingleCall call | None => NoCall end
  | _ => AmbiguousCalls
  end.

Definition resolve_request_attribution (req : NetworkPolicyRequest) s
    : option (option ActiveNetworkApprovalCall * option str) :=
  match pr_execution_id req with
  | Some execution_id =>
      call ← active_calls s !! execution_id;
      let environment_id := default (call_environment_id call) (pr_environment_id req) in
      if bool_decide (call_environment_id call = environment_id)
      then Some (Some call, Some environment_id) else None
  | None =>
      match pr_environment_id req with
      | Some environment_id =>
          let owner_call :=
            match resolve_active_call_attribution s with
            | SingleCall call => if bool_decide (call_environment_id call = environment_id) then Some call else None
            | NoCall | AmbiguousCalls => None
            end in
          Some (owner_call, Some environment_id)
      | None =>
          match resolve_active_call_attribution s with
          | NoCall => Some (None, None)
          | SingleCall call => Some (Some call, Some (call_environment_id call))
          | AmbiguousCalls => None
          end
      end
  end.

Definition record_blocked_request (b : BlockedRequest) s : Service :=
  match denied_network_policy_message b with
  | None => s
  | Some message =>
      match (match br_execution_id b with
             | Some execution_id => active_calls s !! execution_id
             | None => resolve_single_active_call s
             end) with
      | None => s
      | Some call => record_call_outcome_if_absent (registration_id call) message s
      end
  end.

(** ** Pending approvals and the hosts of the session *)

Definition get_or_create_pending_approval (pk : PendingHostApprovalKey) s : Service * (nat * bool) :=
  match pending_host_approvals s !! pk with
  | Some existing => (s, (existing, false))
  | None =>
      (set_pending (<[pk := created s]> (pending_host_approvals s)) (decisions s) (S (created s)) s, (created s, true))
  end.

(** The first half of [publish_and_remove], under the lock of the map. *)
Definition remove_pending (pk : PendingHostApprovalKey) (cell : nat) s : Service :=
  if bool_decide (pending_host_approvals s !! pk = Some cell)
  then set_pending (delete pk (pending_host_approvals s)) (decisions s) (created s) s else s.

(** [set_decision]: a cell is set once. *)
Definition set_decision (cell : nat) (d : PendingApprovalDecision) s : Service :=
  match decisions s !! cell with
  | Some _ => s
  | None => set_pending (pending_host_approvals s) (<[cell := d]> (decisions s)) (created s) s
  end.

Definition sync_session_approved_hosts_to (source other : Service) : Service :=
  set_hosts (session_approved_hosts source) (session_denied_hosts other) other.

(** * The end of a call *)

Definition REJECTION_MESSAGE_MAX_TOKENS : N := 900.
Definition truncate_rejection_message (message : str) : option str :=
  fst <$> truncate_middle_with_token_budget message REJECTION_MESSAGE_MAX_TOKENS.

Definition ABANDONED_NETWORK_APPROVAL_MESSAGE : str :=
  lit "network approval was cancelled before a decision was returned".

Definition abandoned_network_approval_outcome (registration : str) s : option str :=
  if bool_decide (registration ∈ cancelled s) then Some ABANDONED_NETWORK_APPROVAL_MESSAGE else None.

(** [None] is a panic of the truncation. *)
Definition network_approval_outcome_to_result (outcome : option str) : option (Result unit ToolError) :=
  match outcome with
  | Some rejection => (λ text, Err (Rejected text)) <$> truncate_rejection_message rejection
  | None => Some (Ok tt)
  end.

(** [DeferredNetworkApproval::finish]; [finish_outcome] is the cell that its clones share. *)
Definition finish (registration : str) (finish_outcome : option (option str)) s
    : Service * (option (option str) * option (Result unit ToolError)) :=
  let (s, outcome) :=
    match finish_outcome with
    | Some outcome => (s, outcome)
    | None => remove_call registration s
    end in
  (s, (Some outcome,
       network_approval_outcome_to_result
         (match outcome with Some o => Some o | None => abandoned_network_approval_outcome registration s end))).

(** * Requests *)

(** What a request reads of the turn that is active. *)
Record ActiveTurn : Type := mkActiveTurn {
  turn_sub_id : str;
  turn_policy : AskForApproval;
  turn_environments : Environments;
  turn_primary : option str;
}.

(** [PendingHostApprovalOwner]: the request that reviews for all that wait for its cell. *)
Record Owner : Type := mkOwner {
  o_key : PendingHostApprovalKey;
  o_cell : nat;
  o_call : option ActiveNetworkApprovalCall;
  o_on_drop : PendingApprovalDecision;
}.
Definition set_decision_on_drop (d : PendingApprovalDecision) (o : Owner) : Owner :=
  mkOwner (o_key o) (o_cell o) (o_call o) d.

(** Changes of the session's hosts and of the outcome while the commit lock is held. *)
Inductive Commit : Type :=
| ApproveHost
| UnapproveHost
| DenyHost
| UndenyHost
| RejectCall (outcome : str).

(** What is left of [PendingHostApprovalOwner::complete] or of its [drop]. *)
Inductive Stage : Type :=
| Recording (outcome : str)
| RecordingIfAbsent (outcome : str)
| Cancelling
| Removing
| Publishing
| Unlocking.

(** Where [handle_inline_policy_request] is. *)
Inductive TaskState : Type :=
| Arrived
| Attributed (owner_call : option ActiveNetworkApprovalCall) (environment_id : option str)
| Keyed (owner_call : option ActiveNetworkApprovalCall) (turn : option ActiveTurn) (key : HostApprovalKey)
| Uncached (owner_call : option ActiveNetworkApprovalCall) (turn : option ActiveTurn) (key : HostApprovalKey)
| WaitingFor (cell : nat)
| Reviewing (o : Owner)
| Answered (o : Owner) (d : ReviewDecision)
| Locked (o : Owner) (d : ReviewDecision)
| Persisting (o : Owner) (host : str) (action : NetworkPolicyRuleAction) (applied : bool)
| Committing (o : Owner) (changes : list Commit) (d : PendingApprovalDecision)
| Completing (o : Owner) (d : PendingApprovalDecision) (locked dropped : bool) (stage : Stage)
| Finished (result : option NetworkDecision).

(** What happened, for the statements about runs. *)
Inductive Event : Type :=
| EvAnswer (pk : PendingHostApprovalKey) (d : ReviewDecision)
| EvRule (key : HostApprovalKey) (action : NetworkPolicyRuleAction)
| EvApproved (key : HostApprovalKey)
| EvSynced (hosts : gset HostApprovalKey)
| EvCached (key : HostApprovalKey)
| EvDecided (o : Owner) (d : PendingApprovalDecision) (process_finished : bool)
| EvReturned (cell : nat) (d : NetworkDecision).

Definition o_host (o : Owner) : HostApprovalKey := pk_host (o_key o).
Definition o_registration (o : Owner) : option str := registration_id <$> o_call o.

Definition commit (o : Owner) (c : Commit) s : Service * list Event :=
  let key := o_host o in
  match c with
  | ApproveHost => (set_hosts ({[key]} ∪ session_approved_hosts s) (session_denied_hosts s) s, [EvApproved key])
  | UnapproveHost => (set_hosts (session_approved_hosts s ∖ {[key]}) (session_denied_hosts s) s, [])
  | DenyHost => (set_hosts (session_approved_hosts s) ({[key]} ∪ session_denied_hosts s) s, [EvRule key NetDeny])
  | UndenyHost => (set_hosts (session_approved_hosts s) (session_denied_hosts s ∖ {[key]}) s, [])
  | RejectCall outcome => (from_option (λ r, record_call_outcome r outcome s) s (o_registration o), [])
  end.

(** A stage, and the one after it. *)
Definition run_stage (o : Owner) (d : PendingApprovalDecision) (stage : Stage) s : Service :=
  match stage with
  | Recording outcome => from_option (λ r, record_call_outcome r outcome s) s (o_registration o)
  | RecordingIfAbsent outcome => from_option (λ r, record_call_outcome_if_absent r outcome s) s (o_registration o)
  | Cancelling =>
      match d with
      | DenyAccess => from_option (λ r, cancel r s) s (o_registration o)
      | AllowOnce | AllowForSession => s
      end
  | Removing => remove_pending (o_key o) (o_cell o) s
  | Publishing => set_decision (o_cell o) d s
  | Unlocking => set_lock true s
  end.

Definition next_stage (locked : bool) (stage : Stage) : option Stage :=
  match stage with
  | Recording _ | RecordingIfAbsent _ => Some Cancelling
  | Cancelling => Some Removing
  | Removing => Some Publishing
  | Publishing => if locked then Some Unlocking else None
  | Unlocking => None
  end.

Definition after_stage (o : Owner) (d : PendingApprovalDecision) (locked dropped : bool) (stage : Stage)
    : TaskState * list Event :=
  match next_stage locked stage with
  | Some stage => (Completing o d locked dropped stage, [])
  | None => if dropped then (Finished None, [])
            else (Finished (Some (to_network_decision d)), [EvReturned (o_cell o) (to_network_decision d)])
  end.

(** The request that creates the cell checks whether there may be a review at all. *)
Definition review_profile (owner_call : option ActiveNetworkApprovalCall) (turn : ActiveTurn) key
    : option PermissionProfile :=
  match owner_call with
  | Some call => Some (call_permission_profile call)
  | None => (λ '(_, (_, profile)), profile) <$> list_find (λ e, e.1 = hk_environment_id key) (turn_environments turn)
  end.

Definition may_review (owner_call : option ActiveNetworkApprovalCall) (turn : ActiveTurn) key : bool :=
  from_option permission_profile_allows_network_approval_flow false (review_profile owner_call turn key)
  && allows_network_approval_flow (turn_policy turn).

Definition pending_key (owner_call : option ActiveNetworkApprovalCall) (turn : ActiveTurn) key : PendingHostApprovalKey :=
  mkPendingKey key (from_option call_turn_id (turn_sub_id turn) owner_call) (registration_id <$> owner_call).

Definition needs_commit (d : ReviewDecision) : bool :=
  match d with
  | Approved | ApprovedExecpolicyAmendment _ | ApprovedForSession | NetworkPolicyAmendment _ _ => true
  | ApprovedMcpPolicyAmendment | Denied _ | TimedOut | AbortTurn => false
  end.

Definition rejection_of (e : ToolError) (error_text : CodexErr → str) : str :=
  match e with
  | Rejected rejection => rejection
  | Codex TurnAborted => lit "rejected by user"
  | Codex err => lit "Error while requesting approval: " ++ error_text err
  end.

(** The states in which the future of the request owns a cell, with whether it has the lock. *)
Definition owning (st : TaskState) : option (Owner * bool) :=
  match st with
  | Reviewing o | Answered o _ => Some (o, false)
  | Locked o _ | Persisting o _ _ _ | Committing o _ _ => Some (o, true)
  | _ => None
  end.

(** The states in which a request that goes away leaves nothing behind. *)
Definition unencumbered (st : TaskState) : bool :=
  match st with
  | Arrived | Attributed _ _ | Keyed _ _ _ | Uncached _ _ _ | WaitingFor _ => true
  | _ => false
  end.

(** [Drop for PendingHostApprovalOwner]: with the reason of the cancellation and, when the
    client disconnected, the time that took. *)
Definition drop_stage (o : Owner) (process_finished : bool) (elapsed : option N) : Stage :=
  if process_finished then Removing
  else match o_on_drop o, elapsed with
       | DenyAccess, Some elapsed_ms =>
           RecordingIfAbsent (lit "Network request disconnected after " ++ lit (pretty elapsed_ms)
                              ++ lit " ms, before approval could complete")
       | _, _ => Cancelling
       end.

Definition running (owner_call : option ActiveNetworkApprovalCall) s : Prop :=
  ∀ call, owner_call = Some call → registration_id call ∉ cancelled s.

Section Steps.
Context (error_text : CodexErr → str) (req : NetworkPolicyRequest).

Definition blocked_message (o : Owner) : str := policy_denial_message (o_host o) req.

(** The decision under the lock, from whether the host is denied. A rule is saved first. *)
Definition commit_answer (o : Owner) (d : ReviewDecision) (denied : bool) : TaskState * list Event :=
  match d with
  | NetworkPolicyAmendment host action => (Persisting o host action false, [])
  | ApprovedForSession =>
      if denied then (Completing o DenyAccess true false (Recording (blocked_message o)), [EvDecided o DenyAccess false])
      else (Committing o [ApproveHost] AllowForSession, [])
  | Approved | ApprovedExecpolicyAmendment _ =>
      if denied then (Completing o DenyAccess true false (Recording (blocked_message o)), [EvDecided o DenyAccess false])
      else (Completing o AllowOnce true false Cancelling, [EvDecided o AllowOnce false])
  | ApprovedMcpPolicyAmendment | Denied _ | TimedOut | AbortTurn =>
      (Completing o DenyAccess true false (Recording (lit "Error while requesting approval")),
       [EvDecided o DenyAccess false])
  end.

(** After [persist_network_policy_amendment]; [applied] is whether the policy changed. *)
Definition persisted (o : Owner) (action : NetworkPolicyRuleAction) (applied : bool) : TaskState * list Event :=
  match action with
  | NetAllow =>
      if applied then (Committing o [UndenyHost; ApproveHost] AllowForSession, [])
      else (Completing o DenyAccess true false (Recording (blocked_message o)), [EvDecided o DenyAccess false])
  | NetDeny => (Committing o [RejectCall (lit "rejected by user"); UnapproveHost; DenyHost] DenyAccess, [])
  end.

(** The request goes on. *)
Inductive handle : Service → TaskState → Service → TaskState → list Event → Prop :=
| l_unattributed s :
    resolve_request_attribution req s = None → handle s Arrived s (Finished (Some not_allowed)) []
| l_attributed s owner_call env :
    resolve_request_attribution req s = Some (owner_call, env) → handle s Arrived s (Attributed owner_call env) []
| l_call_cancelled s call env :
    registration_id call ∈ cancelled s → handle s (Attributed (Some call) env) s (Finished (Some not_allowed)) []
| l_keyed s owner_call env turn :
    running owner_call s →
    handle s (Attributed owner_call env) s
      (match or_else env (turn ≫= turn_primary) with
       | Some environment_id => Keyed owner_call turn (from_request req environment_id)
       | None => Finished (Some not_allowed)
       end) []
| l_cache s owner_call turn key :
    commit_lock s = true →
    handle s (Keyed owner_call turn key) s
      (if bool_decide (key ∈ session_denied_hosts s) then Finished (Some not_allowed)
       else if bool_decide (key ∈ session_approved_hosts s) then Finished (Some NetState.Allow)
       else Uncached owner_call turn key)
      (if bool_decide ((key ∉ session_denied_hosts s) ∧ (key ∈ session_approved_hosts s)) then [EvCached key] else [])
| l_no_turn s owner_call key :
    handle s (Uncached owner_call None key)
      (from_option (λ call, record_call_outcome (registration_id call) (policy_denial_message key req) s) s owner_call)
      (Finished (Some not_allowed)) []
| l_join s owner_call turn key cell :
    get_or_create_pending_approval (pending_key owner_call turn key) s = (s, (cell, false)) →
    handle s (Uncached owner_call (Some turn) key) s (WaitingFor cell) []
| l_own s s' owner_call turn key cell :
    get_or_create_pending_approval (pending_key owner_call turn key) s = (s', (cell, true)) →
    let o := mkOwner (pending_key owner_call turn key) cell owner_call DenyAccess in
    handle s (Uncached owner_call (Some turn) key) s'
      (if may_review owner_call turn key then Reviewing o
       else Completing o DenyAccess false false (Recording (blocked_message o)))
      (if may_review owner_call turn key then [] else [EvDecided o DenyAccess false])
| l_woken s cell d :
    decisions s !! cell = Some d →
    handle s (WaitingFor cell) s (Finished (Some (to_network_decision d))) [EvReturned cell (to_network_decision d)]
| l_review_cancelled s o r :
    o_registration o = Some r → r ∈ cancelled s →
    handle s (Reviewing o) s (Completing o DenyAccess false false Cancelling) [EvDecided o DenyAccess false]
| l_rejected s o e :
    handle s (Reviewing o) s (Completing o DenyAccess false false (Recording (rejection_of e error_text)))
      [EvDecided o DenyAccess false]
| l_answered s o d :
    handle s (Reviewing o)
      (match d, o_registration o with
       | NetworkPolicyAmendment _ NetDeny, Some r => store_call_outcome r (lit "rejected by user") s
       | _, _ => s
       end) (Answered o d) [EvAnswer (o_key o) d]
| l_invalid s o d :
    needs_commit d = false →
    handle s (Answered o d) s
      (Completing o DenyAccess false false (Recording (lit "Error while requesting approval")))
      [EvDecided o DenyAccess false]
| l_lock s o d :
    needs_commit d = true → commit_lock s = true → handle s (Answered o d) (set_lock false s) (Locked o d) []
| l_commit_answer s o d st evs :
    commit_answer o d (bool_decide (o_host o ∈ session_denied_hosts s)) = (st, evs) → handle s (Locked o d) s st evs
| l_applied s o host action :
    is_Some (validated_network_policy_amendment_host host (pr_host req)) →
    handle s (Persisting o host action false) s
      (Persisting (set_decision_on_drop (match action with NetAllow => AllowForSession | NetDeny => DenyAccess end) o)
         host action true)
      (match action with NetAllow => [EvRule (o_host o) NetAllow] | NetDeny => [] end)
| l_persisted s o host action applied st evs :
    persisted o action applied = (st, evs) → handle s (Persisting o host action applied) s st evs
| l_commit s s' o c c' cs d evs :
    commit o c s = (s', evs) → handle s (Committing o (c :: c' :: cs) d) s' (Committing o (c' :: cs) d) evs
| l_committed s s' o c d evs :
    commit o c s = (s', evs) →
    handle s (Committing o [c] d) s' (Completing o d true false Cancelling) (evs ++ [EvDecided o d false])
| l_stage s o d locked dropped stage st evs :
    after_stage o d locked dropped stage = (st, evs) →
    handle s (Completing o d locked dropped stage) (run_stage o d stage s) st evs.

(** The future of a request can be dropped while it waits: a client goes away, a turn ends. *)
Inductive leave : Service → TaskState → Service → TaskState → list Event → Prop :=
| l_drop s st o locked process_finished elapsed :
    owning st = Some (o, locked) →
    leave s st (if locked then set_lock true s else s)
      (Completing o (o_on_drop o) false true (drop_stage o process_finished elapsed))
      [EvDecided o (o_on_drop o) process_finished]
| l_abandon s st : unencumbered st = true → leave s st s (Finished None) [].

Inductive local (s : Service) (st : TaskState) (s' : Service) (st' : TaskState) (evs : list Event) : Prop :=
| l_handle : handle s st s' st' evs → local s st s' st' evs
| l_leave : leave s st s' st' evs → local s st s' st' evs.
End Steps.

(** * Runs *)

Record System : Type := mkSystem {
  service : Service;
  tasks : list (NetworkPolicyRequest * TaskState);
  log : list Event;
}.

(** A step of one request. *)
Inductive task_step (error_text : CodexErr → str) : System → System → Prop :=
| step_local i req st s s' st' evs ts l :
    ts !! i = Some (req, st) → local error_text req s st s' st' evs →
    task_step error_text (mkSystem s ts l) (mkSystem s' (<[i := (req, st')]> ts) (l ++ evs)).

(** Whatever else happens: requests arrive, calls begin and end, the proxy reports a blocked
    request, and another session hands over its approved hosts. *)
Inductive env_step : System → System → Prop :=
| step_request req s ts l : env_step (mkSystem s ts l) (mkSystem s (ts ++ [(req, Arrived)]) l)
| step_register call s ts l :
    active_calls s !! registration_id call = None → registration_id call ∉ cancelled s →
    env_step (mkSystem s ts l) (mkSystem (register_call call s) ts l)
| step_finish registration finish_outcome s ts l :
    env_step (mkSystem s ts l) (mkSystem (finish registration finish_outcome s).1 ts l)
| step_blocked b s ts l : env_step (mkSystem s ts l) (mkSystem (record_blocked_request b s) ts l)
| step_sync source s ts l :
    env_step (mkSystem s ts l)
      (mkSystem (sync_session_approved_hosts_to source s) ts (l ++ [EvSynced (session_approved_hosts source)])).

Definition network_step (error_text : CodexErr → str) (x y : System) : Prop :=
  (task_step error_text x y) ∨ (env_step x y).
Definition idle : System := mkSystem default_service [] [].
Definition reachable (error_text : CodexErr → str) (x : System) : Prop := rtc (network_step error_text) idle x.
End Service.
