(* ===== verification/NetApprovalFacts.v ===== *)
(** Network access is granted only with consent: one review for all requests that ask the same,
    no grant against a denial of the session, and a refused request ends its call. *)
From stdpp Require Import base list numbers strings gmap sets relations.
From S2P Require Import Prelude RustStr Truncate NetState UrlLib UrlModel PathUri PolicyTransforms ExecApproval Approvals NetApproval.

Section Facts.
Context `{UL : UrlLib} (error_text : CodexErr → str).
Implicit Types (s : Service) (st : TaskState) (o : Owner) (x : System).

(** * What one step does to the cells and to the lock *)

(** All the ways in which a request takes a step. *)
Ltac local_cases := let Hl := fresh "Hl" in intros [Hl|Hl]; destruct Hl.

(** The entry a request has to remove, the cell it has to set, and whether it has the lock. *)
Definition entry st : option (PendingHostApprovalKey * nat) :=
  match st with
  | Completing o _ _ _ (Recording _ | RecordingIfAbsent _ | Cancelling | Removing) => Some (o_key o, o_cell o)
  | _ => (λ '(o, _), (o_key o, o_cell o)) <$> owning st
  end.
Definition publishes st : option nat :=
  match st with
  | Completing _ _ _ _ Unlocking => None
  | Completing o _ _ _ _ => Some (o_cell o)
  | _ => (λ '(o, _), o_cell o) <$> owning st
  end.
Definition holds st : bool :=
  match st with
  | Completing _ _ locked _ _ => locked
  | _ => from_option snd false (owning st)
  end.

(** The fields of the service that concern cells. *)
Definition cells s := (pending_host_approvals s, decisions s, created s).

Inductive cell_effect s st s' st' : Prop :=
| cells_same :
    cells s' = cells s → entry st' = entry st → publishes st' = publishes st →
    (∀ c, st' = WaitingFor c → ∃ pk, pending_host_approvals s !! pk = Some c) → cell_effect s st s' st'
| cells_created pk :
    pending_host_approvals s !! pk = None →
    cells s' = (<[pk := created s]> (pending_host_approvals s), decisions s, S (created s)) →
    entry st = None → publishes st = None → entry st' = Some (pk, created s) → publishes st' = Some (created s) →
    cell_effect s st s' st'
| cells_removed pk c :
    entry st = Some (pk, c) → entry st' = None → publishes st' = publishes st → publishes st = Some c →
    cells s' = (if bool_decide (pending_host_approvals s !! pk = Some c) then delete pk (pending_host_approvals s)
                else pending_host_approvals s, decisions s, created s) → cell_effect s st s' st'
| cells_published c d :
    publishes st = Some c → publishes st' = None → entry st = None → entry st' = None → (∀ c', st' ≠ WaitingFor c') →
    (∃ o locked dropped, st = Completing o d locked dropped Publishing ∧ o_cell o = c) →
    cells s' = (pending_host_approvals s,
                match decisions s !! c with Some _ => decisions s | None => <[c := d]> (decisions s) end, created s) →
    cell_effect s st s' st'.

(** Outcomes and cancellation do not touch anything else. *)
Definition calls_only s s' : Prop :=
  ∃ calls outcomes c, s' = set_calls calls outcomes c s ∧ cancelled s ⊆ c.
Definition hosts s := (session_approved_hosts s, session_denied_hosts s).

Lemma calls_only_cells s s' : calls_only s s' → cells s' = cells s.
Proof. by intros (? & ? & ? & -> & _). Qed.
Lemma calls_only_lock s s' : calls_only s s' → commit_lock s' = commit_lock s.
Proof. by intros (? & ? & ? & -> & _). Qed.
Lemma calls_only_hosts s s' : calls_only s s' → hosts s' = hosts s.
Proof. by intros (? & ? & ? & -> & _). Qed.
Lemma calls_only_cancelled s s' : calls_only s s' → cancelled s ⊆ cancelled s'.
Proof. by intros (? & ? & ? & -> & ?). Qed.

Lemma calls_only_refl s : calls_only s s.
Proof. destruct s. by eexists _, _, _. Qed.
Lemma store_calls_only r t s : calls_only s (store_call_outcome r t s).
Proof. unfold store_call_outcome. destruct (active_calls s !! r); [by eexists _, _, _|apply calls_only_refl]. Qed.
Lemma record_calls_only r t s : calls_only s (record_call_outcome r t s).
Proof.
  unfold record_call_outcome, store_call_outcome.
  destruct (active_calls s !! r); [eexists _, _, _; split; [done|set_solver]|apply calls_only_refl].
Qed.
Lemma record_if_absent_calls_only r t s : calls_only s (record_call_outcome_if_absent r t s).
Proof.
  unfold record_call_outcome_if_absent.
  destruct (active_calls s !! r); [eexists _, _, _; split; [done|set_solver]|apply calls_only_refl].
Qed.
Lemma cancel_calls_only r s : calls_only s (cancel r s).
Proof. eexists _, _, _. split; [done|set_solver]. Qed.
Hint Resolve calls_only_refl store_calls_only record_calls_only record_if_absent_calls_only cancel_calls_only : codex.

Lemma option_calls_only {X} (f : X → Service) (x : option X) s :
  (∀ y, calls_only s (f y)) → calls_only s (from_option f s x).
Proof. intros Hf. destruct x; [apply Hf|apply calls_only_refl]. Qed.
Hint Resolve option_calls_only : codex.

Definition calls_stage (stage : Stage) : bool :=
  match stage with Recording _ | RecordingIfAbsent _ | Cancelling => true | _ => false end.
Lemma stage_calls_only o d stage s : calls_stage stage = true → calls_only s (run_stage o d stage s).
Proof. destruct stage; try done; intros _; simpl; [auto with codex..|]. destruct d; auto with codex. Qed.

Definition host_commit (c : Commit) : bool := match c with RejectCall _ => false | _ => true end.
Lemma commit_calls_only o c s s' evs : commit o c s = (s', evs) → host_commit c = false → calls_only s s'.
Proof. destruct c; intros [= <- <-]; try done. auto with codex. Qed.
Lemma commit_cells o c s s' evs : commit o c s = (s', evs) → cells s' = cells s ∧ commit_lock s' = commit_lock s ∧ cancelled s ⊆ cancelled s'.
Proof.
  intros Hc. destruct (host_commit c) eqn:Hh; [destruct c; simplify_eq/=; set_solver|].
  pose proof (commit_calls_only _ _ _ _ _ Hc Hh).
  auto using calls_only_cells, calls_only_lock, calls_only_cancelled.
Qed.

Lemma after_stage_eq o d locked dropped stage st evs :
  after_stage o d locked dropped stage = (st, evs) →
  (∃ next, next_stage locked stage = Some next ∧ st = Completing o d locked dropped next) ∨
  (next_stage locked stage = None ∧ st = Finished (if dropped then None else Some (to_network_decision d))).
Proof.
  unfold after_stage. destruct (next_stage locked stage) as [next|]; [left; exists next; by simplify_eq|].
  destruct dropped; right; by simplify_eq.
Qed.

Lemma stage_cells o d locked dropped stage st evs s :
  after_stage o d locked dropped stage = (st, evs) →
  cell_effect s (Completing o d locked dropped stage) (run_stage o d stage s) st.
Proof.
  intros Ha. destruct (after_stage_eq _ _ _ _ _ _ _ Ha) as [(next & Hn & ->)|[Hn ->]]; destruct stage; simplify_eq/=.
  1-3: apply cells_same; [apply calls_only_cells; destruct d; auto with codex|done..].
  - eapply cells_removed; try done. simpl. unfold remove_pending. by case_bool_decide.
  - destruct locked; [|done]. simplify_eq. eapply (cells_published _ _ _ _ (o_cell o) d); try done; [by eexists _, _, _|].
    simpl. unfold set_decision. by case_match.
  - destruct locked; [done|]. destruct dropped; eapply (cells_published _ _ _ _ (o_cell o) d); try done; try (by eexists _, _, _);
      simpl; unfold set_decision; by case_match.
  - destruct dropped; by apply cells_same.
Qed.

Lemma local_cells req s st s' st' evs : local error_text req s st s' st' evs → cell_effect s st s' st'.
Proof.
  local_cases; try by apply cells_same.
  all: try by (apply cells_same; by repeat case_match).
  - apply cells_same; [apply calls_only_cells; auto with codex|done..].
  - apply cells_same; try done. intros c [= <-]. unfold get_or_create_pending_approval in *.
    case_match; simplify_eq. by eexists.
  - unfold get_or_create_pending_approval in *. case_match; simplify_eq.
    eapply cells_created; try done; by case_match.
  - apply cells_same; try done. apply calls_only_cells. repeat case_match; auto with codex.
  - unfold commit_answer in *. repeat case_match; simplify_eq; by apply cells_same.
  - unfold persisted in *. repeat case_match; simplify_eq; by apply cells_same.
  - apply cells_same; try done. by eapply commit_cells.
  - apply cells_same; try done. by eapply commit_cells.
  - by eapply stage_cells.
  - apply cells_same; [by destruct locked|..]; destruct st; simplify_eq/=; try done;
      unfold drop_stage; repeat case_match; try done.
  - apply cells_same; by destruct st.
Qed.

Definition lock_effect s st s' st' : Prop :=
  (commit_lock s' = commit_lock s ∧ holds st' = holds st) ∨
  (commit_lock s = true ∧ commit_lock s' = false ∧ holds st = false ∧ holds st' = true) ∨
  (commit_lock s' = true ∧ holds st = true ∧ holds st' = false).

Lemma stage_lock o d locked dropped stage st evs s :
  after_stage o d locked dropped stage = (st, evs) → (stage = Unlocking → locked = true) →
  lock_effect s (Completing o d locked dropped stage) (run_stage o d stage s) st.
Proof.
  intros Ha Hu. destruct (after_stage_eq _ _ _ _ _ _ _ Ha) as [(next & Hn & ->)|[Hn ->]]; destruct stage; simplify_eq/=.
  1-3: left; split; [apply calls_only_lock; destruct d; auto with codex|done].
  - left. split; [|done]. unfold remove_pending. by case_match.
  - left. split; [|done]. unfold set_decision. by destruct (decisions s !! o_cell o).
  - left. destruct locked; [done|]. split; [|by destruct dropped]. unfold set_decision. by destruct (decisions s !! o_cell o).
  - right; right. split; [done|]. split; [by apply Hu|by destruct dropped].
Qed.

(** The stages of a request that has no lock do not release one. *)
Definition sane st : Prop := match st with Completing _ _ locked _ Unlocking => locked = true | _ => True end.

Lemma local_sane req s st s' st' evs : local error_text req s st s' st' evs → sane st → sane st'.
Proof.
  local_cases; intros Hs; try done; try (by repeat case_match).
  - unfold commit_answer in *. repeat case_match; by simplify_eq.
  - unfold persisted in *. repeat case_match; by simplify_eq.
  - destruct (after_stage_eq _ _ _ _ _ _ _ H) as [(next & Hn & ->)|[_ ->]]; [|done].
    destruct stage; simplify_eq/=; try done. by destruct locked; simplify_eq.
  - simpl. unfold drop_stage. by repeat case_match.
Qed.

Lemma local_lock req s st s' st' evs :
  local error_text req s st s' st' evs → sane st → lock_effect s st s' st'.
Proof.
  local_cases; intros Hs; try by left.
  all: try by (left; split; by repeat case_match).
  - left. split; [apply calls_only_lock; auto with codex|done].
  - left. unfold get_or_create_pending_approval in *. case_match; simplify_eq. split; [done|by case_match].
  - left. split; [|done]. apply calls_only_lock. repeat case_match; auto with codex.
  - by right; left.
  - left. split; [done|]. unfold commit_answer in *. by repeat case_match; simplify_eq.
  - left. split; [done|]. unfold persisted in *. by repeat case_match; simplify_eq.
  - left. split; [by eapply commit_cells|done].
  - left. split; [by eapply commit_cells|done].
  - apply (stage_lock _ _ _ _ _ _ evs); [done|]. by intros ->.
  - destruct locked; [right; right|left]; (split; [done|]); destruct st; by simplify_eq/=.
  - left. split; [done|]. by destruct st.
Qed.

(** * The invariant *)

Definition some_task (ts : list (NetworkPolicyRequest * TaskState)) (P : TaskState → Prop) : Prop :=
  ∃ i req st, ts !! i = Some (req, st) ∧ P st.
Definition every_task (ts : list (NetworkPolicyRequest * TaskState)) (P : TaskState → Prop) : Prop :=
  ∀ i req st, ts !! i = Some (req, st) → P st.
Definition one_task (ts : list (NetworkPolicyRequest * TaskState)) (P : TaskState → Prop) : Prop :=
  ∀ i j req req' st st', ts !! i = Some (req, st) → ts !! j = Some (req', st') → P st → P st' → i = j.

Lemma some_task_insert ts i req st st' P :
  ts !! i = Some (req, st) →
  some_task (<[i := (req, st')]> ts) P ↔ P st' ∨ ∃ j req' st'', j ≠ i ∧ ts !! j = Some (req', st'') ∧ P st''.
Proof.
  intros Hi. split.
  - intros (j & r & t & [(<- & [= <- <-] & _)|[Hne Hj]]%list_lookup_insert_Some & HP); [by left|].
    right. by exists j, r, t.
  - intros [HP|(j & r & t & Hne & Hj & HP)]; [exists i, req, st'|exists j, r, t]; (split; [|done]).
    + apply list_lookup_insert_eq. by eapply lookup_lt_Some.
    + by rewrite list_lookup_insert_ne.
Qed.

Lemma every_task_insert ts i req st' P :
  every_task ts P → P st' → every_task (<[i := (req, st')]> ts) P.
Proof. intros Hall HP j r t [(<- & [= <- <-] & _)|[Hne Hj]]%list_lookup_insert_Some; [done|by eapply Hall]. Qed.

Lemma one_task_insert ts i req st st' P :
  ts !! i = Some (req, st) → one_task ts P →
  (P st' → P st ∨ ¬ some_task ts P) → one_task (<[i := (req, st')]> ts) P.
Proof.
  intros Hi Hone Hst j k r r' t t' [(<- & [= <- <-] & _)|[Hj Htj]]%list_lookup_insert_Some
    [(<- & [= <- <-] & _)|[Hk Htk]]%list_lookup_insert_Some HP HP'; [done|..].
  - destruct (Hst HP) as [HP''|[]]; [by eapply Hone|by exists k, r', t'].
  - destruct (Hst HP') as [HP''|[]]; [by eapply Hone|by exists j, r, t].
  - by eapply Hone.
Qed.

Lemma some_task_split ts i req st P :
  ts !! i = Some (req, st) → some_task ts P ↔ P st ∨ ∃ j req' st'', j ≠ i ∧ ts !! j = Some (req', st'') ∧ P st''.
Proof.
  intros Hi. rewrite <- (list_insert_id ts i (req, st)) at 1 by done. by apply (some_task_insert ts i req st).
Qed.

Lemma some_task_same ts i req st st' P :
  ts !! i = Some (req, st) → (P st' ↔ P st) → some_task (<[i := (req, st')]> ts) P ↔ some_task ts P.
Proof. intros Hi HP. by rewrite (some_task_insert _ _ _ st) by done; rewrite (some_task_split ts i req st), HP by done. Qed.

Lemma entry_publishes st pk c : entry st = Some (pk, c) → publishes st = Some c.
Proof. destruct st; simpl; try done; [by intros [= _ <-]..|]. destruct stage; try done; by intros [= _ <-]. Qed.

(** Every cell in the map has a request that will remove it, set it once and wake the requests
    that wait for it. *)
Record cells_ok s (ts : list (NetworkPolicyRequest * TaskState)) : Prop := mkCellsOk {
  ok_entry pk c : pending_host_approvals s !! pk = Some c ↔ some_task ts (λ st, entry st = Some (pk, c));
  ok_single c : one_task ts (λ st, publishes st = Some c);
  ok_fresh c : every_task ts (λ st, publishes st = Some c → c < created s ∧ decisions s !! c = None);
  ok_set c d : decisions s !! c = Some d → c < created s;
  ok_waiting c : every_task ts (λ st, st = WaitingFor c →
    is_Some (decisions s !! c) ∨ some_task ts (λ st', publishes st' = Some c));
}.

Lemma cells_ok_same s s' ts i req st st' :
  cells_ok s ts → ts !! i = Some (req, st) → cells s' = cells s → entry st' = entry st →
  publishes st' = publishes st → (∀ c, st' = WaitingFor c → ∃ pk, pending_host_approvals s !! pk = Some c) →
  cells_ok s' (<[i := (req, st')]> ts).
Proof.
  intros [He Hs Hf Hd Hw] Hi [= Hp Hdec Hcr] Hent Hpub Hwait.
  assert (Hpubs : ∀ c, some_task (<[i := (req, st')]> ts) (λ t, publishes t = Some c) ↔ some_task ts (λ t, publishes t = Some c)).
  { intros c. apply (some_task_same _ _ _ st); [done|]. by rewrite Hpub. }
  split; rewrite ?Hp, ?Hdec, ?Hcr; try done.
  - intros pk c. rewrite He, (some_task_same _ _ _ st _ _ Hi); [done|]. by rewrite Hent.
  - intros c. apply (one_task_insert _ _ _ st); [done..|]. rewrite Hpub. by left.
  - intros c. apply every_task_insert; [done|]. rewrite Hpub. by apply (Hf c i req).
  - intros c. apply every_task_insert.
    + intros j r t Hj Ht. destruct (Hw c j r t Hj Ht); [by left|right; by apply Hpubs].
    + intros Ht. destruct (Hwait c Ht) as [pk Hpk%He]. right. apply Hpubs.
      destruct Hpk as (j & r & t & Hj & Hte). exists j, r, t. split; [done|]. by eapply entry_publishes.
Qed.

Lemma cells_ok_created s s' ts i req st st' pk :
  cells_ok s ts → ts !! i = Some (req, st) → pending_host_approvals s !! pk = None →
  cells s' = (<[pk := created s]> (pending_host_approvals s), decisions s, S (created s)) →
  entry st = None → publishes st = None → entry st' = Some (pk, created s) → publishes st' = Some (created s) →
  cells_ok s' (<[i := (req, st')]> ts).
Proof.
  intros [He Hs Hf Hd Hw] Hi Hnone [= Hp Hdec Hcr] Hent Hpub Hent' Hpub'.
  assert (Hno : ¬ some_task ts (λ t, publishes t = Some (created s))).
  { intros (j & r & t & Hj & Ht). destruct (Hf _ j r t Hj Ht). lia. }
  split; rewrite ?Hp, ?Hdec, ?Hcr.
  - intros pk' c. rewrite (some_task_insert _ _ _ st) by done. rewrite Hent'.
    pose proof (some_task_split ts i req st (λ t, entry t = Some (pk', c)) Hi) as Hsp. cbv beta in Hsp. rewrite Hent, <- He in Hsp.
    destruct (decide (pk' = pk)) as [->|Hne].
    + rewrite lookup_insert_eq. rewrite Hnone in Hsp. split; [intros [= ->]; by left|].
      intros [[= ->]|Hex]; [done|]. by specialize (proj2 Hsp (or_intror Hex)).
    + rewrite lookup_insert_ne, Hsp by done. split; intros [?|?]; [done|by right|naive_solver|by right].
  - intros c. apply (one_task_insert _ _ _ st); [done..|]. rewrite Hpub'. intros [= <-]. by right.
  - intros c. apply every_task_insert; [intros j r t Hj Ht; destruct (Hf c j r t Hj Ht); split; [lia|done]|].
    rewrite Hpub'. intros [= <-]. split; [lia|]. destruct (decisions s !! created s) eqn:E; [|done]. apply Hd in E. lia.
  - intros c d Hcd. specialize (Hd c d Hcd). lia.
  - intros c. apply every_task_insert; [|intros ->; done].
    intros j r t Hj Ht. destruct (Hw c j r t Hj Ht) as [?|Hpubs]; [by left|right].
    apply (some_task_split ts i req st) in Hpubs; [|done]. rewrite Hpub in Hpubs. destruct Hpubs as [?|?]; [done|].
    apply (some_task_insert _ _ _ st); [done|]. by right.
Qed.

Lemma cells_ok_removed s s' ts i req st st' pk c :
  cells_ok s ts → ts !! i = Some (req, st) → entry st = Some (pk, c) → entry st' = None →
  publishes st' = publishes st →
  cells s' = (if bool_decide (pending_host_approvals s !! pk = Some c) then delete pk (pending_host_approvals s)
              else pending_host_approvals s, decisions s, created s) →
  cells_ok s' (<[i := (req, st')]> ts).
Proof.
  intros [He Hs Hf Hd Hw] Hi Hent Hent' Hpub Hcells.
  assert (Hpk : pending_host_approvals s !! pk = Some c) by (apply He; by exists i, req, st).
  rewrite bool_decide_true in Hcells by done. injection Hcells as Hp Hdec Hcr.
  assert (Hpubs : ∀ c, some_task (<[i := (req, st')]> ts) (λ t, publishes t = Some c) ↔ some_task ts (λ t, publishes t = Some c)).
  { intros c'. apply (some_task_same _ _ _ st); [done|]. by rewrite Hpub. }
  split; rewrite ?Hp, ?Hdec, ?Hcr; try done.
  - intros pk' c'. rewrite (some_task_insert _ _ _ st) by done. rewrite Hent'.
    pose proof (some_task_split ts i req st (λ t, entry t = Some (pk', c')) Hi) as Hsp. cbv beta in Hsp. rewrite Hent, <- He in Hsp.
    destruct (decide (pk' = pk)) as [->|Hne].
    + rewrite lookup_delete_eq. split; [done|]. intros [?|(j & r & t & Hji & Hj & Ht)]; [done|]. exfalso. apply Hji.
      assert (c' = c) as -> by (enough (Some c' = Some c) by congruence; rewrite <- Hpk; symmetry; apply Hsp; right; by exists j, r, t).
      eapply (Hs c); [exact Hj|exact Hi|by eapply entry_publishes..].
    + rewrite lookup_delete_ne, Hsp by done. split; intros [?|?]; [naive_solver|by right|done|by right].
  - intros c'. apply (one_task_insert _ _ _ st); [done..|]. rewrite Hpub. by left.
  - intros c'. apply every_task_insert; [done|]. rewrite Hpub. by apply (Hf c' i req).
  - intros c'. apply every_task_insert; [|intros ->; by rewrite (entry_publishes _ _ _ Hent) in Hpub].
    intros j r t Hj Ht. destruct (Hw c' j r t Hj Ht); [by left|right; by apply Hpubs].
Qed.

Lemma cells_ok_published s s' ts i req st st' c d :
  cells_ok s ts → ts !! i = Some (req, st) → publishes st = Some c → publishes st' = None →
  entry st = None → entry st' = None → (∀ c', st' ≠ WaitingFor c') →
  cells s' = (pending_host_approvals s,
              match decisions s !! c with Some _ => decisions s | None => <[c := d]> (decisions s) end, created s) →
  cells_ok s' (<[i := (req, st')]> ts).
Proof.
  intros [He Hs Hf Hd Hw] Hi Hpub Hpub' Hent Hent' Hnw Hcells.
  destruct (Hf c i req st Hi Hpub) as [Hlt Hnone]. rewrite Hnone in Hcells. injection Hcells as Hp Hdec Hcr.
  assert (Hother : ∀ j r t c', j ≠ i → ts !! j = Some (r, t) → publishes t = Some c' → c' ≠ c).
  { intros j r t c' Hji Hj Ht ->. apply Hji. by eapply (Hs c). }
  split; rewrite ?Hp, ?Hdec, ?Hcr.
  - intros pk' c'. rewrite He, (some_task_same _ _ _ st _ _ Hi); [done|]. by rewrite Hent, Hent'.
  - intros c'. apply (one_task_insert _ _ _ st); [done..|]. by rewrite Hpub'.
  - intros c' j r t [(<- & [= <- <-] & _)|[Hne Hj]]%list_lookup_insert_Some Ht; [congruence|].
    destruct (Hf c' j r t Hj Ht). split; [done|]. rewrite lookup_insert_ne; [done|].
    intros ->. by eapply (Hother j).
  - intros c' d'. destruct (decide (c' = c)) as [->|]; [done|]. rewrite lookup_insert_ne by done. apply Hd.
  - intros c'. apply every_task_insert; [|intros ->; by destruct (Hnw c')].
    intros j r t Hj Ht. destruct (decide (c' = c)) as [->|Hne]; [left; by rewrite lookup_insert_eq|].
    rewrite lookup_insert_ne by done. destruct (Hw c' j r t Hj Ht) as [?|Hpubs]; [by left|right].
    apply (some_task_split ts i req st) in Hpubs; [|done]. destruct Hpubs as [?|?]; [congruence|].
    apply (some_task_insert _ _ _ st); [done|]. by right.
Qed.

Lemma cells_ok_local req s st s' st' evs ts i :
  cells_ok s ts → ts !! i = Some (req, st) → local error_text req s st s' st' evs →
  cells_ok s' (<[i := (req, st')]> ts).
Proof.
  intros Hok Hi Hl. destruct (local_cells _ _ _ _ _ _ Hl).
  - by eapply cells_ok_same.
  - by eapply cells_ok_created.
  - by eapply cells_ok_removed.
  - by eapply cells_ok_published.
Qed.

(** The lock is taken exactly when one request has it. *)
Record lock_ok s (ts : list (NetworkPolicyRequest * TaskState)) : Prop := mkLockOk {
  ok_lock : commit_lock s = false ↔ some_task ts (λ st, holds st = true);
  ok_holder : one_task ts (λ st, holds st = true);
  ok_sane : every_task ts sane;
}.

Lemma lock_ok_local req s st s' st' evs ts i :
  lock_ok s ts → ts !! i = Some (req, st) → local error_text req s st s' st' evs →
  lock_ok s' (<[i := (req, st')]> ts).
Proof.
  intros [Hlock Hone Hsane] Hi Hl. pose proof (Hsane i req st Hi) as Hs.
  pose proof (some_task_split ts i req st (λ t, holds t = true) Hi) as Hsp. cbv beta in Hsp.
  destruct (local_lock _ _ _ _ _ _ Hl Hs) as [[Hk Hh]|[(Hfree & Hk & Hh & Hh')|(Hk & Hh & Hh')]];
    (split; [| |apply every_task_insert; [done|by eapply local_sane]]).
  - rewrite Hk, Hlock, (some_task_same _ _ _ st) by (by rewrite ?Hh). done.
  - apply (one_task_insert _ _ _ st); [done..|]. rewrite Hh. by left.
  - rewrite Hk, (some_task_insert _ _ _ st) by done. split; [by left|done].
  - apply (one_task_insert _ _ _ st); [done..|]. intros _. right. rewrite <- Hlock. by rewrite Hfree.
  - rewrite Hk, (some_task_insert _ _ _ st), Hh' by done. split; [done|].
    intros [?|(j & r & t & Hji & Hj & Ht)]; [done|]. destruct Hji. by eapply Hone.
  - apply (one_task_insert _ _ _ st); [done..|]. by rewrite Hh'.
Qed.

(** * Rules and consent in a run *)

(** The rules about a host that were put in force, and the last of them. *)
Definition rule_of (key : HostApprovalKey) (e : Event) : option NetworkPolicyRuleAction :=
  match e with EvRule key' action => if bool_decide (key' = key) then Some action else None | _ => None end.
Definition last_rule (l : list Event) (key : HostApprovalKey) : option NetworkPolicyRuleAction := last (omap (rule_of key) l).

Lemma last_rule_app l evs key :
  last_rule (l ++ evs) key = match last_rule evs key with Some a => Some a | None => last_rule l key end.
Proof. unfold last_rule. by rewrite omap_app, last_app. Qed.

Lemma last_rule_silent l evs key : omap (rule_of key) evs = [] → last_rule (l ++ evs) key = last_rule l key.
Proof. intros Hevs. rewrite last_rule_app. unfold last_rule at 1. by rewrite Hevs. Qed.

(** An answer of a reviewer that lets the request through, now or for the session. *)
Definition for_session (d : ReviewDecision) : Prop := d = ApprovedForSession ∨ ∃ host, d = NetworkPolicyAmendment host NetAllow.
Definition approves (d : ReviewDecision) : Prop :=
  d = Approved ∨ (∃ a, d = ApprovedExecpolicyAmendment a) ∨ for_session d.

Definition consent (l : list Event) (pk : PendingHostApprovalKey) : Prop := ∃ d, EvAnswer pk d ∈ l ∧ approves d.
Definition remembered (l : list Event) (key : HostApprovalKey) : Prop :=
  (∃ pk d, pk_host pk = key ∧ EvAnswer pk d ∈ l ∧ for_session d) ∨ (∃ hosts, EvSynced hosts ∈ l ∧ key ∈ hosts).

(** What is required of the run before an event that lets something through. *)
Definition justified (before : list Event) (e : Event) : Prop :=
  match e with
  | EvCached key => last_rule before key ≠ Some NetDeny ∧ remembered before key
  | EvDecided o d _ => d ≠ DenyAccess → last_rule before (o_host o) ≠ Some NetDeny ∧ consent before (o_key o)
  | _ => True
  end.
Definition run_ok (l : list Event) : Prop := ∀ before e after, l = before ++ e :: after → justified before e.

Lemma run_ok_nil : run_ok [].
Proof. intros [|] ? ? ?; done. Qed.

Lemma run_ok_snoc l e : run_ok l → justified l e → run_ok (l ++ [e]).
Proof.
  intros Hl He before e' after Heq. destruct after as [|e'' after _] using rev_ind.
  - apply app_inj_tail in Heq as [-> ->]. done.
  - rewrite app_comm_cons, app_assoc in Heq. apply app_inj_tail in Heq as [-> _]. by eapply Hl.
Qed.

Lemma remembered_app l evs key : remembered l key → remembered (l ++ evs) key.
Proof. unfold remembered. setoid_rewrite elem_of_app. naive_solver. Qed.
Lemma consent_app l evs pk : consent l pk → consent (l ++ evs) pk.
Proof. unfold consent. setoid_rewrite elem_of_app. naive_solver. Qed.

(** The changes that are left to a commit, with its decision. *)
Inductive plan : list Commit → PendingApprovalDecision → Prop :=
| plan_approve : plan [ApproveHost] AllowForSession
| plan_undeny : plan [UndenyHost; ApproveHost] AllowForSession
| plan_reject t : plan [RejectCall t; UnapproveHost; DenyHost] DenyAccess
| plan_unapprove : plan [UnapproveHost; DenyHost] DenyAccess
| plan_deny : plan [DenyHost] DenyAccess.

(** The host that a request with the lock is about to let through. *)
Definition trusting st : option HostApprovalKey :=
  match st with
  | Persisting o _ NetAllow true | Committing o _ AllowForSession => Some (o_host o)
  | _ => None
  end.

(** The answers behind the state of a request; it lets nothing through when it goes away unless
    a rule that allows the host is in force. *)
Definition supported (l : list Event) st : Prop :=
  match st with
  | Reviewing o => o_on_drop o = DenyAccess
  | Answered o d | Locked o d => o_on_drop o = DenyAccess ∧ EvAnswer (o_key o) d ∈ l
  | Persisting o host action applied =>
      EvAnswer (o_key o) (NetworkPolicyAmendment host action) ∈ l ∧
      (o_on_drop o ≠ DenyAccess → action = NetAllow ∧ applied = true)
  | Committing o cs d =>
      plan cs d ∧ (d = AllowForSession → ∃ r, for_session r ∧ EvAnswer (o_key o) r ∈ l) ∧
      (o_on_drop o ≠ DenyAccess → d = AllowForSession)
  | _ => True
  end.

Lemma supported_app l evs st : supported l st → supported (l ++ evs) st.
Proof. destruct st; simpl; rewrite ?elem_of_app; try naive_solver. setoid_rewrite elem_of_app. naive_solver. Qed.

Lemma trusting_holds st key : trusting st = Some key → holds st = true.
Proof. by destruct st; simpl; repeat case_match. Qed.

Lemma elem_of_snoc {X} (x : X) l : x ∈ l ++ [x].
Proof. apply elem_of_app. right. by left. Qed.

Lemma local_supported req s st s' st' evs l :
  local error_text req s st s' st' evs → supported l st → supported (l ++ evs) st'.
Proof.
  local_cases; intros Hs; try (by repeat case_match); rewrite ?app_nil_r; try done.
  - split; [done|]. apply elem_of_snoc.
  - destruct Hs as [Hd Ha]. unfold commit_answer in *. destruct d; repeat case_match; simplify_eq; rewrite ?app_nil_r; try done.
    split; [constructor|]. split; [|by rewrite Hd]. intros _. eexists. split; [by left|done].
  - destruct Hs as [Ha Hd]. split; [by apply elem_of_app; left|]. by destruct action.
  - destruct Hs as [Ha Hd]. unfold persisted in *. destruct action; [destruct applied|]; simplify_eq; rewrite ?app_nil_r; try done.
    + split; [constructor|]. split; [|done]. intros _. eexists. split; [right; by eexists|done].
    + split; [constructor|]. split; [done|]. intros [? ?]%Hd. done.
  - apply (supported_app l evs) in Hs. destruct Hs as (Hp & Hs & Hd). split; [|done]. inversion Hp; subst; constructor.
  - unfold after_stage in *. by repeat case_match; simplify_eq.
Qed.

Lemma last_rule_one key k action :
  last_rule [EvRule k action] key = if bool_decide (k = key) then Some action else None.
Proof. unfold last_rule. simpl. by case_bool_decide. Qed.

(** What one step does to the hosts of the session. *)
Record host_effect (l : list Event) s st s' st' (evs : list Event) : Prop := mkHostEffect {
  he_rule key : last_rule evs key = Some NetDeny → holds st = true ∧ key ∈ session_denied_hosts s' ∧ trusting st' = None;
  he_denied key : key ∈ session_denied_hosts s →
    key ∈ session_denied_hosts s' ∨ (trusting st = Some key ∧ last_rule evs key = None);
  he_trusting key : trusting st' = Some key →
    trusting st = Some key ∨ (key ∉ session_denied_hosts s) ∨ last_rule evs key = Some NetAllow;
  he_approved key : key ∈ session_approved_hosts s' → key ∈ session_approved_hosts s ∨ remembered (l ++ evs) key;
}.

Lemma host_effect_quiet l s st s' st' evs :
  hosts s' = hosts s → (∀ key, last_rule evs key = None) →
  (∀ key, trusting st' = Some key → trusting st = Some key ∨ key ∉ session_denied_hosts s) →
  host_effect l s st s' st' evs.
Proof.
  intros [= Ha Hd] Hr Ht. split; rewrite ?Ha, ?Hd; intros key; rewrite ?Hr; try done.
  - by left.
  - intros [?|?]%Ht; [by left|right; by left].
  - by left.
Qed.

Lemma commit_hosts l o c cs d s s' evs st' extra :
  commit o c s = (s', evs) → supported l (Committing o (c :: cs) d) → (∀ key, last_rule extra key = None) →
  (trusting st' = None ∨ (trusting st' = Some (o_host o) ∧ d = AllowForSession)) →
  host_effect l s (Committing o (c :: cs) d) s' st' (evs ++ extra).
Proof.
  intros Hc (Hp & Hsup & _) Hx Ht.
  assert (Hr : ∀ key, last_rule (evs ++ extra) key = last_rule evs key) by (intros key; by rewrite last_rule_app, Hx).
  destruct (host_commit c) eqn:Hh.
  2: { pose proof (calls_only_hosts _ _ (commit_calls_only _ _ _ _ _ Hc Hh)).
       assert (evs = []) as -> by (by destruct c; simplify_eq/=).
       apply host_effect_quiet; [done|done|]. intros key. destruct Ht as [->|[-> ->]]; [done|]. by left. }
  split; intros key; rewrite ?Hr.
  - destruct c; simplify_eq/=; try done. rewrite last_rule_one. case_bool_decide; [subst|done]. intros _.
    split; [done|]. split; [set_solver|]. destruct Ht as [?|[_ ->]]; [done|]. inversion Hp.
  - intros Hk. destruct c; simplify_eq/=; try set_solver.
    destruct (decide (key = o_host o)) as [->|]; [|set_solver]. right. inversion Hp; subst. done.
  - intros Hk. destruct Ht as [?|[Ht ->]]; [congruence|]. left. by rewrite Ht in Hk.
  - destruct c; simplify_eq/=; try (by left); [|set_solver].
    intros [->%elem_of_singleton|?]%elem_of_union; [|by left]. right. left.
    inversion Hp; subst; (destruct Hsup as (r & Hr' & Ha); [done|]); exists (o_key o), r;
      (split; [done|split; [by apply elem_of_app; left|done]]).
Qed.

Lemma local_hosts req s st s' st' evs l :
  local error_text req s st s' st' evs → supported l st → host_effect l s st s' st' evs.
Proof.
  local_cases; intros Hs; try (by apply host_effect_quiet).
  all: try by (apply host_effect_quiet; intros; by repeat case_match).
  - apply host_effect_quiet; [apply calls_only_hosts; auto with codex|done..].
  - unfold get_or_create_pending_approval in *. case_match; simplify_eq.
    apply host_effect_quiet; [done|intros; by case_match|]. by destruct (may_review _ _ _).
  - apply host_effect_quiet; try done. apply calls_only_hosts. repeat case_match; auto with codex.
  - unfold commit_answer in *. destruct d; repeat case_match; simplify_eq; apply host_effect_quiet; try done.
    + intros key [= <-]. right. by apply bool_decide_eq_false in H0.
    + by destruct action.
  - destruct action; [|by apply host_effect_quiet]. split; simpl; try by left.
    + intros key. rewrite last_rule_one. by case_bool_decide.
    + intros key [= <-]. right; right. rewrite last_rule_one. by rewrite bool_decide_true.
  - unfold persisted in *. destruct action; [destruct applied|]; simplify_eq; apply host_effect_quiet; try done.
    intros key [= <-]. by left.
  - rewrite <- (app_nil_r evs). eapply commit_hosts; try done. destruct d; [by left| |by left]. by right.
  - eapply commit_hosts; try done. by left.
  - apply host_effect_quiet.
    + destruct stage; simpl; try (apply calls_only_hosts; destruct d; auto with codex; fail); try done.
      * unfold remove_pending. by case_match.
      * unfold set_decision. by destruct (decisions s !! o_cell o).
    + unfold after_stage in *. by repeat case_match; simplify_eq.
    + destruct (after_stage_eq _ _ _ _ _ _ _ H) as [(next & _ & ->)|[_ ->]]; done.
Qed.

Record hosts_ok s (ts : list (NetworkPolicyRequest * TaskState)) (l : list Event) : Prop := mkHostsOk {
  ok_denied key : last_rule l key = Some NetDeny → key ∈ session_denied_hosts s;
  ok_approved key : key ∈ session_approved_hosts s → remembered l key;
  ok_trusting key : every_task ts (λ st, trusting st = Some key → last_rule l key ≠ Some NetDeny);
  ok_supported : every_task ts (supported l);
  ok_run : run_ok l;
}.

Lemma decided_drop l s ts i req st o locked pf :
  hosts_ok s ts l → ts !! i = Some (req, st) → owning st = Some (o, locked) →
  justified l (EvDecided o (o_on_drop o) pf).
Proof.
  intros Hok Hi Ho Hne. pose proof (ok_supported _ _ _ Hok i req st Hi) as Hs.
  destruct st; simplify_eq/=; try (destruct Hs; congruence).
  - destruct Hs as [Ha [-> ->]]; [done|]. split; [by apply (ok_trusting _ _ _ Hok (o_host o) i _ _ Hi)|].
    eexists. split; [done|]. right; right; right. by eexists.
  - destruct Hs as (_ & Ha & Hd). specialize (Hd Hne) as ->. split; [by apply (ok_trusting _ _ _ Hok (o_host o) i _ _ Hi)|].
    destruct Ha as (r & Hr & Ha); [done|]. exists r. split; [done|]. by right; right.
Qed.

Lemma run_ok_local req s st s' st' evs ts l i :
  hosts_ok s ts l → ts !! i = Some (req, st) → local error_text req s st s' st' evs → run_ok (l ++ evs).
Proof.
  intros Hok Hi Hl. pose proof (ok_supported _ _ _ Hok i req st Hi) as Hs. pose proof (ok_run _ _ _ Hok) as Hrun.
  destruct Hl as [Hl|Hl]; destruct Hl; rewrite ?app_nil_r; try done; try by apply run_ok_snoc.
  - case_bool_decide as Hk; [|by rewrite app_nil_r]. apply run_ok_snoc; [done|]. destruct Hk as [Hk Hk'].
    split; [by intros ?%(ok_denied _ _ _ Hok)|by apply (ok_approved _ _ _ Hok)].
  - case_match; rewrite ?app_nil_r; [done|by apply run_ok_snoc].
  - destruct Hs as [_ Ha]. unfold commit_answer in *.
    destruct d; try destruct (bool_decide _) eqn:Hk; simplify_eq; rewrite ?app_nil_r; try done; try by apply run_ok_snoc.
    all: apply bool_decide_eq_false in Hk; apply run_ok_snoc; [done|]; intros _;
      (split; [by intros ?%(ok_denied _ _ _ Hok)|]); eexists; (split; [done|]);
      first [by left|right; left; by eexists].
  - destruct action; rewrite ?app_nil_r; [by apply run_ok_snoc|done].
  - unfold persisted in *. destruct action; [destruct applied|]; simplify_eq; rewrite ?app_nil_r; try done. by apply run_ok_snoc.
  - destruct c; simplify_eq/=; rewrite ?app_nil_r; try done; by apply run_ok_snoc.
  - rewrite app_assoc. apply run_ok_snoc.
    + destruct c; simplify_eq/=; rewrite ?app_nil_r; try done; by apply run_ok_snoc.
    + intros Hd. destruct Hs as (Hp & Ha & _). inversion Hp; subst; try done. simplify_eq/=.
      rewrite last_rule_silent by done. split; [by apply (ok_trusting _ _ _ Hok (o_host o) i _ _ Hi)|].
      destruct Ha as (r & Hr & Ha); [done|]. apply consent_app. exists r. split; [done|]. by right; right.
  - unfold after_stage in *. repeat case_match; simplify_eq; rewrite ?app_nil_r; try done; by apply run_ok_snoc.
  - apply run_ok_snoc; [done|]. by eapply decided_drop.
Qed.

Lemma hosts_ok_local req s st s' st' evs ts l i :
  lock_ok s ts → hosts_ok s ts l → ts !! i = Some (req, st) → local error_text req s st s' st' evs →
  hosts_ok s' (<[i := (req, st')]> ts) (l ++ evs).
Proof.
  intros Hlock Hok Hi Hl. pose proof (ok_supported _ _ _ Hok i req st Hi) as Hs.
  destruct (local_hosts _ _ _ _ _ _ l Hl Hs) as [Hr Hd Ht Ha]. split.
  - intros key. rewrite last_rule_app. destruct (last_rule evs key) as [a|] eqn:Hk.
    + intros [= ->]. by apply Hr.
    + intros Hlast. destruct (Hd key (ok_denied _ _ _ Hok key Hlast)) as [?|[Htr _]]; [done|].
      by destruct (ok_trusting _ _ _ Hok key i req st Hi Htr).
  - intros key [Hk|?]%Ha; [|done]. by apply remembered_app, (ok_approved _ _ _ Hok).
  - intros key j r t [(<- & [= <- <-] & _)|[Hji Hj]]%list_lookup_insert_Some Htr; rewrite last_rule_app.
    + destruct (last_rule evs key) as [[]|] eqn:Hk; [done|by destruct (Hr _ Hk) as (_ & _ & ?); congruence|].
      destruct (Ht key Htr) as [Htr'|[Hnd|?]]; [by apply (ok_trusting _ _ _ Hok key i req st Hi)| |congruence].
      by intros ?%(ok_denied _ _ _ Hok).
    + destruct (last_rule evs key) as [[]|] eqn:Hk; [done| |by eapply (ok_trusting _ _ _ Hok key)].
      destruct (Hr _ Hk) as (Hh & _). destruct Hji. eapply (ok_holder _ _ Hlock); [exact Hi|exact Hj|done|].
      by eapply trusting_holds.
  - intros j r t [(<- & [= <- <-] & _)|[Hji Hj]]%list_lookup_insert_Some; [by eapply local_supported|].
    apply supported_app. by eapply (ok_supported _ _ _ Hok).
  - by eapply run_ok_local.
Qed.

(** * Decisions and what becomes of them *)

(** A request that has yet to cancel the call it refused. *)
Definition refusing o st : Prop :=
  ∃ locked dropped stage, st = Completing o DenyAccess locked dropped stage ∧ calls_stage stage = true.

Record answers_ok s (ts : list (NetworkPolicyRequest * TaskState)) (l : list Event) : Prop := mkAnswersOk {
  ok_decided c d : decisions s !! c = Some d → ∃ o pf, o_cell o = c ∧ EvDecided o d pf ∈ l;
  ok_completing o d locked dropped stage : every_task ts (λ st, st = Completing o d locked dropped stage →
    (∃ pf, EvDecided o d pf ∈ l) ∧ (stage = Unlocking → decisions s !! o_cell o = Some d));
  ok_returned c nd : EvReturned c nd ∈ l → ∃ d, decisions s !! c = Some d ∧ nd = to_network_decision d;
  ok_refused o r : EvDecided o DenyAccess false ∈ l → o_registration o = Some r →
    r ∈ cancelled s ∨ some_task ts (refusing o);
}.

Lemma local_cancelled req s st s' st' evs : local error_text req s st s' st' evs → cancelled s ⊆ cancelled s'.
Proof.
  local_cases; try done.
  - apply calls_only_cancelled. auto with codex.
  - unfold get_or_create_pending_approval in *. by case_match; simplify_eq.
  - apply calls_only_cancelled. repeat case_match; auto with codex.
  - by eapply commit_cells.
  - by eapply commit_cells.
  - destruct (calls_stage stage) eqn:Hc; [by apply calls_only_cancelled, stage_calls_only|].
    destruct stage; try done; simpl; unfold remove_pending, set_decision; by repeat case_match.
  - by destruct locked.
Qed.

Lemma local_decisions req s st s' st' evs c d :
  local error_text req s st s' st' evs → decisions s !! c = Some d → decisions s' !! c = Some d.
Proof.
  intros Hl Hc. destruct (local_cells _ _ _ _ _ _ Hl) as [Hcells|? ? Hcells|? ? ? ? ? ? Hcells|? ? ? ? ? ? ? ? Hcells];
    injection Hcells as _ Hdec _; rewrite Hdec; try done.
  case_match eqn:Hn; [done|]. rewrite lookup_insert_ne; [done|]. intros ->. congruence.
Qed.

(** A decision is recorded when the request starts to complete, before it cancels the call. *)
Lemma local_decided req s st s' st' evs o d pf :
  local error_text req s st s' st' evs → EvDecided o d pf ∈ evs →
  ∃ locked dropped stage, st' = Completing o d locked dropped stage ∧ stage ≠ Unlocking ∧ (pf = false → calls_stage stage = true).
Proof.
  local_cases; try (by intros ?%elem_of_nil); try (by intros [=]%list_elem_of_singleton).
  - case_bool_decide; [by intros [=]%list_elem_of_singleton|by intros ?%elem_of_nil].
  - destruct (may_review _ _ _); [by intros ?%elem_of_nil|]. intros [= -> -> ->]%list_elem_of_singleton. by eexists _, _, _.
  - intros [= -> -> ->]%list_elem_of_singleton. by eexists _, _, _.
  - intros [= -> -> ->]%list_elem_of_singleton. by eexists _, _, _.
  - intros [= -> -> ->]%list_elem_of_singleton. by eexists _, _, _.
  - unfold commit_answer in *. destruct d0; repeat case_match; simplify_eq;
      first [by intros ?%elem_of_nil|intros [= -> -> ->]%list_elem_of_singleton; by eexists _, _, _].
  - destruct action; [by intros [=]%list_elem_of_singleton|by intros ?%elem_of_nil].
  - unfold persisted in *. destruct action; [destruct applied|]; simplify_eq;
      first [by intros ?%elem_of_nil|intros [= -> -> ->]%list_elem_of_singleton; by eexists _, _, _].
  - destruct c; simplify_eq/=; first [by intros ?%elem_of_nil|by intros [=]%list_elem_of_singleton].
  - intros [Hc|[= -> -> ->]%list_elem_of_singleton]%elem_of_app; [|by eexists _, _, _].
    destruct c; simplify_eq/=; first [by apply elem_of_nil in Hc|by apply list_elem_of_singleton in Hc].
  - unfold after_stage in *. repeat case_match; simplify_eq; first [by intros ?%elem_of_nil|by intros [=]%list_elem_of_singleton].
  - intros [= -> -> ->]%list_elem_of_singleton. eexists _, _, _. split; [done|].
    unfold drop_stage. destruct process_finished; [done|]. by repeat case_match.
Qed.

Lemma local_completing req s st s' st' evs o d locked dropped stage :
  local error_text req s st s' st' evs → st' = Completing o d locked dropped stage →
  (∃ pf, EvDecided o d pf ∈ evs ∧ stage ≠ Unlocking) ∨
  ∃ before, st = Completing o d locked dropped before ∧ next_stage locked before = Some stage ∧ s' = run_stage o d before s.
Proof.
  local_cases; try done; intros Heq.
  - repeat case_match; done.
  - repeat case_match; done.
  - destruct (may_review _ _ _); simplify_eq. left. eexists. split; [by left|done].
  - simplify_eq. left. eexists. split; [by left|done].
  - simplify_eq. left. eexists. split; [by left|done].
  - simplify_eq. left. eexists. split; [by left|done].
  - left. unfold commit_answer in *. destruct d0; repeat case_match; simplify_eq; eexists; (split; [by left|done]).
  - left. unfold persisted in *. destruct action; [destruct applied|]; simplify_eq; eexists; (split; [by left|done]).
  - simplify_eq. left. eexists. split; [apply elem_of_snoc|done].
  - right. destruct (after_stage_eq _ _ _ _ _ _ _ H) as [(next & Hn & ->)|[_ ->]]; simplify_eq. by eexists.
  - simplify_eq. left. eexists. split; [by left|]. unfold drop_stage. by repeat case_match.
Qed.

Lemma publish_sets o d s : decisions s !! o_cell o = None → decisions (set_decision (o_cell o) d s) !! o_cell o = Some d.
Proof. intros Hn. unfold set_decision. rewrite Hn. simpl. apply lookup_insert_eq. Qed.

Lemma local_returned req s st s' st' evs ts l i c nd :
  cells_ok s ts → answers_ok s ts l → ts !! i = Some (req, st) → local error_text req s st s' st' evs →
  EvReturned c nd ∈ evs → ∃ d, decisions s' !! c = Some d ∧ nd = to_network_decision d.
Proof.
  intros Hcells Hok Hi. local_cases; try (by intros ?%elem_of_nil); try (by intros [=]%list_elem_of_singleton).
  - case_bool_decide; [by intros [=]%list_elem_of_singleton|by intros ?%elem_of_nil].
  - destruct (may_review _ _ _); [by intros ?%elem_of_nil|by intros [=]%list_elem_of_singleton].
  - intros [= -> ->]%list_elem_of_singleton. by eexists.
  - unfold commit_answer in *. destruct d; repeat case_match; simplify_eq;
      first [by intros ?%elem_of_nil|by intros [=]%list_elem_of_singleton].
  - destruct action; [by intros [=]%list_elem_of_singleton|by intros ?%elem_of_nil].
  - unfold persisted in *. destruct action; [destruct applied|]; simplify_eq;
      first [by intros ?%elem_of_nil|by intros [=]%list_elem_of_singleton].
  - destruct c0; simplify_eq/=; first [by intros ?%elem_of_nil|by intros [=]%list_elem_of_singleton].
  - intros [Hc|[=]%list_elem_of_singleton]%elem_of_app.
    destruct c0; simplify_eq/=; first [by apply elem_of_nil in Hc|by apply list_elem_of_singleton in Hc].
  - unfold after_stage in *. destruct (next_stage locked stage) eqn:Hn; [simplify_eq; by intros ?%elem_of_nil|].
    destruct dropped; simplify_eq; [by intros ?%elem_of_nil|]. intros [= -> ->]%list_elem_of_singleton.
    exists d. split; [|done]. destruct stage; try done.
    + apply publish_sets. by eapply (ok_fresh _ _ Hcells).
    + by destruct (ok_completing _ _ _ Hok _ _ _ _ _ i _ _ Hi eq_refl) as [_ ?]; auto.
Qed.

Lemma local_sets req s st s' st' evs c d :
  local error_text req s st s' st' evs → decisions s' !! c = Some d →
  decisions s !! c = Some d ∨ ∃ o locked dropped, st = Completing o d locked dropped Publishing ∧ o_cell o = c.
Proof.
  intros Hl. destruct (local_cells _ _ _ _ _ _ Hl) as [Hcells|? ? Hcells|? ? ? ? ? ? Hcells|c' d' ? ? ? ? ? Hst Hcells];
    injection Hcells as _ Hdec _; rewrite Hdec; try (by left).
  case_match; [by left|]. destruct (decide (c = c')) as [->|]; [|rewrite lookup_insert_ne by done; by left].
  rewrite lookup_insert_eq. intros [= ->]. by right.
Qed.

Lemma refusing_step req s s' st' evs o k dr stage r :
  local error_text req s (Completing o DenyAccess k dr stage) s' st' evs → calls_stage stage = true →
  o_registration o = Some r → r ∈ cancelled s' ∨ refusing o st'.
Proof.
  intros [Hl|Hl] Hs Hr; [|by inversion Hl; subst].
  inversion Hl as [| | | | | | | | | | | | | | | | | | |? ? ? ? ? ? ? ? Ha]; subst; try done. destruct (after_stage_eq _ _ _ _ _ _ _ Ha) as [(next & Hn & ->)|[Hn ->]]; destruct stage; simplify_eq/=.
  - right. by eexists _, _, _.
  - right. by eexists _, _, _.
  - left. rewrite Hr. simpl. set_solver.
Qed.

Lemma answers_ok_local req s st s' st' evs ts l i :
  cells_ok s ts → answers_ok s ts l → ts !! i = Some (req, st) → local error_text req s st s' st' evs →
  answers_ok s' (<[i := (req, st')]> ts) (l ++ evs).
Proof.
  intros Hcells Hok Hi Hl. split.
  - intros c d [Hc|(o & k & dr & -> & <-)]%(local_sets _ _ _ _ _ _ _ _ Hl).
    + destruct (ok_decided _ _ _ Hok c d Hc) as (o & pf & ? & ?). exists o, pf. rewrite elem_of_app. auto.
    + destruct (ok_completing _ _ _ Hok _ _ _ _ _ i _ _ Hi eq_refl) as [[pf ?] _]. exists o, pf. rewrite elem_of_app. auto.
  - intros o d k dr stage. apply every_task_insert.
    + intros j r t Hj Ht. destruct (ok_completing _ _ _ Hok _ _ _ _ _ j r t Hj Ht) as [[pf ?] Hu].
      split; [exists pf; apply elem_of_app; by left|]. intros Hst. eapply local_decisions; [done|by apply Hu].
    + intros Ht. destruct (local_completing _ _ _ _ _ _ _ _ _ _ _ Hl Ht) as [(pf & ? & ?)|(before & -> & Hn & ->)].
      { split; [exists pf; apply elem_of_app; by right|done]. }
      destruct (ok_completing _ _ _ Hok _ _ _ _ _ i _ _ Hi eq_refl) as [[pf ?] _].
      split; [exists pf; apply elem_of_app; by left|]. intros ->.
      destruct before; try done. apply publish_sets. by eapply (ok_fresh _ _ Hcells).
  - intros c nd [Hc|Hc]%elem_of_app; [|by eapply local_returned].
    destruct (ok_returned _ _ _ Hok c nd Hc) as (d & Hd & ->). exists d. split; [|done]. by eapply local_decisions.
  - intros o r [Hd|Hd]%elem_of_app Hr.
    + pose proof (local_cancelled _ _ _ _ _ _ Hl) as Hc.
      destruct (ok_refused _ _ _ Hok o r Hd Hr) as [?|Href]; [left; set_solver|].
      apply (some_task_split ts i req st) in Href; [|done]. rewrite (some_task_insert _ _ _ st) by done.
      destruct Href as [(k & dr & stage & -> & Hs)|?]; [|by right; right].
      destruct (refusing_step _ _ _ _ _ _ _ _ _ _ Hl Hs Hr); [by left|by right; left].
    + destruct (local_decided _ _ _ _ _ _ _ _ _ Hl Hd) as (k & dr & stage & -> & _ & Hs). right.
      apply (some_task_insert _ _ _ st); [done|]. left. exists k, dr, stage. auto.
Qed.

(** * Which request an answer is for *)

Definition key_for (req : NetworkPolicyRequest) (key : HostApprovalKey) : Prop := ∃ env, key = from_request req env.

(** An event that lets requests for the host through. *)
Definition grants (key : HostApprovalKey) (e : Event) : Prop :=
  match e with
  | EvCached key' => key' = key
  | EvDecided o d _ => o_host o = key ∧ d ≠ DenyAccess
  | _ => False
  end.
Definition granted (l : list Event) (req : NetworkPolicyRequest) : Prop := ∃ key e, key_for req key ∧ e ∈ l ∧ grants key e.

(** Every cell is for one key; [keys] gives it. *)
Definition cell_of (keys : nat → PendingHostApprovalKey) (n : nat) o : Prop := keys (o_cell o) = o_key o ∧ o_cell o < n.
Definition task_keys (keys : nat → PendingHostApprovalKey) (n : nat) (l : list Event) req st : Prop :=
  match st with
  | Keyed _ _ key | Uncached _ _ key => key_for req key
  | WaitingFor c => key_for req (pk_host (keys c)) ∧ c < n
  | Reviewing o | Answered o _ | Locked o _ | Persisting o _ _ _ | Committing o _ _ | Completing o _ _ _ _ =>
      key_for req (o_host o) ∧ cell_of keys n o
  | Finished (Some NetState.Allow) => granted l req
  | _ => True
  end.

Record keys_ok (keys : nat → PendingHostApprovalKey) s (ts : list (NetworkPolicyRequest * TaskState)) (l : list Event)
    : Prop := mkKeysOk {
  ok_pending_key pk c : pending_host_approvals s !! pk = Some c → keys c = pk;
  ok_decided_key o d pf : EvDecided o d pf ∈ l → cell_of keys (created s) o;
  ok_task_keys i req st : ts !! i = Some (req, st) → task_keys keys (created s) l req st;
}.

Lemma granted_app l evs req : granted l req → granted (l ++ evs) req.
Proof. unfold granted. setoid_rewrite elem_of_app. naive_solver. Qed.

(** More cells and more events change nothing for the requests that are there. *)
Lemma task_keys_mono keys keys' n n' l evs req st :
  (∀ c, c < n → keys' c = keys c) → n ≤ n' → task_keys keys n l req st → task_keys keys' n' (l ++ evs) req st.
Proof.
  intros Hk Hn. destruct st as [| | | | | | | | | | |[[]|]]; simpl; unfold cell_of; try done.
  1: intros [? ?]; rewrite Hk by done; split; [done|lia].
  all: try (intros (? & ? & ?); rewrite Hk by done; split_and!; [done|done|lia]).
  apply granted_app.
Qed.

Lemma decided_mono keys keys' n n' o : (∀ c, c < n → keys' c = keys c) → n ≤ n' → cell_of keys n o → cell_of keys' n' o.
Proof. intros Hk Hn [? ?]. split; [by rewrite Hk|lia]. Qed.

(** The states of a request after a step that creates no cell. *)
Lemma local_task_keys keys req s st s' st' evs ts l i :
  cells_ok s ts → answers_ok s ts l → keys_ok keys s ts l → ts !! i = Some (req, st) →
  handle error_text req s st s' st' evs → created s' = created s → task_keys keys (created s) (l ++ evs) req st'.
Proof.
  intros Hc Ha Hk Hi Hl Hcr. pose proof (ok_task_keys _ _ _ _ Hk i req st Hi) as Ht.
  destruct Hl; simpl in *; try done; try (by split).
  - case_match; [by eexists|done].
  - destruct (decide (key ∈ session_denied_hosts s)); [by rewrite (bool_decide_true (_ ∈ session_denied_hosts s))|].
    rewrite (bool_decide_false (_ ∈ session_denied_hosts s)) by done.
    destruct (decide (key ∈ session_approved_hosts s)); [|by rewrite (bool_decide_false (_ ∈ session_approved_hosts s))].
    rewrite !bool_decide_true by done. exists key, (EvCached key). split_and!; [done|apply elem_of_snoc|done].
  - unfold get_or_create_pending_approval in *. destruct (pending_host_approvals s !! _) as [c|] eqn:Hp; simplify_eq.
    rewrite (ok_pending_key _ _ _ _ Hk _ _ Hp). split; [done|].
    apply (ok_entry _ _ Hc) in Hp as (j & r & t & Hj & He). by eapply (ok_fresh _ _ Hc _ j); [|eapply entry_publishes].
  - unfold get_or_create_pending_approval in *. destruct (pending_host_approvals s !! _); simplify_eq. simpl in Hcr. lia.
  - destruct d; simpl; try done; destruct Ht as [Hf _].
    all: destruct (ok_decided _ _ _ Ha cell _ H) as (o & pf & <- & Hev).
    all: destruct (ok_decided_key _ _ _ _ Hk o _ pf Hev) as [Ho _]; rewrite Ho in Hf.
    all: exists (o_host o); eexists; split_and!; [done|apply elem_of_app; by left|done].
  - unfold commit_answer in *. destruct d; repeat case_match; simplify_eq; done.
  - unfold persisted in *. destruct action; [destruct applied|]; simplify_eq; done.
  - destruct (after_stage_eq _ _ _ _ _ _ _ H) as [(next & _ & ->)|[_ ->]]; [done|]. destruct dropped; [done|].
    destruct (ok_completing _ _ _ Ha _ _ _ _ _ i _ _ Hi eq_refl) as [[pf Hev] _]. destruct Ht as [Hf _].
    destruct d; simpl; try done; exists (o_host o); eexists; (split_and!; [done|apply elem_of_app; by left|done]).
Qed.

Lemma leave_task_keys keys n req s st s' st' evs l : leave s st s' st' evs → task_keys keys n l req st → task_keys keys n (l ++ evs) req st'.
Proof. intros [? st0 o ? ? ? Ho|]; [|done]. by destruct st0; simplify_eq/=. Qed.

(** The request that creates a cell is for its key. *)
Definition assign (pk : PendingHostApprovalKey) (n : nat) (keys : nat → PendingHostApprovalKey) c : PendingHostApprovalKey :=
  if decide (c = n) then pk else keys c.
Lemma assign_old pk n keys c : c < n → assign pk n keys c = keys c.
Proof. intros Hc. unfold assign. rewrite decide_False; [done|lia]. Qed.

Lemma created_task_keys keys req s st s' st' evs pk l :
  local error_text req s st s' st' evs → task_keys keys (created s) l req st → entry st = None →
  entry st' = Some (pk, created s) → task_keys (assign pk (created s) keys) (S (created s)) (l ++ evs) req st'.
Proof.
  local_cases; intros Ht He He'; simplify_eq/=.
  - by destruct (or_else _ _).
  - by repeat case_match.
  - unfold get_or_create_pending_approval in *. destruct (pending_host_approvals s !! _); simplify_eq/=.
    destruct (may_review _ _ _); simplify_eq/=; (split; [done|]; split; simpl; [|lia]); unfold assign; by rewrite decide_True.
  - destruct (after_stage_eq _ _ _ _ _ _ _ H) as [(next & Hn & ->)|[Hn ->]]; [|done]. by destruct stage, locked; simplify_eq/=.
  - by destruct st; simplify_eq/=.
Qed.

Lemma keys_ok_same keys req s st s' st' evs ts l i :
  cells_ok s ts → answers_ok s ts l → keys_ok keys s ts l → ts !! i = Some (req, st) →
  local error_text req s st s' st' evs → created s' = created s →
  (∀ pk c, pending_host_approvals s' !! pk = Some c → pending_host_approvals s !! pk = Some c) →
  keys_ok keys s' (<[i := (req, st')]> ts) (l ++ evs).
Proof.
  intros Hc Ha Hk Hi Hl Hcr Hp.
  assert (Ht : task_keys keys (created s) (l ++ evs) req st').
  { destruct Hl as [Hl|Hl]; [by eapply local_task_keys|]. eapply leave_task_keys, (ok_task_keys _ _ _ _ Hk i); done. }
  split; rewrite ?Hcr.
  - intros pk c ?%Hp. by eapply (ok_pending_key _ _ _ _ Hk).
  - intros o d pf [Hev|Hev]%elem_of_app; [by eapply (ok_decided_key _ _ _ _ Hk)|].
    by destruct (local_decided _ _ _ _ _ _ _ _ _ Hl Hev) as (? & ? & ? & -> & _), Ht.
  - intros j r t [(<- & [= <- <-] & _)|[_ Hj]]%list_lookup_insert_Some; [done|].
    eapply task_keys_mono; [done..|]. by eapply (ok_task_keys _ _ _ _ Hk).
Qed.

Lemma keys_ok_created keys req s st s' st' evs ts l i pk :
  cells_ok s ts → keys_ok keys s ts l → ts !! i = Some (req, st) → local error_text req s st s' st' evs →
  cells s' = (<[pk := created s]> (pending_host_approvals s), decisions s, S (created s)) →
  entry st = None → entry st' = Some (pk, created s) →
  keys_ok (assign pk (created s) keys) s' (<[i := (req, st')]> ts) (l ++ evs).
Proof.
  intros Hc Hk Hi Hl [= Hp _ Hcr] He He'. pose proof (assign_old pk (created s) keys) as Hold.
  pose proof (created_task_keys keys _ _ _ _ _ _ pk l Hl (ok_task_keys _ _ _ _ Hk i _ _ Hi) He He') as Ht.
  split; rewrite ?Hcr, ?Hp.
  - intros pk' c [[<- <-]|[_ Hpk]]%lookup_insert_Some; [unfold assign; by rewrite decide_True|].
    rewrite Hold; [by apply (ok_pending_key _ _ _ _ Hk)|].
    apply (ok_entry _ _ Hc) in Hpk as (j & r & t & Hj & Ht'). by eapply (ok_fresh _ _ Hc _ j); [|eapply entry_publishes].
  - intros o d pf [Hev|Hev]%elem_of_app.
    + eapply decided_mono; [done|lia|]. by eapply (ok_decided_key _ _ _ _ Hk).
    + by destruct (local_decided _ _ _ _ _ _ _ _ _ Hl Hev) as (? & ? & ? & -> & _), Ht.
  - intros j r t [(<- & [= <- <-] & _)|[_ Hj]]%list_lookup_insert_Some; [done|].
    eapply task_keys_mono; [done|lia|]. by eapply (ok_task_keys _ _ _ _ Hk).
Qed.

Lemma keys_ok_local keys req s st s' st' evs ts l i :
  cells_ok s ts → answers_ok s ts l → keys_ok keys s ts l → ts !! i = Some (req, st) →
  local error_text req s st s' st' evs → ∃ keys', keys_ok keys' s' (<[i := (req, st')]> ts) (l ++ evs).
Proof.
  intros Hc Ha Hk Hi Hl.
  destruct (local_cells _ _ _ _ _ _ Hl) as [Hcells|pk ? Hcells ? ? ? ?|pk c ? ? ? ? Hcells|? ? ? ? ? ? ? ? Hcells].
  2: by eexists; eapply keys_ok_created.
  all: injection Hcells as Hp _ Hcr; exists keys; eapply keys_ok_same; try done; rewrite Hp; try done.
  intros pk' c'. case_bool_decide; [|done]. by intros [_ ?]%lookup_delete_Some.
Qed.

(** * Runs *)

Record run_invariant x : Prop := mkRunInvariant {
  inv_cells : cells_ok (service x) (tasks x);
  inv_lock : lock_ok (service x) (tasks x);
  inv_hosts : hosts_ok (service x) (tasks x) (log x);
  inv_answers : answers_ok (service x) (tasks x) (log x);
  inv_keys : ∃ keys, keys_ok keys (service x) (tasks x) (log x);
}.

Lemma invariant_idle : run_invariant idle.
Proof.
  assert (Hno : ∀ P, ¬ some_task [] P) by (by intros P (i & r & t & Hi & _)).
  split; [..|exists (λ _, mkPendingKey (mkHostKey [] [] [] 0) [] None)]; split; simpl; try done; intros; try (split; [done|by intros ?%Hno]); try set_solver.
  apply run_ok_nil.
Qed.

Lemma some_task_snoc ts req P : some_task (ts ++ [(req, Arrived)]) P ↔ some_task ts P ∨ P Arrived.
Proof.
  unfold some_task. setoid_rewrite lookup_snoc_Some. split.
  - intros (i & r & t & [[_ Hi]|[_ [= <- <-]]] & HP); [left; by exists i, r, t|by right].
  - intros [(i & r & t & Hi & HP)|HP]; [exists i, r, t; split; [left; split; [by eapply lookup_lt_Some|done]|done]|].
    exists (length ts), req, Arrived. auto.
Qed.
Lemma every_task_snoc ts req (P : TaskState → Prop) : every_task ts P → P Arrived → every_task (ts ++ [(req, Arrived)]) P.
Proof. intros Hall HP i r t [[_ Hi]|[_ [= <- <-]]]%lookup_snoc_Some; [by eapply Hall|done]. Qed.
Lemma one_task_snoc ts req (P : TaskState → Prop) : one_task ts P → ¬ P Arrived → one_task (ts ++ [(req, Arrived)]) P.
Proof.
  intros Hone HP i j r r' t t' [[_ Hi]|[_ [= <- <-]]]%lookup_snoc_Some [[_ Hj]|[_ [= <- <-]]]%lookup_snoc_Some ??; try done.
  by eapply Hone.
Qed.

Lemma invariant_request req s ts l :
  run_invariant (mkSystem s ts l) → run_invariant (mkSystem s (ts ++ [(req, Arrived)]) l).
Proof.
  intros [[He Hs Hf Hd Hw] [Hl Hh Hn] [Hde Ha Ht Hsu Hr] [Hdc Hco Hre Href] [keys [Hkp Hkd Hkt]]]; simpl in *.
  split; [..|exists keys]; split; simpl; try done; intros.
  - rewrite He, some_task_snoc. naive_solver.
  - by apply one_task_snoc.
  - by apply every_task_snoc.
  - apply every_task_snoc; [|done]. intros i r t Hi Ht'. destruct (Hw c i r t Hi Ht'); [by left|].
    right. apply some_task_snoc. by left.
  - rewrite Hl, some_task_snoc. naive_solver.
  - by apply one_task_snoc.
  - by apply every_task_snoc.
  - by apply every_task_snoc.
  - by apply every_task_snoc.
  - by apply every_task_snoc.
  - destruct (Href o r); [done..|by left|]. right. apply some_task_snoc. by left.
  - match goal with H : (_ ++ _) !! _ = _ |- _ => apply lookup_snoc_Some in H as [[_ ?]|[_ [= <- <-]]] end; [by eapply Hkt|done].
Qed.

(** Steps that only concern calls, or that hand over approved hosts. *)
Lemma invariant_calls s s' ts l : run_invariant (mkSystem s ts l) → calls_only s s' → run_invariant (mkSystem s' ts l).
Proof.
  intros [Hc Hl Hh Ha [keys Hk]] Hs. pose proof (calls_only_cells _ _ Hs) as Hcells. injection Hcells as Hp Hd Hn.
  pose proof (calls_only_hosts _ _ Hs) as Hhosts. injection Hhosts as Hap Hde.
  pose proof (calls_only_cancelled _ _ Hs) as Hca. simpl in *. split; simpl.
  - destruct Hc. by split; rewrite ?Hp, ?Hd, ?Hn.
  - destruct Hl. by split; rewrite ?(calls_only_lock _ _ Hs).
  - destruct Hh. by split; rewrite ?Hap, ?Hde.
  - destruct Ha as [? ? ? Href]. split; rewrite ?Hd; try done. intros o r ? ?. destruct (Href o r); [done..| |by right]. set_solver.
  - exists keys. destruct Hk. by split; rewrite ?Hp, ?Hn.
Qed.

Lemma invariant_sync source s ts l :
  run_invariant (mkSystem s ts l) →
  run_invariant (mkSystem (sync_session_approved_hosts_to source s) ts (l ++ [EvSynced (session_approved_hosts source)])).
Proof.
  intros [Hc Hl Hh Ha [keys Hk]]; simpl in *. split; simpl; [by destruct Hc; split|by destruct Hl; split|..].
  - destruct Hh as [Hd Hap Ht Hs Hr]. split; simpl.
    + intros key. rewrite last_rule_silent by done. apply Hd.
    + intros key Hin. right. eexists. split; [apply elem_of_snoc|done].
    + intros key i r t Hi Htr. rewrite last_rule_silent by done. by eapply Ht.
    + intros i r t Hi. by eapply supported_app, Hs.
    + by apply run_ok_snoc.
  - destruct Ha as [Hd Hco Hre Href]. split; simpl.
    + intros c d Hcd. destruct (Hd c d Hcd) as (o & pf & ? & ?). exists o, pf. rewrite elem_of_app. auto.
    + intros o d k dr stage i r t Hi Ht. destruct (Hco _ _ _ _ _ i r t Hi Ht) as [[pf ?] ?].
      split; [|done]. exists pf. rewrite elem_of_app. auto.
    + intros c nd [?|[=]%list_elem_of_singleton]%elem_of_app. by apply Hre.
    + intros o r [?|[=]%list_elem_of_singleton]%elem_of_app. by apply Href.
  - exists keys. destruct Hk as [Hp Hd Ht]. split; simpl; [done|..].
    + intros o d pf [?|[=]%list_elem_of_singleton]%elem_of_app. by eapply Hd.
    + intros i r t Hi. eapply task_keys_mono; [done..|]. by eapply Ht.
Qed.

Lemma finish_calls_only r cell s : calls_only s (finish r cell s).1.
Proof. unfold finish. destruct cell; simpl; [apply calls_only_refl|by eexists _, _, _]. Qed.

Lemma invariant_step x y : run_invariant x → network_step error_text x y → run_invariant y.
Proof.
  intros Hinv [Hstep|Hstep]; destruct Hstep.
  - destruct Hinv as [Hc Hl Hh Ha [keys Hk]]; simpl in *. split; simpl.
    + by eapply cells_ok_local.
    + by eapply lock_ok_local.
    + by eapply hosts_ok_local.
    + by eapply answers_ok_local.
    + by eapply keys_ok_local.
  - by apply invariant_request.
  - eapply invariant_calls; [done|by eexists _, _, _].
  - eapply invariant_calls; [done|apply finish_calls_only].
  - eapply invariant_calls; [done|]. unfold record_blocked_request. repeat case_match; auto with codex.
  - by apply invariant_sync.
Qed.

Lemma invariant_reachable x : reachable error_text x → run_invariant x.
Proof. intros Hr. eapply rtc_ind_r; [apply invariant_idle| |exact Hr]. intros y z _ Hyz Hy. by eapply invariant_step. Qed.

(** * Progress *)

(** How much a request still has to do. *)
Definition stage_weight (stage : Stage) : nat :=
  match stage with
  | Recording _ | RecordingIfAbsent _ => 5 | Cancelling => 4 | Removing => 3 | Publishing => 2 | Unlocking => 1
  end.
Definition weight st : nat :=
  match st with
  | Arrived => 20 | Attributed _ _ => 19 | Keyed _ _ _ => 18 | Uncached _ _ _ => 17
  | WaitingFor _ => 1
  | Reviewing _ => 15 | Answered _ _ => 14 | Locked _ _ => 13
  | Persisting _ _ _ applied => if applied then 11 else 12
  | Committing _ cs _ => 6 + length cs
  | Completing _ _ _ _ stage => stage_weight stage
  | Finished _ => 0
  end.
Definition total_weight x : nat := sum_list_with (λ t, weight t.2) (tasks x).

Lemma local_weight req s st s' st' evs : local error_text req s st s' st' evs → (weight st' < weight st)%nat.
Proof.
  local_cases; simpl; try lia; try (repeat case_match; simpl; lia).
  - unfold commit_answer in *. destruct d; repeat case_match; simplify_eq; simpl; lia.
  - unfold persisted in *. destruct action; [destruct applied|]; simplify_eq; simpl; repeat case_match; lia.
  - destruct (after_stage_eq _ _ _ _ _ _ _ H) as [(next & Hn & ->)|[Hn ->]]; destruct stage; simplify_eq/=; try lia.
    destruct locked; simplify_eq; simpl; lia.
  - unfold drop_stage. destruct st; simplify_eq/=; repeat case_match; simpl; lia.
  - destruct st; simplify_eq/=; lia.
Qed.

Lemma task_step_weight x y : task_step error_text x y → (total_weight y < total_weight x)%nat.
Proof.
  intros [i req st s s' st' evs ts l Hi Hl]. apply local_weight in Hl. unfold total_weight; simpl.
  apply take_drop_middle in Hi as Hts. rewrite <- Hts at 2. rewrite insert_take_drop by (by eapply lookup_lt_Some).
  rewrite !sum_list_with_app. simpl. lia.
Qed.

(** A request that waits neither for the lock nor for a decision can go on by itself. *)
Definition waits s st : Prop :=
  match st with
  | Keyed _ _ _ => commit_lock s = false
  | Answered _ d => commit_lock s = false
  | WaitingFor c => decisions s !! c = None
  | Finished _ => True
  | _ => False
  end.

Lemma handle_available req s st l :
  supported l st → ¬ waits s st → ∃ s' st' evs, handle error_text req s st s' st' evs.
Proof.
  intros Hsup Hw. destruct st; simpl in Hw.
  - destruct (resolve_request_attribution req s) as [[call env]|] eqn:E; eexists _, _, _; [by eapply l_attributed|by apply l_unattributed].
  - destruct owner_call as [call|].
    + destruct (decide (registration_id call ∈ cancelled s)); [eexists _, _, _; by apply l_call_cancelled|].
      eexists _, _, _. apply (l_keyed _ _ _ _ _ None). by intros c [= <-].
    + eexists _, _, _. by apply (l_keyed _ _ _ _ _ None).
  - eexists _, _, _. apply l_cache. by destruct (commit_lock s).
  - destruct turn as [turn|]; [|eexists _, _, _; apply l_no_turn].
    destruct (get_or_create_pending_approval (pending_key owner_call turn key) s) as [s' [c []]] eqn:E;
      eexists _, _, _; [by eapply l_own|]. apply l_join.
    unfold get_or_create_pending_approval in *. by case_match; simplify_eq.
  - destruct (decisions s !! cell) as [d|] eqn:E; [|done]. eexists _, _, _. by apply l_woken.
  - eexists _, _, _. apply (l_rejected _ _ _ _ (Rejected [])).
  - destruct (needs_commit d) eqn:E; eexists _, _, _; [apply l_lock; [done|by destruct (commit_lock s)]|by apply l_invalid].
  - destruct (commit_answer req o d (bool_decide (o_host o ∈ session_denied_hosts s))) eqn:E.
    eexists _, _, _. by apply l_commit_answer.
  - destruct (persisted req o action applied) eqn:E. eexists _, _, _. by eapply l_persisted.
  - destruct changes as [|c [|c' cs]]; [by destruct Hsup as [Hp _]; inversion Hp|..];
      destruct (commit o c s) eqn:E; eexists _, _, _; [by eapply l_committed|by eapply l_commit].
  - destruct (after_stage o d locked dropped stage) eqn:E. eexists _, _, _. by apply l_stage.
  - done.
Qed.

Definition can_handle x : Prop :=
  ∃ i req st s' st' evs, tasks x !! i = Some (req, st) ∧ handle error_text req (service x) st s' st' evs.

Lemma ready_can_handle x i req st :
  run_invariant x → tasks x !! i = Some (req, st) → ¬ waits (service x) st → can_handle x.
Proof.
  intros Hinv Hi Hw. pose proof (ok_supported _ _ _ (inv_hosts _ Hinv) i req st Hi) as Hs.
  destruct (handle_available req (service x) st (log x) Hs Hw) as (s' & st' & evs & Hh). by exists i, req, st, s', st', evs.
Qed.

Lemma locked_can_handle x : run_invariant x → commit_lock (service x) = false → can_handle x.
Proof.
  intros Hinv Hl. apply (ok_lock _ _ (inv_lock _ Hinv)) in Hl as (i & req & st & Hi & Hh).
  eapply ready_can_handle; [done|done|]. destruct st; try done; by intros [].
Qed.

Lemma unfinished_can_handle x :
  run_invariant x → some_task (tasks x) (λ st, ∀ r, st ≠ Finished r) → can_handle x.
Proof.
  intros Hinv (i & req & st & Hi & Hn). destruct (commit_lock (service x)) eqn:Hl; [|by apply locked_can_handle].
  assert (Hready : ∀ j r t, tasks x !! j = Some (r, t) → (∀ c, t ≠ WaitingFor c) → (∀ r, t ≠ Finished r) → can_handle x).
  { intros j r t Hj Hw Hf. eapply ready_can_handle; [done|done|].
    destruct t; simpl; rewrite ?Hl; try (by intros []); try done; [by destruct (Hw cell)|by destruct (Hf result)]. }
  destruct st as [| | | |c| | | | | | |result]; try by eapply Hready.
  destruct (decisions (service x) !! c) as [d|] eqn:Hd; [eapply ready_can_handle; [done|done|]; simpl; congruence|].
  destruct (ok_waiting _ _ (inv_cells _ Hinv) c i _ _ Hi eq_refl) as [[? ?]|(j & r & t & Hj & Hp)]; [congruence|].
  eapply (Hready j); [done|by intros c' ->|by intros r' ->].
Qed.

(** * Guarantees *)


(** C16: One review answers for all. No two requests review the same host for the same turn and
    call at once, and all requests that share a review get the answer that was decided. *)
Theorem requests_share_one_review x :
  reachable error_text x →
  (∀ i j req req' st st' o o' b b', tasks x !! i = Some (req, st) → tasks x !! j = Some (req', st') →
     owning st = Some (o, b) → owning st' = Some (o', b') → o_key o = o_key o' → i = j) ∧
  (∀ c d, EvReturned c d ∈ log x →
     ∃ o decided pf, o_cell o = c ∧ EvDecided o decided pf ∈ log x ∧ d = to_network_decision decided ∧
       ∀ d', EvReturned c d' ∈ log x → d' = d).
Proof.
  intros Hr%invariant_reachable. split.
  - intros i j req req' st st' o o' b b' Hi Hj Ho Ho' Hk.
    assert (He : entry st = Some (o_key o, o_cell o)) by (by destruct st; simplify_eq/=).
    assert (He' : entry st' = Some (o_key o', o_cell o')) by (by destruct st'; simplify_eq/=).
    assert (Hp : pending_host_approvals (service x) !! o_key o = Some (o_cell o)) by (apply (ok_entry _ _ (inv_cells _ Hr)); by exists i, req, st).
    assert (Hp' : pending_host_approvals (service x) !! o_key o = Some (o_cell o')).
    { rewrite Hk. apply (ok_entry _ _ (inv_cells _ Hr)). by exists j, req', st'. }
    eapply (ok_single _ _ (inv_cells _ Hr) (o_cell o)); [exact Hi|exact Hj|by eapply entry_publishes|].
    rewrite (entry_publishes _ _ _ He'). congruence.
  - intros c d Hret. destruct (ok_returned _ _ _ (inv_answers _ Hr) c d Hret) as (dd & Hdd & ->).
    destruct (ok_decided _ _ _ (inv_answers _ Hr) c dd Hdd) as (o & pf & Ho & Hev).
    exists o, dd, pf. split_and!; try done. intros d' Hret'.
    destruct (ok_returned _ _ _ (inv_answers _ Hr) c d' Hret') as (dd' & Hdd' & ->). congruence.
Qed.

(** C6: Requests for network access are never stuck. As long as one of them is unfinished, one
    can go on without any of them being given up (a reviewer that is asked answers), and the
    number of steps that requests can take is bounded, so that all of them are answered. *)
Theorem network_requests_finish x :
  reachable error_text x →
  (some_task (tasks x) (λ st, ∀ r, st ≠ Finished r) → can_handle x) ∧
  (∀ n y, nsteps (task_step error_text) n x y → n + total_weight y ≤ total_weight x).
Proof.
  intros Hr%invariant_reachable. split; [by apply unfinished_can_handle|].
  clear Hr. intros n y Hn. induction Hn as [|n x y z Hxy%task_step_weight Hyz IH]; lia.
Qed.

Lemma finish_rejects r outcome s :
  r ∈ cancelled s →
  ∃ text, network_approval_outcome_to_result
    (match outcome with Some o => Some o | None => abandoned_network_approval_outcome r s end) = Some (Err (Rejected text)).
Proof.
  intros Hc. unfold abandoned_network_approval_outcome. rewrite bool_decide_true by done.
  assert (∀ t, ∃ text, network_approval_outcome_to_result (Some t) = Some (Err (Rejected text))) as Htext.
  { intros t. simpl. unfold truncate_rejection_message.
    destruct (truncate_token_budget_total t REJECTION_MESSAGE_MAX_TOKENS) as [? ->]. by eexists. }
  destruct outcome; apply Htext.
Qed.

(** C17: A refused connection ends the call it belongs to. Once anyone was told that a review
    refused a request of a running call (other than because its process had finished), the
    call is cancelled, and the end of the call is reported to the tool as a rejection. *)
Theorem refused_connection_rejects_call x o r d cell :
  reachable error_text x → EvDecided o DenyAccess false ∈ log x → o_registration o = Some r →
  decisions (service x) !! o_cell o = Some d →
  r ∈ cancelled (service x) ∧ ∃ s' cell' text, finish r cell (service x) = (s', (cell', Some (Err (Rejected text)))).
Proof.
  intros Hr%invariant_reachable Hev Ho Hd.
  assert (Hc : r ∈ cancelled (service x)).
  { destruct (ok_refused _ _ _ (inv_answers _ Hr) o r Hev Ho) as [?|(i & req & st & Hi & k & dr & stage & -> & Hs)]; [done|].
    destruct (ok_fresh _ _ (inv_cells _ Hr) (o_cell o) i _ _ Hi) as [_ Hnone]; [by destruct stage|congruence]. }
  split; [done|]. unfold finish.
  destruct (match cell with Some outcome => (service x, outcome) | None => remove_call r (service x) end) as [s' outcome] eqn:E.
  assert (Hs' : r ∈ cancelled s') by (unfold remove_call in E; by destruct cell; simplify_eq).
  destruct (finish_rejects r outcome s' Hs') as [text Ht]. exists s', (Some outcome), text. by rewrite Ht.
Qed.

Lemma reach_handle s ts l i req st s' st' evs :
  reachable error_text (mkSystem s ts l) → ts !! i = Some (req, st) → handle error_text req s st s' st' evs →
  reachable error_text (mkSystem s' (<[i := (req, st')]> ts) (l ++ evs)).
Proof. intros Hr Hi Hh. eapply rtc_r; [exact Hr|]. left. econstructor; [done|by left]. Qed.
Lemma reach_env x y : reachable error_text x → env_step x y → reachable error_text y.
Proof. intros Hr He. eapply rtc_r; [exact Hr|by right]. Qed.
End Facts.

(** * Runs on an example *)

Definition sample_call : ActiveNetworkApprovalCall :=
  mkCall (lit "run") (lit "turn") (lit "local") (Managed ManagedUnrestricted Permissions.NetRestricted) [].
Definition sample_request : NetworkPolicyRequest :=
  mk_policy_request HttpsConnect (lit "Example.com") 443 None None None None None (Some (lit "run")).
Definition sample_active_turn : ActiveTurn := mkActiveTurn (lit "turn") OnRequest [] None.
Definition sample_key : HostApprovalKey := from_request sample_request (lit "local").
Definition sample_owner : Owner :=
  mkOwner (pending_key (Some sample_call) sample_active_turn sample_key) 0 (Some sample_call) DenyAccess.
Definition sample_text (e : CodexErr) : str := [].

Ltac take_handle H rule :=
  let H' := fresh in
  pose proof (reach_handle sample_text _ _ _ 0 _ _ _ _ _ H eq_refl rule) as H'; clear H; rename H' into H; simpl in H.

Ltac take_stage H :=
  eapply (reach_handle sample_text _ _ _ 0) in H; [|reflexivity|eapply l_stage; reflexivity]; simpl in H.

Definition registered : Service := register_call sample_call default_service.
Definition under_review : Service := (get_or_create_pending_approval (o_key sample_owner) registered).1.

(** A call whose request is under review. *)
Lemma sample_review : reachable sample_text (mkSystem under_review [(sample_request, Reviewing sample_owner)] []).
Proof.
  assert (Hreg : reachable sample_text (mkSystem registered [] [])).
  { eapply reach_env; [apply rtc_refl|by apply step_register]. }
  pose proof (reach_env sample_text _ _ Hreg (step_request sample_request _ _ _)) as H. simpl in H.
  take_handle H (l_attributed sample_text sample_request registered (Some sample_call) (Some (lit "local")) eq_refl).
  take_handle H (l_keyed sample_text sample_request registered (Some sample_call) (Some (lit "local"))
    (Some sample_active_turn) ltac:(intros ? [= <-]; set_solver)).
  take_handle H (l_cache sample_text sample_request registered (Some sample_call) (Some sample_active_turn) sample_key eq_refl).
  take_handle H (l_own sample_text sample_request registered _ (Some sample_call) sample_active_turn sample_key 0 eq_refl).
  exact H.
Qed.

(** The user allows the host for the session. *)
Lemma sample_approved :
  ∃ s, reachable sample_text (mkSystem s [(sample_request, Finished (Some NetState.Allow))]
    [EvAnswer (o_key sample_owner) ApprovedForSession; EvApproved sample_key;
     EvDecided sample_owner AllowForSession false; EvReturned 0 NetState.Allow]).
Proof.
  pose proof sample_review as H.
  take_handle H (l_answered sample_text sample_request under_review sample_owner ApprovedForSession).
  take_handle H (l_lock sample_text sample_request under_review sample_owner ApprovedForSession eq_refl eq_refl).
  take_handle H (l_commit_answer sample_text sample_request (set_lock false under_review) sample_owner ApprovedForSession _ _ eq_refl).
  take_handle H (l_committed sample_text sample_request (set_lock false under_review) _ sample_owner ApproveHost AllowForSession _ eq_refl).
  do 4 take_stage H.
  eexists. exact H.
Qed.

(** The reviewer refuses. *)
Lemma sample_refused :
  ∃ s, reachable sample_text (mkSystem s [(sample_request, Finished (Some not_allowed))]
    [EvDecided sample_owner DenyAccess false; EvReturned 0 not_allowed]) ∧ decisions s !! 0 = Some DenyAccess.
Proof.
  pose proof sample_review as H.
  take_handle H (l_rejected sample_text sample_request under_review sample_owner (Rejected (lit "no"))).
  do 4 take_stage H.
  eexists. split; [exact H|]. reflexivity.
Qed.


Lemma requests_share_one_review_witness :
  ∃ o decided pf, o_cell o = 0 ∧
    EvDecided o decided pf ∈ [EvDecided sample_owner DenyAccess false; EvReturned 0 not_allowed] ∧
    not_allowed = to_network_decision decided.
Proof.
  destruct sample_refused as (s & Hr & _).
  destruct (proj2 (requests_share_one_review sample_text _ Hr) 0 not_allowed) as (o & d & pf & ? & ? & ? & _);
    [right; by left|]. by exists o, d, pf.
Defined.

Lemma network_requests_finish_witness :
  can_handle sample_text (mkSystem under_review [(sample_request, Reviewing sample_owner)] []).
Proof. apply (proj1 (network_requests_finish sample_text _ sample_review)). by exists 0, sample_request, (Reviewing sample_owner). Defined.

Lemma refused_connection_rejects_call_witness : ∃ s, decisions s !! 0 = Some DenyAccess ∧ lit "run" ∈ cancelled s.
Proof.
  destruct sample_refused as (s & Hr & Hd). exists s. split; [exact Hd|].
  apply (refused_connection_rejects_call sample_text _ sample_owner (lit "run") DenyAccess None Hr); [by left|reflexivity|exact Hd].
Defined.
