(* ===== verification/WorldState.v ===== *)
(** The state of the world that the model was told about, as a session keeps and persists it:
    the snapshots and merge patches of [core/src/context/world_state/mod.rs] and the records
    of [context_manager/history.rs] and [session/mod.rs] that a rollout holds.

    Objects are maps: the order of their fields matters to no comparison. *)
From stdpp Require Import base list numbers strings gmap.
From S2P Require Import Prelude RustStr.

(** * JSON values *)

(** [serde_json::Value]; numbers only need to be compared. *)
Inductive Value {Number : Type} : Type :=
| JNull
| JBool (b : bool)
| JNumber (n : Number)
| JString (s : str)
| JArray (items : list Value)
| JObject (fields : gmap str Value).
Arguments Value Number : clear implicits.

Section Values.
Context `{EqDecision Number}.
Abbreviation Value := (Value Number).
Abbreviation Fields := (gmap str Value).
Implicit Types (v : Value) (m : Fields) (key : str).

#[export] Instance Value_eq_dec : EqDecision Value.
Proof.
  refine (fix go v1 v2 := let _ : EqDecision Value := @go in
    match v1, v2 with
    | JNull, JNull => left eq_refl
    | JBool b1, JBool b2 => cast_if (decide (b1 = b2))
    | JNumber n1, JNumber n2 => cast_if (decide (n1 = n2))
    | JString s1, JString s2 => cast_if (decide (s1 = s2))
    | JArray l1, JArray l2 => cast_if (decide (l1 = l2))
    | JObject m1, JObject m2 => cast_if (decide (m1 = m2))
    | _, _ => right _
    end); abstract congruence.
Defined.

Definition is_null v : bool := match v with JNull => true | _ => false end.
Definition as_object v : option Fields := match v with JObject m => Some m | _ => None end.

(** * Merge patches (RFC 7386) *)

(** [None] is no change. Removed fields are null in the patch. *)
Definition removals (prev cur : Fields) : Fields :=
  map_fold (λ key _ patch, if decide (is_Some (cur !! key)) then patch else <[key := JNull]> patch) ∅ prev.

Fixpoint create_merge_patch (current previous : Value) : option Value :=
  if decide (previous = current) then None
  else match current with
       | JObject cur =>
           let prev := default ∅ (as_object previous) in
           Some (JObject
             (map_fold (λ key current_value patch,
                match prev !! key with
                | None => <[key := current_value]> patch
                | Some previous_value =>
                    match create_merge_patch current_value previous_value with
                    | Some value_patch => <[key := value_patch]> patch
                    | None => patch
                    end
                end) (removals prev cur) cur))
       | _ => Some current
       end.

(** A missing field is patched as null. *)
Fixpoint apply_merge_patch_value (patch target : Value) : Value :=
  match patch with
  | JObject fields =>
      JObject
        (map_fold (λ key value target,
           if is_null value then delete key target
           else <[key := apply_merge_patch_value value (default JNull (target !! key))]> target)
           (default ∅ (as_object target)) fields)
  | _ => patch
  end.

(** Null fields are removed at every depth of objects, not inside arrays. *)
Fixpoint remove_null_object_fields (v : Value) : Value :=
  match v with
  | JObject m =>
      JObject (map_fold (λ key value values,
        if is_null value then values else <[key := remove_null_object_fields value]> values) ∅ m)
  | _ => v
  end.

(** * Snapshots *)

(** The fields of [WorldStateSnapshot]. *)
Abbreviation Snapshot := (gmap str Value).

(** [ErasedWorldStateSection::snapshot]: [raw] is what the section serializes to, if it is
    persisted and that succeeds. *)
Definition section_snapshot (raw : option Value) : option Value :=
  raw ← raw;
  let snapshot := remove_null_object_fields raw in
  if is_null snapshot then None else Some snapshot.

(** [WorldState::snapshot], from the ids of its sections, which are distinct, and their values. *)
Definition snapshot (sections : list (str * option Value)) : Snapshot :=
  list_to_map (omap (λ '(id, raw), pair id <$> section_snapshot raw) sections).

Definition merge_patch_from (current previous : Snapshot) : option Fields :=
  let patch :=
    map_fold (λ key current_value patch,
      match previous !! key with
      | Some previous_value =>
          match create_merge_patch current_value previous_value with
          | Some value => <[key := value]> patch
          | None => patch
          end
      | None => <[key := current_value]> patch
      end) (removals previous current) current in
  if decide (patch = ∅) then None else Some patch.

Definition apply_merge_patch (patch : Fields) (s : Snapshot) : Snapshot :=
  map_fold (λ key value sections,
    if is_null value then delete key sections
    else match sections !! key with
         | Some current => <[key := apply_merge_patch_value value current]> sections
         | None => <[key := apply_merge_patch_value value JNull]> sections
         end) s patch.

(** * Records *)

Record WorldStateItem : Type := mkWorldState {
  full : bool;
  state : Fields;
}.

(** What a rollout holds about the world. *)
Inductive WorldRecord : Type :=
| WorldState (world_state : WorldStateItem)
| HistoryCompacted.

(** The last loop of [reconstruct_history_from_rollout]: a patch without a baseline is ignored. *)
Definition replay_record (baseline : option Snapshot) (r : WorldRecord) : option Snapshot :=
  match r with
  | HistoryCompacted => None
  | WorldState w => if full w then Some (state w) else apply_merge_patch (state w) <$> baseline
  end.
Definition replay_world_state (records : list WorldRecord) : option Snapshot :=
  foldl replay_record None records.

(** The sections of a [WorldState]: their ids and what they serialize to. *)
Abbreviation Sections := (list (str * option Value)).

(** [ContextManager::update_world_state]: the new baseline and the record. *)
Definition update_world_state (s : Snapshot) (baseline : option Snapshot)
    : option Snapshot * option WorldStateItem :=
  (Some s, match baseline with
           | None => Some (mkWorldState true s)
           | Some previous => mkWorldState false <$> merge_patch_from s previous
           end).

(** * A session

    The baseline of its history, the state that the turn in progress was given, and what was
    persisted. *)
Record Session : Type := mkSession {
  world_state_baseline : option Snapshot;
  turn_world_state : option Snapshot;
  persisted_records : list WorldRecord;
}.
Definition start_session : Session := mkSession None None [].

Definition persist (r : option WorldStateItem) : list WorldRecord :=
  match r with Some w => [WorldState w] | None => [] end.

Inductive SessionOp : Type :=
| RecordContextUpdates (sections : Sections) (should_inject_full_context : bool)
| RecordStepWorldState (sections : Sections)
| ReplaceCompactedHistory (inject : bool).

(** [record_context_updates_and_set_reference_context_item]. *)
Definition record_context_updates (s : Snapshot) (inject_full : bool) (x : Session) : Session :=
  let '(baseline, r) :=
    if inject_full then (Some s, Some (mkWorldState true s))
    else update_world_state s (world_state_baseline x) in
  mkSession baseline (Some s) (persisted_records x ++ persist r).

(** [record_step_world_state_if_changed]: the patch is against the state of the turn. *)
Definition record_step_world_state_if_changed (s : Snapshot) (x : Session) : Session :=
  match turn_world_state x with
  | None => x
  | Some previous =>
      mkSession (Some s) (Some s) (persisted_records x ++ persist (mkWorldState false <$> merge_patch_from s previous))
  end.

(** [replace_compacted_history], with the state of the turn when the compaction injects the
    context again; otherwise the turn records its context again before it goes on. *)
Definition replace_compacted_history (inject : bool) (x : Session) : Session :=
  let world := if inject then turn_world_state x else None in
  mkSession world world
    (persisted_records x ++ HistoryCompacted :: persist (mkWorldState true <$> world)).

Definition session_op (x : Session) (op : SessionOp) : Session :=
  match op with
  | RecordContextUpdates sections inject_full => record_context_updates (snapshot sections) inject_full x
  | RecordStepWorldState sections => record_step_world_state_if_changed (snapshot sections) x
  | ReplaceCompactedHistory inject => replace_compacted_history inject x
  end.
Definition run_session (ops : list SessionOp) : Session := foldl session_op start_session ops.

(** * Lemmas *)

Fixpoint depth v : nat :=
  match v with JObject m => S (map_fold (λ _ x, max (depth x)) 0 m) | _ => 0 end.

Lemma depth_field m key v : m !! key = Some v → depth v < depth (JObject m).
Proof.
  simpl. revert key v. apply (map_fold_weak_ind (λ d m, ∀ key v, m !! key = Some v → depth v < S d)); [done|].
  intros i x m' d Hi IH key v. destruct (decide (i = key)) as [->|].
  - rewrite lookup_insert_eq. intros [= ->]. lia.
  - rewrite lookup_insert_ne by done. intros ?%IH. lia.
Qed.

(** Induction over nested objects. *)
Lemma Value_object_ind (P : Value → Prop) :
  (∀ v, as_object v = None → P v) → (∀ m, map_Forall (λ _, P) m → P (JObject m)) → ∀ v, P v.
Proof.
  intros Hleaf Hobj v. induction v as [v IH] using (induction_ltof1 _ depth).
  destruct v as [| | | | |m]; try by apply Hleaf.
  apply Hobj. intros key x Hx. apply IH. by eapply depth_field.
Qed.

(** A loop over the fields of an object that touches only the field at hand. *)
Lemma lookup_fields_loop (f : str → Value → Fields → Fields) (g : str → Value → option Value → option Value) t m key :
  (∀ k v acc, f k v acc = partial_alter (g k v) k acc) →
  map_fold f t m !! key = match m !! key with Some v => g key v (t !! key) | None => t !! key end.
Proof.
  intros Hf. revert key.
  apply (map_fold_weak_ind (λ r m, ∀ key, r !! key = match m !! key with Some v => g key v (t !! key) | None => t !! key end)).
  { intros key. by rewrite lookup_empty. }
  intros i x m' r Hi IH key. rewrite Hf. destruct (decide (i = key)) as [->|].
  - by rewrite lookup_partial_alter_eq, lookup_insert_eq, IH, Hi.
  - by rewrite lookup_partial_alter_ne, lookup_insert_ne, IH.
Qed.

Lemma lookup_removals prev cur key :
  removals prev cur !! key
  = (match prev !! key, cur !! key with Some _, None => Some JNull | _, _ => None end : option Value).
Proof.
  unfold removals.
  rewrite (lookup_fields_loop _ (λ k _ o, if decide (is_Some (cur !! k)) then o else Some JNull)).
  - rewrite lookup_empty. by destruct (prev !! key), (cur !! key).
  - intros k v acc. case_decide; [|done]. symmetry. by apply partial_alter_id.
Qed.

(** The fields of a patch, and of a patched object. *)
Definition patch_fields (cur prev : Fields) : Fields :=
  map_fold (λ key current_value patch,
    match prev !! key with
    | None => <[key := current_value]> patch
    | Some previous_value =>
        match create_merge_patch current_value previous_value with
        | Some value_patch => <[key := value_patch]> patch
        | None => patch
        end
    end) (removals prev cur) cur.

Lemma lookup_patch_fields cur prev key :
  patch_fields cur prev !! key
  = match cur !! key, prev !! key with
    | Some current, Some previous => create_merge_patch current previous
    | Some current, None => Some current
    | None, Some _ => Some JNull
    | None, None => None
    end.
Proof.
  unfold patch_fields.
  rewrite (lookup_fields_loop _ (λ k current o, match prev !! k with
    | None => Some current | Some previous => match create_merge_patch current previous with
                                              | Some value => Some value | None => o end end)).
  - rewrite lookup_removals. destruct (cur !! key), (prev !! key); try done. by case_match.
  - intros k v acc. destruct (prev !! k); [|done]. destruct (create_merge_patch v _); [done|].
    symmetry. by apply partial_alter_id.
Qed.

Definition patched (patch : Fields) (t : Fields) : Fields :=
  map_fold (λ key value target,
    if is_null value then delete key target
    else <[key := apply_merge_patch_value value (default JNull (target !! key))]> target) t patch.

Lemma lookup_patched patch t key :
  patched patch t !! key
  = match patch !! key with
    | Some value => if is_null value then None else Some (apply_merge_patch_value value (default JNull (t !! key)))
    | None => t !! key
    end.
Proof.
  unfold patched.
  rewrite (lookup_fields_loop _ (λ k value o,
    if is_null value then None else Some (apply_merge_patch_value value (default JNull o)))); [done|].
  intros k v acc. destruct (is_null v); [done|].
  apply (partial_alter_ext (λ _, Some _)). by intros ? <-.
Qed.

Lemma apply_merge_patch_object patch target :
  apply_merge_patch_value (JObject patch) target = JObject (patched patch (default ∅ (as_object target))).
Proof. done. Qed.

Lemma apply_merge_patch_patched patch s : apply_merge_patch patch s = patched patch s.
Proof.
  apply map_eq. intros key. rewrite lookup_patched. unfold apply_merge_patch.
  rewrite (lookup_fields_loop _ (λ k value o,
    if is_null value then None else Some (apply_merge_patch_value value (default JNull o)))); [done|].
  intros k v acc. destruct (is_null v); [done|].
  destruct (acc !! k) eqn:Hk; apply (partial_alter_ext (λ _, Some _)); intros ? <-; by rewrite Hk.
Qed.

(** * Values without null fields *)

Fixpoint no_null_fields v : Prop :=
  match v with
  | JObject m => map_fold (λ _ x P, x ≠ JNull ∧ no_null_fields x ∧ P) True m
  | _ => True
  end.

Definition proper_fields m : Prop := map_Forall (λ _ x, x ≠ JNull ∧ no_null_fields x) m.

Lemma no_null_fields_object m : no_null_fields (JObject m) ↔ proper_fields m.
Proof.
  simpl. apply (map_fold_weak_ind (λ P m, P ↔ proper_fields m)).
  - split; [intros _; apply map_Forall_empty|done].
  - intros i x m' P Hi IH. unfold proper_fields in *. rewrite map_Forall_insert by done. tauto.
Qed.

Lemma remove_null_object_fields_proper v : no_null_fields (remove_null_object_fields v).
Proof.
  induction v as [v Hv|m IH] using Value_object_ind; [by destruct v|].
  apply no_null_fields_object. intros key x.
  change (map_fold _ ∅ m) with (map_fold (λ k value values,
    if is_null value then values else <[k := remove_null_object_fields value]> values) ∅ m : Fields).
  rewrite (lookup_fields_loop _ (λ k value o, if is_null value then o else Some (remove_null_object_fields value))).
  - rewrite lookup_empty. destruct (m !! key) as [y|] eqn:Hy; [|done]. destruct (is_null y) eqn:Hn; [done|].
    intros [= <-]. split; [|by eapply IH]. by destruct y.
  - intros k y acc. destruct (is_null y); [|done]. symmetry. by apply partial_alter_id.
Qed.

(** A patch without null fields is the value it makes of anything but an object. *)
Lemma apply_merge_patch_fresh v target :
  no_null_fields v → as_object target = None → apply_merge_patch_value v target = v.
Proof.
  intros Hv Ht. revert target Ht Hv. induction v as [v Hv|m IH] using Value_object_ind; intros target Ht Hm.
  { by destruct v. }
  rewrite apply_merge_patch_object, Ht. f_equal. apply map_eq. intros key.
  rewrite lookup_patched. simpl. rewrite lookup_empty. destruct (m !! key) as [x|] eqn:Hx; [|done].
  apply no_null_fields_object in Hm. destruct (Hm key x Hx) as [Hnull Hx'].
  destruct (is_null x) eqn:Hn; [by destruct x|]. f_equal. by eapply IH.
Qed.

Lemma patched_patch_fields cur prev :
  proper_fields cur →
  map_Forall (λ _ current, ∀ previous patch, create_merge_patch current previous = Some patch →
    patch ≠ JNull ∧ apply_merge_patch_value patch previous = current) cur →
  patched (patch_fields cur prev) prev = cur.
Proof.
  intros Hcur Hfields. apply map_eq. intros key. rewrite lookup_patched, lookup_patch_fields.
  destruct (cur !! key) as [current|] eqn:Hc, (prev !! key) as [previous|] eqn:Hp; try done; simpl.
  - destruct (create_merge_patch current previous) as [patch|] eqn:Hd.
    + destruct (Hfields key current Hc _ _ Hd) as [Hn ->]. by destruct patch.
    + destruct current; simpl in Hd; case_decide; congruence.
  - destruct (Hcur key current Hc) as [Hn Hf]. rewrite apply_merge_patch_fresh by done. by destruct current.
Qed.

Lemma create_merge_patch_object cur previous :
  create_merge_patch (JObject cur) previous
  = if decide (previous = JObject cur) then None
    else Some (JObject (patch_fields cur (default ∅ (as_object previous)))).
Proof. done. Qed.

Lemma create_merge_patch_applies current previous patch :
  current ≠ JNull → no_null_fields current → create_merge_patch current previous = Some patch →
  patch ≠ JNull ∧ apply_merge_patch_value patch previous = current.
Proof.
  revert previous patch. induction current as [v Hv|cur IH] using Value_object_ind; intros previous patch Hn Hc.
  { destruct v; simpl; case_decide; try done; intros [= <-]; try done. }
  rewrite create_merge_patch_object. case_decide; [done|]. intros [= <-]. split; [done|].
  rewrite apply_merge_patch_object. f_equal. apply no_null_fields_object in Hc. apply patched_patch_fields; [done|].
  intros key x Hx previous' patch'. destruct (Hc key x Hx). by eapply IH.
Qed.

Lemma snapshot_proper sections : proper_fields (snapshot sections).
Proof.
  intros key v Hv%elem_of_list_to_map_2%list_elem_of_omap. destruct Hv as ([id raw] & _ & Hv).
  unfold section_snapshot in Hv. destruct raw as [raw|]; [|done]. simpl in Hv.
  destruct (is_null _) eqn:Hn; [done|]. simplify_eq/=.
  split; [by intros Heq; rewrite Heq in Hn|apply remove_null_object_fields_proper].
Qed.

Lemma merge_patch_from_fields current previous :
  merge_patch_from current previous
  = if decide (patch_fields current previous = ∅) then None else Some (patch_fields current previous).
Proof. done. Qed.

(** What a patch between snapshots makes of the previous one. *)
Lemma merge_patch_reaches current previous :
  proper_fields current →
  match merge_patch_from current previous with
  | Some patch => apply_merge_patch patch previous = current
  | None => previous = current
  end.
Proof.
  intros Hc. assert (Hp : patched (patch_fields current previous) previous = current).
  { apply patched_patch_fields; [done|]. intros key x Hx previous' patch'.
    destruct (Hc key x Hx). by apply create_merge_patch_applies. }
  rewrite merge_patch_from_fields. case_decide as He; [|by rewrite apply_merge_patch_patched].
  by rewrite He in Hp.
Qed.

Lemma replay_snoc records r : replay_world_state (records ++ [r]) = replay_record (replay_world_state records) r.
Proof. unfold replay_world_state. by rewrite foldl_app. Qed.

Lemma replay_patch records current previous :
  proper_fields current → replay_world_state records = Some previous →
  replay_world_state (records ++ persist (mkWorldState false <$> merge_patch_from current previous)) = Some current.
Proof.
  intros Hc%(λ H, merge_patch_reaches current previous H) Hr.
  destruct (merge_patch_from current previous) as [patch|]; simpl.
  - rewrite replay_snoc, Hr. simpl. by rewrite Hc.
  - by rewrite app_nil_r, Hr, Hc.
Qed.

Definition session_ok (x : Session) : Prop :=
  replay_world_state (persisted_records x) = world_state_baseline x ∧
  ∀ s, turn_world_state x = Some s → world_state_baseline x = Some s.

Lemma session_op_ok x op : session_ok x → session_ok (session_op x op).
Proof.
  intros [Hr Ht]. destruct op as [sections inject_full|sections|inject]; simpl.
  - unfold record_context_updates. split; destruct inject_full; simpl; [by rewrite replay_snoc| |done..].
    destruct (world_state_baseline x) as [previous|]; simpl; [|by rewrite replay_snoc].
    apply replay_patch; [apply snapshot_proper|done].
  - unfold record_step_world_state_if_changed. destruct (turn_world_state x) as [previous|] eqn:Hp; [|by split; [|rewrite Hp]].
    split; [|done]. apply replay_patch; [apply snapshot_proper|]. rewrite Hr. by apply Ht.
  - split; [|done]. unfold replace_compacted_history. simpl.
    destruct inject; simpl; [|by rewrite replay_snoc].
    destruct (turn_world_state x) as [s|]; simpl; [|by rewrite replay_snoc].
    rewrite (cons_middle HistoryCompacted), app_assoc. by rewrite replay_snoc.
Qed.

Lemma run_session_ok ops : session_ok (run_session ops).
Proof.
  unfold run_session. assert (session_ok start_session) as Hs by done. revert Hs. generalize start_session.
  induction ops as [|op ops IH]; intros x Hx; simpl; [done|]. by apply IH, session_op_ok.
Qed.

(** * Guarantees *)

(** C28: Merge patches round trip. Applied to any previous snapshot, the patch to the snapshot of
    some sections gives exactly that snapshot, and there is no patch only if nothing changed;
    nulls in the sections' values, which mean removal in a patch, do not get in the way. *)
Theorem merge_patch_round_trip (sections : Sections) (previous : Snapshot) :
  match merge_patch_from (snapshot sections) previous with
  | Some patch => apply_merge_patch patch previous = snapshot sections
  | None => previous = snapshot sections
  end.
Proof. apply merge_patch_reaches, snapshot_proper. Qed.
End Values.
