(* ===== verification/Rollout.v ===== *)
(** Rollouts: what a session persists, and what is read from it when the session is resumed.

    [core/src/session/rollout_reconstruction.rs] reads the settings, the context and the state
    of the world of the turns that were not rolled back, newest turn first;
    [core/src/thread_rollout_truncation.rs] cuts rollouts at user messages;
    [context_manager/history.rs] drops turns from a history; [event_mapping.rs] and
    [context/contextual_user_message.rs] tell user messages from injected context. *)
From stdpp Require Import base list numbers strings gmap.
From S2P Require Import Prelude RustStr Truncate OutputTruncation Normalize WorldState.

(** * Injected context *)

(** [s.get(..marker.len())] equals an ASCII marker up to case, and the same at the end. *)
Definition starts_ignoring_case (s marker : str) : bool :=
  bool_decide (to_ascii_lowercase (take (length marker) s) = to_ascii_lowercase marker).
Definition ends_ignoring_case (s marker : str) : bool :=
  bool_decide (to_ascii_lowercase (drop (length s - length marker) s) = to_ascii_lowercase marker).

Definition matches_marked_text (start_marker end_marker text : str) : bool :=
  if is_empty start_marker || is_empty end_marker then false
  else
    let trimmed := trim_start text in
    starts_ignoring_case trimmed start_marker && ends_ignoring_case (trim_end trimmed) end_marker.

Definition split_once_str (s pat : str) : option (str * str) :=
  i ← RustStr.find s pat; Some (take i s, drop (i + length pat) s).

Definition additional_context_matches (text : str) : bool :=
  match (rest ← strip_prefix (trim text) (lit "<external_"); split_once_str rest (lit ">")) with
  | Some (key, value_and_close) => ends_with value_and_close (lit "</external_" ++ key ++ lit ">")
  | None => false
  end.

Definition is_ascii_lowercase (c : char) : bool := (97 <=? c)%N && (c <=? 122)%N.
Definition is_valid_source (source : str) : bool :=
  match source with
  | [] => false
  | first :: chars =>
      is_ascii_lowercase first
      && forallb (λ ch, is_ascii_lowercase ch || is_ascii_digit ch || (ch =? 95)%N) chars
  end.

Definition matches_legacy_goal_context (text : str) : bool :=
  starts_with text (lit "<goal_context>") && ends_with text (lit "</goal_context>").

Definition internal_context_matches (text : str) : bool :=
  let trimmed := trim text in
  if matches_legacy_goal_context trimmed then true
  else
    match (rest ← strip_prefix trimmed (lit "<codex_internal_context");
           rest ← strip_prefix rest (lit " source=" ++ [34%N]);
           split_once_str rest ([34%N] ++ lit ">")) with
    | Some (source, body_and_close) =>
        is_valid_source source && ends_with body_and_close (lit "</codex_internal_context>")
    | None => false
    end.

Definition marked (start_marker end_marker : string) (text : str) : bool :=
  matches_marked_text (lit start_marker) (lit end_marker) text.
Definition warns (start : string) (text : str) : bool := starts_with (trim text) (lit start).

Definition CONTEXTUAL_USER_FRAGMENT_MATCHERS : list (str → bool) :=
  [marked "# AGENTS.md instructions" "</INSTRUCTIONS>";
   marked "<environment_context>" "</environment_context>";
   additional_context_matches;
   marked "<skill>" "</skill>";
   marked "<user_shell_command>" "</user_shell_command>";
   marked "<turn_aborted>" "</turn_aborted>";
   marked "<subagent_notification>" "</subagent_notification>";
   internal_context_matches;
   marked "<recommended_plugins>" "</recommended_plugins>";
   warns "Warning: The maximum number of unified exec processes you can keep open is";
   (λ text, warns "Warning: apply_patch was requested via " text
            && ends_with (trim text) (lit "Use the apply_patch tool instead of exec_command."));
   warns "Warning: Your account was flagged for potentially high-risk cyber activity"].

Definition is_standard_contextual_user_text (text : str) : bool :=
  existsb (λ matches_text, matches_text text) CONTEXTUAL_USER_FRAGMENT_MATCHERS.

Definition CONTEXTUAL_DEVELOPER_PREFIXES : list str :=
  lit <$> ["<permissions instructions>"; "Approved command prefix saved:"; "<model_switch>";
    "<managed_developer_instructions>"; "<persistent_mode>"; "<apps_instructions>"; "<collaboration_mode>";
    "<multi_agent_role>"; "<multi_agent_mode>"; "<environments_instructions>"; "<git_attribution>";
    "<plugins_instructions>"; "<realtime_conversation>"; "<skills_instructions>"; "<tools>";
    "<personality_spec>"; "<token_budget>"; "<context_window>"; "<context_window_guidance>";
    "<rollout_budget>"]%string.

Definition is_contextual_dev_fragment (c : ContentItem) : bool :=
  match c with
  | CInputText text =>
      let trimmed := trim_start text in
      existsb (starts_ignoring_case trimmed) CONTEXTUAL_DEVELOPER_PREFIXES
  | _ => false
  end.
Definition is_contextual_dev_message_content (message : list ContentItem) : bool :=
  existsb is_contextual_dev_fragment message.
Definition has_non_contextual_dev_message_content (message : list ContentItem) : bool :=
  existsb (λ c, negb (is_contextual_dev_fragment c)) message.

(** The crates that parse what is embedded in texts: [quick_xml] for hook prompts (text and run
    id), [serde_json] for messages between agents, and [uuid]. *)
Class RolloutLib := {
  hook_prompt_from_xml : str → option (str * str);
  is_inter_agent_json : str → bool;
  Uuid : Type;
  uuid_parse_str : str → option Uuid;
  get_version_num : Uuid → N;
}.

Section Boundaries.
Context `{PT : ProtocolTypes} `{RL : RolloutLib}.

(** [parse_hook_prompt_fragment(text).is_some()]. *)
Definition is_hook_prompt_fragment (text : str) : bool :=
  match hook_prompt_from_xml (trim text) with
  | Some (_, hook_run_id) => negb (is_empty (trim hook_run_id))
  | None => false
  end.

Definition is_contextual_user_fragment (c : ContentItem) : bool :=
  match c with
  | CInputText text => is_hook_prompt_fragment text || is_standard_contextual_user_text text
  | _ => false
  end.
Definition is_contextual_user_message_content (message : list ContentItem) : bool :=
  existsb is_contextual_user_fragment message.

(** [InterAgentCommunication::is_message_content]. *)
Definition is_inter_agent_instruction_content (content : list ContentItem) : bool :=
  match content with
  | [CInputText text] | [COutputText text] => is_inter_agent_json text
  | _ => false
  end.

Definition is_user_turn_boundary (i : ResponseItem) : bool :=
  match i with
  | AgentMessage _ _ _ _ _ => true
  | Message _ role content _ _ =>
      (bool_decide (role = lit "user") && negb (is_contextual_user_message_content content))
      || (bool_decide (role = lit "assistant") && is_inter_agent_instruction_content content)
  | _ => false
  end.
End Boundaries.

(** * Rollouts *)

Section Rollout.
Context `{PT : ProtocolTypes} `{RL : RolloutLib} `{EqDecision Number} {H TurnContextRest : Type}.
Abbreviation Envelope := (ResponseItemEnvelope H).
Abbreviation Snapshot := (gmap str (Value Number)).

(** A message between agents; whether it starts a turn is all that is read of it here. *)
Record InterAgentCommunication : Type := mkInterAgent {
  trigger_turn : bool;
}.

(** [CompactedItem], without what is only restored for reviewers. *)
Record CompactedItem : Type := mkCompacted {
  message : str;
  replacement_history : option (list Envelope);
  window_number : option N;
  first_window_id : option str;
  previous_window_id : option str;
  window_id : option str;
}.

(** [TurnContextItem]; the fields that are only copied are one. *)
Record TurnContextItem : Type := mkTurnContext {
  ctx_turn_id : option str;
  ctx_model : str;
  ctx_comp_hash : option str;
  ctx_realtime_active : option bool;
  ctx_rest : TurnContextRest;
}.

(** The events that matter for reconstruction. *)
Inductive EventMsg : Type :=
| TurnStarted (turn_id : str)
| TurnComplete (turn_id : str)
| TurnAborted (turn_id : option str)
| UserMessage
| ThreadRolledBack (num_turns : N)
| OtherEvent.

Inductive RolloutItem : Type :=
| SessionMeta (context_window : option str)
| Response (envelope : Envelope)
| InterAgent (communication : InterAgentCommunication)
| InterAgentCommunicationMetadata (trigger_turn : bool)
| Compacted (compacted : CompactedItem)
| TurnContext (ctx : TurnContextItem)
| TokenUsageRecord
| World (world_state : WorldStateItem (Number := Number))
| SecurityRiskScore
| RetainedContext
| Event (event : EventMsg)
| RealtimeItem.

Record PreviousTurnSettings : Type := mkSettings {
  model : str;
  comp_hash : option str;
  realtime_active : option bool;
}.

Record ReconstructedWindow : Type := mkWindow {
  number : N;
  first_id : option Uuid;
  previous_id : option Uuid;
  id : option Uuid;
}.

Inductive TurnReferenceContextItem : Type :=
| NeverSet
| Cleared
| Latest (ctx : TurnContextItem).

Record ReplayCheckpoint : Type := mkCheckpoint {
  checkpoint_compacted : CompactedItem;
  checkpoint_suffix : list RolloutItem;
}.

(** [ActiveReplaySegment]; of the items for the state of the world it only keeps records and
    compactions. *)
Record Segment : Type := mkSegment {
  seg_turn_id : option str;
  counts_as_user_turn : bool;
  seg_previous_turn_settings : option PreviousTurnSettings;
  seg_reference_context_item : TurnReferenceContextItem;
  seg_world_state_replay : list (WorldRecord (Number := Number));
  seg_base_compaction : option ReplayCheckpoint;
  seg_window : option ReconstructedWindow;
}.
Definition default_segment : Segment := mkSegment None false None NeverSet [] None None.

Definition parse_uuid_v7 (value : str) : option Uuid :=
  uuid ← uuid_parse_str value; if (get_version_num uuid =? 7)%N then Some uuid else None.

Definition reconstructed_window_from_session_context_window (context_window : str) : option ReconstructedWindow :=
  (λ id, mkWindow 0 (Some id) None (Some id)) <$> parse_uuid_v7 context_window.

Definition turn_ids_are_compatible (active_turn_id item_turn_id : option str) : bool :=
  match active_turn_id, item_turn_id with
  | Some turn_id, Some item_turn_id => bool_decide (item_turn_id = turn_id)
  | _, _ => true
  end.

Definition or_else {A} (o o' : option A) : option A := match o with Some _ => o | None => o' end.
Definition is_never_set (r : TurnReferenceContextItem) : bool := match r with NeverSet => true | _ => false end.
Definition is_cleared (r : TurnReferenceContextItem) : bool := match r with Cleared => true | _ => false end.

(** ** One item, newest first

    What an item does to the segment in progress, with the items after it. [TurnStarted] and
    rollbacks are handled by the loop. *)

Definition set_turn_id (t : option str) (g : Segment) : Segment :=
  mkSegment (or_else (seg_turn_id g) t) (counts_as_user_turn g) (seg_previous_turn_settings g)
    (seg_reference_context_item g) (seg_world_state_replay g) (seg_base_compaction g) (seg_window g).
Definition count_user_turn (b : bool) (g : Segment) : Segment :=
  mkSegment (seg_turn_id g) (counts_as_user_turn g || b) (seg_previous_turn_settings g)
    (seg_reference_context_item g) (seg_world_state_replay g) (seg_base_compaction g) (seg_window g).
Definition push_world (r : WorldRecord) (g : Segment) : Segment :=
  mkSegment (seg_turn_id g) (counts_as_user_turn g) (seg_previous_turn_settings g)
    (seg_reference_context_item g) (seg_world_state_replay g ++ [r]) (seg_base_compaction g) (seg_window g).

Definition compacted_window (c : CompactedItem) : option ReconstructedWindow :=
  (λ n, mkWindow n (first_window_id c ≫= parse_uuid_v7) (previous_window_id c ≫= parse_uuid_v7)
          (window_id c ≫= parse_uuid_v7)) <$> window_number c.

Definition segment_compacted (c : CompactedItem) (suffix : list RolloutItem) (g : Segment) : Segment :=
  mkSegment (seg_turn_id g) (counts_as_user_turn g) (seg_previous_turn_settings g)
    (if is_never_set (seg_reference_context_item g) then Cleared else seg_reference_context_item g)
    (seg_world_state_replay g ++ [HistoryCompacted])
    (or_else (seg_base_compaction g)
       (match replacement_history c with Some _ => Some (mkCheckpoint c suffix) | None => None end))
    (or_else (seg_window g) (compacted_window c)).

Definition settings_of (ctx : TurnContextItem) : PreviousTurnSettings :=
  mkSettings (ctx_model ctx) (ctx_comp_hash ctx) (ctx_realtime_active ctx).

Definition segment_turn_context (ctx : TurnContextItem) (g : Segment) : Segment :=
  let g := set_turn_id (ctx_turn_id ctx) g in
  if turn_ids_are_compatible (seg_turn_id g) (ctx_turn_id ctx) then
    mkSegment (seg_turn_id g) (counts_as_user_turn g) (Some (settings_of ctx))
      (if is_never_set (seg_reference_context_item g) then Latest ctx else seg_reference_context_item g)
      (seg_world_state_replay g) (seg_base_compaction g) (seg_window g)
  else g.

Definition segment_item (i : RolloutItem) (suffix : list RolloutItem) (active : option Segment) : option Segment :=
  let g := default default_segment active in
  match i with
  | Compacted c => Some (segment_compacted c suffix g)
  | Event (TurnComplete t) => Some (set_turn_id (Some t) g)
  | Event (TurnAborted t) =>
      match active, t with
      | Some g, _ => Some (set_turn_id t g)
      | None, Some t => Some (set_turn_id (Some t) default_segment)
      | None, None => None
      end
  | Event UserMessage => Some (count_user_turn true g)
  | TurnContext ctx => Some (segment_turn_context ctx g)
  | World w => Some (push_world (WorldState w) g)
  | Response e => Some (count_user_turn (is_user_turn_boundary (item e)) g)
  | InterAgent _ => Some (count_user_turn true g)
  | Event (TurnStarted _) | Event (ThreadRolledBack _) | Event OtherEvent | SessionMeta _ | RealtimeItem
  | RetainedContext | SecurityRiskScore | TokenUsageRecord | InterAgentCommunicationMetadata _ => active
  end.

(** ** The scan *)

Record Scan : Type := mkScan {
  base_compaction : option ReplayCheckpoint;
  previous_turn_settings : option PreviousTurnSettings;
  reference_context_item : TurnReferenceContextItem;
  world_state_replay : list (WorldRecord (Number := Number));
  window : option ReconstructedWindow;
  pending_rollback_turns : N;
  active_segment : option Segment;
}.
Definition start_scan : Scan := mkScan None None NeverSet [] None 0 None.

(** A full snapshot newer than the last compaction of the segment. *)
Fixpoint has_full_snapshot (records : list (WorldRecord (Number := Number))) : bool :=
  match records with
  | [] | HistoryCompacted :: _ => false
  | WorldState w :: records => full w || has_full_snapshot records
  end.
Definition has_context_baseline (g : Segment) : bool :=
  counts_as_user_turn g || has_full_snapshot (seg_world_state_replay g).

Definition finalize_active_segment (g : Segment) (st : Scan) : Scan :=
  if (0 <? pending_rollback_turns st)%N then
    mkScan (base_compaction st) (previous_turn_settings st) (reference_context_item st) (world_state_replay st)
      (window st) (if counts_as_user_turn g then pending_rollback_turns st - 1 else pending_rollback_turns st)%N None
  else
    mkScan (or_else (base_compaction st) (seg_base_compaction g))
      (match previous_turn_settings st with
       | Some settings => Some settings
       | None => if has_context_baseline g then seg_previous_turn_settings g else None
       end)
      (if is_never_set (reference_context_item st)
          && (has_context_baseline g || is_cleared (seg_reference_context_item g))
       then seg_reference_context_item g else reference_context_item st)
      (world_state_replay st ++ seg_world_state_replay g) (or_else (window st) (seg_window g))
      (pending_rollback_turns st) None.

Definition set_active (active : option Segment) (st : Scan) : Scan :=
  mkScan (base_compaction st) (previous_turn_settings st) (reference_context_item st) (world_state_replay st)
    (window st) (pending_rollback_turns st) active.

Definition scan_item (i : RolloutItem) (suffix : list RolloutItem) (st : Scan) : Scan :=
  match i with
  | Event (ThreadRolledBack num_turns) =>
      mkScan (base_compaction st) (previous_turn_settings st) (reference_context_item st) (world_state_replay st)
        (window st) (saturating_add (pending_rollback_turns st) num_turns) (active_segment st)
  | Event (TurnStarted t) =>
      match active_segment st with
      | Some g => if turn_ids_are_compatible (seg_turn_id g) (Some t) then finalize_active_segment g st else st
      | None => st
      end
  | _ => set_active (segment_item i suffix (active_segment st)) st
  end.

(** Enough is known. *)
Definition scan_done (st : Scan) : bool :=
  bool_decide (is_Some (base_compaction st)) && bool_decide (is_Some (previous_turn_settings st))
  && negb (is_never_set (reference_context_item st)).

(** The loop over the items, newest first; [suffix] has the items after them. *)
Fixpoint scan (newest_first suffix : list RolloutItem) (st : Scan) : Scan :=
  match newest_first with
  | [] => st
  | i :: older =>
      let st := scan_item i suffix st in
      if scan_done st then st else scan older (i :: suffix) st
  end.

Definition finish_scan (st : Scan) : Scan :=
  match active_segment st with Some g => finalize_active_segment g st | None => st end.

(** ** The result: the parts of [RolloutReconstruction] that the scan decides, and the suffix
    that is replayed on top of the history of the checkpoint. *)
Record RolloutReconstruction : Type := mkReconstruction {
  r_checkpoint : option CompactedItem;
  r_suffix : list RolloutItem;
  r_previous_turn_settings : option PreviousTurnSettings;
  r_reference_context_item : option TurnContextItem;
  r_world_state_baseline : option Snapshot;
  r_window : ReconstructedWindow;
}.

Definition is_compacted (i : RolloutItem) : bool := match i with Compacted _ => true | _ => false end.
Definition is_unnumbered_compaction (i : RolloutItem) : bool :=
  match i with Compacted c => negb (bool_decide (is_Some (window_number c))) | _ => false end.
Definition is_legacy_compaction (i : RolloutItem) : bool :=
  match i with Compacted c => negb (bool_decide (is_Some (replacement_history c))) | _ => false end.

Definition session_window (i : RolloutItem) : option ReconstructedWindow :=
  match i with
  | SessionMeta (Some context_window) => reconstructed_window_from_session_context_window context_window
  | _ => None
  end.

Definition initial_window (items : list RolloutItem) : option ReconstructedWindow :=
  if existsb is_unnumbered_compaction items then None else head (omap session_window items).

Definition fallback_window (items : list RolloutItem) : ReconstructedWindow :=
  mkWindow (saturate (length (filter (λ i, is_compacted i = true) items))) None None None.

Definition reconstruct_history_from_rollout (items : list RolloutItem) : RolloutReconstruction :=
  let st := finish_scan (scan (reverse items) [] start_scan) in
  let suffix := from_option checkpoint_suffix items (base_compaction st) in
  mkReconstruction (checkpoint_compacted <$> base_compaction st) suffix (previous_turn_settings st)
    (if existsb is_legacy_compaction suffix then None
     else match reference_context_item st with Latest ctx => Some ctx | NeverSet | Cleared => None end)
    (replay_world_state (reverse (world_state_replay st)))
    (default (fallback_window items) (or_else (window st) (initial_window items))).

(** * Cutting rollouts: [thread_rollout_truncation.rs] *)

Definition rollout_item_is_user_turn_boundary (i : RolloutItem) : bool :=
  match i with
  | Response e => is_user_turn_boundary (item e)
  | Compacted c => existsb (λ e, is_user_turn_boundary (item e)) (default [] (replacement_history c))
  | InterAgent _ => true
  | _ => false
  end.
Definition initial_history_has_prior_user_turns (items : list RolloutItem) : bool :=
  existsb rollout_item_is_user_turn_boundary items.

(** [parse_visible_hook_prompt_message(..).is_some()]. *)
Definition is_visible_hook_prompt_message (content : list ContentItem) : bool :=
  forallb is_contextual_user_fragment content
  && existsb (λ c, match c with CInputText text => is_hook_prompt_fragment text | _ => false end) content.

(** [parse_turn_item] of the item is a user message. *)
Definition is_real_user_message_boundary (i : ResponseItem) : bool :=
  match i with
  | Message _ role content _ _ =>
      bool_decide (role = lit "user") && negb (is_visible_hook_prompt_message content)
      && negb (is_contextual_user_message_content content)
  | _ => false
  end.

Definition user_position (positions : list nat) (entry : nat * RolloutItem) : list nat :=
  match entry with
  | (idx, Response e) => if is_real_user_message_boundary (item e) then positions ++ [idx] else positions
  | (_, Event (ThreadRolledBack num_turns)) => take (length positions - N.to_nat num_turns) positions
  | _ => positions
  end.
Definition user_message_positions_in_rollout (items : list RolloutItem) : list nat :=
  foldl user_position [] (imap pair items).

(** [None] is [usize::MAX]: no truncation. *)
Definition truncate_rollout_before_nth_user_message_from_start (items : list RolloutItem) (n_from_start : option nat)
    : list RolloutItem :=
  match n_from_start with
  | None => items
  | Some n =>
      match user_message_positions_in_rollout items !! n with
      | None => items
      | Some cut_idx => take cut_idx items
      end
  end.

(** * Dropping turns from a history: [drop_last_n_user_turns], its effect on the items *)

Definition user_message_positions (items : list Envelope) : list nat :=
  omap (λ '(idx, e), if is_user_turn_boundary (item e) then Some idx else None) (imap pair items).

(** An item just before the cut that only updated the context of the turn. *)
Definition is_pre_turn_context_update (e : Envelope) : bool :=
  match item e with
  | Message _ role content _ _ =>
      (bool_decide (role = lit "developer") && is_contextual_dev_message_content content)
      || (bool_decide (role = lit "user") && is_contextual_user_message_content content)
  | _ => false
  end.

Fixpoint trim_pre_turn_context_updates (items : list Envelope) (first_instruction_turn_idx cut_idx : nat) : nat :=
  match cut_idx with
  | 0 => 0
  | S before =>
      if first_instruction_turn_idx <? cut_idx then
        match items !! before with
        | Some e => if is_pre_turn_context_update e
                    then trim_pre_turn_context_updates items first_instruction_turn_idx before else cut_idx
        | None => cut_idx
        end
      else cut_idx
  end.

Definition response_passthrough (i : ResponseItem) : option Passthrough :=
  match i with
  | Message _ _ _ _ p | AgentMessage _ _ _ _ p | Reasoning _ _ _ _ p | LocalShellCall _ _ _ _ p
  | FunctionCall _ _ _ _ _ _ p | ToolSearchCall _ _ _ _ _ p | FunctionCallOutput _ _ _ _ _ p
  | CustomToolCall _ _ _ _ _ _ p | CustomToolCallOutput _ _ _ _ p | ToolSearchOutput _ _ _ _ _ p
  | WebSearchCall _ _ _ p | ImageGenerationCall _ _ _ _ p | Compaction _ _ p | ContextCompaction _ _ p => p
  | AdditionalTools _ _ _ | ConfigurationUpdate _ | CompactionTrigger | OtherItem => None
  end.

(** [ResponseItem::turn_id]. *)
Definition response_turn_id (i : ResponseItem) : option str :=
  t ← response_passthrough i ≫= turn_id; if is_empty t then None else Some t.

(** Instructions about the model and the mode are rebuilt after the rollback. *)
Definition is_rebuilt_content (c : ContentItem) : bool :=
  match c with
  | CInputText text =>
      matches_marked_text (lit "<model_switch>") (lit "</model_switch>") text
      || matches_marked_text (lit "<persistent_mode>") (lit "</persistent_mode>") text
  | _ => false
  end.

Definition retain_first_turn_item (first_turn_id : str) (e : Envelope) : option Envelope :=
  match item e with
  | Message _ role _ _ _ =>
      if bool_decide (response_turn_id (item e) = Some first_turn_id) && bool_decide (role = lit "developer") then
        match to_annotated_content (item e) with
        | (_, None) => None
        | (i, Some content) =>
            match filter (λ c, is_rebuilt_content c.1 = false) content with
            | [] => None
            | content => Some (with_item (set_annotated_content i content).1 e)
            end
        end
      else Some e
  | _ => Some e
  end.

Definition drop_last_n_user_turns (num_turns : N) (items : list Envelope) : list Envelope :=
  if (num_turns =? 0)%N then items
  else
    let user_positions := user_message_positions items in
    match user_positions with
    | [] => items
    | first_instruction_turn_idx :: _ =>
        let n_from_end := N.to_nat num_turns in
        let cut_idx :=
          if length user_positions <=? n_from_end then first_instruction_turn_idx
          else nth (length user_positions - n_from_end) user_positions first_instruction_turn_idx in
        let cut_idx := trim_pre_turn_context_updates items first_instruction_turn_idx cut_idx in
        let retained := take cut_idx items in
        if cut_idx =? first_instruction_turn_idx then
          match items !! first_instruction_turn_idx ≫= (λ e, response_turn_id (item e)) with
          | Some first_turn_id => omap (retain_first_turn_item first_turn_id) retained
          | None => retained
          end
        else retained
    end.
End Rollout.
