(* ===== verification/RolloutFacts.v ===== *)
(** What resuming a session reads from its rollout. The rollout is seen as turns and rollbacks;
    a rollback takes turns off a stack, and what is left is what the scan, which goes backwards
    and stops early, may use. *)
From stdpp Require Import base list numbers strings gmap sets.
From S2P Require Import Prelude RustStr Truncate OutputTruncation Normalize WorldState Rollout.

Section Facts.
Context `{PT : ProtocolTypes} `{RL : RolloutLib} `{EqDecision Number} {H TurnContextRest : Type}.
Abbreviation RolloutItem := (RolloutItem (Number := Number) (H := H) (TurnContextRest := TurnContextRest)).
Abbreviation Scan := (Scan (Number := Number) (H := H) (TurnContextRest := TurnContextRest)).
Abbreviation Segment := (Segment (Number := Number) (H := H) (TurnContextRest := TurnContextRest)).
Implicit Types (i : RolloutItem) (items suffix : list RolloutItem) (st : Scan) (g : Segment).

(** * Turns and rollbacks *)

Inductive Entry : Type :=
| Turn (turn_id : str) (items : list RolloutItem)
| Rollback (num_turns : N).

Definition entry_items (e : Entry) : list RolloutItem :=
  match e with
  | Turn t items => Event (TurnStarted t) :: items
  | Rollback n => [Event (ThreadRolledBack n)]
  end.
Definition rollout_items (entries : list Entry) : list RolloutItem := concat (entry_items <$> entries).

(** The items of a turn mention no other turn. *)
Definition turn_item_ok (t : str) i : Prop :=
  match i with
  | Event (TurnStarted _) | Event (ThreadRolledBack _) => False
  | Event (TurnComplete t') | Event (TurnAborted (Some t')) => t' = t
  | TurnContext ctx => from_option (λ t', t' = t) True (ctx_turn_id ctx)
  | _ => True
  end.
Definition entry_ok (e : Entry) : Prop :=
  match e with Turn t items => Forall (turn_item_ok t) items | Rollback _ => True end.

(** Whether a turn counts when turns are rolled back. *)
Definition item_counts i : bool :=
  match i with
  | Event UserMessage | InterAgent _ => true
  | Response e => is_user_turn_boundary (item e)
  | _ => false
  end.
Definition turn_counts items : bool := existsb item_counts items.

(** The newest turns are dropped until [n] of them counted. *)
Fixpoint drop_turns (n : N) (turns : list (list RolloutItem * list RolloutItem))
    : list (list RolloutItem * list RolloutItem) :=
  match turns with
  | [] => []
  | t :: older => if (n =? 0)%N then turns else drop_turns (if turn_counts t.1 then n - 1 else n)%N older
  end.

(** The stack of turns with the items after each, newest first. *)
Fixpoint survivors (stack : list (list RolloutItem * list RolloutItem)) (entries : list Entry)
    : list (list RolloutItem * list RolloutItem) :=
  match entries with
  | [] => stack
  | Turn _ items :: entries => survivors ((items, rollout_items entries) :: stack) entries
  | Rollback n :: entries => survivors (drop_turns n stack) entries
  end.

(** The items of the turns that survive, newest turn first; at the bottom is what precedes
    the first turn. *)
Definition surviving (preamble : list RolloutItem) (entries : list Entry) : list (list RolloutItem) :=
  (survivors [(preamble, rollout_items entries)] entries).*1.

(** * What the turns say *)

Definition checkpoint_of i : option CompactedItem :=
  match i with Compacted c => match replacement_history c with Some _ => Some c | None => None end | _ => None end.
Definition world_record i : option WorldRecord :=
  match i with World w => Some (WorldState w) | Compacted _ => Some HistoryCompacted | _ => None end.
Definition settings_item i : option PreviousTurnSettings :=
  match i with TurnContext ctx => Some (settings_of ctx) | _ => None end.
Definition reference_item i : option TurnReferenceContextItem :=
  match i with TurnContext ctx => Some (Latest ctx) | Compacted _ => Some Cleared | _ => None end.
Definition window_item i : option ReconstructedWindow :=
  match i with Compacted c => compacted_window c | _ => None end.

(** A turn establishes a context if it counts or ends with a full snapshot of the world. *)
Definition turn_has_baseline items : bool :=
  turn_counts items || has_full_snapshot (reverse (omap world_record items)).
Definition turn_settings items : option PreviousTurnSettings :=
  if turn_has_baseline items then head (omap settings_item items) else None.
Definition turn_reference items : option TurnReferenceContextItem :=
  r ← last (omap reference_item items); if turn_has_baseline items || is_cleared r then Some r else None.

(** * The loop without its early end *)

Fixpoint scan_all items suffix st : Scan :=
  match items with
  | [] => st
  | i :: newer => scan_item i (newer ++ suffix) (scan_all newer suffix st)
  end.

Lemma scan_all_app items items' suffix st :
  scan_all (items ++ items') suffix st = scan_all items (items' ++ suffix) (scan_all items' suffix st).
Proof. induction items as [|i items IH]; simpl; [done|]. by rewrite IH, app_assoc. Qed.

(** The segment of a list of items. *)
Fixpoint segment_all items suffix (active : option Segment) : option Segment :=
  match items with
  | [] => active
  | i :: newer => segment_item i (newer ++ suffix) (segment_all newer suffix active)
  end.
Definition segment_of items suffix : Segment := default default_segment (segment_all items suffix None).

Lemma scan_all_turn_items t items suffix st :
  Forall (turn_item_ok t) items → scan_all items suffix st = set_active (segment_all items suffix (active_segment st)) st.
Proof.
  intros Hok. induction Hok as [|i items Hi Hitems IH]; simpl; [by destruct st|].
  rewrite IH. destruct i as [| | | | | | | | | |[]|]; done.
Qed.

(** What an item does to a segment, when one without items is the default. *)
Definition segment_step i suffix g : Segment :=
  match i with
  | Compacted c => segment_compacted c suffix g
  | Event (TurnComplete t) => set_turn_id (Some t) g
  | Event (TurnAborted t) => set_turn_id t g
  | Event UserMessage | InterAgent _ => count_user_turn true g
  | TurnContext ctx => segment_turn_context ctx g
  | World w => push_world (WorldState w) g
  | Response e => count_user_turn (is_user_turn_boundary (item e)) g
  | _ => g
  end.

Lemma segment_of_cons i items suffix :
  segment_of (i :: items) suffix = segment_step i (items ++ suffix) (segment_of items suffix).
Proof.
  unfold segment_of. simpl. destruct (segment_all items suffix None);
    destruct i as [| | | | | | | | | |[]|]; try done. by destruct turn_id.
Qed.

Lemma set_turn_id_compatible t t' g :
  turn_ids_are_compatible (seg_turn_id g) (Some t) = true → from_option (λ t', t' = t) True t' →
  turn_ids_are_compatible (seg_turn_id (set_turn_id t' g)) (Some t) = true.
Proof. destruct (seg_turn_id g) eqn:Hg; simpl; rewrite Hg; [done|]. destruct t'; [|done]. simpl. intros _ ->. by apply bool_decide_true. Qed.

Lemma segment_of_turn_id t items suffix :
  Forall (turn_item_ok t) items → turn_ids_are_compatible (seg_turn_id (segment_of items suffix)) (Some t) = true.
Proof.
  intros Hok. induction Hok as [|i items Hi Hitems IH]; [done|]. rewrite segment_of_cons.
  destruct i as [| | | | |ctx| | | | |[]|]; simpl in *; try done; try (by apply set_turn_id_compatible).
  unfold segment_turn_context. destruct (turn_ids_are_compatible _ (ctx_turn_id ctx)); simpl;
    by apply (set_turn_id_compatible _ (ctx_turn_id ctx)).
Qed.

Lemma finalize_default st : active_segment st = None → finalize_active_segment default_segment st = st.
Proof.
  destruct st as [b s r w win p a]; simpl. intros ->. unfold finalize_active_segment. simpl.
  destruct (0 <? p)%N; [done|]. rewrite app_nil_r, andb_false_r. by destruct b, s, win.
Qed.

(** A turn of a rollout is one segment. *)
Lemma scan_all_turn t items suffix st :
  Forall (turn_item_ok t) items → active_segment st = None →
  scan_all (Event (TurnStarted t) :: items) suffix st = finalize_active_segment (segment_of items suffix) st.
Proof.
  intros Hok Hst. simpl. rewrite (scan_all_turn_items t), Hst by done. simpl.
  pose proof (segment_of_turn_id t items suffix Hok) as Hid. unfold segment_of in *.
  destruct (segment_all items suffix None) as [g|] eqn:Hg; simpl.
  - simpl in Hid. by rewrite Hid.
  - rewrite finalize_default by done. destruct st; simpl in *. by subst.
Qed.

Lemma finalize_active g st : active_segment (finalize_active_segment g st) = None.
Proof. unfold finalize_active_segment. by destruct (0 <? _)%N. Qed.

(** * Rollbacks, backwards *)

Definition set_rollbacks (p : N) st : Scan :=
  mkScan (base_compaction st) (previous_turn_settings st) (reference_context_item st) (world_state_replay st)
    (window st) p (active_segment st).

(** What the scan makes of a list of turns that survive, newest first. *)
Definition accepted (turns : list (list RolloutItem * list RolloutItem)) : Scan :=
  foldl (λ st x, finalize_active_segment (segment_of x.1 x.2) st) start_scan turns.

Lemma accepted_snoc turns x :
  accepted (turns ++ [x]) = finalize_active_segment (segment_of x.1 x.2) (accepted turns).
Proof. unfold accepted. by rewrite foldl_app. Qed.

Lemma accepted_idle turns : active_segment (accepted turns) = None ∧ pending_rollback_turns (accepted turns) = 0%N.
Proof.
  induction turns as [|x turns IH] using rev_ind; [done|]. rewrite accepted_snoc. split; [apply finalize_active|].
  destruct IH as [_ IH]. unfold finalize_active_segment. by rewrite IH.
Qed.

(** The turns of the entries that are kept, and the number of older turns to drop. *)
Fixpoint kept (entries : list Entry) : list (list RolloutItem * list RolloutItem) * N :=
  match entries with
  | [] => ([], 0%N)
  | Turn _ items :: entries =>
      let '(turns, p) := kept entries in
      if (p =? 0)%N then (turns ++ [(items, rollout_items entries)], 0%N)
      else (turns, if turn_counts items then p - 1 else p)%N
  | Rollback n :: entries => let '(turns, p) := kept entries in (turns, saturating_add p n)
  end.

Lemma segment_of_counts items suffix : counts_as_user_turn (segment_of items suffix) = turn_counts items.
Proof.
  unfold turn_counts. induction items as [|i items IH]; [done|]. rewrite segment_of_cons. simpl. rewrite <- IH.
  destruct i as [| | | | |ctx| | | | |[]|]; simpl; try done; try apply orb_comm.
  unfold segment_turn_context. by destruct (turn_ids_are_compatible _ _).
Qed.

Lemma scan_all_entries entries :
  Forall entry_ok entries →
  scan_all (rollout_items entries) [] start_scan = set_rollbacks (kept entries).2 (accepted (kept entries).1).
Proof.
  intros Hok. induction Hok as [|e entries He _ IH]; [done|].
  change (rollout_items (e :: entries)) with (entry_items e ++ rollout_items entries).
  rewrite scan_all_app, IH, app_nil_r. clear IH. destruct (kept entries) as [turns p] eqn:Hk. simpl.
  destruct (accepted_idle turns) as [Ha Hp]. destruct e as [t items|n].
  - rewrite Hk. simpl entry_items. rewrite scan_all_turn by done. unfold finalize_active_segment at 1. simpl.
    rewrite segment_of_counts.
    destruct (p =? 0)%N eqn:E.
    + apply N.eqb_eq in E as ->. simpl. rewrite accepted_snoc. unfold finalize_active_segment. by rewrite Hp.
    + assert ((0 <? p)%N = true) as -> by (apply N.ltb_lt; apply N.eqb_neq in E; lia).
      simpl. unfold set_rollbacks. by rewrite Ha.
  - by rewrite Hk.
Qed.

Lemma drop_turns_all n turns : (N.of_nat (length turns) ≤ n)%N → drop_turns n turns = [].
Proof.
  revert n. induction turns as [|t turns IH]; intros n Hn; simpl in *; [done|].
  destruct (n =? 0)%N eqn:E; [apply N.eqb_eq in E; lia|]. apply IH. destruct (turn_counts t.1); lia.
Qed.

Lemma drop_turns_0 turns : drop_turns 0 turns = turns.
Proof. by destruct turns. Qed.

Lemma drop_turns_add n p turns : drop_turns p (drop_turns n turns) = drop_turns (p + n) turns.
Proof.
  revert n. induction turns as [|t turns IH]; intros n; simpl; [done|].
  destruct (n =? 0)%N eqn:E; [apply N.eqb_eq in E as ->; by rewrite N.add_0_r|].
  apply N.eqb_neq in E. rewrite IH. assert ((p + n =? 0)%N = false) as -> by (apply N.eqb_neq; lia).
  f_equal. destruct (turn_counts t.1); lia.
Qed.

Lemma drop_turns_saturating n p turns :
  (N.of_nat (length turns) ≤ USIZE_MAX)%N → drop_turns (saturating_add p n) turns = drop_turns p (drop_turns n turns).
Proof.
  intros Hl. rewrite drop_turns_add. unfold saturating_add. destruct (N.le_gt_cases (p + n) USIZE_MAX).
  - by rewrite N.min_l.
  - rewrite N.min_r by lia. by rewrite !drop_turns_all by lia.
Qed.

Lemma drop_turns_length n turns : length (drop_turns n turns) ≤ length turns.
Proof.
  revert n. induction turns as [|t turns IH]; intros n; simpl; [done|].
  destruct (n =? 0)%N; [done|]. etrans; [apply IH|lia].
Qed.

Lemma survivors_kept stack entries :
  (N.of_nat (length stack + length entries) ≤ USIZE_MAX)%N →
  survivors stack entries = (kept entries).1 ++ drop_turns (kept entries).2 stack.
Proof.
  revert stack. induction entries as [|[t items|n] entries IH]; intros stack Hl; simpl in *.
  - by rewrite drop_turns_0.
  - rewrite IH by (simpl; lia). destruct (kept entries) as [turns p]. simpl.
    destruct (p =? 0)%N; simpl; [|done]. by rewrite drop_turns_0, <- app_assoc.
  - pose proof (drop_turns_length n stack). rewrite IH by lia. destruct (kept entries) as [turns p]. simpl.
    by rewrite drop_turns_saturating by lia.
Qed.

(** The whole scan, without its early end, takes exactly the turns that survive. *)
Definition same_result st st' : Prop :=
  base_compaction st = base_compaction st' ∧ previous_turn_settings st = previous_turn_settings st' ∧
  reference_context_item st = reference_context_item st' ∧ world_state_replay st = world_state_replay st' ∧
  window st = window st'.

Lemma finish_scan_preamble t preamble entries :
  Forall (turn_item_ok t) preamble → Forall entry_ok entries →
  (N.of_nat (S (length entries)) ≤ USIZE_MAX)%N →
  same_result (finish_scan (scan_all (preamble ++ rollout_items entries) [] start_scan))
    (accepted (survivors [(preamble, rollout_items entries)] entries)).
Proof.
  intros Hpre Hok Hl. rewrite survivors_kept, scan_all_app, scan_all_entries, app_nil_r by (simpl; lia || done).
  rewrite (scan_all_turn_items t) by done. destruct (kept entries) as [turns p]. simpl.
  destruct (accepted_idle turns) as [Ha Hp]. rewrite Ha.
  assert (Hf : same_result (finish_scan (set_active (segment_all preamble (rollout_items entries) None) (set_rollbacks p (accepted turns))))
    (finalize_active_segment (segment_of preamble (rollout_items entries)) (set_rollbacks p (accepted turns)))).
  { unfold segment_of. destruct (segment_all preamble _ None) as [g|]; [done|]. by rewrite finalize_default. }
  destruct (p =? 0)%N eqn:E.
  - rewrite accepted_snoc. apply N.eqb_eq in E as ->. unfold finalize_active_segment in *. rewrite Hp. simpl in *. exact Hf.
  - rewrite app_nil_r. unfold finalize_active_segment in Hf. simpl in Hf.
    assert ((0 <? p)%N = true) as Hlt by (apply N.ltb_lt; apply N.eqb_neq in E; lia). by rewrite Hlt in Hf.
Qed.

(** * The early end *)

(** Checkpoints of current versions have a window number. *)
Definition checkpoint_numbered i : Prop :=
  match i with Compacted c => is_Some (replacement_history c) → is_Some (window_number c) | _ => True end.

(** A checkpoint is a compaction, so what the world was before it is forgotten. *)
Definition has_reset (W : Prop) {A} (base : option A) (records : list (WorldRecord (Number := Number)))
    (win : option ReconstructedWindow) : Prop :=
  is_Some base → HistoryCompacted ∈ records ∧ (W → is_Some win).
Definition segment_inv W g : Prop := has_reset W (seg_base_compaction g) (seg_world_state_replay g) (seg_window g).
Definition scan_inv W st : Prop :=
  has_reset W (base_compaction st) (world_state_replay st) (window st) ∧
  from_option (segment_inv W) True (active_segment st).

Lemma segment_item_inv (W : Prop) i suffix active :
  (W → checkpoint_numbered i) → from_option (segment_inv W) True active →
  from_option (segment_inv W) True (segment_item i suffix active).
Proof.
  intros Hi Ha. assert (Hg : segment_inv W (default default_segment active)).
  { destruct active; [done|]. by intros [? ?]. }
  destruct i as [| | | |c|ctx| |w| | |[]|]; simpl; try done.
  - intros Hb. simpl in *. split; [set_solver|]. intros Hw. unfold segment_inv, has_reset in Hg.
    destruct (seg_base_compaction _); [destruct Hg as [_ [win ->]]; eauto|]. simpl in Hb.
    destruct (replacement_history c); [|by destruct Hb]. destruct (Hi Hw) as [n Hn]; [eauto|].
    unfold compacted_window. rewrite Hn. simpl. destruct (seg_window _); simpl; eauto.
  - unfold segment_turn_context. by destruct (turn_ids_are_compatible _ _).
  - intros Hb. destruct (Hg Hb). split; [set_solver|done].
  - by destruct active, turn_id.
Qed.

Lemma finalize_inv W g st : segment_inv W g → scan_inv W st → scan_inv W (finalize_active_segment g st).
Proof.
  intros Hg [Hst _]. unfold finalize_active_segment. destruct (0 <? _)%N; [done|]. split; [|done]. simpl.
  intros Hb. unfold segment_inv, has_reset in Hg, Hst. destruct (base_compaction st) as [b|].
  - destruct Hst as [? Hw]; [done|]. split; [set_solver|]. intros HW. destruct (Hw HW) as [win ->]. simpl. eauto.
  - destruct Hg as [? Hw]; [done|]. split; [set_solver|]. intros HW. destruct (Hw HW) as [win ->].
    destruct (window st); simpl; eauto.
Qed.

Lemma scan_item_inv (W : Prop) i suffix st :
  (W → checkpoint_numbered i) → scan_inv W st → scan_inv W (scan_item i suffix st).
Proof.
  intros Hi Hst. assert (Hs : scan_inv W (set_active (segment_item i suffix (active_segment st)) st)).
  { destruct Hst as [Hst Ha]. split; [done|]. by apply segment_item_inv. }
  destruct i as [| | | | | | | | | |[]|]; try done. simpl.
  destruct (active_segment st) as [g|] eqn:Hg; [|done]. destruct (turn_ids_are_compatible _ _); [|done].
  apply finalize_inv; [|done]. destruct Hst as [_ Ha]. by rewrite Hg in Ha.
Qed.

(** Once enough is known, nothing older matters. *)
Definition settled (W : Prop) st st' : Prop :=
  base_compaction st' = base_compaction st ∧ previous_turn_settings st' = previous_turn_settings st ∧
  reference_context_item st' = reference_context_item st ∧
  (∃ older, world_state_replay st' = world_state_replay st ++ older) ∧ (W → window st' = window st).

Lemma settled_refl W st : settled W st st.
Proof. split_and!; try done. exists []. by rewrite app_nil_r. Qed.

Lemma settled_done W st st' : settled W st st' → scan_done st' = scan_done st.
Proof. intros (Hb & Hs & Hr & _). unfold scan_done. by rewrite Hb, Hs, Hr. Qed.

Lemma scan_done_spec st :
  scan_done st = true →
  is_Some (base_compaction st) ∧ is_Some (previous_turn_settings st) ∧ is_never_set (reference_context_item st) = false.
Proof. unfold scan_done. rewrite !andb_true_iff, !bool_decide_eq_true, negb_true_iff. tauto. Qed.

Lemma finalize_settled W g st st' :
  scan_done st = true → (W → is_Some (window st)) → settled W st st' → settled W st (finalize_active_segment g st').
Proof.
  intros Hd Hw Hs. destruct (scan_done_spec st Hd) as ([b Hb] & [p Hp] & Hr). destruct Hs as (Hb' & Hp' & Hr' & [older Ho] & Hw').
  unfold finalize_active_segment. destruct (0 <? _)%N; [by split_and!; eauto|]. unfold settled. simpl.
  rewrite Hb', Hp', Hr', Hb, Hp, Hr. simpl. split_and!; try done.
  - exists (older ++ seg_world_state_replay g). by rewrite Ho, <- app_assoc.
  - intros HW. rewrite (Hw' HW). by destruct (Hw HW) as [win ->].
Qed.

Lemma scan_item_settled W i suffix st st' :
  scan_done st = true → (W → is_Some (window st)) → settled W st st' → settled W st (scan_item i suffix st').
Proof.
  intros Hd Hw Hs. destruct i as [| | | | | | | | | |[]|]; try done. simpl.
  destruct (active_segment st') as [g|]; [|done]. destruct (turn_ids_are_compatible _ _); [|done].
  by apply finalize_settled.
Qed.

Lemma scan_all_settled W items suffix st :
  scan_done st = true → (W → is_Some (window st)) → settled W st (finish_scan (scan_all items suffix st)).
Proof.
  intros Hd Hw. assert (Hs : settled W st (scan_all items suffix st)).
  { induction items as [|i items IH]; simpl; [apply settled_refl|]. by apply scan_item_settled. }
  unfold finish_scan. destruct (active_segment _); [by apply finalize_settled|done].
Qed.

(** Records before a compaction do not matter. *)
Lemma replay_reset records older :
  HistoryCompacted ∈ records → replay_world_state (older ++ records) = replay_world_state records (Number := Number).
Proof.
  intros (l1 & l2 & ->)%list_elem_of_split. unfold replay_world_state. rewrite !foldl_app. by simpl.
Qed.

Definition agree (W : Prop) st st' : Prop :=
  base_compaction st = base_compaction st' ∧ previous_turn_settings st = previous_turn_settings st' ∧
  reference_context_item st = reference_context_item st' ∧
  replay_world_state (reverse (world_state_replay st)) = replay_world_state (reverse (world_state_replay st')) ∧
  (W → window st = window st').

Lemma settled_agree W st st1 st2 :
  HistoryCompacted ∈ world_state_replay st → settled W st st1 → settled W st st2 → agree W st1 st2.
Proof.
  intros Hr (Hb1 & Hp1 & Hr1 & [o1 Ho1] & Hw1) (Hb2 & Hp2 & Hr2 & [o2 Ho2] & Hw2).
  split_and!; try congruence; [|intros HW; by rewrite Hw1, Hw2].
  rewrite Ho1, Ho2, !reverse_app. rewrite !replay_reset by (by apply elem_of_reverse). done.
Qed.

Lemma scan_agrees (W : Prop) items suffix st :
  (W → Forall checkpoint_numbered items) → scan_inv W st →
  agree W (finish_scan (scan (reverse items) suffix st)) (finish_scan (scan_all items suffix st)).
Proof.
  revert suffix st. induction items as [|i items IH] using rev_ind; intros suffix st HW Hinv; [done|].
  rewrite reverse_snoc, scan_all_app. simpl.
  assert (Hinv' : scan_inv W (scan_item i suffix st)).
  { apply scan_item_inv; [|done]. intros Hw. specialize (HW Hw). rewrite Forall_app, Forall_singleton in HW. by destruct HW. }
  destruct (scan_done (scan_item i suffix st)) eqn:Hd.
  - destruct (scan_done_spec _ Hd) as [Hb _]. destruct Hinv' as [[Hr Hw] _]; [done|].
    eapply settled_agree; [exact Hr| |by apply scan_all_settled]. by apply (scan_all_settled W [] suffix).
  - apply IH; [|done]. intros Hw. specialize (HW Hw). rewrite Forall_app in HW. by destruct HW.
Qed.

(** * The segment of a turn *)

#[local] Arguments omap : simpl never.
Lemma omap_cons_or {A B} (f : A → option B) x l :
  omap f (x :: l) = match f x with Some y => y :: omap f l | None => omap f l end.
Proof. done. Qed.

Lemma last_cons_or {A} (x : A) l : last (x :: l) = or_else (last l) (Some x).
Proof. rewrite last_cons. by destruct (last l). Qed.

Lemma segment_of_world items suffix :
  seg_world_state_replay (segment_of items suffix) = reverse (omap world_record items).
Proof.
  induction items as [|i items IH]; [done|]. rewrite segment_of_cons.
  destruct i as [| | | | |ctx| | | | |[]|]; simpl; rewrite ?omap_cons_or; simpl; rewrite ?reverse_cons, ?IH; try done.
  unfold segment_turn_context. by destruct (turn_ids_are_compatible _ _).
Qed.

Lemma segment_of_window items suffix : seg_window (segment_of items suffix) = last (omap window_item items).
Proof.
  induction items as [|i items IH]; [done|]. rewrite segment_of_cons.
  destruct i as [| | | |c|ctx| | | | |[]|]; simpl; rewrite ?omap_cons_or; simpl; try done.
  - rewrite IH. destruct (compacted_window c); simpl; [by rewrite last_cons_or|by destruct (last _)].
  - unfold segment_turn_context. by destruct (turn_ids_are_compatible _ _).
Qed.

(** The checkpoint of a turn, with the items after it. *)
Definition checkpoint_at items suffix (b : ReplayCheckpoint) : Prop :=
  ∃ before after, items = before ++ Compacted (checkpoint_compacted b) :: after ∧ checkpoint_suffix b = after ++ suffix.

Lemma segment_of_base items suffix :
  checkpoint_compacted <$> seg_base_compaction (segment_of items suffix) = last (omap checkpoint_of items) ∧
  ∀ b, seg_base_compaction (segment_of items suffix) = Some b → checkpoint_at items suffix b.
Proof.
  induction items as [|i items [IH IHat]]; [done|]. rewrite segment_of_cons.
  assert (Hcons : ∀ b, seg_base_compaction (segment_of items suffix) = Some b → checkpoint_at (i :: items) suffix b).
  { intros b (before & after & -> & Hb)%IHat. by exists (i :: before), after. }
  destruct i as [| | | |c|ctx| | | | |[]|]; simpl; rewrite ?omap_cons_or; simpl; try done.
  - destruct (seg_base_compaction (segment_of items suffix)) as [b|] eqn:E; simpl in *.
    + split; [|naive_solver]. destruct (replacement_history c); simpl; [by rewrite last_cons_or, <- IH|done].
    + destruct (replacement_history c); simpl; [|naive_solver]. rewrite last_cons_or, <- IH. split; [done|].
      intros b [= <-]. by exists [], items.
  - unfold segment_turn_context. by destruct (turn_ids_are_compatible _ _).
Qed.

Lemma reference_item_set items r : last (omap reference_item items) = Some r → is_never_set r = false.
Proof. intros Hr%last_Some_elem_of%list_elem_of_omap. destruct Hr as ([] & _ & [= <-]); done. Qed.

Lemma segment_of_context t items suffix :
  Forall (turn_item_ok t) items →
  seg_previous_turn_settings (segment_of items suffix) = head (omap settings_item items) ∧
  seg_reference_context_item (segment_of items suffix) = default NeverSet (last (omap reference_item items)).
Proof.
  intros Hok. induction Hok as [|i items Hi Hok [IHs IHr]]; [done|]. rewrite segment_of_cons.
  destruct i as [| | | |c|ctx| | | | |[]|]; simpl; rewrite ?omap_cons_or; simpl; try done.
  - split; [done|]. rewrite last_cons_or, IHr. destruct (last _) as [r|] eqn:Hr; [|done]. simpl. by rewrite (reference_item_set items r).
  - pose proof (segment_of_turn_id t items suffix Hok) as Hid. unfold segment_turn_context.
    assert (turn_ids_are_compatible (seg_turn_id (set_turn_id (ctx_turn_id ctx) (segment_of items suffix))) (ctx_turn_id ctx) = true) as ->.
    { simpl in *. destruct (ctx_turn_id ctx), (seg_turn_id _); simpl in *; subst; try done. by apply bool_decide_true. }
    simpl. split; [done|]. rewrite last_cons_or, IHr. destruct (last _) as [r|] eqn:Hr; [|done]. simpl. by rewrite (reference_item_set items r).
Qed.

(** * The turns that survive *)

Lemma head_omap_snoc {A B} (f : A → option B) l x : head (omap f (l ++ [x])) = or_else (head (omap f l)) (f x).
Proof. rewrite omap_app. destruct (omap f l); [|done]. simpl. rewrite omap_cons_or. by destruct (f x). Qed.

Definition turn_ok (x : list RolloutItem * list RolloutItem) : Prop := ∃ t, Forall (turn_item_ok t) x.1.

Lemma segment_of_baseline items suffix : has_context_baseline (segment_of items suffix) = turn_has_baseline items.
Proof. unfold has_context_baseline, turn_has_baseline. by rewrite segment_of_counts, segment_of_world. Qed.

Lemma turn_reference_set items r : turn_reference items = Some r → is_never_set r = false.
Proof.
  unfold turn_reference. destruct (last _) as [r'|] eqn:E; [|done]. simpl.
  destruct (_ || _); [|done]. intros [= <-]. by eapply reference_item_set.
Qed.

Lemma accepted_fields turns :
  Forall turn_ok turns →
  let st := accepted turns in
  base_compaction st = head (omap (λ x, seg_base_compaction (segment_of x.1 x.2)) turns) ∧
  previous_turn_settings st = head (omap turn_settings turns.*1) ∧
  reference_context_item st = default NeverSet (head (omap turn_reference turns.*1)) ∧
  world_state_replay st = reverse (omap world_record (concat (reverse turns.*1))) ∧
  window st = head (omap (λ items, last (omap window_item items)) turns.*1).
Proof.
  intros Hok. induction turns as [|x turns IH] using rev_ind; [done|].
  apply Forall_app in Hok as [Hok [t Hx]%Forall_singleton]. destruct (IH Hok) as (Hb & Hs & Hr & Hw & Hwin). clear IH.
  destruct (segment_of_context t x.1 x.2 Hx) as [Hxs Hxr]. cbv zeta. rewrite accepted_snoc.
  destruct (accepted_idle turns) as [_ Hp]. unfold finalize_active_segment. rewrite Hp. simpl.
  rewrite fmap_app, head_omap_snoc, segment_of_baseline, Hb, Hs, Hr, Hw, Hwin, Hxs, Hxr, segment_of_world, segment_of_window. simpl.
  split_and!; rewrite ?head_omap_snoc; try done.
  - by destruct (head (omap turn_settings turns.*1)).
  - destruct (head (omap turn_reference turns.*1)) as [r|] eqn:Hh; simpl.
    + assert (Hset : is_never_set r = false); [|by rewrite Hset].
      apply head_Some in Hh as [l Hl]. assert (Hin : r ∈ omap turn_reference turns.*1) by (rewrite Hl; left).
      apply list_elem_of_omap in Hin as (items & _ & Hi). by eapply turn_reference_set.
    + unfold turn_reference. destruct (last _) as [r|]; simpl; [|by rewrite orb_false_r; destruct (turn_has_baseline _)].
      by destruct (turn_has_baseline x.1 || is_cleared r).
  - rewrite reverse_snoc. simpl. by rewrite omap_app, reverse_app.
Qed.

Lemma drop_turns_forall (P : list RolloutItem * list RolloutItem → Prop) n turns :
  Forall P turns → Forall P (drop_turns n turns).
Proof.
  intros HP. revert n. induction HP as [|t turns Ht HP IH]; intros n; simpl; [done|].
  destruct (n =? 0)%N; [by constructor|apply IH].
Qed.

(** Where a surviving turn is in the rollout. *)
Definition located (whole : list RolloutItem) (x : list RolloutItem * list RolloutItem) : Prop :=
  ∃ before, whole = before ++ x.1 ++ x.2.

Lemma survivors_located whole before stack entries :
  whole = before ++ rollout_items entries → Forall entry_ok entries →
  Forall (λ x, turn_ok x ∧ located whole x) stack → Forall (λ x, turn_ok x ∧ located whole x) (survivors stack entries).
Proof.
  revert before stack. induction entries as [|e entries IH]; intros before stack Hw Hok Hs; [done|].
  inversion Hok as [|? ? He Hes]; subst. destruct e as [t items|n]; simpl.
  - apply (IH (before ++ Event (TurnStarted t) :: items)); [by rewrite <- app_assoc|done|].
    constructor; [|done]. split; [by exists t|].
    exists (before ++ [Event (TurnStarted t)]). by rewrite <- app_assoc.
  - apply (IH (before ++ [Event (ThreadRolledBack n)])); [by rewrite <- app_assoc|done|by apply drop_turns_forall].
Qed.

Lemma head_omap_last {A B} (f : A → option B) (turns : list (list A)) :
  head (omap (λ l, last (omap f l)) turns) = last (omap f (concat (reverse turns))).
Proof.
  induction turns as [|t turns IH]; [done|].
  rewrite reverse_cons, concat_app, omap_app, omap_cons_or, last_app. simpl. rewrite app_nil_r, <- IH.
  by destruct (last (omap f t)).
Qed.

Lemma head_omap_fmap {A B C} (f : A → option B) (h : B → C) l : h <$> head (omap f l) = head (omap (λ x, h <$> f x) l).
Proof.
  induction l as [|x l IH]; [done|]. rewrite !omap_cons_or. destruct (f x); simpl; [done|]. exact IH.
Qed.

Lemma accepted_base turns :
  Forall turn_ok turns →
  checkpoint_compacted <$> base_compaction (accepted turns) = last (omap checkpoint_of (concat (reverse turns.*1))).
Proof.
  intros Hok. destruct (accepted_fields turns Hok) as [-> _]. rewrite head_omap_fmap, <- head_omap_last.
  clear Hok. f_equal. induction turns as [|x turns IH]; [done|].
  rewrite fmap_cons, !omap_cons_or, IH. by destruct (segment_of_base x.1 x.2) as [-> _].
Qed.

Lemma accepted_suffix whole turns b :
  Forall (λ x, turn_ok x ∧ located whole x) turns → base_compaction (accepted turns) = Some b →
  ∃ before, whole = before ++ Compacted (checkpoint_compacted b) :: checkpoint_suffix b.
Proof.
  intros Hok. destruct (accepted_fields turns) as [-> _]; [by eapply Forall_impl; [exact Hok|intros ? []]|].
  intros [l Hl]%head_Some. assert (Hin : b ∈ omap (λ x, seg_base_compaction (segment_of x.1 x.2)) turns) by (rewrite Hl; left).
  apply list_elem_of_omap in Hin as (x & Hx & Hb). rewrite Forall_forall in Hok. destruct (Hok x Hx) as [_ [before ->]].
  destruct (segment_of_base x.1 x.2) as [_ Hat]. destruct (Hat b Hb) as (b1 & b2 & -> & ->).
  exists (before ++ b1). by rewrite <- !app_assoc.
Qed.

(** The scan, with its early end, of a rollout of turns and rollbacks. *)
Lemma scan_of_rollout t preamble entries :
  Forall (turn_item_ok t) preamble → Forall entry_ok entries → (N.of_nat (S (length entries)) ≤ USIZE_MAX)%N →
  let items := preamble ++ rollout_items entries in
  agree (Forall checkpoint_numbered items) (finish_scan (scan (reverse items) [] start_scan))
    (accepted (survivors [(preamble, rollout_items entries)] entries)).
Proof.
  intros Hpre Hok Hl items. destruct (finish_scan_preamble t preamble entries Hpre Hok Hl) as (Hb & Hs & Hr & Hw & Hwin).
  destruct (scan_agrees (Forall checkpoint_numbered items) items [] start_scan) as (Hb' & Hs' & Hr' & Hw' & Hwin');
    [done|by split; [intros [? ?]|]|].
  fold items in Hb, Hs, Hr, Hw, Hwin. unfold agree. rewrite <- Hb, <- Hs, <- Hr, <- Hw, <- Hwin. done.
Qed.

(** Without rollbacks every turn survives. *)
Definition is_turn (e : Entry) : Prop := match e with Turn _ _ => True | Rollback _ => False end.

Lemma world_items_survive stack entries :
  Forall is_turn entries →
  omap world_record (concat (reverse (survivors stack entries).*1))
  = omap world_record (concat (reverse stack.*1)) ++ omap world_record (rollout_items entries).
Proof.
  intros Hturns. revert stack. induction Hturns as [|e entries He Hturns IH]; intros stack; simpl; [by rewrite app_nil_r|].
  destruct e as [t items|n]; [|done]. rewrite IH. rewrite fmap_cons, reverse_cons, concat_app, omap_app. simpl.
  rewrite app_nil_r, <- app_assoc, <- omap_app. done.
Qed.

(** * Cutting a rollout at a user message *)

(** The positions below the one that is pushed were there before. *)
Lemma user_positions_prefix items n cut :
  user_message_positions_in_rollout items !! n = Some cut →
  user_message_positions_in_rollout (take cut items) = take n (user_message_positions_in_rollout items) ∧ cut < length items.
Proof.
  unfold user_message_positions_in_rollout.
  induction items as [|i items IH] using rev_ind; [done|].
  rewrite imap_app, foldl_app. simpl. rewrite Nat.add_0_r. set (ps := foldl user_position [] (imap pair items)) in *.
  assert (Hold : ps !! n = Some cut →
    foldl user_position [] (imap pair (take cut (items ++ [i]))) = take n ps ∧ cut < length (items ++ [i])).
  { intros Hn. destruct (IH Hn) as [IH1 IH2]. rewrite take_app_le by lia. rewrite length_app. simpl. split; [done|lia]. }
  destruct i as [|e| | | | | | | | |[]|]; try done; simpl.
  - destruct (is_real_user_message_boundary _); [|done].
    destruct (decide (n < length ps)) as [Hlt|Hge].
    + rewrite lookup_app_l by done. by rewrite (take_app_le ps) by lia.
    + intros Hn. pose proof (lookup_lt_Some _ _ _ Hn) as Hlen. rewrite length_app in *. simpl in *.
      assert (n = length ps) as -> by lia. rewrite list_lookup_middle in Hn by done. simplify_eq.
      rewrite !take_app_length. split; [done|lia].
  - intros Hn. assert (Hk : n < length ps - N.to_nat num_turns).
    { apply lookup_lt_Some in Hn. rewrite length_take in Hn. lia. }
    rewrite lookup_take_lt in Hn by done. rewrite take_take, Nat.min_l by lia. by apply Hold.
Qed.

(** * Dropping turns from a history *)

Implicit Types (history : list (ResponseItemEnvelope H)).

Lemma user_message_positions_snoc history e :
  user_message_positions (history ++ [e])
  = user_message_positions history ++ (if is_user_turn_boundary (item e) then [length history] else []).
Proof.
  unfold user_message_positions. rewrite imap_app, omap_app. simpl. rewrite omap_cons_or, Nat.add_0_r.
  by destruct (is_user_turn_boundary (item e)).
Qed.

Lemma user_message_positions_prefix history k p :
  user_message_positions history !! k = Some p →
  user_message_positions (take p history) = take k (user_message_positions history) ∧ p < length history.
Proof.
  induction history as [|e history IH] using rev_ind; [done|].
  rewrite user_message_positions_snoc, length_app. simpl. intros Hk.
  destruct (decide (k < length (user_message_positions history))) as [Hlt|Hge].
  - rewrite lookup_app_l in Hk by done. destruct (IH Hk) as [IH1 IH2].
    rewrite (take_app_le history), IH1, take_app_le by lia. split; [done|lia].
  - pose proof (lookup_lt_Some _ _ _ Hk) as Hlen. rewrite length_app in Hlen.
    destruct (is_user_turn_boundary (item e)); simpl in *; [|lia].
    assert (k = length (user_message_positions history)) as -> by lia.
    rewrite list_lookup_middle in Hk by done. simplify_eq. rewrite !take_app_length. split; [done|lia].
Qed.

Lemma context_update_not_boundary (e : ResponseItemEnvelope H) : is_pre_turn_context_update e = true → is_user_turn_boundary (item e) = false.
Proof.
  unfold is_pre_turn_context_update, is_user_turn_boundary. destruct (item e); try done.
  destruct (is_contextual_user_message_content content); simpl; rewrite ?andb_false_r, ?andb_true_r; simpl.
  - intros [[Hr _]%andb_true_iff|Hr]%orb_true_iff; apply bool_decide_eq_true in Hr as ->; by rewrite bool_decide_false.
  - rewrite orb_false_r. intros [Hr _]%andb_true_iff. apply bool_decide_eq_true in Hr as ->. by rewrite !bool_decide_false.
Qed.

Lemma trim_keeps_boundaries history first cut :
  cut ≤ length history →
  trim_pre_turn_context_updates history first cut ≤ cut ∧
  user_message_positions (take (trim_pre_turn_context_updates history first cut) history)
  = user_message_positions (take cut history).
Proof.
  induction cut as [|before IH]; intros Hc; simpl; [done|]. destruct (first <? S before); [|done].
  destruct (history !! before) as [e|] eqn:He; [|done]. destruct (is_pre_turn_context_update e) eqn:Hu; [|done].
  destruct IH as [Hle IH]; [lia|]. split; [lia|].
  by rewrite IH, (take_S_r _ _ _ He), user_message_positions_snoc, context_update_not_boundary, app_nil_r.
Qed.

(** Rebuilding developer messages makes no boundary. *)
Lemma retain_first_turn_item_boundary t (e e' : ResponseItemEnvelope H) :
  retain_first_turn_item t e = Some e' → is_user_turn_boundary (item e') = is_user_turn_boundary (item e).
Proof.
  unfold retain_first_turn_item. destruct (item e) as [|id role content phase m| | | | | | | | | | | | | | | |] eqn:Hi;
    try (intros [= <-]; by rewrite Hi).
  destruct (_ && _) eqn:Hd; [|intros [= <-]; by rewrite Hi].
  apply andb_true_iff in Hd as [_ Hr]. apply bool_decide_eq_true in Hr as ->. simpl.
  destruct (filter _ _); [done|]. intros [= <-]. simpl. done.
Qed.

Lemma no_boundaries history :
  user_message_positions history = [] ↔ Forall (λ e, is_user_turn_boundary (item e) = false) history.
Proof.
  induction history as [|e history IH] using rev_ind; [by split|].
  rewrite user_message_positions_snoc, Forall_app, Forall_singleton, <- IH.
  destruct (is_user_turn_boundary (item e)); [|rewrite app_nil_r; naive_solver].
  split; [by destruct (user_message_positions history)|naive_solver].
Qed.

(** * Guarantees *)

Definition reference_of (turns : list (list RolloutItem)) : option TurnContextItem :=
  match head (omap turn_reference turns) with Some (Latest ctx) => Some ctx | _ => None end.

(** C8: Resuming reads the turns that survive. For a rollout of turns and rollbacks, the scan that
    goes backwards, counts rollbacks and stops early finds: the last checkpoint of the
    surviving turns and everything after it; the settings of the newest surviving turn with a
    context and its context, unless a compaction cleared it; the world as the surviving
    records describe it; and the window of the last numbered compaction. *)
Theorem resume_reads_surviving_turns t preamble entries :
  Forall (turn_item_ok t) preamble → Forall entry_ok entries → (N.of_nat (S (length entries)) ≤ USIZE_MAX)%N →
  let items := preamble ++ rollout_items entries in
  let turns := surviving preamble entries in
  let chronological := concat (reverse turns) in
  let r := reconstruct_history_from_rollout items in
  r_checkpoint r = last (omap checkpoint_of chronological) ∧
  match r_checkpoint r with
  | Some c => ∃ before, items = before ++ Compacted c :: r_suffix r
  | None => r_suffix r = items
  end ∧
  r_previous_turn_settings r = head (omap turn_settings turns) ∧
  r_reference_context_item r = (if existsb is_legacy_compaction (r_suffix r) then None else reference_of turns) ∧
  r_world_state_baseline r = replay_world_state (omap world_record chronological) ∧
  (Forall checkpoint_numbered items →
   r_window r = default (fallback_window items) (or_else (last (omap window_item chronological)) (initial_window items))).
Proof.
  intros Hpre Hok Hl items turns chronological r.
  destruct (scan_of_rollout t preamble entries Hpre Hok Hl) as (Hb & Hs & Hr & Hw & Hwin).
  set (K := survivors [(preamble, rollout_items entries)] entries) in *.
  assert (HK : Forall (λ x, turn_ok x ∧ located items x) K).
  { apply (survivors_located _ preamble); [done..|]. constructor; [|done]. split; [by exists t|by exists []]. }
  assert (Hturns : Forall turn_ok K) by (eapply Forall_impl; [exact HK|by intros ? []]).
  destruct (accepted_fields K Hturns) as (_ & Hs' & Hr' & Hw' & Hwin').
  pose proof (accepted_base K Hturns) as Hb'. fold items in Hb, Hs, Hr, Hw, Hwin.
  unfold r, reconstruct_history_from_rollout. simpl. rewrite Hb, Hs, Hr, Hw.
  split_and!; [done| |done| |by rewrite Hw', reverse_involutive|].
  - destruct (base_compaction (accepted K)) as [b|] eqn:E; [|done]. by eapply accepted_suffix.
  - destruct (existsb _ _); [done|]. rewrite Hr'. unfold reference_of. change turns with (K.*1).
    by destruct (head (omap turn_reference K.*1)) as [[]|].
  - intros Hnum. rewrite (Hwin Hnum), Hwin', head_omap_last. done.
Qed.

(** C27: A resumed session continues from the world that the model was told about. When the records
    of the rollout are those that a session persisted, through context updates, steps and
    compactions, the snapshot that resuming reads is the one the session had. *)
Theorem resumed_world_state_is_live t preamble entries (ops : list SessionOp) :
  Forall (turn_item_ok t) preamble → Forall entry_ok entries → (N.of_nat (S (length entries)) ≤ USIZE_MAX)%N →
  Forall is_turn entries →
  omap world_record (preamble ++ rollout_items entries) = persisted_records (run_session ops) →
  r_world_state_baseline (reconstruct_history_from_rollout (preamble ++ rollout_items entries))
  = world_state_baseline (run_session ops).
Proof.
  intros Hpre Hok Hl Hturns Hrec. destruct (run_session_ok ops) as [Hlive _]. rewrite <- Hlive, <- Hrec.
  destruct (scan_of_rollout t preamble entries Hpre Hok Hl) as (_ & _ & _ & Hw & _).
  unfold reconstruct_history_from_rollout. simpl. rewrite Hw.
  assert (HK : Forall turn_ok (survivors [(preamble, rollout_items entries)] entries)).
  { eapply Forall_impl; [eapply (survivors_located _ preamble); [done|done|]|by intros ? []].
    constructor; [|done]. split; [by exists t|by exists []]. }
  destruct (accepted_fields _ HK) as (_ & _ & _ & -> & _). rewrite reverse_involutive, world_items_survive by done.
  simpl. by rewrite app_nil_r, omap_app.
Qed.

(** Dropping turns from a history removes exactly the last [n] messages that start a turn, with
    what follows the first of them. *)
Theorem drop_removes_last_n_turns n history :
  length (user_message_positions (drop_last_n_user_turns n history))
  = length (user_message_positions history) - N.to_nat n.
Proof.
  unfold drop_last_n_user_turns. destruct (n =? 0)%N eqn:En; [apply N.eqb_eq in En as ->; simpl; lia|].
  apply N.eqb_neq in En. set (ps := user_message_positions history).
  destruct ps as [|first rest] eqn:Hps; [fold ps; rewrite Hps; simpl; lia|]. rewrite <- Hps.
  set (cut := if length ps <=? N.to_nat n then first else nth (length ps - N.to_nat n) ps first).
  assert (Hcut : ps !! (length ps - N.to_nat n) = Some cut).
  { unfold cut. destruct (Nat.leb_spec (length ps) (N.to_nat n)).
    - replace (length ps - N.to_nat n) with 0 by lia. by rewrite Hps.
    - destruct (lookup_lt_is_Some_2 ps (length ps - N.to_nat n)) as [p Hp]; [lia|]. rewrite Hp. f_equal. symmetry. by apply nth_lookup_Some. }
  destruct (user_message_positions_prefix history _ _ Hcut) as [Hpre Hlt].
  destruct (trim_keeps_boundaries history first cut) as [Hle Htrim]; [lia|]. rewrite Hpre in Htrim. fold ps in Htrim.
  set (c := trim_pre_turn_context_updates history first cut) in *.
  assert (Hlen : length (user_message_positions (take c history)) = length ps - N.to_nat n).
  { rewrite Htrim, length_take. lia. }
  destruct (c =? first) eqn:Ec; [|done]. destruct (_ ≫= _) as [t|]; [|done]. apply Nat.eqb_eq in Ec. rewrite Ec in *.
  destruct (user_message_positions_prefix history 0 first) as [Hfirst _]; [by fold ps; rewrite Hps|].
  rewrite Hfirst in Hlen. simpl in Hlen. rewrite <- Hlen. apply length_zero_iff_nil, no_boundaries, Forall_forall.
  intros e' (e & He & Hr)%list_elem_of_omap. rewrite (retain_first_turn_item_boundary t e e' Hr).
  apply no_boundaries in Hfirst. rewrite Forall_forall in Hfirst. by apply Hfirst.
Qed.

(** Cutting a rollout before its nth user message leaves the first [n] user messages that were
    not rolled back. *)
Theorem truncated_rollout_keeps_first_user_messages items n :
  n < length (user_message_positions_in_rollout items) →
  user_message_positions_in_rollout (truncate_rollout_before_nth_user_message_from_start items (Some n))
  = take n (user_message_positions_in_rollout items).
Proof.
  intros [cut Hcut]%lookup_lt_is_Some. unfold truncate_rollout_before_nth_user_message_from_start. rewrite Hcut.
  by apply user_positions_prefix.
Qed.
End Facts.

(** * A sample rollout *)

Definition sample_types : ProtocolTypes := Build_ProtocolTypes unit unit unit unit unit unit unit unit unit unit.
#[local] Existing Instance sample_types.
Definition sample_rollout_lib : RolloutLib := {|
  hook_prompt_from_xml _ := None;
  is_inter_agent_json _ := false;
  Uuid := str;
  uuid_parse_str s := Some s;
  get_version_num _ := 7%N;
|}.
#[local] Existing Instance sample_rollout_lib.
Abbreviation SampleItem := (RolloutItem (Number := unit) (H := unit) (TurnContextRest := unit)).

Definition sample_context (turn model : string) : SampleItem :=
  TurnContext (mkTurnContext (Some (lit turn)) (lit model) None None tt).
Definition sample_message (text : string) : ResponseItemEnvelope unit :=
  new_envelope (Message None (lit "user") [CInputText (lit text)] None None).
Definition sample_sections (v : Value unit) : list (str * option (Value unit)) := [(lit "environment", Some v)].
Definition sample_world (v : Value unit) : SampleItem :=
  World (mkWorldState true (snapshot (sample_sections v))).
Definition sample_checkpoint : SampleItem :=
  Compacted (mkCompacted (lit "summary") (Some [sample_message "summary"]) (Some 1%N) None None (Some (lit "w"))).

(** The second turn, which compacted the history, is rolled back. *)
Definition sample_entries : list (Entry (Number := unit) (H := unit) (TurnContextRest := unit)) :=
  [Turn (lit "t1") [sample_world (JBool true); sample_context "t1" "first"; Response (sample_message "hi");
                    Event (TurnComplete (lit "t1"))];
   Turn (lit "t2") [sample_context "t2" "second"; Response (sample_message "more"); sample_checkpoint;
                    Event (TurnAborted (Some (lit "t2")))];
   Rollback 1;
   Turn (lit "t3") [Event OtherEvent; Event (TurnComplete (lit "t3"))]].

Lemma sample_entries_ok : Forall entry_ok sample_entries.
Proof. repeat constructor. Qed.

Lemma resume_reads_surviving_turns_witness :
  r_checkpoint (reconstruct_history_from_rollout ([SessionMeta None] ++ rollout_items sample_entries)) = None ∧
  r_previous_turn_settings (reconstruct_history_from_rollout ([SessionMeta None] ++ rollout_items sample_entries))
  = Some (mkSettings (lit "first") None None).
Proof.
  destruct (resume_reads_surviving_turns (lit "t0") [SessionMeta None] sample_entries) as (Hc & _ & Hs & _).
  - repeat constructor.
  - apply sample_entries_ok.
  - vm_compute. discriminate.
  - split; [rewrite Hc|rewrite Hs]; vm_compute; reflexivity.
Defined.

Definition sample_ops : list (SessionOp (Number := unit)) :=
  [RecordContextUpdates (sample_sections (JBool true)) true; RecordStepWorldState (sample_sections JNull);
   ReplaceCompactedHistory true; RecordStepWorldState (sample_sections (JString (lit "cwd")))].

Definition sample_live_entries : list (Entry (Number := unit) (H := unit) (TurnContextRest := unit)) :=
  [Turn (lit "t1") [sample_world (JBool true); World (mkWorldState false {[lit "environment" := JNull]});
                    sample_checkpoint; World (mkWorldState true ∅);
                    World (mkWorldState false {[lit "environment" := JString (lit "cwd")]})]].

Lemma resumed_world_state_is_live_witness :
  r_world_state_baseline (reconstruct_history_from_rollout ([] ++ rollout_items sample_live_entries))
  = Some {[lit "environment" := JString (lit "cwd")]}.
Proof.
  rewrite (resumed_world_state_is_live (lit "t0") [] sample_live_entries sample_ops).
  - vm_compute. reflexivity.
  - constructor.
  - repeat constructor.
  - vm_compute. discriminate.
  - repeat constructor.
  - vm_compute. reflexivity.
Defined.

(** A turn in which the user wrote twice: rolling back one turn takes back its settings and
    context, but of its messages only the last. *)
Lemma steered_turn_rolled_back_in_part :
  let entries := [Turn (lit "t1") [sample_context "t1" "first"; Response (sample_message "one"); Response (sample_message "two")];
                  Rollback 1] in
  r_previous_turn_settings (reconstruct_history_from_rollout (rollout_items entries)) = None ∧
  drop_last_n_user_turns 1 [sample_message "one"; sample_message "two"] = [sample_message "one"].
Proof. split; vm_compute; reflexivity. Qed.
